(* ===== verification/_CoqProject ===== *)
-Q . S2P
Prelude.v
BTree.v
Error.v
Address.v
Region.v
Sync.v
Kbuf.v
Smalloc.v
Slab.v
Phys.v
PhysInv.v
PhysInit.v
Vma.v
MemoryMap.v
MemoryMapInv.v
MemoryMapOps.v
MemoryMapThms.v
MemoryFrames.v
ProcVm.v
MemoryFork.v
MemoryRemap.v
MmapSys.v
Fault.v
Blk.v
Attr.v
Creds.v
Fat32.v
Fat32Dir.v
PgDesc.v
PgTables.v
PgInv.v
PgTlb.v
PgMap.v
PgWalk.v
PgThms.v
PgTear.v
ArmSpace.v
TaskState.v
Sched.v
Affinity.v
TmpFile.v
TmpDir.v
FdTable.v
FdCalls.v
Paths.v
Signals.v
