(* ===== verification/Prelude.v ===== *)
(** * Moss: a verification development of the moss kernel

    Moss is a kernel for arm64 written in Rust.  The crate libkernel (src/libkernel) holds what does
    not depend on the machine: allocators, page tables, the memory map of processes, synchronisation,
    file systems.  The kernel itself (src/src) holds system calls, faults, the scheduler and drivers.
    This library translates parts of both into functions and step relations, one file per
    component or group of lemmas, and proves what the rest of the kernel relies on.
    In comments, libkernel/src/.. and src/.. are paths below src/.

    ** How the parts interact

    Physical memory: the boot allocator smalloc records memory and reservations; from it the buddy
    allocator is initialised, which hands out blocks of frames, and a slab is such a block cut
    into objects.  Virtual memory: page table code, generic in the levels, implements the
    address spaces of processes; a memory map keeps the areas of a process and changes an
    address space through the trait UserAddressSpace; the system calls mmap, munmap, mremap,
    mprotect and brk work on the memory map and give the frames they take out of page tables back
    to the buddy allocator; page faults fill the pages in.  Files: the FAT32 volumes read a block
    device through a buffer, the in-memory file system takes its pages from the buddy allocator,
    access checks use file attributes and the credentials of processes, descriptor tables share
    open files.  Tasks: the state of a task is an atomic word that its processor and its wakers
    change concurrently; runnable tasks wait in a run queue per processor; waiting is built on waker sets;
    signals are posted to a process or a task and delivered on the way back to user space.

    ** Files and the code they model

    - Prelude, BTree: the outcome monad, machine integers, list lemmas, ordered maps of the standard
      library.  Error: libkernel/src/error.rs, error/syscall_error.rs.
    - Address, Region: libkernel/src/memory/address.rs, page.rs, region.rs.
    - Smalloc: memory/allocators/smalloc.rs.  Slab: allocators/slab/slab.rs, slab/mod.rs.  Phys (model),
      PhysInv (invariant), PhysInit (start-up, theorems): allocators/frame.rs, phys.rs.
    - Vma, MemoryMap: memory/paging/permissions.rs, memory/address_space.rs, proc_vm/vmarea.rs,
      proc_vm/memory_map/mod.rs.  MemoryMapInv, MemoryMapOps, MemoryMapThms, MemoryFrames, MemoryFork,
      MemoryRemap: what its operations do to areas, translations and references of frames.
    - ProcVm: proc_vm/mod.rs, src/memory/brk.rs.  MmapSys: src/memory/mmap.rs.  Fault: src/memory/fault.rs,
      shared_anon.rs, libkernel memory/claimed_page.rs.
    - PgDesc: the descriptors of arm64 and x86_64 (libkernel/src/arch).  PgTables: memory/paging/mod.rs,
      walk.rs, tear_down.rs, and pg_tables.rs, pg_walk.rs, pg_tear_down.rs of both.  PgInv, PgTlb, PgMap, PgWalk,
      PgThms, PgTear: their trees, their effect on the translation of every address, the TLB, tear-down.
      ArmSpace: src/arch/arm64/memory/address_space.rs.
    - Sync: libkernel/src/sync (waker sets, condition variables, mutex, rwlock, channel, once lock).
      Kbuf: memory/kbuf.rs.
    - TaskState: src/sched/sched_task/state.rs, waker.rs, uspc_ret.rs.  Sched, Affinity: src/sched/runqueue,
      sched_task/mod.rs, sched/mod.rs, sched/syscalls/mod.rs.
    - Attr: libkernel/src/fs/attr.rs, proc/caps.rs, proc/ids.rs.  Creds: src/process/creds.rs, caps.rs, prctl.rs.
    - Blk: libkernel/src/fs/blk.  Fat32, Fat32Dir: fs/filesystems/fat32.  TmpFile, TmpDir: fs/filesystems/tmpfs.rs.
    - FdTable (model), FdCalls (theorems): src/process/fd_table.rs, fd_table/dup.rs, fd_table/fcntl.rs,
      src/fs/syscalls/close.rs, parts of src/fs/pipe.rs, process/clone.rs and exec.rs.
      Paths: libkernel/src/fs/path.rs, pathbuf.rs.
    - Signals: src/process/thread_group.rs, thread_group/signal.rs, thread_group/signal, the signal loop of
      src/sched/uspc_ret.rs, src/arch/arm64/proc/signal.rs.

    ** Conventions

    A struct is a record, an enum an inductive type with the constructors of the source, an operation
    one definition that keeps its name, with a prefix where two would clash.  The loops and branches of a
    long function are definitions of their own, placed before it.  A method with
    [&mut self] returns the state it leaves behind, on errors too.  A panic is the value [Panic]:
    that it is not reached is part of the theorems.  Integers are [Z] with the wrap-around of the release
    profile written out.  References are identities (frame numbers, inode numbers, file
    numbers), and state behind a shared reference lives in one store.  Code under a spin lock is one step;
    the task state, which has no lock, is modelled access by access.  An [await] splits an operation
    where what happens in between matters (futures in Sync and Kbuf, deferred faults).
    Third-party code is a class with laws, used by name and instantiated in the witnesses:
    intrusive lists ([IntrusiveList] in Phys), the ring buffer ([RingBuf] in Kbuf).  The traits of the kernel
    are classes too ([UserAddressSpace], [BlockDevice], [Fat32Operations], [Level]); the
    clients are proved against the laws, and the implementations discharge them ([ArmSpace],
    the RAM disk, the volumes, the levels of both architectures).  What user memory holds
    is an argument.

    ** What the theorems show

    - Frames (PhysInit, Slab, Smalloc): allocation returns free, aligned memory and takes exactly that;
      after any sequence of operations no frame and no object has two holders; start-up hands over
      only memory outside every reservation.
    - Areas and system calls (MemoryMapThms, MemoryRemap, MemoryFork, ProcVm, MmapSys): each call maps, unmaps
      or changes exactly its range, on every branch; fork leaves no page writable in two
      processes; in any order the calls keep areas, page tables and reference counts consistent and do
      not panic on ranges of user space.
    - Faults (Fault): demand and copy-on-write faults are resolved with the right contents, and races
      neither leak nor lose a page.
    - Page tables (PgDesc, PgThms, PgTear, PgTlb, ArmSpace): descriptors round trip; mapping, changing
      and unmapping have exactly their effect on the translation of every address; tear-down frees each table
      and frame once; updates obey break-before-make; an arm64 address space refines a map of pages.
    - Waiting and scheduling (Sync, Kbuf, TaskState, Sched, Affinity): exclusion, no lost wake-up under
      every interleaving, first-in first-out order, the choice of the earliest eligible deadline, the
      accounts of the run queue.
    - Signals (Signals): no mask and no action holds off SIGKILL, and signals posted while others are
      taken are neither lost nor taken twice.
    - Files (Attr, Creds, Blk, Fat32, Fat32Dir, TmpFile, TmpDir, FdCalls, Paths): access checks decide the
      POSIX rule, credentials never grow, files of both file systems behave as lists of bytes,
      directories read back as written, renaming moves one entry, descriptor calls refine a map,
      reference counts of open files are exact, paths in normal form are taken apart and put together.

    Each file ends its theorems with lemmas on defects where the code departs from what its
    comments or callers expect; they are concrete runs or general statements about the same definitions.

    ** Bounds and fuel

    Recursion that is not structural carries fuel, and running out is the value [OutOfFuel].  It is
    computed from the data and the theorems show that it suffices: the number of pages for [map_loop]
    and [follow_head], the length of a region list for the scans of Smalloc, the lengths of
    the queues in Sched, the number of bytes in TmpFile and Paths,
    63 rounds of the signal loop for the two sets of 31 signals.  The reads of FAT32 recurse on the clusters
    of a chain as far as the buffer goes; a directory needs fuel for the entries on disk, which
    is an argument, since a damaged chain may be cyclic.  In Smalloc [realloc_fuel] bounds the mutual
    growing of the two region lists; the theorems are about lists that may not grow, and the kernel
    never permits growing them.  Bounds on sizes (addresses below 2^48, memory below 2^64,
    [vec_max] of FdTable at most 2^31) are hypotheses that the machine or a type gives.

    ** Not modelled

    - Assembly, system registers, the TLB beyond its log, interrupt controllers, drivers and boot code:
      they are accesses to hardware.
    - ext4 and TCP: wrappers of third-party crates.
    - The virtual file system (mounts, path resolution over dynamically typed inodes), proc, sys and dev:
      asynchronous calls over trait objects and text output; the file systems below are modelled.
    - Tracing, signalfd, futexes, wait, timers, polling, terminals, sockets, inotify: not reached.  The waker sets
      and condition variables they wait on are modelled.
    - Copies from and to user memory: their results are arguments of the calls.
    - The per-CPU front end of the slab allocator, and growing of the region lists as far as theorems go. *)
From Stdlib Require Export ZArith Lia Bool Sorting.Sorted.
From stdpp Require Export base numbers list option decidable sets.
Local Open Scope Z_scope.

(** ** Outcomes of Rust code

    [Return a] is a normal return, [Panic] an explicit panic (a failed [assert!],
    an [unwrap] of [None], an [unreachable!]), [OutOfFuel] the model's own
    exhaustion of the fuel it gives to a loop; the theorems show it is not
    reached. *)
Inductive outcome (A : Type) : Type :=
| Return (a : A)
| Panic
| OutOfFuel.
Arguments Return {A} a.
Arguments Panic {A}.
Arguments OutOfFuel {A}.

Definition obind {A B : Type} (m : outcome A) (k : A -> outcome B) : outcome B :=
  match m with
  | Return a => k a
  | Panic => Panic
  | OutOfFuel => OutOfFuel
  end.

(** [assert!(b)] *)
Definition rassert (b : bool) : outcome unit :=
  if b then Return tt else Panic.

(** [Option::unwrap] / [expect] *)
Definition unwrap {A : Type} (o : option A) : outcome A :=
  match o with Some a => Return a | None => Panic end.

Declare Scope moss_scope.
Delimit Scope moss_scope with moss.
Notation "'let!' x := m 'in' k" := (obind m (fun x => k))
  (at level 10, x pattern, m at level 200, k at level 200) : moss_scope.
Notation "'assert!' b ; k" := (obind (rassert b) (fun _ => k))
  (at level 10, b at level 100, k at level 200) : moss_scope.
Open Scope moss_scope.

(** ** Machine integers

    [usize] and [u64] are 64 bits wide.  Unchecked arithmetic wraps, as it does
    in the release profile of Cargo.toml (which does not enable overflow
    checks); the theorems carry the bounds under which nothing wraps. *)
Definition usize_bits : Z := 64.
Definition usize_max : Z := 2 ^ 64 - 1.
Definition usize_ok (x : Z) : Prop := 0 <= x < 2 ^ 64.

Definition wrap (x : Z) : Z := x mod 2 ^ 64.
Definition uadd (a b : Z) : Z := wrap (a + b).
Definition usub (a b : Z) : Z := wrap (a - b).
Definition umul (a b : Z) : Z := wrap (a * b).
Definition ushl (a k : Z) : Z := wrap (Z.shiftl a k).
Definition unot (a : Z) : Z := usize_max - a.
Definition saturating_sub (a b : Z) : Z := Z.max 0 (a - b).
Definition checked_add (a b : Z) : option Z :=
  if a + b <? 2 ^ 64 then Some (a + b) else None.
Definition is_power_of_two (n : Z) : bool := (0 <? n) && (n =? 2 ^ Z.log2 n).
Definition next_power_of_two (n : Z) : Z := 2 ^ Z.log2_up n.
Definition div_ceil (a b : Z) : Z := (a + b - 1) / b.

(** ** Automation *)

(** Turn boolean comparisons of the goal and the context into propositions. *)
Ltac breflect :=
  repeat match goal with
  | H : andb _ _ = true |- _ => apply andb_true_iff in H; destruct H
  | H : andb _ _ = false |- _ => apply andb_false_iff in H
  | H : orb _ _ = true |- _ => apply orb_true_iff in H
  | H : orb _ _ = false |- _ => apply orb_false_iff in H; destruct H
  | H : negb _ = true |- _ => apply negb_true_iff in H
  | H : negb _ = false |- _ => apply negb_false_iff in H
  | H : (_ <? _) = true |- _ => apply Z.ltb_lt in H
  | H : (_ <? _) = false |- _ => apply Z.ltb_ge in H
  | H : (_ <=? _) = true |- _ => apply Z.leb_le in H
  | H : (_ <=? _) = false |- _ => apply Z.leb_gt in H
  | H : (_ =? _) = true |- _ => apply Z.eqb_eq in H
  | H : (_ =? _) = false |- _ => apply Z.eqb_neq in H
  | H : (_ >? _) = true |- _ => rewrite Z.gtb_ltb in H; apply Z.ltb_lt in H
  | H : (_ >? _) = false |- _ => rewrite Z.gtb_ltb in H; apply Z.ltb_ge in H
  | H : (_ >=? _) = true |- _ => rewrite Z.geb_leb in H; apply Z.leb_le in H
  | H : (_ >=? _) = false |- _ => rewrite Z.geb_leb in H; apply Z.leb_gt in H
  end.

(** Case split on the first boolean test of the goal. *)
Ltac bcase :=
  match goal with
  | |- context [if ?b then _ else _] =>
      let E := fresh "E" in destruct b eqn:E; breflect
  end.

Ltac bcases := repeat bcase.

(** Equations of binds that returned. *)
Lemma Return_pair_inj {A B} (a a' : A) (b b' : B) :
  Return (a, b) = Return (a', b') -> a = a' /\ b = b'.
Proof. intros [= -> ->]. done. Qed.

Lemma obind_Return {A B} (m : outcome A) (k : A -> outcome B) b :
  obind m k = Return b <-> exists a, m = Return a /\ k a = Return b.
Proof.
  destruct m; simpl; split; intros H; try discriminate.
  - eauto.
  - destruct H as (a' & [= <-] & H). exact H.
  - destruct H as (? & [=] & _).
  - destruct H as (? & [=] & _).
Qed.

Lemma rassert_Return b u : rassert b = Return u <-> b = true.
Proof. destruct b; simpl; destruct u; split; congruence. Qed.

Lemma unwrap_Return {A} (o : option A) a : unwrap o = Return a <-> o = Some a.
Proof. destruct o; simpl; split; congruence. Qed.

(** Advance past a step whose outcome is known. *)
Ltac ostep := cbn [obind rassert unwrap].

Ltac obind_inv :=
  repeat match goal with
  | H : obind _ _ = Return _ |- _ =>
      apply obind_Return in H; destruct H as (? & ? & ?)
  | H : rassert _ = Return _ |- _ => apply rassert_Return in H
  | H : unwrap _ = Return _ |- _ => apply unwrap_Return in H
  | H : Return _ = Return _ |- _ => injection H as H
  | H : Panic = Return _ |- _ => discriminate H
  | H : OutOfFuel = Return _ |- _ => discriminate H
  end.

(** ** Arithmetic lemmas *)
Create HintDb moss.

Lemma pow2_pos k : 0 <= k -> 0 < 2 ^ k.
Proof. intros. apply Z.pow_pos_nonneg; lia. Qed.
#[export] Hint Resolve pow2_pos : moss.

Lemma wrap_small x : usize_ok x -> wrap x = x.
Proof. intros. apply Z.mod_small. exact H. Qed.

Lemma wrap_ok x : usize_ok (wrap x).
Proof. apply Z.mod_pos_bound. lia. Qed.

Lemma uadd_small a b : 0 <= a -> 0 <= b -> a + b < 2 ^ 64 -> uadd a b = a + b.
Proof. intros. apply wrap_small. unfold usize_ok. lia. Qed.

Lemma usub_small a b : 0 <= b <= a -> a < 2 ^ 64 -> usub a b = a - b.
Proof. intros. apply wrap_small. unfold usize_ok. lia. Qed.

Lemma umul_small a b : 0 <= a * b < 2 ^ 64 -> umul a b = a * b.
Proof. intros. apply wrap_small. exact H. Qed.

Lemma ushl_small a k : 0 <= k -> 0 <= a * 2 ^ k < 2 ^ 64 -> ushl a k = a * 2 ^ k.
Proof. intros. unfold ushl. rewrite Z.shiftl_mul_pow2 by lia. by apply wrap_small. Qed.

Lemma saturating_sub_ge a b : b <= a -> saturating_sub a b = a - b.
Proof. unfold saturating_sub. lia. Qed.

Lemma saturating_sub_lt a b : a <= b -> saturating_sub a b = 0.
Proof. unfold saturating_sub. lia. Qed.

#[export] Hint Resolve wrap_ok : moss.
#[export] Hint Rewrite wrap_small uadd_small usub_small umul_small ushl_small
  saturating_sub_ge saturating_sub_lt using (unfold usize_ok in *; lia) : moss.

Lemma is_power_of_two_spec n :
  is_power_of_two n = true <-> exists k, 0 <= k /\ n = 2 ^ k.
Proof.
  unfold is_power_of_two. split.
  - intros H. breflect. exists (Z.log2 n). split; [apply Z.log2_nonneg|done].
  - intros (k & Hk & ->). rewrite Z.log2_pow2 by done.
    apply andb_true_iff. split; [by apply Z.ltb_lt, pow2_pos | apply Z.eqb_refl].
Qed.

Lemma is_power_of_two_pow2 k : 0 <= k -> is_power_of_two (2 ^ k) = true.
Proof. intros. apply is_power_of_two_spec. eauto. Qed.

Lemma next_power_of_two_spec n : 0 < n ->
  is_power_of_two (next_power_of_two n) = true /\
  n <= next_power_of_two n < 2 * n.
Proof.
  intros Hn. unfold next_power_of_two.
  split; [apply is_power_of_two_pow2, Z.log2_up_nonneg|].
  destruct (Z.eq_dec n 1) as [->|]; [change (2 ^ Z.log2_up 1) with 1; lia|].
  pose proof (Z.log2_up_spec n ltac:(lia)) as [Hlo Hhi].
  pose proof (Z.log2_up_pos n ltac:(lia)).
  split; [lia|].
  replace (Z.log2_up n) with (Z.succ (Z.pred (Z.log2_up n))) by lia.
  rewrite Z.pow_succ_r by lia. lia.
Qed.

Lemma div_ceil_spec a b : 0 <= a -> 0 < b ->
  a <= b * div_ceil a b < a + b.
Proof.
  intros. unfold div_ceil.
  pose proof (Z.div_mod (a + b - 1) b ltac:(lia)).
  pose proof (Z.mod_pos_bound (a + b - 1) b ltac:(lia)). lia.
Qed.

(** [x & !(2^k - 1)] rounds down to a multiple of [2^k]. *)
Lemma land_unot_ones a k : usize_ok a -> 0 <= k <= 64 ->
  Z.land a (unot (2 ^ k - 1)) = a - a mod 2 ^ k.
Proof.
  intros Ha Hk. pose proof (pow2_pos k ltac:(lia)).
  assert (unot (2 ^ k - 1) = Z.ldiff (Z.ones 64) (Z.ones k)) as ->.
  { unfold unot, usize_max.
    rewrite Z.ldiff_ones_r by lia.
    rewrite Z.shiftr_div_pow2, Z.shiftl_mul_pow2, Z.ones_equiv by lia.
    assert (2 ^ 64 = 2 ^ (64 - k) * 2 ^ k) as E.
    { rewrite <- Z.pow_add_r by lia. f_equal. lia. }
    assert ((Z.pred (2 ^ 64)) / 2 ^ k = 2 ^ (64 - k) - 1) as ->.
    { symmetry. apply Z.div_unique_pos with (r := 2 ^ k - 1); lia. }
    lia. }
  assert (Z.land a (Z.ldiff (Z.ones 64) (Z.ones k)) = Z.ldiff a (Z.ones k)) as ->.
  { rewrite <- (Z.mod_small a (2 ^ 64)) at 2 by exact Ha.
    rewrite <- Z.land_ones by lia.
    apply Z.bits_inj'. intros i Hi.
    rewrite !Z.land_spec, !Z.ldiff_spec, !Z.land_spec. by rewrite andb_assoc. }
  rewrite Z.ldiff_ones_r by lia.
  rewrite Z.shiftr_div_pow2, Z.shiftl_mul_pow2 by lia.
  pose proof (Z.div_mod a (2 ^ k) ltac:(lia)). lia.
Qed.

Lemma land_ones_mod a k : 0 <= k -> Z.land a (2 ^ k - 1) = a mod 2 ^ k.
Proof.
  intros. rewrite <- Z.land_ones by lia. f_equal. rewrite Z.ones_equiv. lia.
Qed.

Lemma round_down_multiple a n : 0 < n -> (a - a mod n) mod n = 0.
Proof.
  intros. rewrite Zminus_mod_idemp_r, Z.sub_diag. apply Z.mod_0_l. lia.
Qed.

Lemma round_down_bounds a n : 0 < n -> a - n < a - a mod n <= a.
Proof. intros. pose proof (Z.mod_pos_bound a n). lia. Qed.

Lemma pow2_divide j k : 0 <= j <= k -> (2 ^ j | 2 ^ k).
Proof.
  intros H. exists (2 ^ (k - j)). rewrite <- Z.pow_add_r by lia. f_equal. lia.
Qed.

Lemma pow2_divide_mod a j k : 0 <= j <= k -> a mod 2 ^ k = 0 -> a mod 2 ^ j = 0.
Proof.
  intros Hjk Ha. pose proof (pow2_pos j ltac:(lia)). pose proof (pow2_pos k ltac:(lia)).
  apply Z.mod_divide in Ha as [q ->]; [|lia].
  replace k with (k - j + j) by lia. rewrite Z.pow_add_r by lia.
  rewrite Z.mul_assoc. apply Z.mod_mul. lia.
Qed.

(** ** Lists *)

(** [Iterator::position] *)
Fixpoint position {A : Type} (f : A -> bool) (l : list A) : option nat :=
  match l with
  | [] => None
  | x :: l' => if f x then Some O else S <$> position f l'
  end.

Lemma position_Some {A} (f : A -> bool) l i :
  position f l = Some i <->
  exists l1 x l2, l = l1 ++ x :: l2 /\ length l1 = i /\ f x = true /\
    Forall (fun y => f y = false) l1.
Proof.
  revert i. induction l as [|y l IH]; intros i; simpl.
  - split; [done|]. intros (l1 & x & l2 & E & _). by destruct l1.
  - destruct (f y) eqn:Ey.
    + split.
      * intros [= <-]. exists [], y, l. by repeat split.
      * intros (l1 & x & l2 & E & Hl & Hx & Hf). destruct l1 as [|z l1]; [by simplify_eq/=|].
        simplify_eq/=. inversion Hf. congruence.
    + split.
      * intros (j & Hj & ->)%fmap_Some.
        apply IH in Hj as (l1 & x & l2 & -> & Hl & Hx & Hf).
        exists (y :: l1), x, l2. repeat split; simpl; auto.
      * intros (l1 & x & l2 & E & Hl & Hx & Hf). destruct l1 as [|z l1]; simplify_eq/=; [congruence|].
        inversion Hf. subst. apply fmap_Some. exists (length l1). split; [|done].
        apply IH. eauto 10.
Qed.

Lemma position_None {A} (f : A -> bool) l :
  position f l = None <-> Forall (fun y => f y = false) l.
Proof.
  induction l as [|y l IH]; simpl; [split; constructor|].
  destruct (f y) eqn:Ey.
  - split; [done|]. intros H. inversion H. congruence.
  - rewrite fmap_None, IH. split.
    + by constructor.
    + intros H. by inversion H.
Qed.

Lemma SSorted_app_iff {A} (R : A -> A -> Prop) l1 l2 :
  StronglySorted R (l1 ++ l2) <->
  StronglySorted R l1 /\ StronglySorted R l2 /\
  (forall x y, x ∈ l1 -> y ∈ l2 -> R x y).
Proof.
  induction l1 as [|z l1 IH]; simpl.
  - split; [|tauto]. intros. repeat split; [constructor|done|]. intros ? ? []%not_elem_of_nil.
  - split.
    + inversion 1 as [|? ? Hs Hf]; subst. apply IH in Hs as (H1 & H2 & H3).
      rewrite Forall_app, !list.Forall_forall in Hf. destruct Hf as [Hf1 Hf2].
      repeat split; [constructor; [done|by apply list.Forall_forall]|done|].
      intros x y [->|Hx]%elem_of_cons Hy; auto.
    + intros (H1 & H2 & H3). inversion H1 as [|? ? Hs Hf]; subst.
      constructor.
      * apply IH. repeat split; [done|done|]. intros. apply H3; [by right|done].
      * apply Forall_app. split; [done|]. apply list.Forall_forall. intros y Hy.
        apply H3; [by left|done].
Qed.

Lemma SSorted_cons_iff {A} (R : A -> A -> Prop) x l :
  StronglySorted R (x :: l) <-> StronglySorted R l /\ (forall y, y ∈ l -> R x y).
Proof.
  split.
  - inversion 1; subst. split; [done|]. by apply list.Forall_forall.
  - intros []. constructor; [done|]. by apply list.Forall_forall.
Qed.

Lemma SSorted_delete {A} (R : A -> A -> Prop) i l :
  StronglySorted R l -> StronglySorted R (delete i l).
Proof.
  rewrite delete_take_drop. intros H.
  destruct (decide (i < length l)%nat) as [Hi|Hi].
  - apply lookup_lt_is_Some_2 in Hi as [x Hx].
    rewrite <- (take_drop_middle l i x Hx), SSorted_app_iff, SSorted_cons_iff in H.
    destruct H as (H1 & [H2 _] & H3). apply SSorted_app_iff.
    repeat split; [done|done|]. intros. apply H3; [done|by right].
  - rewrite take_ge, drop_ge by lia. by rewrite app_nil_r.
Qed.

(** Distinct numbers below [n] are at most [n] many. *)
Lemma NoDup_range_length (l : list Z) n :
  NoDup l -> Forall (fun i => 0 <= i < n) l -> 0 <= n -> Z.of_nat (length l) <= n.
Proof.
  intros Hnd Hr Hn. rewrite list.Forall_forall in Hr.
  assert (Hle : (length l <= length (seqZ 0 n))%nat).
  { apply submseteq_length, NoDup_submseteq; [done|]. intros x Hx%Hr. apply elem_of_seqZ. lia. }
  rewrite length_seqZ in Hle. lia.
Qed.

Lemma SSorted_impl {A} (R R' : A -> A -> Prop) l :
  (forall x y, R x y -> R' x y) -> StronglySorted R l -> StronglySorted R' l.
Proof.
  intros HR Hl. induction Hl; constructor; [done|]. eapply Forall_impl; eauto.
Qed.

Lemma NoDup_omap_inj {A B : Type} (f : A -> option B) (l : list A) : NoDup l ->
  (forall x y z, f x = Some z -> f y = Some z -> x = y) -> NoDup (omap f l).
Proof.
  intros Hl Hf. induction Hl as [|x l Hx Hl IH]; [constructor|]. cbn.
  destruct (f x) as [z|] eqn:E; [|done]. constructor; [|done].
  intros (y & Hy & E')%list_elem_of_omap. by rewrite (Hf x y z E E') in Hx.
Qed.
