(* ===== verification/BTree.v ===== *)
(** * Ordered maps

    [alloc::collections::BTreeMap] with integer keys, as the operations the kernel
    uses: an association list in ascending key order.  [range(..=k).next_back()]
    is [last (range_le k m)], [range(k..).next()] is [head (range_ge k m)]. *)
From S2P Require Import Prelude.
Local Open Scope Z_scope.

Section BTree.
Context {V : Type}.

Definition btree := list (Z * V).

Fixpoint bt_get (k : Z) (m : btree) : option V :=
  match m with
  | [] => None
  | (k', v) :: m' => if k =? k' then Some v else bt_get k m'
  end.

Fixpoint bt_insert (k : Z) (v : V) (m : btree) : btree :=
  match m with
  | [] => [(k, v)]
  | (k', v') :: m' =>
      if k <? k' then (k, v) :: m
      else if k =? k' then (k, v) :: m'
      else (k', v') :: bt_insert k v m'
  end.

Fixpoint bt_remove (k : Z) (m : btree) : btree :=
  match m with
  | [] => []
  | (k', v') :: m' => if k =? k' then m' else (k', v') :: bt_remove k m'
  end.

Definition range_le (k : Z) (m : btree) : btree := List.filter (fun e => fst e <=? k) m.
Definition range_lt (k : Z) (m : btree) : btree := List.filter (fun e => fst e <? k) m.
Definition range_ge (k : Z) (m : btree) : btree := List.filter (fun e => k <=? fst e) m.

Definition sorted (m : btree) : Prop := StronglySorted (fun a b => a.1 < b.1) m.

Lemma sorted_cons k v m : sorted ((k, v) :: m) <->
  sorted m /\ forall k' v', (k', v') ∈ m -> k < k'.
Proof.
  unfold sorted. rewrite SSorted_cons_iff. split.
  - intros [H1 H2]. split; [done|]. intros k' v' Hin. by apply (H2 (k', v')).
  - intros [H1 H2]. split; [done|]. intros [k' v'] Hin. by apply (H2 k' v').
Qed.

Lemma bt_get_Some k v m : sorted m -> bt_get k m = Some v <-> (k, v) ∈ m.
Proof.
  induction m as [|[k' v'] m IH]; simpl; [by intros _; split; [done|intros ?%not_elem_of_nil]|].
  intros [Hs Hlt]%sorted_cons. rewrite elem_of_cons. destruct (Z.eqb_spec k k') as [->|Hne].
  - split; [by intros [= ->]; left|]. intros [[= ->]|Hin]; [done|].
    specialize (Hlt k' v Hin). lia.
  - rewrite IH by done. split; [auto|]. intros [[= ? ?]|]; [congruence|done].
Qed.

Lemma sorted_unique k v v' m : sorted m -> (k, v) ∈ m -> (k, v') ∈ m -> v = v'.
Proof. intros Hs H1%bt_get_Some H2%bt_get_Some; congruence || done. Qed.

Lemma elem_of_bt_insert k v m k' v' : sorted m ->
  (k', v') ∈ bt_insert k v m <-> (k' = k /\ v' = v) \/ (k' <> k /\ (k', v') ∈ m).
Proof.
  induction m as [|[k1 v1] m IH]; simpl.
  - intros _. rewrite list_elem_of_singleton. split; [intros [= -> ->]; auto|].
    intros [[-> ->]|[_ ?%not_elem_of_nil]]; done.
  - intros [Hs Hlt]%sorted_cons. destruct (Z.ltb_spec k k1); [|destruct (Z.eqb_spec k k1) as [->|]].
    + rewrite !elem_of_cons. split.
      * intros [[= -> ->]|[[= -> ->]|Hin]]; [auto|right; split; [lia|auto]|].
        right. specialize (Hlt k' v' Hin). split; [lia|auto].
      * intros [[-> ->]|[_ ?]]; auto.
    + rewrite !elem_of_cons. split.
      * intros [[= -> ->]|Hin]; [auto|]. specialize (Hlt k' v' Hin). right. split; [lia|auto].
      * intros [[-> ->]|[? [[= -> ->]|?]]]; [auto|done|auto].
    + rewrite !elem_of_cons, IH by done. split.
      * intros [[= -> ->]|[[-> ->]|[? ?]]]; auto.
      * intros [[-> ->]|[? [?|?]]]; auto.
Qed.

Lemma bt_insert_sorted k v m : sorted m -> sorted (bt_insert k v m).
Proof.
  induction m as [|[k1 v1] m IH]; simpl; intros Hm.
  - repeat constructor.
  - pose proof Hm as [Hs Hlt]%sorted_cons.
    destruct (Z.ltb_spec k k1); [|destruct (Z.eqb_spec k k1) as [->|]]; apply sorted_cons.
    + split; [done|]. intros k' v' [[= -> ->]|Hin]%elem_of_cons; [lia|].
      specialize (Hlt k' v' Hin). lia.
    + done.
    + split; [auto|]. intros k' v' Hin. apply elem_of_bt_insert in Hin as [[-> ->]|[_ Hin]];
        [lia|by apply (Hlt k' v')|done].
Qed.

Lemma elem_of_bt_remove k m k' v' : sorted m ->
  (k', v') ∈ bt_remove k m <-> k' <> k /\ (k', v') ∈ m.
Proof.
  induction m as [|[k1 v1] m IH]; simpl.
  - intros _. split; [by intros ?%not_elem_of_nil|by intros [_ ?]].
  - intros [Hs Hlt]%sorted_cons. rewrite elem_of_cons. destruct (Z.eqb_spec k k1) as [->|].
    + split; [|by intros [? [[= -> ->]|?]]]. intros Hin. specialize (Hlt k' v' Hin). split; [lia|auto].
    + rewrite elem_of_cons, IH by done. split.
      * intros [[= -> ->]|[? ?]]; auto.
      * intros [? [?|?]]; auto.
Qed.

Lemma bt_remove_sorted k m : sorted m -> sorted (bt_remove k m).
Proof.
  induction m as [|[k1 v1] m IH]; simpl; [done|]. intros Hm. pose proof Hm as [Hs Hlt]%sorted_cons.
  destruct (k =? k1); [done|]. apply sorted_cons. split; [auto|].
  intros k' v' [_ Hin]%elem_of_bt_remove; [|done]. by apply (Hlt k' v').
Qed.

(** A sorted map is determined by its entries. *)
Lemma sorted_ext m m' : sorted m -> sorted m' -> (forall e, e ∈ m <-> e ∈ m') -> m = m'.
Proof.
  revert m'. induction m as [|[k v] m IH]; intros m' Hs Hs' He.
  - destruct m' as [|e m']; [done|]. by pose proof (proj2 (He e) ltac:(by left)) as []%not_elem_of_nil.
  - destruct m' as [|[k' v'] m']; 
      [by pose proof (proj1 (He (k, v)) ltac:(by left)) as []%not_elem_of_nil|].
    apply sorted_cons in Hs as [Hs Hlt]. apply sorted_cons in Hs' as [Hs' Hlt'].
    assert (E : (k, v) = (k', v')).
    { pose proof (proj1 (He (k, v)) ltac:(by left)) as [E|H1]%elem_of_cons; [done|].
      pose proof (proj2 (He (k', v')) ltac:(by left)) as [E|H2]%elem_of_cons; [done|].
      specialize (Hlt _ _ H2). specialize (Hlt' _ _ H1). lia. }
    injection E as <- <-. f_equal. apply IH; [done..|]. intros [k1 v1]. split; intros Hin.
    + pose proof (proj1 (He (k1, v1)) ltac:(by right)) as [[= -> ->]|]%elem_of_cons; [|done].
      specialize (Hlt _ _ Hin). lia.
    + pose proof (proj2 (He (k1, v1)) ltac:(by right)) as [[= -> ->]|]%elem_of_cons; [|done].
      specialize (Hlt' _ _ Hin). lia.
Qed.

(** ** Ranges *)

Lemma elem_of_filter_pair (f : Z * V -> bool) m e : e ∈ List.filter f m <-> e ∈ m /\ f e = true.
Proof. rewrite !list_elem_of_In. apply filter_In. Qed.

Lemma sorted_filter f m : sorted m -> sorted (List.filter f m).
Proof.
  induction m as [|[k v] m IH]; simpl; [done|]. intros [Hs Hlt]%sorted_cons.
  destruct (f (k, v)); [|auto]. apply sorted_cons. split; [auto|].
  intros k' v' [Hin _]%elem_of_filter_pair. by apply (Hlt k' v').
Qed.

(** The last entry of a sorted map has the greatest key, the first the least. *)
Lemma last_greatest m k v : sorted m -> last m = Some (k, v) ->
  (k, v) ∈ m /\ forall k' v', (k', v') ∈ m -> k' <= k.
Proof.
  intros Hs (l & ->)%last_Some. unfold sorted in Hs.
  apply SSorted_app_iff in Hs as (_ & _ & Hlt). split; [set_solver|].
  intros k' v' [Hin|Hin]%elem_of_app.
  - specialize (Hlt _ (k, v) Hin ltac:(by left)). simpl in Hlt. lia.
  - apply list_elem_of_singleton in Hin as [= -> ->]. lia.
Qed.

Lemma range_le_last m a k v : sorted m -> last (range_le a m) = Some (k, v) ->
  (k, v) ∈ m /\ k <= a /\ forall k' v', (k', v') ∈ m -> k' <= a -> k' <= k.
Proof.
  intros Hs Hl. apply last_greatest in Hl as [Hin Hmax]; [|by apply sorted_filter].
  apply elem_of_filter_pair in Hin as [Hin Hle]. simpl in Hle. split; [done|]. split; [lia|].
  intros k' v' Hin' Hle'. apply (Hmax k' v'), elem_of_filter_pair. split; [done|simpl; lia].
Qed.

Lemma range_lt_last m a k v : sorted m -> last (range_lt a m) = Some (k, v) ->
  (k, v) ∈ m /\ k < a /\ forall k' v', (k', v') ∈ m -> k' < a -> k' <= k.
Proof.
  intros Hs Hl. apply last_greatest in Hl as [Hin Hmax]; [|by apply sorted_filter].
  apply elem_of_filter_pair in Hin as [Hin Hle]. simpl in Hle. split; [done|]. split; [lia|].
  intros k' v' Hin' Hle'. apply (Hmax k' v'), elem_of_filter_pair. split; [done|simpl; lia].
Qed.

Lemma range_le_None m a : last (range_le a m) = None -> forall k v, (k, v) ∈ m -> a < k.
Proof.
  intros Hl%last_None k v Hin. destruct (Z.lt_ge_cases a k); [done|].
  assert (Hin' : (k, v) ∈ range_le a m) by (apply elem_of_filter_pair; split; [done|simpl; lia]).
  rewrite Hl in Hin'. by apply not_elem_of_nil in Hin'.
Qed.

Lemma range_lt_None m a : last (range_lt a m) = None -> forall k v, (k, v) ∈ m -> a <= k.
Proof.
  intros Hl%last_None k v Hin. destruct (Z.lt_ge_cases k a); [|done].
  assert (Hin' : (k, v) ∈ range_lt a m) by (apply elem_of_filter_pair; split; [done|simpl; lia]).
  rewrite Hl in Hin'. by apply not_elem_of_nil in Hin'.
Qed.

Lemma range_ge_head m a : sorted m ->
  match head (range_ge a m) with
  | Some (k, v) => (k, v) ∈ m /\ a <= k /\ forall k' v', (k', v') ∈ m -> a <= k' -> k <= k'
  | None => forall k v, (k, v) ∈ m -> k < a
  end.
Proof.
  intros Hs. pose proof (sorted_filter (fun e => a <=? fst e) m Hs) as Hsf.
  fold (range_ge a m) in Hsf. destruct (range_ge a m) as [|[k v] t] eqn:E; simpl.
  - intros k v Hin. destruct (Z.lt_ge_cases k a); [done|].
    assert (Hin' : (k, v) ∈ range_ge a m) by (apply elem_of_filter_pair; split; [done|simpl; lia]).
    rewrite E in Hin'. by apply not_elem_of_nil in Hin'.
  - assert (Hin : (k, v) ∈ range_ge a m) by (rewrite E; by left).
    apply elem_of_filter_pair in Hin as [Hin Hge]. simpl in Hge. split; [done|]. split; [lia|].
    intros k' v' Hin' Hge'. assert (Hf : (k', v') ∈ range_ge a m)
      by (apply elem_of_filter_pair; split; [done|simpl; lia]).
    rewrite E in Hf. apply sorted_cons in Hsf as [_ Hlt].
    apply elem_of_cons in Hf as [[= -> ->]|Hf]; [lia|]. specialize (Hlt k' v' Hf). lia.
Qed.
End BTree.
Arguments btree : clear implicits.
