(* ===== verification/Error.v ===== *)
(** * Kernel errors and their errno codes

    Models libkernel/src/error.rs (the error enums) and
    libkernel/src/error/syscall_error.rs (the mapping to negative errno values
    returned to user space).  [Other] carries a static string, kept as a
    [string]. *)
From S2P Require Import Prelude.
From stdpp Require Import strings.
Local Open Scope Z_scope.

Inductive ProbeError : Type :=
| NoReg | NoRegSize | NoInterrupts | NoParentInterrupt | NotInterruptController
| Deferred | NoMatch.

Inductive MapError : Type :=
| PhysNotAligned | VirtNotAligned | SizeMismatch | WalkFailed | InvalidDescriptor
| TooSmall | AlreadyMapped | NonCanonicalAddress | NotL3Mapped.

Inductive IoError : Type :=
| IoOutOfBounds | MetadataCorruption.

Inductive FsError : Type :=
| NotFound | NotADirectory | IsADirectory | AlreadyExists | DirectoryNotEmpty
| Busy | InvalidInput | InvalidFs | OutOfBounds | PermissionDenied
| DriverNotFound | TooManyFiles | NoDevice | Loop | CrossDevice.

Inductive ExecError : Type :=
| InvalidElfFormat | InvalidScriptFormat | InvalidPHdrFormat.

Inductive KernelError : Type :=
| NoMemory | NoMemRegion | InvalidValue | InUse
| MappingError (e : MapError)
| TooLarge | NotSupported | AddressFamilyNotSupported
| Probe (e : ProbeError)
| Io (e : IoError)
| Fs (e : FsError)
| Exec (e : ExecError)
| NotATty | Fault | BadFd | SeekPipe | BrokenPipe | NotPermitted | BufferFull
| TryAgain | NoProcess | NoChildProcess | TimedOut | RangeError
| OpNotSupported | Interrupted | NameTooLong | NotASocket
| Other (msg : string).

#[export] Instance ProbeError_eq_dec : EqDecision ProbeError.
Proof. solve_decision. Defined.
#[export] Instance MapError_eq_dec : EqDecision MapError.
Proof. solve_decision. Defined.
#[export] Instance IoError_eq_dec : EqDecision IoError.
Proof. solve_decision. Defined.
#[export] Instance ExecError_eq_dec : EqDecision ExecError.
Proof. solve_decision. Defined.
#[export] Instance FsError_eq_dec : EqDecision FsError.
Proof. solve_decision. Defined.
#[export] Instance KernelError_eq_dec : EqDecision KernelError.
Proof. solve_decision. Defined.

(** [core::result::Result<A, KernelError>] *)
Inductive result (A : Type) : Type :=
| Ok (a : A)
| Err (e : KernelError).
Arguments Ok {A} a.
Arguments Err {A} e.

(** The operator [?] in code without state. *)
Definition rbind {A B : Type} (m : result A) (k : A -> result B) : result B :=
  match m with Ok a => k a | Err e => Err e end.
Notation "'try!' x := m 'in' k" := (rbind m (fun x => k))
  (at level 10, x pattern, m at level 200, k at level 200) : moss_scope.

Lemma rbind_Ok {A B} (m : result A) (k : A -> result B) b : rbind m k = Ok b <-> exists a, m = Ok a /\ k a = Ok b.
Proof. destruct m; simpl; split; [eauto|by intros (? & [= <-] & ?)|done|by intros (? & ? & _)]. Qed.

Definition ok_or {A : Type} (o : option A) (e : KernelError) : result A :=
  match o with Some a => Ok a | None => Err e end.

(** A stateful fallible call: the state it leaves behind is kept on both exits,
    as it is for [&mut self] methods. [tbind] is the [?] operator. *)
Definition tbind {A B S : Type} (m : outcome (result A * S))
    (k : A -> S -> outcome (result B * S)) : outcome (result B * S) :=
  match m with
  | Return (Ok a, s) => k a s
  | Return (Err e, s) => Return (Err e, s)
  | Panic => Panic
  | OutOfFuel => OutOfFuel
  end.

Notation "'let?' ( x , s ) := m 'in' k" := (tbind m (fun x s => k))
  (at level 10, x name, s name, m at level 200, k at level 200) : moss_scope.

(** The errno constants of the source. *)
Inductive Errno : Type :=
| EPERM | ENOENT | ESRCH | EINTR | EIO | ENXIO | E2BIG | ENOEXEC | EBADF | ECHILD | EAGAIN
| ENOMEM | EACCES | EFAULT | ENOTBLK | EBUSY | EEXIST | EXDEV | ENODEV | ENOTDIR | EISDIR
| EINVAL | ENFILE | EMFILE | ENOTTY | ETXTBSY | EFBIG | ENOSPC | ESPIPE | EROFS | EMLINK
| EPIPE | EDOM | ERANGE | EWOULDBLOCK | ENAMETOOLONG | ENOSYS | ENOTEMPTY | ELOOP
| EAFNOSUPPORT | EOPNOTSUPP | ETIMEDOUT.

Definition errno_value (e : Errno) : Z :=
  match e with
  | EPERM => -1 | ENOENT => -2 | ESRCH => -3 | EINTR => -4 | EIO => -5 | ENXIO => -6
  | E2BIG => -7 | ENOEXEC => -8 | EBADF => -9 | ECHILD => -10 | EAGAIN => -11
  | ENOMEM => -12 | EACCES => -13 | EFAULT => -14 | ENOTBLK => -15 | EBUSY => -16
  | EEXIST => -17 | EXDEV => -18 | ENODEV => -19 | ENOTDIR => -20 | EISDIR => -21
  | EINVAL => -22 | ENFILE => -23 | EMFILE => -24 | ENOTTY => -25 | ETXTBSY => -26
  | EFBIG => -27 | ENOSPC => -28 | ESPIPE => -29 | EROFS => -30 | EMLINK => -31
  | EPIPE => -32 | EDOM => -33 | ERANGE => -34 | EWOULDBLOCK => - -11 | ENAMETOOLONG => -36
  | ENOSYS => -38 | ENOTEMPTY => -39 | ELOOP => -40 | EAFNOSUPPORT => -97
  | EOPNOTSUPP => -95 | ETIMEDOUT => -110
  end.

(** The last arm of the source is [todo!], a panic. *)
Definition kern_err_to_syscall (err : KernelError) : outcome Z :=
  match err with
  | BadFd => Return (errno_value EBADF)
  | InvalidValue => Return (errno_value EINVAL)
  | Fault => Return (errno_value EFAULT)
  | TryAgain => Return (errno_value EAGAIN)
  | BrokenPipe => Return (errno_value EPIPE)
  | InUse => Return (errno_value EBUSY)
  | NotPermitted => Return (errno_value EPERM)
  | BufferFull | NameTooLong => Return (errno_value ENAMETOOLONG)
  | Fs NotFound => Return (errno_value ENOENT)
  | Fs IsADirectory => Return (errno_value EISDIR)
  | Fs NotADirectory => Return (errno_value ENOTDIR)
  | Fs AlreadyExists => Return (errno_value EEXIST)
  | Fs DirectoryNotEmpty => Return (errno_value ENOTEMPTY)
  | Fs Busy => Return (errno_value EBUSY)
  | Fs InvalidInput => Return (errno_value EINVAL)
  | Fs PermissionDenied => Return (errno_value EACCES)
  | Fs TooManyFiles => Return (errno_value EMFILE)
  | Fs NoDevice => Return (errno_value ENODEV)
  | Fs Loop => Return (errno_value ELOOP)
  | NotATty => Return (errno_value ENOTTY)
  | SeekPipe => Return (errno_value ESPIPE)
  | NotSupported => Return (errno_value ENOSYS)
  | NoMemory => Return (errno_value ENOMEM)
  | TimedOut => Return (errno_value ETIMEDOUT)
  | RangeError => Return (errno_value ERANGE)
  | NoChildProcess => Return (errno_value ECHILD)
  | OpNotSupported => Return (errno_value EOPNOTSUPP)
  | Interrupted => Return (errno_value EINTR)
  | NoProcess => Return (errno_value ESRCH)
  | AddressFamilyNotSupported => Return (errno_value EAFNOSUPPORT)
  | _ => Panic
  end.

(** ** Lemmas on results *)
Lemma tbind_Return {A B S} (m : outcome (result A * S)) k (r : result B * S) :
  tbind m k = Return r <->
  (exists a s, m = Return (Ok a, s) /\ k a s = Return r) \/
  (exists e s, m = Return (Err e, s) /\ r = (Err e, s)).
Proof.
  destruct m as [[[a|e] s]| |]; simpl; split; intros H; try discriminate.
  - left; eauto.
  - destruct H as [(?&?&[= <- <-]&H)|(?&?&[=]&_)]; exact H.
  - injection H as <-. right; eauto.
  - destruct H as [(?&?&[=]&_)|(?&?&[= <- <-]&->)]; reflexivity.
  - destruct H as [(?&?&[=]&_)|(?&?&[=]&_)].
  - destruct H as [(?&?&[=]&_)|(?&?&[=]&_)].
Qed.

Lemma ok_or_Ok {A} (o : option A) e a : ok_or o e = Ok a <-> o = Some a.
Proof. destruct o; simpl; split; congruence. Qed.

Ltac tbind_inv :=
  repeat match goal with
  | H : tbind _ _ = Return _ |- _ =>
      apply tbind_Return in H;
      destruct H as [(? & ? & ? & ?)|(? & ? & ? & ?)]
  | H : Return _ = Return _ |- _ => injection H as H
  | H : (_, _) = (_, _) |- _ => injection H as ? ?
  | H : Ok _ = Ok _ |- _ => injection H as H
  | H : Err _ = Err _ |- _ => injection H as H
  | H : Ok _ = Err _ |- _ => discriminate H
  | H : Err _ = Ok _ |- _ => discriminate H
  end.

(** The errors the table of the source does not list. *)
Definition unmapped_error (err : KernelError) : bool :=
  match err with
  | NoMemRegion | MappingError _ | TooLarge | Probe _ | Io _ | Exec _ | NotASocket
  | Other _ | Fs InvalidFs | Fs OutOfBounds | Fs DriverNotFound | Fs CrossDevice => true
  | _ => false
  end.

(** Every error the table lists becomes a negative errno of the Linux range; the
    others panic the kernel instead of returning to the caller. *)
Theorem kern_err_to_syscall_total err :
  if unmapped_error err then kern_err_to_syscall err = Panic
  else exists e, kern_err_to_syscall err = Return e /\ -4095 <= e <= -1.
Proof.
  destruct err; try match goal with f : FsError |- _ => destruct f end; simpl;
    done || (eexists; split; [reflexivity|vm_compute; split; discriminate]).
Qed.

(** [EWOULDBLOCK] negates an already negative constant. *)
Theorem EWOULDBLOCK_positive : errno_value EWOULDBLOCK = 11 /\ errno_value EWOULDBLOCK <> errno_value EAGAIN.
Proof. split; [reflexivity|discriminate]. Qed.
