(* ===== verification/Address.v ===== *)
(** * Typed addresses and page frames

    Models libkernel/src/memory/address.rs and libkernel/src/memory/page.rs.
    The address kinds are phantom types in the source and are erased: an address
    is its [usize] value, a page frame its number. *)
From S2P Require Import Prelude.
Local Open Scope Z_scope.

Definition PAGE_SIZE : Z := 4096.
Definition PAGE_SHIFT : Z := 12.
Definition PAGE_MASK : Z := PAGE_SIZE - 1.

Definition is_page_aligned (a : Z) : bool := Z.land a PAGE_MASK =? 0.
Definition add_pages (a count : Z) : Z := uadd a (umul PAGE_SIZE count).
Definition align (a n : Z) : outcome Z :=
  assert! is_power_of_two n;
  Return (Z.land a (unot (usub n 1))).
Definition page_aligned (a : Z) : Z := Z.land a (unot PAGE_MASK).
Definition align_up (a n : Z) : outcome Z :=
  assert! is_power_of_two n;
  Return (Z.land (uadd a (usub n 1)) (unot (usub n 1))).
Notation page_offset a := (Z.land a PAGE_MASK) (only parsing).
Notation null := (0) (only parsing).
Definition add_bytes (a n : Z) : Z := uadd a n.
Notation is_null a := (a =? 0) (only parsing).

(** The page of an address. *)
Definition page_of (va : Z) : Z := va - va mod PAGE_SIZE.

(** [PA::to_pfn], [PageFrame::pa], [PageFrame::buddy], [PageFrame::add_pages] *)
Definition to_pfn (a : Z) : Z := Z.shiftr a PAGE_SHIFT.
Definition pa (n : Z) : Z := ushl n PAGE_SHIFT.
Definition buddy (n order : Z) : Z := Z.lxor n (ushl 1 order).
Notation pf_add_pages n k := (uadd n k) (only parsing).

(** The [AddressTranslator] trait and its two implementations. *)
Class AddressTranslator := {
  virt_to_phys : Z -> Z;
  phys_to_virt : Z -> Z
}.

Definition IdentityTranslator : AddressTranslator :=
  {| virt_to_phys := fun va => va; phys_to_virt := fun pa => pa |}.

Definition PageOffsetTranslator (OFFSET : Z) : AddressTranslator :=
  {| virt_to_phys := fun va => usub va OFFSET; phys_to_virt := fun pa => uadd pa OFFSET |}.

(** What clients rely on: translating to virtual and back is the identity. *)
Class TranslatorLaws (T : AddressTranslator) : Prop := {
  virt_phys_round : forall p, usize_ok p -> virt_to_phys (phys_to_virt p) = p;
  phys_to_virt_ok : forall p, usize_ok p -> usize_ok (phys_to_virt p)
}.

#[global] Arguments align : simpl never.
#[global] Arguments align_up : simpl never.
#[global] Arguments PAGE_SIZE : simpl never.

(** ** Lemmas *)
Lemma PAGE_SIZE_pow2 : PAGE_SIZE = 2 ^ PAGE_SHIFT.
Proof. reflexivity. Qed.

Lemma is_page_aligned_spec a : is_page_aligned a = true <-> a mod PAGE_SIZE = 0.
Proof.
  unfold is_page_aligned, PAGE_MASK.
  rewrite PAGE_SIZE_pow2, land_ones_mod by (unfold PAGE_SHIFT; lia). apply Z.eqb_eq.
Qed.

Lemma page_aligned_eq a : usize_ok a -> page_aligned a = a - a mod PAGE_SIZE.
Proof.
  intros. unfold page_aligned, PAGE_MASK. rewrite PAGE_SIZE_pow2.
  apply land_unot_ones; [done|unfold PAGE_SHIFT; lia].
Qed.

Lemma page_offset_eq a : page_offset a = a mod PAGE_SIZE.
Proof.
  unfold PAGE_MASK. rewrite PAGE_SIZE_pow2.
  apply land_ones_mod. unfold PAGE_SHIFT; lia.
Qed.

Lemma align_pow2 a k : usize_ok a -> 0 <= k < 64 ->
  align a (2 ^ k) = Return (a - a mod 2 ^ k).
Proof.
  intros Ha Hk. unfold align. rewrite is_power_of_two_pow2 by lia. simpl. f_equal.
  pose proof (pow2_pos k ltac:(lia)).
  pose proof (Z.pow_lt_mono_r 2 k 64 ltac:(lia) ltac:(lia) ltac:(lia)).
  rewrite usub_small by lia. apply land_unot_ones; [done|lia].
Qed.

(** The value [align_up] computes when nothing overflows. *)
Definition round_up (a n : Z) : Z := a + (n - 1) - (a + (n - 1)) mod n.

Lemma align_up_pow2 a k : 0 <= a -> 0 <= k < 64 -> a + (2 ^ k - 1) < 2 ^ 64 ->
  align_up a (2 ^ k) = Return (round_up a (2 ^ k)).
Proof.
  intros Ha Hk Hb. unfold align_up. rewrite is_power_of_two_pow2 by lia. simpl. f_equal.
  pose proof (pow2_pos k ltac:(lia)).
  rewrite usub_small by (try apply Z.pow_lt_mono_r; lia).
  rewrite uadd_small by lia. apply land_unot_ones; [unfold usize_ok; lia|lia].
Qed.

Lemma align_up_aligned a n : 0 <= a -> is_power_of_two n = true -> usize_ok n ->
  a + (n - 1) < 2 ^ 64 -> align_up a n = Return (round_up a n).
Proof.
  intros Ha (k & Hk & ->)%is_power_of_two_spec [_ Hn] Hb.
  apply align_up_pow2; [done| |done]. split; [done|].
  apply (Z.pow_lt_mono_r_iff 2); lia.
Qed.

Lemma round_up_spec a n : 0 < n ->
  a <= round_up a n < a + n /\ round_up a n mod n = 0.
Proof.
  intros Hn. unfold round_up. split.
  - pose proof (round_down_bounds (a + (n - 1)) n Hn). lia.
  - by apply round_down_multiple.
Qed.

(** [round_up] is the least multiple of [n] that is not below [a]. *)
Lemma round_up_least a n b : 0 < n -> a <= b -> b mod n = 0 -> round_up a n <= b.
Proof.
  intros Hn Hab Hb. destruct (round_up_spec a n Hn) as [H1 H2].
  apply Z.mod_divide in Hb as [q ->]; [|lia].
  apply Z.mod_divide in H2 as [p Hp]; [|lia]. rewrite Hp in *.
  apply Z.mul_le_mono_nonneg_r; [lia|]. apply Z.lt_succ_r, (Z.mul_lt_mono_pos_r n); lia.
Qed.

Lemma round_up_id a n : 0 < n -> a mod n = 0 -> round_up a n = a.
Proof.
  intros Hn Ha. pose proof (round_up_least a n a Hn ltac:(lia) Ha).
  pose proof (round_up_spec a n Hn). lia.
Qed.

Lemma align_page a : usize_ok a -> align a PAGE_SIZE = Return (a - a mod PAGE_SIZE).
Proof. intros. rewrite PAGE_SIZE_pow2. apply align_pow2; [done|unfold PAGE_SHIFT; lia]. Qed.

Lemma align_up_page a : 0 <= a -> a + (PAGE_SIZE - 1) < 2 ^ 64 ->
  align_up a PAGE_SIZE = Return (round_up a PAGE_SIZE).
Proof. intros. apply align_up_aligned; done. Qed.

Lemma to_pfn_eq a : to_pfn a = a / PAGE_SIZE.
Proof. unfold to_pfn. rewrite Z.shiftr_div_pow2 by (unfold PAGE_SHIFT; lia). done. Qed.

Lemma pa_eq n : 0 <= n -> n * PAGE_SIZE < 2 ^ 64 -> pa n = n * PAGE_SIZE.
Proof.
  intros. unfold pa. rewrite PAGE_SIZE_pow2 in *.
  apply ushl_small; unfold PAGE_SHIFT in *; lia.
Qed.

Lemma to_pfn_pa n : 0 <= n -> n * PAGE_SIZE < 2 ^ 64 -> to_pfn (pa n) = n.
Proof. intros. rewrite pa_eq, to_pfn_eq by done. apply Z.div_mul. done. Qed.

(** A block number aligned to [2^order]: its buddy is the neighbouring block
    that completes the enclosing block of order [order + 1]. *)
Lemma lxor_pow2 n k : 0 <= k -> 0 <= n ->
  Z.lxor n (2 ^ k) = if Z.testbit n k then n - 2 ^ k else n + 2 ^ k.
Proof.
  intros Hk Hn. destruct (Z.testbit n k) eqn:E.
  - rewrite Z.sub_nocarry_ldiff.
    + apply Z.bits_inj'. intros i Hi.
      rewrite Z.lxor_spec, Z.ldiff_spec, Z.pow2_bits_eqb by lia.
      destruct (Z.eqb_spec k i) as [<-|]; [rewrite E; done|].
      by rewrite xorb_false_r, andb_true_r.
    + apply Z.bits_inj'. intros i Hi.
      rewrite Z.ldiff_spec, Z.pow2_bits_eqb, Z.bits_0 by lia.
      destruct (Z.eqb_spec k i) as [<-|]; [rewrite E; done|done].
  - rewrite Z.add_nocarry_lxor; [done|].
    apply Z.bits_inj'. intros i Hi.
    rewrite Z.land_spec, Z.pow2_bits_eqb, Z.bits_0 by lia.
    destruct (Z.eqb_spec k i) as [<-|]; [rewrite E; done|]. by rewrite andb_false_r.
Qed.

Lemma ushl_1 k : 0 <= k < 64 -> ushl 1 k = 2 ^ k.
Proof.
  intros. rewrite ushl_small; rewrite ?Z.mul_1_l; try lia.
  pose proof (pow2_pos k ltac:(lia)).
  pose proof (Z.pow_lt_mono_r 2 k 64 ltac:(lia) ltac:(lia) ltac:(lia)). lia.
Qed.

#[export] Instance IdentityTranslator_laws : TranslatorLaws IdentityTranslator.
Proof. split; done. Qed.

Lemma usub_uadd_cancel a b : usize_ok a -> usub (uadd a b) b = a.
Proof.
  intros. unfold usub, uadd, wrap. rewrite Zminus_mod_idemp_l.
  replace (a + b - b) with a by lia. by apply Z.mod_small.
Qed.

#[export] Instance PageOffsetTranslator_laws OFFSET :
  TranslatorLaws (PageOffsetTranslator OFFSET).
Proof. split; intros; [by apply usub_uadd_cancel|apply wrap_ok]. Qed.
