(* ===== verification/Region.v ===== *)
(** * Contiguous memory regions

    Models libkernel/src/memory/region.rs: [MemoryRegion] with its kind erased,
    its set-like operations (overlap, containment, merge, intersection, hole
    punching), page rounding and page iteration.  A region denotes the set of
    addresses [start, start + size); the lemmas relate every operation to that
    set. *)
From S2P Require Import Prelude Address.
Local Open Scope Z_scope.

Record MemoryRegion := mkRegion {
  start_address : Z;
  rsize : Z
}.

#[export] Instance MemoryRegion_eq_dec : EqDecision MemoryRegion.
Proof. solve_decision. Defined.

Definition empty : MemoryRegion := mkRegion 0 0.
Notation is_empty r := (rsize r =? 0) (only parsing).

Definition from_start_end_address (s e : Z) : outcome MemoryRegion :=
  assert! e >=? s;
  Return (mkRegion s (usub e s)).

Notation with_start_address r new_start := (mkRegion new_start (rsize r)) (only parsing).

Definition end_address (r : MemoryRegion) : Z := uadd (start_address r) (rsize r).

Definition end_address_inclusive (r : MemoryRegion) : Z :=
  uadd (start_address r) (saturating_sub (rsize r) 1).

Definition region_is_page_aligned (r : MemoryRegion) : bool :=
  is_page_aligned (start_address r).

Definition overlaps (r other : MemoryRegion) : bool :=
  let start1 := start_address r in
  let end1 := end_address r in
  let start2 := start_address other in
  let end2 := end_address other in
  negb ((end1 <=? start2) || (end2 <=? start1)).

Notation is_before r other := (end_address r <=? start_address other) (only parsing).

Notation is_after r other := (start_address r >=? end_address other) (only parsing).

Definition merge (r other : MemoryRegion) : option MemoryRegion :=
  let start1 := start_address r in
  let end1 := end_address r in
  let start2 := start_address other in
  let end2 := end_address other in
  if (end1 >=? start2) && (start1 <=? end2) then
    let merged_start := Z.min start1 start2 in
    let merged_end := Z.max end1 end2 in
    Some (mkRegion merged_start (usub merged_end merged_start))
  else None.

(** [from_start_end_address] is reached only with ordered bounds, see
    [punch_hole_total]. *)
Definition punch_hole (r other : MemoryRegion)
    : outcome (option MemoryRegion * option MemoryRegion) :=
  let s_start := start_address r in
  let s_end := end_address r in
  let o_start := start_address other in
  let o_end := end_address other in
  let! lft :=
    if s_start <? o_start then
      let e := Z.min s_end o_start in
      if e >? s_start then
        let! x := from_start_end_address s_start e in Return (Some x)
      else Return None
    else Return None in
  let! rgt :=
    if s_end >? o_end then
      let st := Z.max s_start o_end in
      if st <? s_end then
        let! x := from_start_end_address st s_end in Return (Some x)
      else Return None
    else Return None in
  Return (lft, rgt).

Definition contains (r other : MemoryRegion) : bool :=
  (start_address r <=? start_address other) &&
  (end_address_inclusive r >=? end_address_inclusive other).

Definition contains_address (r : MemoryRegion) (addr : Z) : bool :=
  (addr >=? start_address r) && (addr <? end_address r).

Definition region_add_pages (r : MemoryRegion) (n : Z) : MemoryRegion :=
  let offset := ushl n PAGE_SHIFT in
  mkRegion (uadd (start_address r) offset) (saturating_sub (rsize r) offset).

Record MappableRegion := mkMappable {
  mappable_region : MemoryRegion;
  offset_from_page_start : Z
}.

Definition to_mappable_region (r : MemoryRegion) : outcome MappableRegion :=
  let! aligned_start := align (start_address r) PAGE_SIZE in
  let! aligned_end := align_up (end_address r) PAGE_SIZE in
  let! aligned := from_start_end_address aligned_start aligned_end in
  Return (mkMappable aligned (page_offset (start_address r))).

Definition expand_by (r : MemoryRegion) (sz : Z) : outcome MemoryRegion :=
  assert! Z.land sz PAGE_MASK =? 0;
  Return (mkRegion (start_address r) (uadd (rsize r) sz)).

Definition intersection (r other : MemoryRegion) : option MemoryRegion :=
  if is_empty r || is_empty other then None
  else
    let i_start := Z.max (start_address r) (start_address other) in
    let i_end := Z.min (end_address_inclusive r) (end_address_inclusive other) in
    if i_start <=? i_end then
      Some (mkRegion i_start (uadd (usub i_end i_start) 1))
    else None.

Definition align_to_page_boundary (r : MemoryRegion) : outcome MemoryRegion :=
  let! aligned_start := align (start_address r) PAGE_SIZE in
  let! aligned_end := align_up (end_address r) PAGE_SIZE in
  from_start_end_address aligned_start aligned_end.

(** The iterator yields the page at index [count] for [count] from 0 up to
    [size >> PAGE_SHIFT]. *)
Definition iter_pages (r : MemoryRegion) : list Z :=
  map (fun count => Address.add_pages (start_address r) count)
      (seqZ 0 (Z.shiftr (rsize r) PAGE_SHIFT)).

Definition iter_pfns (r : MemoryRegion) : list Z :=
  let start := to_pfn (start_address r) in
  map (fun count => uadd start count) (seqZ 0 (Z.shiftr (rsize r) PAGE_SHIFT)).

(** [VA::page_region] and [PageFrame::as_phys_range] *)
Definition page_region (va : Z) : MemoryRegion := mkRegion (page_aligned va) PAGE_SIZE.
Definition as_phys_range (n : Z) : MemoryRegion := mkRegion (pa n) PAGE_SIZE.

(** ** Regions as sets of addresses *)
#[export] Instance region_elem_of : ElemOf Z MemoryRegion :=
  fun a r => start_address r <= a < start_address r + rsize r.

Definition region_ok (r : MemoryRegion) : Prop :=
  0 <= start_address r /\ 0 <= rsize r /\ start_address r + rsize r < 2 ^ 64.

Lemma region_ok_new s z : 0 <= s -> 0 <= z -> s + z < 2 ^ 64 -> region_ok (mkRegion s z).
Proof. unfold region_ok. simpl. lia. Qed.

Lemma end_address_eq r : region_ok r -> end_address r = start_address r + rsize r.
Proof. intros (? & ? & ?). apply uadd_small; lia. Qed.

Lemma end_address_inclusive_eq r : region_ok r -> 0 < rsize r ->
  end_address_inclusive r = start_address r + rsize r - 1.
Proof.
  intros (? & ? & ?) ?. unfold end_address_inclusive.
  rewrite saturating_sub_ge, uadd_small; lia.
Qed.

Lemma end_address_inclusive_empty r : region_ok r -> rsize r = 0 ->
  end_address_inclusive r = start_address r.
Proof.
  intros (? & ? & ?) E. unfold end_address_inclusive.
  rewrite E, saturating_sub_lt, uadd_small; lia.
Qed.

#[export] Hint Resolve region_ok_new : moss.
#[export] Hint Rewrite end_address_eq end_address_inclusive_eq end_address_inclusive_empty
  using (solve [done | unfold region_ok in *; simpl in *; lia]) : moss.

(** Goals about regions are linear arithmetic once every operation is unfolded. *)
Ltac rsolve :=
  unfold region_ok, elem_of, region_elem_of in *; simpl in *; try lia.

Lemma from_start_end_address_eq s e : 0 <= s <= e -> e < 2 ^ 64 ->
  from_start_end_address s e = Return (mkRegion s (e - s)).
Proof.
  intros. unfold from_start_end_address. rewrite (proj2 (Z.geb_le e s)) by lia.
  simpl. rewrite usub_small by lia. done.
Qed.

Lemma overlaps_spec r o : region_ok r -> region_ok o -> 0 < rsize r -> 0 < rsize o ->
  overlaps r o = true <-> exists a, a ∈ r /\ a ∈ o.
Proof.
  intros Hr Ho Nr No. unfold overlaps. rewrite !end_address_eq by done.
  rewrite negb_true_iff, orb_false_iff, !Z.leb_gt. split.
  - intros []. exists (Z.max (start_address r) (start_address o)). rsolve.
  - intros (a & ? & ?). rsolve.
Qed.

Lemma overlaps_false r o : region_ok r -> region_ok o ->
  overlaps r o = false <->
  start_address r + rsize r <= start_address o \/ start_address o + rsize o <= start_address r.
Proof.
  intros Hr Ho. unfold overlaps. rewrite !end_address_eq by done.
  rewrite negb_false_iff, orb_true_iff, !Z.leb_le. done.
Qed.

Lemma contains_spec r o : region_ok r -> region_ok o -> 0 < rsize r -> 0 < rsize o ->
  contains r o = true <->
  start_address r <= start_address o /\ start_address o + rsize o <= start_address r + rsize r.
Proof.
  intros Hr Ho Nr No. unfold contains. rewrite !end_address_inclusive_eq by done.
  rewrite andb_true_iff, Z.leb_le, Z.geb_leb, Z.leb_le. lia.
Qed.

Lemma contains_address_spec r a : region_ok r -> contains_address r a = true <-> a ∈ r.
Proof.
  intros Hr. unfold contains_address. rewrite end_address_eq by done.
  rewrite andb_true_iff, Z.ltb_lt, Z.geb_leb, Z.leb_le. done.
Qed.

Lemma merge_None r o : region_ok r -> region_ok o ->
  merge r o = None <->
  start_address r + rsize r < start_address o \/ start_address o + rsize o < start_address r.
Proof.
  intros Hr Ho. unfold merge. rewrite !end_address_eq by done.
  destruct (_ && _) eqn:E.
  - breflect. split; [done|lia].
  - split; [intros _|done]. breflect. destruct E; breflect; lia.
Qed.

Lemma merge_Some r o m : region_ok r -> region_ok o -> merge r o = Some m ->
  region_ok m /\
  start_address m = Z.min (start_address r) (start_address o) /\
  start_address m + rsize m =
    Z.max (start_address r + rsize r) (start_address o + rsize o) /\
  start_address o <= start_address r + rsize r /\
  start_address r <= start_address o + rsize o.
Proof.
  intros Hr Ho. unfold merge. rewrite !end_address_eq by done.
  destruct (_ && _) eqn:E; [|done]. intros [= <-]. breflect.
  unfold region_ok in *. simpl in *. rewrite usub_small by lia. lia.
Qed.

(** A merge covers exactly the two regions it came from. *)
Lemma merge_elem_of r o m a : region_ok r -> region_ok o -> merge r o = Some m ->
  a ∈ m <-> a ∈ r \/ a ∈ o.
Proof.
  intros Hr Ho (Hm & H1 & H2 & H3 & H4)%merge_Some; [|done..]. rsolve.
Qed.

Lemma intersection_Some r o i : region_ok r -> region_ok o -> intersection r o = Some i ->
  0 < rsize i /\ region_ok i /\
  start_address i = Z.max (start_address r) (start_address o) /\
  start_address i + rsize i = Z.min (start_address r + rsize r) (start_address o + rsize o).
Proof.
  intros Hr Ho. unfold intersection.
  destruct (_ || _) eqn:E; [done|]. breflect.
  rewrite !end_address_inclusive_eq by rsolve.
  bcase; [|done]. intros [= <-]. simpl. unfold region_ok in *. simpl.
  rewrite usub_small, uadd_small by lia. lia.
Qed.

Lemma intersection_elem_of r o a : region_ok r -> region_ok o ->
  (a ∈ r /\ a ∈ o) <-> exists i, intersection r o = Some i /\ a ∈ i.
Proof.
  intros Hr Ho. split.
  - intros [Har Hao]. destruct (intersection r o) as [i|] eqn:E.
    + pose proof (intersection_Some r o i Hr Ho E). exists i. split; [done|]. rsolve.
    + exfalso. revert E. unfold intersection.
      assert (0 < rsize r /\ 0 < rsize o) as [] by rsolve.
      rewrite (proj2 (Z.eqb_neq (rsize r) 0)), (proj2 (Z.eqb_neq (rsize o) 0)) by lia. simpl.
      rewrite !end_address_inclusive_eq by done. bcase; [done|]. rsolve.
  - intros (i & E & Hi). pose proof (intersection_Some r o i Hr Ho E). rsolve.
Qed.

(** [punch_hole] never reaches the assertion of [from_start_end_address], and
    its two fragments have the bounds the source's comments give. *)
Lemma punch_hole_total r o : region_ok r -> region_ok o ->
  let s := start_address r in let e := start_address r + rsize r in
  let os := start_address o in let oe := start_address o + rsize o in
  punch_hole r o = Return
    (if (s <? os) && (s <? e) then Some (mkRegion s (Z.min e os - s)) else None,
     if (oe <? e) && (s <? e) then Some (mkRegion (Z.max s oe) (e - Z.max s oe)) else None).
Proof.
  intros Hr Ho. cbv zeta. unfold punch_hole. rewrite !end_address_eq by done.
  rewrite !Z.gtb_ltb. unfold region_ok in *.
  repeat match goal with
  | |- context [?x <? ?y] => destruct (Z.ltb_spec x y); simpl
  | |- _ => rewrite from_start_end_address_eq by lia
  end; first [done | lia].
Qed.

(** The fragments of [punch_hole] cover exactly the addresses of the region that
    are outside the hole. *)
Lemma punch_hole_elem_of r o l g a : region_ok r -> region_ok o ->
  punch_hole r o = Return (l, g) ->
  (a ∈ r /\ ~ a ∈ o) <-> (exists x, l = Some x /\ a ∈ x) \/ (exists x, g = Some x /\ a ∈ x).
Proof.
  intros Hr Ho E. rewrite punch_hole_total in E by done. injection E as <- <-.
  unfold elem_of, region_elem_of, region_ok in *.
  repeat match goal with
  | |- context [?x <? ?y] => destruct (Z.ltb_spec x y); simpl
  end; split;
  try (intros [(x & ? & ?)|(x & ? & ?)]; simplify_eq; simpl in *; lia);
  intros [? ?];
  destruct (Z.lt_ge_cases a (start_address o));
  first [ lia
        | left; eexists; split; [reflexivity|]; simpl; lia
        | right; eexists; split; [reflexivity|]; simpl; lia ].
Qed.

Lemma align_to_page_boundary_eq r : region_ok r ->
  start_address r + rsize r + (PAGE_SIZE - 1) < 2 ^ 64 ->
  align_to_page_boundary r = Return
    (mkRegion (start_address r - start_address r mod PAGE_SIZE)
       (round_up (start_address r + rsize r) PAGE_SIZE -
        (start_address r - start_address r mod PAGE_SIZE))).
Proof.
  intros Hr Hb. unfold align_to_page_boundary. unfold region_ok in Hr.
  pose proof (Z.mod_pos_bound (start_address r) PAGE_SIZE ltac:(done)).
  pose proof (round_down_bounds (start_address r) PAGE_SIZE ltac:(done)).
  pose proof (Z.mod_le (start_address r) PAGE_SIZE ltac:(lia) ltac:(done)).
  pose proof (round_up_spec (start_address r + rsize r) PAGE_SIZE ltac:(done)) as [].
  rewrite align_page by (unfold usize_ok; lia). ostep.
  rewrite end_address_eq by (unfold region_ok; lia).
  rewrite align_up_page by lia. ostep.
  unfold round_up in *. apply from_start_end_address_eq; lia.
Qed.

Lemma iter_pages_elem_of r p : region_ok r ->
  p ∈ iter_pages r <->
  exists i, 0 <= i < rsize r / PAGE_SIZE /\ p = start_address r + PAGE_SIZE * i.
Proof.
  intros Hr. unfold iter_pages. rewrite list_elem_of_fmap.
  rewrite Z.shiftr_div_pow2 by (unfold PAGE_SHIFT; lia).
  change (2 ^ PAGE_SHIFT) with PAGE_SIZE.
  assert (forall i, 0 <= i < rsize r / PAGE_SIZE ->
    Address.add_pages (start_address r) i = start_address r + PAGE_SIZE * i) as Heq.
  { intros i Hi. unfold Address.add_pages.
    pose proof (Z.mul_div_le (rsize r) PAGE_SIZE ltac:(done)).
    unfold region_ok, PAGE_SIZE in *. rewrite umul_small, uadd_small; lia. }
  split.
  - intros (i & -> & Hi%elem_of_seqZ). exists i. rewrite Heq by lia. split; [lia|done].
  - intros (i & Hi & ->). exists i. rewrite Heq by done. split; [done|].
    apply elem_of_seqZ. lia.
Qed.

(** * Theorems *)

(** [merge] succeeds exactly when the two regions overlap or touch, and then
    gives the union of their addresses, within the address space. *)
Theorem merge_union r o :
  region_ok r -> region_ok o ->
  match merge r o with
  | Some m => region_ok m /\ (forall a, a ∈ m <-> a ∈ r \/ a ∈ o)
  | None => start_address r + rsize r < start_address o \/
            start_address o + rsize o < start_address r
  end.
Proof.
  intros Hr Ho. destruct (merge r o) as [m|] eqn:E.
  - split; [by apply (merge_Some r o m)|]. intros a. by apply merge_elem_of.
  - by apply merge_None.
Qed.

Lemma merge_union_witness :
  merge (mkRegion 4096 4096) (mkRegion 8192 100) = Some (mkRegion 4096 4196) /\
  region_ok (mkRegion 4096 4196) /\
  (forall a, a ∈ mkRegion 4096 4196 <-> a ∈ mkRegion 4096 4096 \/ a ∈ mkRegion 8192 100).
Proof.
  split; [reflexivity|].
  apply (merge_union (mkRegion 4096 4096) (mkRegion 8192 100)); unfold region_ok; simpl; lia.
Defined.

(** [punch_hole] never fails and returns the part of the region below the hole
    and the part above it: together exactly the addresses outside the hole, each
    piece valid, non-empty and on its own side. *)
Theorem punch_hole_difference r o :
  region_ok r -> region_ok o ->
  exists l g, punch_hole r o = Return (l, g) /\
    (forall a, (exists x, l = Some x /\ a ∈ x) \/ (exists x, g = Some x /\ a ∈ x) <->
       a ∈ r /\ ~ a ∈ o) /\
    (forall x, l = Some x -> region_ok x /\ 0 < rsize x /\
       start_address x + rsize x <= start_address o) /\
    (forall x, g = Some x -> region_ok x /\ 0 < rsize x /\
       start_address o + rsize o <= start_address x).
Proof.
  intros Hr Ho. pose proof (punch_hole_total r o Hr Ho) as E. cbv zeta in E.
  eexists _, _. split; [exact E|]. split.
  { intros a. symmetry. by apply punch_hole_elem_of. }
  unfold region_ok in *. split; intros x Hx; case_match eqn:Eb; simplify_eq; breflect; simpl; lia.
Qed.

Lemma punch_hole_difference_witness :
  punch_hole (mkRegion 4096 8192) (mkRegion 6144 2048)
    = Return (Some (mkRegion 4096 2048), Some (mkRegion 8192 4096)) /\
  exists l g, punch_hole (mkRegion 4096 8192) (mkRegion 6144 2048) = Return (l, g).
Proof.
  split; [reflexivity|].
  destruct (punch_hole_difference (mkRegion 4096 8192) (mkRegion 6144 2048))
    as (l & g & E & _); [unfold region_ok; simpl; lia..|].
  exists l, g. exact E.
Defined.
