(* ===== verification/Sync.v ===== *)
(** * Synchronisation primitives

    Models libkernel/src/sync: waker_set.rs, condvar.rs, mutex.rs, rwlock.rs, mpsc.rs
    and once_lock.rs.  A waker is the task it wakes, so [will_wake] is equality.  Each
    primitive is a function on the state behind its spin lock, which makes it atomic;
    the tasks that use a primitive are a transition system on top: a task that got
    [Pending] is polled again once it has been woken. *)
From stdpp Require Import gmap sets.
From S2P Require Import Prelude BTree.
Local Open Scope Z_scope.

(** ** WakerSet *)

Record WakerSet (T : Type) := mkWakerSet { waiters : btree (Z * T); next_id : Z }.
Arguments mkWakerSet {T} waiters next_id.
Arguments waiters {T} w.
Arguments next_id {T} w.

Section WakerSet.
Context {T : Type}.
Implicit Types w : WakerSet T.

Definition ws_new : WakerSet T := mkWakerSet [] 0.

Definition allocate_id w : Z * WakerSet T :=
  (next_id w, mkWakerSet (waiters w) (uadd (next_id w) 1)).

Definition ws_remove w (token : Z) : WakerSet T :=
  mkWakerSet (bt_remove token (waiters w)) (next_id w).

(** [pop_first] *)
Definition take_first w : option (Z * T) * WakerSet T :=
  match waiters w with
  | [] => (None, w)
  | (_, entry) :: rest => (Some entry, mkWakerSet rest (next_id w))
  end.

(** The task woken, if any. *)
Definition wake_one w : option Z * WakerSet T :=
  match take_first w with
  | (Some (waker, _), w) => (Some waker, w)
  | (None, w) => (None, w)
  end.

Definition wake_all w : list Z * WakerSet T :=
  (map (fun e => e.2.1) (waiters w), mkWakerSet [] (next_id w)).

(** The key of the first entry whose data match. *)
Definition find_key w (predicate : T -> bool) : option Z :=
  match List.find (fun e => predicate e.2.2) (waiters w) with
  | Some (key, _) => Some key
  | None => None
  end.

Definition take_if w (predicate : T -> bool) : option (Z * T) * WakerSet T :=
  match find_key w predicate with
  | Some key => (bt_get key (waiters w), ws_remove w key)
  | None => (None, w)
  end.

Definition wake_if w (predicate : T -> bool) : outcome (option Z * WakerSet T) :=
  match find_key w predicate with
  | Some key =>
      let! e := unwrap (bt_get key (waiters w)) in
      Return (Some e.1, ws_remove w key)
  | None => Return (None, w)
  end.

Definition ws_insert w (waker : Z) (data : T) : Z * WakerSet T :=
  let (id, w) := allocate_id w in
  (id, mkWakerSet (bt_insert id (waker, data) (waiters w)) (next_id w)).

Definition register_with_data w (waker : Z) (data : T) : Z * WakerSet T := ws_insert w waker data.
End WakerSet.

Definition register (w : WakerSet unit) (waker : Z) : Z * WakerSet unit := register_with_data w waker tt.

(** ** WaitUntil *)

(** The waker set inside of the locked state. *)
Class HasWakers (S : Type) := { get_wakers : S -> WakerSet unit; set_wakers : S -> WakerSet unit -> S }.

Section WaitUntil.
Context {S R : Type} `{HasWakers S}.

(** The predicate may change the state.  Returns the result, the token and the state. *)
Definition wait_poll (predicate : S -> option R * S) (token : option Z) (s : S) (waker : Z)
    : option R * option Z * S :=
  match predicate s with
  | (Some r, s) => (Some r, token, s)
  | (None, s) =>
      match token with
      | None => let (id, w) := register (get_wakers s) waker in (None, Some id, set_wakers s w)
      | Some _ => (None, token, s)
      end
  end.

Definition wait_drop (token : option Z) (s : S) : S :=
  match token with
  | Some t => set_wakers s (ws_remove (get_wakers s) t)
  | None => s
  end.
End WaitUntil.

(** ** CondVar *)

Inductive WakeupType : Type := WakeNone | WakeOne | WakeAll.

Record CondVarInner (S : Type) := mkCondVar { cv_state : S; cv_wakers : WakerSet unit }.
Arguments mkCondVar {S} cv_state cv_wakers.
Arguments cv_state {S} c.
Arguments cv_wakers {S} c.

#[export] Instance CondVar_wakers (S : Type) : HasWakers (CondVarInner S) :=
  {| get_wakers := cv_wakers; set_wakers c w := mkCondVar (cv_state c) w |}.

Section CondVar.
Context {S : Type}.

Definition cv_new (initial_state : S) : CondVarInner S := mkCondVar initial_state ws_new.

(** The woken tasks and the new state. *)
Definition cv_update (c : CondVarInner S) (updater : S -> WakeupType * S) : list Z * CondVarInner S :=
  let (wake, s) := updater (cv_state c) in
  match wake with
  | WakeNone => ([], mkCondVar s (cv_wakers c))
  | WakeOne => let (o, w) := wake_one (cv_wakers c) in (option_list o, mkCondVar s w)
  | WakeAll => let (l, w) := wake_all (cv_wakers c) in (l, mkCondVar s w)
  end.

Definition cv_predicate {R : Type} (predicate : S -> option R * S) (c : CondVarInner S)
    : option R * CondVarInner S :=
  let (r, s) := predicate (cv_state c) in (r, mkCondVar s (cv_wakers c)).

Definition cv_wait_poll {R : Type} (predicate : S -> option R * S) (token : option Z)
    (c : CondVarInner S) (waker : Z) : option R * option Z * CondVarInner S :=
  wait_poll (cv_predicate predicate) token c waker.
End CondVar.

(** ** Mutex *)

Record MutexState := mkMutex { is_locked : bool; mx_waiters : list Z }.

Definition mutex_new : MutexState := mkMutex false [].

(** One poll of the future of [lock] (and of [acquire]): [true] is [Ready]. *)
Definition mutex_poll (state : MutexState) (waker : Z) : bool * MutexState :=
  if negb (is_locked state) then (true, mkMutex true (mx_waiters state))
  else if forallb (fun w => negb (w =? waker)) (mx_waiters state) then
    (false, mkMutex true (mx_waiters state ++ [waker]))
  else (false, state).

(** Dropping the guard (and [release]): the task woken, if any. *)
Definition mutex_release (state : MutexState) : option Z * MutexState :=
  match mx_waiters state with
  | next_waker :: rest => (Some next_waker, mkMutex false rest)
  | [] => (None, mkMutex false [])
  end.

(** ** Rwlock *)

(** The count of readers has a spin lock of its own; [reading_lock] is the task that
    holds it, since [read] keeps the guard while it awaits the writer lock. *)
Record RwlockState := mkRwlock {
  num_readers : Z; reading_lock : option Z; writer_lock : MutexState
}.

Definition rwlock_new : RwlockState := mkRwlock 0 None mutex_new.

(** [read] up to its first await; it spins while another task holds the count. *)
Definition rw_read (s : RwlockState) (waker : Z) : option (bool * RwlockState) :=
  match reading_lock s with
  | Some _ => None
  | None =>
      let n := uadd (num_readers s) 1 in
      if n =? 1 then
        let (ready, m) := mutex_poll (writer_lock s) waker in
        Some (ready, mkRwlock n (if ready then None else Some waker) m)
      else Some (true, mkRwlock n None (writer_lock s))
  end.

(** [read] polled again. *)
Definition rw_read_poll (s : RwlockState) (waker : Z) : bool * RwlockState :=
  let (ready, m) := mutex_poll (writer_lock s) waker in
  (ready, mkRwlock (num_readers s) (if ready then None else reading_lock s) m).

(** The future of [read] is dropped while it awaits: only the guard of the count is. *)
Definition rw_read_cancel (s : RwlockState) : RwlockState :=
  mkRwlock (num_readers s) None (writer_lock s).

(** Dropping a read guard: the task woken, if any. *)
Definition rw_read_drop (s : RwlockState) : option (option Z * RwlockState) :=
  match reading_lock s with
  | Some _ => None
  | None =>
      let n := usub (num_readers s) 1 in
      if n =? 0 then
        let (woken, m) := mutex_release (writer_lock s) in Some (woken, mkRwlock n None m)
      else Some (None, mkRwlock n None (writer_lock s))
  end.

Definition rw_write_poll (s : RwlockState) (waker : Z) : bool * RwlockState :=
  let (ready, m) := mutex_poll (writer_lock s) waker in
  (ready, mkRwlock (num_readers s) (reading_lock s) m).

Definition rw_write_drop (s : RwlockState) : option Z * RwlockState :=
  let (woken, m) := mutex_release (writer_lock s) in
  (woken, mkRwlock (num_readers s) (reading_lock s) m).

(** ** Mpsc *)

Section Mpsc.
Context {T : Type}.

Record MpscState := mkMpsc { mp_data : list T; senders : Z; recv_gone : bool }.

Inductive RxResult : Type := RxData (d : T) | SenderGone.

Definition recv_predicate (s : MpscState) : option RxResult * MpscState :=
  match mp_data s with
  | d :: rest => (Some (RxData d), mkMpsc rest (senders s) (recv_gone s))
  | [] => if senders s =? 0 then (Some SenderGone, s) else (None, s)
  end.

Definition recv_poll (token : option Z) (c : CondVarInner MpscState) (waker : Z)
    : option (option T) * option Z * CondVarInner MpscState :=
  match cv_wait_poll recv_predicate token c waker with
  | (Some (RxData d), token, c) => (Some (Some d), token, c)
  | (Some SenderGone, token, c) => (Some None, token, c)
  | (None, token, c) => (None, token, c)
  end.

Definition receiver_drop (c : CondVarInner MpscState) : list Z * CondVarInner MpscState :=
  cv_update c (fun s => (WakeNone, mkMpsc [] (senders s) true)).

Definition send (c : CondVarInner MpscState) (obj : T) : list Z * CondVarInner MpscState :=
  cv_update c (fun s =>
    if recv_gone s then (WakeNone, s)
    else (WakeOne, mkMpsc (mp_data s ++ [obj]) (senders s) (recv_gone s))).

Definition sender_clone (c : CondVarInner MpscState) : list Z * CondVarInner MpscState :=
  cv_update c (fun s => (WakeNone, mkMpsc (mp_data s) (uadd (senders s) 1) (recv_gone s))).

Definition sender_drop (c : CondVarInner MpscState) : list Z * CondVarInner MpscState :=
  cv_update c (fun s =>
    let n := usub (senders s) 1 in
    (if n =? 0 then WakeAll else WakeNone, mkMpsc (mp_data s) n (recv_gone s))).

Definition channel : CondVarInner MpscState := cv_new (mkMpsc [] 1 false).
End Mpsc.
Arguments MpscState : clear implicits.

(** ** OnceLock *)

Section OnceLock.
Context {T : Type}.

Definition once_get (c : option T) : option T := c.

(** [initialize], under the lock; [f] is what the closure returns. *)
Definition once_initialize (c : option T) (f : T) : T * option T :=
  match c with
  | Some value => (value, c)
  | None => (f, Some f)
  end.

(** [get_or_init] when no other task runs between its two parts. *)
Definition once_get_or_init (c : option T) (f : T) : T * option T :=
  match once_get c with
  | Some value => (value, c)
  | None => once_initialize c f
  end.

(** [set]: [Err] has the rejected value. *)
Definition once_set (c : option T) (value : T) : option T * option T :=
  match c with
  | Some _ => (Some value, c)
  | None => (None, Some value)
  end.

(** [inl] sets, [inr] initialises. *)
Definition once_step (c : option T) (op : T + T) : option T :=
  match op with
  | inl v => (once_set c v).2
  | inr v => (once_get_or_init c v).2
  end.

(** Whatever the operations, the cell has the first value written. *)
Lemma once_first (ops : list (T + T)) :
  once_get (fold_left once_step ops None) =
    match head ops with Some (inl v) | Some (inr v) => Some v | None => None end.
Proof.
  assert (Hs : forall l v, fold_left once_step l (Some v) = Some v).
  { induction l as [|[x|x] l IH]; intros v; [done|apply IH|apply IH]. }
  destruct ops as [|[v|v] ops]; [done|apply Hs|apply Hs].
Qed.
End OnceLock.

(** * Tasks that share a mutex *)

Inductive MutexPhase : Type := MxIdle | MxPending | MxHolding.

(** [mx_woken] are the tasks that were woken and not polled since. *)
Record MutexSys := mkMxSys { mx : MutexState; mx_phase : Z -> MutexPhase; mx_woken : gset Z }.

Definition upd {A : Type} (f : Z -> A) (t : Z) (x : A) : Z -> A := fun u => if u =? t then x else f u.

Lemma upd_eq {A} (f : Z -> A) t x : upd f t x t = x.
Proof. unfold upd. by rewrite Z.eqb_refl. Qed.
Lemma upd_ne {A} (f : Z -> A) t x u : u <> t -> upd f t x u = f u.
Proof. intros Hne. unfold upd. by rewrite (proj2 (Z.eqb_neq u t) Hne). Qed.

(** A poll by task [t]. *)
Definition mx_do_poll (s : MutexSys) (t : Z) : MutexSys :=
  let (ready, m) := mutex_poll (mx s) t in
  mkMxSys m (upd (mx_phase s) t (if ready then MxHolding else MxPending)) (mx_woken s ∖ {[t]}).

Definition mx_do_unlock (s : MutexSys) (t : Z) : MutexSys :=
  let (w, m) := mutex_release (mx s) in
  mkMxSys m (upd (mx_phase s) t MxIdle) (mx_woken s ∪ list_to_set (option_list w)).

Inductive mutex_step : MutexSys -> MutexSys -> Prop :=
| mx_lock_step s t : mx_phase s t = MxIdle -> mutex_step s (mx_do_poll s t)
| mx_poll_step s t : mx_phase s t = MxPending -> t ∈ mx_woken s -> mutex_step s (mx_do_poll s t)
| mx_unlock_step s t : mx_phase s t = MxHolding -> mutex_step s (mx_do_unlock s t).

Definition mutex_init : MutexSys := mkMxSys mutex_new (fun _ => MxIdle) ∅.

Record mutex_inv (s : MutexSys) : Prop := {
  mi_locked : is_locked (mx s) = true <-> exists t, mx_phase s t = MxHolding;
  mi_unique : forall t u, mx_phase s t = MxHolding -> mx_phase s u = MxHolding -> t = u;
  mi_waiters : forall t, t ∈ mx_waiters (mx s) -> mx_phase s t = MxPending;
  mi_woken : forall t, t ∈ mx_woken s -> mx_phase s t = MxPending /\ t ∉ mx_waiters (mx s);
  mi_nodup : NoDup (mx_waiters (mx s));
  mi_pending : forall t, mx_phase s t = MxPending -> t ∈ mx_waiters (mx s) \/ t ∈ mx_woken s;
  mi_wake : is_locked (mx s) = false -> mx_waiters (mx s) <> [] -> mx_woken s <> ∅
}.

Lemma mutex_init_inv : mutex_inv mutex_init.
Proof.
  split; simpl; try done; try (intros t Ht; set_solver); [|constructor].
  split; [done|by intros [t ?]].
Qed.

Lemma not_registered (ws : list Z) t : forallb (fun w => negb (w =? t)) ws = true <-> t ∉ ws.
Proof.
  rewrite forallb_forall. split.
  - intros Hf Ht. specialize (Hf t (proj1 (list_elem_of_In _ _) Ht)). by rewrite Z.eqb_refl in Hf.
  - intros Ht w Hw%list_elem_of_In. apply negb_true_iff, Z.eqb_neq. by intros ->.
Qed.

(** A task that is not registered takes the lock or registers. *)
Lemma mutex_poll_inv s t : mutex_inv s -> mx_phase s t <> MxHolding -> t ∉ mx_waiters (mx s) ->
  mutex_inv (mx_do_poll s t).
Proof.
  intros [Il Iu Iw Ik In Ip Iwk] Ht Hnw. unfold mx_do_poll, mutex_poll.
  rewrite (proj2 (not_registered _ _) Hnw).
  assert (Hph : forall x u, u <> t -> upd (mx_phase s) t x u = mx_phase s u) by (intros; by apply upd_ne).
  destruct (is_locked (mx s)) eqn:El; simpl; split; simpl.
  - split; [|done]. intros _. destruct (proj1 Il eq_refl) as [u Hu]. exists u. rewrite Hph; [done|congruence].
  - intros u v. destruct (decide (u = t)) as [->|Hu]; [by rewrite upd_eq|].
    destruct (decide (v = t)) as [->|Hv]; [by rewrite upd_eq|]. rewrite !Hph by done. apply Iu.
  - intros u Hu. destruct (decide (u = t)) as [->|Hne]; [by rewrite upd_eq|]. rewrite Hph by done.
    apply Iw. set_solver.
  - intros u [Hu Hne]%elem_of_difference. rewrite Hph by set_solver. destruct (Ik u Hu). set_solver.
  - apply NoDup_app. split; [done|]. split; [set_solver|apply NoDup_singleton].
  - intros u Hu. destruct (decide (u = t)) as [->|Hne]; [set_solver|]. rewrite Hph in Hu by done.
    destruct (Ip u Hu); set_solver.
  - done.
  - split; [|done]. intros _. exists t. apply upd_eq.
  - assert (Hno : forall u, mx_phase s u <> MxHolding) by (intros u Hu; assert (false = true) by (apply Il; eauto); done).
    assert (Hu : forall u, upd (mx_phase s) t MxHolding u = MxHolding -> u = t).
    { intros u Hu. destruct (decide (u = t)) as [|Hne]; [done|]. rewrite Hph in Hu by done. by destruct (Hno u). }
    intros u v ->%Hu ->%Hu. done.
  - intros u Hu. rewrite Hph by (by intros ->). by apply Iw.
  - intros u [Hu Hne]%elem_of_difference. rewrite Hph by set_solver. by apply Ik.
  - done.
  - intros u Hu. destruct (decide (u = t)) as [->|Hne]; [by rewrite upd_eq in Hu|]. rewrite Hph in Hu by done.
    destruct (Ip u Hu); set_solver.
  - done.
Qed.

Lemma mutex_unlock_inv s t : mutex_inv s -> mx_phase s t = MxHolding -> mutex_inv (mx_do_unlock s t).
Proof.
  intros [Il Iu Iw Ik In Ip Iwk] Ht. unfold mx_do_unlock, mutex_release.
  assert (Hph : forall u, u <> t -> upd (mx_phase s) t MxIdle u = mx_phase s u) by (intros; by apply upd_ne).
  assert (Hno : forall u, upd (mx_phase s) t MxIdle u <> MxHolding).
  { intros u Hu. destruct (decide (u = t)) as [->|Hne]; [by rewrite upd_eq in Hu|].
    rewrite Hph in Hu by done. by apply Hne, Iu. }
  assert (Hpe : forall u, upd (mx_phase s) t MxIdle u = MxPending <-> mx_phase s u = MxPending).
  { intros u. destruct (decide (u = t)) as [->|Hne]; [rewrite upd_eq, Ht; done|by rewrite Hph]. }
  destruct (mx_waiters (mx s)) as [|w ws] eqn:Ew; simpl; split; simpl.
  - split; [done|]. intros [u Hu]. by destruct (Hno u).
  - intros u v Hu. by destruct (Hno u).
  - by intros u ?%not_elem_of_nil.
  - intros u Hu. rewrite Hpe. split; [apply Ik; set_solver|apply not_elem_of_nil].
  - constructor.
  - intros u Hu%Hpe. destruct (Ip u Hu); set_solver.
  - done.
  - split; [done|]. intros [u Hu]. by destruct (Hno u).
  - intros u v Hu. by destruct (Hno u).
  - intros u Hu. apply Hpe, Iw. by right.
  - intros u Hu. rewrite Hpe. apply NoDup_cons in In as [Hw In].
    apply elem_of_union in Hu as [Hu|Hu]; [destruct (Ik u Hu); set_solver|].
    assert (u = w) as -> by set_solver. split; [apply Iw; by left|done].
  - by apply NoDup_cons in In as [_ In].
  - intros u Hu%Hpe. destruct (Ip u Hu) as [[->|?]%elem_of_cons|?]; set_solver.
  - intros _ _ E. assert (w ∈ (∅ : gset Z)) by (rewrite <- E; set_solver). set_solver.
Qed.

Lemma mutex_reach_inv s : rtc mutex_step mutex_init s -> mutex_inv s.
Proof.
  intros Hr. assert (H' : forall a b, rtc mutex_step a b -> mutex_inv a -> mutex_inv b).
  { intros a b Hab. induction Hab as [a|a b c Hs _ IH]; [done|]. intros I. apply IH.
    destruct Hs as [a t Ht|a t Ht Hw|a t Ht].
    - apply mutex_poll_inv; [done|by rewrite Ht|]. intros Hin. by rewrite (mi_waiters a I t Hin) in Ht.
    - apply mutex_poll_inv; [done|by rewrite Ht|]. by apply (mi_woken a I).
    - by apply mutex_unlock_inv. }
  by apply (H' mutex_init); [|apply mutex_init_inv].
Qed.


(** Task 1 locks, task 2 waits, task 1 unlocks. *)
Definition demo_mutex : MutexSys := mx_do_unlock (mx_do_poll (mx_do_poll mutex_init 1) 2) 1.


(** A poll that no wake-up caused leaves the queue entry of the task behind when it gets the
    lock.  Tasks 2 and 3 wait for task 1, which wakes 2; 3 is polled first and gets the
    lock, 2 waits again; the unlock of 3 wakes 3 itself, and 2 sleeps on a free mutex. *)
Lemma mutex_stale_waiter :
  let m2 := (mutex_poll (mutex_poll (mutex_poll mutex_new 1).2 2).2 3).2 in
  let (w2, m3) := mutex_release m2 in
  let (r3, m4) := mutex_poll m3 3 in
  let (r2, m5) := mutex_poll m4 2 in
  let (w, m6) := mutex_release m5 in
  w2 = Some 2 /\ r3 = true /\ r2 = false /\ w = Some 3 /\ m6 = mkMutex false [2].
Proof. by vm_compute. Qed.

(** The future of a woken task has no [Drop] that passes the wake-up on: when task 2 gives
    up after the unlock woke it, task 3 sleeps on a free mutex. *)
Lemma mutex_cancelled_waiter :
  mutex_release (mutex_poll (mutex_poll (mutex_poll mutex_new 1).2 2).2 3).2 = (Some 2, mkMutex false [3]).
Proof. reflexivity. Qed.

(** * Tasks that share a readers-writer lock *)

(** [rw_rd] and [rw_wr] are the tasks inside of a read guard and of a write guard. *)
Record RwSys := mkRwSys { rw : RwlockState; rw_rd : gset Z; rw_wr : gset Z }.

Definition rwsys_init : RwSys := mkRwSys rwlock_new ∅ ∅.

Definition enter (ready : bool) (t : Z) (X : gset Z) : gset Z := if ready then {[t]} ∪ X else X.

(** Polls are not restricted: exclusion does not depend on who is woken.  A task drops
    only a guard it has. *)
Inductive rw_step : RwSys -> RwSys -> Prop :=
| rw_read_start s t ready st : t ∉ rw_rd s -> Z.of_nat (size (rw_rd s)) + 1 < 2 ^ 64 ->
    rw_read (rw s) t = Some (ready, st) -> rw_step s (mkRwSys st (enter ready t (rw_rd s)) (rw_wr s))
| rw_read_again s t ready st : reading_lock (rw s) = Some t ->
    rw_read_poll (rw s) t = (ready, st) -> rw_step s (mkRwSys st (enter ready t (rw_rd s)) (rw_wr s))
| rw_read_end s t w st : t ∈ rw_rd s -> rw_read_drop (rw s) = Some (w, st) ->
    rw_step s (mkRwSys st (rw_rd s ∖ {[t]}) (rw_wr s))
| rw_write_try s t ready st : t ∉ rw_wr s -> rw_write_poll (rw s) t = (ready, st) ->
    rw_step s (mkRwSys st (rw_rd s) (enter ready t (rw_wr s)))
| rw_write_end s t w st : t ∈ rw_wr s -> rw_write_drop (rw s) = (w, st) ->
    rw_step s (mkRwSys st (rw_rd s) (rw_wr s ∖ {[t]})).

Record rw_inv (s : RwSys) : Prop := {
  ri_count : num_readers (rw s) =
    Z.of_nat (size (rw_rd s)) + match reading_lock (rw s) with Some _ => 1 | None => 0 end;
  ri_small : num_readers (rw s) < 2 ^ 64;
  ri_reading : reading_lock (rw s) <> None -> rw_rd s = ∅;
  ri_locked : is_locked (writer_lock (rw s)) = negb (bool_decide (rw_rd s = ∅ /\ rw_wr s = ∅));
  ri_writer : (size (rw_wr s) <= 1)%nat;
  ri_excl : rw_wr s = ∅ \/ rw_rd s = ∅
}.

Lemma mutex_poll_locked m t ready m' : mutex_poll m t = (ready, m') ->
  is_locked m' = true /\ ready = negb (is_locked m).
Proof. unfold mutex_poll. destruct (is_locked m) eqn:El; simpl; repeat case_match; naive_solver. Qed.

Lemma mutex_release_unlocked m w m' : mutex_release m = (w, m') -> is_locked m' = false.
Proof. unfold mutex_release. case_match; naive_solver. Qed.

Lemma rw_free s : rw_inv s -> is_locked (writer_lock (rw s)) = false -> rw_rd s = ∅ /\ rw_wr s = ∅.
Proof. intros I E. rewrite (ri_locked s I) in E. apply negb_false_iff, bool_decide_eq_true in E. done. Qed.

Lemma locked_reader (R W : gset Z) t : true = negb (bool_decide ({[t]} ∪ R = ∅ /\ W = ∅)).
Proof. rewrite bool_decide_eq_false_2; [done|]. set_solver. Qed.
Lemma locked_writer (R W : gset Z) t : true = negb (bool_decide (R = ∅ /\ {[t]} ∪ W = ∅)).
Proof. rewrite bool_decide_eq_false_2; [done|]. set_solver. Qed.

Lemma rw_read_inv s t ready st : rw_inv s -> t ∉ rw_rd s -> Z.of_nat (size (rw_rd s)) + 1 < 2 ^ 64 ->
  rw_read (rw s) t = Some (ready, st) -> rw_inv (mkRwSys st (enter ready t (rw_rd s)) (rw_wr s)).
Proof.
  intros I Ht Hb. pose proof I as [Ic Is Ir Il Iw Ie]. unfold rw_read.
  destruct (reading_lock (rw s)) as [u|] eqn:Er; [done|].
  rewrite uadd_small by lia.
  destruct (num_readers (rw s) + 1 =? 1) eqn:En; breflect.
  - assert (Hs : size (rw_rd s) = 0%nat) by lia. apply size_empty_inv, leibniz_equiv in Hs.
    destruct (mutex_poll (writer_lock (rw s)) t) as [r m] eqn:Em. intros [= <- <-].
    apply mutex_poll_locked in Em as [Hm ->].
    destruct (is_locked (writer_lock (rw s))) eqn:El; simpl; split; simpl; rewrite ?Hs, ?size_empty in *; try lia; try done.
    + rewrite Hm, <- Il. done.
    + rewrite size_union, size_singleton, size_empty by set_solver. lia.
    + rewrite Hm. apply locked_reader.
    + left. by apply (rw_free s I).
  - intros [= <- <-]. simpl. assert (Hne : rw_rd s <> ∅).
    { intros E. rewrite E, size_empty in Ic. simpl in Ic. lia. }
    assert (He : rw_wr s = ∅) by (destruct Ie; [done|contradiction]).
    split; simpl; try lia; try done.
    + rewrite size_union, size_singleton by set_solver. lia.
    + rewrite Il, <- locked_reader. rewrite bool_decide_eq_false_2; [done|]. tauto.
    + by left.
Qed.

Lemma rw_read_again_inv s t ready st : rw_inv s -> reading_lock (rw s) = Some t ->
  rw_read_poll (rw s) t = (ready, st) -> rw_inv (mkRwSys st (enter ready t (rw_rd s)) (rw_wr s)).
Proof.
  intros I Er. pose proof I as [Ic Is Ir Il Iw Ie]. unfold rw_read_poll.
  destruct (mutex_poll (writer_lock (rw s)) t) as [r m] eqn:Em. intros [= <- <-].
  apply mutex_poll_locked in Em as [Hm ->]. rewrite Er in *.
  assert (Hs : rw_rd s = ∅) by (apply Ir; done). rewrite Hs, size_empty in Ic.
  destruct (is_locked (writer_lock (rw s))) eqn:El; simpl; split; simpl; rewrite ?Hs, ?size_empty in *; try lia; try done.
  - rewrite Hm, <- Il. done.
  - rewrite size_union, size_singleton, size_empty by set_solver. lia.
  - rewrite Hm. apply locked_reader.
  - left. by apply (rw_free s I).
Qed.

Lemma rw_read_end_inv s t w st : rw_inv s -> t ∈ rw_rd s -> rw_read_drop (rw s) = Some (w, st) ->
  rw_inv (mkRwSys st (rw_rd s ∖ {[t]}) (rw_wr s)).
Proof.
  intros [Ic Is Ir Il Iw Ie] Ht. unfold rw_read_drop. destruct (reading_lock (rw s)) as [u|] eqn:Er; [done|].
  assert (Hne : rw_rd s <> ∅) by set_solver. assert (He : rw_wr s = ∅) by (destruct Ie; [done|contradiction]).
  assert (Hsz : (size (rw_rd s ∖ {[t]}) = size (rw_rd s) - 1)%nat).
  { rewrite size_difference, size_singleton by set_solver. done. }
  assert (Hpos : (0 < size (rw_rd s))%nat).
  { destruct (size (rw_rd s)) eqn:E; [|lia]. by apply size_empty_inv, leibniz_equiv in E. }
  rewrite usub_small by lia. destruct (num_readers (rw s) - 1 =? 0) eqn:En; breflect.
  - destruct (mutex_release (writer_lock (rw s))) as [w' m] eqn:Em. intros [= <- <-].
    apply mutex_release_unlocked in Em. assert (Hs : size (rw_rd s ∖ {[t]}) = 0%nat) by lia.
    apply size_empty_inv, leibniz_equiv in Hs.
    split; simpl; rewrite ?Hs, ?He, ?size_empty; try lia; try done.
    by left.
  - intros [= <- <-]. assert (Hs : rw_rd s ∖ {[t]} <> ∅).
    { intros E. rewrite E, size_empty in Hsz. lia. }
    split; simpl; rewrite ?He, ?size_empty; try lia; try done; [|by left].
    rewrite Il, !bool_decide_eq_false_2; [done|tauto|rewrite He; tauto].
Qed.

Lemma rw_write_inv s t ready st : rw_inv s -> rw_write_poll (rw s) t = (ready, st) ->
  rw_inv (mkRwSys st (rw_rd s) (enter ready t (rw_wr s))).
Proof.
  intros I. pose proof I as [Ic Is Ir Il Iw Ie]. unfold rw_write_poll.
  destruct (mutex_poll (writer_lock (rw s)) t) as [r m] eqn:Em. intros [= <- <-].
  apply mutex_poll_locked in Em as [Hm ->].
  destruct (is_locked (writer_lock (rw s))) eqn:El; simpl; split; simpl; try done.
  - by rewrite Hm, <- Il.
  - rewrite Hm. apply locked_writer.
  - destruct (rw_free s I El) as [_ ->]. rewrite size_union, size_singleton, size_empty by set_solver. lia.
  - right. by apply (rw_free s I).
Qed.

Lemma rw_write_end_inv s t w st : rw_inv s -> t ∈ rw_wr s -> rw_write_drop (rw s) = (w, st) ->
  rw_inv (mkRwSys st (rw_rd s) (rw_wr s ∖ {[t]})).
Proof.
  intros [Ic Is Ir Il Iw Ie] Ht. unfold rw_write_drop.
  destruct (mutex_release (writer_lock (rw s))) as [w' m] eqn:Em. intros [= <- <-].
  apply mutex_release_unlocked in Em.
  assert (Hs : size (rw_wr s ∖ {[t]}) = 0%nat) by (rewrite size_difference, size_singleton by set_solver; lia).
  apply size_empty_inv, leibniz_equiv in Hs.
  assert (He : rw_rd s = ∅) by (destruct Ie; [set_solver|done]).
  split; simpl; rewrite ?Hs, ?size_empty; try lia; try done; [|by left].
  rewrite Em, bool_decide_eq_true_2 by done. done.
Qed.

Lemma rw_reach_inv s : rtc rw_step rwsys_init s -> rw_inv s.
Proof.
  intros Hr. assert (H' : forall a b, rtc rw_step a b -> rw_inv a -> rw_inv b).
  { intros a b Hab. induction Hab as [a|a b c Hs _ IH]; [done|]. intros I. apply IH.
    destruct Hs; eauto using rw_read_inv, rw_read_again_inv, rw_read_end_inv, rw_write_inv, rw_write_end_inv. }
  apply (H' rwsys_init); [done|]. split; try done; [vm_compute; lia|by left].
Qed.

(** as long as no pending [read] is dropped, the readers-writer lock excludes: there is
    never a writer together with a reader or another writer, the count is the number of
    read guards plus the reader that awaits the writer lock, and only the first reader
    awaits it. *)
Theorem rwlock_exclusion s : rtc rw_step rwsys_init s ->
  (forall t u, t ∈ rw_wr s -> u ∉ rw_rd s /\ (u ∈ rw_wr s -> u = t)) /\
  num_readers (rw s) = Z.of_nat (size (rw_rd s)) + match reading_lock (rw s) with Some _ => 1 | None => 0 end /\
  (reading_lock (rw s) <> None -> rw_rd s = ∅).
Proof.
  intros Hr. destruct (rw_reach_inv s Hr) as [Ic _ Ir _ Iw Ie]. split; [|done].
  intros t u Ht. split; [set_solver|]. intros Hu. destruct (decide (u = t)) as [|Hne]; [done|].
  assert (Hs : size ({[u; t]} : gset Z) = 2%nat).
  { rewrite size_union, !size_singleton by set_solver. done. }
  pose proof (subseteq_size ({[u; t]} : gset Z) (rw_wr s) ltac:(set_solver)). lia.
Qed.

Lemma rwlock_exclusion_witness : exists s, rtc rw_step rwsys_init s /\ 5 ∈ rw_wr s /\ 6 ∉ rw_rd s.
Proof.
  eexists (mkRwSys _ _ _). assert (Hr : rtc rw_step rwsys_init (mkRwSys (mkRwlock 0 None (mkMutex true [])) ∅ ({[5]} ∪ ∅))).
  { apply rtc_once. by apply (rw_write_try rwsys_init 5 true). }
  split; [exact Hr|]. split; [set_solver|].
  apply (proj1 (rwlock_exclusion _ Hr) 5 6). set_solver.
Defined.

(** A [read] that is dropped while it awaits the writer lock has already counted itself:
    with task 1 inside of a write guard, the next reader enters. *)
Lemma rwlock_cancelled_read :
  let s1 := (rw_write_poll rwlock_new 1).2 in
  exists s2, rw_read s1 2 = Some (false, s2) /\
  rw_read (rw_read_cancel s2) 3 = Some (true, mkRwlock 2 None (mkMutex true [2])).
Proof. eexists. split; reflexivity. Qed.

(** And while it awaits, the guard of the count is held: another [read] spins. *)
Lemma rwlock_read_spins :
  let s1 := (rw_write_poll rwlock_new 1).2 in
  exists s2, rw_read s1 2 = Some (false, s2) /\ rw_read s2 3 = None.
Proof. eexists. split; reflexivity. Qed.

(** * A channel in use *)

Section Channel.
Context {T : Type}.

(** [ch_token] is the token of the receiver's future, [None] when no [recv] is in
    progress; [ch_woken]: the receiver was woken and not polled since. *)
Record ChanSys := mkChan {
  ch : CondVarInner (MpscState T); ch_token : option (option Z); ch_woken : bool;
  ch_sent : list T; ch_got : list T
}.

Definition chan_init : ChanSys := mkChan channel None false [] [].

(** The receiver is the only task that registers, as task 0. *)
Definition woken_by (l : list Z) (b : bool) : bool := b || match l with [] => false | _ => true end.

Definition chan_update (s : ChanSys) (u : list Z * CondVarInner (MpscState T)) (sent : list T) : ChanSys :=
  mkChan u.2 (ch_token s) (woken_by u.1 (ch_woken s)) sent (ch_got s).

Definition chan_poll (s : ChanSys) : ChanSys :=
  match recv_poll (default None (ch_token s)) (ch s) 0 with
  | (Some r, token, c) => mkChan (wait_drop token c) None false (ch_sent s) (ch_got s ++ option_list r)
  | (None, token, c) => mkChan c (Some token) false (ch_sent s) (ch_got s)
  end.

Definition chan_cancel (s : ChanSys) (token : option Z) : ChanSys :=
  mkChan (wait_drop token (ch s)) None false (ch_sent s) (ch_got s).

Inductive chan_step : ChanSys -> ChanSys -> Prop :=
| ch_send s x : senders (cv_state (ch s)) <> 0 ->
    chan_step s (chan_update s (send (ch s) x)
      (if recv_gone (cv_state (ch s)) then ch_sent s else ch_sent s ++ [x]))
| ch_clone s : senders (cv_state (ch s)) <> 0 -> senders (cv_state (ch s)) + 1 < 2 ^ 64 ->
    chan_step s (chan_update s (sender_clone (ch s)) (ch_sent s))
| ch_drop s : senders (cv_state (ch s)) <> 0 ->
    chan_step s (chan_update s (sender_drop (ch s)) (ch_sent s))
| ch_poll s : recv_gone (cv_state (ch s)) = false -> chan_step s (chan_poll s)
| ch_cancel s token : ch_token s = Some token -> chan_step s (chan_cancel s token)
| ch_gone s : ch_token s = None -> chan_step s (chan_update s (receiver_drop (ch s)) (ch_sent s)).

Record chan_inv (s : ChanSys) : Prop := {
  ci_senders : 0 <= senders (cv_state (ch s)) < 2 ^ 64;
  ci_fifo : recv_gone (cv_state (ch s)) = false -> ch_sent s = ch_got s ++ mp_data (cv_state (ch s));
  ci_gone : recv_gone (cv_state (ch s)) = true ->
    ch_token s = None /\ mp_data (cv_state (ch s)) = [] /\ ch_got s `prefix_of` ch_sent s;
  ci_waiters : waiters (cv_wakers (ch s)) =
    match ch_token s with
    | Some (Some id) => if ch_woken s then [] else [(id, (0, tt))]
    | _ => []
    end;
  ci_token : ch_token s <> Some None;
  ci_idle : ch_token s = None -> ch_woken s = false;
  ci_wake : ch_token s <> None ->
    (ch_woken s = true <-> mp_data (cv_state (ch s)) <> [] \/ senders (cv_state (ch s)) = 0)
}.

Lemma chan_init_inv : chan_inv chan_init.
Proof. split; simpl; try done; lia. Qed.

Lemma chan_send_inv s x : chan_inv s -> chan_inv (chan_update s (send (ch s) x)
  (if recv_gone (cv_state (ch s)) then ch_sent s else ch_sent s ++ [x])).
Proof.
  intros [Is If Ig Iw It Ii Ik]. unfold chan_update, send, cv_update, wake_one, take_first.
  destruct s as [[[d n g] [ws nid]] tok wk sent got]; simpl in *.
  destruct g; simpl.
  - unfold woken_by. rewrite orb_false_r. by split.
  - destruct tok as [[id|]|]; [|done|].
    + destruct wk; subst ws; simpl; split; simpl; try done; try (intros _; by rewrite If, <- app_assoc).
      * intros _. split; [intros _; left; by destruct d|done].
      * intros _. split; [intros _; left; by destruct d|done].
    + rewrite (Ii eq_refl) in *. subst ws. simpl. split; simpl; try done. intros _. by rewrite If, <- app_assoc.
Qed.

Lemma chan_clone_inv s : chan_inv s -> senders (cv_state (ch s)) <> 0 ->
  senders (cv_state (ch s)) + 1 < 2 ^ 64 -> chan_inv (chan_update s (sender_clone (ch s)) (ch_sent s)).
Proof.
  intros [Is If Ig Iw It Ii Ik] Hn Hb. unfold chan_update, sender_clone, cv_update.
  destruct s as [[[d n g] [ws nid]] tok wk sent got]; simpl in *.
  unfold woken_by. rewrite orb_false_r, uadd_small by lia. split; simpl; try done; [lia|].
  intros Ht. rewrite (Ik Ht). intuition lia.
Qed.

Lemma chan_drop_inv s : chan_inv s -> senders (cv_state (ch s)) <> 0 ->
  chan_inv (chan_update s (sender_drop (ch s)) (ch_sent s)).
Proof.
  intros [Is If Ig Iw It Ii Ik] Hn. unfold chan_update, sender_drop, cv_update, wake_all.
  destruct s as [[[d n g] [ws nid]] tok wk sent got]; simpl in *.
  rewrite usub_small by lia. destruct (n - 1 =? 0) eqn:En; breflect; simpl.
  - destruct tok as [[id|]|]; [|done|].
    + destruct wk; subst ws; split; simpl; try done; try lia; intros _; tauto.
    + rewrite (Ii eq_refl) in *. subst ws. split; simpl; try done; lia.
  - unfold woken_by. rewrite orb_false_r. split; simpl; try done; [lia|].
    intros Ht. rewrite (Ik Ht). intuition lia.
Qed.

(** The entry of the future is gone once it is dropped. *)
Lemma wait_drop_clean s token : chan_inv s -> ch_token s = Some token ->
  waiters (cv_wakers (wait_drop token (ch s))) = [] /\ cv_state (wait_drop token (ch s)) = cv_state (ch s).
Proof.
  intros [_ _ _ Iw It _ _] Ht. rewrite Ht in *. destruct token as [id|]; [|done].
  simpl. split; [|done]. rewrite Iw. destruct (ch_woken s); simpl; [done|]. by rewrite Z.eqb_refl.
Qed.

Lemma chan_cancel_inv s token : chan_inv s -> ch_token s = Some token -> chan_inv (chan_cancel s token).
Proof.
  intros I Ht. destruct (wait_drop_clean s token I Ht) as [Hw Hc]. destruct I as [Is If Ig Iw It Ii Ik].
  split; cbn [chan_cancel ch ch_token ch_woken ch_sent ch_got]; rewrite ?Hc, ?Hw; try done.
  intros Hg. by destruct (Ig Hg) as (_ & ? & ?).
Qed.

Lemma chan_gone_inv s : chan_inv s -> ch_token s = None ->
  chan_inv (chan_update s (receiver_drop (ch s)) (ch_sent s)).
Proof.
  intros [Is If Ig Iw It Ii Ik] Ht. unfold chan_update, receiver_drop, cv_update.
  destruct s as [[[d n g] [ws nid]] tok wk sent got]; simpl in *. subst tok.
  rewrite (Ii eq_refl) in *. split; simpl; try done. intros _. split; [done|]. split; [done|].
  destruct g; [by apply Ig|]. rewrite (If eq_refl). by apply prefix_app_r.
Qed.

(** What one poll of [recv] does. *)
Lemma recv_poll_spec token (c : CondVarInner (MpscState T)) w :
  recv_poll token c w =
  match mp_data (cv_state c) with
  | d :: rest => (Some (Some d), token,
      mkCondVar (mkMpsc rest (senders (cv_state c)) (recv_gone (cv_state c))) (cv_wakers c))
  | [] =>
      if senders (cv_state c) =? 0 then (Some None, token, c)
      else match token with
           | None => let (id, ws) := register (cv_wakers c) w in (None, Some id, mkCondVar (cv_state c) ws)
           | Some _ => (None, token, c)
           end
  end.
Proof.
  destruct c as [[[|d rest] n g] ws]; unfold recv_poll, cv_wait_poll, wait_poll, cv_predicate, recv_predicate; simpl; [|done].
  destruct (n =? 0); simpl; [done|]. by destruct token.
Qed.

Lemma chan_poll_inv s : chan_inv s -> recv_gone (cv_state (ch s)) = false -> chan_inv (chan_poll s).
Proof.
  intros I Hg. unfold chan_poll. rewrite recv_poll_spec.
  assert (Hcl : waiters (cv_wakers (wait_drop (default None (ch_token s)) (ch s))) = []).
  { destruct (ch_token s) as [token|] eqn:Et; simpl; [by apply (wait_drop_clean s)|].
    rewrite (ci_waiters s I), Et. done. }
  destruct I as [Is If Ig Iw It Ii Ik].
  destruct s as [[[d n g] [ws nid]] tok wk sent got]; simpl in *. subst g.
  destruct d as [|x d]; [destruct (n =? 0) eqn:En; breflect; simpl|].
  - rewrite app_nil_r in If. destruct tok as [[id|]|]; [|done|]; simpl in *; split; simpl; try done;
      intros _; by rewrite If, !app_nil_r.
  - destruct tok as [[id|]|]; [|done|]; simpl.
    + assert (wk = false) as ->.
      { destruct wk; [|done]. destruct (proj1 (Ik ltac:(done)) eq_refl); done. }
      split; simpl; try done.
    + subst ws. split; simpl; try done. intros _. split; [done|]. intros []; done.
  - simpl in Hcl. destruct tok as [[id|]|]; [|done|]; simpl in *; split; simpl; try done;
      intros _; by rewrite If, <- app_assoc.
Qed.

Lemma chan_reach_inv s : rtc chan_step chan_init s -> chan_inv s.
Proof.
  intros Hr. assert (H' : forall a b, rtc chan_step a b -> chan_inv a -> chan_inv b).
  { intros a b Hab. induction Hab as [a|a b c Hs _ IH]; [done|]. intros I. apply IH.
    destruct Hs; auto using chan_send_inv, chan_clone_inv, chan_drop_inv, chan_poll_inv, chan_cancel_inv, chan_gone_inv. }
  by apply (H' chan_init); [|apply chan_init_inv].
Qed.

(** C33: the channel delivers every message once and in order, and its receiver is never left
    asleep: while the receiver lives, what was sent is what it got followed by what is
    queued; a [recv] that waits has been woken exactly when there is a message or no
    sender is left, and then its next poll is [Ready], with the oldest message or [None]. *)
Theorem mpsc_correct s : rtc chan_step chan_init s ->
  (recv_gone (cv_state (ch s)) = false -> ch_sent s = ch_got s ++ mp_data (cv_state (ch s))) /\
  (recv_gone (cv_state (ch s)) = true -> mp_data (cv_state (ch s)) = []) /\
  (ch_token s <> None ->
    (ch_woken s = true <-> mp_data (cv_state (ch s)) <> [] \/ senders (cv_state (ch s)) = 0) /\
    (ch_woken s = true -> forall token, (recv_poll token (ch s) 0).1.1 = Some (head (mp_data (cv_state (ch s)))))).
Proof.
  intros Hr. destruct (chan_reach_inv s Hr) as [Is If Ig Iw It Ii Ik].
  split; [done|]. split; [intros Hg; by apply Ig|]. intros Ht. split; [by apply Ik|].
  intros Hw token. rewrite recv_poll_spec. apply Ik in Hw; [|done].
  destruct (mp_data (cv_state (ch s))) as [|d rest]; [|done].
  destruct Hw as [Hw| ->]; done.
Qed.
End Channel.

(** The receiver waits, a message is sent. *)
Definition demo_chan : ChanSys (T := Z) :=
  let s := chan_poll chan_init in chan_update s (send (ch s) 7) [7].

Lemma mpsc_correct_witness : ch_woken demo_chan = true /\ (recv_poll (Some 0) (ch demo_chan) 0).1.1 = Some (Some 7).
Proof.
  assert (Hr : rtc chan_step chan_init demo_chan).
  { eapply rtc_l; [by apply ch_poll|]. apply rtc_once. by apply (ch_send (chan_poll chan_init) 7). }
  split; [reflexivity|]. destruct (mpsc_correct demo_chan Hr) as (_ & _ & H). by apply H.
Defined.

(** * A waiter that is woken for nothing *)

(** [WaitUntil] keeps its token after the wake-up that removed its entry, so a poll that
    finds the predicate still false does not register again.  Two tasks wait for a token:
    the waker of task 1 is taken, a third party takes the item first, and from then on
    task 1 sleeps through every later update. *)
Definition take_item (s : Z) : option unit * Z := if 0 <? s then (Some tt, s - 1) else (None, s).
Definition put_item (s : Z) : WakeupType * Z := (WakeOne, s + 1).

Lemma wait_until_lost_wakeup :
  let '(r1, tok1, c1) := cv_wait_poll take_item None (cv_new 0) 1 in
  let (w1, c2) := cv_update c1 put_item in
  let '(r2, _, c3) := cv_wait_poll take_item None c2 2 in
  let '(r3, tok3, c4) := cv_wait_poll take_item tok1 c3 1 in
  let (w2, c5) := cv_update c4 put_item in
  r1 = None /\ w1 = [1] /\ r2 = Some tt /\ r3 = None /\ tok3 <> None /\ w2 = [] /\ cv_state c5 = 1.
Proof. by vm_compute. Qed.
