(* ===== verification/Kbuf.v ===== *)
(** * The circular kernel buffer

    Models libkernel/src/memory/kbuf.rs.  The ring buffer is the ringbuf crate: class
    [RingBuf] has the operations the code calls and [RingBufLaws] what their documentation
    promises, with a position-accurate ring as instance.  Items move through slices as
    lists; a blocking operation is one poll of its future. *)
From stdpp Require Import gmap sets.
From S2P Require Import Prelude BTree Sync.
Local Open Scope Z_scope.

(** ** The ring buffer *)

Class RingBuf (B T : Type) := {
  rb_occupied : B -> list T;
  rb_capacity : B -> Z;
  rb_try_push : B -> T -> bool * B;
  rb_try_pop : B -> option T * B;
  rb_push_slice : B -> list T -> Z * B;
  rb_pop_slice : B -> Z -> list T * B;
  rb_occupied_slices : B -> list T * list T;
  rb_vacant_slices : B -> list T * list T;
  rb_write_vacant : B -> list T * list T -> B;
  rb_advance_read : B -> Z -> B;
  rb_advance_write : B -> Z -> B
}.

Definition len {A : Type} (l : list A) : Z := Z.of_nat (length l).
Definition ltake {A : Type} (n : Z) (l : list A) : list A := take (Z.to_nat n) l.
Definition ldrop {A : Type} (n : Z) (l : list A) : list A := drop (Z.to_nat n) l.

Section Ring.
Context {B T : Type} `{RingBuf B T}.

Definition rb_occupied_len (b : B) : Z := len (rb_occupied b).
Definition rb_vacant_len (b : B) : Z := rb_capacity b - rb_occupied_len b.
Definition rb_is_empty (b : B) : bool := rb_occupied_len b =? 0.
Definition rb_is_full (b : B) : bool := rb_vacant_len b =? 0.
End Ring.

Class RingBufLaws (B T : Type) `{RingBuf B T} := {
  rb_wf : B -> Prop;
  rb_bound : forall b, rb_wf b -> rb_occupied_len b <= rb_capacity b /\ 0 < rb_capacity b < 2 ^ 64;
  rb_try_push_law : forall b x ok b', rb_wf b -> rb_try_push b x = (ok, b') ->
    rb_wf b' /\ rb_capacity b' = rb_capacity b /\ ok = negb (rb_is_full b) /\
    rb_occupied b' = (if ok then rb_occupied b ++ [x] else rb_occupied b);
  rb_try_pop_law : forall b o b', rb_wf b -> rb_try_pop b = (o, b') ->
    rb_wf b' /\ rb_capacity b' = rb_capacity b /\ o = head (rb_occupied b) /\ rb_occupied b' = tail (rb_occupied b);
  rb_push_slice_law : forall b l n b', rb_wf b -> rb_push_slice b l = (n, b') ->
    rb_wf b' /\ rb_capacity b' = rb_capacity b /\ n = Z.min (len l) (rb_vacant_len b) /\
    rb_occupied b' = rb_occupied b ++ ltake n l;
  rb_pop_slice_law : forall b n l b', rb_wf b -> 0 <= n -> rb_pop_slice b n = (l, b') ->
    rb_wf b' /\ rb_capacity b' = rb_capacity b /\ l = ltake n (rb_occupied b) /\
    rb_occupied b' = ldrop n (rb_occupied b);
  rb_occupied_slices_law : forall b, rb_wf b ->
    (rb_occupied_slices b).1 ++ (rb_occupied_slices b).2 = rb_occupied b /\
    ((rb_occupied_slices b).1 = [] -> rb_occupied b = []);
  rb_vacant_slices_law : forall b, rb_wf b ->
    len (rb_vacant_slices b).1 + len (rb_vacant_slices b).2 = rb_vacant_len b /\
    ((rb_vacant_slices b).1 = [] -> rb_vacant_len b = 0);
  rb_advance_read_law : forall b n, rb_wf b -> 0 <= n <= rb_occupied_len b ->
    rb_wf (rb_advance_read b n) /\ rb_capacity (rb_advance_read b n) = rb_capacity b /\
    rb_occupied (rb_advance_read b n) = ldrop n (rb_occupied b);
  rb_write_law : forall b h t n, rb_wf b ->
    len h = len (rb_vacant_slices b).1 -> len t = len (rb_vacant_slices b).2 -> 0 <= n <= rb_vacant_len b ->
    let b' := rb_advance_write (rb_write_vacant b (h, t)) n in
    rb_wf b' /\ rb_capacity b' = rb_capacity b /\ rb_occupied b' = rb_occupied b ++ ltake n (h ++ t)
}.

(** ** Operations *)

Section Kbuf.
Context {B T : Type} `{RingBuf B T}.

Record KBufInner := mkKBuf { buf : B; read_waiters : WakerSet unit; write_waiters : WakerSet unit }.

Definition kbuf_new (rb : B) : KBufInner := mkKBuf rb ws_new ws_new.

Definition reading : HasWakers KBufInner :=
  {| get_wakers := read_waiters; set_wakers k w := mkKBuf (buf k) w (write_waiters k) |}.
Definition writing : HasWakers KBufInner :=
  {| get_wakers := write_waiters; set_wakers k w := mkKBuf (buf k) (read_waiters k) w |}.

(** [wake_one] on one of the sets: the task woken and the buffer. *)
Definition wake_reader (k : KBufInner) : option Z * KBufInner :=
  let (w, s) := wake_one (read_waiters k) in (w, mkKBuf (buf k) s (write_waiters k)).
Definition wake_writer (k : KBufInner) : option Z * KBufInner :=
  let (w, s) := wake_one (write_waiters k) in (w, mkKBuf (buf k) (read_waiters k) s).

Definition read_ready_predicate (k : KBufInner) : option unit * KBufInner :=
  (if rb_is_empty (buf k) then None else Some tt, k).
Definition read_ready_poll (token : option Z) (k : KBufInner) (waker : Z) : option unit * option Z * KBufInner :=
  wait_poll (H := reading) read_ready_predicate token k waker.

Definition write_ready_predicate (k : KBufInner) : option unit * KBufInner :=
  (if rb_is_full (buf k) then None else Some tt, k).
Definition write_ready_poll (token : option Z) (k : KBufInner) (waker : Z) : option unit * option Z * KBufInner :=
  wait_poll (H := writing) write_ready_predicate token k waker.

(** Result, the task woken, the buffer. *)
Definition try_push (k : KBufInner) (obj : T) : bool * option Z * KBufInner :=
  let (ok, b) := rb_try_push (buf k) obj in
  let k := mkKBuf b (read_waiters k) (write_waiters k) in
  if ok then let (w, k) := wake_reader k in (ok, w, k) else (ok, None, k).

Definition try_pop (k : KBufInner) : option T * option Z * KBufInner :=
  let (res, b) := rb_try_pop (buf k) in
  let k := mkKBuf b (read_waiters k) (write_waiters k) in
  match res with
  | Some _ => let (w, k) := wake_writer k in (res, w, k)
  | None => (res, None, k)
  end.

(** One round of the loop of [push]: [write_ready], then [try_push].  Each takes the lock
    on its own; nothing runs in between here.  [None] when it has to wait. *)
Definition push_poll (token : option Z) (k : KBufInner) (obj : T) (waker : Z)
    : option (bool * option Z) * option Z * KBufInner :=
  match write_ready_poll token k waker with
  | (Some _, token, k) =>
      let '(ok, w, k) := try_push (wait_drop (H := writing) token k) obj in (Some (ok, w), None, k)
  | (None, token, k) => (None, token, k)
  end.

Definition pop_poll (token : option Z) (k : KBufInner) (waker : Z)
    : option (option T * option Z) * option Z * KBufInner :=
  match read_ready_poll token k waker with
  | (Some _, token, k) =>
      let '(res, w, k) := try_pop (wait_drop (H := reading) token k) in (Some (res, w), None, k)
  | (None, token, k) => (None, token, k)
  end.

Definition kbuf_capacity (k : KBufInner) : Z := rb_capacity (buf k).

Definition try_pop_slice (k : KBufInner) (n : Z) : list T * option Z * KBufInner :=
  let (l, b) := rb_pop_slice (buf k) n in
  let k := mkKBuf b (read_waiters k) (write_waiters k) in
  if 0 <? len l then let (w, k) := wake_writer k in (l, w, k) else (l, None, k).

Definition try_push_slice (k : KBufInner) (l : list T) : Z * option Z * KBufInner :=
  let (size, b) := rb_push_slice (buf k) l in
  let k := mkKBuf b (read_waiters k) (write_waiters k) in
  if 0 <? size then let (w, k) := wake_reader k in (size, w, k) else (size, None, k).

(** The predicates of the blocking variants also say whom they wake. *)
Definition pop_slice_predicate (n : Z) (k : KBufInner) : option (list T * list Z) * KBufInner :=
  let (l, b) := rb_pop_slice (buf k) n in
  let k := mkKBuf b (read_waiters k) (write_waiters k) in
  if negb (len l =? 0) then let (w, k) := wake_writer k in (Some (l, option_list w), k) else (None, k).

Definition pop_slice_poll (n : Z) (token : option Z) (k : KBufInner) (waker : Z)
    : option (list T * list Z) * option Z * KBufInner :=
  wait_poll (H := reading) (pop_slice_predicate n) token k waker.

Definition push_slice_predicate (l : list T) (k : KBufInner) : option (Z * list Z) * KBufInner :=
  let (bytes_written, b) := rb_push_slice (buf k) l in
  let k := mkKBuf b (read_waiters k) (write_waiters k) in
  let (w1, k) := if negb (rb_is_full (buf k)) then wake_writer k else (None, k) in
  if 0 <? bytes_written then
    let (w2, k) := wake_reader k in (Some (bytes_written, option_list w1 ++ option_list w2), k)
  else (None, k).

Definition push_slice_poll (l : list T) (token : option Z) (k : KBufInner) (waker : Z)
    : option (Z * list Z) * option Z * KBufInner :=
  wait_poll (H := writing) (push_slice_predicate l) token k waker.

(** [dst[..n].copy_from_slice(src[..n])] of slices that have [n] items. *)
Definition copy_into (dst src : list T) (n : Z) : list T := ltake n src ++ ldrop n dst.

(** Returns the count and the destination slices. *)
Definition copy_slices (src dst : list T * list T) (amount : Z) : Z * (list T * list T) :=
  let (src_head, src_tail) := src in
  let (dst_head, dst_tail) := dst in
  let original_amount := amount in
  let n1 := Z.min amount (Z.min (len src_head) (len dst_head)) in
  let dst_head := copy_into dst_head src_head n1 in
  let amount := usub amount n1 in
  if amount =? 0 then (original_amount, (dst_head, dst_tail)) else
  let src_after_head := ldrop n1 src_head in
  let n2 := Z.min amount (Z.min (len src_after_head) (len dst_tail)) in
  let dst_tail := copy_into dst_tail src_after_head n2 in
  let amount := usub amount n2 in
  if amount =? 0 then (original_amount, (dst_head, dst_tail)) else
  let dst_after_head := ldrop n1 dst_head in
  let n3 := Z.min amount (Z.min (len src_tail) (len dst_after_head)) in
  let dst_head := ltake n1 dst_head ++ copy_into dst_after_head src_tail n3 in
  let amount := usub amount n3 in
  (usub original_amount amount, (dst_head, dst_tail)).

(** One poll of the future inside of [splice_from], both locks held.  The result is the
    count and the tasks woken, [None] when it waits; then [self] and [source]. *)
Definition splice_poll (self source : KBufInner) (count : Z) (waker : Z)
    : option (Z * list Z) * KBufInner * KBufInner :=
  let bytes_to_move := Z.min count (Z.min (rb_occupied_len (buf source)) (rb_vacant_len (buf self))) in
  if 0 <? bytes_to_move then
    let (copied, dst) := copy_slices (rb_occupied_slices (buf source)) (rb_vacant_slices (buf self)) bytes_to_move in
    let source := mkKBuf (rb_advance_read (buf source) copied) (read_waiters source) (write_waiters source) in
    let self := mkKBuf (rb_advance_write (rb_write_vacant (buf self) dst) copied)
                  (read_waiters self) (write_waiters self) in
    let (w1, self) := wake_reader self in
    let (w2, source) := wake_writer source in
    (Some (copied, option_list w1 ++ option_list w2), self, source)
  else
    let source := if rb_is_empty (buf source)
                  then mkKBuf (buf source) (register (read_waiters source) waker).2 (write_waiters source) else source in
    let self := if rb_is_full (buf self)
                then mkKBuf (buf self) (read_waiters self) (register (write_waiters self) waker).2 else self in
    (None, self, source).

(** The guards before the first poll: [Some 0] when there is nothing to do. *)
Definition splice_start (same_buffer : bool) (count : Z) : option Z :=
  if count =? 0 then Some 0 else if same_buffer then Some 0 else None.
End Kbuf.
Arguments KBufInner : clear implicits.

(** ** Slices *)

Section Slices.
Context {T : Type}.
Implicit Types l : list T.

Lemma len_app l1 l2 : len (l1 ++ l2) = len l1 + len l2.
Proof. unfold len. rewrite length_app. lia. Qed.
Lemma len_nonneg l : 0 <= len l.
Proof. unfold len. lia. Qed.
Lemma len_ltake n l : 0 <= n -> len (ltake n l) = Z.min n (len l).
Proof. intros. unfold len, ltake. rewrite length_take. lia. Qed.
Lemma len_ldrop n l : 0 <= n -> len (ldrop n l) = Z.max 0 (len l - n).
Proof. intros. unfold len, ldrop. rewrite length_drop. lia. Qed.
Lemma len_nil l : len l = 0 -> l = [].
Proof. destruct l; [done|]. unfold len. simpl. lia. Qed.

Lemma ltake_app_le n l1 l2 : n <= len l1 -> ltake n (l1 ++ l2) = ltake n l1.
Proof. intros. unfold ltake, len in *. apply take_app_le. lia. Qed.
Lemma ltake_app_ge n l1 l2 : len l1 <= n -> ltake n (l1 ++ l2) = l1 ++ ltake (n - len l1) l2.
Proof.
  intros. unfold ltake, len in *. rewrite take_app_ge by lia. do 2 f_equal. lia.
Qed.
Lemma ldrop_app_le n l1 l2 : n <= len l1 -> ldrop n (l1 ++ l2) = ldrop n l1 ++ l2.
Proof. intros. unfold ldrop, len in *. apply drop_app_le. lia. Qed.
Lemma ldrop_app_ge n l1 l2 : len l1 <= n -> ldrop n (l1 ++ l2) = ldrop (n - len l1) l2.
Proof. intros. unfold ldrop, len in *. rewrite drop_app_ge by lia. f_equal. lia. Qed.
Lemma ltake_all n l : len l <= n -> ltake n l = l.
Proof. intros. unfold ltake, len in *. apply take_ge. lia. Qed.
Lemma ldrop_all n l : len l <= n -> ldrop n l = [].
Proof. intros. unfold ldrop, len in *. apply drop_ge. lia. Qed.
Lemma ldrop_ldrop a b l : 0 <= a -> 0 <= b -> ldrop b (ldrop a l) = ldrop (a + b) l.
Proof. intros. unfold ldrop. rewrite drop_drop. f_equal. lia. Qed.
Lemma ltake_split a b l : 0 <= a -> 0 <= b -> ltake a l ++ ltake b (ldrop a l) = ltake (a + b) l.
Proof.
  intros. unfold ltake, ldrop. rewrite Z2Nat.inj_add, <- take_take_drop by lia. done.
Qed.
Lemma copy_into_0 (dst src : list T) : copy_into dst src 0 = dst.
Proof. done. Qed.
Lemma len_copy_into (dst src : list T) n : 0 <= n <= len src -> n <= len dst -> len (copy_into dst src n) = len dst.
Proof. intros. unfold copy_into. rewrite len_app, len_ltake, len_ldrop by lia. lia. Qed.
End Slices.

(** What [copy_slices] copies: a prefix, cut where the longer of the two heads ends. *)
Lemma copy_slices_spec {T} (sh st dh dt : list T) amount n d :
  0 < amount < 2 ^ 64 -> amount <= len sh + len st -> amount <= len dh + len dt ->
  copy_slices (sh, st) (dh, dt) amount = (n, d) ->
  n = Z.min amount (Z.max (len sh) (len dh)) /\ len d.1 = len dh /\ len d.2 = len dt /\
  d.1 ++ d.2 = ltake n (sh ++ st) ++ ldrop n (dh ++ dt).
Proof.
  intros Ha Hs Hd. unfold copy_slices.
  pose proof (len_nonneg sh). pose proof (len_nonneg st). pose proof (len_nonneg dh). pose proof (len_nonneg dt).
  remember (Z.min amount (Z.min (len sh) (len dh))) as n1 eqn:Dn1.
  assert (Hn1 : 0 <= n1 /\ n1 <= amount /\ n1 <= len sh /\ n1 <= len dh) by lia.
  rewrite usub_small by lia. destruct (amount - n1 =? 0) eqn:E1; breflect.
  { intros [= <- <-]. simpl. rewrite len_copy_into by lia. split; [lia|]. split; [done|]. split; [done|].
    unfold copy_into. replace amount with n1 by lia.
    rewrite ltake_app_le, ldrop_app_le, app_assoc by lia. done. }
  remember (Z.min (amount - n1) (Z.min (len (ldrop n1 sh)) (len dt))) as n2 eqn:Dn2.
  assert (Hl : len (ldrop n1 sh) = len sh - n1) by (rewrite len_ldrop by lia; lia).
  assert (Hn2 : 0 <= n2 /\ n2 <= amount - n1 /\ n2 <= len sh - n1 /\ n2 <= len dt) by lia.
  assert (Hlong : len dh <= len sh -> ltake (n1 + n2) (sh ++ st) ++ ldrop (n1 + n2) (dh ++ dt)
    = copy_into dh sh n1 ++ copy_into dt (ldrop n1 sh) n2).
  { intros Hle. unfold copy_into. rewrite ltake_app_le, ldrop_app_ge by lia.
    rewrite (ldrop_all n1 dh), app_nil_r, app_assoc, ltake_split by lia. do 2 f_equal. lia. }
  rewrite (usub_small (amount - n1)) by lia. destruct (amount - n1 - n2 =? 0) eqn:E2; breflect.
  { intros [= <- <-]. simpl. rewrite !len_copy_into by lia. destruct (decide (len dh <= len sh)).
    - assert (amount = n1 + n2) as Hsum by lia. rewrite Hsum, Hlong by done. repeat split; lia.
    - lia. }
  set (ah := ldrop n1 (copy_into dh sh n1)).
  assert (Hah : ah = ldrop n1 dh).
  { unfold ah, copy_into. rewrite ldrop_app_ge; rewrite len_ltake by lia; [|lia].
    replace (n1 - Z.min n1 (len sh)) with 0 by lia. done. }
  assert (Hla : len ah = len dh - n1) by (rewrite Hah, len_ldrop by lia; lia).
  remember (Z.min (amount - n1 - n2) (Z.min (len st) (len ah))) as n3 eqn:Dn3.
  assert (Hn3 : 0 <= n3 /\ n3 <= amount - n1 - n2 /\ n3 <= len st /\ n3 <= len dh - n1) by lia.
  rewrite (usub_small (amount - n1 - n2)) by lia. rewrite usub_small by lia. intros [= <- <-]. simpl.
  rewrite len_app, len_ltake, !len_copy_into by (rewrite ?len_copy_into; lia).
  split; [lia|]. split; [lia|]. split; [lia|].
  assert (Hth : ltake n1 (copy_into dh sh n1) = ltake n1 sh).
  { unfold copy_into. rewrite ltake_app_le by (rewrite len_ltake; lia). unfold ltake. rewrite take_take. f_equal. lia. }
  rewrite Hth. replace (amount - (amount - n1 - n2 - n3)) with (n1 + n2 + n3) by lia.
  destruct (decide (len dh <= len sh)) as [Hle|Hgt].
  - replace n3 with 0 by lia. rewrite copy_into_0, Z.add_0_r, Hlong by done.
    rewrite Hah. done.
  - replace n2 with 0 by lia. replace n1 with (len sh) in * by lia. rewrite copy_into_0, Z.add_0_r.
    rewrite (ltake_all (len sh) sh), ltake_app_ge, ldrop_app_le by lia. unfold copy_into.
    rewrite Hah, ldrop_ldrop, !app_assoc by lia. do 2 f_equal. f_equal. f_equal. lia.
Qed.

(** ** The buffer as a bounded queue *)

Section Queue.
Context {B T : Type} `{L : RingBufLaws B T}.
Notation KBuf := (KBufInner B).

Definition contents (k : KBuf) : list T := rb_occupied (buf k).
Definition kbuf_wf (k : KBuf) : Prop := rb_wf (buf k).

(** [k'] is a well-formed buffer of the same capacity that holds [l]. *)
Definition holds (k k' : KBuf) (l : list T) : Prop :=
  kbuf_wf k' /\ kbuf_capacity k' = kbuf_capacity k /\ contents k' = l.

Definition room (k : KBuf) : Z := kbuf_capacity k - len (contents k).

Lemma wake_reader_holds (k k0 : KBuf) w k' l : wake_reader k = (w, k') -> holds k0 k l -> holds k0 k' l.
Proof. unfold wake_reader. destruct (wake_one _). by intros [= _ <-]. Qed.
Lemma wake_writer_holds (k k0 : KBuf) w k' l : wake_writer k = (w, k') -> holds k0 k l -> holds k0 k' l.
Proof. unfold wake_writer. destruct (wake_one _). by intros [= _ <-]. Qed.

Lemma room_spec k : kbuf_wf k -> 0 <= room k < 2 ^ 64 /\ 0 < kbuf_capacity k.
Proof.
  intros Hwf. destruct (rb_bound _ Hwf) as [H1 H2]. unfold room, contents, kbuf_capacity.
  unfold rb_occupied_len in H1. pose proof (len_nonneg (rb_occupied (buf k))). lia.
Qed.

Lemma try_push_spec k x ok w k' : kbuf_wf k -> try_push k x = (ok, w, k') ->
  ok = (0 <? room k) /\ holds k k' (contents k ++ if ok then [x] else []).
Proof.
  intros Hwf. unfold try_push. destruct (rb_try_push (buf k) x) as [o b] eqn:E.
  destruct (rb_try_push_law _ _ _ _ Hwf E) as (Hw & Hc & Ho & Hb). destruct (room_spec k Hwf) as [Hr _].
  assert (o = (0 <? room k)) as Hok.
  { rewrite Ho. unfold rb_is_full, rb_vacant_len, rb_occupied_len, room, kbuf_capacity, contents in *.
    destruct (Z.ltb_spec 0 (rb_capacity (buf k) - len (rb_occupied (buf k)))), (Z.eqb_spec (rb_capacity (buf k) - len (rb_occupied (buf k))) 0); simpl; lia || done. }
  destruct o.
  - destruct (wake_reader _) as [w' k''] eqn:Ew. intros [= <- _ <-]. split; [done|].
    eapply wake_reader_holds; [exact Ew|]. done.
  - intros [= <- _ <-]. split; [done|]. rewrite app_nil_r. done.
Qed.

Lemma try_pop_spec k o w k' : kbuf_wf k -> try_pop k = (o, w, k') ->
  contents k = option_list o ++ contents k' /\ (o = None <-> contents k = []) /\ holds k k' (tail (contents k)).
Proof.
  intros Hwf. unfold try_pop. destruct (rb_try_pop (buf k)) as [r b] eqn:E.
  destruct (rb_try_pop_law _ _ _ Hwf E) as (Hw & Hc & Ho & Hb).
  assert (Hh : o = r -> holds k k' (tail (contents k)) -> contents k = option_list o ++ contents k' /\ (o = None <-> contents k = []) /\ holds k k' (tail (contents k))).
  { intros -> Hh. pose proof Hh as (_ & _ & Ht). rewrite Ht. subst r. unfold contents in *.
    destruct (rb_occupied (buf k)); simpl in *; (split; [done|]; split; [by split|done]). }
  destruct r.
  - destruct (wake_writer _) as [w' k''] eqn:Ew. intros [= <- _ <-]. apply Hh; [done|].
    eapply wake_writer_holds; [exact Ew|]. done.
  - intros [= <- _ <-]. by apply Hh.
Qed.

Lemma try_push_slice_spec k l n w k' : kbuf_wf k -> try_push_slice k l = (n, w, k') ->
  n = Z.min (len l) (room k) /\ holds k k' (contents k ++ ltake n l).
Proof.
  intros Hwf. unfold try_push_slice. destruct (rb_push_slice (buf k) l) as [size b] eqn:E.
  destruct (rb_push_slice_law _ _ _ _ Hwf E) as (Hw & Hc & Hn & Hb). destruct (0 <? size).
  - destruct (wake_reader _) as [w' k''] eqn:Ew. intros [= <- _ <-]. split; [done|].
    eapply wake_reader_holds; [exact Ew|]. done.
  - by intros [= <- _ <-].
Qed.

Lemma try_pop_slice_spec k n l w k' : kbuf_wf k -> 0 <= n -> try_pop_slice k n = (l, w, k') ->
  l = ltake n (contents k) /\ holds k k' (ldrop n (contents k)).
Proof.
  intros Hwf Hn0. unfold try_pop_slice. destruct (rb_pop_slice (buf k) n) as [l' b] eqn:E.
  destruct (rb_pop_slice_law _ _ _ _ Hwf Hn0 E) as (Hw & Hc & Hn & Hb). destruct (0 <? len l').
  - destruct (wake_writer _) as [w' k''] eqn:Ew. intros [= <- _ <-]. split; [done|].
    eapply wake_writer_holds; [exact Ew|]. done.
  - by intros [= <- _ <-].
Qed.

(** What the operations do to a buffer, with the items they took in and gave out. *)
Inductive KOp : Type := OpPush (x : T) | OpPop | OpPushSlice (l : list T) | OpPopSlice (n : Z).

Definition kop_ok (op : KOp) : Prop := match op with OpPopSlice n => 0 <= n | _ => True end.

Definition kop_run (k : KBuf) (op : KOp) : list T * list T * KBuf :=
  match op with
  | OpPush x => let '(ok, _, k') := try_push k x in (if ok then [x] else [], [], k')
  | OpPop => let '(o, _, k') := try_pop k in ([], option_list o, k')
  | OpPushSlice l => let '(n, _, k') := try_push_slice k l in (ltake n l, [], k')
  | OpPopSlice n => let '(l, _, k') := try_pop_slice k n in ([], l, k')
  end.

Fixpoint kops_run (k : KBuf) (ops : list KOp) : list T * list T * KBuf :=
  match ops with
  | [] => ([], [], k)
  | op :: ops =>
      let '(i, o, k) := kop_run k op in
      let '(i', o', k) := kops_run k ops in (i ++ i', o ++ o', k)
  end.

Lemma kop_run_spec k op i o k' : kbuf_wf k -> kop_ok op -> kop_run k op = (i, o, k') ->
  kbuf_wf k' /\ kbuf_capacity k' = kbuf_capacity k /\ contents k ++ i = o ++ contents k'.
Proof.
  intros Hwf Hok. destruct op as [x| |l|n]; simpl in *.
  - destruct (try_push k x) as [[ok w] k1] eqn:E. intros [= <- <- <-].
    destruct (try_push_spec _ _ _ _ _ Hwf E) as (_ & ? & ? & ->). done.
  - destruct (try_pop k) as [[r w] k1] eqn:E. intros [= <- <- <-].
    destruct (try_pop_spec _ _ _ _ Hwf E) as (Hs & _ & ? & ? & _). by rewrite app_nil_r.
  - destruct (try_push_slice k l) as [[n w] k1] eqn:E. intros [= <- <- <-].
    destruct (try_push_slice_spec _ _ _ _ _ Hwf E) as (_ & ? & ? & ->). done.
  - destruct (try_pop_slice k n) as [[l w] k1] eqn:E. intros [= <- <- <-].
    destruct (try_pop_slice_spec _ _ _ _ _ Hwf Hok E) as (-> & ? & ? & ->). split; [done|]. split; [done|].
    rewrite app_nil_r. symmetry. apply take_drop.
Qed.

End Queue.

(** ** A ring: the items from the read position on, then the free slots *)

Section RingInstance.
Context {T : Type}.

Record Ring := mkRing { r_cap : Z; r_pos : Z; r_occ : list T; r_vac : list T }.

Definition ring_advance_read (r : Ring) (n : Z) : Ring :=
  mkRing (r_cap r) ((r_pos r + n) mod r_cap r) (ldrop n (r_occ r)) (r_vac r ++ ltake n (r_occ r)).
Definition ring_advance_write (r : Ring) (n : Z) : Ring :=
  mkRing (r_cap r) (r_pos r) (r_occ r ++ ltake n (r_vac r)) (ldrop n (r_vac r)).

(** Both kinds of slices are cut at the end of the storage. *)
Definition ring_occupied_slices (r : Ring) : list T * list T :=
  (ltake (r_cap r - r_pos r) (r_occ r), ldrop (r_cap r - r_pos r) (r_occ r)).
Definition ring_vacant_slices (r : Ring) : list T * list T :=
  let q := r_pos r + len (r_occ r) in
  if q <? r_cap r then (ltake (r_cap r - q) (r_vac r), ldrop (r_cap r - q) (r_vac r)) else (r_vac r, []).

Definition ring_write (r : Ring) (l : list T) : Ring :=
  mkRing (r_cap r) (r_pos r) (r_occ r) (l ++ ldrop (len l) (r_vac r)).

#[export] Instance Ring_RingBuf : RingBuf Ring T := {|
  rb_occupied := r_occ;
  rb_capacity := r_cap;
  rb_try_push r x :=
    match r_vac r with [] => (false, r) | _ => (true, ring_advance_write (ring_write r [x]) 1) end;
  rb_try_pop r := (head (r_occ r), ring_advance_read r (Z.min 1 (len (r_occ r))));
  rb_push_slice r l :=
    let n := Z.min (len l) (len (r_vac r)) in (n, ring_advance_write (ring_write r (ltake n l)) n);
  rb_pop_slice r n :=
    let n := Z.min n (len (r_occ r)) in (ltake n (r_occ r), ring_advance_read r n);
  rb_occupied_slices := ring_occupied_slices;
  rb_vacant_slices := ring_vacant_slices;
  rb_write_vacant r d := mkRing (r_cap r) (r_pos r) (r_occ r) (d.1 ++ d.2);
  rb_advance_read := ring_advance_read;
  rb_advance_write := ring_advance_write
|}.

Definition ring_wf (r : Ring) : Prop :=
  0 < r_cap r < 2 ^ 64 /\ 0 <= r_pos r < r_cap r /\ len (r_occ r) + len (r_vac r) = r_cap r.

Lemma ring_vacant r : ring_wf r -> rb_vacant_len r = len (r_vac r).
Proof. intros (_ & _ & H). unfold rb_vacant_len, rb_occupied_len. simpl. lia. Qed.

Lemma ring_advance_read_wf r n : ring_wf r -> 0 <= n <= len (r_occ r) -> ring_wf (ring_advance_read r n).
Proof.
  intros (H1 & H2 & H3) Hn. split; [done|]. simpl. split; [apply Z.mod_pos_bound; lia|].
  rewrite len_ldrop, len_app, len_ltake by lia. lia.
Qed.
Lemma ring_advance_write_wf r n : ring_wf r -> 0 <= n <= len (r_vac r) -> ring_wf (ring_advance_write r n).
Proof.
  intros (H1 & H2 & H3) Hn. split; [done|]. simpl. split; [done|].
  rewrite len_ldrop, len_app, len_ltake by lia. lia.
Qed.
Lemma ring_write_wf r l : ring_wf r -> len l <= len (r_vac r) -> ring_wf (ring_write r l).
Proof.
  intros (H1 & H2 & H3) Hn. split; [done|]. simpl. split; [done|]. pose proof (len_nonneg l).
  rewrite len_app, len_ldrop by lia. lia.
Qed.
Lemma ring_push r l : ring_wf r -> len l <= len (r_vac r) ->
  ring_wf (ring_advance_write (ring_write r l) (len l)) /\
  r_occ (ring_advance_write (ring_write r l) (len l)) = r_occ r ++ l.
Proof.
  intros Hwf Hl. pose proof (len_nonneg l). split.
  - apply ring_advance_write_wf; [by apply ring_write_wf|]. simpl. rewrite len_app.
    pose proof (len_nonneg (ldrop (len l) (r_vac r))). lia.
  - simpl. f_equal. rewrite ltake_app_le, ltake_all by lia. done.
Qed.

#[export] Instance Ring_RingBufLaws : RingBufLaws Ring T.
Proof.
  refine {| rb_wf := ring_wf |}.
  - intros b (H1 & H2 & H3). simpl. unfold rb_occupied_len. simpl. pose proof (len_nonneg (r_vac b)). lia.
  - intros b x ok b' Hwf E. unfold rb_is_full. rewrite ring_vacant by done. simpl in *.
    pose proof (ring_push b [x] Hwf) as Hp. change (len [x]) with 1 in Hp.
    destruct (r_vac b) as [|y l] eqn:Ev; injection E as <- <-.
    + by rewrite app_nil_r || done.
    + destruct Hp as [Hw Ho]; [unfold len; simpl; lia|]. done.
  - intros b o b' Hwf [= <- <-]. pose proof (len_nonneg (r_occ b)).
    split; [by apply ring_advance_read_wf; [|lia]|]. split; [done|]. split; [done|].
    simpl. destruct (r_occ b) as [|y l]; [done|]. replace (Z.min 1 (len (y :: l))) with 1 by (unfold len; simpl; lia). done.
  - intros b l n b' Hwf [= <- <-]. rewrite ring_vacant by done. pose proof (len_nonneg l). pose proof (len_nonneg (r_vac b)).
    destruct (ring_push b (ltake (Z.min (len l) (len (r_vac b))) l) Hwf) as [Hw Ho]; [rewrite len_ltake; lia|].
    rewrite len_ltake in Hw, Ho by lia.
    replace (Z.min (Z.min (len l) (len (r_vac b))) (len l)) with (Z.min (len l) (len (r_vac b))) in * by lia. done.
  - intros b n l b' Hwf Hn [= <- <-]. pose proof (len_nonneg (r_occ b)).
    split; [by apply ring_advance_read_wf; [|lia]|]. split; [done|]. simpl.
    destruct (Z.le_ge_cases n (len (r_occ b))); [by rewrite Z.min_l|].
    rewrite Z.min_r, !ltake_all, !ldrop_all by lia. done.
  - intros b (H1 & H2 & H3). simpl. split; [apply take_drop|]. intros E.
    apply len_nil. apply (f_equal len) in E. rewrite len_ltake in E by lia. pose proof (len_nonneg (r_occ b)).
    change (len []) with 0 in E. lia.
  - intros b Hwf. rewrite ring_vacant by done. destruct Hwf as (H1 & H2 & H3).
    simpl. unfold ring_vacant_slices. pose proof (len_nonneg (r_vac b)). destruct (r_pos b + len (r_occ b) <? r_cap b) eqn:Eq; breflect; simpl.
    + rewrite len_ltake, len_ldrop by lia. split; [lia|]. intros E. apply (f_equal len) in E.
      rewrite len_ltake in E by lia. change (len []) with 0 in E. lia.
    + split; [change (len []) with 0; lia|]. intros ->. done.
  - intros b n Hwf Hn. split; [by apply ring_advance_read_wf|done].
  - intros b h t n Hwf Hh Ht Hn b'. rewrite ring_vacant in Hn by done.
    assert (Hl : len (h ++ t) = len (r_vac b)).
    { rewrite len_app, Hh, Ht. simpl. unfold ring_vacant_slices. case_match; simpl; [|unfold len; simpl; lia].
      rewrite <- len_app. unfold ltake, ldrop. by rewrite take_drop. }
    split; [|done]. apply ring_advance_write_wf; [|simpl; lia].
    destruct Hwf as (H1 & H2 & H3). split; [done|]. simpl. rewrite Hl. done.
Defined.
End RingInstance.
Arguments Ring : clear implicits.

Definition demo_ring : Ring Z := mkRing 4 3 [10; 11; 12] [0].
Definition demo_kbuf : KBufInner (Ring Z) := kbuf_new demo_ring.

Lemma demo_kbuf_wf : kbuf_wf demo_kbuf.
Proof. unfold kbuf_wf, rb_wf. simpl. unfold ring_wf, demo_ring, len. simpl. lia. Qed.


(** ** Splicing *)

Section Splice.
Context {B T : Type} `{L : RingBufLaws B T}.

Lemma splice_move self source count waker n ws self' source' : kbuf_wf self -> kbuf_wf source ->
  splice_poll self source count waker = (Some (n, ws), self', source') -> count < 2 ^ 64 ->
  0 < n <= count /\ n <= room self /\ n <= len (contents source) /\
  holds self self' (contents self ++ ltake n (contents source)) /\
  holds source source' (ldrop n (contents source)).
Proof.
  intros Hw1 Hw2 E Hc. unfold splice_poll in E. destruct (room_spec self Hw1) as [Hr _]. pose proof (room_spec source Hw2) as [Hr2 _].
  destruct (0 <? _) eqn:Ep in E; [|by repeat case_match]. breflect.
  change (rb_vacant_len (buf self)) with (room self) in *. change (rb_occupied_len (buf source)) with (len (contents source)) in *.
  destruct (copy_slices _ _ _) as [copied d] eqn:Ec.
  destruct (rb_occupied_slices_law _ Hw2) as [Ho Hoe]. destruct (rb_vacant_slices_law _ Hw1) as [Hv Hve].
  change (rb_vacant_len (buf self)) with (room self) in *.
  destruct (rb_occupied_slices (buf source)) as [sh st], (rb_vacant_slices (buf self)) as [dh dt] eqn:Evs; simpl in *.
  pose proof (len_app sh st) as Hlen. rewrite Ho in Hlen. fold (contents source) in Hlen.
  apply copy_slices_spec in Ec as (Hn & Hl1 & Hl2 & Hd); [|lia..].
  assert (Hsh : 0 < len sh).
  { destruct sh; [|unfold len; simpl; lia]. unfold contents in *. rewrite (Hoe eq_refl) in *. unfold len in *; simpl in *; lia. }
  destruct (wake_reader _) as [w1 k1] eqn:E1. destruct (wake_writer _) as [w2 k2] eqn:E2. injection E as <- _ <- <-.
  split; [lia|]. split; [lia|]. split; [lia|]. split.
  - eapply wake_reader_holds; [exact E1|]. destruct (rb_write_law (buf self) d.1 d.2 copied Hw1) as (Ha & Hb & Hcn).
    + by rewrite Evs.
    + by rewrite Evs.
    + unfold rb_vacant_len, rb_occupied_len. fold (contents self). fold (kbuf_capacity self). fold (room self). lia.
    + rewrite <- surjective_pairing in *. split; [done|]. split; [done|]. unfold contents at 1. simpl. rewrite Hcn, Hd.
      f_equal. rewrite ltake_app_le, Ho by (rewrite len_ltake, Ho; fold (contents source); lia).
      unfold ltake. rewrite take_take. f_equal. lia.
  - eapply wake_writer_holds; [exact E2|].
    destruct (rb_advance_read_law (buf source) copied Hw2) as (Ha & Hb & Hcn); [fold (contents source); unfold rb_occupied_len; fold (contents source); lia|].
    done.
Qed.

(** [waker] has an entry in the set. *)
Definition registered (w : WakerSet unit) (waker : Z) : Prop := exists id, bt_get id (waiters w) = Some (waker, tt).

Lemma register_registered w waker : registered (register w waker).2 waker.
Proof.
  exists (next_id w). unfold register, register_with_data, ws_insert. simpl.
  induction (waiters w) as [|[k v] l IH]; simpl; [by rewrite Z.eqb_refl|].
  destruct (next_id w <? k); simpl; [by rewrite Z.eqb_refl|].
  destruct (next_id w =? k) eqn:E; simpl; [by rewrite Z.eqb_refl|]. by rewrite E.
Qed.

(** One step of a splice between two buffers moves a prefix: when the source has items and the
    destination has room it takes at least one item and at most [count] from the front of
    the source and appends exactly those to the destination; otherwise both keep their
    contents, and the task is registered for readers of an empty source and for writers of
    a full destination. *)
Theorem splice_correct self source count waker r self' source' :
  kbuf_wf self -> kbuf_wf source -> 0 < count < 2 ^ 64 ->
  splice_poll self source count waker = (r, self', source') ->
  match r with
  | Some (n, _) =>
      0 < n <= count /\ n <= room self /\ n <= len (contents source) /\
      holds self self' (contents self ++ ltake n (contents source)) /\
      holds source source' (ldrop n (contents source))
  | None =>
      (contents source = [] \/ room self = 0) /\
      holds self self' (contents self) /\ holds source source' (contents source) /\
      (contents source = [] -> registered (read_waiters source') waker) /\
      (room self = 0 -> registered (write_waiters self') waker)
  end.
Proof.
  intros Hw1 Hw2 Hc E. destruct r as [[n ws]|]; [eapply splice_move; eauto; lia|].
  unfold splice_poll in E. destruct (0 <? _) eqn:Ep in E; [by repeat case_match|]. breflect.
  injection E as <- <-. destruct (room_spec self Hw1) as [Hr _]. pose proof (len_nonneg (contents source)).
  change (rb_vacant_len (buf self)) with (room self) in *.
  change (rb_occupied_len (buf source)) with (len (contents source)) in *. unfold rb_is_empty, rb_is_full.
  change (rb_vacant_len (buf self)) with (room self) in *.
  change (rb_occupied_len (buf source)) with (len (contents source)) in *.
  split; [|split; [by case_match|split; [by case_match|split]]].
  - destruct (decide (room self = 0)); [by right|]. left. apply len_nil. lia.
  - intros ->. simpl. apply register_registered.
  - intros ->. simpl. apply register_registered.
Qed.
End Splice.

Definition demo_dst : KBufInner (Ring Z) := kbuf_new (mkRing 4 0 [1] [0; 0; 0]).

Lemma splice_correct_witness :
  (splice_poll demo_dst demo_kbuf 3 9).1.1 = Some (3, []) /\
  contents (splice_poll demo_dst demo_kbuf 3 9).1.2 = [1; 10; 11; 12].
Proof.
  split; [reflexivity|].
  assert (Hw : kbuf_wf demo_dst) by (unfold kbuf_wf, rb_wf; simpl; unfold ring_wf, len; simpl; lia).
  pose proof (splice_correct demo_dst demo_kbuf 3 9 (Some (3, [])) (splice_poll demo_dst demo_kbuf 3 9).1.2
    (splice_poll demo_dst demo_kbuf 3 9).2 Hw demo_kbuf_wf ltac:(lia) eq_refl) as (_ & _ & _ & (_ & _ & ->) & _).
  reflexivity.
Defined.

(** [splice_from] registers on every poll and never takes its entries back.  Task 1 waits
    for an empty source twice (a second poll is allowed at any time), then reader 2 waits;
    the first item wakes task 1, which takes it; the second item wakes task 1 again, and
    reader 2 sleeps although the buffer has an item. *)
Lemma splice_stale_waker :
  let dst := kbuf_new (mkRing 4 0 [] [0; 0; 0; 0]) in
  let '(r1, dst, src) := splice_poll dst (kbuf_new (mkRing 4 0 [] [0; 0; 0; 0])) 1 1 in
  let '(r2, dst, src) := splice_poll dst src 1 1 in
  let '(r3, _, src) := pop_slice_poll 1 None src 2 in
  let '(_, w1, src) := try_push src 7 in
  let '(r4, dst, src) := splice_poll dst src 1 1 in
  let '(_, w2, src) := try_push src 8 in
  r1 = None /\ r2 = None /\ r3 = None /\ w1 = Some 1 /\ r4 = Some (1, []) /\ w2 = Some 1 /\ contents src = [8].
Proof. by vm_compute. Qed.

(** A blocking read of no items never completes: it sleeps although items are there. *)
Lemma pop_slice_empty_sleeps : (pop_slice_poll 0 None demo_kbuf 1).1 = (None, Some 0).
Proof. reflexivity. Qed.
