(* ===== verification/Smalloc.v ===== *)
(** * The boot-time physical allocator

    Models libkernel/src/memory/allocators/smalloc.rs.  A [RegionList] is the
    list of its first [count] entries with its capacity and the address of its
    buffer; the buffer's contents are the list itself.  [Smalloc] tracks the
    memory regions and the reservations.  [sizeof_region] and [alignof_region]
    are the layout of [PhysMemoryRegion] (two [usize] fields). *)
From S2P Require Import Prelude Error Address Region.
Local Open Scope Z_scope.

Record RegionList := mkRegionList {
  rl_regions : list MemoryRegion;
  rl_max : Z;
  rl_ptr : Z
}.

Definition rl_count (l : RegionList) : Z := Z.of_nat (length (rl_regions l)).
Notation rl_is_empty l := (rl_count l =? 0) (only parsing).
Definition rl_new (max region_ptr : Z) : RegionList := mkRegionList [] max region_ptr.
Definition set_regions (l : RegionList) (rs : list MemoryRegion) : RegionList :=
  mkRegionList rs (rl_max l) (rl_ptr l).

Notation NULL_PAGE_RGN := (mkRegion null PAGE_SIZE).

(** [Index::index] *)
Definition rl_index (l : RegionList) (i : nat) : outcome MemoryRegion :=
  unwrap (rl_regions l !! i).

Definition remove_at (l : RegionList) (i : nat) : RegionList :=
  if (length (rl_regions l) <=? i)%nat then l
  else set_regions l (delete i (rl_regions l)).

(** The [while] loop of [insert_region]: merge the new region with every entry
    it touches, restarting the scan after each merge. *)
Fixpoint merge_scan (fuel : nat) (i : nat) (rs : list MemoryRegion) (new_region : MemoryRegion)
    : outcome (list MemoryRegion * MemoryRegion) :=
  match fuel with
  | O => OutOfFuel
  | S fuel' =>
      match rs !! i with
      | None => Return (rs, new_region)
      | Some existing =>
          match merge existing new_region with
          | Some merged => merge_scan fuel' 0 (delete i rs) merged
          | None => merge_scan fuel' (S i) rs new_region
          end
      end
  end.

Definition scan_fuel (rs : list MemoryRegion) : nat :=
  (S (length rs) * S (length rs))%nat.

Definition insert_region (l : RegionList) (new_region : MemoryRegion) : outcome RegionList :=
  if rl_count l =? rl_max l then Panic
  else
    let! (rs, nr) := merge_scan (scan_fuel (rl_regions l)) 0 (rl_regions l) new_region in
    let insert_idx :=
      default (length rs)
        (position (fun x => start_address x >? start_address nr) rs) in
    Return (set_regions l (take insert_idx rs ++ nr :: drop insert_idx rs)).

Definition requires_reallocation (l : RegionList) : bool :=
  rl_count l >=? usub (rl_max l) 1.

Record Smalloc := mkSmalloc {
  memory : RegionList;
  res : RegionList;
  permit_region_realloc : bool
}.

Inductive RegionListType : Type := Mem | Res.

Definition smalloc_new (mem reserved : RegionList) : Smalloc := mkSmalloc mem reserved false.
Definition permit_region_list_reallocs (s : Smalloc) : Smalloc :=
  mkSmalloc (memory s) (res s) true.
Definition set_res (s : Smalloc) (l : RegionList) : Smalloc :=
  mkSmalloc (memory s) l (permit_region_realloc s).
Definition set_memory (s : Smalloc) (l : RegionList) : Smalloc :=
  mkSmalloc l (res s) (permit_region_realloc s).

(** [res_idx] is kept as the suffix of the reservations it points at. *)
Fixpoint skip_reserved (rs : list MemoryRegion) (cand_start : Z) : list MemoryRegion :=
  match rs with
  | [] => []
  | r :: rs' =>
      if end_address r <=? cand_start then skip_reserved rs' cand_start else rs
  end.

(** The [while mem_region.contains(candidate)] loop. *)
Fixpoint fit_region (fuel : nat) (mem_region : MemoryRegion) (aln : Z)
    (candidate : MemoryRegion) (rs : list MemoryRegion)
    : outcome (option Z * list MemoryRegion) :=
  match fuel with
  | O => OutOfFuel
  | S fuel' =>
      if contains mem_region candidate then
        let rs' := skip_reserved rs (start_address candidate) in
        match rs' with
        | res_region :: _ =>
            if overlaps candidate res_region then
              let! a := align_up (end_address res_region) aln in
              fit_region fuel' mem_region aln (with_start_address candidate a) rs'
            else Return (Some (start_address candidate), rs')
        | [] => Return (Some (start_address candidate), rs')
        end
      else Return (None, rs)
  end.

Fixpoint fit_regions (mems rs : list MemoryRegion) (sz aln : Z) : outcome (option Z) :=
  match mems with
  | [] => Return None
  | m :: mems' =>
      let! a := align_up (start_address m) aln in
      let! (found, rs') := fit_region (S (length rs)) m aln (mkRegion a sz) rs in
      match found with
      | Some addr => Return (Some addr)
      | None => fit_regions mems' rs' sz aln
      end
  end.

Definition find_allocation_location (s : Smalloc) (sz aln : Z) : outcome (option Z) :=
  fit_regions (rl_regions (memory s)) (rl_regions (res s)) sz aln.

Definition sizeof_region : Z := 16.
Definition alignof_region : Z := 8.

(** Insert into the reservation list of the allocator. *)
Definition reserve (s : Smalloc) (r : MemoryRegion) : outcome Smalloc :=
  let! l := insert_region (res s) r in Return (set_res s l).

Section Realloc.
Context {T : AddressTranslator}.

(** [free] and [grow_region_list] call each other; [fuel] bounds the nesting.
    The index found by [free] is used after the list may have been rebuilt, as
    in the source; a [count - index - 1] that would underflow is a panic. *)
Fixpoint free (fuel : nat) (s : Smalloc) (addr sz : Z) : outcome (result unit * Smalloc) :=
  match fuel with
  | O => OutOfFuel
  | S fuel' =>
      let region_to_remove := mkRegion addr sz in
      match position (fun r => contains r region_to_remove) (rl_regions (res s)) with
      | Some index =>
          let! old := rl_index (res s) index in
          let? (_u, s) :=
            if requires_reallocation (res s) then grow_region_list fuel' s Res
            else Return (Ok tt, s) in
          if (length (rl_regions (res s)) <=? index)%nat then Panic
          else
            let s := set_res s (set_regions (res s) (delete index (rl_regions (res s)))) in
            let start_val := start_address old in
            let end_val := end_address old in
            let remove_start := start_address region_to_remove in
            let remove_end := end_address region_to_remove in
            let! s :=
              if remove_start >? start_val then
                reserve s (mkRegion start_val (usub remove_start start_val))
              else Return s in
            let! s :=
              if remove_end <? end_val then
                reserve s (mkRegion remove_end (usub end_val remove_end))
              else Return s in
            Return (Ok tt, s)
      | None => Return (Err NoMemRegion, s)
      end
  end
with grow_region_list (fuel : nat) (s : Smalloc) (list_type : RegionListType)
    : outcome (result unit * Smalloc) :=
  match fuel with
  | O => OutOfFuel
  | S fuel' =>
      if negb (permit_region_realloc s) then Return (Err NoMemory, s)
      else
        let l := match list_type with Mem => memory s | Res => res s end in
        let old_max := rl_max l in
        let new_max := umul old_max 2 in
        let new_size := umul new_max sizeof_region in
        let! found := find_allocation_location s new_size alignof_region in
        match found with
        | Some addr =>
            let new_ptr := phys_to_virt addr in
            let old_size := umul old_max sizeof_region in
            let old_ptr := rl_ptr l in
            let l := mkRegionList (rl_regions l) new_max new_ptr in
            let s := match list_type with Mem => set_memory s l | Res => set_res s l end in
            let! (_, s) := free fuel' s old_ptr old_size in
            let! s := reserve s (mkRegion new_ptr new_size) in
            Return (Ok tt, s)
        | None => Return (Err NoMemory, s)
        end
  end.

(** Room for the nested calls of [free] and [grow_region_list]: growing the
    memory list frees its old buffer, which may grow the reservation list, which
    frees that list's old buffer. *)
Definition realloc_fuel : nat := 8.

Definition maybe_grow (s : Smalloc) (l : RegionList) (ty : RegionListType)
    : outcome (result unit * Smalloc) :=
  if requires_reallocation l then grow_region_list realloc_fuel s ty
  else Return (Ok tt, s).

Fixpoint alloc_rec (fuel : nat) (s : Smalloc) (sz aln : Z) : outcome (result Z * Smalloc) :=
  match fuel with
  | O => OutOfFuel
  | S fuel' =>
      let? (_u, s) := maybe_grow s (res s) Res in
      let! found := find_allocation_location s sz aln in
      match found with
      | None => Return (Err NoMemory, s)
      | Some address =>
          if is_null address then
            let! s := reserve s NULL_PAGE_RGN in
            alloc_rec fuel' s sz aln
          else
            let! s := reserve s (mkRegion address sz) in
            Return (Ok address, s)
      end
  end.

(** The recursion of the source happens at most once for a non-empty request:
    the zero page is reserved by then. *)
Definition alloc (s : Smalloc) (sz aln : Z) : outcome (result Z * Smalloc) :=
  alloc_rec 3 s sz aln.

Definition free_top (s : Smalloc) (addr sz : Z) : outcome (result unit * Smalloc) :=
  free realloc_fuel s addr sz.

Definition add_reservation (s : Smalloc) (region : MemoryRegion) : outcome (result unit * Smalloc) :=
  let? (_u, s) := maybe_grow s (res s) Res in
  let! s := reserve s region in
  Return (Ok tt, s).

Definition base_ram_base_address (s : Smalloc) : outcome (option Z) :=
  if rl_is_empty (memory s) then Return None
  else let! m := rl_index (memory s) 0 in Return (Some (start_address m)).

Definition add_memory (s : Smalloc) (region : MemoryRegion) : outcome (result unit * Smalloc) :=
  let? (_u, s) := maybe_grow s (memory s) Mem in
  let! l := insert_region (memory s) region in
  Return (Ok tt, set_memory s l).

Definition insert_opt (l : RegionList) (o : option MemoryRegion) : outcome RegionList :=
  match o with Some r => insert_region l r | None => Return l end.

Definition claim_region (s : Smalloc) (region : MemoryRegion) : outcome (result unit * Smalloc) :=
  if negb (existsb (fun m => contains m region) (rl_regions (memory s)))
  then Return (Err InvalidValue, s)
  else
    let? (_u, s) := maybe_grow s (memory s) Mem in
    let! containing_idx :=
      unwrap (position (fun m => contains m region) (rl_regions (memory s))) in
    let! containing := rl_index (memory s) containing_idx in
    let l := remove_at (memory s) containing_idx in
    let! (lft, rgt) := punch_hole containing region in
    let! l := insert_opt l lft in
    let! l := insert_opt l rgt in
    Return (Ok tt, set_memory s l).

Definition alloc_page (s : Smalloc) : outcome (result Z * Smalloc) :=
  let? (p, s) := alloc s PAGE_SIZE PAGE_SIZE in
  Return (Ok (Z.shiftr p PAGE_SHIFT), s).
End Realloc.

(** ** The iterator over free memory *)
Record FreeRegionsIter := mkFreeIter {
  mem_iter : list MemoryRegion;
  res_iter : list MemoryRegion;
  current_fragment : option MemoryRegion
}.

Fixpoint advance_res (rs : list MemoryRegion) (fragment : MemoryRegion) : list MemoryRegion :=
  match rs with
  | r :: rs' => if is_before r fragment then advance_res rs' fragment else rs
  | [] => []
  end.

Definition iter_free (s : Smalloc) : FreeRegionsIter :=
  mkFreeIter (rl_regions (memory s)) (rl_regions (res s)) None.

(** [Iterator::next], its [loop] bounded by [fuel]. *)
Fixpoint free_next (fuel : nat) (it : FreeRegionsIter)
    : outcome (option MemoryRegion * FreeRegionsIter) :=
  match fuel with
  | O => OutOfFuel
  | S fuel' =>
      let next_fragment :=
        match current_fragment it with
        | Some frag => Some (frag, mem_iter it)
        | None => match mem_iter it with
                  | m :: ms => Some (m, ms)
                  | [] => None
                  end
        end in
      match next_fragment with
      | None => Return (None, it)
      | Some (fragment, ms) =>
          let rs := advance_res (res_iter it) fragment in
          match rs with
          | [] => Return (Some fragment, mkFreeIter ms rs None)
          | res_region :: rs' =>
              if is_after res_region fragment then
                Return (Some fragment, mkFreeIter ms rs None)
              else if start_address fragment <? start_address res_region then
                let! free_prefix :=
                  from_start_end_address (start_address fragment) (start_address res_region) in
                let! cur :=
                  if end_address res_region <? end_address fragment then
                    let! f := from_start_end_address (end_address res_region)
                                (end_address fragment) in
                    Return (Some f)
                  else Return None in
                Return (Some free_prefix, mkFreeIter ms rs' cur)
              else
                let new_start := end_address res_region in
                if new_start >=? end_address fragment then
                  free_next fuel' (mkFreeIter ms rs' None)
                else
                  let! f := from_start_end_address new_start (end_address fragment) in
                  free_next fuel' (mkFreeIter ms rs' (Some f))
          end
      end
  end.

(** Draining the iterator. *)
Fixpoint free_collect (fuel : nat) (it : FreeRegionsIter) : outcome (list MemoryRegion) :=
  match fuel with
  | O => OutOfFuel
  | S fuel' =>
      let! (x, it) := free_next (S (length (mem_iter it) + length (res_iter it))) it in
      match x with
      | None => Return []
      | Some r => let! l := free_collect fuel' it in Return (r :: l)
      end
  end.

(** * Correctness *)

(** Entries are ordered and pairwise neither overlapping nor adjacent. *)
Definition gapped (r1 r2 : MemoryRegion) : Prop :=
  start_address r1 + rsize r1 < start_address r2.

Definition regions_wf (rs : list MemoryRegion) : Prop :=
  Forall region_ok rs /\ StronglySorted gapped rs.

Definition nonempty (rs : list MemoryRegion) : Prop := Forall (fun r => 0 < rsize r) rs.

(** The set of addresses a list of regions stands for. *)
Definition covered (rs : list MemoryRegion) (a : Z) : Prop :=
  exists r, r ∈ rs /\ a ∈ r.

Lemma covered_app rs1 rs2 a : covered (rs1 ++ rs2) a <-> covered rs1 a \/ covered rs2 a.
Proof. unfold covered. set_solver. Qed.

Lemma covered_cons r rs a : covered (r :: rs) a <-> a ∈ r \/ covered rs a.
Proof.
  unfold covered. split.
  - intros (x & [->|Hx]%elem_of_cons & Ha); eauto.
  - intros [Ha|(x & Hx & Ha)]; eexists; (split; [|exact Ha]); set_solver.
Qed.

Lemma covered_nil a : ~ covered [] a.
Proof. intros (r & Hr & _). by apply not_elem_of_nil in Hr. Qed.

Lemma covered_delete rs i r a : rs !! i = Some r ->
  covered rs a <-> a ∈ r \/ covered (delete i rs) a.
Proof.
  intros Hi. rewrite delete_take_drop.
  rewrite <- (take_drop_middle rs i r Hi) at 1.
  rewrite !covered_app, covered_cons. tauto.
Qed.

Lemma regions_wf_ok rs r : regions_wf rs -> r ∈ rs -> region_ok r.
Proof. intros [H _] Hr. rewrite list.Forall_forall in H. auto. Qed.

Lemma regions_wf_delete i rs : regions_wf rs -> regions_wf (delete i rs).
Proof.
  intros [H1 H2]. split; [by apply Forall_delete|by apply SSorted_delete].
Qed.

Lemma merge_scan_spec fuel : forall i rs nr,
  regions_wf rs -> region_ok nr ->
  (forall j r, (j < i)%nat -> rs !! j = Some r -> merge r nr = None) ->
  (length rs - i + 1 + length rs * (length rs + 1) <= fuel)%nat ->
  exists rs' nr', merge_scan fuel i rs nr = Return (rs', nr') /\
    regions_wf rs' /\ region_ok nr' /\
    (forall r, r ∈ rs' -> merge r nr' = None) /\
    (length rs' <= length rs)%nat /\
    (forall r, r ∈ rs' -> r ∈ rs) /\ rsize nr <= rsize nr' /\
    (forall a, covered rs' a \/ a ∈ nr' <-> covered rs a \/ a ∈ nr).
Proof.
  induction fuel as [|fuel IH]; intros i rs nr Hwf Hnr Hdone Hfuel; [lia|]. simpl.
  destruct (rs !! i) as [ex|] eqn:Ei.
  - pose proof (lookup_lt_Some _ _ _ Ei) as Hi.
    assert (Hex : region_ok ex) by (eapply regions_wf_ok; [done|]; eapply list_elem_of_lookup_2, Ei).
    destruct (merge ex nr) as [m|] eqn:Em.
    + pose proof (merge_Some _ _ _ Hex Hnr Em) as (Hm & Hm1 & Hm2 & _).
      destruct (IH 0%nat (delete i rs) m)
        as (rs' & nr' & E & Hwf' & Hnr' & Hsep & Hlen & Hsub & Hsz & Hcov).
      * by apply regions_wf_delete.
      * done.
      * lia.
      * rewrite length_delete by eauto. nia.
      * exists rs', nr'. rewrite length_delete in Hlen by eauto.
        do 4 (split; [done|]). split; [lia|].
        split; [intros r Hr; eapply list_elem_of_delete_inv, Hsub, Hr|].
        split; [rsolve|]. intros a. rewrite Hcov.
        rewrite (merge_elem_of _ _ _ _ Hex Hnr Em), (covered_delete rs i ex a Ei). tauto.
    + apply IH; [done|done| |lia]. intros j r Hj Hr.
      destruct (decide (j = i)) as [->|]; [by simplify_eq|]. apply (Hdone j); [lia|done].
  - exists rs, nr. apply lookup_ge_None in Ei.
    do 3 (split; [done|]). split; [|split; [lia|split; [done|split; [lia|done]]]].
    intros r (j & Hj)%list_elem_of_lookup. apply (Hdone j); [|done].
    apply lookup_lt_Some in Hj. lia.
Qed.

(** Where a region that touches no entry goes. *)
Lemma insert_position_wf rs nr :
  regions_wf rs -> region_ok nr -> (forall r, r ∈ rs -> merge r nr = None) ->
  let idx := default (length rs) (position (fun x => start_address x >? start_address nr) rs) in
  regions_wf (take idx rs ++ nr :: drop idx rs).
Proof.
  intros Hwf Hnr Hsep.
  assert (Hs : forall r, r ∈ rs -> gapped r nr \/ gapped nr r).
  { intros r Hr. apply merge_None; [by eapply regions_wf_ok|done|by apply Hsep]. }
  assert (exists l1 l2, rs = l1 ++ l2 /\
    length l1 = default (length rs) (position (fun x => start_address x >? start_address nr) rs) /\
    (forall r, r ∈ l1 -> start_address r <= start_address nr) /\
    (forall r, r ∈ l2 -> start_address nr < start_address r))
    as (l1 & l2 & E & Hidx & H1 & H2).
  { destruct (position _ rs) as [i|] eqn:Ep; simpl.
    - apply position_Some in Ep as (l1 & x & l2 & -> & Hlen & Hx & Hf).
      rewrite list.Forall_forall in Hf. breflect. exists l1, (x :: l2).
      repeat split; [done| |].
      + intros r Hr. specialize (Hf r Hr). breflect. lia.
      + destruct Hwf as [Hok Hsort]. rewrite list.Forall_forall in Hok.
        apply SSorted_app_iff in Hsort as (_ & [_ Hg]%SSorted_cons_iff & _).
        intros r [->|Hr]%elem_of_cons; [lia|]. specialize (Hg r Hr). unfold gapped in Hg.
        assert (region_ok x) by (apply Hok; set_solver). rsolve.
    - apply position_None in Ep. rewrite list.Forall_forall in Ep.
      exists rs, []. rewrite app_nil_r. repeat split; [|set_solver].
      intros r Hr. specialize (Ep r Hr). breflect. lia. }
  cbv zeta. rewrite <- Hidx. rewrite E at 1 2.
  rewrite take_app_length, drop_app_length.
  destruct Hwf as [Hok Hsort]. rewrite E in Hok, Hsort.
  apply Forall_app in Hok as [Hok1 Hok2]. rewrite !list.Forall_forall in *.
  apply SSorted_app_iff in Hsort as (Hs1 & Hs2 & Hs12).
  assert (Hb : forall r, r ∈ l1 -> gapped r nr).
  { intros r Hr. specialize (H1 r Hr). specialize (Hok1 r Hr).
    destruct (Hs r) as [|Hg]; [set_solver|done|]. unfold gapped in Hg. rsolve. }
  assert (Ha : forall r, r ∈ l2 -> gapped nr r).
  { intros r Hr. specialize (H2 r Hr). specialize (Hok2 r Hr).
    destruct (Hs r) as [Hg|]; [set_solver| |done]. unfold gapped in Hg. rsolve. }
  split.
  - apply Forall_app. split; [by apply list.Forall_forall|].
    constructor; [done|by apply list.Forall_forall].
  - apply SSorted_app_iff. split; [done|]. split.
    + by apply SSorted_cons_iff.
    + intros x y Hx [->|Hy]%elem_of_cons; auto.
Qed.

(** [insert_region] refines set union: the result is well-formed and stands for
    the old addresses together with the new region. *)
Lemma insert_region_refines l nr :
  regions_wf (rl_regions l) -> region_ok nr -> rl_count l < rl_max l ->
  exists l', insert_region l nr = Return l' /\
    regions_wf (rl_regions l') /\ rl_max l' = rl_max l /\ rl_ptr l' = rl_ptr l /\
    rl_count l' <= rl_count l + 1 /\
    (nonempty (rl_regions l) -> 0 < rsize nr -> nonempty (rl_regions l')) /\
    (forall a, covered (rl_regions l') a <-> covered (rl_regions l) a \/ a ∈ nr).
Proof.
  intros Hwf Hnr Hcap. unfold insert_region.
  rewrite (proj2 (Z.eqb_neq _ _)) by lia.
  destruct (merge_scan_spec (scan_fuel (rl_regions l)) 0 (rl_regions l) nr)
    as (rs' & nr' & E & Hwf' & Hnr' & Hsep & Hlen & Hsub & Hsz & Hcov); [done|done|lia|unfold scan_fuel; lia|].
  rewrite E. ostep.
  pose proof (insert_position_wf rs' nr' Hwf' Hnr' Hsep) as Hins. cbv zeta in Hins.
  set (idx := default _ _) in *.
  eexists. split; [reflexivity|]. simpl. split; [done|].
  do 2 (split; [done|]). split; [|split; [|intros a; split]].
  - unfold rl_count. simpl. rewrite length_app. simpl. rewrite length_take, length_drop. lia.
  - unfold nonempty. rewrite !list.Forall_forall. intros Hne Hn r.
    rewrite elem_of_app, elem_of_cons.
    intros [Hr|[->|Hr]]; [|lia|]; apply Hne, Hsub;
      rewrite <- (take_drop idx rs'), elem_of_app; auto.
  - rewrite covered_app, covered_cons. intros H. apply Hcov.
    rewrite <- (take_drop idx rs'), covered_app. tauto.
  - intros H. apply Hcov in H. rewrite covered_app, covered_cons.
    rewrite <- (take_drop idx rs'), covered_app in H. tauto.
Qed.

(** ** Placement *)

(** [a] is a usable location for [sz] bytes in [m]: aligned, inside the memory
    region and clear of every reservation of [rs]. *)
Definition placement (m : MemoryRegion) (rs : list MemoryRegion) (sz aln a : Z) : Prop :=
  a mod aln = 0 /\ start_address m <= a /\ a + sz <= start_address m + rsize m /\
  (forall r, r ∈ rs -> a + sz <= start_address r \/ start_address r + rsize r <= a).

(** Every region ends at or below [B]. *)
Definition below (B : Z) (rs : list MemoryRegion) : Prop :=
  Forall (fun r => start_address r + rsize r <= B) rs.

Lemma skip_reserved_spec rs c : Forall region_ok rs ->
  exists l1, rs = l1 ++ skip_reserved rs c /\
    (forall r, r ∈ l1 -> start_address r + rsize r <= c) /\
    (forall r t, skip_reserved rs c = r :: t -> c < start_address r + rsize r).
Proof.
  induction rs as [|r rs IH]; intros Hok; simpl.
  - exists []. repeat split; [set_solver|done].
  - inversion Hok as [|? ? Hr Hrs]; subst. rewrite end_address_eq by done.
    destruct (Z.leb_spec (start_address r + rsize r) c).
    + destruct (IH Hrs) as (l1 & E & H1 & H2). exists (r :: l1). rewrite E at 1.
      repeat split; [|done]. intros x [->|Hx]%elem_of_cons; auto.
    + exists []. repeat split; [set_solver|]. intros ? ? [= <- <-]. done.
Qed.

Lemma skip_reserved_length rs c : (length (skip_reserved rs c) <= length rs)%nat.
Proof. induction rs; simpl; [lia|]. bcase; simpl; lia. Qed.

Lemma regions_wf_app_r l1 l2 : regions_wf (l1 ++ l2) -> regions_wf l2.
Proof.
  intros [H1 H2]. apply Forall_app in H1 as [_ H1]. apply SSorted_app_iff in H2 as (_ & H2 & _).
  by split.
Qed.

Section Placement.
Variables (sz aln B : Z).
Hypothesis Hsz : 0 < sz.
Hypothesis Haln : is_power_of_two aln = true.
Hypothesis HB : 0 <= B /\ B + aln + sz < 2 ^ 64.

Let aln_pos : 0 < aln.
Proof. apply is_power_of_two_spec in Haln as (k & Hk & ->). by apply pow2_pos. Qed.

Lemma align_up_below a : 0 <= a <= B -> align_up a aln = Return (round_up a aln).
Proof. intros. apply align_up_aligned; [lia|done|unfold usize_ok; lia|lia]. Qed.

(** What a search over the reservations [full] reports: the lowest usable
    location of [m], or that there is none. *)
Definition search_result (m : MemoryRegion) (full : list MemoryRegion) (o : option Z) : Prop :=
  match o with
  | Some a => placement m full sz aln a /\ forall a', placement m full sz aln a' -> a <= a'
  | None => forall a, ~ placement m full sz aln a
  end.

Section FitRegion.
Variables (m : MemoryRegion) (full : list MemoryRegion).
Hypothesis Hm : region_ok m /\ 0 < rsize m /\ start_address m + rsize m <= B.
Hypothesis Hfull : regions_wf full /\ nonempty full /\ below B full.

(** [passed] are the reservations the index has moved beyond. *)
Definition passed_ok (passed : list MemoryRegion) (c : Z) : Prop :=
  forall r, r ∈ passed ->
    start_address r + rsize r <= c /\ start_address r + rsize r <= start_address m + rsize m.

Lemma full_entry passed rs r : full = passed ++ rs -> r ∈ rs ->
  region_ok r /\ 0 < rsize r /\ start_address r + rsize r <= B.
Proof.
  intros -> Hr. destruct Hfull as ([Hok _] & Hne & Hb).
  unfold nonempty, below in *. rewrite list.Forall_forall in *.
  assert (r ∈ passed ++ rs) by (apply elem_of_app; auto). auto.
Qed.

(** A placement is clear of the first reservation that ends after [c] either
    from below or from above; from [c] on, only the latter is possible when that
    reservation overlaps the candidate at [c]. *)
Lemma placement_past passed r t c a :
  full = passed ++ r :: t -> start_address r < c + sz -> 
  placement m full sz aln a -> c <= a ->
  round_up (start_address r + rsize r) aln <= a.
Proof.
  intros E Hov (Ha1 & _ & _ & Ha4) Hca. apply round_up_least; [done| |done].
  destruct (Ha4 r); [rewrite E; set_solver|lia|done].
Qed.

Lemma placement_here passed rs c :
  full = passed ++ rs -> passed_ok passed c ->
  c mod aln = 0 -> start_address m <= c -> c + sz <= start_address m + rsize m ->
  (forall r t, rs = r :: t -> c + sz <= start_address r) ->
  placement m full sz aln c.
Proof.
  intros E Hp Hc H1 H2 Hhd. repeat split; [done..|].
  intros q Hq. rewrite E in Hq. apply elem_of_app in Hq as [Hq|Hq].
  - right. by apply Hp.
  - left. destruct rs as [|r t]; [by apply not_elem_of_nil in Hq|].
    specialize (Hhd r t eq_refl). apply elem_of_cons in Hq as [->|Hq]; [done|].
    destruct Hfull as (Hwf & _). rewrite E in Hwf.
    apply regions_wf_app_r in Hwf as [Hok [_ Hg]%SSorted_cons_iff].
    specialize (Hg q Hq). unfold gapped in Hg. inversion Hok; subst. rsolve.
Qed.

(** The inner loop finds the lowest usable location of a memory region and moves
    past only those reservations that end inside or before that region. *)
Lemma fit_region_spec fuel : forall c passed rs,
  full = passed ++ rs -> passed_ok passed c ->
  c mod aln = 0 -> start_address m <= c < B + aln ->
  (forall a, placement m full sz aln a -> c <= a) ->
  (S (length (skip_reserved rs c)) <= fuel)%nat ->
  exists o rs', fit_region fuel m aln (mkRegion c sz) rs = Return (o, rs') /\
    search_result m full o /\
    exists passed', full = passed' ++ rs' /\ passed_ok passed' (start_address m + rsize m).
Proof.
  destruct Hm as (Hmok & Hmne & HmB). induction fuel as [|fuel IH]; [lia|].
  intros c passed rs E Hp Hc Hcr Hlow Hfuel. simpl.
  assert (Hcok : region_ok (mkRegion c sz)) by rsolve.
  assert (Hp' : passed_ok passed (start_address m + rsize m)).
  { intros r Hr. specialize (Hp r Hr). lia. }
  destruct (contains m (mkRegion c sz)) eqn:Econ.
  2: { exists None, rs. split; [done|]. split; [|by exists passed].
       intros a Ha. pose proof (Hlow a Ha). destruct Ha as (_ & ? & ? & _).
       assert (contains m (mkRegion c sz) = true); [|congruence].
       apply contains_spec; simpl; [done|done|done|done|lia]. }
  apply contains_spec in Econ; [|done..]. simpl in Econ.
  destruct (skip_reserved_spec rs c) as (l1 & E1 & Hskip & Hhead).
  { destruct Hfull as ([Hok _] & _). rewrite E in Hok. by apply Forall_app in Hok as []. }
  set (rs' := skip_reserved rs c) in *. clearbody rs'. subst rs.
  assert (E' : full = (passed ++ l1) ++ rs') by by rewrite <- app_assoc.
  assert (Hpl : passed_ok (passed ++ l1) c).
  { intros q [Hq|Hq]%elem_of_app; [auto|]. specialize (Hskip q Hq). lia. }
  assert (Hhere : (forall r t, rs' = r :: t -> c + sz <= start_address r) ->
    exists o r0, Return (Some c, rs') = Return (o, r0) /\ search_result m full o /\
    exists passed', full = passed' ++ r0 /\ passed_ok passed' (start_address m + rsize m)).
  { intros Hhd. exists (Some c), rs'. split; [done|]. split.
    - split; [|done]. apply (placement_here (passed ++ l1) rs'); try done; lia.
    - exists (passed ++ l1). split; [done|]. intros q Hq. specialize (Hpl q Hq). lia. }
  destruct rs' as [|r t]; [by apply Hhere|].
  specialize (Hhead r t eq_refl).
  destruct (full_entry _ _ r E' ltac:(set_solver)) as (Hr & Hrne & HrB).
  destruct (overlaps (mkRegion c sz) r) eqn:Eov.
  - rewrite end_address_eq by done. rewrite align_up_below by rsolve.
    ostep. simpl.
    destruct (round_up_spec (start_address r + rsize r) aln aln_pos) as [Hru Hrm].
    assert (start_address r < c + sz).
    { apply overlaps_spec in Eov as (x & Hx1 & Hx2); [|done..]. rsolve. }
    apply (IH _ (passed ++ l1)); [done| |done|lia| |].
    + intros q Hq. specialize (Hpl q Hq). lia.
    + intros a Ha. apply (placement_past (passed ++ l1) r t c); auto.
    + simpl. rewrite end_address_eq by done. rewrite (proj2 (Z.leb_le _ _)) by lia.
      pose proof (skip_reserved_length t (round_up (start_address r + rsize r) aln)).
      simpl in Hfuel. lia.
  - apply overlaps_false in Eov; [|done..]. simpl in Eov.
    apply Hhere. intros ? ? [= <- <-]. lia.
Qed.
End FitRegion.

Lemma fit_regions_spec full : regions_wf full -> nonempty full -> below B full ->
  forall mems passed rs,
  regions_wf mems -> nonempty mems -> below B mems -> full = passed ++ rs ->
  (forall r m, r ∈ passed -> m ∈ mems -> start_address r + rsize r <= start_address m) ->
  exists o, fit_regions mems rs sz aln = Return o /\
    match o with
    | Some a => (exists m, m ∈ mems /\ placement m full sz aln a) /\
                forall m a', m ∈ mems -> placement m full sz aln a' -> a <= a'
    | None => forall m a, m ∈ mems -> ~ placement m full sz aln a
    end.
Proof.
  intros Hwf Hne Hbel. induction mems as [|m mems IH];
    intros passed rs Hmwf Hmne Hmbel E Hpass; cbn [fit_regions].
  { exists None. split; [done|]. set_solver. }
  destruct Hmwf as [Hmok Hmsort].
  inversion Hmok as [|? ? Hm Hmoks]; inversion Hmne as [|? ? Hmp Hmps];
    inversion Hmbel as [|? ? HmB HmBs]; subst.
  apply SSorted_cons_iff in Hmsort as [Hsort Hgap].
  rewrite align_up_below by rsolve. ostep.
  destruct (round_up_spec (start_address m) aln aln_pos) as [Hru Hrm].
  destruct (fit_region_spec m (passed ++ rs) (conj Hm (conj Hmp HmB))
              (conj Hwf (conj Hne Hbel)) (S (length rs)) (round_up (start_address m) aln)
              passed rs) as (o & rs' & Eq & Hres & passed' & E' & Hp'); [done| |done|rsolve| |..].
  { intros r Hr. specialize (Hpass r m Hr ltac:(set_solver)). rsolve. }
  { intros a (Ha1 & Ha2 & _). by apply round_up_least. }
  { pose proof (skip_reserved_length rs (round_up (start_address m) aln)). lia. }
  rewrite Eq. ostep. destruct o as [a|].
  - exists (Some a). split; [done|]. destruct Hres as [Hpl Hmin]. split.
    + exists m. split; [set_solver|done].
    + intros m' a' [->|Hm']%elem_of_cons Ha'; [auto|].
      specialize (Hgap m' Hm'). unfold gapped in Hgap.
      destruct Hpl as (_ & _ & ? & _). destruct Ha' as (_ & ? & _). lia.
  - destruct (IH passed' rs') as (o & Eo & Ho); try done.
    { intros r m' Hr Hm'. specialize (Hp' r Hr). specialize (Hgap m' Hm').
      unfold gapped in Hgap. lia. }
    exists o. split; [done|]. simpl in Hres. destruct o as [a|].
    + destruct Ho as [(m' & Hm' & Hpl) Hmin]. split; [exists m'; set_solver|].
      intros m'' a' [->|Hm'']%elem_of_cons Ha'; [by apply Hres in Ha'|eauto].
    + intros m' a [->|Hm']%elem_of_cons; eauto.
Qed.
End Placement.

(** ** The allocator *)

(** State invariant: both lists are well-formed, within their capacity and below
    the top [B] of physical memory. *)
Definition list_ok (B : Z) (l : RegionList) : Prop :=
  regions_wf (rl_regions l) /\ nonempty (rl_regions l) /\ below B (rl_regions l) /\
  rl_count l <= rl_max l /\ 1 <= rl_max l < 2 ^ 64.

Definition smalloc_ok (B : Z) (s : Smalloc) : Prop :=
  list_ok B (memory s) /\ list_ok B (res s).

(** [sz] bytes at [a] are aligned free memory of [s]. *)
Definition usable (s : Smalloc) (sz aln a : Z) : Prop :=
  exists m, m ∈ rl_regions (memory s) /\ placement m (rl_regions (res s)) sz aln a.

Lemma find_allocation_location_spec B s sz aln :
  smalloc_ok B s -> 0 < sz -> is_power_of_two aln = true -> 0 <= B -> B + aln + sz < 2 ^ 64 ->
  exists o, find_allocation_location s sz aln = Return o /\
    match o with
    | Some a => usable s sz aln a /\ forall a', usable s sz aln a' -> a <= a'
    | None => forall a, ~ usable s sz aln a
    end.
Proof.
  intros [(Hm1 & Hm2 & Hm3 & _) (Hr1 & Hr2 & Hr3 & _)] Hsz Haln HB0 HB.
  destruct (fit_regions_spec sz aln B Hsz Haln (conj HB0 HB)
    (rl_regions (res s)) Hr1 Hr2 Hr3 (rl_regions (memory s)) [] (rl_regions (res s)))
    as (o & E & Ho); [done..|set_solver|].
  exists o. split; [done|]. destruct o as [a|].
  - destruct Ho as [Hex Hmin]. split; [done|]. intros a' (m & Hm & Ha'). eauto.
  - intros a (m & Hm & Ha). by apply (Ho m a).
Qed.

Lemma below_covered B rs x : below B rs -> covered rs x -> x < B.
Proof.
  unfold below. rewrite list.Forall_forall. intros H (r & Hr & Hx).
  specialize (H r Hr). rsolve.
Qed.

Lemma covered_below B rs : (forall x, covered rs x -> x < B) -> nonempty rs -> below B rs.
Proof.
  unfold below, nonempty. rewrite !list.Forall_forall. intros H Hne r Hr.
  specialize (Hne r Hr).
  enough (start_address r + rsize r - 1 < B) by lia.
  apply H. exists r. split; [done|]. rsolve.
Qed.

(** Reserving keeps the invariant and adds exactly the region. *)
Lemma reserve_spec B s r :
  smalloc_ok B s -> region_ok r -> 0 < rsize r -> start_address r + rsize r <= B ->
  rl_count (res s) < rl_max (res s) ->
  exists s', reserve s r = Return s' /\ smalloc_ok B s' /\
    memory s' = memory s /\ permit_region_realloc s' = permit_region_realloc s /\
    rl_max (res s') = rl_max (res s) /\ rl_count (res s') <= rl_count (res s) + 1 /\
    (forall a, covered (rl_regions (res s')) a <-> covered (rl_regions (res s)) a \/ a ∈ r).
Proof.
  intros [Hmem (Hwf & Hne & Hbel & Hcnt & Hmax)] Hr Hrne HrB Hcap. unfold reserve.
  destruct (insert_region_refines (res s) r Hwf Hr Hcap)
    as (l & E & Hwf' & Emax & _ & Hc & Hne' & Hcov).
  rewrite E. ostep. eexists. split; [reflexivity|]. simpl.
  split; [|repeat split; try done; apply Hcov].
  split; [done|]. specialize (Hne' Hne Hrne).
  split; [done|]. split; [done|]. split; [|simpl; lia].
  apply covered_below; [|done]. intros x [Hx|Hx]%Hcov.
  - by eapply below_covered.
  - rsolve.
Qed.

Lemma requires_reallocation_false B l : list_ok B l -> requires_reallocation l = false ->
  rl_count l + 1 < rl_max l.
Proof.
  intros (_ & _ & _ & ? & ?). unfold requires_reallocation. rewrite usub_small by lia.
  intros. breflect. lia.
Qed.

Section Allocator.
Context {T : AddressTranslator}.

Lemma grow_not_permitted fuel s ty : permit_region_realloc s = false ->
  grow_region_list (S fuel) s ty = Return (Err NoMemory, s).
Proof. intros H. simpl. by rewrite H. Qed.

Lemma maybe_grow_not_permitted s l ty : permit_region_realloc s = false ->
  maybe_grow s l ty =
    Return (if requires_reallocation l then Err NoMemory else Ok tt, s).
Proof.
  intros H. unfold maybe_grow, realloc_fuel. destruct (requires_reallocation l); [|done].
  by apply grow_not_permitted.
Qed.

(** What one call of [alloc] achieves from [s] to [s']. *)
Definition alloc_post (B : Z) (s : Smalloc) (sz aln : Z) (r : result Z) (s' : Smalloc) : Prop :=
  smalloc_ok B s' /\ memory s' = memory s /\
  permit_region_realloc s' = permit_region_realloc s /\
  match r with
  | Ok a => a <> 0 /\ usable s sz aln a /\
      (forall x, covered (rl_regions (res s')) x <->
         covered (rl_regions (res s)) x \/ a <= x < a + sz)
  | Err e => e = NoMemory /\
      (requires_reallocation (res s') = true \/ forall a, ~ usable s' sz aln a) /\
      (forall x, covered (rl_regions (res s')) x <-> covered (rl_regions (res s)) x)
  end.

(** A request that does not have to step over the zero page. *)
Lemma alloc_rec_nonnull B fuel s sz aln :
  smalloc_ok B s -> permit_region_realloc s = false ->
  0 < sz -> is_power_of_two aln = true -> 0 <= B -> B + aln + sz < 2 ^ 64 ->
  ~ usable s sz aln 0 ->
  exists r s', alloc_rec (S fuel) s sz aln = Return (r, s') /\ alloc_post B s sz aln r s'.
Proof.
  intros Hok Hperm Hsz Haln HB0 HB Hnull. cbn [alloc_rec].
  rewrite maybe_grow_not_permitted by done.
  destruct (requires_reallocation (res s)) eqn:Hreq; cbn [tbind].
  { exists (Err NoMemory), s. split; [done|]. repeat split; try apply Hok; auto. }
  destruct (find_allocation_location_spec B s sz aln) as (o & E & Ho); [done..|].
  rewrite E. ostep. destruct o as [a|].
  2: { exists (Err NoMemory), s. split; [done|]. repeat split; try apply Hok; auto. }
  destruct Ho as [Hus _]. 
  destruct (Z.eqb_spec a 0) as [->|Hnz]; [done|].
  pose proof Hok as [(Hmwf & _ & Hmb & _) Hres].
  destruct Hus as (m & Hm & Hpl). pose proof Hpl as (_ & Ha1 & Ha2 & _).
  pose proof (regions_wf_ok _ m Hmwf Hm) as Hmok.
  unfold below in Hmb. rewrite list.Forall_forall in Hmb. specialize (Hmb m Hm).
  pose proof (requires_reallocation_false B _ Hres Hreq).
  destruct (reserve_spec B s (mkRegion a sz)) as (s' & Es & Hok' & Emem & Eperm & _ & _ & Hcov);
    [done|rsolve|done|rsolve|lia|].
  rewrite Es. ostep. exists (Ok a), s'. split; [done|].
  split; [done|]. split; [done|]. split; [done|].
  split; [done|]. split; [by exists m|]. done.
Qed.

(** [alloc] terminates without panicking.  On success the block is aligned, not
    null, inside memory and clear of everything reserved before, and the
    reservations grow by exactly that block, plus the zero page when the lowest
    candidate was the null address; on failure no usable location is left or the
    reservation list is full. *)
Lemma alloc_spec B s sz aln :
  smalloc_ok B s -> permit_region_realloc s = false ->
  0 < sz -> is_power_of_two aln = true -> PAGE_SIZE <= B -> B + aln + sz < 2 ^ 64 ->
  exists r s' s0, alloc s sz aln = Return (r, s') /\ alloc_post B s0 sz aln r s' /\
    (s0 = s \/ usable s sz aln 0 /\ reserve s NULL_PAGE_RGN = Return s0).
Proof.
  intros Hok Hperm Hsz Haln HPB HB. unfold alloc. unfold PAGE_SIZE in HPB.
  destruct (find_allocation_location_spec B s sz aln) as (o & E & Ho); [done|done|done|lia|done|].
  assert (Hdec : (exists a, o = Some a /\ a = 0) \/ ~ usable s sz aln 0).
  { destruct o as [a|]; [|auto]. destruct (Z.eq_dec a 0); [left; eauto|].
    right. intros H0. destruct Ho as [Hus Hmin]. specialize (Hmin 0 H0).
    destruct Hus as (m & Hm & _ & Hma & _). destruct Hok as [([Hokm _] & _) _].
    rewrite list.Forall_forall in Hokm. specialize (Hokm m Hm). rsolve. }
  destruct Hdec as [(a & -> & ->)|Hnn].
  2: { destruct (alloc_rec_nonnull B 2 s sz aln) as (r & s' & Ea & Hp); [done..|lia|done|done|].
       exists r, s', s. auto. }
  destruct Ho as [H0 _].
  cbn [alloc_rec]. rewrite maybe_grow_not_permitted by done.
  pose proof Hok as [_ Hres].
  destruct (requires_reallocation (res s)) eqn:Hreq; cbn [tbind].
  { exists (Err NoMemory), s, s. split; [done|]. split; [|auto].
    repeat split; try apply Hok; auto. }
  rewrite E. ostep. cbn [Z.eqb].
  pose proof (requires_reallocation_false B _ Hres Hreq).
  destruct (reserve_spec B s NULL_PAGE_RGN)
    as (s0 & Es & Hok' & Emem & Eperm & Emax & Ecnt & Hcov);
    [done|unfold region_ok; simpl; unfold PAGE_SIZE; lia
    |done|simpl; unfold PAGE_SIZE; lia|lia|].
  rewrite Es. ostep.
  destruct (alloc_rec_nonnull B 1 s0 sz aln) as (r & s' & Ea & Hp);
    [done|congruence|done|done|lia|done| |].
  { intros (m & _ & _ & _ & _ & Hclear).
    assert (covered (rl_regions (res s0)) 0) as (q & Hq & Hq0).
    { apply Hcov. right. unfold PAGE_SIZE. rsolve. }
    specialize (Hclear q Hq). rsolve. }
  exists r, s', s0. split; [exact Ea|]. split; [done|]. auto.
Qed.

(** Taking one entry out of the reservations. *)
Lemma drop_entry_spec B s i old :
  smalloc_ok B s -> rl_regions (res s) !! i = Some old ->
  let s1 := set_res s (set_regions (res s) (delete i (rl_regions (res s)))) in
  smalloc_ok B s1 /\ rl_count (res s1) = rl_count (res s) - 1 /\
  (forall x, covered (rl_regions (res s)) x <->
     x ∈ old \/ covered (rl_regions (res s1)) x) /\
  (forall x, x ∈ old -> ~ covered (rl_regions (res s1)) x).
Proof.
  intros [Hmem (Hwf & Hne & Hbel & Hcnt & Hmax)] Hlook s1.
  assert (Hc1 : rl_count (res s1) = rl_count (res s) - 1).
  { unfold rl_count. simpl. rewrite length_delete by eauto.
    apply lookup_lt_Some in Hlook. lia. }
  split; [|split; [done|split]].
  - split; [done|]. split; [by apply regions_wf_delete|].
    split; [by apply Forall_delete|]. split; [by apply Forall_delete|].
    rewrite Hc1. simpl. lia.
  - intros x. by apply covered_delete.
  - intros x Hx (q & Hq & Hxq). simpl in Hq.
    rewrite <- (take_drop_middle _ i old Hlook) in Hwf.
    rewrite delete_take_drop in Hq. destruct Hwf as [Hall Hsort].
    apply SSorted_app_iff in Hsort as (_ & [_ Hg2]%SSorted_cons_iff & Hg1).
    apply elem_of_app in Hq as [Hq|Hq].
    + specialize (Hg1 q old Hq ltac:(set_solver)). unfold gapped in Hg1. rsolve.
    + specialize (Hg2 q Hq). unfold gapped in Hg2. rsolve.
Qed.

(** Re-instating a fragment [lo, hi) of a freed reservation, if there is one. *)
Lemma reserve_fragment_spec B s lo hi :
  smalloc_ok B s -> 0 <= lo -> hi <= B -> B < 2 ^ 64 -> rl_count (res s) < rl_max (res s) ->
  exists s', (if lo <? hi then reserve s (mkRegion lo (usub hi lo)) else Return s) = Return s' /\
    smalloc_ok B s' /\ memory s' = memory s /\ rl_max (res s') = rl_max (res s) /\
    rl_count (res s') <= rl_count (res s) + 1 /\
    (forall x, covered (rl_regions (res s')) x <->
       covered (rl_regions (res s)) x \/ lo <= x < hi).
Proof.
  intros Hok Hlo Hhi HB Hcap. destruct (Z.ltb_spec lo hi).
  - rewrite usub_small by lia.
    destruct (reserve_spec B s (mkRegion lo (hi - lo)))
      as (s' & E & ? & ? & _ & ? & ? & Hcov); [done|rsolve|simpl; lia|rsolve|done|].
    exists s'. do 5 (split; [done|]). intros x. rewrite Hcov.
    assert (x ∈ mkRegion lo (hi - lo) <-> lo <= x < hi) as -> by rsolve. done.
  - exists s. do 4 (split; [done|]). split; [lia|]. intros x. split; [tauto|].
    intros [|]; [done|lia].
Qed.

(** The outcome of freeing [addr, addr + sz). *)
Definition free_post (B : Z) (s : Smalloc) (addr sz : Z) (r : result unit) (s' : Smalloc) : Prop :=
  smalloc_ok B s' /\ memory s' = memory s /\
  match r with
  | Ok _ => (forall x, addr <= x < addr + sz -> covered (rl_regions (res s)) x) /\
      (forall x, covered (rl_regions (res s')) x <->
         covered (rl_regions (res s)) x /\ ~ addr <= x < addr + sz)
  | Err NoMemRegion => s' = s /\
      ~ (exists q, q ∈ rl_regions (res s) /\ forall x, addr <= x < addr + sz -> x ∈ q)
  | Err e => e = NoMemory /\ s' = s /\ requires_reallocation (res s) = true
  end.

(** [free] on a block that lies in a reservation removes exactly that block;
    otherwise it reports the missing region and changes nothing. *)
Lemma free_spec B s addr sz :
  smalloc_ok B s -> permit_region_realloc s = false ->
  0 < sz -> 0 <= addr -> addr + sz < 2 ^ 64 -> B < 2 ^ 64 ->
  exists r s', free_top s addr sz = Return (r, s') /\ free_post B s addr sz r s'.
Proof.
  intros Hok Hperm Hsz Ha Hb HB. pose proof Hok as [_ Hres].
  pose proof Hres as (Hwf & Hne & Hbel & _). unfold nonempty, below in Hne, Hbel.
  rewrite list.Forall_forall in Hne, Hbel.
  assert (Hreg : region_ok (mkRegion addr sz)) by rsolve.
  unfold free_top, realloc_fuel. cbn [free].
  destruct (position _ (rl_regions (res s))) as [i|] eqn:Epos.
  2: { exists (Err NoMemRegion), s. do 4 (split; [done|]). intros (q & Hq & Hin).
       apply position_None in Epos. rewrite list.Forall_forall in Epos.
       specialize (Epos q Hq). specialize (Hne q Hq).
       pose proof (regions_wf_ok _ q Hwf Hq).
       pose proof (Hin addr ltac:(lia)). pose proof (Hin (addr + sz - 1) ltac:(lia)).
       rewrite (proj2 (contains_spec q _ ltac:(done) Hreg ltac:(done) Hsz)) in Epos; [done|rsolve]. }
  pose proof Epos as (l1 & old & l2 & El & Hi & Hcon & _)%position_Some.
  assert (Hlook : rl_regions (res s) !! i = Some old) by (rewrite El; by apply list_lookup_middle).
  pose proof (list_elem_of_lookup_2 _ _ _ Hlook) as Hold.
  pose proof (regions_wf_ok _ old Hwf Hold) as Holdok. specialize (Hbel old Hold).
  apply contains_spec in Hcon; [|by auto..]. simpl in Hcon.
  unfold rl_index. rewrite Hlook. ostep.
  destruct (requires_reallocation (res s)) eqn:Hreq.
  { rewrite grow_not_permitted by done. cbn [tbind].
    exists (Err NoMemory), s. repeat split; try apply Hok; auto. }
  cbn [tbind]. rewrite (proj2 (Nat.leb_gt _ _)) by (apply lookup_lt_Some in Hlook; lia).
  pose proof (requires_reallocation_false B _ Hres Hreq) as Hcap.
  destruct (drop_entry_spec B s i old Hok Hlook) as (Hok1 & Hc1 & Hsplit & Hdisj).
  set (s1 := set_res s _) in *. cbv zeta. rewrite !end_address_eq by done.
  cbn [start_address rsize]. rewrite Z.gtb_ltb.
  destruct (reserve_fragment_spec B s1 (start_address old) addr)
    as (s2 & -> & Hok2 & Hmem2 & Hmax2 & Hc2 & Hcov2); [done|rsolve|lia|done|change (rl_max (res s1)) with (rl_max (res s)); lia|].
  ostep. change (rl_max (res s1)) with (rl_max (res s)) in Hmax2.
  destruct (reserve_fragment_spec B s2 (addr + sz) (start_address old + rsize old))
    as (s3 & -> & Hok3 & Hmem3 & _ & _ & Hcov3); [done|lia|lia|done|lia|].
  ostep. exists (Ok tt), s3. split; [done|]. split; [done|]. split; [by rewrite Hmem3|]. split.
  - intros x Hx. apply Hsplit. left. rsolve.
  - intros x. rewrite Hcov3, Hcov2, Hsplit. specialize (Hdisj x).
    unfold elem_of, region_elem_of in *. clear -Hdisj Hcon Hsz.
    destruct (Z.lt_ge_cases x addr), (Z.lt_ge_cases x (addr + sz)),
      (Z.lt_ge_cases x (start_address old)),
      (Z.lt_ge_cases x (start_address old + rsize old)); try lia; tauto || lia || naive_solver lia.
Qed.
End Allocator.

(** ** Free memory *)

(** Addresses of [fs] outside [rs]. *)
Definition diff (fs rs : list MemoryRegion) (a : Z) : Prop :=
  covered fs a /\ ~ covered rs a.

(** No reservation reaches from one memory region into a later one. *)
Definition no_span (fs rs : list MemoryRegion) : Prop :=
  forall r m1 m2, r ∈ rs -> m1 ∈ fs -> m2 ∈ fs -> gapped m1 m2 ->
    start_address r < start_address m1 + rsize m1 ->
    start_address r + rsize r <= start_address m2.

Definition fragments (it : FreeRegionsIter) : list MemoryRegion :=
  match current_fragment it with Some f => f :: mem_iter it | None => mem_iter it end.

Definition diff_ok (fs rs : list MemoryRegion) : Prop :=
  regions_wf fs /\ nonempty fs /\ regions_wf rs /\ nonempty rs /\ no_span fs rs.

(** What is left of the first fragment [f] once reservation [r] is consumed. *)
Definition consume (f r : MemoryRegion) (ms : list MemoryRegion) : list MemoryRegion :=
  if start_address r + rsize r <? start_address f + rsize f then
    mkRegion (start_address r + rsize r)
      (start_address f + rsize f - (start_address r + rsize r)) :: ms
  else ms.

Lemma consume_length f r ms : (length (consume f r ms) <= S (length ms))%nat.
Proof. unfold consume. case_match; simpl; lia. Qed.

Lemma regions_wf_cons r rs :
  regions_wf (r :: rs) <-> region_ok r /\ regions_wf rs /\ forall q, q ∈ rs -> gapped r q.
Proof.
  unfold regions_wf. rewrite Forall_cons, SSorted_cons_iff. tauto.
Qed.

Lemma diff_ok_res_tail fs l1 rs : diff_ok fs (l1 ++ rs) -> diff_ok fs rs.
Proof.
  intros (H1 & H2 & H3 & H4 & H5). split; [done|]. split; [done|].
  split; [by eapply regions_wf_app_r|]. split; [by apply Forall_app in H4 as []|].
  intros r m1 m2 Hr. apply H5. apply elem_of_app. auto.
Qed.

Lemma diff_ok_frag_tail f fs rs : diff_ok (f :: fs) rs -> diff_ok fs rs.
Proof.
  intros (H1 & H2 & H3 & H4 & H5). apply regions_wf_cons in H1 as (_ & H1 & _).
  inversion H2; subst. do 4 (split; [done|]).
  intros r m1 m2 Hr Hm1 Hm2. apply H5; [done|set_solver..].
Qed.

Lemma diff_ok_consume f ms r rs :
  diff_ok (f :: ms) (r :: rs) -> start_address f < start_address r + rsize r ->
  diff_ok (consume f r ms) rs.
Proof.
  intros Hok Hr. pose proof (diff_ok_res_tail (f :: ms) [r] rs Hok) as Hok'.
  unfold consume. destruct (Z.ltb_spec (start_address r + rsize r) (start_address f + rsize f)).
  2: by eapply diff_ok_frag_tail.
  destruct Hok' as (H1 & H2 & H3 & H4 & H5). destruct Hok as (_ & _ & HR & _).
  apply regions_wf_cons in HR as (HR & _).
  apply regions_wf_cons in H1 as (Hf & Hms & Hg). inversion H2; subst.
  split; [|split; [|split; [done|split; [done|]]]].
  - apply regions_wf_cons. split; [rsolve|]. split; [done|].
    intros q Hq. specialize (Hg q Hq). unfold gapped in *. simpl. lia.
  - constructor; [simpl; lia|done].
  - intros q m1 m2 Hq Hm1 Hm2. apply elem_of_cons in Hm1 as [->|Hm1].
    + apply elem_of_cons in Hm2 as [->|Hm2]; unfold gapped; simpl; [lia|].
      intros ? Hlt. apply (H5 q f m2); [done|set_solver|set_solver|by apply Hg|lia].
    + apply elem_of_cons in Hm2 as [->|Hm2].
      * specialize (Hg m1 Hm1). destruct Hms as [Hms _]. rewrite list.Forall_forall in Hms.
        specialize (Hms m1 Hm1). unfold gapped in *. simpl. intros. rsolve.
      * intros ? ?. apply (H5 q m1 m2); [done|set_solver|set_solver|done..].
Qed.

Lemma diff_skip fs l1 rs a :
  (forall r f, r ∈ l1 -> f ∈ fs -> start_address r + rsize r <= start_address f) ->
  diff fs (l1 ++ rs) a <-> diff fs rs a.
Proof.
  intros H. unfold diff. rewrite covered_app. split; [tauto|].
  intros [Hf Hr]. split; [done|]. intros [(q & Hq & Ha)|?]; [|done].
  destruct Hf as (f & Hf & Haf). specialize (H q f Hq Hf). rsolve.
Qed.

(** A fragment that ends before every reservation is free as a whole. *)
Lemma diff_take_fragment f ms rs a :
  (forall q, q ∈ rs -> start_address f + rsize f <= start_address q) ->
  diff (f :: ms) rs a <-> a ∈ f \/ diff ms rs a.
Proof.
  intros H. unfold diff. rewrite covered_cons. split; [tauto|].
  intros [Ha|?]; [|tauto]. split; [auto|]. intros (q & Hq & Haq).
  specialize (H q Hq). rsolve.
Qed.

(** Consuming a reservation leaves the prefix before it and the rest. *)
Lemma diff_consume f ms r rs a :
  diff_ok (f :: ms) (r :: rs) ->
  start_address f < start_address r + rsize r ->
  start_address r < start_address f + rsize f ->
  diff (f :: ms) (r :: rs) a <->
  start_address f <= a < start_address r \/ diff (consume f r ms) rs a.
Proof.
  intros (H1 & H2 & H3 & H4 & H5) Hlo Hhi. unfold diff. rewrite !covered_cons.
  apply regions_wf_cons in H1 as (Hf & Hms & Hg).
  apply regions_wf_cons in H3 as (Hr & Hrs & Hgr).
  assert (Hdisj : forall x, covered rs x -> start_address r + rsize r < x).
  { intros x (q & Hq & Hx). specialize (Hgr q Hq). unfold gapped in Hgr. rsolve. }
  assert (Hms' : forall x, covered ms x ->
    start_address r + rsize r <= x /\ start_address f + rsize f < x).
  { intros x (m & Hm & Hx). specialize (Hg m Hm). unfold gapped in Hg.
    specialize (H5 r f m ltac:(set_solver) ltac:(set_solver) ltac:(set_solver) ltac:(done) Hhi).
    rsolve. }
  specialize (Hdisj a). specialize (Hms' a).
  unfold consume. destruct (Z.ltb_spec (start_address r + rsize r) (start_address f + rsize f));
    rewrite ?covered_cons; unfold elem_of, region_elem_of; simpl;
    unfold region_ok in *.
  all: destruct (decide (start_address f <= a < start_address r));
    [split; [tauto|intros _; split; [left; lia|intros [?|?%Hdisj]; lia]]|].
  all: clear Hms Hg H2 Hrs Hgr H4 H5; generalize dependent (covered ms a);
    generalize dependent (covered rs a); intros; intuition lia.
Qed.

Lemma advance_res_split rs f :
  Forall region_ok rs -> region_ok f ->
  exists l1, rs = l1 ++ advance_res rs f /\
    (forall r, r ∈ l1 -> start_address r + rsize r <= start_address f) /\
    match advance_res rs f with
    | [] => True
    | r :: _ => start_address f < start_address r + rsize r
    end.
Proof.
  intros Hrs Hf. induction Hrs as [|r rs Hr Hrs IH]; simpl.
  { exists []. split; [done|]. split; [set_solver|done]. }
  rewrite end_address_eq by done.
  destruct (Z.leb_spec (start_address r + rsize r) (start_address f)).
  - destruct IH as (l1 & H1 & H2 & H3). exists (r :: l1). split; [simpl; congruence|].
    split; [|done]. intros q [->|?]%elem_of_cons; auto.
  - exists []. split; [done|]. split; [set_solver|done].
Qed.

Definition iter_size (it : FreeRegionsIter) : nat :=
  length (fragments it) + length (res_iter it).

(** What one call of [next] gives: nothing when no memory is left free, else the
    lowest remaining free fragment. *)
Definition next_post (fs rs : list MemoryRegion) (o : option MemoryRegion)
    (it : FreeRegionsIter) : Prop :=
  match o with
  | None => forall a, ~ diff fs rs a
  | Some x =>
      region_ok x /\ 0 < rsize x /\ diff_ok (fragments it) (res_iter it) /\
      (iter_size it < length fs + length rs)%nat /\
      (forall a, diff fs rs a <-> a ∈ x \/ diff (fragments it) (res_iter it) a) /\
      (forall a, diff (fragments it) (res_iter it) a -> start_address x + rsize x < a)
  end.

Lemma next_post_weaken fs rs fs' rs' o it :
  (forall a, diff fs rs a <-> diff fs' rs' a) ->
  (length fs' + length rs' <= length fs + length rs)%nat ->
  next_post fs' rs' o it -> next_post fs rs o it.
Proof.
  intros Hd Hl. destruct o as [x|]; simpl.
  - intros (? & ? & ? & ? & Hx & ?). repeat (split; [done || lia|]).
    split; [|done]. intros a. by rewrite Hd.
  - intros Hn a. by rewrite Hd.
Qed.

(** The whole first fragment is free. *)
Lemma next_post_fragment f ms rs :
  diff_ok (f :: ms) rs ->
  (forall q, q ∈ rs -> start_address f + rsize f <= start_address q) ->
  next_post (f :: ms) rs (Some f) (mkFreeIter ms rs None).
Proof.
  intros Hok Hlo. pose proof Hok as (Hwf & Hne & _).
  apply regions_wf_cons in Hwf as (Hf & Hms & Hg).
  inversion Hne; subst. split; [done|]. split; [done|].
  split; [by eapply diff_ok_frag_tail|]. split; [unfold iter_size, fragments; simpl; lia|].
  split; [intros a; by apply diff_take_fragment|].
  intros a [(m & Hm & Ha) _]. simpl in Hm. specialize (Hg m Hm). unfold gapped in Hg. rsolve.
Qed.

(** The first fragment is free up to the first reservation. *)
Lemma next_post_prefix f ms r rs it :
  diff_ok (f :: ms) (r :: rs) ->
  start_address f < start_address r < start_address f + rsize f ->
  fragments it = consume f r ms -> res_iter it = rs ->
  next_post (f :: ms) (r :: rs)
    (Some (mkRegion (start_address f) (start_address r - start_address f))) it.
Proof.
  intros Hok Hlt Hf Hr. pose proof Hok as (Hwf & Hne & HR & HRne & Hns).
  apply regions_wf_cons in Hwf as (Hfok & Hms & Hg).
  apply regions_wf_cons in HR as (Hrok & HRR & HRg). inversion HRne; subst.
  split; [rsolve|]. split; [simpl; lia|]. rewrite Hf.
  split; [apply diff_ok_consume; [done|lia]|].
  split; [unfold iter_size; rewrite Hf; pose proof (consume_length f r ms); simpl; lia|].
  split.
  - intros a. rewrite (diff_consume f ms r) by (done || lia).
    unfold elem_of, region_elem_of. simpl. intuition lia.
  - intros a [(m & Hm & Ha) _]. simpl. revert Hm. unfold consume.
    assert (Hm : m ∈ ms -> start_address r < a).
    { intros Hm. specialize (Hg m Hm). unfold gapped in Hg. rsolve. }
    case_match; [intros [->|?]%elem_of_cons|intros]; rsolve.
    all: specialize (Hm ltac:(done)); lia.
Qed.

Lemma consume_fragments f r ms rs :
  region_ok f -> region_ok r ->
  exists cur,
    (if end_address r <? end_address f then
       let! x := from_start_end_address (end_address r) (end_address f) in Return (Some x)
     else Return None) = Return cur /\
    fragments (mkFreeIter ms rs cur) = consume f r ms.
Proof.
  intros Hf Hr. unfold consume. rewrite !end_address_eq by done.
  destruct (Z.ltb_spec (start_address r + rsize r) (start_address f + rsize f)).
  - rewrite from_start_end_address_eq by rsolve. ostep. eauto.
  - eauto.
Qed.

Lemma free_next_spec fuel : forall it,
  diff_ok (fragments it) (res_iter it) -> (length (res_iter it) < fuel)%nat ->
  exists o it', free_next fuel it = Return (o, it') /\
    next_post (fragments it) (res_iter it) o it'.
Proof.
  induction fuel as [|fuel IH]; intros it Hok Hfuel; [lia|]. cbn [free_next].
  assert (Hnext : match current_fragment it with
      | Some frag => Some (frag, mem_iter it)
      | None => match mem_iter it with m :: ms => Some (m, ms) | [] => None end
      end = match fragments it with m :: ms => Some (m, ms) | [] => None end).
  { unfold fragments. by case_match. }
  rewrite Hnext. clear Hnext. destruct (fragments it) as [|f ms] eqn:Ef.
  { eexists _, _. split; [done|]. intros a [(? & ?%not_elem_of_nil & _) _]. done. }
  pose proof Hok as (Hwf & Hne & [HR HRs] & HRne & Hns).
  apply regions_wf_cons in Hwf as (Hf & Hms & Hg).
  destruct (advance_res_split (res_iter it) f HR Hf) as (l1 & Hrs & Hl1 & Hhd).
  set (rs := advance_res (res_iter it) f) in *. rewrite Hrs in Hok, Hfuel.
  pose proof (diff_ok_res_tail _ _ _ Hok) as Hok'. rewrite length_app in Hfuel.
  assert (Hskip : forall o it', next_post (f :: ms) rs o it' ->
    next_post (f :: ms) (res_iter it) o it').
  { intros o it'. rewrite Hrs. apply next_post_weaken; [|rewrite length_app; lia].
    intros a. apply diff_skip. intros r q Hr [->|Hq]%elem_of_cons; [auto|].
    specialize (Hl1 r Hr). specialize (Hg q Hq). unfold gapped in Hg. rsolve. }
  clearbody rs. destruct rs as [|r rs].
  { eexists _, _. split; [done|]. apply Hskip. apply next_post_fragment; [done|set_solver]. }
  pose proof Hok' as (_ & _ & Hwr & _). apply regions_wf_cons in Hwr as (Hr & _ & Hgr).
  rewrite (end_address_eq f) by done.
  destruct (Z.geb_spec (start_address r) (start_address f + rsize f)) as [Haf|Haf].
  { eexists _, _. split; [done|]. apply Hskip. apply next_post_fragment; [done|].
    intros q [->|Hq]%elem_of_cons; [done|]. specialize (Hgr q Hq). unfold gapped in Hgr. rsolve. }
  rewrite <- (end_address_eq f) by done.
  destruct (consume_fragments f r ms rs Hf Hr) as (cur & Hcur & Hfr).
  destruct (Z.ltb_spec (start_address f) (start_address r)) as [Hsr|Hsr].
  { rewrite from_start_end_address_eq by rsolve. cbn [obind]. rewrite Hcur. cbn [obind].
    eexists _, _. split; [done|]. apply Hskip. by apply next_post_prefix. }
  destruct (IH (mkFreeIter ms rs cur)) as (o & it' & Heq & Hpost).
  { rewrite Hfr. by apply diff_ok_consume. }
  { simpl in *. lia. }
  exists o, it'. split.
  - rewrite <- Heq. clear -Hcur. rewrite Z.geb_leb, Z.leb_antisym.
    destruct (end_address r <? end_address f); simpl.
    + destruct (from_start_end_address _ _); simpl in *; congruence.
    + congruence.
  - apply Hskip. eapply next_post_weaken; [| |exact Hpost].
    + intros a. rewrite Hfr. simpl. rewrite diff_consume by done. intuition lia.
    + rewrite Hfr. pose proof (consume_length f r ms). simpl. lia.
Qed.

Lemma free_collect_spec fuel : forall it,
  diff_ok (fragments it) (res_iter it) -> (iter_size it < fuel)%nat ->
  exists l, free_collect fuel it = Return l /\
    (forall a, covered l a <-> diff (fragments it) (res_iter it) a) /\
    regions_wf l /\ nonempty l.
Proof.
  induction fuel as [|fuel IH]; intros it Hok Hfuel; [lia|]. cbn [free_collect].
  destruct (free_next_spec (S (length (mem_iter it) + length (res_iter it))) it Hok ltac:(lia))
    as (o & it' & -> & Hpost). cbn [obind].
  destruct o as [x|]; simpl in Hpost.
  2: { exists []. split; [done|]. split.
       - intros a. split; [by intros (? & ?%not_elem_of_nil & _)|by intros ?%Hpost].
       - repeat constructor. }
  destruct Hpost as (Hx & Hx0 & Hok' & Hlt & Hdiff & Hlo).
  destruct (IH it' Hok') as (l & -> & Hcov & Hl & Hl0); [unfold iter_size in *; lia|].
  exists (x :: l). split; [done|]. split.
  { intros a. rewrite covered_cons, Hcov, Hdiff. done. }
  split; [|by constructor]. apply regions_wf_cons. split; [done|]. split; [done|].
  intros y Hy. apply Hlo, Hcov. exists y. split; [done|]. pose proof (regions_wf_ok _ y Hl Hy).
  unfold nonempty in Hl0. rewrite list.Forall_forall in Hl0. specialize (Hl0 y Hy). rsolve.
Qed.

(** ** Region lists are canonical *)

Lemma covered_tail x t a : regions_wf (x :: t) -> covered t a <-> covered (x :: t) a /\ ~ a ∈ x.
Proof.
  intros (Hx & Ht & Hg)%regions_wf_cons. rewrite covered_cons. split; [|tauto].
  intros Ha. split; [auto|]. destruct Ha as (q & Hq & Ha). specialize (Hg q Hq).
  unfold gapped in Hg. rsolve.
Qed.

Lemma covered_head_le x t a : regions_wf (x :: t) -> covered (x :: t) a -> start_address x <= a.
Proof.
  intros (Hx & Ht & Hg)%regions_wf_cons [Ha|(q & Hq & Ha)]%covered_cons; [rsolve|].
  specialize (Hg q Hq). unfold gapped in Hg. rsolve.
Qed.

Lemma covered_head_end x t : regions_wf (x :: t) ->
  ~ covered (x :: t) (start_address x + rsize x).
Proof.
  intros (Hx & Ht & Hg)%regions_wf_cons [Ha|(q & Hq & Ha)]%covered_cons; [rsolve|].
  specialize (Hg q Hq). unfold gapped in Hg. rsolve.
Qed.

Lemma head_le_head x t y u :
  regions_wf (x :: t) -> regions_wf (y :: u) -> 0 < rsize x -> 0 < rsize y ->
  (forall a, covered (x :: t) a -> covered (y :: u) a) ->
  start_address y <= start_address x /\
  (start_address x = start_address y -> rsize x <= rsize y).
Proof.
  intros Hx Hy Hx0 Hy0 Hsub.
  assert (start_address y <= start_address x).
  { apply (covered_head_le y u _ Hy), Hsub, covered_cons. left. rsolve. }
  split; [done|]. intros Heq. apply Z.nlt_ge. intros Hlt.
  apply (covered_head_end y u Hy), Hsub, covered_cons. left. rsolve.
Qed.

Lemma regions_canonical rs : forall rs',
  regions_wf rs -> regions_wf rs' -> nonempty rs -> nonempty rs' ->
  (forall a, covered rs a <-> covered rs' a) -> rs = rs'.
Proof.
  assert (Hcov0 : forall x t, 0 < rsize x -> covered (x :: t) (start_address x)).
  { intros x t ?. apply covered_cons. left. rsolve. }
  induction rs as [|x t IH]; intros [|y u] H1 H2 N1 N2 Heq; [done|..].
  - inversion N2; subst. exfalso. by apply (covered_nil (start_address y)), Heq, Hcov0.
  - inversion N1; subst. exfalso. by apply (covered_nil (start_address x)), Heq, Hcov0.
  - inversion N1; inversion N2; subst.
    destruct (head_le_head x t y u) as [A1 A2]; [done..|by intros; apply Heq|].
    destruct (head_le_head y u x t) as [B1 B2]; [done..|by intros; apply Heq|].
    assert (x = y) as ->.
    { destruct x as [sx zx], y as [sy zy]. simpl in *.
      assert (sx = sy) by lia. subst. f_equal. lia. }
    f_equal. apply IH; [by apply regions_wf_cons in H1 as (_ & ? & _)
      |by apply regions_wf_cons in H2 as (_ & ? & _)|done|done|].
    intros a. by rewrite (covered_tail y t), (covered_tail y u), Heq.
Qed.

(** Inserting several regions, one after the other. *)
Fixpoint insert_regions (l : RegionList) (rs : list MemoryRegion) : outcome RegionList :=
  match rs with
  | [] => Return l
  | r :: rs' => let! l := insert_region l r in insert_regions l rs'
  end.

Lemma insert_regions_spec rs : forall l,
  regions_wf (rl_regions l) -> nonempty (rl_regions l) ->
  Forall region_ok rs -> nonempty rs ->
  rl_count l + Z.of_nat (length rs) <= rl_max l ->
  exists l', insert_regions l rs = Return l' /\
    regions_wf (rl_regions l') /\ nonempty (rl_regions l') /\
    rl_max l' = rl_max l /\ rl_ptr l' = rl_ptr l /\
    (forall a, covered (rl_regions l') a <-> covered (rl_regions l) a \/ covered rs a).
Proof.
  induction rs as [|r rs IH]; intros l Hwf Hne Hrs Hrne Hcap; cbn [insert_regions].
  { exists l. do 5 (split; [done|]). intros a. pose proof (covered_nil a). tauto. }
  inversion Hrs; inversion Hrne; subst. simpl in Hcap.
  destruct (insert_region_refines l r)
    as (l1 & -> & Hwf1 & Hmax1 & Hptr1 & Hcnt1 & Hne1 & Hcov1); [done|done|lia|].
  ostep. destruct (IH l1) as (l' & E & ? & ? & ? & ? & Hcov); [done|auto|done|done|lia|].
  exists l'. do 3 (split; [done|]). split; [congruence|]. split; [congruence|].
  intros a. rewrite Hcov, Hcov1, covered_cons. tauto.
Qed.

Lemma covered_perm rs rs' a : rs ≡ₚ rs' -> covered rs a <-> covered rs' a.
Proof. intros Hp. unfold covered. by setoid_rewrite Hp. Qed.

(** The address just past an entry is never covered, so a covered interval lies
    in one entry. *)
Lemma covered_end rs q : regions_wf rs -> q ∈ rs -> ~ covered rs (start_address q + rsize q).
Proof.
  intros Hwf. induction rs as [|x t IH]; [by intros ?%not_elem_of_nil|].
  intros [->|Hq]%elem_of_cons; [by apply covered_head_end|].
  pose proof Hwf as (Hx & Ht & Hg)%regions_wf_cons. rewrite covered_cons.
  intros [Hin|Hin]; [|by apply (IH Ht Hq)].
  pose proof (regions_wf_ok _ q Ht Hq). specialize (Hg q Hq). unfold gapped in Hg. rsolve.
Qed.

Lemma covered_interval rs lo hi : regions_wf rs -> lo < hi ->
  (forall x, lo <= x < hi -> covered rs x) ->
  exists q, q ∈ rs /\ forall x, lo <= x < hi -> x ∈ q.
Proof.
  intros Hwf Hlt Hall. destruct (Hall lo ltac:(lia)) as (q & Hq & Hlo).
  exists q. split; [done|]. intros x Hx.
  assert (hi <= start_address q + rsize q).
  { apply Z.nlt_ge. intros Hlt'. apply (covered_end rs q Hwf Hq), Hall. rsolve. }
  rsolve.
Qed.

(** What a successful allocation leaves behind. *)
Lemma alloc_reserves {T : AddressTranslator} B s sz aln a s' :
  smalloc_ok B s -> permit_region_realloc s = false ->
  0 < sz -> is_power_of_two aln = true -> PAGE_SIZE <= B -> B + aln + sz < 2 ^ 64 ->
  alloc s sz aln = Return (Ok a, s') ->
  smalloc_ok B s' /\ memory s' = memory s /\
  (forall x, covered (rl_regions (res s)) x \/ a <= x < a + sz ->
     covered (rl_regions (res s')) x).
Proof.
  intros Hok Hperm Hsz Haln HB Hmax Halloc.
  destruct (alloc_spec B s sz aln) as (r & s1 & s0 & E & Hpost & Hs0); [done..|].
  rewrite E in Halloc. injection Halloc as -> ->.
  destruct Hpost as (Hok' & Hmem & _ & _ & _ & Hcov).
  destruct Hs0 as [->|[_ Hs0]].
  { split; [done|]. split; [done|]. intros x. by rewrite Hcov. }
  unfold reserve in Hs0. obind_inv. subst s0. destruct Hok as [_ (Hwf & _ & _ & Hcnt & _)].
  assert (Hlt : rl_count (res s) < rl_max (res s)).
  { destruct (decide (rl_count (res s) = rl_max (res s))) as [Heq|]; [|lia].
    unfold insert_region in H. by rewrite Heq, Z.eqb_refl in H. }
  destruct (insert_region_refines (res s) NULL_PAGE_RGN Hwf) as (l & El & _ & _ & _ & _ & _ & Hc);
    [repeat split; vm_compute; done|done|].
  split; [done|]. split; [done|]. intros y Hx. apply Hcov. simpl.
  rewrite El in H. simplify_eq. rewrite Hc. tauto.
Qed.

(** * Theorems *)

(** [insert_region] keeps the list ordered with no two entries touching and
    adds exactly the new region to the set of addresses it stands for, using at
    most one more slot; it never panics while a slot is free. *)
Theorem insert_region_correct l nr :
  regions_wf (rl_regions l) -> region_ok nr -> rl_count l < rl_max l ->
  exists l', insert_region l nr = Return l' /\
    regions_wf (rl_regions l') /\ rl_max l' = rl_max l /\ rl_ptr l' = rl_ptr l /\
    rl_count l' <= rl_count l + 1 /\
    (nonempty (rl_regions l) -> 0 < rsize nr -> nonempty (rl_regions l')) /\
    (forall a, covered (rl_regions l') a <-> covered (rl_regions l) a \/ a ∈ nr).
Proof. apply insert_region_refines. Qed.

Definition demo_list : RegionList :=
  mkRegionList [mkRegion 4096 4096; mkRegion 16384 4096; mkRegion 32768 4096] 8 0.

(** The new region bridges the first two entries. *)
Lemma insert_region_correct_witness :
  exists l', insert_region demo_list (mkRegion 8192 8192) = Return l' /\
    covered (rl_regions l') 12288.
Proof.
  destruct (insert_region_correct demo_list (mkRegion 8192 8192))
    as (l' & E & _ & _ & _ & _ & _ & Hc).
  - split; [repeat constructor; simpl; lia|repeat constructor; unfold gapped; simpl; lia].
  - repeat split; simpl; lia.
  - vm_compute. reflexivity.
  - exists l'. split; [exact E|]. apply Hc. right. split; simpl; lia.
Defined.

(** The list that results from inserting regions does not depend on the order
    in which they are inserted: it is the canonical list of their union. *)
Theorem insert_order_irrelevant l rs rs' :
  regions_wf (rl_regions l) -> nonempty (rl_regions l) ->
  Forall region_ok rs -> nonempty rs -> rs ≡ₚ rs' ->
  rl_count l + Z.of_nat (length rs) <= rl_max l ->
  exists l', insert_regions l rs = Return l' /\ insert_regions l rs' = Return l'.
Proof.
  intros Hwf Hne Hrs Hrne Hp Hcap.
  destruct (insert_regions_spec rs l) as (l1 & E1 & W1 & N1 & M1 & P1 & C1); [done..|].
  destruct (insert_regions_spec rs' l) as (l2 & E2 & W2 & N2 & M2 & P2 & C2);
    [done|done|by rewrite <- Hp|unfold nonempty; by rewrite <- Hp
    |rewrite <- (Permutation_length Hp); done|].
  exists l1. split; [done|]. rewrite E2. f_equal.
  assert (rl_regions l2 = rl_regions l1).
  { apply regions_canonical; [done..|]. intros a. by rewrite C1, C2, (covered_perm rs rs'). }
  destruct l1, l2; simpl in *; congruence.
Qed.

Lemma insert_order_irrelevant_witness :
  exists l', insert_regions demo_list [mkRegion 8192 8192; mkRegion 0 100] = Return l' /\
             insert_regions demo_list [mkRegion 0 100; mkRegion 8192 8192] = Return l'.
Proof.
  apply insert_order_irrelevant.
  - split; [repeat constructor; simpl; lia|repeat constructor; unfold gapped; simpl; lia].
  - repeat constructor; simpl; lia.
  - repeat constructor; simpl; lia.
  - repeat constructor; simpl; lia.
  - apply Permutation_swap.
  - vm_compute. discriminate.
Defined.

Definition demo : Smalloc :=
  mkSmalloc (mkRegionList [mkRegion 0 65536] 8 0)
            (mkRegionList [mkRegion 4096 4096; mkRegion 12288 4096] 8 0) false.

Lemma demo_ok : smalloc_ok 65536 demo.
Proof.
  repeat split; repeat constructor; unfold gapped, rl_count; simpl; lia.
Qed.

(** The first-fit search finds the lowest aligned address at which [sz] bytes
    lie in memory and meet no reservation, and reports none only if there is
    none.  The search ends. *)
Theorem find_allocation_location_lowest B s sz aln :
  smalloc_ok B s -> 0 < sz -> is_power_of_two aln = true -> 0 <= B -> B + aln + sz < 2 ^ 64 ->
  exists o, find_allocation_location s sz aln = Return o /\
    match o with
    | Some a => usable s sz aln a /\ forall a', usable s sz aln a' -> a <= a'
    | None => forall a, ~ usable s sz aln a
    end.
Proof. apply find_allocation_location_spec. Qed.

Lemma find_allocation_location_lowest_witness :
  find_allocation_location demo 8192 4096 = Return (Some 16384) /\
  usable demo 8192 4096 16384 /\ forall a, usable demo 8192 4096 a -> 16384 <= a.
Proof.
  destruct (find_allocation_location_lowest 65536 demo 8192 4096 demo_ok) as (o & E & H);
    [lia|reflexivity|lia|lia|].
  assert (E' : find_allocation_location demo 8192 4096 = Return (Some 16384))
    by (vm_compute; reflexivity).
  rewrite E' in E. injection E as <-. split; [exact E'|exact H].
Defined.

(** C30: [alloc] returns memory that was free: an aligned, non-null block inside a
    memory region and disjoint from every reservation.  It reserves exactly that
    block.  It fails with [NoMemory] only when the reservation list is full or no
    placement exists, and then reserves nothing.  At most the zero page is
    reserved on the way, and only if the block at address 0 would fit. *)
Theorem alloc_correct {T : AddressTranslator} B s sz aln :
  smalloc_ok B s -> permit_region_realloc s = false ->
  0 < sz -> is_power_of_two aln = true -> PAGE_SIZE <= B -> B + aln + sz < 2 ^ 64 ->
  exists r s' s0, alloc s sz aln = Return (r, s') /\ alloc_post B s0 sz aln r s' /\
    (s0 = s \/ usable s sz aln 0 /\ reserve s NULL_PAGE_RGN = Return s0).
Proof. apply alloc_spec. Qed.

Lemma alloc_correct_witness :
  exists s' s0, alloc (T := IdentityTranslator) demo 4096 4096 = Return (Ok 8192, s') /\
    alloc_post 65536 s0 4096 4096 (Ok 8192) s'.
Proof.
  destruct (alloc_correct (T := IdentityTranslator) 65536 demo 4096 4096 demo_ok) as (r & s' & s0 & E & H & _);
    [reflexivity|lia|reflexivity|vm_compute; discriminate|lia|].
  exists s', s0. pose proof E as E'. vm_compute in E'. injection E' as Hr _. subst r.
  split; [exact E|exact H].
Defined.

(** [free] removes exactly the freed block from the reservations when one
    reservation holds it, splitting that reservation as needed.  Otherwise it
    returns [NoMemRegion] and changes nothing. *)
Theorem free_correct {T : AddressTranslator} B s addr sz :
  smalloc_ok B s -> permit_region_realloc s = false ->
  0 < sz -> 0 <= addr -> addr + sz < 2 ^ 64 -> B < 2 ^ 64 ->
  exists r s', free_top s addr sz = Return (r, s') /\ free_post B s addr sz r s'.
Proof. apply free_spec. Qed.

Lemma free_correct_witness :
  exists s', free_top (T := IdentityTranslator) demo 5120 1024 = Return (Ok tt, s') /\
    free_post 65536 demo 5120 1024 (Ok tt) s'.
Proof.
  destruct (free_correct (T := IdentityTranslator) 65536 demo 5120 1024 demo_ok) as (r & s' & E & H);
    [reflexivity|lia|lia|lia|lia|].
  exists s'. pose proof E as E'. vm_compute in E'. injection E' as Hr _. subst r.
  split; [exact E|exact H].
Defined.

(** Freeing a fresh allocation restores the reservation list entry for entry. *)
Theorem alloc_free_roundtrip {T : AddressTranslator} B s sz aln a s' :
  smalloc_ok B s -> permit_region_realloc s = false ->
  0 < sz -> is_power_of_two aln = true -> PAGE_SIZE <= B -> B + aln + sz < 2 ^ 64 ->
  ~ usable s sz aln 0 ->
  alloc s sz aln = Return (Ok a, s') -> requires_reallocation (res s') = false ->
  exists s'', free_top s' a sz = Return (Ok tt, s'') /\
    rl_regions (res s'') = rl_regions (res s) /\ memory s'' = memory s.
Proof.
  intros Hok Hperm Hsz Haln HB Hmax H0 Halloc Hreq.
  assert (Hpow : 0 < aln).
  { apply is_power_of_two_spec in Haln as (k & Hk & ->). by apply pow2_pos. }
  destruct (alloc_spec B s sz aln) as (r & s1 & s0 & E & Hpost & Hs0); [done..|].
  rewrite E in Halloc. injection Halloc as -> ->.
  destruct Hs0 as [->|[? _]]; [|tauto].
  destruct Hpost as (Hok' & Hmem & Hperm' & Hnz & (m & Hm & Hpl) & Hcov).
  destruct Hpl as (_ & Hlo & Hhi & Hfree). destruct Hok as [Hmok (Hwf & Hne & _)].
  pose proof (regions_wf_ok _ m (proj1 Hmok) Hm) as Hmreg.
  assert (start_address m + rsize m <= B).
  { destruct Hmok as (_ & _ & Hb & _). unfold below in Hb. rewrite list.Forall_forall in Hb. auto. }
  destruct (free_spec B s' a sz) as (r & s'' & E' & Hok'' & Hmem'' & Hpost);
    [done|congruence|lia|unfold region_ok in *; lia..|].
  destruct (covered_interval (rl_regions (res s')) a (a + sz)) as (q & Hq & Hin);
    [apply Hok'|lia|intros; apply Hcov; auto|].
  destruct r as [[]|[]]; try (destruct Hpost as (? & ?); congruence).
  - exists s''. split; [done|]. split; [|congruence].
    apply regions_canonical; [apply Hok''|done|apply Hok''|done|].
    intros x. destruct Hpost as [_ ->]. rewrite Hcov. split; [tauto|].
    intros Hx. split; [auto|]. destruct Hx as (y & Hy & Hxy). specialize (Hfree y Hy). rsolve.
  - destruct Hpost as (_ & -> & Hr). congruence.
  - destruct Hpost as (_ & []). eauto.
Qed.

Lemma alloc_free_roundtrip_witness :
  let T := IdentityTranslator in
  exists s' s'', alloc demo 8192 4096 = Return (Ok 16384, s') /\
    free_top s' 16384 8192 = Return (Ok tt, s'') /\
    rl_regions (res s'') = rl_regions (res demo).
Proof.
  intros T. destruct (alloc demo 8192 4096) as [[r s']| |] eqn:E; try discriminate E.
  pose proof E as E'. vm_compute in E'. injection E' as Hr Hs.
  destruct (alloc_free_roundtrip 65536 demo 8192 4096 16384 s' demo_ok)
    as (s'' & E2 & E3 & _); [reflexivity|lia|reflexivity|vm_compute; discriminate|lia|..].
  - intros (m & _ & (_ & _ & _ & Hfree)).
    destruct (Hfree (mkRegion 4096 4096)); [by constructor|simpl in *; lia..].
  - rewrite E, <- Hr. reflexivity.
  - rewrite <- Hs. reflexivity.
  - exists s', s''. rewrite <- Hr. auto.
Defined.

(** Draining [iter_free] ends and yields, in ascending order, non-empty regions
    that do not touch and together are exactly the memory outside the reservations,
    provided no reservation reaches from one memory region into the next. *)
Theorem iter_free_exact s :
  diff_ok (rl_regions (memory s)) (rl_regions (res s)) ->
  exists l, free_collect (S (iter_size (iter_free s))) (iter_free s) = Return l /\
    (forall a, covered l a <->
       covered (rl_regions (memory s)) a /\ ~ covered (rl_regions (res s)) a) /\
    regions_wf l /\ nonempty l.
Proof. intros Hok. apply (free_collect_spec _ (iter_free s)); [done|lia]. Qed.

Lemma demo_diff_ok : diff_ok (rl_regions (memory demo)) (rl_regions (res demo)).
Proof.
  split; [split; repeat constructor; simpl; lia|]. split; [repeat constructor; simpl; lia|].
  split; [split; repeat constructor; unfold gapped; simpl; lia|].
  split; [repeat constructor; simpl; lia|].
  intros r m1 m2 _ ->%list_elem_of_singleton ->%list_elem_of_singleton. unfold gapped. simpl. lia.
Qed.

Lemma iter_free_exact_witness :
  let l := [mkRegion 0 4096; mkRegion 8192 4096; mkRegion 16384 49152] in
  free_collect 4 (iter_free demo) = Return l /\
  (forall a, covered l a <->
     covered (rl_regions (memory demo)) a /\ ~ covered (rl_regions (res demo)) a).
Proof.
  intros l. destruct (iter_free_exact demo demo_diff_ok) as (l' & E & H & _).
  pose proof E as E'. vm_compute in E'. injection E' as <-. split; [exact E|exact H].
Defined.

(** A reservation that covers the end of one memory region and the start of the
    next is consumed with the first: the second region is reported free although
    its first page is reserved. *)
Theorem iter_free_spanning_reservation :
  let s := mkSmalloc (mkRegionList [mkRegion 4096 8192; mkRegion 20480 8192] 8 0)
             (mkRegionList [mkRegion 8192 16384] 8 0) false in
  free_collect 8 (iter_free s) = Return [mkRegion 4096 4096; mkRegion 20480 8192] /\
  covered (rl_regions (res s)) 20480.
Proof.
  split; [vm_compute; reflexivity|]. exists (mkRegion 8192 16384).
  split; [by constructor|split; simpl; lia].
Qed.
