(* ===== verification/Slab.v ===== *)
(** * Slabs: blocks of equal-sized objects

    Models libkernel/src/memory/allocators/slab/slab.rs and slab/mod.rs.  A slab
    keeps its free list inside the free objects: each free object starts with a
    [u16], the index of the next free one.  Memory is a byte store ([Mem]); the
    owner of an allocated object may overwrite all of its bytes, so the free list
    lives in the same memory the clients write to. *)
From stdpp Require Import relations.
From S2P Require Import Prelude Error Address Region.
Local Open Scope Z_scope.

(** ** Memory *)

Definition Mem := Z -> Z.

Definition write_byte (m : Mem) (a v : Z) : Mem := fun x => if x =? a then v else m x.
Definition read_u16 (m : Mem) (a : Z) : Z := m a + 256 * m (a + 1).
Definition write_u16 (m : Mem) (a v : Z) : Mem :=
  write_byte (write_byte m a (v mod 256)) (a + 1) (v / 256).

(** ** slab/mod.rs *)

Record Layout := mkLayout { lsize : Z; lalign : Z }.

Notation SLAB_FRAME_ALLOC_ORDER := (2) (only parsing).
Definition SLAB_SIZE_BYTES : Z := Z.shiftl PAGE_SIZE SLAB_FRAME_ALLOC_ORDER.
Definition SLAB_MAX_OBJ_SHIFT : Z := Z.log2 SLAB_SIZE_BYTES - 1.

Definition alloc_order (layout : Layout) : option Z :=
  let sz := Z.max (lsize layout) (lalign layout) in
  let order := Z.log2 (next_power_of_two sz) in
  if order >? SLAB_MAX_OBJ_SHIFT then None
  else Some (if order =? 0 then 1 else order).

(** ** slab/slab.rs *)

Definition U16_MAX : Z := 65535.
Definition as_u16 (x : Z) : Z := x mod 65536.

Record Slab := mkSlab {
  obj_shift : Z;
  num_free : Z;
  next_free : option Z;
  slab_base : Z
}.

Inductive SlabState : Type := SlabFree | SlabPartial | SlabFull.

#[export] Instance SlabState_eq_dec : EqDecision SlabState.
Proof. solve_decision. Defined.

(** The loop of [Slab::new]: object [i] points at object [i + 1], the last one at
    nothing. *)
Fixpoint write_free_list (n : nat) (num_objs base shift : Z) (m : Mem) : Mem :=
  match n with
  | O => m
  | S n' =>
      let m := write_free_list n' num_objs base shift m in
      let i := Z.of_nat n' in
      write_u16 m (uadd base (umul i (ushl 1 shift)))
        (if i =? num_objs - 1 then U16_MAX else as_u16 (i + 1))
  end.

Definition slab_new {T : AddressTranslator} (alloc_region : MemoryRegion) (shift : Z) (m : Mem)
    : outcome (Slab * Mem) :=
  assert! rsize alloc_region =? SLAB_SIZE_BYTES;
  assert! shift >=? 1;
  assert! shift <=? SLAB_MAX_OBJ_SHIFT;
  let num_objs := Z.shiftr SLAB_SIZE_BYTES shift in
  let va := phys_to_virt (start_address alloc_region) in
  Return (mkSlab shift num_objs (Some 0) va,
          write_free_list (Z.to_nat num_objs) num_objs va shift m).

Notation calc_obj_idx s idx := (add_bytes (slab_base s) (umul idx (ushl 1 (obj_shift s)))) (only parsing).

Definition decode_next (v : Z) : option Z := if v =? U16_MAX then None else Some v.

Definition alloc_object (s : Slab) (m : Mem) : outcome (option Z * Slab) :=
  if num_free s =? 0 then Return (None, s)
  else
    let! nf := unwrap (next_free s) in
    let va := calc_obj_idx s nf in
    Return (Some va, mkSlab (obj_shift s) (usub (num_free s) 1)
                       (decode_next (read_u16 m va)) (slab_base s)).

Definition put_object (s : Slab) (ptr : Z) (m : Mem) : outcome (Slab * Mem) :=
  assert! contains_address (mkRegion (slab_base s) SLAB_SIZE_BYTES) ptr;
  let idx := Z.shiftr (usub ptr (slab_base s)) (obj_shift s) in
  let m := write_u16 m ptr (default U16_MAX (next_free s)) in
  Return (mkSlab (obj_shift s) (uadd (num_free s) 1) (Some (as_u16 idx)) (slab_base s), m).

Definition capacity (s : Slab) : Z := Z.shiftr SLAB_SIZE_BYTES (obj_shift s).

Definition slab_state (s : Slab) : SlabState :=
  if num_free s =? 0 then SlabFull
  else if num_free s =? capacity s then SlabFree
  else SlabPartial.

(** * Correctness *)

(** ** Byte store *)

Definition bytes_at (m m' : Mem) (a : Z) : Prop := m' a = m a /\ m' (a + 1) = m (a + 1).

Lemma read_u16_ext m m' a : bytes_at m m' a -> read_u16 m' a = read_u16 m a.
Proof. intros [H1 H2]. unfold read_u16. by rewrite H1, H2. Qed.

Lemma write_byte_other m a v x : x <> a -> write_byte m a v x = m x.
Proof. intros H. unfold write_byte. by rewrite (proj2 (Z.eqb_neq x a)). Qed.

Lemma read_write_u16 m a v : read_u16 (write_u16 m a v) a = v.
Proof.
  unfold read_u16, write_u16, write_byte.
  rewrite Z.eqb_refl, (proj2 (Z.eqb_neq a (a + 1))), Z.eqb_refl by lia.
  rewrite (Z.div_mod v 256) at 3 by lia. lia.
Qed.

Lemma write_u16_other m a v x : x <> a -> x <> a + 1 -> write_u16 m a v x = m x.
Proof. intros H1 H2. unfold write_u16, write_byte. bcases; lia || done. Qed.

Lemma write_u16_bytes m a v x : x + 1 < a \/ a + 1 < x -> bytes_at m (write_u16 m a v) x.
Proof. intros H. split; apply write_u16_other; lia. Qed.

Lemma read_write_u16_other m a v x : x + 1 < a \/ a + 1 < x ->
  read_u16 (write_u16 m a v) x = read_u16 m x.
Proof. intros H. by apply read_u16_ext, write_u16_bytes. Qed.

(** ** The free list *)

(** Address of object [i] of a slab at [base]. *)
Definition obj (base shift i : Z) : Z := base + i * 2 ^ shift.

Fixpoint links (m : Mem) (base shift : Z) (nf : option Z) (chain : list Z) : Prop :=
  match chain with
  | [] => nf = None
  | i :: t => nf = Some i /\
      links m base shift (decode_next (read_u16 m (obj base shift i))) t
  end.

(** [chain] lists the free objects, in the order they will be handed out. *)
Record slab_inv (m : Mem) (s : Slab) (chain : list Z) : Prop := {
  si_shift : 1 <= obj_shift s <= SLAB_MAX_OBJ_SHIFT;
  si_base : 0 <= slab_base s /\ slab_base s + SLAB_SIZE_BYTES < 2 ^ 64;
  si_count : num_free s = Z.of_nat (length chain);
  si_nodup : NoDup chain;
  si_range : Forall (fun i => 0 <= i < capacity s) chain;
  si_links : links m (slab_base s) (obj_shift s) (next_free s) chain
}.

Lemma SLAB_SIZE_eq : SLAB_SIZE_BYTES = 16384. Proof. reflexivity. Qed.
Lemma SLAB_SHIFT_eq : SLAB_MAX_OBJ_SHIFT = 13. Proof. reflexivity. Qed.

Lemma capacity_eq s : 1 <= obj_shift s <= 13 ->
  capacity s = 2 ^ (14 - obj_shift s) /\ capacity s * 2 ^ obj_shift s = 16384 /\
  2 <= capacity s <= 8192.
Proof.
  intros H. unfold capacity. rewrite SLAB_SIZE_eq, Z.shiftr_div_pow2 by lia.
  assert (E : 16384 = 2 ^ (14 - obj_shift s) * 2 ^ obj_shift s).
  { rewrite <- Z.pow_add_r by lia. by replace (14 - obj_shift s + obj_shift s) with 14 by lia. }
  pose proof (pow2_pos (obj_shift s) ltac:(lia)).
  rewrite E at 1. rewrite Z.div_mul by lia. split; [done|].
  rewrite E at 1. rewrite Z.div_mul by lia. split; [lia|].
  rewrite E, Z.div_mul by lia. split.
  - apply (Z.pow_le_mono_r 2 1); lia.
  - apply (Z.pow_le_mono_r 2 _ 13); lia.
Qed.

(** Distinct objects are at least a [u16] apart, and inside the slab. *)
Lemma obj_apart base shift i j : 1 <= shift -> i <> j ->
  obj base shift i + 1 < obj base shift j \/ obj base shift j + 1 < obj base shift i.
Proof.
  intros Hs Hij. unfold obj.
  assert (2 <= 2 ^ shift) by (apply (Z.pow_le_mono_r 2 1); lia). nia.
Qed.

Lemma obj_in_slab s i : 1 <= obj_shift s <= 13 -> 0 <= i < capacity s ->
  slab_base s <= obj (slab_base s) (obj_shift s) i /\
  obj (slab_base s) (obj_shift s) i + 2 ^ obj_shift s <= slab_base s + 16384.
Proof.
  intros Hs Hi. destruct (capacity_eq s Hs) as (_ & Hcap & _). unfold obj.
  pose proof (pow2_pos (obj_shift s) ltac:(lia)). nia.
Qed.

Lemma calc_obj_idx_eq m s chain i : slab_inv m s chain -> 0 <= i < capacity s ->
  calc_obj_idx s i = obj (slab_base s) (obj_shift s) i.
Proof.
  intros [Hs Hb _ _ _ _] Hi. rewrite SLAB_SHIFT_eq, SLAB_SIZE_eq in *.
  destruct (obj_in_slab s i Hs Hi) as [H1 H2]. unfold add_bytes, obj in *.
  pose proof (pow2_pos (obj_shift s) ltac:(lia)).
  assert (2 ^ obj_shift s <= 2 ^ 13) by (apply Z.pow_le_mono_r; lia).
  rewrite ushl_1 by lia. destruct (capacity_eq s Hs) as (_ & _ & ?).
  rewrite umul_small by nia. rewrite uadd_small by nia. done.
Qed.

(** The free list is a function of the first two bytes of each free object. *)
Lemma links_ext m m' base shift chain : forall nf,
  (forall i, i ∈ chain -> bytes_at m m' (obj base shift i)) ->
  links m base shift nf chain -> links m' base shift nf chain.
Proof.
  induction chain as [|i t IH]; simpl; intros nf Hext; [done|].
  intros [-> Hl]. split; [done|]. rewrite (read_u16_ext m) by (apply Hext; by left).
  apply IH; [|done]. intros j Hj. apply Hext. by right.
Qed.

(** Writes to allocated objects leave the slab intact. *)
Lemma slab_inv_ext m m' s chain :
  (forall i, i ∈ chain -> bytes_at m m' (obj (slab_base s) (obj_shift s) i)) ->
  slab_inv m s chain -> slab_inv m' s chain.
Proof. intros Hext []. split; [done..|]. by apply (links_ext m). Qed.

(** ** Operations *)

Lemma write_free_list_read n num base shift m :
  0 <= base -> 1 <= shift <= 13 -> Z.of_nat n <= num -> base + num * 2 ^ shift < 2 ^ 64 ->
  num <= 8192 ->
  (forall i, 0 <= i < Z.of_nat n ->
     read_u16 (write_free_list n num base shift m) (obj base shift i) =
     if i =? num - 1 then U16_MAX else i + 1) /\
  (forall x, (forall i, 0 <= i < Z.of_nat n -> x < obj base shift i \/ obj base shift i + 1 < x) ->
     write_free_list n num base shift m x = m x).
Proof.
  intros Hb Hs Hn Hmax Hnum. induction n as [|n IH]; [split; [lia|done]|].
  destruct (IH ltac:(lia)) as [IH1 IH2]. cbn [write_free_list].
  pose proof (pow2_pos shift ltac:(lia)).
  assert (2 ^ shift <= 2 ^ 13) by (apply Z.pow_le_mono_r; lia).
  rewrite ushl_1 by lia. rewrite umul_small by nia. rewrite uadd_small by nia.
  change (base + Z.of_nat n * 2 ^ shift) with (obj base shift (Z.of_nat n)).
  split.
  - intros i Hi. destruct (decide (i = Z.of_nat n)) as [->|Hne].
    + rewrite read_write_u16. unfold as_u16. rewrite Z.mod_small by lia. done.
    + rewrite read_write_u16_other by (apply obj_apart; lia). apply IH1. lia.
  - intros x Hx. pose proof (Hx (Z.of_nat n) ltac:(lia)).
    rewrite write_u16_other by lia. apply IH2. intros i Hi. apply Hx. lia.
Qed.

Lemma links_seqZ m base shift num k n :
  num <= 8192 -> 0 <= k -> k + Z.of_nat n = num ->
  (forall i, 0 <= i < num -> read_u16 m (obj base shift i) =
     if i =? num - 1 then U16_MAX else i + 1) ->
  links m base shift (if k =? num then None else Some k) (seqZ k (Z.of_nat n)).
Proof.
  intros Hnum Hk Hn Hread. revert k Hk Hn. induction n as [|n IH]; intros k Hk Hn.
  { simpl. by rewrite (proj2 (Z.eqb_eq k num)) by lia. }
  rewrite seqZ_cons by lia. rewrite (proj2 (Z.eqb_neq k num)) by lia. simpl. split; [done|].
  rewrite Hread by lia. replace (Z.pred (Z.of_nat (S n))) with (Z.of_nat n) by lia.
  specialize (IH (Z.succ k) ltac:(lia) ltac:(lia)).
  replace (decode_next _) with (if Z.succ k =? num then None else Some (Z.succ k)); [done|].
  unfold decode_next. destruct (Z.eqb_spec k (num - 1)).
  - by rewrite (proj2 (Z.eqb_eq (Z.succ k) num)) by lia.
  - rewrite (proj2 (Z.eqb_neq (Z.succ k) num)) by lia. unfold U16_MAX.
    by rewrite (proj2 (Z.eqb_neq (k + 1) 65535)) by lia.
Qed.

Lemma slab_new_spec {T : AddressTranslator} r shift m :
  rsize r = SLAB_SIZE_BYTES -> 1 <= shift <= SLAB_MAX_OBJ_SHIFT ->
  0 <= phys_to_virt (start_address r) ->
  phys_to_virt (start_address r) + SLAB_SIZE_BYTES < 2 ^ 64 ->
  exists s m', slab_new r shift m = Return (s, m') /\
    obj_shift s = shift /\ slab_base s = phys_to_virt (start_address r) /\
    slab_inv m' s (seqZ 0 (capacity s)) /\
    (forall x, x < slab_base s \/ slab_base s + SLAB_SIZE_BYTES <= x -> m' x = m x).
Proof.
  intros Hsz Hs Hva0 Hva. unfold slab_new. rewrite Hsz, Z.eqb_refl.
  rewrite (proj2 (Z.geb_le shift 1)), (proj2 (Z.leb_le shift _)) by lia. ostep.
  set (va := phys_to_virt _) in *. set (num := Z.shiftr SLAB_SIZE_BYTES shift).
  rewrite SLAB_SHIFT_eq, SLAB_SIZE_eq in *.
  assert (Hcn : capacity (mkSlab shift num (Some 0) va) = num) by done.
  destruct (capacity_eq (mkSlab shift num (Some 0) va) Hs) as (Hc1 & Hc2 & Hc3).
  rewrite Hcn in *. simpl in Hc1, Hc2.
  destruct (write_free_list_read (Z.to_nat num) num va shift m) as [Hread Hother]; [lia..|].
  eexists _, _. split; [done|]. do 2 (split; [done|]). split.
  - split; simpl; [rewrite SLAB_SHIFT_eq; lia|rewrite SLAB_SIZE_eq; lia|..].
    + rewrite Hcn, length_seqZ. lia.
    + apply NoDup_seqZ.
    + apply list.Forall_forall. intros i Hi%elem_of_seqZ. lia.
    + rewrite Hcn. pose proof (links_seqZ (write_free_list (Z.to_nat num) num va shift m) va shift num 0
        (Z.to_nat num)) as Hl.
      rewrite Z2Nat.id in * by lia. rewrite (proj2 (Z.eqb_neq 0 num)) in Hl by lia.
      apply Hl; [lia..|exact Hread].
  - simpl. intros x Hx. apply Hother. intros i Hi.
    pose proof (obj_in_slab (mkSlab shift num (Some 0) va) i Hs) as Ho. simpl in Ho.
    assert (2 <= 2 ^ shift) by (apply (Z.pow_le_mono_r 2 1); lia).
    rewrite Hcn in Ho. lia.
Qed.

Lemma slab_inv_count m s chain : slab_inv m s chain -> 0 <= num_free s <= capacity s.
Proof.
  intros [Hs Hb Hc Hnd Hr Hl]. rewrite Hc. split; [lia|]. apply NoDup_range_length; [done|done|].
  rewrite SLAB_SHIFT_eq in Hs. destruct (capacity_eq s Hs) as (_ & _ & ?). lia.
Qed.

Lemma alloc_object_spec m s chain : slab_inv m s chain ->
  match chain with
  | [] => alloc_object s m = Return (None, s)
  | i :: t => exists s', alloc_object s m = Return (Some (obj (slab_base s) (obj_shift s) i), s') /\
      obj_shift s' = obj_shift s /\ slab_base s' = slab_base s /\ slab_inv m s' t
  end.
Proof.
  intros Hinv. pose proof (slab_inv_count m s chain Hinv) as Hcnt.
  pose proof Hinv as [Hs Hb Hc Hnd Hr Hl]. rewrite SLAB_SHIFT_eq in Hs.
  unfold alloc_object. destruct (capacity_eq s Hs) as (_ & _ & Hcap).
  destruct chain as [|i t].
  { by rewrite Hc. }
  rewrite (proj2 (Z.eqb_neq _ 0)) by (rewrite Hc; simpl; lia).
  destruct Hl as [-> Hl]. ostep. inversion Hr; inversion Hnd; subst.
  rewrite (calc_obj_idx_eq m s (i :: t)) by done.
  rewrite usub_small by (rewrite Hc in *; simpl in *; lia).
  eexists. split; [done|]. do 2 (split; [done|]).
  split; simpl; [by rewrite SLAB_SHIFT_eq|done|rewrite Hc; simpl; lia|done..].
Qed.

Lemma put_object_spec m s chain i :
  slab_inv m s chain -> 0 <= i < capacity s -> i ∉ chain ->
  exists s' m', put_object s (obj (slab_base s) (obj_shift s) i) m = Return (s', m') /\
    obj_shift s' = obj_shift s /\ slab_base s' = slab_base s /\ slab_inv m' s' (i :: chain) /\
    (forall x, x < obj (slab_base s) (obj_shift s) i \/
       obj (slab_base s) (obj_shift s) i + 1 < x -> m' x = m x).
Proof.
  intros Hinv Hi Hni. pose proof (slab_inv_count m s chain Hinv) as Hcnt.
  pose proof Hinv as [Hs Hb Hc Hnd Hr Hl]. rewrite SLAB_SHIFT_eq, SLAB_SIZE_eq in *.
  destruct (obj_in_slab s i Hs Hi) as [Ho1 Ho2].
  destruct (capacity_eq s Hs) as (_ & _ & Hcap).
  pose proof (pow2_pos (obj_shift s) ltac:(lia)).
  unfold put_object. rewrite SLAB_SIZE_eq.
  rewrite (proj2 (contains_address_spec (mkRegion (slab_base s) 16384) _ ltac:(rsolve)))
    by (unfold elem_of, region_elem_of; simpl; lia).
  ostep. rewrite usub_small, uadd_small by lia.
  set (p := obj _ _ i) in *.
  assert (Z.shiftr (p - slab_base s) (obj_shift s) = i) as ->.
  { rewrite Z.shiftr_div_pow2 by lia. unfold p, obj.
    replace (slab_base s + i * 2 ^ obj_shift s - slab_base s) with (i * 2 ^ obj_shift s) by lia.
    apply Z.div_mul. lia. }
  unfold as_u16. rewrite (Z.mod_small i) by lia.
  eexists _, _. split; [done|]. do 2 (split; [done|]). split.
  - split; simpl.
    + by rewrite SLAB_SHIFT_eq.
    + by rewrite SLAB_SIZE_eq.
    + rewrite Hc. lia.
    + by constructor.
    + constructor; done.
    + split; [done|]. fold p. rewrite read_write_u16.
      assert (decode_next (default U16_MAX (next_free s)) = next_free s) as ->.
      { destruct (next_free s) as [k|] eqn:Ek; [|done]. simpl. unfold decode_next, U16_MAX.
        destruct chain as [|c chain]; simpl in Hl; [done|]. destruct Hl as [[= <-] _].
        inversion Hr; subst. by rewrite (proj2 (Z.eqb_neq k 65535)) by lia. }
      apply (links_ext m); [|done]. intros j Hj. apply write_u16_bytes.
      assert (j <> i) by congruence. unfold p. apply obj_apart; lia.
  - intros x Hx. apply write_u16_other; lia.
Qed.

(** ** A slab and its clients *)

Record SlabSys := mkSys { sys_mem : Mem; sys_slab : Slab; sys_live : list Z }.

(** Clients allocate, give back what they hold, and write anywhere inside the
    objects they hold. *)
Inductive slab_step : SlabSys -> SlabSys -> Prop :=
| step_alloc m s live p s' :
    alloc_object s m = Return (Some p, s') ->
    slab_step (mkSys m s live) (mkSys m s' (p :: live))
| step_alloc_none m s live s' :
    alloc_object s m = Return (None, s') ->
    slab_step (mkSys m s live) (mkSys m s' live)
| step_put m s l1 p l2 s' m' :
    put_object s p m = Return (s', m') ->
    slab_step (mkSys m s (l1 ++ p :: l2)) (mkSys m' s' (l1 ++ l2))
| step_write m s live p k v :
    p ∈ live -> 0 <= k < 2 ^ obj_shift s ->
    slab_step (mkSys m s live) (mkSys (write_byte m (p + k) v) s live).

(** The objects are shared out between the clients and the free list. *)
Definition sys_inv (y : SlabSys) : Prop :=
  exists chain held, slab_inv (sys_mem y) (sys_slab y) chain /\
    sys_live y = map (obj (slab_base (sys_slab y)) (obj_shift (sys_slab y))) held /\
    held ++ chain ≡ₚ seqZ 0 (capacity (sys_slab y)).

Lemma perm_seqZ_facts held chain n : held ++ chain ≡ₚ seqZ 0 n ->
  NoDup held /\ (forall i, i ∈ held -> 0 <= i < n /\ i ∉ chain) /\
  (length held + length chain = Z.to_nat n)%nat.
Proof.
  intros Hp. assert (Hnd : NoDup (held ++ chain)) by (rewrite Hp; apply NoDup_seqZ).
  apply NoDup_app in Hnd as (Hh & Hd & _). split; [done|]. split.
  - intros i Hi. split; [|by apply Hd].
    assert (i ∈ seqZ 0 n) as ?%elem_of_seqZ; [|lia].
    rewrite <- Hp. apply elem_of_app. by left.
  - rewrite <- length_app, (Permutation_length Hp), length_seqZ. done.
Qed.

Lemma slab_step_inv y y' : slab_step y y' -> sys_inv y -> sys_inv y'.
Proof.
  intros Hstep (chain & held & Hinv & Hlive & Hperm).
  pose proof (perm_seqZ_facts _ _ _ Hperm) as (Hnd & Hheld & _).
  destruct Hstep as [m s live p s' E|m s live s' E|m s l1 p l2 s' m' E|m s live p k v Hp Hk];
    simpl in *.
  - pose proof (alloc_object_spec m s chain Hinv) as Ha. destruct chain as [|i t]; [congruence|].
    destruct Ha as (s1 & E1 & Hsh & Hba & Hinv'). rewrite E1 in E. injection E as <- <-.
    exists t, (i :: held). unfold capacity in *. simpl. rewrite Hsh, Hba. split; [done|].
    split; [by rewrite Hlive|]. rewrite <- Hperm. simpl. apply Permutation_middle.
  - exists chain, held. pose proof (alloc_object_spec m s chain Hinv) as Ha.
    destruct chain; [|destruct Ha as (? & ? & _); congruence]. rewrite Ha in E.
    injection E as <-. done.
  - destruct (map_eq_app _ _ _ _ (eq_sym Hlive)) as (h1 & h2' & -> & <- & Hl2).
    destruct h2' as [|i h2]; [done|]. injection Hl2 as <- <-.
    destruct (Hheld i) as [Hi Hni]; [set_solver|].
    destruct (put_object_spec m s chain i Hinv Hi Hni) as (s1 & m1 & E1 & Hsh & Hba & Hinv' & _).
    rewrite E1 in E. injection E as <- <-.
    exists (i :: chain), (h1 ++ h2). unfold capacity in *. simpl. rewrite Hsh, Hba. split; [done|].
    split; [by rewrite map_app|]. rewrite <- Hperm. solve_Permutation.
  - exists chain, held. split; [|done]. apply (slab_inv_ext m); [|done].
    rewrite Hlive in Hp. apply list_elem_of_fmap in Hp as (i & -> & Hi).
    destruct (Hheld i Hi) as [Hir Hni]. intros j Hj. assert (i <> j) by congruence.
    destruct Hinv as [Hs _ _ _ _ _].
    assert (2 <= 2 ^ obj_shift s) by (apply (Z.pow_le_mono_r 2 1); lia).
    assert (Hne : forall d, 0 <= d <= 1 ->
      obj (slab_base s) (obj_shift s) j + d <> obj (slab_base s) (obj_shift s) i + k).
    { intros d Hd. unfold obj. nia. }
    pose proof (Hne 0 ltac:(lia)). pose proof (Hne 1 ltac:(lia)).
    split; apply write_byte_other; cbn [sys_slab]; lia.
Qed.

(** What the invariant says about the next operation. *)
Definition exclusive_now (m : Mem) (s : Slab) (live : list Z) : Prop :=
  NoDup live /\
  (forall p, p ∈ live -> exists i, 0 <= i < capacity s /\ p = obj (slab_base s) (obj_shift s) i) /\
  num_free s + Z.of_nat (length live) = capacity s /\
  (exists o s', alloc_object s m = Return (o, s') /\
     match o with
     | Some p => p ∉ live /\ exists i, 0 <= i < capacity s /\ p = obj (slab_base s) (obj_shift s) i
     | None => Z.of_nat (length live) = capacity s
     end) /\
  (forall p, p ∈ live -> exists s' m', put_object s p m = Return (s', m')) /\
  slab_state s = (if decide (Z.of_nat (length live) = capacity s) then SlabFull
                  else if decide (live = []) then SlabFree else SlabPartial).

Lemma obj_inj base shift i j : 1 <= shift -> obj base shift i = obj base shift j -> i = j.
Proof. intros Hs He. destruct (decide (i = j)); [done|]. destruct (obj_apart base shift i j); lia. Qed.

Lemma sys_inv_exclusive m s live : sys_inv (mkSys m s live) -> exclusive_now m s live.
Proof.
  intros (chain & held & Hinv & Hlive & Hperm). simpl in *. subst live.
  pose proof (perm_seqZ_facts _ _ _ Hperm) as (Hnd & Hheld & Hlen).
  pose proof Hinv as [Hs Hb Hc Hndc Hr Hl]. rewrite SLAB_SHIFT_eq in Hs.
  destruct (capacity_eq s Hs) as (_ & _ & Hcap).
  assert (Hin : forall i, obj (slab_base s) (obj_shift s) i ∈
     map (obj (slab_base s) (obj_shift s)) held -> i ∈ held).
  { intros i (j & Hj & ?)%list_elem_of_fmap. apply obj_inj in Hj; [by subst|lia]. }
  split; [|split; [|split; [|split; [|split]]]].
  - apply NoDup_fmap_2_strong; [|done]. intros i j _ _. apply obj_inj. lia.
  - intros p (i & -> & Hi)%list_elem_of_fmap. exists i. split; [by apply Hheld|done].
  - rewrite length_map, Hc. lia.
  - pose proof (alloc_object_spec m s chain Hinv) as Ha. destruct chain as [|i t].
    + exists None, s. split; [done|]. rewrite length_map. simpl in Hlen. lia.
    + destruct Ha as (s' & E & _). eexists _, s'. split; [exact E|]. split.
      * intros Hi%Hin. destruct (Hheld i Hi) as [_ []]. by left.
      * inversion Hr; subst. eauto.
  - intros p (i & -> & Hi)%list_elem_of_fmap. destruct (Hheld i Hi) as [Hi1 Hi2].
    destruct (put_object_spec m s chain i Hinv Hi1 Hi2) as (s' & m' & E & _). eauto.
  - unfold slab_state. rewrite length_map. destruct (Z.eqb_spec (num_free s) 0).
    + rewrite decide_True by lia. done.
    + rewrite decide_False by lia. destruct (Z.eqb_spec (num_free s) (capacity s)).
      * rewrite decide_True; [done|]. assert (length held = 0)%nat as ->%nil_length_inv by lia. done.
      * rewrite decide_False; [done|]. intros ->%map_eq_nil. simpl in *. lia.
Qed.

(** C24: a slab never gives an object to two holders.  Whatever the clients write
    into the objects they hold, after any sequence of operations that starts from
    a new slab the held objects are distinct objects of the slab, [num_free] is
    the number of the others, the next allocation gives an object nobody holds
    (or none, when all are held), giving back a held object does not panic, and
    [slab_state] tells empty, full and partly used slabs apart. *)
Theorem slab_objects_exclusive {T : AddressTranslator} r shift m0 s0 m1 m s live :
  rsize r = SLAB_SIZE_BYTES -> 1 <= shift <= SLAB_MAX_OBJ_SHIFT ->
  0 <= phys_to_virt (start_address r) ->
  phys_to_virt (start_address r) + SLAB_SIZE_BYTES < 2 ^ 64 ->
  slab_new r shift m0 = Return (s0, m1) ->
  rtc slab_step (mkSys m1 s0 []) (mkSys m s live) ->
  exclusive_now m s live.
Proof.
  intros Hsz Hs Hva0 Hva Hnew Hreach. apply sys_inv_exclusive.
  destruct (slab_new_spec r shift m0) as (s1 & m1' & E & _ & _ & Hinv0 & _); [done..|].
  rewrite E in Hnew. injection Hnew as <- <-.
  assert (sys_inv (mkSys m1' s1 [])) by (by exists (seqZ 0 (capacity s1)), []).
  revert H. generalize dependent (mkSys m s live). generalize (mkSys m1' s1 []).
  induction 1; eauto using slab_step_inv.
Qed.

(** Two objects of half a slab each: allocate both, scribble over the first, give
    it back, and the next allocation returns it. *)
Lemma slab_objects_exclusive_witness :
  let T := IdentityTranslator in
  exists m s, exclusive_now m s [4096 + 8192].
Proof.
  intros T. destruct (slab_new (mkRegion 4096 16384) 13 (fun _ => 0)) as [[s0 m1]| |] eqn:E0;
    [|vm_compute in E0; discriminate E0..].
  pose proof E0 as E0'. injection E0' as Es0 Em1. subst s0.
  eexists _, _. eapply (slab_objects_exclusive (mkRegion 4096 16384) 13 (fun _ => 0)); [reflexivity|
    vm_compute; split; discriminate|vm_compute; discriminate|reflexivity|exact E0|].
  eapply rtc_l. { apply step_alloc. vm_compute. subst m1. reflexivity. }
  eapply rtc_l. { apply step_alloc. subst m1. vm_compute. reflexivity. }
  eapply rtc_l. { apply (step_write _ _ _ 4096 1 77); [right; left|vm_compute; split; [discriminate|reflexivity]]. }
  eapply rtc_l. { apply (step_put _ _ [12288] 4096 []). vm_compute. reflexivity. }
  apply rtc_refl.
Defined.

(** The size class of a layout is the least class of at least two bytes that is
    large enough for its size and alignment; every object of such a slab, based at
    a multiple of the slab size, is aligned as the layout asks.  Layouts without a
    class are those larger than half a slab. *)
Theorem alloc_order_fits layout :
  0 <= lsize layout -> is_power_of_two (lalign layout) = true ->
  match alloc_order layout with
  | Some o =>
      1 <= o <= SLAB_MAX_OBJ_SHIFT /\ lsize layout <= 2 ^ o /\
      (forall o', 1 <= o' -> Z.max (lsize layout) (lalign layout) <= 2 ^ o' -> o <= o') /\
      (forall base i, base mod SLAB_SIZE_BYTES = 0 -> obj base o i mod lalign layout = 0)
  | None => 2 ^ SLAB_MAX_OBJ_SHIFT < Z.max (lsize layout) (lalign layout)
  end.
Proof.
  intros Hsz Hal. unfold alloc_order. cbv zeta.
  apply is_power_of_two_spec in Hal as (k & Hk & Hal).
  pose proof (pow2_pos k Hk). rewrite SLAB_SHIFT_eq.
  set (sz := Z.max (lsize layout) (lalign layout)).
  assert (Hpos : 0 < sz) by lia. unfold next_power_of_two.
  rewrite Z.log2_pow2 by apply Z.log2_up_nonneg.
  pose proof (Z.log2_up_nonneg sz) as Hnn.
  assert (Hup : sz <= 2 ^ Z.log2_up sz).
  { destruct (Z.eq_dec sz 1) as [->|]; [done|]. apply Z.log2_up_spec. lia. }
  assert (Hleast : forall o', 0 <= o' -> sz <= 2 ^ o' -> Z.log2_up sz <= o').
  { intros o' Ho' Hle. apply Z.log2_up_le_mono in Hle. rewrite Z.log2_up_pow2 in Hle; done. }
  destruct (Z.gtb_spec (Z.log2_up sz) 13) as [Hgt|Hle].
  { apply Z.nle_gt. intros Hle%Hleast; lia. }
  set (o := if Z.log2_up sz =? 0 then 1 else Z.log2_up sz).
  assert (Ho : 1 <= o <= 13 /\ Z.log2_up sz <= o) by (unfold o; bcases; lia).
  assert (Hso : sz <= 2 ^ o).
  { etransitivity; [exact Hup|]. apply Z.pow_le_mono_r; lia. }
  split; [lia|]. split; [lia|]. split.
  - intros o' Ho' Hle'. apply Hleast in Hle'; [|lia]. unfold o. bcases; lia.
  - intros base i Hb. rewrite SLAB_SIZE_eq in Hb. rewrite Hal.
    assert (k <= o).
    { apply (Z.pow_le_mono_r_iff 2); lia. }
    apply Z.mod_divide; [lia|]. unfold obj. apply Z.divide_add_r.
    + apply (Z.divide_trans _ (2 ^ 14)); [apply pow2_divide; lia|]. by apply Z.mod_divide.
    + apply Z.divide_mul_r, pow2_divide. lia.
Qed.

Lemma alloc_order_fits_witness :
  alloc_order (mkLayout 24 64) = Some 6 /\ forall base i, base mod SLAB_SIZE_BYTES = 0 ->
    obj base 6 i mod 64 = 0.
Proof.
  split; [reflexivity|].
  apply (alloc_order_fits (mkLayout 24 64)); [simpl; lia|reflexivity].
Defined.
