(* ===== verification/Phys.v ===== *)
(** * The buddy allocator of physical page frames

    Models libkernel/src/memory/allocators/frame.rs and phys.rs.  The frame
    metadata array is a finite map from page frame number to [Frame]; a reference
    to a frame is its number.  The free lists are intrusive linked lists of an
    external crate: they enter through the interface [IntrusiveList], with the
    behaviour its documentation gives as [IntrusiveListLaws].  The lock around the
    allocator state makes each operation atomic, so operations are functions from
    state to state; an RAII guard ([PageAllocation]) is its region. *)
From stdpp Require Import gmap.
From S2P Require Import Prelude Error Address Region Smalloc Slab.
Local Open Scope Z_scope.

(** ** Intrusive lists of frames *)

Class IntrusiveList (L : Type) := {
  ll_new : L;
  push_front : L -> Z -> L;
  pop_front : L -> option (Z * L);
  cursor_remove : L -> Z -> option L;
  ll_iter : L -> list Z
}.

Class IntrusiveListLaws (L : Type) `{IntrusiveList L} : Prop := {
  ll_iter_new : ll_iter ll_new = [];
  ll_iter_push : forall l x, ll_iter (push_front l x) = x :: ll_iter l;
  ll_pop_nil : forall l, ll_iter l = [] -> pop_front l = None;
  ll_pop_cons : forall l x t, ll_iter l = x :: t ->
    exists l', pop_front l = Some (x, l') /\ ll_iter l' = t;
  ll_remove_spec : forall l x l1 l2, ll_iter l = l1 ++ x :: l2 -> NoDup (ll_iter l) ->
    exists l', cursor_remove l x = Some l' /\ ll_iter l' = l1 ++ l2
}.

(** Plain lists are such lists. *)
Fixpoint list_remove_first (x : Z) (l : list Z) : option (list Z) :=
  match l with
  | [] => None
  | y :: t => if x =? y then Some t
              else match list_remove_first x t with Some t' => Some (y :: t') | None => None end
  end.

Definition list_IntrusiveList : IntrusiveList (list Z) :=
  {| ll_new := []; push_front := fun l x => x :: l;
     pop_front := fun l => match l with [] => None | x :: t => Some (x, t) end;
     cursor_remove := fun l x => list_remove_first x l;
     ll_iter := fun l => l |}.

Lemma list_IntrusiveListLaws : IntrusiveListLaws (list Z) (H := list_IntrusiveList).
Proof.
  split; simpl; [done|done|by intros ? ->|intros l x t ->; eauto|].
  intros l x l1 l2 -> Hnd. exists (l1 ++ l2). split; [|done].
  induction l1 as [|y l1 IH]; simpl in *; [by rewrite Z.eqb_refl|].
  inversion Hnd; subst. rewrite (proj2 (Z.eqb_neq x y)) by set_solver.
  by rewrite IH.
Qed.

(** ** frame.rs *)

Record AllocatedInfo := mkAllocated { ref_count : Z; order : Z }.

Inductive FrameState : Type :=
| Uninitialized
| Free (order : Z)
| AllocatedHead (info : AllocatedInfo)
| AllocatedTail (head : Z)
| SlabFrame (slab : Slab)
| Kernel.

(** [link] tells whether the frame sits in a list ([LinkedListLink::is_linked]). *)
Record Frame := mkFrame { state : FrameState; link : bool }.

Definition frame_new : Frame := mkFrame Uninitialized false.

Definition MAX_ORDER : Z := 10.

(** ** State *)

Section Phys.
Context {L : Type} `{IntrusiveList L}.

(** [frame_list] is [base_page], [total_pages] and the array behind it. *)
Record FrameAllocatorInner := mkFA {
  frames : gmap Z Frame;
  base_page : Z;
  total_pages : Z;
  free_pages : Z;
  free_lists : list L
}.

Definition set_frames (s : FrameAllocatorInner) (f : gmap Z Frame) : FrameAllocatorInner :=
  mkFA f (base_page s) (total_pages s) (free_pages s) (free_lists s).
Definition set_free_pages (s : FrameAllocatorInner) (n : Z) : FrameAllocatorInner :=
  mkFA (frames s) (base_page s) (total_pages s) n (free_lists s).
Definition set_free_list (s : FrameAllocatorInner) (o : Z) (l : L) : FrameAllocatorInner :=
  mkFA (frames s) (base_page s) (total_pages s) (free_pages s)
    (<[Z.to_nat o := l]> (free_lists s)).

(** [pfn_to_index] checks the bounds of every access. *)
Definition get_frame (s : FrameAllocatorInner) (pfn : Z) : outcome Frame :=
  assert! pfn >=? base_page s;
  let offset := usub pfn (base_page s) in
  assert! offset <? total_pages s;
  unwrap (frames s !! pfn).

(** [get_frame_mut(pfn).state = st] *)
Definition set_state (s : FrameAllocatorInner) (pfn : Z) (st : FrameState)
    : outcome FrameAllocatorInner :=
  let! f := get_frame s pfn in
  Return (set_frames s (<[pfn := mkFrame st (link f)]> (frames s))).

Definition set_link (s : FrameAllocatorInner) (pfn : Z) (b : bool) : outcome FrameAllocatorInner :=
  let! f := get_frame s pfn in
  Return (set_frames s (<[pfn := mkFrame (state f) b]> (frames s))).

(** The array index is checked; pushing a linked frame panics. *)
Definition add_to_free_list (s : FrameAllocatorInner) (pfn o : Z) : outcome FrameAllocatorInner :=
  let! f := get_frame s pfn in
  let! l := unwrap (free_lists s !! Z.to_nat o) in
  assert! negb (link f);
  let! s := set_link s pfn true in
  Return (set_free_list s o (push_front l pfn)).

Definition remove_from_free_list (s : FrameAllocatorInner) (pfn o : Z)
    : outcome FrameAllocatorInner :=
  let! _f := get_frame s pfn in
  let! l := unwrap (free_lists s !! Z.to_nat o) in
  let! l' := unwrap (cursor_remove l pfn) in
  let! s := set_link (set_free_list s o l') pfn false in
  set_state s pfn Uninitialized.

(** ** free_frames *)

(** The [for order in initial_order..MAX_ORDER] loop; returns the block it ends
    with. *)
Fixpoint merge_buddies (orders : list Z) (s : FrameAllocatorInner) (current_pfn merged_order : Z)
    : outcome (FrameAllocatorInner * Z * Z) :=
  match orders with
  | [] => Return (s, current_pfn, merged_order)
  | o :: orders' =>
      let buddy_pfn := buddy current_pfn o in
      if (buddy_pfn <? base_page s) || (buddy_pfn >=? uadd (base_page s) (total_pages s))
      then Return (s, current_pfn, merged_order)
      else
        let! f := get_frame s buddy_pfn in
        match state f with
        | Free buddy_order =>
            if buddy_order =? o then
              let! s := remove_from_free_list s buddy_pfn o in
              merge_buddies orders' s (Z.min current_pfn buddy_pfn) (merged_order + 1)
            else Return (s, current_pfn, merged_order)
        | _ => Return (s, current_pfn, merged_order)
        end
  end.

Definition free_frames (s : FrameAllocatorInner) (region : MemoryRegion)
    : outcome FrameAllocatorInner :=
  let head_pfn := to_pfn (start_address region) in
  let! f := get_frame s head_pfn in
  match state f with
  | AllocatedHead info =>
      if ref_count info >? 1 then
        set_state s head_pfn (AllocatedHead (mkAllocated (ref_count info - 1) (order info)))
      else
        let initial_order := order info in
        let! s := set_state s head_pfn Uninitialized in
        let! (s, current_pfn, merged_order) :=
          merge_buddies (seqZ initial_order (MAX_ORDER - initial_order)) s head_pfn initial_order in
        let! s := set_state s current_pfn (Free merged_order) in
        let! s := add_to_free_list s current_pfn merged_order in
        Return (set_free_pages s (uadd (free_pages s) (ushl 1 initial_order)))
  | _ => Panic
  end.

(** [free_slab] asserts that the frame is a slab and gives it back whole. *)
Definition free_slab (s : FrameAllocatorInner) (pfn : Z) : outcome FrameAllocatorInner :=
  let! f := get_frame s pfn in
  match state f with
  | SlabFrame _ =>
      let! s := set_state s pfn (AllocatedHead (mkAllocated 1 SLAB_FRAME_ALLOC_ORDER)) in
      free_frames s (mkRegion (pa pfn) SLAB_SIZE_BYTES)
  | _ => Panic
  end.

(** ** PageAllocation *)

(** The count of shared owners is a [u32]. *)
Definition page_alloc_clone (s : FrameAllocatorInner) (region : MemoryRegion)
    : outcome FrameAllocatorInner :=
  let pfn := to_pfn (start_address region) in
  let! f := get_frame s pfn in
  match state f with
  | AllocatedHead info =>
      set_state s pfn
        (AllocatedHead (mkAllocated ((ref_count info + 1) mod 2 ^ 32) (order info)))
  | _ => Panic
  end.

Definition page_alloc_drop (s : FrameAllocatorInner) (region : MemoryRegion)
    : outcome FrameAllocatorInner := free_frames s region.

Definition into_slab (s : FrameAllocatorInner) (region : MemoryRegion) (slab_info : Slab)
    : outcome FrameAllocatorInner :=
  set_state s (to_pfn (start_address region)) (SlabFrame slab_info).

(** ** alloc_frames *)

(** The first order of [orders] with a free block; the block is unlinked. *)
Fixpoint pop_block (orders : list Z) (s : FrameAllocatorInner)
    : outcome (option (Z * Z) * FrameAllocatorInner) :=
  match orders with
  | [] => Return (None, s)
  | o :: orders' =>
      let! l := unwrap (free_lists s !! Z.to_nat o) in
      match pop_front l with
      | Some (pfn, l') =>
          let! s := set_link (set_free_list s o l') pfn false in
          Return (Some (pfn, o), s)
      | None => pop_block orders' s
      end
  end.

(** The [while current_order > requested_order] loop, [n] levels deep. *)
Fixpoint split_block (n : nat) (s : FrameAllocatorInner) (block_pfn current_order : Z)
    : outcome FrameAllocatorInner :=
  match n with
  | O => Return s
  | S n' =>
      let current_order := current_order - 1 in
      let bd := buddy block_pfn current_order in
      let! s := set_state s bd (Free current_order) in
      let! s := add_to_free_list s bd current_order in
      split_block n' s block_pfn current_order
  end.

Fixpoint mark_tails (idxs : list Z) (s : FrameAllocatorInner) (block_pfn : Z)
    : outcome FrameAllocatorInner :=
  match idxs with
  | [] => Return s
  | i :: idxs' =>
      let! s := set_state s (pf_add_pages block_pfn i) (AllocatedTail block_pfn) in
      mark_tails idxs' s block_pfn
  end.

Definition alloc_frames (s : FrameAllocatorInner) (requested_order : Z)
    : outcome (result MemoryRegion * FrameAllocatorInner) :=
  if requested_order >? MAX_ORDER then Return (Err InvalidValue, s)
  else
    let! (found, s) :=
      pop_block (seqZ requested_order (MAX_ORDER - requested_order + 1)) s in
    match found with
    | None => Return (Err NoMemory, s)
    | Some (block_pfn, current_order) =>
        let! s := set_state s block_pfn Uninitialized in
        let! s := split_block (Z.to_nat (current_order - requested_order)) s
                    block_pfn current_order in
        let! s := set_state s block_pfn (AllocatedHead (mkAllocated 1 requested_order)) in
        let num_pages_in_block := ushl 1 requested_order in
        let! s := mark_tails (seqZ 1 (num_pages_in_block - 1)) s block_pfn in
        let s := set_free_pages s (usub (free_pages s) num_pages_in_block) in
        Return (Ok (mkRegion (pa block_pfn) (ushl num_pages_in_block PAGE_SHIFT)), s)
    end.

Definition is_allocated (s : FrameAllocatorInner) (pfn : Z) : outcome bool :=
  let! f := get_frame s pfn in
  Return match state f with AllocatedHead _ | AllocatedTail _ => true | _ => false end.

(** The [loop] follows tails to their head. *)
Fixpoint follow_head (fuel : nat) (s : FrameAllocatorInner) (pfn : Z) : outcome bool :=
  match fuel with
  | O => OutOfFuel
  | S fuel' =>
      let! f := get_frame s pfn in
      match state f with
      | AllocatedTail head => follow_head fuel' s head
      | AllocatedHead info => Return (ref_count info =? 1)
      | _ => Return false
      end
  end.
(** A head lies below its tails, so [total_pages] rounds are enough. *)
Definition is_allocated_exclusive (s : FrameAllocatorInner) (pfn : Z) : outcome bool :=
  follow_head (S (Z.to_nat (total_pages s))) s pfn.

(** ** Initialisation *)

(** The [while] loop of [populate_free_region], one block per round. *)
Fixpoint populate_blocks (n : nat) (s : FrameAllocatorInner) (current_pfn end_pfn : Z)
    : outcome FrameAllocatorInner :=
  match n with
  | O => OutOfFuel
  | S n' =>
      if uadd current_pfn (ushl 1 MAX_ORDER) <=? end_pfn then
        let! f := get_frame s current_pfn in
        let! s :=
          match state f with
          | Kernel => Return s
          | _ =>
              let! s := set_state s current_pfn (Free MAX_ORDER) in
              let! s := add_to_free_list s current_pfn MAX_ORDER in
              Return (set_free_pages s (uadd (free_pages s) (ushl 1 MAX_ORDER)))
          end in
        populate_blocks n' s (uadd current_pfn (ushl 1 MAX_ORDER)) end_pfn
      else Return s
  end.

Definition populate_free_region (s : FrameAllocatorInner) (region : MemoryRegion)
    : outcome FrameAllocatorInner :=
  let! aligned_start := align_up (start_address region) (ushl 1 (MAX_ORDER + PAGE_SHIFT)) in
  let e := end_address region in
  if aligned_start >=? e then Return s
  else
    populate_blocks (S (Z.to_nat (to_pfn e - to_pfn aligned_start))) s
      (to_pfn aligned_start) (to_pfn e).

Fixpoint populate_regions (s : FrameAllocatorInner) (rs : list MemoryRegion)
    : outcome FrameAllocatorInner :=
  match rs with
  | [] => Return s
  | r :: rs' => let! s := populate_free_region s r in populate_regions s rs'
  end.

(** Mark the managed frames of [pfns] as the kernel's. *)
Fixpoint mark_kernel (s : FrameAllocatorInner) (pfns : list Z) : outcome FrameAllocatorInner :=
  match pfns with
  | [] => Return s
  | pfn :: pfns' =>
      let! s :=
        if (pfn >=? base_page s) && (pfn <? uadd (base_page s) (total_pages s))
        then set_state s pfn Kernel else Return s in
      mark_kernel s pfns'
  end.

Fixpoint mark_reserved (s : FrameAllocatorInner) (res_regions : list MemoryRegion)
    (managed_region : MemoryRegion) : outcome FrameAllocatorInner :=
  match res_regions with
  | [] => Return s
  | r :: rs' =>
      let! s := if overlaps r managed_region then mark_kernel s (iter_pfns r) else Return s in
      mark_reserved s rs' managed_region
  end.

Section Init.
Context {T : AddressTranslator}.
(** [size_of::<Frame>()] and [align_of::<Frame>()]. *)
Variables sizeof_Frame alignof_Frame : Z.

(** The metadata array is carved out of [smalloc] and every frame initialised;
    [expect] on the allocation panics. *)
Definition setup (sm : Smalloc) (managed_region : MemoryRegion)
    : outcome (FrameAllocatorInner * Smalloc) :=
  let lowest_addr := start_address managed_region in
  let total := Z.shiftr (rsize managed_region) PAGE_SHIFT in
  let metadata_size := umul total sizeof_Frame in
  let! (r, sm) := alloc sm metadata_size alignof_Frame in
  match r with
  | Err _ => Panic
  | Ok _metadata_addr =>
      let base := to_pfn lowest_addr in
      let fs : gmap Z Frame :=
        list_to_map (map (fun i => (uadd base i, frame_new)) (seqZ 0 total)) in
      let s := mkFA fs base total 0 (replicate (Z.to_nat MAX_ORDER + 1) ll_new) in
      let! s := mark_reserved s (rl_regions (res sm)) managed_region in
      Return (s, sm)
  end.

Definition init (sm : Smalloc) : outcome FrameAllocatorInner :=
  let! o := base_ram_base_address sm in
  let! st := unwrap o in
  let! lst := unwrap (last (rl_regions (memory sm))) in
  let! managed := from_start_end_address st (end_address lst) in
  let! (s, sm) := setup sm managed in
  let! free_regions := free_collect (S (length (rl_regions (memory sm)) +
      length (rl_regions (res sm)))) (iter_free sm) in
  populate_regions s free_regions.

Definition init_from_region (sm : Smalloc) (region : MemoryRegion)
    : outcome (FrameAllocatorInner * Smalloc) :=
  let! (r, sm) := claim_region sm region in
  match r with
  | Err _ => Panic
  | Ok _ =>
      let! (s, sm) := setup sm region in
      let! s := populate_free_region s region in
      Return (s, sm)
  end.
End Init.
End Phys.
