(* ===== verification/PhysInv.v ===== *)
(** * Correctness of the buddy allocator

    The invariant of the state of Phys.v, its preservation by every operation, and
    the theorems about allocation, freeing, coalescing and page accounting. *)
From stdpp Require Import gmap.
From S2P Require Import Prelude Error Address Region Smalloc Slab Phys.
Local Open Scope Z_scope.

(** ** Buddies *)

Lemma buddy_cases p o : 0 <= p -> 0 <= o < 64 -> p mod 2 ^ o = 0 ->
  (p mod 2 ^ (o + 1) = 0 /\ buddy p o = p + 2 ^ o) \/
  ((p - 2 ^ o) mod 2 ^ (o + 1) = 0 /\ 2 ^ o <= p /\ buddy p o = p - 2 ^ o).
Proof.
  intros Hp Ho Hm. unfold buddy. rewrite ushl_1, lxor_pow2 by lia.
  pose proof (pow2_pos o ltac:(lia)) as Hpos.
  apply Z.mod_divide in Hm as [a ->]; [|lia].
  rewrite Z.mul_pow2_bits by lia. rewrite Z.sub_diag, Z.bit0_odd.
  rewrite Z.pow_add_r, Z.pow_1_r by lia.
  destruct (Z.odd a) eqn:E.
  - right. apply Z.odd_spec in E as [b ->].
    assert (0 <= b) by nia. split; [|split; [nia|done]].
    replace ((2 * b + 1) * 2 ^ o - 2 ^ o) with (b * (2 ^ o * 2)) by lia. apply Z.mod_mul. lia.
  - left. rewrite <- Z.negb_even in E. apply negb_false_iff, Z.even_spec in E as [b ->].
    split; [|done]. replace (2 * b * 2 ^ o) with (b * (2 ^ o * 2)) by lia. apply Z.mod_mul. lia.
Qed.

Lemma buddy_involutive p o : 0 <= p -> 0 <= o < 64 -> buddy (buddy p o) o = p.
Proof.
  intros Hp Ho. unfold buddy.
  by rewrite Z.lxor_assoc, Z.lxor_nilpotent, Z.lxor_0_r.
Qed.

(** An aligned block and its buddy make up an aligned block of twice the size. *)
Lemma buddy_merge p o : 0 <= p -> 0 <= o < 64 -> p mod 2 ^ o = 0 ->
  buddy p o <> p /\ 0 <= buddy p o /\ buddy p o mod 2 ^ o = 0 /\
  Z.min p (buddy p o) mod 2 ^ (o + 1) = 0 /\
  Z.max p (buddy p o) = Z.min p (buddy p o) + 2 ^ o.
Proof.
  intros Hp Ho Hm. pose proof (pow2_pos o ltac:(lia)) as Hpos.
  assert (Hd : forall x, x mod 2 ^ (o + 1) = 0 -> x mod 2 ^ o = 0).
  { intros x. apply pow2_divide_mod. lia. }
  destruct (buddy_cases p o Hp Ho Hm) as [[H1 ->]|(H1 & H2 & ->)].
  - rewrite Z.min_l, Z.max_r by lia. repeat split; try lia; try done.
    rewrite Zplus_mod, Hm, Z_mod_same_full. done.
  - rewrite Z.min_r, Z.max_l by lia. repeat split; try lia; auto.
Qed.

(** Two aligned blocks that meet: the larger contains the smaller. *)
Lemma aligned_nested p o q o' : 0 <= o <= o' -> p mod 2 ^ o = 0 -> q mod 2 ^ o' = 0 ->
  q < p + 2 ^ o -> p < q + 2 ^ o' -> q <= p /\ p + 2 ^ o <= q + 2 ^ o'.
Proof.
  intros Ho Hp Hq H1 H2. apply (pow2_divide_mod q o o' ltac:(lia)) in Hq as Hq'.
  pose proof (pow2_pos o ltac:(lia)) as Hpos.
  apply Z.mod_divide in Hp as [a ->]; [|lia]. apply Z.mod_divide in Hq' as [b ->]; [|lia].
  destruct (pow2_divide o o' ltac:(lia)) as [d Hd]. rewrite Hd in *. clear Hd Hq.
  generalize dependent (2 ^ o). intros K ? ? ?.
  assert (b <= a) by nia. assert (a + 1 <= b + d) by nia. split; nia.
Qed.

Section Inv.
Context {L : Type} `{IntrusiveListLaws L}.
Notation FA := (@FrameAllocatorInner L).

Definition st (s : FA) (p : Z) : option FrameState := state <$> frames s !! p.

Definition fl (s : FA) (o : Z) : list Z :=
  match free_lists s !! Z.to_nat o with Some l => ll_iter l | None => [] end.

(** The order of the block a frame heads, if it heads one. *)
Definition block_order (x : FrameState) : option Z :=
  match x with
  | Free o => Some o
  | AllocatedHead info => Some (order info)
  | SlabFrame _ => Some SLAB_FRAME_ALLOC_ORDER
  | _ => None
  end.

Definition block (s : FA) (p o : Z) : Prop := exists x, st s p = Some x /\ block_order x = Some o.

Definition disjoint_blocks (p o q o' : Z) : Prop := p + 2 ^ o <= q \/ q + 2 ^ o' <= p.

Definition fits (s : FA) (p o : Z) : Prop :=
  0 <= o <= MAX_ORDER /\ p mod 2 ^ o = 0 /\ base_page s <= p /\ p + 2 ^ o <= base_page s + total_pages s.

Record inv (s : FA) : Prop := {
  i_geom : 0 <= base_page s /\ 0 <= total_pages s /\ base_page s + total_pages s < 2 ^ 52;
  i_dom : forall p, is_Some (frames s !! p) <-> base_page s <= p < base_page s + total_pages s;
  i_lists : length (free_lists s) = 11%nat;
  i_fits : forall p o, block s p o -> fits s p o;
  i_disj : forall p o q o', block s p o -> block s q o' -> p <> q -> disjoint_blocks p o q o';
  i_fl : forall p o, 0 <= o <= MAX_ORDER -> p ∈ fl s o <-> st s p = Some (Free o);
  i_nodup : forall o, 0 <= o <= MAX_ORDER -> NoDup (fl s o);
  i_link : forall p f, frames s !! p = Some f ->
    match state f with Free _ => link f = true | SlabFrame _ => True | _ => link f = false end;
  i_coal : forall p o, st s p = Some (Free o) -> o < MAX_ORDER ->
    st s (buddy p o) <> Some (Free o);
  i_kernel : forall p o q, block s p o -> p <= q < p + 2 ^ o -> st s q <> Some Kernel
}.

(** An aligned range with no block in it. *)
Definition hole (s : FA) (p o : Z) : Prop :=
  fits s p o /\
  (forall q o', block s q o' -> disjoint_blocks p o q o') /\
  (forall q, p <= q < p + 2 ^ o -> st s q <> Some Kernel).

Lemma st_frame s p x : st s p = Some x <-> exists f, frames s !! p = Some f /\ state f = x.
Proof. unfold st. rewrite fmap_Some. naive_solver. Qed.

Lemma st_insert s s' p f q : frames s' = <[p := f]> (frames s) ->
  st s' q = if decide (q = p) then Some (state f) else st s q.
Proof.
  intros Hf. unfold st. rewrite Hf. destruct (decide (q = p)) as [->|Hne].
  - by rewrite lookup_insert_eq.
  - by rewrite lookup_insert_ne.
Qed.

(** One frame changes: what has to hold of its new state. *)
Record ok_update (s s' : FA) (p : Z) (x : FrameState) (lk : bool) : Prop := {
  u_frames : frames s' = <[p := mkFrame x lk]> (frames s);
  u_base : base_page s' = base_page s;
  u_total : total_pages s' = total_pages s;
  u_range : base_page s <= p < base_page s + total_pages s;
  u_lists : length (free_lists s') = 11%nat;
  u_fl : forall q o, 0 <= o <= MAX_ORDER ->
    q ∈ fl s' o <-> if decide (q = p) then x = Free o else q ∈ fl s o;
  u_nodup : forall o, 0 <= o <= MAX_ORDER -> NoDup (fl s' o);
  u_link : match x with Free _ => lk = true | SlabFrame _ => True | _ => lk = false end;
  u_coal : forall o, x = Free o -> o < MAX_ORDER -> st s (buddy p o) <> Some (Free o);
  u_block : forall o, block_order x = Some o -> fits s p o /\
    (forall q o', q <> p -> block s q o' -> disjoint_blocks p o q o') /\
    (forall q, q <> p -> p <= q < p + 2 ^ o -> st s q <> Some Kernel);
  u_kernel : x <> Kernel
}.

Lemma block_update s s' p x lk q o : frames s' = <[p := mkFrame x lk]> (frames s) ->
  block s' q o <-> if decide (q = p) then block_order x = Some o else block s q o.
Proof.
  intros Hf. unfold block. rewrite (st_insert s s' p _ q Hf). simpl.
  destruct (decide (q = p)); naive_solver.
Qed.

Lemma disjoint_blocks_sym p o q o' : disjoint_blocks p o q o' -> disjoint_blocks q o' p o.
Proof. unfold disjoint_blocks. tauto. Qed.

Lemma inv_update s s' p x lk : inv s -> ok_update s s' p x lk -> inv s'.
Proof.
  intros I U. pose proof (u_frames _ _ _ _ _ U) as Hf.
  pose proof (fun q o => block_update s s' p x lk q o Hf) as Hb.
  pose proof (fun q => st_insert s s' p _ q Hf) as Hst. simpl in Hst.
  assert (Hfit : forall q o, fits s q o -> fits s' q o).
  { unfold fits. by rewrite (u_base _ _ _ _ _ U), (u_total _ _ _ _ _ U). }
  split.
  - rewrite (u_base _ _ _ _ _ U), (u_total _ _ _ _ _ U). apply I.
  - intros q. rewrite (u_base _ _ _ _ _ U), (u_total _ _ _ _ _ U), Hf, <- (i_dom s I).
    destruct (decide (q = p)) as [->|].
    + rewrite lookup_insert_eq, (i_dom s I). pose proof (u_range _ _ _ _ _ U). naive_solver.
    + by rewrite lookup_insert_ne.
  - apply U.
  - intros q o. rewrite Hb. destruct (decide (q = p)) as [->|].
    + intros Ho. by apply Hfit, (u_block _ _ _ _ _ U).
    + intros Ho. by apply Hfit, (i_fits s I).
  - intros q o r o'. rewrite !Hb. destruct (decide (q = p)) as [->|]; destruct (decide (r = p)) as [->|].
    + done.
    + intros Ho Hr _. by apply (u_block _ _ _ _ _ U).
    + intros Hq Ho _. apply disjoint_blocks_sym. by apply (u_block _ _ _ _ _ U).
    + apply (i_disj s I).
  - intros q o Ho. rewrite (u_fl _ _ _ _ _ U), Hst by done. destruct (decide (q = p)).
    + naive_solver.
    + by apply (i_fl s I).
  - apply U.
  - intros q f. rewrite Hf. destruct (decide (q = p)) as [->|].
    + rewrite lookup_insert_eq. intros [= <-]. apply U.
    + rewrite lookup_insert_ne by done. apply (i_link s I).
  - intros q o. rewrite !Hst. destruct (decide (q = p)) as [->|Hqp].
    + intros [= ->] Ho. destruct (decide (buddy p o = p)) as [Hbp|_].
      * destruct (u_block _ _ _ _ _ U o eq_refl) as ((Ho' & Hm & Hp & _) & _).
        pose proof (i_geom s I). unfold MAX_ORDER in *.
        by destruct (buddy_merge p o) as [? _]; [lia..|done|].
      * by apply (u_coal _ _ _ _ _ U).
    + intros Hq Ho. destruct (decide (buddy q o = p)) as [Hbp|_].
      * intros [= ->].
        destruct (u_block _ _ _ _ _ U o eq_refl) as ((Ho' & Hm & Hp & _) & _).
        apply (u_coal _ _ _ _ _ U o eq_refl Ho). rewrite <- Hbp.
        pose proof (i_fits s I q o ltac:(by exists (Free o))) as (_ & _ & Hq0 & _).
        pose proof (i_geom s I). unfold MAX_ORDER in *.
        rewrite buddy_involutive by lia. done.
      * by apply (i_coal s I).
  - intros q o r. rewrite Hb, Hst. destruct (decide (r = p)) as [->|].
    { intros _ _ [= ?]. by apply (u_kernel _ _ _ _ _ U). }
    destruct (decide (q = p)) as [->|].
    + intros Ho Hr. by apply (u_block _ _ _ _ _ U o Ho).
    + apply (i_kernel s I).
Qed.

(** ** Primitive operations *)

Lemma get_frame_ok s p : inv s -> base_page s <= p < base_page s + total_pages s ->
  exists f, frames s !! p = Some f /\ get_frame s p = Return f.
Proof.
  intros I Hp. pose proof (i_geom s I) as (Hb & Ht & Hmax).
  destruct (proj2 (i_dom s I p) Hp) as [f Hf]. exists f. split; [done|].
  unfold get_frame. rewrite (proj2 (Z.geb_le _ _)) by lia. ostep.
  rewrite usub_small by lia. rewrite (proj2 (Z.ltb_lt _ _)) by lia. ostep. by rewrite Hf.
Qed.

Lemma set_state_ok s p x : inv s -> base_page s <= p < base_page s + total_pages s ->
  exists f, frames s !! p = Some f /\
    set_state s p x = Return (set_frames s (<[p := mkFrame x (link f)]> (frames s))).
Proof.
  intros I Hp. destruct (get_frame_ok s p I Hp) as (f & Hf & Hg).
  exists f. split; [done|]. unfold set_state. by rewrite Hg.
Qed.

Lemma free_list_ok s o : inv s -> 0 <= o <= MAX_ORDER ->
  exists l, free_lists s !! Z.to_nat o = Some l /\ fl s o = ll_iter l.
Proof.
  intros I Ho. unfold MAX_ORDER in Ho.
  destruct (lookup_lt_is_Some_2 (free_lists s) (Z.to_nat o)) as [l Hl].
  { rewrite (i_lists s I). lia. }
  exists l. split; [done|]. unfold fl. by rewrite Hl.
Qed.

Lemma fl_set_free_list s o l o' : length (free_lists s) = 11%nat ->
  0 <= o <= MAX_ORDER -> 0 <= o' ->
  fl (set_free_list s o l) o' = if decide (o' = o) then ll_iter l else fl s o'.
Proof.
  intros Hlen Ho Ho'. unfold MAX_ORDER in Ho. unfold fl, set_free_list. cbn [free_lists].
  destruct (decide (o' = o)) as [->|].
  - rewrite list_lookup_insert_eq by lia. done.
  - rewrite list_lookup_insert_ne by lia. done.
Qed.

(** What stays the same when a free list and a frame change. *)
Definition same_geometry (s s' : FA) : Prop :=
  base_page s' = base_page s /\ total_pages s' = total_pages s /\ free_pages s' = free_pages s.

Lemma same_geometry_trans s1 s2 s3 :
  same_geometry s1 s2 -> same_geometry s2 s3 -> same_geometry s1 s3.
Proof. unfold same_geometry. intuition congruence. Qed.

Definition lists_except (s s' : FA) (o : Z) : Prop :=
  forall o', 0 <= o' <= MAX_ORDER -> o' <> o -> fl s' o' = fl s o'.

Lemma block_pow s p o : inv s -> block s p o -> 0 < 2 ^ o.
Proof. intros I Hb. destruct (i_fits s I p o Hb) as (? & _). apply pow2_pos. lia. Qed.

Lemma hole_not_block s p o q x : inv s -> hole s p o -> p <= q < p + 2 ^ o ->
  st s q = Some x -> block_order x = None.
Proof.
  intros I ((Ho & _) & Hd & _) Hq Hx. destruct (block_order x) as [o'|] eqn:E; [|done].
  assert (block s q o') as Hb by (by exists x). pose proof (block_pow s q o' I Hb).
  destruct (Hd q o' Hb); lia.
Qed.

Lemma hole_range s p o q : inv s -> hole s p o -> p <= q < p + 2 ^ o ->
  base_page s <= q < base_page s + total_pages s.
Proof. intros I ((_ & _ & ? & ?) & _) Hq. lia. Qed.

Lemma hole_self s p o : hole s p o -> p <= p < p + 2 ^ o.
Proof. intros ((? & _) & _). pose proof (pow2_pos o ltac:(lia)). lia. Qed.

(** A block that is no longer one leaves a hole. *)
Lemma drop_hole s s' p o lk : inv s -> block s p o ->
  frames s' = <[p := mkFrame Uninitialized lk]> (frames s) ->
  base_page s' = base_page s -> total_pages s' = total_pages s -> hole s' p o.
Proof.
  intros I Hb Hf Hbase Htot. split; [|split].
  - unfold fits. rewrite Hbase, Htot. by apply (i_fits s I).
  - intros q o'. rewrite (block_update s s' p _ _ q o' Hf). destruct (decide (q = p)); [done|].
    intros Hq. by apply (i_disj s I).
  - intros q Hq. rewrite (st_insert s s' p _ q Hf). destruct (decide (q = p)); [done|].
    by apply (i_kernel s I p o).
Qed.

(** A block leaves its free list. *)
Lemma unfree_inv s s' p o l1 l2 : inv s -> st s p = Some (Free o) ->
  frames s' = <[p := mkFrame Uninitialized false]> (frames s) ->
  same_geometry s s' -> length (free_lists s') = 11%nat ->
  fl s o = l1 ++ p :: l2 -> fl s' o = l1 ++ l2 -> lists_except s s' o ->
  inv s' /\ hole s' p o.
Proof.
  intros I Hp Hf (Hb & Ht & _) Hlen E1 E2 Hex.
  assert (Hblk : block s p o) by (by exists (Free o)).
  pose proof (i_fits s I p o Hblk) as Hfit. destruct Hfit as (Ho & Hm & Hp0 & Hp1).
  pose proof (pow2_pos o ltac:(lia)).
  split; [|by eapply drop_hole].
  pose proof (i_nodup s I o Ho) as Hnd. rewrite E1 in Hnd.
  apply NoDup_app in Hnd as (Hn1 & Hd & [Hp2 Hn2]%NoDup_cons).
  apply (inv_update s s' p Uninitialized false I). split; try done.
  - lia.
  - intros q o' Ho'. destruct (decide (o' = o)) as [->|Hne].
    + rewrite E2, E1. destruct (decide (q = p)) as [->|]; [|set_solver].
      split; [|done]. intros [Hq|Hq]%elem_of_app; [|done].
      exfalso. apply (Hd p Hq). by left.
    + rewrite Hex by done. destruct (decide (q = p)) as [->|]; [|done].
      split; [|done]. rewrite (i_fl s I) by done. rewrite Hp. intros [= ?]. congruence.
  - intros o' Ho'. destruct (decide (o' = o)) as [->|Hne].
    + rewrite E2. apply NoDup_app. split; [done|]. split; [|done].
      intros x Hx Hx2. apply (Hd x Hx). by right.
    + rewrite Hex by done. by apply (i_nodup s I).
Qed.

(** A hole becomes a free block at the front of its list. *)
Lemma mkfree_ok s p o : inv s -> hole s p o ->
  (o < MAX_ORDER -> st s (buddy p o) <> Some (Free o)) ->
  exists s1 s', set_state s p (Free o) = Return s1 /\ add_to_free_list s1 p o = Return s' /\
    inv s' /\ same_geometry s s' /\
    frames s' = <[p := mkFrame (Free o) true]> (frames s) /\
    fl s' o = p :: fl s o /\ lists_except s s' o.
Proof.
  intros I Hh Hco. pose proof (hole_self s p o Hh) as Hself.
  pose proof (hole_range s p o p I Hh Hself) as Hr. pose proof Hh as ((Ho & _) & _).
  destruct (set_state_ok s p (Free o) I Hr) as (f & Hf & ->).
  eexists.
  assert (Hnb : block_order (state f) = None).
  { eapply hole_not_block; eauto. apply st_frame. eauto. }
  assert (Hlink : link f = false).
  { pose proof (i_link s I p f Hf). by destruct (state f). }
  destruct (free_list_ok s o I Ho) as (l & Hl & Hfl).
  assert (Hg : forall s2 : FA, frames s2 = <[p := mkFrame (Free o) (link f)]> (frames s) ->
    base_page s2 = base_page s -> total_pages s2 = total_pages s ->
    get_frame s2 p = Return (mkFrame (Free o) (link f))).
  { intros s2 E1 E2 E3. unfold get_frame. pose proof (i_geom s I). rewrite E2, E3.
    rewrite (proj2 (Z.geb_le _ _)) by lia. ostep. rewrite usub_small by lia.
    rewrite (proj2 (Z.ltb_lt _ _)) by lia. ostep. by rewrite E1, lookup_insert_eq. }
  eexists. split; [done|]. unfold add_to_free_list. rewrite Hg by done. cbn [obind].
  cbn [set_frames free_lists]. rewrite Hl. ostep. cbn [link]. rewrite Hlink in *. ostep.
  unfold set_link. rewrite Hg by done. cbn [obind state]. split; [reflexivity|].
  match goal with |- inv ?x /\ _ => set (s' := x) end.
  assert (Hframes : frames s' = <[p := mkFrame (Free o) true]> (frames s)).
  { simpl. by rewrite insert_insert_eq. }
  assert (Hlist : forall o', 0 <= o' -> fl s' o' = if decide (o' = o) then p :: fl s o else fl s o').
  { intros o' Ho'. unfold s'. rewrite fl_set_free_list; [|apply I|done|done].
    destruct (decide (o' = o)); [|done]. by rewrite ll_iter_push, Hfl. }
  assert (Hfo : fl s' o = p :: fl s o) by (rewrite Hlist by lia; by rewrite decide_True).
  assert (Hex : lists_except s s' o) by (intros ? ? ?; rewrite Hlist by lia; by rewrite decide_False).
  split; [|done].
  assert (Hpn : forall o', 0 <= o' <= MAX_ORDER -> p ∉ fl s o').
  { intros o' Ho'. rewrite (i_fl s I) by done. intros (g & Hg1 & Hg2)%st_frame.
    rewrite Hf in Hg1. injection Hg1 as <-. by rewrite Hg2 in Hnb. }
  apply (inv_update s s' p (Free o) true I). split; try done.
  - unfold s'. cbn. by rewrite length_insert, (i_lists s I).
  - intros q o' Ho'. destruct (decide (o' = o)) as [->|Hne].
    + rewrite Hfo. destruct (decide (q = p)) as [->|]; set_solver.
    + rewrite Hex by done. destruct (decide (q = p)) as [->|]; [|done].
      split; [by intros ?%Hpn|congruence].
  - intros o' Ho'. destruct (decide (o' = o)) as [->|Hne].
    + rewrite Hfo. constructor; [by apply Hpn|by apply (i_nodup s I)].
    + rewrite Hex by done. by apply (i_nodup s I).
  - intros o' [= <-]. auto.
  - intros o' [= <-]. destruct Hh as (H1 & H2 & H3). split; [done|]. split; [auto|auto].
Qed.

Lemma get_frame_eq (s : FA) p f : 0 <= base_page s -> base_page s + total_pages s < 2 ^ 52 ->
  base_page s <= p < base_page s + total_pages s -> frames s !! p = Some f ->
  get_frame s p = Return f.
Proof.
  intros Hb Hm Hp Hf. unfold get_frame. rewrite (proj2 (Z.geb_le _ _)) by lia. ostep.
  rewrite usub_small by lia. rewrite (proj2 (Z.ltb_lt _ _)) by lia. ostep. by rewrite Hf.
Qed.

(** A free block leaves its list through the cursor. *)
Lemma remove_ok s p o : inv s -> st s p = Some (Free o) ->
  exists s' l1 l2, remove_from_free_list s p o = Return s' /\ inv s' /\ hole s' p o /\
    same_geometry s s' /\ frames s' = <[p := mkFrame Uninitialized false]> (frames s) /\
    fl s o = l1 ++ p :: l2 /\ fl s' o = l1 ++ l2 /\ lists_except s s' o.
Proof.
  intros I Hp. assert (Hblk : block s p o) by (by exists (Free o)).
  pose proof (i_fits s I p o Hblk) as (Ho & _ & Hp0 & Hp1).
  pose proof (pow2_pos o ltac:(lia)). pose proof (i_geom s I) as (Hg1 & Hg2 & Hg3).
  destruct (get_frame_ok s p I ltac:(lia)) as (f & Hf & Hgf).
  destruct (free_list_ok s o I Ho) as (l & Hl & Hfl).
  assert (Hin : p ∈ fl s o) by (by apply (i_fl s I)).
  apply list_elem_of_split in Hin as (l1 & l2 & E).
  destruct (ll_remove_spec l p l1 l2) as (l' & Hrm & Hl');
    [congruence|rewrite <- Hfl; by apply (i_nodup s I)|].
  unfold remove_from_free_list. rewrite Hgf. cbn [obind]. rewrite Hl. ostep. rewrite Hrm. ostep.
  unfold set_link. rewrite (get_frame_eq _ p f) by (simpl; done || lia). cbn [obind].
  unfold set_state. erewrite get_frame_eq by (simpl; done || lia || apply lookup_insert_eq). cbn [obind link].
  match goal with |- context [Return ?x = Return _] => set (s' := x) end.
  assert (Hfr : frames s' = <[p := mkFrame Uninitialized false]> (frames s)).
  { simpl. by rewrite insert_insert_eq. }
  assert (Hlist : forall o', 0 <= o' -> fl s' o' = if decide (o' = o) then l1 ++ l2 else fl s o').
  { intros o' Ho'. transitivity (fl (set_free_list s o l') o'); [done|].
    rewrite fl_set_free_list; [|apply I|done|done]. by rewrite Hl'. }
  assert (Hfo : fl s' o = l1 ++ l2) by (rewrite Hlist by lia; by rewrite decide_True).
  assert (Hex : lists_except s s' o) by (intros ? ? ?; rewrite Hlist by lia; by rewrite decide_False).
  assert (Hlen : length (free_lists s') = 11%nat).
  { simpl. by rewrite length_insert, (i_lists s I). }
  destruct (unfree_inv s s' p o l1 l2) as [I' Hh]; try done.
  exists s', l1, l2. done.
Qed.

(** The search for a block: lists of smaller orders are empty. *)
Lemma pop_block_spec orders : forall s, inv s -> Forall (fun o => 0 <= o <= MAX_ORDER) orders ->
  exists r s1, pop_block orders s = Return (r, s1) /\
    match r with
    | None => s1 = s /\ forall o, o ∈ orders -> fl s o = []
    | Some (p, c) => exists os1 os2 l2 s2,
        orders = os1 ++ c :: os2 /\ (forall o, o ∈ os1 -> fl s o = []) /\
        st s p = Some (Free c) /\ set_state s1 p Uninitialized = Return s2 /\
        inv s2 /\ hole s2 p c /\ same_geometry s s2 /\
        frames s2 = <[p := mkFrame Uninitialized false]> (frames s) /\
        fl s c = p :: l2 /\ fl s2 c = l2 /\ lists_except s s2 c
    end.
Proof.
  induction orders as [|o orders IH]; intros s I Hos; cbn [pop_block].
  { exists None, s. split; [done|]. split; [done|]. by intros ? ?%not_elem_of_nil. }
  inversion Hos as [|? ? Ho Hos']; subst.
  destruct (free_list_ok s o I Ho) as (l & Hl & Hfl). rewrite Hl. ostep.
  destruct (fl s o) as [|p t] eqn:Efl.
  { rewrite ll_pop_nil by done. destruct (IH s I Hos') as (r & s1 & E & Hr).
    exists r, s1. split; [done|]. destruct r as [[p c]|].
    - destruct Hr as (os1 & os2 & l2 & s2 & -> & Hnil & Hrest).
      exists (o :: os1), os2, l2, s2. split; [done|]. split; [|done].
      intros o' [->|?]%elem_of_cons; auto.
    - destruct Hr as [-> Hnil]. split; [done|]. intros o' [->|?]%elem_of_cons; auto. }
  destruct (ll_pop_cons l p t) as (l' & -> & Hl'); [done|].
  assert (Hst : st s p = Some (Free o)).
  { apply (i_fl s I); [done|]. rewrite Efl. by left. }
  assert (Hblk : block s p o) by (by exists (Free o)).
  pose proof (i_fits s I p o Hblk) as (_ & _ & Hp0 & Hp1).
  pose proof (pow2_pos o ltac:(lia)). pose proof (i_geom s I) as (Hg1 & Hg2 & Hg3).
  destruct (get_frame_ok s p I ltac:(lia)) as (f & Hf & _).
  unfold set_link. rewrite (get_frame_eq _ p f) by (simpl; done || lia). cbn [obind].
  eexists (Some (p, o)), _. split; [done|].
  unfold set_state. erewrite get_frame_eq by (simpl; done || lia || apply lookup_insert_eq).
  cbn [obind link]. exists [], orders, t. eexists. do 2 (split; [done || by intros ? ?%not_elem_of_nil|]).
  split; [done|]. split; [done|].
  match goal with |- inv ?x /\ _ => set (s' := x) end.
  assert (Hfr : frames s' = <[p := mkFrame Uninitialized false]> (frames s)).
  { simpl. by rewrite insert_insert_eq. }
  assert (Hlist : forall o', 0 <= o' -> fl s' o' = if decide (o' = o) then t else fl s o').
  { intros o' Ho'. transitivity (fl (set_free_list s o l') o'); [done|].
    rewrite fl_set_free_list; [|apply I|done|done]. by rewrite Hl'. }
  assert (Hfo : fl s' o = t) by (rewrite Hlist by lia; by rewrite decide_True).
  assert (Hex : lists_except s s' o) by (intros ? ? ?; rewrite Hlist by lia; by rewrite decide_False).
  assert (Hlen : length (free_lists s') = 11%nat).
  { simpl. by rewrite length_insert, (i_lists s I). }
  destruct (unfree_inv s s' p o [] t) as [I' Hh]; done.
Qed.

(** ** Tails of allocated blocks *)

Definition owner_order (x : FrameState) : option Z :=
  match x with
  | AllocatedHead info => Some (order info)
  | SlabFrame _ => Some SLAB_FRAME_ALLOC_ORDER
  | _ => None
  end.

Definition owned (s : FA) (p o : Z) : Prop := exists x, st s p = Some x /\ owner_order x = Some o.

Definition tails_of (s : FA) (p o : Z) : Prop :=
  forall i, 0 < i < 2 ^ o -> st s (p + i) = Some (AllocatedTail p).

Definition tails (s : FA) : Prop := forall p o, owned s p o -> tails_of s p o.

Lemma owned_block s p o : owned s p o -> block s p o.
Proof. intros (x & Hx & Ho). exists x. split; [done|]. by destruct x. Qed.

Lemma owned_update s s' p f q o : frames s' = <[p := f]> (frames s) ->
  owned s' q o <-> if decide (q = p) then owner_order (state f) = Some o else owned s q o.
Proof.
  intros Hf. unfold owned. rewrite (st_insert s s' p _ q Hf).
  destruct (decide (q = p)); naive_solver.
Qed.

(** Frames outside the tails of other blocks can change freely. *)
Lemma tails_update s s' p f : tails s -> frames s' = <[p := f]> (frames s) ->
  (forall q o, q <> p -> owned s q o -> p <= q \/ q + 2 ^ o <= p) ->
  (forall o, owner_order (state f) = Some o -> tails_of s p o) -> tails s'.
Proof.
  intros Ht Hf Hout Hp q o. rewrite (owned_update s s' p f q o Hf).
  intros Ho i Hi. rewrite (st_insert s s' p f _ Hf). destruct (decide (q = p)) as [->|Hne].
  - rewrite decide_False by lia. by apply (Hp o).
  - destruct (decide (q + i = p)) as [<-|].
    + destruct (Hout q o Hne Ho); lia.
    + by apply (Ht q o).
Qed.

Lemma outside_block s p o q o' : inv s -> block s p o -> q <> p -> owned s q o' ->
  p <= q \/ q + 2 ^ o' <= p.
Proof.
  intros I Hp Hne Hq%owned_block. pose proof (block_pow s p o I Hp).
  destruct (i_disj s I p o q o' Hp Hq) as [?|?]; [congruence|lia..].
Qed.

Lemma outside_hole s p o r q o' : inv s -> hole s p o -> p <= r < p + 2 ^ o -> owned s q o' ->
  r < q \/ q + 2 ^ o' <= r.
Proof.
  intros I (_ & Hd & _) Hr Hq%owned_block. destruct (Hd q o' Hq); lia.
Qed.

Lemma tails_hole s s' p o r f : inv s -> hole s p o -> p <= r < p + 2 ^ o -> tails s ->
  frames s' = <[r := f]> (frames s) -> owner_order (state f) = None -> tails s'.
Proof.
  intros I Hh Hr Ht Hf Ho. eapply tails_update; [done|done| |by rewrite Ho].
  intros q o' _ Hq. destruct (outside_hole s p o r q o' I Hh Hr Hq); lia.
Qed.

Lemma tails_drop s s' p o f : inv s -> block s p o -> tails s ->
  frames s' = <[p := f]> (frames s) -> owner_order (state f) = None -> tails s'.
Proof.
  intros I Hb Ht Hf Ho. eapply tails_update; [done|done| |by rewrite Ho].
  intros q o' Hne Hq. by eapply outside_block.
Qed.

(** ** Page accounting *)

Definition count_orders (s : FA) (os : list Z) : Z :=
  foldr (fun o acc => 2 ^ o * Z.of_nat (length (fl s o)) + acc) 0 os.

Definition all_orders : list Z := seqZ 0 (MAX_ORDER + 1).
Definition free_count (s : FA) : Z := count_orders s all_orders.

Lemma elem_of_all_orders o : o ∈ all_orders <-> 0 <= o <= MAX_ORDER.
Proof. unfold all_orders. rewrite elem_of_seqZ. unfold MAX_ORDER. lia. Qed.

Lemma count_orders_change s s' o d os : NoDup os ->
  (forall o', o' ∈ os -> o' <> o -> fl s' o' = fl s o') ->
  Z.of_nat (length (fl s' o)) = Z.of_nat (length (fl s o)) + d ->
  count_orders s' os = count_orders s os + if decide (o ∈ os) then d * 2 ^ o else 0.
Proof.
  intros Hnd Hex Hlen. induction os as [|x os IH]; [done|].
  inversion Hnd; subst. cbn [count_orders foldr]. fold (count_orders s' os) (count_orders s os).
  rewrite IH; [|done|intros; apply Hex; [by right|done]].
  destruct (decide (x = o)) as [->|Hne].
  - rewrite Hlen. rewrite (decide_False (P := o ∈ os)) by done.
    rewrite decide_True by (by left). lia.
  - rewrite Hex by (done || by left). destruct (decide (o ∈ os)).
    + rewrite decide_True by (by right). lia.
    + rewrite decide_False by set_solver. lia.
Qed.

Lemma free_count_change s s' o d : 0 <= o <= MAX_ORDER -> lists_except s s' o ->
  Z.of_nat (length (fl s' o)) = Z.of_nat (length (fl s o)) + d ->
  free_count s' = free_count s + d * 2 ^ o.
Proof.
  intros Ho Hex Hlen. unfold free_count.
  rewrite (count_orders_change s s' o d); [|apply NoDup_seqZ| |done].
  - by rewrite decide_True by (by apply elem_of_all_orders).
  - intros o' Ho'%elem_of_all_orders Hne. by apply Hex.
Qed.

Lemma free_count_ext s s' : (forall o, fl s' o = fl s o) -> free_count s' = free_count s.
Proof.
  intros Hl. unfold free_count. induction all_orders as [|o os IH]; [done|].
  cbn [count_orders foldr]. fold (count_orders s' os) (count_orders s os). by rewrite Hl, IH.
Qed.

(** The pages of the free blocks. *)
Definition free_page_list (s : FA) : list Z :=
  all_orders ≫= fun o => fl s o ≫= fun p => seqZ p (2 ^ o).

Lemma elem_of_free_page_list s q : inv s ->
  q ∈ free_page_list s <-> exists p o, st s p = Some (Free o) /\ p <= q < p + 2 ^ o.
Proof.
  intros I. unfold free_page_list. rewrite list_elem_of_bind. split.
  - intros (o & Hq & Ho%elem_of_all_orders).
    apply list_elem_of_bind in Hq as (p & Hq%elem_of_seqZ & Hp).
    exists p, o. split; [by apply (i_fl s I)|lia].
  - intros (p & o & Hp & Hq). assert (Hb : block s p o) by (by exists (Free o)).
    destruct (i_fits s I p o Hb) as (Ho & _). exists o. split; [|by apply elem_of_all_orders].
    apply list_elem_of_bind. exists p. split; [apply elem_of_seqZ; lia|by apply (i_fl s I)].
Qed.

Lemma length_bind_const {A B} (f : A -> list B) (l : list A) n :
  (forall x, x ∈ l -> length (f x) = n) -> length (l ≫= f) = (n * length l)%nat.
Proof.
  intros Hf. induction l as [|x l IH]; [simpl; lia|]. cbn [mbind list_bind]. rewrite length_app.
  rewrite Hf by (by left). simpl. rewrite IH; [lia|]. intros. apply Hf. by right.
Qed.

Lemma length_free_page_list s : Z.of_nat (length (free_page_list s)) = free_count s.
Proof.
  unfold free_page_list, free_count.
  assert (Hpos : forall o, o ∈ all_orders -> 0 <= o) by (intros ? ?%elem_of_all_orders; lia).
  induction all_orders as [|o os IH]; [done|]. cbn [mbind list_bind]. rewrite length_app.
  cbn [count_orders foldr]. fold (count_orders s os). rewrite Nat2Z.inj_add.
  rewrite IH by (intros; apply Hpos; by right).
  rewrite (length_bind_const _ _ (Z.to_nat (2 ^ o))) by (intros; apply length_seqZ).
  pose proof (pow2_pos o ltac:(apply Hpos; by left)). lia.
Qed.

Lemma NoDup_free_page_list s : inv s -> NoDup (free_page_list s).
Proof.
  intros I.
  assert (Hone : forall p o p' o' q, st s p = Some (Free o) -> st s p' = Some (Free o') ->
    p <= q < p + 2 ^ o -> p' <= q < p' + 2 ^ o' -> p = p').
  { intros p o p' o' q Hp Hp' Hq Hq'. destruct (decide (p = p')); [done|].
    destruct (i_disj s I p o p' o'); [by exists (Free o)|by exists (Free o')|done|lia..]. }
  unfold free_page_list. apply NoDup_bind; [| |apply NoDup_seqZ].
  - intros o o' q Ho%elem_of_all_orders Ho'%elem_of_all_orders
      (p & Hq%elem_of_seqZ & Hp)%list_elem_of_bind (p' & Hq'%elem_of_seqZ & Hp')%list_elem_of_bind.
    apply (i_fl s I) in Hp, Hp'; [|done..].
    assert (p = p') as -> by (apply (Hone p o p' o' q); done || lia). congruence.
  - intros o Ho%elem_of_all_orders. apply NoDup_bind; [|intros; apply NoDup_seqZ|by apply (i_nodup s I)].
    intros p p' q Hp Hp' Hq%elem_of_seqZ Hq'%elem_of_seqZ.
    apply (i_fl s I) in Hp, Hp'; [|done..]. apply (Hone p o p' o q); done || lia.
Qed.

Lemma free_count_bound s : inv s -> 0 <= free_count s <= total_pages s.
Proof.
  intros I. rewrite <- length_free_page_list. split; [lia|].
  pose proof (NoDup_range_length (map (fun q => q - base_page s) (free_page_list s)) (total_pages s)) as Hl.
  rewrite length_map in Hl. apply Hl; [| |apply (i_geom s I)].
  - apply NoDup_fmap_2_strong; [intros; lia|by apply NoDup_free_page_list].
  - apply list.Forall_forall. intros x (q & -> & Hq)%list_elem_of_fmap.
    apply elem_of_free_page_list in Hq as (p & o & Hp & Hq); [|done].
    destruct (i_fits s I p o ltac:(by exists (Free o))) as (_ & _ & ? & ?). lia.
Qed.

(** ** Changing the state of a frame that is not free *)

Lemma set_state_inv s p f x : inv s -> frames s !! p = Some f ->
  (forall o, state f <> Free o) -> (forall o, x <> Free o) -> x <> Kernel ->
  (link f = false \/ exists sl, x = SlabFrame sl) ->
  (forall o, block_order x = Some o -> fits s p o /\
    (forall q o', q <> p -> block s q o' -> disjoint_blocks p o q o') /\
    (forall q, q <> p -> p <= q < p + 2 ^ o -> st s q <> Some Kernel)) ->
  exists s', set_state s p x = Return s' /\ inv s' /\ same_geometry s s' /\
    frames s' = <[p := mkFrame x (link f)]> (frames s) /\ (forall o, fl s' o = fl s o).
Proof.
  intros I Hf Hnf Hxf Hxk Hlk Hblk.
  assert (Hr : base_page s <= p < base_page s + total_pages s) by (apply (i_dom s I); eauto).
  destruct (set_state_ok s p x I Hr) as (f' & Hf' & ->). simplify_eq.
  eexists. split; [done|]. split; [|done].
  apply (inv_update s _ p x (link f) I). split; try done.
  - apply (i_lists s I).
  - intros q o Ho. change (fl (set_frames _ _) o) with (fl s o).
    destruct (decide (q = p)) as [->|]; [|done].
    rewrite (i_fl s I) by done. split; [|by intros ?%Hxf].
    intros (g & Hg & Hs)%st_frame. simplify_eq. by apply Hnf in Hs.
  - apply (i_nodup s I).
  - destruct x as [|o| | | |]; try done; try (by destruct (Hxf o));
      destruct Hlk as [?|[? ?]]; done.
  - intros o ->. by destruct (Hxf o).
Qed.

(** ** Pages of free blocks *)

Definition free_page (s : FA) (q : Z) : Prop :=
  exists p o, st s p = Some (Free o) /\ p <= q < p + 2 ^ o.

Lemma free_page_mkfree s s' p o lk q : inv s -> hole s p o ->
  frames s' = <[p := mkFrame (Free o) lk]> (frames s) ->
  free_page s' q <-> free_page s q \/ p <= q < p + 2 ^ o.
Proof.
  intros I Hh Hf. pose proof (hole_self s p o Hh) as Hself. unfold free_page. split.
  - intros (r & o' & Hr & Hq). rewrite (st_insert s s' p _ r Hf) in Hr.
    destruct (decide (r = p)) as [->|]; [|left; eauto]. simpl in Hr. simplify_eq. by right.
  - intros [(r & o' & Hr & Hq)|Hq].
    + exists r, o'. rewrite (st_insert s s' p _ r Hf). split; [|done].
      destruct (decide (r = p)) as [->|]; [|done].
      by pose proof (hole_not_block s p o p _ I Hh Hself Hr).
    + exists p, o. rewrite (st_insert s s' p _ p Hf), decide_True by done. done.
Qed.

(** A change that neither makes nor unmakes a free block. *)
Lemma free_page_keep s s' p f q : frames s' = <[p := f]> (frames s) ->
  (forall o, st s p <> Some (Free o)) -> (forall o, state f <> Free o) ->
  free_page s' q <-> free_page s q.
Proof.
  intros Hf H1 H2. unfold free_page.
  split; intros (r & o & Hr & Hq); exists r, o; (split; [|done]);
    rewrite (st_insert s s' p _ r Hf) in *; destruct (decide (r = p)) as [->|]; try done.
  - simplify_eq. by destruct (H2 o).
  - by destruct (H1 o).
Qed.

Lemma free_page_unfree s s' p o lk q : inv s -> st s p = Some (Free o) ->
  frames s' = <[p := mkFrame Uninitialized lk]> (frames s) ->
  free_page s' q <-> free_page s q /\ ~ (p <= q < p + 2 ^ o).
Proof.
  intros I Hp Hf. assert (Hb : block s p o) by (by exists (Free o)). unfold free_page. split.
  - intros (r & o' & Hr & Hq). rewrite (st_insert s s' p _ r Hf) in Hr.
    destruct (decide (r = p)) as [->|]; [done|]. split; [eauto|].
    destruct (i_disj s I p o r o' Hb); [by exists (Free o')|congruence|lia..].
  - intros ((r & o' & Hr & Hq) & Hn). exists r, o'. split; [|done].
    rewrite (st_insert s s' p _ r Hf). destruct (decide (r = p)) as [->|]; [|done].
    rewrite Hp in Hr. simplify_eq. lia.
Qed.

(** ** Splitting *)

Lemma hole_sub s p o q o' : hole s p o -> 0 <= o' <= o -> q mod 2 ^ o' = 0 ->
  p <= q -> q + 2 ^ o' <= p + 2 ^ o -> hole s q o'.
Proof.
  intros ((Ho & _ & Hb & He) & Hd & Hk) Ho' Hm Hpq Hqp. split; [|split].
  - unfold fits. lia.
  - intros r o'' Hr. unfold disjoint_blocks. destruct (Hd r o'' Hr); lia.
  - intros r Hr. apply Hk. lia.
Qed.

Lemma hole_after_free s s' p o q o' lk : hole s p o -> disjoint_blocks p o q o' ->
  frames s' = <[q := mkFrame (Free o') lk]> (frames s) -> same_geometry s s' -> hole s' p o.
Proof.
  intros (Hfit & Hd & Hk) Hdisj Hf (Hb & Ht & _). split; [|split].
  - unfold fits in *. by rewrite Hb, Ht.
  - intros r o''. rewrite (block_update s s' q _ _ r o'' Hf).
    destruct (decide (r = q)) as [->|]; [|auto]. simpl. by intros [= <-].
  - intros r Hr. rewrite (st_insert s s' q _ r Hf). destruct (decide (r = q)); [done|auto].
Qed.

Lemma split_block_spec n : forall s p c, inv s -> hole s p c -> tails s -> Z.of_nat n <= c ->
  exists s', split_block n s p c = Return s' /\ inv s' /\ hole s' p (c - Z.of_nat n) /\ tails s' /\
    same_geometry s s' /\ free_count s' = free_count s + 2 ^ c - 2 ^ (c - Z.of_nat n) /\
    (forall q, free_page s' q <-> free_page s q \/ p + 2 ^ (c - Z.of_nat n) <= q < p + 2 ^ c) /\
    (forall q, q <= p \/ p + 2 ^ c <= q -> frames s' !! q = frames s !! q).
Proof.
  induction n as [|n IH]; intros s p c I Hh Ht Hn; cbn [split_block].
  { exists s. rewrite Z.sub_0_r. repeat (split; [done || lia|]).
    split; [|done]. intros q. split; [auto|]. intros [|]; [done|lia]. }
  pose proof Hh as ((Ho & Hm & Hb & He) & _). pose proof (i_geom s I) as (Hg & _).
  pose proof (pow2_pos (c - 1) ltac:(lia)) as Hpos.
  assert (Hpow : 2 ^ c = 2 ^ (c - 1) + 2 ^ (c - 1)).
  { replace c with (c - 1 + 1) at 1 by lia. rewrite Z.pow_add_r by lia. lia. }
  assert (Hm1 : p mod 2 ^ (c - 1) = 0) by (apply (pow2_divide_mod p (c - 1) c); [lia|done]).
  assert (Hbd : buddy p (c - 1) = p + 2 ^ (c - 1)).
  { unfold MAX_ORDER in Ho. destruct (buddy_cases p (c - 1)) as [[_ ?]|(Hx & Hy & _)]; [lia..|done|done|].
    replace (c - 1 + 1) with c in Hx by lia.
    apply Z.mod_divide in Hx as [u Hu]; [|lia]. apply Z.mod_divide in Hm as [v Hv]; [|lia].
    rewrite Hpow in Hu, Hv. assert (2 * (v - u) = 1) by nia. lia. }
  rewrite Hbd.
  assert (Hh1 : hole s (p + 2 ^ (c - 1)) (c - 1)).
  { apply (hole_sub s p c); [done|lia| |lia|lia]. rewrite Zplus_mod, Hm1, Z_mod_same_full. done. }
  destruct (mkfree_ok s (p + 2 ^ (c - 1)) (c - 1) I Hh1) as
    (s1 & s2 & -> & E2 & I2 & G2 & F2 & L2 & X2).
  { intros _. rewrite <- Hbd. unfold MAX_ORDER in Ho. rewrite buddy_involutive by lia.
    intros Hst. by pose proof (hole_not_block s p c p _ I Hh (hole_self _ _ _ Hh) Hst). }
  ostep. rewrite E2. ostep.
  assert (Hdis : disjoint_blocks p (c - 1) (p + 2 ^ (c - 1)) (c - 1)) by (left; lia).
  assert (Hh2 : hole s2 p (c - 1)).
  { eapply hole_after_free; [|exact Hdis|exact F2|done].
    apply (hole_sub s p c); [done|lia|done|lia|lia]. }
  assert (Ht2 : tails s2).
  { eapply (tails_hole s s2 p c); [done|done| |done|exact F2|done]. lia. }
  destruct (IH s2 p (c - 1) I2 Hh2 Ht2 ltac:(lia)) as
    (s' & E & I' & Hh' & Ht' & G' & C' & P' & Fr').
  exists s'. replace (c - Z.of_nat (S n)) with (c - 1 - Z.of_nat n) by lia.
  do 4 (split; [done|]). split; [by eapply same_geometry_trans|]. split; [|split].
  - rewrite C', (free_count_change s s2 (c - 1) 1); [lia|lia|done|rewrite L2; simpl; lia].
  - intros q. pose proof (pow2_pos (c - 1 - Z.of_nat n) ltac:(lia)).
    assert (2 ^ (c - 1 - Z.of_nat n) <= 2 ^ (c - 1)) by (apply Z.pow_le_mono_r; lia).
    rewrite P', (free_page_mkfree s s2 _ _ _ q I Hh1 F2).
    rewrite Hpow. intuition lia.
  - intros q Hq. rewrite Fr' by lia. rewrite F2, lookup_insert_ne; [done|lia].
Qed.

(** ** Marking tails *)

Lemma mark_tails_spec idxs : forall s p o, inv s -> block s p o ->
  (forall q o', q <> p -> owned s q o' -> tails_of s q o') ->
  Forall (fun i => 0 < i < 2 ^ o) idxs ->
  exists s', mark_tails idxs s p = Return s' /\ inv s' /\ same_geometry s s' /\
    (forall o', fl s' o' = fl s o') /\
    (forall q o', q <> p -> owned s' q o' -> tails_of s' q o') /\
    (forall q, st s' q = if decide (q - p ∈ idxs) then Some (AllocatedTail p) else st s q).
Proof.
  induction idxs as [|i idxs IH]; intros s p o I Hb Ht Hi; cbn [mark_tails].
  { exists s. repeat (split; [done|]). intros q. rewrite decide_False; [done|apply not_elem_of_nil]. }
  inversion Hi as [|? ? Hi0 Hi']; subst.
  pose proof (i_fits s I p o Hb) as (Ho & _ & Hp0 & Hp1). pose proof (i_geom s I).
  rewrite uadd_small by lia.
  destruct (proj2 (i_dom s I (p + i)) ltac:(lia)) as [f Hf].
  assert (Hnb : block_order (state f) = None).
  { destruct (block_order (state f)) as [o'|] eqn:E; [|done].
    assert (Hb' : block s (p + i) o') by (exists (state f); split; [apply st_frame; eauto|done]).
    pose proof (block_pow s _ _ I Hb').
    destruct (i_disj s I p o (p + i) o' Hb Hb'); lia. }
  assert (Hlk : link f = false).
  { pose proof (i_link s I _ f Hf). by destruct (state f). }
  destruct (set_state_inv s (p + i) f (AllocatedTail p)) as (s1 & -> & I1 & G1 & F1 & L1);
    [done|done|by intros o' E; rewrite E in Hnb|done|done|auto|done|].
  ostep. assert (Hb1 : block s1 p o).
  { rewrite (block_update s s1 _ _ _ p o F1), decide_False by lia. done. }
  destruct (IH s1 p o I1 Hb1) as (s' & E & I' & G' & L' & T' & S'); [|done|].
  - intros q o' Hq. rewrite (owned_update s s1 _ _ q o' F1). destruct (decide (q = p + i)); [done|].
    intros Hw j Hj. rewrite (st_insert s s1 _ _ _ F1), decide_False; [by apply (Ht q o' Hq Hw)|].
    pose proof (owned_block _ _ _ Hw) as Hwb. pose proof (block_pow s q o' I Hwb).
    destruct (i_disj s I p o q o' Hb Hwb); [done|lia..].
  - exists s'. split; [done|]. split; [done|]. split; [by eapply same_geometry_trans|].
    split; [intros; by rewrite L', L1|]. split; [done|].
    intros q. rewrite S', (st_insert s s1 _ _ _ F1). simpl.
    destruct (decide (q - p ∈ idxs)); [rewrite decide_True by (by right); done|].
    destruct (decide (q = p + i)) as [->|].
    + rewrite decide_True; [done|]. replace (p + i - p) with i by lia. by left.
    + rewrite decide_False; [done|]. rewrite elem_of_cons. intros [|]; [lia|done].
Qed.

(** ** alloc_frames *)

Record wf (s : FA) : Prop := {
  wf_inv : inv s;
  wf_tails : tails s;
  wf_count : free_pages s = free_count s
}.

(** The same frames are heads of allocated blocks, [b] aside, with the same state. *)
Definition same_owned_except (s s' : FA) (b : Z) : Prop :=
  forall p x, p <> b -> owner_order x <> None -> st s' p = Some x <-> st s p = Some x.

Definition alloc_frames_post (s : FA) (r : Z) (res : result MemoryRegion) (s' : FA) : Prop :=
  match res with
  | Ok reg => exists b, reg = mkRegion (b * PAGE_SIZE) (2 ^ r * PAGE_SIZE) /\
      fits s b r /\
      (forall q, b <= q < b + 2 ^ r -> free_page s q) /\
      (forall q, free_page s' q <-> free_page s q /\ ~ b <= q < b + 2 ^ r) /\
      st s' b = Some (AllocatedHead (mkAllocated 1 r)) /\
      same_owned_except s s' b /\
      free_pages s' = free_pages s - 2 ^ r
  | Err InvalidValue => MAX_ORDER < r /\ s' = s
  | Err e => e = NoMemory /\ r <= MAX_ORDER /\ s' = s /\
      forall p o, st s p = Some (Free o) -> o < r
  end.

Lemma free_not_owned s p o q x : inv s -> st s p = Some (Free o) -> p <= q < p + 2 ^ o ->
  st s q = Some x -> owner_order x = None.
Proof.
  intros I Hp Hq Hx. destruct (owner_order x) as [o'|] eqn:E; [|done].
  assert (Hb : block s q o') by (apply owned_block; by exists x).
  destruct (decide (q = p)) as [->|Hne].
  - rewrite Hp in Hx. by simplify_eq.
  - pose proof (block_pow s q o' I Hb).
    destruct (i_disj s I p o q o'); [by exists (Free o)|done|done|lia..].
Qed.

(** The hole in hand becomes an allocated block with its tails. *)
Lemma commit_block s b r : inv s -> hole s b r -> tails s ->
  exists s1 s', set_state s b (AllocatedHead (mkAllocated 1 r)) = Return s1 /\
    mark_tails (seqZ 1 (2 ^ r - 1)) s1 b = Return s' /\
    inv s' /\ tails s' /\ same_geometry s s' /\ (forall o, fl s' o = fl s o) /\
    (forall q, free_page s' q <-> free_page s q) /\
    st s' b = Some (AllocatedHead (mkAllocated 1 r)) /\
    (forall q, q < b \/ b + 2 ^ r <= q -> st s' q = st s q).
Proof.
  intros I Hh Ht. pose proof (hole_self s b r Hh) as Hself.
  pose proof Hh as (Hfit & Hd & Hk). pose proof Hfit as (Ho & _ & Hb0 & Hb1).
  destruct (proj2 (i_dom s I b) ltac:(lia)) as [f Hf].
  assert (Hst : st s b = Some (state f)) by (apply st_frame; eauto).
  pose proof (hole_not_block s b r b _ I Hh Hself Hst) as Hnb.
  destruct (set_state_inv s b f (AllocatedHead (mkAllocated 1 r)))
    as (s1 & E1 & I1 & G1 & F1 & L1); [done|done| |done|done| | |].
  { intros o E. by rewrite E in Hnb. }
  { left. pose proof (i_link s I b f Hf). by destruct (state f). }
  { intros o [= <-]. split; [done|]. split; [auto|auto]. }
  pose proof (fun q => st_insert s s1 b _ q F1) as S1. simpl in S1.
  assert (Hb1' : block s1 b r).
  { exists (AllocatedHead (mkAllocated 1 r)). rewrite S1, decide_True by done. done. }
  destruct (mark_tails_spec (seqZ 1 (2 ^ r - 1)) s1 b r I1 Hb1')
    as (s' & E2 & I2 & G2 & L2 & T2 & S2).
  { intros q o Hne Hq. rewrite (owned_update s s1 b _ q o F1), decide_False in Hq by done.
    intros i Hi. rewrite S1, decide_False; [by apply (Ht q o)|].
    destruct (outside_hole s b r b q o I Hh Hself Hq); lia. }
  { apply list.Forall_forall. intros i Hi%elem_of_seqZ. lia. }
  exists s1, s'. do 3 (split; [done|]).
  assert (Sb : st s' b = Some (AllocatedHead (mkAllocated 1 r))).
  { rewrite S2, decide_False, S1, decide_True; [done|done|].
    replace (b - b) with 0 by lia. rewrite elem_of_seqZ. lia. }
  split; [|split; [by eapply same_geometry_trans|split; [intros; by rewrite L2|]]].
  - intros q o Hq. destruct (decide (q = b)) as [->|]; [|by apply T2].
    destruct Hq as (x & Hx & Ho'). rewrite Sb in Hx. simplify_eq. simpl in Ho'. simplify_eq.
    intros i Hi. rewrite S2, decide_True; [done|]. rewrite elem_of_seqZ. lia.
  - split; [|split; [done|]].
    + intros q. rewrite <- (free_page_keep s s1 b _ q F1); [|by intros o E; rewrite Hst in E;
        simplify_eq; destruct (state f)|done].
      unfold free_page. setoid_rewrite S2. split; intros (p & o & Hp & Hq); exists p, o; (split; [|done]).
      * by destruct (decide _).
      * rewrite decide_False; [done|]. intros Hp'%elem_of_seqZ.
        assert (block s1 p o) as Hpb by (by exists (Free o)). pose proof (block_pow _ _ _ I1 Hpb).
        destruct (i_disj s1 I1 b r p o Hb1' Hpb); lia.
    + intros q Hq. rewrite S2, decide_False, S1, decide_False; [done|lia|].
      rewrite elem_of_seqZ. lia.
Qed.

Lemma wf_set_free_pages s n : inv s -> tails s -> n = free_count s -> wf (set_free_pages s n).
Proof. intros [] Ht ->. split; [split; done|done|done]. Qed.

Lemma alloc_frames_spec s r : wf s -> 0 <= r ->
  exists res s', alloc_frames s r = Return (res, s') /\ wf s' /\ alloc_frames_post s r res s'.
Proof.
  intros [I Ht Hc] Hr. unfold alloc_frames. destruct (Z.gtb_spec r MAX_ORDER) as [Hgt|Hle].
  { exists (Err InvalidValue), s. done. }
  destruct (pop_block_spec (seqZ r (MAX_ORDER - r + 1)) s I) as (found & s1 & -> & Hpop).
  { apply list.Forall_forall. intros o Ho%elem_of_seqZ. lia. }
  cbn [obind]. destruct found as [[b c]|].
  2: { destruct Hpop as [-> Hnil]. exists (Err NoMemory), s. do 2 (split; [done|]).
       do 3 (split; [done|]). intros p o Hp. apply Z.nle_gt. intros Hro.
       assert (Hpb : block s p o) by (by exists (Free o)).
       destruct (i_fits s I p o Hpb) as (Ho & _). apply (i_fl s I) in Hp; [|done].
       rewrite Hnil in Hp; [by apply not_elem_of_nil in Hp|]. apply elem_of_seqZ. lia. }
  destruct Hpop as (os1 & os2 & l2 & s2 & Eos & _ & Hst & -> & I2 & H2 & G2 & F2 & L1 & L2 & X2).
  assert (Hcr : r <= c <= MAX_ORDER).
  { assert (c ∈ seqZ r (MAX_ORDER - r + 1)) as ?%elem_of_seqZ; [rewrite Eos; set_solver|lia]. }
  ostep. assert (Hblk : block s b c) by (by exists (Free c)).
  pose proof (i_fits s I b c Hblk) as (_ & Hm & Hb0 & Hb1).
  assert (T2 : tails s2) by (eapply (tails_drop s s2 b c); done).
  destruct (split_block_spec (Z.to_nat (c - r)) s2 b c I2 H2 T2 ltac:(lia))
    as (s3 & -> & I3 & H3 & T3 & G3 & C3 & P3 & Fr3).
  replace (c - Z.of_nat (Z.to_nat (c - r))) with r in * by lia. ostep.
  destruct (commit_block s3 b r I3 H3 T3)
    as (s4 & s5 & -> & E5 & I5 & T5 & G5 & L5 & P5 & S5 & Out5).
  ostep. assert (Hpr : ushl 1 r = 2 ^ r) by (apply ushl_1; unfold MAX_ORDER in *; lia).
  rewrite Hpr, E5. ostep.
  pose proof (pow2_pos r Hr) as Hpos.
  assert (2 ^ r <= 2 ^ c) by (apply Z.pow_le_mono_r; lia).
  assert (2 ^ c <= 2 ^ 10) by (apply Z.pow_le_mono_r; unfold MAX_ORDER in *; lia).
  pose proof (free_count_bound s I) as Hbound. pose proof (i_geom s I) as (Hg0 & _ & Hg).
  assert (C2 : free_count s2 = free_count s - 2 ^ c).
  { rewrite (free_count_change s s2 c (-1)); [lia|lia|done|]. rewrite L1, L2. simpl. lia. }
  pose proof (free_count_ext _ _ L5) as C5. pose proof (free_count_bound s2 I2) as Hb2.
  assert (Gall : same_geometry s s5) by eauto using same_geometry_trans.
  destruct Gall as (GB & GT & GF).
  assert (Hsz : ushl (2 ^ r) PAGE_SHIFT = 2 ^ r * PAGE_SIZE).
  { rewrite ushl_small; [done|done|]. change (2 ^ PAGE_SHIFT) with 4096. lia. }
  rewrite Hsz, pa_eq by (unfold PAGE_SIZE; lia). rewrite GF, Hc, usub_small by lia.
  eexists _, _. split; [done|]. split; [apply wf_set_free_pages; [done|done|lia]|].
  assert (Hown : same_owned_except s s5 b).
  { intros p x Hpb Hx. destruct (decide (b <= p < b + 2 ^ c)) as [Hin|Hout].
    - split; intros Hp; exfalso; apply Hx.
      + destruct (decide (p < b + 2 ^ r)).
        * pose proof (i_disj s5 I5 b r p) as Hd. destruct (owner_order x) as [o|] eqn:E; [|done].
          assert (block s5 p o) as Hbp by (apply owned_block; by exists x).
          pose proof (block_pow _ _ _ I5 Hbp).
          destruct (Hd o); [by exists (AllocatedHead (mkAllocated 1 r))|done|congruence|lia..].
        * destruct (proj2 (P5 p)) as (q & o & Hq & Hqp); [apply P3; right; lia|].
          by apply (free_not_owned s5 q o p).
      + by apply (free_not_owned s b c p).
    - rewrite Out5 by lia. unfold st. rewrite Fr3 by lia. rewrite F2, lookup_insert_ne by lia. done. }
  exists b. split; [done|]. split; [|split; [|split; [|split; [done|split; [done|]]]]].
  - split; [lia|]. split; [by apply (pow2_divide_mod b r c); [lia|]|lia].
  - intros q Hq. exists b, c. split; [done|lia].
  - intros q. change (free_page (set_free_pages s5 _) q) with (free_page s5 q).
    rewrite P5, P3, (free_page_unfree s s2 b c _ q I Hst F2).
    assert (b <= q < b + 2 ^ c -> free_page s q) by (intros; exists b, c; done).
    destruct (decide (b <= q < b + 2 ^ c)); intuition lia.
  - cbn [set_free_pages free_pages]. lia.
Qed.

(** ** free_frames *)

Lemma hole_merge s p k : inv s -> hole s p k -> hole s (buddy p k) k -> k < MAX_ORDER ->
  hole s (Z.min p (buddy p k)) (k + 1).
Proof.
  intros I ((Ho & Hm & Hb & He) & Hd & Hk) ((_ & _ & Hb' & He') & Hd' & Hk') Hlt.
  pose proof (i_geom s I). unfold MAX_ORDER in *.
  destruct (buddy_merge p k ltac:(lia) ltac:(lia) Hm) as (_ & _ & _ & Hmin & Hmax).
  pose proof (pow2_pos k ltac:(lia)) as Hpos.
  assert (Hpow : 2 ^ (k + 1) = 2 ^ k + 2 ^ k) by (rewrite Z.pow_add_r by lia; lia).
  split; [|split].
  - unfold fits, MAX_ORDER. rewrite Hpow. split; [lia|]. split; [by rewrite <- Hpow|]. lia.
  - intros q o Hq. specialize (Hd q o Hq). specialize (Hd' q o Hq).
    pose proof (block_pow s q o I Hq). unfold disjoint_blocks in *. rewrite Hpow. lia.
  - intros q Hq. rewrite Hpow in Hq.
    destruct (decide (p <= q < p + 2 ^ k)); [by apply Hk|apply Hk'; lia].
Qed.

(** What the merging loop has absorbed: only free pages. *)
Definition merged (s s' : FA) (p k b m : Z) : Prop :=
  k <= m <= MAX_ORDER /\ b <= p /\ p + 2 ^ k <= b + 2 ^ m /\
  free_count s' = free_count s - (2 ^ m - 2 ^ k) /\
  (forall q, free_page s' q <-> free_page s q /\ ~ b <= q < b + 2 ^ m) /\
  (forall q, b <= q < b + 2 ^ m -> p <= q < p + 2 ^ k \/ free_page s q) /\
  (forall q x, owner_order x <> None -> st s' q = Some x <-> st s q = Some x).

Lemma merged_refl s p k : inv s -> hole s p k -> k <= MAX_ORDER -> merged s s p k p k.
Proof.
  intros I Hh Hk. split; [lia|]. split; [lia|]. split; [lia|]. split; [lia|].
  split; [|split; [auto|done]]. intros q. split; [|tauto]. intros Hq. split; [done|]. intros Hq'.
  destruct Hq as (r & o & Hr & Hq). destruct Hh as (_ & Hd & _).
  destruct (Hd r o); [by exists (Free o)|lia..].
Qed.

(** One round: the buddy is absorbed. *)
Lemma merge_step s p k : inv s -> hole s p k -> tails s -> k < MAX_ORDER ->
  st s (buddy p k) = Some (Free k) ->
  exists s1, remove_from_free_list s (buddy p k) k = Return s1 /\ inv s1 /\ tails s1 /\
    same_geometry s s1 /\ hole s1 (Z.min p (buddy p k)) (k + 1) /\
    merged s s1 p k (Z.min p (buddy p k)) (k + 1).
Proof.
  intros I Hh Ht Hk Hst. pose proof Hh as ((Ho & Hm & Hb & He) & Hd & Hker).
  pose proof (i_geom s I) as (Hg & _). unfold MAX_ORDER in *.
  destruct (buddy_merge p k ltac:(lia) ltac:(lia) Hm) as (Hne & _ & _ & _ & Hmax).
  destruct (remove_ok s (buddy p k) k I Hst) as (s1 & l1 & l2 & E & I1 & H1 & G1 & F1 & L1 & L2 & X1).
  exists s1. assert (Hblk : block s (buddy p k) k) by (by exists (Free k)).
  pose proof (pow2_pos k ltac:(lia)) as Hpos.
  assert (Hpow : 2 ^ (k + 1) = 2 ^ k + 2 ^ k) by (rewrite Z.pow_add_r by lia; lia).
  assert (Hp1 : hole s1 p k).
  { destruct G1 as (GB & GT & _). split; [unfold fits; by rewrite GB, GT|]. split.
    - intros q o. rewrite (block_update s s1 _ _ _ q o F1). destruct (decide _); [done|auto].
    - intros q Hq. rewrite (st_insert s s1 _ _ q F1). destruct (decide _); [done|auto]. }
  do 2 (split; [done|]). split; [by eapply (tails_drop s s1 _ k)|]. split; [done|].
  split; [by apply hole_merge|]. unfold merged, MAX_ORDER. rewrite Hpow.
  split; [lia|]. split; [lia|]. split; [lia|]. split; [|split; [|split]].
  - rewrite (free_count_change s s1 k (-1)); [lia|unfold MAX_ORDER; lia|done|].
    rewrite L1, L2, !length_app. simpl. lia.
  - intros q. rewrite (free_page_unfree s s1 _ k _ q I Hst F1).
    assert (free_page s q -> ~ p <= q < p + 2 ^ k).
    { intros (r & o & Hr & Hq) Hq'. destruct (Hd r o); [by exists (Free o)|lia..]. }
    intuition lia.
  - intros q Hq. destruct (decide (p <= q < p + 2 ^ k)); [by left|]. right.
    exists (buddy p k), k. split; [done|lia].
  - intros q x Hx. rewrite (st_insert s s1 _ _ q F1). destruct (decide (q = buddy p k)) as [->|]; [|done].
    rewrite Hst. split; intros [= <-]; done.
Qed.

Lemma merged_trans s s1 s2 p k b m b' m' : merged s s1 p k b m -> merged s1 s2 b m b' m' ->
  merged s s2 p k b' m'.
Proof.
  intros (A1 & A2 & A3 & A4 & A5 & A6 & A7) (B1 & B2 & B3 & B4 & B5 & B6 & B7).
  split; [lia|]. split; [lia|]. split; [lia|]. split; [lia|]. split; [|split].
  - intros q. rewrite B5, A5. intuition lia.
  - intros q Hq. destruct (B6 q Hq) as [Hq'|Hq']; [auto|]. right. by apply A5 in Hq' as [? _].
  - intros q x Hx. by rewrite B7, A7.
Qed.

Lemma merge_buddies_spec n : forall s p k, inv s -> hole s p k -> tails s ->
  k + Z.of_nat n = MAX_ORDER ->
  exists s' b m, merge_buddies (seqZ k (Z.of_nat n)) s p k = Return (s', b, m) /\
    inv s' /\ tails s' /\ same_geometry s s' /\ hole s' b m /\ merged s s' p k b m /\
    (m < MAX_ORDER -> st s' (buddy b m) <> Some (Free m)).
Proof.
  induction n as [|n IH]; intros s p k I Hh Ht Hk.
  { exists s, p, k. do 5 (split; [done|]). split; [apply merged_refl; done || lia|lia]. }
  rewrite seqZ_cons by lia. cbn [merge_buddies].
  replace (Z.pred (Z.of_nat (S n))) with (Z.of_nat n) by lia.
  pose proof (i_geom s I) as (Hg0 & Hg1 & Hg2). rewrite uadd_small by lia.
  assert (Hstop : st s (buddy p k) <> Some (Free k) ->
    exists s' b m, Return (s, p, k) = Return (s', b, m) /\
    inv s' /\ tails s' /\ same_geometry s s' /\ hole s' b m /\ merged s s' p k b m /\
    (m < MAX_ORDER -> st s' (buddy b m) <> Some (Free m))).
  { intros Hn. exists s, p, k. do 5 (split; [done|]). split; [apply merged_refl; done || lia|done]. }
  destruct (_ || _) eqn:Erange.
  { apply Hstop. intros (f & Hf & _)%st_frame.
    pose proof (proj1 (i_dom s I (buddy p k)) ltac:(eauto)). apply orb_true_iff in Erange. breflect. lia. }
  apply orb_false_iff in Erange. breflect.
  destruct (get_frame_ok s (buddy p k) I ltac:(lia)) as (f & Hf & ->). cbn [obind].
  assert (Hst : st s (buddy p k) = Some (state f)) by (apply st_frame; eauto). rewrite Hst in Hstop.
  destruct (state f) as [|o'| | | |] eqn:Es; try (apply Hstop; congruence).
  destruct (Z.eqb_spec o' k) as [->|Hne]; [|apply Hstop; congruence].
  destruct (merge_step s p k I Hh Ht ltac:(lia) Hst) as (s1 & -> & I1 & T1 & G1 & H1 & M1).
  ostep. destruct (IH s1 _ (k + 1) I1 H1 T1 ltac:(lia)) as (s' & b & m & E & I' & T' & G' & H' & M' & C').
  exists s', b, m. replace (Z.succ k) with (k + 1) by lia. split; [done|]. do 2 (split; [done|]).
  split; [by eapply same_geometry_trans|]. split; [done|]. split; [by eapply merged_trans|done].
Qed.

Definition free_frames_post (s : FA) (h : Z) (info : AllocatedInfo) (s' : FA) : Prop :=
  same_owned_except s s' h /\
  if decide (1 < ref_count info) then
    st s' h = Some (AllocatedHead (mkAllocated (ref_count info - 1) (order info))) /\
    (forall q, free_page s' q <-> free_page s q) /\ free_pages s' = free_pages s
  else
    (forall o, ~ owned s' h o) /\
    (forall q, free_page s' q <-> free_page s q \/ h <= q < h + 2 ^ order info) /\
    free_pages s' = free_pages s + 2 ^ order info.

(** Another state for the head of an allocated block. *)
Lemma change_head s h info x o : wf s -> st s h = Some (AllocatedHead info) ->
  block_order x = Some o -> owner_order x = Some o -> o = order info ->
  exists s', set_state s h x = Return s' /\ wf s' /\ st s' h = Some x /\
    (forall q, q <> h -> st s' q = st s q) /\ (forall q, free_page s' q <-> free_page s q) /\
    same_geometry s s'.
Proof.
  intros [I Ht Hc] Hst Hbo Hoo ->. apply st_frame in Hst as (f & Hf & Es).
  assert (Hst : st s h = Some (AllocatedHead info)) by (apply st_frame; eauto).
  assert (Hb : block s h (order info)) by (by exists (AllocatedHead info)).
  destruct (set_state_inv s h f x) as (s' & E & I' & G' & F' & L'); [done|done|by rewrite Es| | | | |].
  - intros o ->. done.
  - intros ->. done.
  - left. pose proof (i_link s I h f Hf) as Hl. by rewrite Es in Hl.
  - intros o Ho. assert (o = order info) as -> by congruence. split; [by apply (i_fits s I)|].
    split; [intros; apply (i_disj s I); done|]. intros q _ Hq. by apply (i_kernel s I h (order info)).
  - exists s'. split; [done|].
    assert (S' : forall q, st s' q = if decide (q = h) then Some x else st s q)
      by (intros; by rewrite (st_insert s s' h _ q F')).
    split; [split; [done| |]|split; [by rewrite S', decide_True|split; [|split; [|done]]]].
    + eapply (tails_update s s' h); [done|exact F'| |].
      * intros q o Hne Hq. by apply (outside_block s h (order info) q o).
      * simpl. intros o Ho. assert (o = order info) as -> by congruence.
        apply Ht. by exists (AllocatedHead info).
    + destruct G' as (_ & _ & ->). by rewrite (free_count_ext s s').
    + intros q Hq. by rewrite S', decide_False.
    + intros q. eapply free_page_keep; [exact F'|by rewrite Hst|simpl; by intros o ->].
Qed.

Lemma free_frames_spec s h info sz : wf s -> st s h = Some (AllocatedHead info) ->
  exists s', free_frames s (mkRegion (h * PAGE_SIZE) sz) = Return s' /\ wf s' /\
    free_frames_post s h info s'.
Proof.
  intros W Hst. pose proof W as [I Ht Hc].
  assert (Hb : block s h (order info)) by (by exists (AllocatedHead info)).
  pose proof (i_fits s I h _ Hb) as (Ho & Hm & Hh0 & Hh1). pose proof (i_geom s I) as (Hg0 & Hg1 & Hg2).
  pose proof (pow2_pos (order info) ltac:(lia)) as Hpos.
  unfold free_frames. cbn [start_address].
  assert (to_pfn (h * PAGE_SIZE) = h) as -> by (rewrite to_pfn_eq; by apply Z.div_mul).
  destruct (get_frame_ok s h I ltac:(lia)) as (f & Hf & ->). cbn [obind].
  assert (Es : state f = AllocatedHead info).
  { apply st_frame in Hst as (f' & ? & ?). congruence. }
  rewrite Es. destruct (Z.gtb_spec (ref_count info) 1) as [Hrc|Hrc].
  { destruct (change_head s h info (AllocatedHead (mkAllocated (ref_count info - 1) (order info)))
      (order info) W Hst) as (s' & -> & W' & S1 & S2 & P & G); [done..|].
    exists s'. split; [done|]. split; [done|]. split; [intros p x Hp _; by rewrite S2|].
    rewrite decide_True by lia. split; [done|]. split; [done|apply G]. }
  destruct (set_state_inv s h f Uninitialized) as (s1 & -> & I1 & G1 & F1 & L1);
    [done|done|by rewrite Es|done|done| |done|].
  { left. pose proof (i_link s I h f Hf) as Hl. by rewrite Es in Hl. }
  ostep. assert (H1 : hole s1 h (order info)).
  { destruct G1 as (? & ? & _). by eapply (drop_hole s s1). }
  assert (T1 : tails s1) by (by eapply (tails_drop s s1 h (order info))).
  destruct (merge_buddies_spec (Z.to_nat (MAX_ORDER - order info)) s1 h (order info) I1 H1 T1
    ltac:(lia)) as (s2 & b & m & E2 & I2 & T2 & G2 & H2 & M2 & C2).
  rewrite Z2Nat.id in E2 by lia. rewrite E2. cbn [obind].
  destruct (mkfree_ok s2 b m I2 H2 C2) as (s3 & s4 & -> & E4 & I4 & G4 & F4 & L4 & X4).
  ostep. rewrite E4. ostep. destruct M2 as (M1 & Mb & Me & Mc & Mp & Ma & Mo).
  assert (T4 : tails s4).
  { eapply (tails_hole s2 s4 b m b); [done|done|by apply (hole_self s2)|done|exact F4|done]. }
  assert (Hcount : free_count s4 = free_count s + 2 ^ order info).
  { rewrite (free_count_change s2 s4 m 1); [|lia|done|rewrite L4; simpl; lia].
    rewrite Mc, (free_count_ext s s1) by done. lia. }
  pose proof (free_count_bound s4 I4) as Hbound. pose proof (free_count_bound s I).
  assert (Gall : same_geometry s s4) by eauto using same_geometry_trans.
  destruct Gall as (GB & GT & GF). rewrite GF, Hc, ushl_1, uadd_small by (unfold MAX_ORDER in *; lia).
  eexists. split; [done|]. split; [by apply wf_set_free_pages|].
  assert (S4 : forall q x, owner_order x <> None -> st s4 q = Some x <-> st s1 q = Some x).
  { intros q x Hx. rewrite (st_insert s2 s4 b _ q F4). destruct (decide (q = b)) as [->|].
    - split; [simpl; by intros [= <-]|]. rewrite <- Mo by done. intros Hx'.
      destruct Hx. pose proof (hole_not_block s2 b m b x I2 H2 (hole_self _ _ _ H2) Hx').
      by destruct x.
    - by apply Mo. }
  split; [|rewrite decide_False by lia; split; [|split]].
  - intros p x Hp Hx. change (st (set_free_pages s4 _) p) with (st s4 p).
    rewrite S4 by done. rewrite (st_insert s s1 h _ p F1), decide_False by done. done.
  - intros o (x & Hx & Hxo). change (st s4 h = Some x) in Hx. rewrite S4 in Hx by congruence.
    rewrite (st_insert s s1 h _ h F1), decide_True in Hx by done. by simplify_eq.
  - intros q. change (free_page (set_free_pages s4 _) q) with (free_page s4 q).
    rewrite (free_page_mkfree s2 s4 b m _ q I2 H2 F4), Mp.
    assert (Pk : free_page s1 q <-> free_page s q).
    { eapply free_page_keep; [exact F1|by rewrite Hst|done]. }
    rewrite Pk. specialize (Ma q). rewrite Pk in Ma.
    destruct (decide (b <= q < b + 2 ^ m)); intuition lia.
  - cbn [set_free_pages free_pages]. lia.
Qed.
End Inv.
