(* ===== verification/PhysInit.v ===== *)
(** * Start-up of the buddy allocator, and its theorems

    [init] of Phys.v establishes the invariant of PhysInv.v and hands the allocator
    only memory outside every reservation.  The properties of the allocator are
    stated at the end. *)
From stdpp Require Import gmap relations.
From S2P Require Import Prelude Error Address Region Smalloc Slab Phys PhysInv.
Local Open Scope Z_scope.

Section Init.
Context {L : Type} `{IntrusiveListLaws L}.
Notation FA := (@FrameAllocatorInner L).

(** ** Before the free lists are filled *)

Record blank (s : FA) : Prop := {
  b_geom : 0 <= base_page s /\ 0 <= total_pages s /\ base_page s + total_pages s < 2 ^ 52;
  b_dom : forall p, is_Some (frames s !! p) <-> base_page s <= p < base_page s + total_pages s;
  b_lists : length (free_lists s) = 11%nat;
  b_fl : forall o, fl s o = [];
  b_frame : forall p f, frames s !! p = Some f ->
    link f = false /\ (state f = Uninitialized \/ state f = Kernel)
}.

Lemma blank_no_block s p o : blank s -> ~ block s p o.
Proof.
  intros B (x & (f & Hf & <-)%st_frame & Ho).
  destruct (b_frame s B p f Hf) as [_ [E|E]]; by rewrite E in Ho.
Qed.

Lemma blank_not_free s p o : blank s -> st s p <> Some (Free o).
Proof. intros B Hp. apply (blank_no_block s p o B). by exists (Free o). Qed.

Lemma blank_wf s : blank s -> free_pages s = 0 -> wf s.
Proof.
  intros B Hf0. split.
  - split; try apply B.
    + intros p o Hb. by destruct (blank_no_block s p o B).
    + intros p o q o' Hb. by destruct (blank_no_block s p o B).
    + intros p o _. rewrite (b_fl s B). split; [by intros ?%not_elem_of_nil|].
      intros Hp. by destruct (blank_not_free s p o B).
    + intros o _. rewrite (b_fl s B). constructor.
    + intros p f Hf. destruct (b_frame s B p f Hf) as [-> [->| ->]]; done.
    + intros p o Hp. by destruct (blank_not_free s p o B).
    + intros p o q Hb. by destruct (blank_no_block s p o B).
  - intros p o Hw%owned_block. by destruct (blank_no_block s p o B).
  - rewrite Hf0. rewrite <- length_free_page_list. unfold free_page_list.
    assert (Hnil : forall os : list Z, (os ≫= fun o => fl s o ≫= fun p => seqZ p (2 ^ o)) = []).
    { intros os. induction os as [|o os IH]; [done|]. cbn [mbind list_bind].
      by rewrite (b_fl s B), IH. }
    by rewrite Hnil.
Qed.

Lemma blank_set_kernel s p : blank s -> base_page s <= p < base_page s + total_pages s ->
  exists s', set_state s p Kernel = Return s' /\ blank s' /\ same_geometry s s' /\
    (forall q, st s' q = if decide (q = p) then Some Kernel else st s q).
Proof.
  intros B Hp. destruct (b_geom s B) as (Hg0 & Hg1 & Hg2).
  destruct (proj2 (b_dom s B p) Hp) as [f Hf].
  unfold set_state. rewrite (get_frame_eq s p f) by done. cbn [obind].
  eexists. split; [done|]. split; [|split; [done|]].
  - split; try apply B.
    + intros q. cbn [set_frames frames base_page total_pages]. destruct (decide (q = p)) as [->|].
      * rewrite lookup_insert_eq. split; [done|eauto].
      * rewrite lookup_insert_ne by done. apply (b_dom s B).
    + intros q g. cbn [set_frames frames]. destruct (decide (q = p)) as [->|].
      * rewrite lookup_insert_eq. intros [= <-]. simpl. split; [by apply (b_frame s B p)|auto].
      * rewrite lookup_insert_ne by done. apply (b_frame s B).
  - intros q. by rewrite (st_insert s _ p (mkFrame Kernel (link f)) q).
Qed.

Lemma mark_kernel_spec pfns : forall s, blank s ->
  exists s', mark_kernel s pfns = Return s' /\ blank s' /\ same_geometry s s' /\
    (forall q, st s' q = Some Kernel -> st s q = Some Kernel \/ q ∈ pfns).
Proof.
  induction pfns as [|p pfns IH]; intros s B; cbn [mark_kernel].
  { exists s. do 3 (split; [done|]). auto. }
  destruct (b_geom s B) as (Hg0 & Hg1 & Hg2). rewrite uadd_small by lia.
  assert (exists s1, (if (p >=? base_page s) && (p <? base_page s + total_pages s)
      then set_state s p Kernel else Return s) = Return s1 /\ blank s1 /\ same_geometry s s1 /\
    (forall q, st s1 q = Some Kernel -> st s q = Some Kernel \/ q = p)) as (s1 & -> & B1 & G1 & S1).
  { destruct (_ && _) eqn:E.
    - apply andb_prop in E. breflect. destruct (blank_set_kernel s p B) as (s1 & ? & ? & ? & S1); [lia|].
      exists s1. do 3 (split; [done|]). intros q. rewrite S1. destruct (decide (q = p)); auto.
    - exists s. do 3 (split; [done|]). auto. }
  ostep. destruct (IH s1 B1) as (s' & E & B' & G' & S'). exists s'. do 2 (split; [done|]).
  split; [by eapply same_geometry_trans|]. intros q [Hq|Hq]%S'; [|set_solver].
  destruct (S1 q Hq) as [?| ->]; set_solver.
Qed.

Lemma mark_reserved_spec rs managed : forall s, blank s ->
  exists s', mark_reserved s rs managed = Return s' /\ blank s' /\ same_geometry s s' /\
    (forall q, st s' q = Some Kernel -> st s q = Some Kernel \/ exists r, r ∈ rs /\ q ∈ iter_pfns r).
Proof.
  induction rs as [|r rs IH]; intros s B; cbn [mark_reserved].
  { exists s. do 3 (split; [done|]). auto. }
  assert (exists s1, (if overlaps r managed then mark_kernel s (iter_pfns r) else Return s)
      = Return s1 /\ blank s1 /\ same_geometry s s1 /\
    (forall q, st s1 q = Some Kernel -> st s q = Some Kernel \/ q ∈ iter_pfns r))
    as (s1 & -> & B1 & G1 & S1).
  { destruct (overlaps r managed); [by apply mark_kernel_spec|].
    exists s. do 3 (split; [done|]). auto. }
  ostep. destruct (IH s1 B1) as (s' & E & B' & G' & S'). exists s'. do 2 (split; [done|]).
  split; [by eapply same_geometry_trans|]. intros q [Hq|(x & Hx & Hq)]%S'; [|right; set_solver].
  destruct (S1 q Hq) as [?|?]; [auto|right; set_solver].
Qed.

(** ** Filling the free lists *)

(** Pages of the aligned maximal blocks between frames [lo] and [hi]. *)
Definition in_max_block (lo hi q : Z) : Prop :=
  exists b, b mod 2 ^ MAX_ORDER = 0 /\ lo <= b /\ b + 2 ^ MAX_ORDER <= hi /\
    b <= q < b + 2 ^ MAX_ORDER.

Definition kept (s s' : FA) (lo hi : Z) : Prop :=
  base_page s' = base_page s /\ total_pages s' = total_pages s /\
  (forall p o, block s' p o -> block s p o \/ lo <= p /\ p + 2 ^ o <= hi) /\
  (forall q, st s' q = Some Kernel -> st s q = Some Kernel).

(** One maximal block becomes free. *)
Lemma add_max_block s b : wf s -> hole s b MAX_ORDER ->
  exists s1 s', set_state s b (Free MAX_ORDER) = Return s1 /\
    add_to_free_list s1 b MAX_ORDER = Return s' /\
    wf (set_free_pages s' (uadd (free_pages s') (ushl 1 MAX_ORDER))) /\
    (forall q, free_page s' q <-> free_page s q \/ b <= q < b + 2 ^ MAX_ORDER) /\
    kept s s' b (b + 2 ^ MAX_ORDER).
Proof.
  intros [I Ht Hc] Hh.
  destruct (mkfree_ok s b MAX_ORDER I Hh ltac:(lia)) as (s1 & s' & E1 & E2 & I' & G & F & L1 & X).
  exists s1, s'. do 2 (split; [done|]). pose proof Hh as ((Ho & _) & _).
  assert (Hcnt : free_count s' = free_count s + 2 ^ MAX_ORDER).
  { rewrite (free_count_change s s' MAX_ORDER 1); [lia|done|done|rewrite L1; simpl; lia]. }
  pose proof (free_count_bound s' I') as Hbd. pose proof (free_count_bound s I).
  destruct G as (GB & GT & GF). pose proof (i_geom s' I') as (Hg0 & Hg1 & Hg2).
  rewrite GF, Hc, ushl_1 by (unfold MAX_ORDER; lia).
  change (2 ^ MAX_ORDER) with 1024 in *. rewrite uadd_small by lia.
  split; [|split].
  - apply wf_set_free_pages; [done| |lia].
    eapply (tails_hole s s' b MAX_ORDER b); [done|done|change (2 ^ MAX_ORDER) with 1024; lia|done|exact F|done].
  - intros q. rewrite (free_page_mkfree s s' b MAX_ORDER _ q I Hh F). done.
  - split; [done|]. split; [done|]. split.
    + intros p o. rewrite (block_update s s' b _ _ p o F). destruct (decide (p = b)) as [->|]; [|auto].
      simpl. intros [= <-]. right. change (2 ^ MAX_ORDER) with 1024. lia.
    + intros q. rewrite (st_insert s s' b _ q F). by destruct (decide (q = b)).
Qed.

Lemma populate_blocks_spec n : forall s cur hi, wf s ->
  cur mod 2 ^ MAX_ORDER = 0 -> 0 <= cur -> hi < 2 ^ 52 -> cur < 2 ^ 52 -> hi - cur < Z.of_nat n ->
  (forall q, cur <= q < hi ->
     base_page s <= q < base_page s + total_pages s /\ st s q <> Some Kernel) ->
  (forall p o, block s p o -> p + 2 ^ o <= cur \/ hi <= p) -> (0 < n)%nat ->
  exists s', populate_blocks n s cur hi = Return s' /\ wf s' /\
    (forall q, free_page s' q <-> free_page s q \/ in_max_block cur hi q) /\ kept s s' cur hi.
Proof.
  induction n as [|n IH]; intros s cur hi W Hm Hc0 Hhi Hcur Hn Hav Hblk Hn0; [lia|].
  cbn [populate_blocks]. change (ushl 1 MAX_ORDER) with 1024.
  change (2 ^ MAX_ORDER) with 1024 in *. rewrite uadd_small by lia.
  pose proof (wf_inv s W) as I. destruct (Z.leb_spec (cur + 1024) hi) as [Hle|Hgt].
  2: { exists s. do 2 (split; [done|]). split.
       - intros q. split; [auto|]. intros [?|(b & Hb & ? & ? & ?)]; [done|].
         change (2 ^ MAX_ORDER) with 1024 in *. lia.
       - repeat (split; [done|]). split; auto. }
  destruct (Hav cur ltac:(lia)) as [Hr Hk].
  destruct (get_frame_ok s cur I Hr) as (f & Hf & ->). cbn [obind].
  assert (Hst : st s cur = Some (state f)) by (apply st_frame; eauto).
  assert (Hh : hole s cur MAX_ORDER).
  { split; [|split]; unfold fits, disjoint_blocks; change (2 ^ MAX_ORDER) with 1024.
    - destruct (Hav (cur + 1023) ltac:(lia)) as [? _]. unfold MAX_ORDER. lia.
    - intros q o Hq. destruct (Hblk q o Hq); lia.
    - intros q Hq. apply Hav. lia. }
  destruct (add_max_block s cur W Hh) as (s1 & s2 & E1 & E2 & W2 & P2 & KB & KT & KK & KS).
  replace (match state f with Kernel => _ | _ => _ end) with
    (Return (set_free_pages s2 (uadd (free_pages s2) 1024)));
    [|rewrite E1; cbn [obind]; rewrite E2; by destruct (state f)].
  ostep. change (ushl 1 MAX_ORDER) with 1024 in W2. set (s3 := set_free_pages _ _) in *.
  change (2 ^ MAX_ORDER) with 1024 in *.
  destruct (decide (n = O)) as [->|]; [lia|].
  destruct (IH s3 (cur + 1024) hi W2) as (s' & E & W' & P' & K').
  - rewrite Zplus_mod, Hm. done.
  - lia.
  - done.
  - lia.
  - lia.
  - intros q Hq. change (base_page s3) with (base_page s2). change (total_pages s3) with (total_pages s2).
    rewrite KB, KT. destruct (Hav q ltac:(lia)) as [? Hkq]. split; [done|]. intros Hq'. by apply Hkq, KS.
  - intros p o Hp. destruct (KK p o Hp) as [Hp'|?]; [|lia]. destruct (Hblk p o Hp'); lia.
  - lia.
  - exists s'. do 2 (split; [done|]). split.
    + intros q. rewrite P'. change (free_page s3 q) with (free_page s2 q). rewrite P2.
      unfold in_max_block. change (2 ^ MAX_ORDER) with 1024. split.
      * intros [[?|?]|(b & ? & ? & ?)]; [auto|right; exists cur; lia|right; exists b; lia].
      * intros [?|(b & Hb & Hlo & Hhi' & Hq)]; [auto|].
        destruct (decide (b = cur)) as [->|]; [left; right; lia|]. right. exists b.
        split; [done|]. split; [|lia].
        apply Z.mod_divide in Hb as [u ->]; [|lia]. apply Z.mod_divide in Hm as [v ->]; [|lia]. lia.
    + destruct K' as (B' & T' & KK' & KS').
      split; [rewrite B'; exact KB|]. split; [rewrite T'; exact KT|]. split.
      * intros p o Hp. destruct (KK' p o Hp) as [Hp'|?]; [|lia].
        destruct (KK p o Hp') as [?|?]; [auto|lia].
      * intros q Hq. by apply KS, KS'.
Qed.

(** ** Regions of free memory *)

(** Page [q] lies in an aligned maximal block inside [r]. *)
Definition region_block (r : MemoryRegion) (q : Z) : Prop :=
  exists b, b mod 2 ^ MAX_ORDER = 0 /\ start_address r <= b * PAGE_SIZE /\
    (b + 2 ^ MAX_ORDER) * PAGE_SIZE <= start_address r + rsize r /\ b <= q < b + 2 ^ MAX_ORDER.

Definition page_inside (r : MemoryRegion) (q : Z) : Prop :=
  start_address r <= q * PAGE_SIZE /\ (q + 1) * PAGE_SIZE <= start_address r + rsize r.

(** The frames between the aligned start and the end of a region. *)
Lemma max_block_region r lo q : 0 <= start_address r ->
  lo * PAGE_SIZE = round_up (start_address r) (2 ^ 22) ->
  in_max_block lo ((start_address r + rsize r) / PAGE_SIZE) q <-> region_block r q.
Proof.
  intros H1 Hlo. unfold in_max_block, region_block. change (2 ^ MAX_ORDER) with 1024.
  unfold PAGE_SIZE in *. pose proof (round_up_spec (start_address r) (2 ^ 22) ltac:(lia)) as [Hr1 Hr2].
  split; intros (b & Hb & Hx & Hy & Hz); exists b; (split; [done|]).
  - split; [lia|]. split; [|lia].
    pose proof (Z.mul_div_le (start_address r + rsize r) 4096 ltac:(lia)). nia.
  - assert (round_up (start_address r) (2 ^ 22) <= b * 4096).
    { apply round_up_least; [lia|lia|]. apply Z.mod_divide in Hb as [u ->]; [|lia].
      replace (u * 1024 * 4096) with (u * 2 ^ 22) by lia. apply Z.mod_mul. lia. }
    split; [lia|]. split; [|lia]. apply Z.div_le_lower_bound; lia.
Qed.

Lemma populate_free_region_spec s r : wf s -> region_ok r -> start_address r + 2 ^ 22 < 2 ^ 64 ->
  (forall q, page_inside r q ->
     base_page s <= q < base_page s + total_pages s /\ st s q <> Some Kernel) ->
  (forall p o, block s p o -> (p + 2 ^ o) * PAGE_SIZE <= start_address r) ->
  exists s', populate_free_region s r = Return s' /\ wf s' /\
    (forall q, free_page s' q <-> free_page s q \/ region_block r q) /\
    base_page s' = base_page s /\ total_pages s' = total_pages s /\
    (forall p o, block s' p o -> block s p o \/
       start_address r <= p * PAGE_SIZE /\ (p + 2 ^ o) * PAGE_SIZE <= start_address r + rsize r) /\
    (forall q, st s' q = Some Kernel -> st s q = Some Kernel).
Proof.
  intros W Hr Hmax Hav Hblk. unfold populate_free_region.
  change (ushl 1 (MAX_ORDER + PAGE_SHIFT)) with (2 ^ 22).
  rewrite align_up_pow2 by rsolve. ostep. rewrite end_address_eq by done. rewrite !to_pfn_eq.
  destruct (round_up_spec (start_address r) (2 ^ 22) ltac:(lia)) as [Ha1 Ha2].
  set (al := round_up _ _) in *.
  assert (Hal : exists lo, al = lo * PAGE_SIZE /\ lo mod 2 ^ MAX_ORDER = 0).
  { apply Z.mod_divide in Ha2 as [u Hu]; [|lia]. exists (u * 1024). rewrite Hu.
    change (2 ^ MAX_ORDER) with 1024. unfold PAGE_SIZE. split; [lia|apply Z.mod_mul; lia]. }
  destruct Hal as (lo & Hlo & Hlom).
  assert (Hbl : forall q, in_max_block lo ((start_address r + rsize r) / PAGE_SIZE) q
    <-> region_block r q) by (intros; apply max_block_region; [rsolve|done]).
  pose proof (Z.mul_div_le (start_address r + rsize r) PAGE_SIZE ltac:(done)) as Hdiv.
  destruct (Z.geb_spec al (start_address r + rsize r)) as [Hge|Hlt].
  { exists s. do 2 (split; [done|]). split; [|repeat (split; [done|]); auto].
    intros q. split; [auto|]. intros [?|Hq]; [done|]. apply Hbl in Hq as (b & Hb & ? & ? & ?).
    change (2 ^ MAX_ORDER) with 1024 in *. unfold PAGE_SIZE in *. nia. }
  rewrite Hlo, Z.div_mul by done. set (hi := (start_address r + rsize r) / PAGE_SIZE) in *.
  unfold region_ok in Hr. unfold PAGE_SIZE in *.
  destruct (populate_blocks_spec (S (Z.to_nat (hi - lo))) s lo hi W)
    as (s' & E & W' & P' & B' & T' & K' & S'); [done|lia..| | |lia|].
  - intros q Hq. apply Hav. unfold page_inside, PAGE_SIZE. lia.
  - intros p o Hp. specialize (Hblk p o Hp). left. lia.
  - exists s'. do 2 (split; [done|]). split; [intros q; by rewrite P', Hbl|].
    do 2 (split; [done|]). split; [|done].
    intros p o Hp. destruct (K' p o Hp) as [?|?]; [auto|]. right. lia.
Qed.

Definition ascending (rs : list MemoryRegion) : Prop :=
  StronglySorted (fun x y => start_address x + rsize x <= start_address y) rs.

Lemma populate_regions_spec rs : forall s, wf s -> ascending rs ->
  Forall (fun r => region_ok r /\ start_address r + 2 ^ 22 < 2 ^ 64) rs ->
  (forall r q, r ∈ rs -> page_inside r q ->
     base_page s <= q < base_page s + total_pages s /\ st s q <> Some Kernel) ->
  (forall r p o, r ∈ rs -> block s p o -> (p + 2 ^ o) * PAGE_SIZE <= start_address r) ->
  exists s', populate_regions s rs = Return s' /\ wf s' /\
    (forall q, free_page s' q <-> free_page s q \/ exists r, r ∈ rs /\ region_block r q).
Proof.
  induction rs as [|r rs IH]; intros s W Hasc Hrs Hav Hblk; cbn [populate_regions].
  { exists s. do 2 (split; [done|]). intros q. split; [auto|].
    intros [?|(r & ?%not_elem_of_nil & _)]; done. }
  apply SSorted_cons_iff in Hasc as [Hasc Hlt]. inversion Hrs as [|? ? [Hr Hr2] Hrs']; subst.
  destruct (populate_free_region_spec s r W Hr Hr2) as (s1 & -> & W1 & P1 & B1 & T1 & K1 & S1).
  { intros q. apply Hav. by left. }
  { intros p o. apply Hblk. by left. }
  ostep. destruct (IH s1 W1 Hasc Hrs') as (s' & E & W' & P').
  - intros x q Hx Hq. rewrite B1, T1. destruct (Hav x q ltac:(by right) Hq) as [? Hk].
    split; [done|]. intros Hq'. by apply Hk, S1.
  - intros x p o Hx Hp. destruct (K1 p o Hp) as [Hp'|[_ He]].
    + apply (Hblk x p o); [by right|done].
    + specialize (Hlt x Hx). lia.
  - exists s'. do 2 (split; [done|]). intros q. rewrite P', P1. split.
    + intros [[?|?]|(x & ? & ?)]; [auto|right; exists r; set_solver|right; exists x; set_solver].
    + intros [?|(x & [->|Hx]%elem_of_cons & Hq)]; [auto|auto|right; eauto].
Qed.

(** ** setup and init *)

Lemma iter_pfns_touch r q : region_ok r -> q ∈ iter_pfns r ->
  exists a, a ∈ r /\ q * PAGE_SIZE <= a < (q + 1) * PAGE_SIZE.
Proof.
  intros Hr. unfold iter_pfns. rewrite to_pfn_eq, list_elem_of_fmap.
  rewrite Z.shiftr_div_pow2 by (unfold PAGE_SHIFT; lia). change (2 ^ PAGE_SHIFT) with PAGE_SIZE.
  intros (i & -> & Hi%elem_of_seqZ).
  pose proof (Z.div_mod (start_address r) PAGE_SIZE ltac:(done)).
  pose proof (Z.mod_pos_bound (start_address r) PAGE_SIZE ltac:(done)).
  pose proof (Z.mul_div_le (rsize r) PAGE_SIZE ltac:(done)).
  unfold region_ok, PAGE_SIZE in *. rewrite uadd_small by lia.
  exists (Z.max (start_address r) ((start_address r / 4096 + i) * 4096)). rsolve.
Qed.

Definition fresh_frames (base total : Z) : gmap Z Frame :=
  list_to_map (map (fun i => (uadd base i, frame_new)) (seqZ 0 total)).

Lemma fresh_frames_dom base total p : 0 <= base -> base + total < 2 ^ 52 ->
  is_Some (fresh_frames base total !! p) <-> base <= p < base + total.
Proof.
  intros Hb Hm. unfold fresh_frames. rewrite <- elem_of_dom, dom_list_to_map_L, elem_of_list_to_set.
  rewrite <- list_fmap_compose, list_elem_of_fmap. simpl. split.
  - intros (i & -> & Hi%elem_of_seqZ). simpl. rewrite uadd_small; lia.
  - intros Hp. exists (p - base). simpl. rewrite uadd_small, elem_of_seqZ; lia.
Qed.

Lemma fresh_frames_lookup base total p f : fresh_frames base total !! p = Some f -> f = frame_new.
Proof.
  intros Hf%elem_of_list_to_map_2. apply list_elem_of_fmap in Hf as (i & [= _ ->] & _). done.
Qed.

Lemma fresh_blank base total : 0 <= base -> 0 <= total -> base + total < 2 ^ 52 ->
  blank (mkFA (fresh_frames base total) base total 0 (replicate 11 ll_new)).
Proof.
  intros Hb Ht Hm. split; simpl; [done|intros; by apply fresh_frames_dom|done| |].
  - intros o. unfold fl. cbn [free_lists]. destruct (_ !! _) as [l|] eqn:E; [|done].
    change (replicate 11 ll_new !! Z.to_nat o = Some l) in E.
    apply lookup_replicate in E as [-> _]. apply ll_iter_new.
  - intros p f ->%fresh_frames_lookup. auto.
Qed.

Context {T : AddressTranslator}.
Variables sizeof_Frame alignof_Frame : Z.

Lemma setup_spec sm m a sm' : region_ok m ->
  alloc sm (umul (rsize m / PAGE_SIZE) sizeof_Frame) alignof_Frame = Return (Ok a, sm') ->
  exists s : FA, setup sizeof_Frame alignof_Frame sm m = Return (s, sm') /\
    blank s /\ free_pages s = 0 /\
    base_page s = start_address m / PAGE_SIZE /\ total_pages s = rsize m / PAGE_SIZE /\
    (forall q, st s q = Some Kernel -> exists r, r ∈ rl_regions (res sm') /\ q ∈ iter_pfns r).
Proof.
  intros Hm Ha. unfold setup. rewrite to_pfn_eq.
  rewrite Z.shiftr_div_pow2 by (unfold PAGE_SHIFT; lia). change (2 ^ PAGE_SHIFT) with PAGE_SIZE.
  rewrite Ha. cbn [obind]. set (base := start_address m / PAGE_SIZE). set (total := rsize m / PAGE_SIZE).
  assert (Hgeo : 0 <= base /\ 0 <= total /\ base + total < 2 ^ 52).
  { unfold region_ok, base, total, PAGE_SIZE in *. split; [apply Z.div_pos; lia|].
    split; [apply Z.div_pos; lia|].
    pose proof (Z.mul_div_le (start_address m) 4096 ltac:(lia)).
    pose proof (Z.mul_div_le (rsize m) 4096 ltac:(lia)). lia. }
  destruct Hgeo as (Hg0 & Hg1 & Hg2). fold (fresh_frames base total).
  pose proof (fresh_blank base total Hg0 Hg1 Hg2) as B.
  destruct (mark_reserved_spec (rl_regions (res sm')) m _ B) as (s & E & B' & (GB & GT & GF) & S').
  change (Z.to_nat MAX_ORDER + 1)%nat with 11%nat. rewrite E. ostep.
  exists s. split; [done|]. split; [done|]. split; [done|]. split; [done|]. split; [done|].
  intros q Hq. destruct (S' q Hq) as [Hk|?]; [|done].
  apply st_frame in Hk as (f & Hf & Hs). apply fresh_frames_lookup in Hf. by subst.
Qed.

(** Memory lies between the start of the first region and the end of the last. *)
Lemma memory_span m ms lst a : regions_wf (m :: ms) -> last (m :: ms) = Some lst ->
  covered (m :: ms) a -> start_address m <= a < start_address lst + rsize lst.
Proof.
  intros Hwf Hlast Hc. split; [by eapply covered_head_le|].
  apply last_Some in Hlast as (l & E). rewrite E in *.
  pose proof (regions_wf_ok _ lst Hwf ltac:(set_solver)) as Hlst.
  destruct Hwf as [_ (_ & _ & Hg)%SSorted_app_iff]. destruct Hc as (q & Hq & Ha).
  apply elem_of_app in Hq as [Hq| ->%list_elem_of_singleton]; [|rsolve].
  specialize (Hg q lst Hq ltac:(by left)). unfold gapped in Hg. rsolve.
Qed.

(** The pages of an aligned maximal block of which every address is free. *)
Definition free_max_block (sm : Smalloc) (b : Z) : Prop :=
  b mod 2 ^ MAX_ORDER = 0 /\
  forall a, b * PAGE_SIZE <= a < (b + 2 ^ MAX_ORDER) * PAGE_SIZE ->
    covered (rl_regions (memory sm)) a /\ ~ covered (rl_regions (res sm)) a.

Lemma region_block_free sm fr q : regions_wf fr ->
  (forall a, covered fr a <->
     covered (rl_regions (memory sm)) a /\ ~ covered (rl_regions (res sm)) a) ->
  (exists r, r ∈ fr /\ region_block r q) <->
  exists b, free_max_block sm b /\ b <= q < b + 2 ^ MAX_ORDER.
Proof.
  intros Hwf Hcov. unfold region_block, free_max_block.
  change (2 ^ MAX_ORDER) with 1024. unfold PAGE_SIZE. split.
  - intros (r & Hr & b & Hb & Hlo & Hhi & Hq). exists b. split; [|done]. split; [done|].
    intros a Ha. apply Hcov. exists r. split; [done|]. rsolve.
  - intros (b & [Hb Hfree] & Hq).
    destruct (covered_interval fr (b * 4096) ((b + 1024) * 4096) Hwf ltac:(lia)) as (r & Hr & Hin).
    { intros a Ha. by apply Hcov, Hfree. }
    exists r. split; [done|]. exists b. split; [done|].
    pose proof (Hin (b * 4096) ltac:(lia)). pose proof (Hin ((b + 1024) * 4096 - 1) ltac:(lia)).
    rsolve.
Qed.

Definition managed_span (sm : Smalloc) : option MemoryRegion :=
  match rl_regions (memory sm), last (rl_regions (memory sm)) with
  | m :: _, Some lst => Some (mkRegion (start_address m)
      (start_address lst + rsize lst - start_address m))
  | _, _ => None
  end.

(** Pages inside free memory are managed and not marked as the kernel's. *)
Lemma free_region_pages (s : FA) sm m ms lst fr x q :
  rl_regions (memory sm) = m :: ms -> last (m :: ms) = Some lst ->
  regions_wf (m :: ms) -> start_address m mod PAGE_SIZE = 0 ->
  (forall r, r ∈ rl_regions (res sm) -> region_ok r) ->
  base_page s = start_address m / PAGE_SIZE ->
  total_pages s = (start_address lst + rsize lst - start_address m) / PAGE_SIZE ->
  (forall p, st s p = Some Kernel -> exists r, r ∈ rl_regions (res sm) /\ p ∈ iter_pfns r) ->
  (forall a, covered fr a <->
     covered (rl_regions (memory sm)) a /\ ~ covered (rl_regions (res sm)) a) ->
  x ∈ fr -> page_inside x q ->
  base_page s <= q < base_page s + total_pages s /\ st s q <> Some Kernel.
Proof.
  intros Hm Hlast Hwf Hal Hres Hb Ht HK Hcov Hx [Hp1 Hp2].
  assert (Hin : forall a, q * PAGE_SIZE <= a < (q + 1) * PAGE_SIZE -> covered fr a).
  { intros a Ha. exists x. split; [done|]. rsolve. }
  split.
  - pose proof (Hin (q * PAGE_SIZE) ltac:(unfold PAGE_SIZE; lia)) as [H1 _]%Hcov.
    pose proof (Hin ((q + 1) * PAGE_SIZE - 1) ltac:(unfold PAGE_SIZE; lia)) as [H2 _]%Hcov.
    rewrite Hm in H1, H2. apply (memory_span m ms lst) in H1, H2; [|done..].
    apply Z.mod_divide in Hal as [u Hu]; [|done]. rewrite Hb, Ht, Hu, Z.div_mul by done.
    unfold PAGE_SIZE in *. split; [lia|].
    assert (q + 1 - u <= (start_address lst + rsize lst - u * 4096) / 4096); [|lia].
    apply Z.div_le_lower_bound; lia.
  - intros (r & Hr & Hq)%HK. destruct (iter_pfns_touch r q (Hres r Hr) Hq) as (a & Ha & Hpa).
    apply Hin, Hcov in Hpa as [_ []]. by exists r.
Qed.

Lemma managed_span_inv sm m : managed_span sm = Some m ->
  exists r rs lst, rl_regions (memory sm) = r :: rs /\ last (r :: rs) = Some lst /\
    m = mkRegion (start_address r) (start_address lst + rsize lst - start_address r).
Proof.
  unfold managed_span. destruct (rl_regions (memory sm)) as [|r rs]; [done|].
  destruct (last (r :: rs)) as [lst|] eqn:E; [|done]. intros [= <-]. eauto 10.
Qed.

(** The memory that remains free once the frame metadata is reserved. *)
Lemma free_memory_exact B sm : smalloc_ok B sm ->
  no_span (rl_regions (memory sm)) (rl_regions (res sm)) ->
  exists fr, free_collect (S (length (rl_regions (memory sm)) + length (rl_regions (res sm))))
      (iter_free sm) = Return fr /\
    (forall a, covered fr a <->
       covered (rl_regions (memory sm)) a /\ ~ covered (rl_regions (res sm)) a) /\
    regions_wf fr /\ nonempty fr.
Proof.
  intros [(Hm1 & Hm2 & _) (Hr1 & Hr2 & _)] Hns.
  apply (free_collect_spec _ (iter_free sm)); [by do 4 (split; [done|])|].
  unfold iter_size, fragments. simpl. lia.
Qed.

Lemma init_spec B sm m a sm' :
  smalloc_ok B sm -> permit_region_realloc sm = false -> PAGE_SIZE <= B ->
  managed_span sm = Some m -> start_address m mod PAGE_SIZE = 0 ->
  let metadata := umul (rsize m / PAGE_SIZE) sizeof_Frame in
  0 < metadata -> is_power_of_two alignof_Frame = true ->
  B + alignof_Frame + metadata < 2 ^ 64 -> B + 2 ^ 22 < 2 ^ 64 ->
  alloc sm metadata alignof_Frame = Return (Ok a, sm') ->
  no_span (rl_regions (memory sm')) (rl_regions (res sm')) ->
  exists s : FA, init sizeof_Frame alignof_Frame sm = Return s /\ wf s /\
    (forall q, free_page s q <-> exists b, free_max_block sm' b /\ b <= q < b + 2 ^ MAX_ORDER) /\
    (forall x, covered (rl_regions (res sm)) x \/ a <= x < a + metadata ->
       covered (rl_regions (res sm')) x).
Proof.
  intros Hok Hperm HB Hspan Hal md Hmd Hpow HBm HB22 Halloc Hns.
  destruct (managed_span_inv sm m Hspan) as (r & rs & lst & Em & Elast & ->).
  destruct (alloc_reserves B sm md alignof_Frame a sm') as (Hok' & Hmem & Hres); [done..|].
  pose proof Hok as [(Hmwf & Hmne & Hmb & _) _]. rewrite Em in Hmwf, Hmne, Hmb.
  assert (Hlst : region_ok lst /\ start_address lst + rsize lst <= B).
  { apply last_Some in Elast as (l & El). rewrite El in Hmwf, Hmb. split.
    - apply (regions_wf_ok _ lst Hmwf). set_solver.
    - unfold below in Hmb. rewrite list.Forall_forall in Hmb. apply Hmb. set_solver. }
  inversion Hmne as [|? ? Hr0 _]; subst. pose proof (regions_wf_ok _ r Hmwf ltac:(by left)) as Hrok.
  assert (Hge : start_address r <= start_address lst + rsize lst).
  { destruct (memory_span r rs lst (start_address r) Hmwf Elast); [|lia].
    apply covered_cons. left. rsolve. }
  assert (Hmreg : region_ok (mkRegion (start_address r)
    (start_address lst + rsize lst - start_address r))) by rsolve.
  destruct (setup_spec sm _ a sm' Hmreg Halloc) as (s & Es & Bs & F0 & SB & ST & SK). simpl in SB, ST.
  destruct (free_memory_exact B sm' Hok' Hns) as (fr & Efr & Hfr & Hfrwf & Hfrne).
  pose proof Hok' as [_ (Hrwf' & _)].
  destruct (populate_regions_spec fr s) as (s' & Ep & W' & P').
  - by apply blank_wf.
  - unfold ascending. eapply SSorted_impl; [|apply Hfrwf]. unfold gapped. intros. lia.
  - apply list.Forall_forall. intros x Hx. split; [by apply (regions_wf_ok _ x Hfrwf)|].
    pose proof (regions_wf_ok _ x Hfrwf Hx). unfold nonempty in Hfrne.
    rewrite list.Forall_forall in Hfrne. specialize (Hfrne x Hx).
    assert (covered fr (start_address x)) as [Hc _]%Hfr by (exists x; split; [done|rsolve]).
    rewrite Hmem, Em in Hc. apply (memory_span r rs lst) in Hc; [lia|done|done].
  - intros x q Hx. eapply (free_region_pages s sm' r rs lst fr x q); try done.
    + by rewrite Hmem.
    + intros y Hy. by apply (regions_wf_ok _ y Hrwf').
  - intros x p o _ Hp. by destruct (blank_no_block s p o Bs).
  - exists s'. split; [|split; [done|split; [|done]]].
    + unfold init, base_ram_base_address, rl_count, rl_index. rewrite Em. simpl length.
      rewrite (proj2 (Z.eqb_neq _ 0)) by lia. ostep. rewrite Elast. ostep.
      rewrite end_address_eq by apply Hlst. cbn [lookup list_lookup unwrap obind]. rewrite from_start_end_address_eq by rsolve. cbn [obind].
      rewrite Es. cbn [obind]. rewrite Efr. cbn [obind]. done.
    + intros q. rewrite P', (region_block_free sm' fr q Hfrwf Hfr). split; [|auto].
      intros [(p & o & Hp & _)|?]; [|done]. by destruct (blank_not_free s p o Bs).
Qed.
End Init.

(** ** No fragmentation between buddies *)

Section Theorems.
Context {L : Type} `{IntrusiveListLaws L}.
Notation FA := (@FrameAllocatorInner L).

Lemma coalesced_cover (s : FA) n : forall b, inv s -> Z.of_nat n <= MAX_ORDER ->
  b mod 2 ^ Z.of_nat n = 0 ->
  (forall q, b <= q < b + 2 ^ Z.of_nat n -> free_page s q) ->
  exists p o, st s p = Some (Free o) /\ Z.of_nat n <= o /\
    p <= b /\ b + 2 ^ Z.of_nat n <= p + 2 ^ o.
Proof.
  induction n as [|n IH]; intros b I Hn Hb Hall.
  { destruct (Hall b) as (p & o & Hp & Hq); [change (2 ^ Z.of_nat 0) with 1; lia|].
    exists p, o. split; [done|]. change (2 ^ Z.of_nat 0) with 1.
    destruct (i_fits s I p o) as (Ho & _); [by exists (Free o)|]. lia. }
  set (k := Z.of_nat n) in *. replace (Z.of_nat (S n)) with (k + 1) in * by lia.
  assert (Hpow : 2 ^ (k + 1) = 2 ^ k + 2 ^ k) by (rewrite Z.pow_add_r by lia; lia).
  pose proof (pow2_pos k ltac:(lia)) as Hpos.
  assert (Hbk : b mod 2 ^ k = 0) by (apply (pow2_divide_mod b k (k + 1)); [lia|done]).
  destruct (IH b I) as (p1 & o1 & Hp1 & Ho1 & A1 & A2); [lia|done|intros; apply Hall; lia|].
  destruct (IH (b + 2 ^ k) I) as (p2 & o2 & Hp2 & Ho2 & B1 & B2);
    [lia|by rewrite Zplus_mod, Hbk, Z_mod_same_full|intros; apply Hall; lia|].
  assert (Hwhole : forall p o, st s p = Some (Free o) -> k + 1 <= o -> p < b + 2 ^ (k + 1) ->
    b < p + 2 ^ o -> exists p o, st s p = Some (Free o) /\ k + 1 <= o /\
    p <= b /\ b + 2 ^ (k + 1) <= p + 2 ^ o).
  { intros p o Hp Ho Hlt1 Hlt2. exists p, o. do 2 (split; [done|]).
    destruct (i_fits s I p o) as (_ & Hm & _); [by exists (Free o)|].
    by apply (aligned_nested b (k + 1) p o); [lia|..]. }
  destruct (decide (k + 1 <= o1)); [apply (Hwhole p1 o1); done || lia|].
  destruct (decide (k + 1 <= o2)); [apply (Hwhole p2 o2); done || lia|].
  assert (o1 = k) as -> by lia. assert (o2 = k) as -> by lia.
  assert (p1 = b) as -> by lia. assert (p2 = b + 2 ^ k) as -> by lia.
  exfalso. apply (i_coal s I b k Hp1 ltac:(lia)).
  destruct (i_fits s I b k) as (_ & _ & Hb0 & _); [by exists (Free k)|].
  pose proof (i_geom s I). unfold MAX_ORDER in Hn.
  destruct (buddy_cases b k) as [[_ ->]|(Hx & Hy & _)]; [lia|lia|done|done|].
  rewrite Hpow in *. apply Z.mod_divide in Hx as [u Hu]; [|lia].
  apply Z.mod_divide in Hb as [v Hv]; [|lia]. assert (2 * (v - u) = 1) by nia. lia.
Qed.

(** ** Handles to allocated blocks *)

Definition refs (hs : list (Z * Z)) (h : Z) : nat := length (filter (fun x => x.1 = h) hs).

(** A handle is the [(head, order)] of its block; clones are further handles. *)
Inductive phys_step : FA * list (Z * Z) -> FA * list (Z * Z) -> Prop :=
| pstep_alloc s hs r reg s' : 0 <= r -> alloc_frames s r = Return (Ok reg, s') ->
    phys_step (s, hs) (s', (to_pfn (start_address reg), r) :: hs)
| pstep_alloc_fail s hs r e s' : 0 <= r -> alloc_frames s r = Return (Err e, s') ->
    phys_step (s, hs) (s', hs)
| pstep_clone s hs1 h o hs2 s' : Z.of_nat (refs (hs1 ++ (h, o) :: hs2) h) < 2 ^ 32 - 1 ->
    page_alloc_clone s (mkRegion (h * PAGE_SIZE) (2 ^ o * PAGE_SIZE)) = Return s' ->
    phys_step (s, hs1 ++ (h, o) :: hs2) (s', (h, o) :: hs1 ++ (h, o) :: hs2)
| pstep_drop s hs1 h o hs2 s' :
    page_alloc_drop s (mkRegion (h * PAGE_SIZE) (2 ^ o * PAGE_SIZE)) = Return s' ->
    phys_step (s, hs1 ++ (h, o) :: hs2) (s', hs1 ++ hs2).

(** The reference count of a block is the number of its handles. *)
Definition handles_ok (y : FA * list (Z * Z)) : Prop :=
  wf y.1 /\
  (forall h o, (h, o) ∈ y.2 -> exists info, st y.1 h = Some (AllocatedHead info) /\
     order info = o /\ ref_count info = Z.of_nat (refs y.2 h)).

Lemma refs_app hs1 hs2 h : refs (hs1 ++ hs2) h = (refs hs1 h + refs hs2 h)%nat.
Proof. unfold refs. by rewrite filter_app, length_app. Qed.

Lemma refs_cons x hs h : refs (x :: hs) h = ((if decide (x.1 = h) then 1 else 0) + refs hs h)%nat.
Proof. unfold refs. rewrite filter_cons. destruct (decide _); simpl; done. Qed.

Lemma refs_pos hs h o : (h, o) ∈ hs -> (0 < refs hs h)%nat.
Proof.
  intros (l1 & l2 & ->)%list_elem_of_split. rewrite refs_app, refs_cons. simpl.
  rewrite decide_True by done. lia.
Qed.

Lemma refs_zero hs h : (forall o, (h, o) ∉ hs) -> refs hs h = 0%nat.
Proof.
  intros Hn. induction hs as [|[h' o'] hs IH]; [done|]. rewrite refs_cons. simpl.
  rewrite decide_False by (intros ->; apply (Hn o'); by left).
  apply IH. intros o Ho. apply (Hn o). by right.
Qed.

Lemma to_pfn_page h : to_pfn (h * PAGE_SIZE) = h.
Proof. rewrite to_pfn_eq. by apply Z.div_mul. Qed.

Lemma page_alloc_clone_spec (s : FA) h info sz : wf s -> st s h = Some (AllocatedHead info) ->
  exists s', page_alloc_clone s (mkRegion (h * PAGE_SIZE) sz) = Return s' /\ wf s' /\
    st s' h = Some (AllocatedHead (mkAllocated ((ref_count info + 1) mod 2 ^ 32) (order info))) /\
    (forall q, q <> h -> st s' q = st s q) /\ (forall q, free_page s' q <-> free_page s q).
Proof.
  intros W Hst. pose proof (wf_inv s W) as I. unfold page_alloc_clone. cbn [start_address].
  rewrite to_pfn_page. assert (Hb : block s h (order info)) by (by exists (AllocatedHead info)).
  destruct (i_fits s I h _ Hb) as (_ & _ & Hh0 & Hh1). pose proof (block_pow s h _ I Hb).
  destruct (get_frame_ok s h I ltac:(lia)) as (f & Hf & ->). cbn [obind].
  assert (state f = AllocatedHead info) as ->.
  { apply st_frame in Hst as (f' & ? & ?). congruence. }
  destruct (change_head s h info
    (AllocatedHead (mkAllocated ((ref_count info + 1) mod 2 ^ 32) (order info)))
    (order info) W Hst) as (s' & E & W' & S1 & S2 & P & _); [done..|].
  exists s'. done.
Qed.

Lemma handles_alloc (s : FA) hs r reg s' : handles_ok (s, hs) -> 0 <= r ->
  alloc_frames s r = Return (Ok reg, s') ->
  handles_ok (s', (to_pfn (start_address reg), r) :: hs).
Proof.
  intros [W Hh] Hr E. simpl in *. destruct (alloc_frames_spec s r W Hr) as (res & s1 & E1 & W1 & Hp).
  rewrite E in E1. injection E1 as <- <-.
  destruct Hp as (b & -> & Hfit & Hfree & _ & Sb & Hown & _). cbn [start_address].
  rewrite to_pfn_page. split; [done|]. simpl.
  assert (Hpos : 0 < 2 ^ r) by (by apply pow2_pos).
  assert (Hne : forall h o, (h, o) ∈ hs -> h <> b).
  { intros h o (info & Hst & _)%Hh ->. destruct (Hfree b ltac:(lia)) as (p & k & Hp & Hq).
    by pose proof (free_not_owned s p k b _ (wf_inv s W) Hp Hq Hst). }
  intros h o [[= -> ->]|Hin]%elem_of_cons.
  - eexists. split; [exact Sb|]. split; [done|]. rewrite refs_cons, decide_True by done.
    rewrite (refs_zero hs b); [done|]. intros o Hin. by apply (Hne b o).
  - destruct (Hh h o Hin) as (info & Hst & Ho & Hrc). specialize (Hne h o Hin).
    exists info. rewrite refs_cons, decide_False by (simpl; congruence).
    split; [by apply (Hown h (AllocatedHead info))|done].
Qed.

Lemma handles_clone (s : FA) hs1 h o hs2 s' : handles_ok (s, hs1 ++ (h, o) :: hs2) ->
  Z.of_nat (refs (hs1 ++ (h, o) :: hs2) h) < 2 ^ 32 - 1 ->
  page_alloc_clone s (mkRegion (h * PAGE_SIZE) (2 ^ o * PAGE_SIZE)) = Return s' ->
  handles_ok (s', (h, o) :: hs1 ++ (h, o) :: hs2).
Proof.
  set (hs := hs1 ++ (h, o) :: hs2). intros [W Hh] Hlt E. simpl in *.
  destruct (Hh h o ltac:(unfold hs; set_solver)) as (info & Hst & Ho & Hrc).
  destruct (page_alloc_clone_spec s h info (2 ^ o * PAGE_SIZE) W Hst) as (s1 & E1 & W1 & S1 & S2 & _).
  rewrite E in E1. injection E1 as <-. split; [done|]. simpl.
  intros h' o' Hin. assert (Hin' : (h', o') ∈ hs).
  { apply elem_of_cons in Hin as [[= -> ->]|?]; [unfold hs; set_solver|done]. }
  destruct (Hh h' o' Hin') as (info' & Hst' & Ho' & Hrc'). rewrite refs_cons. simpl.
  destruct (decide (h = h')) as [<-|Hne].
  - eexists. split; [exact S1|]. simplify_eq. split; [done|]. simpl. rewrite Z.mod_small; lia.
  - exists info'. rewrite S2 by congruence. done.
Qed.

Lemma handles_drop (s : FA) hs1 h o hs2 s' : handles_ok (s, hs1 ++ (h, o) :: hs2) ->
  page_alloc_drop s (mkRegion (h * PAGE_SIZE) (2 ^ o * PAGE_SIZE)) = Return s' ->
  handles_ok (s', hs1 ++ hs2).
Proof.
  intros [W Hh] E. simpl in *.
  destruct (Hh h o ltac:(set_solver)) as (info & Hst & Ho & Hrc).
  destruct (free_frames_spec s h info (2 ^ o * PAGE_SIZE) W Hst) as (s1 & E1 & W1 & Hown & Hp).
  unfold page_alloc_drop in E. rewrite E in E1. injection E1 as <-. split; [done|]. simpl.
  assert (Hcnt : forall h', refs (hs1 ++ (h, o) :: hs2) h' =
    ((if decide (h = h') then 1 else 0) + refs (hs1 ++ hs2) h')%nat).
  { intros h'. rewrite !refs_app, refs_cons. simpl. lia. }
  rewrite Hcnt, decide_True in Hrc by done.
  intros h' o' Hin. destruct (Hh h' o') as (info' & Hst' & Ho' & Hrc'); [set_solver|].
  rewrite Hcnt in Hrc'. pose proof (refs_pos _ _ _ Hin) as Hpos.
  destruct (decide (h = h')) as [<-|Hne].
  - simplify_eq. rewrite decide_True in Hp by lia. destruct Hp as (S1 & _).
    eexists. split; [exact S1|]. simpl. split; [done|]. lia.
  - exists info'. split; [|done]. by apply (Hown h' (AllocatedHead info')).
Qed.

Lemma phys_step_ok y y' : phys_step y y' -> handles_ok y -> handles_ok y'.
Proof.
  intros Hs Hok. destruct Hs as [s hs r reg s' Hr E|s hs r e s' Hr E| |].
  - by eapply handles_alloc.
  - destruct Hok as [W Hh]. destruct (alloc_frames_spec s r W Hr) as (res & s1 & E1 & W1 & Hp).
    rewrite E in E1. injection E1 as <- <-. simpl in *.
    assert (s' = s) as -> by (destruct e; naive_solver). by split.
  - by eapply handles_clone.
  - by eapply handles_drop.
Qed.

(** * Theorems *)

(** C12: [alloc_frames] returns an aligned block of [2^order] frames that were all
    free, takes exactly these frames out of the free pages, leaves every other
    allocated block alone and keeps the invariant.  It refuses orders above
    [MAX_ORDER], and reports [NoMemory] exactly when no aligned run of [2^order]
    free frames exists. *)
Theorem alloc_frames_correct (s : FA) r : wf s -> 0 <= r ->
  exists res s', alloc_frames s r = Return (res, s') /\ wf s' /\
    alloc_frames_post s r res s' /\
    (r <= MAX_ORDER -> (exists b, b mod 2 ^ r = 0 /\ forall q, b <= q < b + 2 ^ r -> free_page s q) <->
       exists reg, res = Ok reg).
Proof.
  intros W Hr. destruct (alloc_frames_spec s r W Hr) as (res & s' & E & W' & Hp).
  exists res, s'. do 3 (split; [done|]). intros Hle. split.
  - intros (b & Hb & Hall). destruct res as [reg|e]; [eauto|].
    destruct (coalesced_cover s (Z.to_nat r) b (wf_inv s W)) as (p & o & Hp' & Ho & _);
      [lia|by rewrite Z2Nat.id by lia|by rewrite Z2Nat.id by lia|].
    assert (forall p o, st s p = Some (Free o) -> o < r) as Hnone.
    { destruct e; simpl in Hp; try (by destruct Hp as (_ & _ & _ & ?)). lia. }
    specialize (Hnone p o Hp'). lia.
  - intros (reg & ->). destruct Hp as (b & _ & (_ & Hb & _) & Hall & _). eauto.
Qed.

(** Dropping a handle decrements the count of a shared block.  For the last
    handle it makes exactly the frames of the block free, coalesces it with its free
    buddies, leaves every other allocated block alone and keeps the invariant. *)
Theorem free_frames_correct (s : FA) h info sz : wf s -> st s h = Some (AllocatedHead info) ->
  exists s', free_frames s (mkRegion (h * PAGE_SIZE) sz) = Return s' /\ wf s' /\
    free_frames_post s h info s'.
Proof. apply free_frames_spec. Qed.

(** C4: after any sequence of allocations, clones and drops, blocks held through
    different heads are disjoint, no frame of a held block is on a free list, and
    dropping a held block does not panic. *)
Theorem handles_exclusive (s0 s : FA) hs : wf s0 -> rtc phys_step (s0, []) (s, hs) ->
  (forall h o h' o', (h, o) ∈ hs -> (h', o') ∈ hs ->
     (h, o) = (h', o') \/ disjoint_blocks h o h' o') /\
  (forall h o q, (h, o) ∈ hs -> h <= q < h + 2 ^ o -> ~ free_page s q) /\
  (forall h o, (h, o) ∈ hs ->
     exists s', page_alloc_drop s (mkRegion (h * PAGE_SIZE) (2 ^ o * PAGE_SIZE)) = Return s') /\
  free_pages s = Z.of_nat (length (free_page_list s)).
Proof.
  intros W0 Hreach. assert (Hok : handles_ok (s, hs)).
  { assert (Hok0 : handles_ok (s0, [])) by (split; [done|by intros ? ? ?%not_elem_of_nil]).
    revert Hok0. generalize dependent (s, hs). generalize (s0, [] : list (Z * Z)).
    induction 1; eauto using phys_step_ok. }
  destruct Hok as [W Hh]. simpl in *. pose proof (wf_inv s W) as I. split; [|split; [|split]].
  - intros h o h' o' (info & Hst & <- & _)%Hh (info' & Hst' & <- & _)%Hh.
    destruct (decide (h = h')) as [<-|Hne]; [left; by simplify_eq|right].
    apply (i_disj s I); [by exists (AllocatedHead info)|by exists (AllocatedHead info')|done].
  - intros h o q (info & Hst & <- & _)%Hh Hq (p & k & Hp & Hqp).
    assert (h <> p) by congruence. assert (Hb : block s p k) by (by exists (Free k)).
    destruct (i_disj s I h (order info) p k); [by exists (AllocatedHead info)|done|done|lia..].
  - intros h o (info & Hst & <- & _)%Hh.
    destruct (free_frames_spec s h info (2 ^ order info * PAGE_SIZE) W Hst) as (s' & E & _). eauto.
  - by rewrite length_free_page_list, (wf_count s W).
Qed.
End Theorems.

(** ** A small allocator: 1024 frames, one free block *)

Definition demo_blank : @FrameAllocatorInner (list Z) :=
  mkFA (fresh_frames 0 1024) 0 1024 0 (replicate 11 []).

Definition demo_fa : @FrameAllocatorInner (list Z) :=
  match populate_blocks (H := list_IntrusiveList) 1025 demo_blank 0 1024 with
  | Return s => s
  | _ => demo_blank
  end.

Lemma demo_fa_wf : @wf (list Z) list_IntrusiveList demo_fa.
Proof.
  pose proof list_IntrusiveListLaws as LL.
  assert (B : @blank (list Z) list_IntrusiveList demo_blank).
  { apply (@fresh_blank _ _ LL 0 1024); lia. }
  destruct (@populate_blocks_spec (list Z) list_IntrusiveList LL 1025 demo_blank 0 1024)
    as (s' & E & W & _); [by apply blank_wf|done|lia|lia|lia|lia| | |lia|].
  - intros q Hq. split; [simpl; lia|]. intros (f & Hf & Hs)%st_frame.
    apply fresh_frames_lookup in Hf. by subst.
  - intros p o Hb. by destruct (blank_no_block _ p o B).
  - unfold demo_fa. by rewrite E.
Qed.

#[local] Existing Instance list_IntrusiveList.
#[local] Existing Instance list_IntrusiveListLaws.

Lemma alloc_frames_correct_witness :
  exists s', alloc_frames demo_fa 3 = Return (Ok (mkRegion 0 32768), s') /\
    alloc_frames_post demo_fa 3 (Ok (mkRegion 0 32768)) s'.
Proof.
  destruct (alloc_frames_correct demo_fa 3 demo_fa_wf) as (r & s' & E & _ & Hp & _); [lia|].
  exists s'. assert (Er : r = Ok (mkRegion 0 32768)).
  { transitivity (match alloc_frames demo_fa 3 with Return (x, _) => x | _ => Err NoMemory end);
      [by rewrite E|vm_compute; reflexivity]. }
  rewrite Er in E, Hp. split; [exact E|exact Hp].
Defined.

Definition demo_held : @FrameAllocatorInner (list Z) :=
  match alloc_frames demo_fa 3 with Return (_, s) => s | _ => demo_fa end.

Lemma demo_alloc : alloc_frames demo_fa 3 = Return (Ok (mkRegion 0 32768), demo_held).
Proof. vm_compute. reflexivity. Qed.

Lemma demo_held_wf : wf demo_held /\ st demo_held 0 = Some (AllocatedHead (mkAllocated 1 3)).
Proof.
  destruct (alloc_frames_spec demo_fa 3 demo_fa_wf) as (r & s' & E & W & _); [lia|].
  rewrite demo_alloc in E. apply Return_pair_inj in E as [_ E]. rewrite E.
  split; [exact W|rewrite <- E; vm_compute; reflexivity].
Qed.

(** The only block is given back and merges into the maximal one. *)
Lemma free_frames_correct_witness :
  exists s', free_frames demo_held (mkRegion 0 32768) = Return s' /\
    free_frames_post demo_held 0 (mkAllocated 1 3) s' /\ st s' 0 = Some (Free 10).
Proof.
  destruct (free_frames_correct demo_held 0 (mkAllocated 1 3) 32768 (proj1 demo_held_wf)
    (proj2 demo_held_wf)) as (s' & E & _ & Hp).
  exists s'. split; [exact E|]. split; [exact Hp|].
  transitivity (match free_frames demo_held (mkRegion 0 32768) with
                | Return s => st s 0 | _ => None end);
    [change (0 * PAGE_SIZE) with 0 in E; rewrite E; reflexivity|vm_compute; reflexivity].
Defined.

Lemma handles_exclusive_witness :
  exists s : @FrameAllocatorInner (list Z),
    rtc phys_step (demo_fa, []) (s, [(0, 3); (0, 3)]) /\
    forall q, 0 <= q < 0 + 2 ^ 3 -> ~ free_page s q.
Proof.
  destruct (page_alloc_clone_spec demo_held 0 (mkAllocated 1 3) (2 ^ 3 * PAGE_SIZE)
    (proj1 demo_held_wf) (proj2 demo_held_wf)) as (s & E & _).
  exists s. assert (Hr : rtc phys_step (demo_fa, []) (s, [(0, 3); (0, 3)])).
  { eapply rtc_l; [apply (pstep_alloc demo_fa [] 3 (mkRegion 0 32768) demo_held);
      [lia|exact demo_alloc]|].
    eapply rtc_l; [|apply rtc_refl].
    apply (pstep_clone demo_held [] 0 3 []); [vm_compute; reflexivity|exact E]. }
  split; [exact Hr|]. intros q.
  destruct (handles_exclusive demo_fa s [(0, 3); (0, 3)] demo_fa_wf Hr) as (_ & Hn & _).
  apply (Hn 0 3 q). left.
Defined.


(** 8 MiB from 4 MiB on, with one page reserved. *)
Definition demo_boot : Smalloc :=
  mkSmalloc (mkRegionList [mkRegion 4194304 8388608] 8 0)
            (mkRegionList [mkRegion 6291456 4096] 8 0) false.


(** ** Where the code departs from its comments *)

(** The tail frames of a freed block keep their state: [is_allocated] still holds
    of a frame that is free. *)
Theorem is_allocated_stale_tail :
  exists s', free_frames demo_held (mkRegion 0 32768) = Return s' /\
    is_allocated s' 1 = Return true /\ free_page s' 1.
Proof.
  destruct (free_frames_spec demo_held 0 (mkAllocated 1 3) 32768 (proj1 demo_held_wf)
    (proj2 demo_held_wf)) as (s' & E & _ & _ & Hp).
  exists s'. split; [exact E|]. rewrite decide_False in Hp by (simpl; lia).
  destruct Hp as (_ & Hp & _). split; [|apply Hp; right; simpl; lia].
  transitivity (match free_frames demo_held (mkRegion 0 32768) with
                | Return s => is_allocated s 1 | _ => Panic end);
    [change (0 * PAGE_SIZE) with 0 in E; rewrite E; reflexivity|vm_compute; reflexivity].
Qed.

(** [init_from_region] looks only at the first frame of each maximal block: with
    the second page of the block reserved, the block is handed out whole. *)
Theorem init_from_region_reserved_inside :
  let T := IdentityTranslator in
  let sm := mkSmalloc (mkRegionList [mkRegion 4194304 8388608] 8 0)
              (mkRegionList [mkRegion 8392704 4096] 8 0) false in
  match init_from_region (H := list_IntrusiveList) 64 8 sm (mkRegion 8388608 4194304) with
  | Return (s, _) =>
      st s 2049 = Some Kernel /\
      match alloc_frames s 10 with
      | Return (r, _) => r = Ok (mkRegion 8388608 4194304)
      | _ => False
      end
  | _ => False
  end.
Proof. vm_compute. split; reflexivity. Qed.
