(* ===== verification/Vma.v ===== *)
(** * Virtual memory areas

    Models libkernel/src/memory/paging/permissions.rs, the data types of
    memory/address_space.rs and memory/proc_vm/vmarea.rs.  A reference to an inode
    or to a shared backing object ([Arc<dyn ..>]) is its identity, a number, so
    [Arc::ptr_eq] is equality.  The fields of an ELF program header are the values
    its accessors return; the flag bits of the [object] crate are parameters. *)
From Stdlib Require Import String.
From S2P Require Import Prelude Error Address Region.
Local Open Scope Z_scope.

(** ** Page permissions *)

Record PtePermissions := mkPte {
  pte_read : bool; pte_write : bool; pte_execute : bool; pte_user : bool; pte_cow : bool
}.

#[export] Instance PtePermissions_eq_dec : EqDecision PtePermissions.
Proof. solve_decision. Defined.

Definition from_raw_bits (read write execute user cow : bool) : PtePermissions :=
  mkPte read write execute user cow.
Definition pte_ro (user : bool) : PtePermissions := mkPte true false false user false.
Definition pte_rw (user : bool) : PtePermissions := mkPte true true false user false.

Definition into_cow (p : PtePermissions) : PtePermissions :=
  mkPte (pte_read p) false (pte_execute p) (pte_user p) true.
Definition from_cow (p : PtePermissions) : PtePermissions :=
  mkPte (pte_read p) true (pte_execute p) (pte_user p) false.

(** ** Access and fault kinds *)

Inductive AccessKind : Type := AccessRead | AccessWrite | AccessExecute.

Record PageInfo := mkPageInfo { page_pfn : Z; page_perms : PtePermissions }.

Record VMAPermissions := mkPerms { vread : bool; vwrite : bool; vexecute : bool }.

#[export] Instance VMAPermissions_eq_dec : EqDecision VMAPermissions.
Proof. solve_decision. Defined.

Definition perms_rw : VMAPermissions := mkPerms true true false.
Definition perms_rx : VMAPermissions := mkPerms true false true.
Definition perms_ro : VMAPermissions := mkPerms true false false.

Definition pte_from_vma (value : VMAPermissions) : PtePermissions :=
  from_raw_bits (vread value) (vwrite value) (vexecute value) true false.

Inductive FaultValidation : Type := Valid | NotPresent | FaultPermissionDenied.

(** ** Areas *)

Record VMFileMapping := mkFileMapping { file : Z; foffset : Z; flen : Z }.
Record VMSharedMapping := mkSharedMapping { backing : Z; soffset : Z }.

Inductive VMAreaKind : Type :=
| File (m : VMFileMapping)
| Anon
| SharedAnon (m : VMSharedMapping).

Notation new_file f offset len := (File (mkFileMapping f offset len)) (only parsing).

Record VMArea := mkVMA {
  region : MemoryRegion;
  name : string;
  kind : VMAreaKind;
  permissions : VMAPermissions
}.

Record VMAFileRead := mkFileRead {
  file_offset : Z; read_page_offset : Z; read_len : Z; inode : Z
}.

Definition vma_new (r : MemoryRegion) (k : VMAreaKind) (p : VMAPermissions) : VMArea :=
  mkVMA r EmptyString k p.
Definition set_name (v : VMArea) (s : string) : VMArea :=
  mkVMA (region v) s (kind v) (permissions v).
Definition set_region (v : VMArea) (r : MemoryRegion) : VMArea :=
  mkVMA r (name v) (kind v) (permissions v).
Definition set_kind (v : VMArea) (k : VMAreaKind) : VMArea :=
  mkVMA (region v) (name v) k (permissions v).
Definition set_permissions (v : VMArea) (p : VMAPermissions) : VMArea :=
  mkVMA (region v) (name v) (kind v) p.

(** [VMSharedMapping::claim_page]: the offset into the backing object is checked;
    [claim] is the backing object's own operation. *)
Definition shared_claim_page {S : Type} (claim : Z -> Z -> S -> outcome (result Z * S))
    (m : VMSharedMapping) (offset : Z) (s : S) : outcome (result Z * S) :=
  match checked_add (soffset m) offset with
  | None => Return (Err InvalidValue, s)
  | Some o => claim (backing m) o s
  end.

(** ** ELF segments *)

Record ProgramHeader := mkPheader {
  p_flags : Z; p_vaddr : Z; p_memsz : Z; p_offset : Z; p_filesz : Z
}.

Definition from_pheader (PF_X PF_R PF_W : Z) (f : Z) (hdr : ProgramHeader) (address_bias : option Z)
    : outcome VMArea :=
  let bias := default 0 address_bias in
  let perms := mkPerms (negb (Z.land (p_flags hdr) PF_R =? 0))
                 (negb (Z.land (p_flags hdr) PF_W =? 0))
                 (negb (Z.land (p_flags hdr) PF_X =? 0)) in
  let! mr := to_mappable_region (mkRegion (uadd (p_vaddr hdr) bias) (p_memsz hdr)) in
  Return (mkVMA (mappable_region mr) EmptyString
    (File (mkFileMapping f (usub (p_offset hdr) (offset_from_page_start mr))
             (uadd (p_filesz hdr) (offset_from_page_start mr)))) perms).

(** ** Faults *)

Notation vma_contains_address v addr := (contains_address (region v) addr) (only parsing).

Definition validate_fault (v : VMArea) (addr : Z) (k : AccessKind) : FaultValidation :=
  if negb (vma_contains_address v addr) then NotPresent
  else
    let permissions_ok :=
      match k with
      | AccessRead => vread (permissions v)
      | AccessWrite => vwrite (permissions v)
      | AccessExecute => vexecute (permissions v)
      end in
    if permissions_ok then Valid else FaultPermissionDenied.

Definition resolve_fault (v : VMArea) (faulting_addr : Z) : option VMAFileRead :=
  match kind v with
  | Anon | SharedAnon _ => None
  | File mapping =>
      let p_vaddr := start_address (region v) in
      let p_offset := foffset mapping in
      let p_filesz := flen mapping in
      let vaddr_page_offset := Z.land p_vaddr PAGE_MASK in
      let map_start_vaddr := page_aligned p_vaddr in
      let map_start_foffset := usub p_offset vaddr_page_offset in
      let fault_page_vaddr := page_aligned faulting_addr in
      let fault_page_offset_in_map := saturating_sub fault_page_vaddr map_start_vaddr in
      let file_offset_for_page_start := uadd map_start_foffset fault_page_offset_in_map in
      let page_write_offset :=
        if fault_page_vaddr =? map_start_vaddr then vaddr_page_offset else 0 in
      let read_start_file_offset := Z.max file_offset_for_page_start p_offset in
      let read_end_file_offset := uadd p_offset p_filesz in
      let rlen := saturating_sub read_end_file_offset read_start_file_offset in
      let final_read_len := Z.min rlen (usub PAGE_SIZE page_write_offset) in
      if final_read_len =? 0 then None
      else Some (mkFileRead read_start_file_offset page_write_offset final_read_len (file mapping))
  end.

(** ** Splitting and merging *)

Definition can_merge_with (v other : VMArea) : bool :=
  if negb (bool_decide (permissions v = permissions other)) then false
  else
    match kind v, kind other with
    | Anon, Anon => true
    | SharedAnon l, SharedAnon r =>
        (backing l =? backing r) &&
        bool_decide (checked_add (soffset l) (rsize (region v)) = Some (soffset r))
    | File self_map, File other_map =>
        (file self_map =? file other_map) &&
        (foffset other_map =? uadd (foffset self_map) (rsize (region v)))
    | _, _ => false
    end.

Definition clone_with_new_region (v : VMArea) (new_region : MemoryRegion) : VMArea :=
  let k := match kind v with
           | SharedAnon m =>
               SharedAnon (mkSharedMapping (backing m)
                 (uadd (soffset m) (usub (start_address new_region) (start_address (region v)))))
           | k => k
           end in
  mkVMA new_region (name v) k (permissions v).

Definition is_file_backed (v : VMArea) : bool :=
  match kind v with File _ => true | _ => false end.
Definition is_shared (v : VMArea) : bool :=
  match kind v with SharedAnon _ => true | _ => false end.

Definition shrink_to (v : VMArea) (new_region : MemoryRegion) : VMArea :=
  let new_vma := clone_with_new_region v new_region in
  match kind v with
  | File m =>
      let start_offset := usub (start_address new_region) (start_address (region v)) in
      let new_sz := Z.min (saturating_sub (flen m) start_offset) (rsize new_region) in
      if new_sz =? 0 then set_kind new_vma Anon
      else set_kind new_vma
             (File (mkFileMapping (file m) (uadd (foffset m) start_offset) new_sz))
  | Anon | SharedAnon _ => new_vma
  end.

(** * Correctness *)

(** ** What an area holds *)

(** The initial contents of a byte of an area: nothing, a byte of a file, or a byte
    of a shared object. *)
Inductive Content : Type :=
| ZeroByte
| FileByte (f offset : Z)
| SharedByte (b offset : Z).

#[export] Instance Content_eq_dec : EqDecision Content.
Proof. solve_decision. Defined.

Definition content (v : VMArea) (a : Z) : Content :=
  let d := a - start_address (region v) in
  match kind v with
  | Anon => ZeroByte
  | File m => if d <? flen m then FileByte (file m) (foffset m + d) else ZeroByte
  | SharedAnon m => SharedByte (backing m) (soffset m + d)
  end.

(** Offsets of the backing object stay within 64 bits. *)
Definition kind_ok (v : VMArea) : Prop :=
  match kind v with
  | Anon => True
  | File m => 0 <= foffset m /\ 0 <= flen m /\ foffset m + flen m < 2 ^ 64 /\
      foffset m + rsize (region v) < 2 ^ 64
  | SharedAnon m => 0 <= soffset m /\ soffset m + rsize (region v) < 2 ^ 64
  end.

Definition vma_ok (v : VMArea) : Prop := region_ok (region v) /\ 0 < rsize (region v) /\ kind_ok v.

(** Byte [i] of a zeroed page after the read that [resolve_fault] asks for. *)
Definition loaded (o : option VMAFileRead) (i : Z) : Content :=
  match o with
  | None => ZeroByte
  | Some r =>
      if (read_page_offset r <=? i) && (i <? read_page_offset r + read_len r)
      then FileByte (inode r) (file_offset r + (i - read_page_offset r))
      else ZeroByte
  end.

(** The page of [addr], [k] pages after the one the area starts in. *)
Lemma resolve_fault_eq v m addr : kind v = File m -> vma_ok v -> addr ∈ region v ->
  start_address (region v) mod PAGE_SIZE <= foffset m ->
  let off := start_address (region v) mod PAGE_SIZE in
  let k := addr / PAGE_SIZE - start_address (region v) / PAGE_SIZE in
  let rs := if k =? 0 then foffset m else foffset m - off + PAGE_SIZE * k in
  let wo := if k =? 0 then off else 0 in
  let len := Z.min (saturating_sub (foffset m + flen m) rs) (PAGE_SIZE - wo) in
  0 <= k /\
  resolve_fault v addr = if len =? 0 then None else Some (mkFileRead rs wo len (file m)).
Proof.
  intros Hk (Hr & Hsz & Hko) Ha Hoff. cbv zeta. unfold kind_ok in Hko. rewrite Hk in Hko.
  unfold resolve_fault. rewrite Hk. set (s := start_address (region v)) in *.
  assert (Hu : usize_ok s /\ usize_ok addr) by (unfold usize_ok; rsolve).
  rewrite !page_aligned_eq by apply Hu. change (Z.land s PAGE_MASK) with (page_offset s).
  rewrite page_offset_eq.
  pose proof (Z.div_mod s PAGE_SIZE ltac:(done)) as Hs.
  pose proof (Z.div_mod addr PAGE_SIZE ltac:(done)) as Ha'.
  pose proof (Z.mod_pos_bound s PAGE_SIZE ltac:(done)) as Hsb.
  assert (Hle : s / PAGE_SIZE <= addr / PAGE_SIZE) by (apply Z.div_le_mono; [done|rsolve]).
  assert (Hrange : s <= addr < s + rsize (region v)) by rsolve.
  pose proof (Z.mod_pos_bound addr PAGE_SIZE ltac:(done)) as Hab.
  set (off := s mod PAGE_SIZE) in *. set (sp := s / PAGE_SIZE) in *.
  set (ap := addr / PAGE_SIZE) in *. set (ao := addr mod PAGE_SIZE) in *.
  replace (s - off) with (PAGE_SIZE * sp) by lia. replace (addr - ao) with (PAGE_SIZE * ap) by lia.
  rewrite (saturating_sub_ge (PAGE_SIZE * ap)) by (unfold PAGE_SIZE; lia).
  rewrite (usub_small (foffset m)) by lia. unfold PAGE_SIZE in *.
  rewrite (uadd_small (foffset m - off)) by lia. rewrite (uadd_small (foffset m)) by lia.
  split; [lia|]. destruct (Z.eqb_spec (ap - sp) 0) as [E|E].
  - rewrite (proj2 (Z.eqb_eq (4096 * ap) (4096 * sp))) by lia.
    rewrite usub_small by lia. replace (Z.max _ (foffset m)) with (foffset m) by lia. done.
  - rewrite (proj2 (Z.eqb_neq (4096 * ap) (4096 * sp))) by lia.
    rewrite usub_small by lia.
    replace (Z.max _ (foffset m)) with (foffset m - off + 4096 * (ap - sp)) by lia. done.
Qed.

(** A fault loads the right bytes: after the read that [resolve_fault] asks for,
    every byte of the faulting page that belongs to the area is the file byte the
    mapping puts there, or zero past the end of the file data; anonymous areas read
    nothing.  This holds for areas that start in the middle of a page, too. *)
Theorem resolve_fault_correct v addr b :
  vma_ok v -> is_shared v = false ->
  (forall m, kind v = File m -> start_address (region v) mod PAGE_SIZE <= foffset m) ->
  addr ∈ region v -> b ∈ region v -> b / PAGE_SIZE = addr / PAGE_SIZE ->
  loaded (resolve_fault v addr) (b mod PAGE_SIZE) = content v b.
Proof.
  intros Hok Hsh Hoff Ha Hb Hpage. destruct (kind v) as [m| |m] eqn:Hk.
  2: { unfold resolve_fault, content. by rewrite Hk. }
  2: { unfold is_shared in Hsh. by rewrite Hk in Hsh. }
  destruct (resolve_fault_eq v m addr Hk Hok Ha (Hoff m eq_refl)) as [Hk0 ->].
  specialize (Hoff m eq_refl). unfold content. rewrite Hk.
  destruct Hok as (Hr & Hsz & Hko). unfold kind_ok in Hko. rewrite Hk in Hko.
  set (s := start_address (region v)) in *.
  pose proof (Z.div_mod s PAGE_SIZE ltac:(done)) as Hs.
  pose proof (Z.div_mod b PAGE_SIZE ltac:(done)) as Hb'.
  pose proof (Z.mod_pos_bound s PAGE_SIZE ltac:(done)) as Hsb.
  pose proof (Z.mod_pos_bound b PAGE_SIZE ltac:(done)) as Hbb.
  assert (Hbr : s <= b) by rsolve. rewrite Hpage in Hb'.
  set (off := s mod PAGE_SIZE) in *. set (i := b mod PAGE_SIZE) in *.
  set (k := addr / PAGE_SIZE - s / PAGE_SIZE) in *.
  assert (Hd : b - s = PAGE_SIZE * k + i - off) by (unfold k; lia). rewrite Hd.
  unfold saturating_sub, PAGE_SIZE in *. destruct (Z.eqb_spec k 0) as [E|E].
  - rewrite E. bcases; unfold loaded; cbn [read_page_offset read_len file_offset inode];
      bcases; try done; try lia; f_equal; lia.
  - bcases; unfold loaded; cbn [read_page_offset read_len file_offset inode];
      bcases; try done; try lia; f_equal; lia.
Qed.

Definition demo_vma : VMArea :=
  mkVMA (mkRegion 65636 20480) EmptyString (File (mkFileMapping 7 4196 5000)) perms_rx.

(** The second page of a segment that starts 100 bytes into a page and has 5000 bytes
    of file data: the read ends with the data, the rest of the page is zero. *)
Lemma resolve_fault_correct_witness :
  resolve_fault demo_vma 70000 = Some (mkFileRead 8192 0 1004 7) /\
  loaded (resolve_fault demo_vma 70000) (70700 mod PAGE_SIZE) = content demo_vma 70700 /\
  content demo_vma 70700 = ZeroByte.
Proof.
  split; [reflexivity|]. split; [|reflexivity].
  apply resolve_fault_correct.
  - unfold vma_ok, kind_ok, region_ok. simpl. lia.
  - reflexivity.
  - intros m [= <-]. vm_compute. discriminate.
  - split; simpl; lia.
  - split; simpl; lia.
  - reflexivity.
Defined.

(** ** Splitting *)

Definition subregion (r' r : MemoryRegion) : Prop :=
  start_address r <= start_address r' /\
  start_address r' + rsize r' <= start_address r + rsize r /\ 0 < rsize r'.

Lemma subregion_ok r' r : region_ok r -> subregion r' r -> region_ok r'.
Proof. unfold subregion. rsolve. Qed.

Lemma clone_with_new_region_content v r' a : is_file_backed v = false -> vma_ok v ->
  subregion r' (region v) -> a ∈ r' ->
  content (clone_with_new_region v r') a = content v a.
Proof.
  intros Hf (Hr & Hs & Hk) (H1 & H2 & H3) Ha. unfold is_file_backed, content, clone_with_new_region, kind_ok in *.
  simpl. destruct (kind v) as [m| |m]; [done|done|]. simpl. f_equal.
  unfold region_ok in Hr. rewrite usub_small, uadd_small by lia. lia.
Qed.

Lemma clone_with_new_region_ok v r' : vma_ok v -> subregion r' (region v) ->
  vma_ok (clone_with_new_region v r').
Proof.
  intros (Hr & Hs & Hk) Hsub. pose proof (subregion_ok r' _ Hr Hsub). destruct Hsub as (H1 & H2 & H3).
  unfold vma_ok, kind_ok, clone_with_new_region in *. simpl. split; [done|]. split; [done|].
  unfold region_ok in Hr. destruct (kind v) as [m| |m]; simpl; [lia|done|].
  rewrite usub_small, uadd_small by lia. lia.
Qed.

(** [shrink_to] keeps the contents: every byte that stays in the smaller area is
    backed by the same file or shared byte as before, or is still zero. *)
Theorem shrink_to_content v r' a :
  vma_ok v -> subregion r' (region v) -> a ∈ r' ->
  region (shrink_to v r') = r' /\ permissions (shrink_to v r') = permissions v /\
  content (shrink_to v r') a = content v a.
Proof.
  intros Hok Hsub Ha. unfold shrink_to. destruct (kind v) as [m| |m] eqn:Hk.
  - pose proof Hok as (Hr & Hs & Hko). unfold kind_ok in Hko. rewrite Hk in Hko.
    pose proof Hsub as (H1 & H2 & H3). unfold region_ok in Hr.
    rewrite usub_small by lia. rewrite uadd_small by lia.
    assert (Har : start_address r' <= a < start_address r' + rsize r') by rsolve.
    unfold saturating_sub. bcase;
      (split; [done|]); (split; [done|]); unfold content; rewrite Hk; simpl.
    + rewrite (proj2 (Z.ltb_ge _ _)) by lia. done.
    + bcases; try done; try lia. f_equal. lia.
  - split; [done|]. split; [done|]. apply clone_with_new_region_content; try done.
    unfold is_file_backed. by rewrite Hk.
  - split; [done|]. split; [done|]. apply clone_with_new_region_content; try done.
    unfold is_file_backed. by rewrite Hk.
Qed.

Lemma shrink_to_content_witness :
  content (shrink_to demo_vma (mkRegion 69632 8192)) 70000 = content demo_vma 70000 /\
  content demo_vma 70000 = FileByte 7 8560.
Proof.
  split; [|reflexivity]. apply shrink_to_content.
  - unfold vma_ok, kind_ok, region_ok. simpl. lia.
  - unfold subregion. simpl. lia.
  - split; simpl; lia.
Defined.

(** ** ELF segments *)

(** A segment is mapped where its header says: byte [i] of the file data of the
    segment appears at [p_vaddr + bias + i], and the rest of the memory size reads
    as zero. *)
Theorem from_pheader_content PF_X PF_R PF_W f hdr bias i :
  let va := p_vaddr hdr + default 0 bias in
  0 <= p_vaddr hdr -> 0 <= default 0 bias -> 0 <= p_memsz hdr -> 0 <= p_filesz hdr ->
  va + p_memsz hdr + PAGE_SIZE < 2 ^ 64 ->
  va mod PAGE_SIZE <= p_offset hdr -> p_offset hdr + p_filesz hdr + PAGE_SIZE < 2 ^ 64 ->
  0 <= i < p_memsz hdr ->
  exists v, from_pheader PF_X PF_R PF_W f hdr bias = Return v /\
    va + i ∈ region v /\ start_address (region v) mod PAGE_SIZE = 0 /\
    content v (va + i) =
      if i <? p_filesz hdr then FileByte f (p_offset hdr + i) else ZeroByte.
Proof.
  intros va Hv Hb Hm Hf Hmax Hoff Hfmax Hi. unfold from_pheader. fold va.
  assert (HP : PAGE_SIZE = 4096) by done.
  rewrite uadd_small by lia. fold va.
  assert (Hva : 0 <= va) by (unfold va; lia). clearbody va. unfold to_mappable_region. cbn [start_address].
  pose proof (Z.mod_pos_bound va PAGE_SIZE ltac:(done)) as Hmod.
  rewrite align_page by (unfold usize_ok; lia). ostep.
  rewrite end_address_eq by (unfold region_ok; simpl; lia). cbn [start_address rsize].
  rewrite align_up_page by lia. ostep.
  destruct (round_up_spec (va + p_memsz hdr) PAGE_SIZE ltac:(done)) as [Hr _].
  pose proof (Z.mod_le va PAGE_SIZE ltac:(lia) ltac:(lia)).
  rewrite from_start_end_address_eq by lia. ostep. cbn [mappable_region offset_from_page_start].
  rewrite page_offset_eq, usub_small by lia. rewrite uadd_small by lia.
  eexists. split; [done|]. unfold content. cbn [region kind start_address rsize foffset flen file].
  split; [split; cbn [start_address rsize]; lia|]. split.
  - by apply round_down_multiple.
  - bcases; try done; try lia. f_equal. lia.
Qed.

Lemma from_pheader_content_witness :
  exists v, from_pheader 1 4 2 3 (mkPheader 5 4200 9000 104 5000) None = Return v /\
    content v (4200 + 4999) = FileByte 3 5103.
Proof.
  destruct (from_pheader_content 1 4 2 3 (mkPheader 5 4200 9000 104 5000) None 4999)
    as (v & E & _ & _ & H); [vm_compute; congruence..|vm_compute; split; congruence|].
  exists v. split; [exact E|exact H].
Defined.
