(* ===== verification/MemoryMap.v ===== *)
(** * The memory map of a process

    Models libkernel/src/memory/proc_vm/memory_map/mod.rs.  The
    areas are an ordered map from start address to [VMArea].  Page tables are
    behind the trait [UserAddressSpace], an interface here: the map is proved
    correct whatever implements it.  An operation that returns early with an error
    keeps the changes it has made so far, as in the source. *)
From Stdlib Require Import String.
From S2P Require Import Prelude BTree Error Address Region Vma.
Local Open Scope Z_scope.

Class UserAddressSpace (AS : Type) := {
  as_new : result AS;
  as_map_page : AS -> Z -> Z -> PtePermissions -> result unit * AS;
  as_unmap : AS -> Z -> result Z * AS;
  as_remap : AS -> Z -> Z -> PtePermissions -> result Z * AS;
  as_protect_range : AS -> MemoryRegion -> PtePermissions -> result unit * AS;
  as_unmap_range : AS -> MemoryRegion -> result (list Z) * AS;
  as_translate : AS -> Z -> option PageInfo;
  as_protect_and_clone_region :
    AS -> MemoryRegion -> AS -> PtePermissions -> result unit * (AS * AS)
}.

Notation MMAP_BASE := 70368744177664.

Inductive AddressRequest : Type :=
| Any
| Hint (address : Z)
| Fixed (address : Z) (permit_overlap : bool).

Inductive RemapDestination : Type :=
| InPlaceOnly
| MayMove
| RemapFixed (address : Z).

Section MemoryMap.
Context {AS : Type} `{UserAddressSpace AS}.

Record MemoryMap := mkMM { vmas : btree VMArea; address_space : AS }.

Definition set_vmas (mm : MemoryMap) (m : btree VMArea) : MemoryMap := mkMM m (address_space mm).
Definition set_as (mm : MemoryMap) (a : AS) : MemoryMap := mkMM (vmas mm) a.

Definition mm_new : result MemoryMap :=
  match as_new with Ok a => Ok (mkMM [] a) | Err e => Err e end.

Definition with_addr_spc (a : AS) : MemoryMap := mkMM [] a.

Definition from_vmas (vs : list VMArea) : result MemoryMap :=
  let m := foldl (fun m v => bt_insert (start_address (region v)) v m) [] vs in
  match as_new with Ok a => Ok (mkMM m a) | Err e => Err e end.

(** A call of the address space, with the updated address space put back. *)
Definition on_as {A : Type} (mm : MemoryMap) (r : result A * AS) : outcome (result A * MemoryMap) :=
  Return (r.1, set_as mm r.2).

(** ** Queries *)

Definition find_vma (mm : MemoryMap) (addr : Z) : option VMArea :=
  match last (range_le addr (vmas mm)) with
  | Some (_, vma) => if vma_contains_address vma addr then Some vma else None
  | None => None
  end.

Definition is_region_free (mm : MemoryMap) (r : MemoryRegion) : bool :=
  let prev_ok :=
    match last (range_le (start_address r) (vmas mm)) with
    | Some (_, prev_vma) => negb (end_address (region prev_vma) >? start_address r)
    | None => true
    end in
  if negb prev_ok then false
  else
    match head (range_ge (start_address r) (vmas mm)) with
    | Some (next_vma_start, _) => negb (next_vma_start <? end_address r)
    | None => true
    end.

(** The loop of [find_free_region] over the areas from the highest down. *)
Fixpoint find_gap (vs : list (Z * VMArea)) (last_vma_end len : Z) : option MemoryRegion :=
  match vs with
  | [] =>
      if last_vma_end >=? len then Some (mkRegion (usub last_vma_end len) len) else None
  | (_, vma) :: vs' =>
      let vma_start := start_address (region vma) in
      let vma_end := end_address (region vma) in
      if (last_vma_end >=? vma_end) && (usub last_vma_end vma_end >=? len)
      then Some (mkRegion (usub last_vma_end len) len)
      else find_gap vs' vma_start len
  end.

Definition find_free_region (mm : MemoryMap) (len : Z) : option MemoryRegion :=
  find_gap (rev (vmas mm)) MMAP_BASE len.

(** ** Inserting and removing *)

(** The first half of [merge_vma]: absorb the area that starts where [vma] ends. *)
Definition merge_next (mm : MemoryMap) (vma : VMArea) : outcome (MemoryMap * VMArea) :=
  match bt_get (end_address (region vma)) (vmas mm) with
  | Some next_vma =>
      if can_merge_with vma next_vma then
        let! removed := unwrap (bt_get (start_address (region next_vma)) (vmas mm)) in
        let! r := expand_by (region vma) (rsize (region removed)) in
        Return (set_vmas mm (bt_remove (start_address (region next_vma)) (vmas mm)),
                set_region vma r)
      else Return (mm, vma)
  | None => Return (mm, vma)
  end.

(** The second half: grow the area that ends where [vma] starts, or insert [vma]. *)
Definition merge_prev (mm : MemoryMap) (vma : VMArea) : outcome MemoryMap :=
  match last (range_lt (start_address (region vma)) (vmas mm)) with
  | Some (key, prev_vma) =>
      if (end_address (region prev_vma) =? start_address (region vma)) &&
         can_merge_with prev_vma vma
      then
        let! r := expand_by (region prev_vma) (rsize (region vma)) in
        Return (set_vmas mm (bt_insert key (set_region prev_vma r) (vmas mm)))
      else Return (set_vmas mm (bt_insert (start_address (region vma)) vma (vmas mm)))
  | None => Return (set_vmas mm (bt_insert (start_address (region vma)) vma (vmas mm)))
  end.

Definition merge_vma (mm : MemoryMap) (vma : VMArea) : outcome MemoryMap :=
  let! (mm, vma) := merge_next mm vma in
  merge_prev mm vma.

Definition fixup_pg_tables (mm : MemoryMap) (fixup_region : MemoryRegion) (old_vma : VMArea)
    (new_vma : option VMArea) : outcome (result (list Z) * MemoryMap) :=
  match intersection fixup_region (region old_vma) with
  | Some i =>
      match new_vma with
      | Some nv =>
          if is_file_backed old_vma || is_file_backed nv then
            on_as mm (as_unmap_range (address_space mm) i)
          else if negb (bool_decide (permissions nv = permissions old_vma)) then
            let? (_u, mm) :=
              on_as mm (as_protect_range (address_space mm) i (pte_from_vma (permissions nv))) in
            Return (Ok [], mm)
          else Return (Ok [], mm)
      | None => on_as mm (as_unmap_range (address_space mm) i)
      end
  | None => Return (Ok [], mm)
  end.

Fixpoint take_while {A : Type} (f : A -> bool) (l : list A) : list A :=
  match l with
  | [] => []
  | x :: l' => if f x then x :: take_while f l' else []
  end.

(** The areas that intersect the region to unmap. *)
Definition affected_vmas (mm : MemoryMap) (unmap_start unmap_end : Z) : list VMArea :=
  match last (range_lt unmap_start (vmas mm)) with
  | Some (_, vma) => if end_address (region vma) >? unmap_start then [vma] else []
  | None => []
  end ++
  take_while (fun v => start_address (region v) <? unmap_end)
    (map snd (range_ge unmap_start (vmas mm))).

Definition insert_vma (mm : MemoryMap) (v : VMArea) : MemoryMap :=
  set_vmas mm (bt_insert (start_address (region v)) v (vmas mm)).

(** An area truncated at the beginning; the offset of a file mapping moves along. *)
Definition truncate_start (vma : VMArea) (new_region : MemoryRegion) : VMArea :=
  let new_vma := clone_with_new_region vma new_region in
  match kind new_vma with
  | File m =>
      let offset_change := usub (start_address new_region) (start_address (region vma)) in
      set_kind new_vma (File (mkFileMapping (file m) (uadd (foffset m) offset_change) (flen m)))
  | _ => new_vma
  end.

(** The pieces of an affected area that stay. *)
Definition keep_pieces (mm : MemoryMap) (vma : VMArea) (unmap_start unmap_end : Z) : MemoryMap :=
  let vma_start := start_address (region vma) in
  let vma_end := end_address (region vma) in
  if (vma_start <? unmap_start) && (vma_end >? unmap_end) then
    let left_region := mkRegion vma_start (usub unmap_start vma_start) in
    let mm := insert_vma mm (clone_with_new_region vma left_region) in
    let right_region := mkRegion unmap_end (usub vma_end unmap_end) in
    insert_vma mm (clone_with_new_region vma right_region)
  else
    let mm :=
      if vma_start <? unmap_start then
        let new_region := mkRegion vma_start (usub unmap_start vma_start) in
        insert_vma mm (clone_with_new_region vma new_region)
      else mm in
    if vma_end >? unmap_end then
      let new_start := unmap_end in
      let new_region := mkRegion new_start (usub vma_end new_start) in
      insert_vma mm (truncate_start vma new_region)
    else mm.

Fixpoint unmap_loop (mm : MemoryMap) (affected : list VMArea) (unmap_region : MemoryRegion)
    (replace_with : option VMArea) (pages : list Z) : outcome (result (list Z) * MemoryMap) :=
  match affected with
  | [] => Return (Ok pages, mm)
  | vma :: affected' =>
      let! _removed := unwrap (bt_get (start_address (region vma)) (vmas mm)) in
      let mm := set_vmas mm (bt_remove (start_address (region vma)) (vmas mm)) in
      let? (ps, mm) := fixup_pg_tables mm unmap_region vma replace_with in
      let mm := keep_pieces mm vma (start_address unmap_region) (end_address unmap_region) in
      unmap_loop mm affected' unmap_region replace_with (pages ++ ps)
  end.

Definition do_unmap_region (mm : MemoryMap) (unmap_region : MemoryRegion)
    (replace_with : option VMArea) : outcome (result (list Z) * MemoryMap) :=
  unmap_loop mm (affected_vmas mm (start_address unmap_region) (end_address unmap_region))
    unmap_region replace_with [].

(** The result of the unmapping is dropped. *)
Definition insert_and_merge (mm : MemoryMap) (vma : VMArea) : outcome MemoryMap :=
  let! (_, mm) := do_unmap_region mm (region vma) (Some vma) in
  merge_vma mm vma.

(** ** mmap, munmap, mprotect *)

(** The [match requested_address] of [mmap_impl], with its early returns. *)
Definition choose_region (mm : MemoryMap) (requested_address : AddressRequest) (len : Z)
    : result MemoryRegion :=
  match requested_address with
  | Any => ok_or (find_free_region mm len) NoMemory
  | Hint address =>
      let address := if negb (is_page_aligned address) then page_aligned address else address in
      let r := mkRegion address len in
      if is_region_free mm r then Ok r else ok_or (find_free_region mm len) NoMemory
  | Fixed address permit_overlap =>
      if negb (is_page_aligned address) then Err InvalidValue
      else
        let r := mkRegion address len in
        if negb permit_overlap && negb (is_region_free mm r) then Err InvalidValue else Ok r
  end.

Definition mmap_impl (mm : MemoryMap) (requested_address : AddressRequest) (len : Z)
    (perms : VMAPermissions) (k : VMAreaKind) (nm : string) (replace : bool)
    : outcome (result (Z * list Z) * MemoryMap) :=
  if len =? 0 then Return (Err InvalidValue, mm)
  else
    match checked_add len PAGE_MASK with
    | None => Return (Err NoMemory, mm)
    | Some l =>
        let len := Z.land l (unot PAGE_MASK) in
        match choose_region mm requested_address len with
        | Err e => Return (Err e, mm)
        | Ok r =>
            let? (pages, mm) :=
              if replace then do_unmap_region mm r None else Return (Ok [], mm) in
            let new_vma := set_name (vma_new r k perms) nm in
            let! mm := insert_and_merge mm new_vma in
            Return (Ok (start_address r, pages), mm)
        end
    end.

Definition mmap (mm : MemoryMap) (requested_address : AddressRequest) (len : Z)
    (perms : VMAPermissions) (k : VMAreaKind) (nm : string) : outcome (result Z * MemoryMap) :=
  let? (r, mm) := mmap_impl mm requested_address len perms k nm false in
  Return (Ok r.1, mm).

Definition mmap_replacing (mm : MemoryMap) (requested_address : AddressRequest) (len : Z)
    (perms : VMAPermissions) (k : VMAreaKind) (nm : string)
    : outcome (result (Z * list Z) * MemoryMap) :=
  mmap_impl mm requested_address len perms k nm true.

Definition munmap (mm : MemoryMap) (range : MemoryRegion) : outcome (result (list Z) * MemoryMap) :=
  if negb (region_is_page_aligned range) then Return (Err InvalidValue, mm)
  else if rsize range =? 0 then Return (Err InvalidValue, mm)
  else
    let! r := align_to_page_boundary range in
    do_unmap_region mm r None.

Definition mprotect (mm : MemoryMap) (protect_region : MemoryRegion) (new_perms : VMAPermissions)
    : outcome (result unit * MemoryMap) :=
  if negb (region_is_page_aligned protect_region) then Return (Err InvalidValue, mm)
  else if rsize protect_region =? 0 then Return (Err InvalidValue, mm)
  else
    match find_vma mm (start_address protect_region) with
    | None => Return (Err NoMemory, mm)
    | Some found =>
        let affected_vma_addr := start_address (region found) in
        let! affected_vma := unwrap (bt_get affected_vma_addr (vmas mm)) in
        if negb (contains (region affected_vma) protect_region) then Return (Err NoMemory, mm)
        else
          let? (_u, mm) := on_as mm (as_protect_range (address_space mm) protect_region
                                       (pte_from_vma new_perms)) in
          let mm := set_vmas mm (bt_remove affected_vma_addr (vmas mm)) in
          if bool_decide (region affected_vma = protect_region) then
            let! mm := insert_and_merge mm (set_permissions affected_vma new_perms) in
            Return (Ok tt, mm)
          else if contains (region affected_vma) protect_region then
            let! (lft, rgt) := punch_hole (region affected_vma) protect_region in
            let new_vma := set_permissions (shrink_to affected_vma protect_region) new_perms in
            let! mm := match lft with
                       | Some l => insert_and_merge mm (shrink_to affected_vma l)
                       | None => Return mm
                       end in
            let! mm := insert_and_merge mm new_vma in
            let! mm := match rgt with
                       | Some r => insert_and_merge mm (shrink_to affected_vma r)
                       | None => Return mm
                       end in
            Return (Ok tt, mm)
          else Return (Err NoMemory, mm)
    end.
(** ** mremap *)

Definition align_len (len : Z) : Z :=
  if negb (Z.land len PAGE_MASK =? 0) then uadd (Z.land len (unot PAGE_MASK)) PAGE_SIZE else len.

Definition can_expand_in_place (mm : MemoryMap) (source_vma : VMArea) (old_region : MemoryRegion)
    (new_len : Z) : outcome bool :=
  let new_end := add_bytes (start_address old_region) new_len in
  if new_end <=? end_address (region source_vma) then Return true
  else
    let! r := from_start_end_address (end_address (region source_vma)) new_end in
    Return (is_region_free mm r).

(** [self.vmas.remove(&start).unwrap()] *)
Definition remove_vma (mm : MemoryMap) (start : Z) : outcome MemoryMap :=
  let! _removed := unwrap (bt_get start (vmas mm)) in
  Return (set_vmas mm (bt_remove start (vmas mm))).

Definition expand_in_place (mm : MemoryMap) (source_vma : VMArea) (old_region : MemoryRegion)
    (new_len : Z) : outcome (result (Z * list Z) * MemoryMap) :=
  let new_end := add_bytes (start_address old_region) new_len in
  if new_end <=? end_address (region source_vma) then
    Return (Ok (start_address old_region, []), mm)
  else
    let! mm := remove_vma mm (start_address (region source_vma)) in
    let! r := from_start_end_address (start_address (region source_vma)) new_end in
    let! mm := merge_vma mm (set_region source_vma r) in
    Return (Ok (start_address old_region, []), mm).

(** [self.merge_vma(source_vma.shrink_to(from_start_end_address(s, e)))] under its
    guard [s < e]. *)
Definition merge_piece (mm : MemoryMap) (source_vma : VMArea) (s e : Z) : outcome MemoryMap :=
  if s <? e then
    let! r := from_start_end_address s e in
    merge_vma mm (shrink_to source_vma r)
  else Return mm.

Definition shrink_in_place (mm : MemoryMap) (source_vma : VMArea) (old_region : MemoryRegion)
    (new_len : Z) : outcome (result (Z * list Z) * MemoryMap) :=
  let new_region := mkRegion (start_address old_region) new_len in
  let! removed_region := from_start_end_address (end_address new_region) (end_address old_region) in
  let? (freed_pages, mm) := on_as mm (as_unmap_range (address_space mm) removed_region) in
  let! mm := remove_vma mm (start_address (region source_vma)) in
  let! mm := merge_piece mm source_vma (start_address (region source_vma))
               (start_address old_region) in
  let! mm := merge_vma mm (shrink_to source_vma new_region) in
  let! mm := merge_piece mm source_vma (end_address old_region)
               (end_address (region source_vma)) in
  Return (Ok (start_address old_region, freed_pages), mm).

Definition relocate_vma (vma : VMArea) (new_region : MemoryRegion) : VMArea :=
  let moved_vma := set_region vma new_region in
  match kind moved_vma with
  | File m => set_kind moved_vma
                (File (mkFileMapping (file m) (foffset m) (Z.min (flen m) (rsize new_region))))
  | _ => moved_vma
  end.

(** The page loop of [move_selected_mapping]; a failing [map_page] takes back the
    pages mapped so far. *)
Fixpoint move_pages (a : AS) (pages : list (Z * Z)) (newly_mapped : list Z) : result unit * AS :=
  match pages with
  | [] => (Ok tt, a)
  | (old_page, new_page) :: pages' =>
      match as_translate a old_page with
      | Some page_info =>
          match as_map_page a (page_pfn page_info) new_page (page_perms page_info) with
          | (Err err, a) => (Err err, foldl (fun a p => (as_unmap a p).2) a newly_mapped)
          | (Ok _, a) => move_pages a pages' (newly_mapped ++ [new_page])
          end
      | None => move_pages a pages' newly_mapped
      end
  end.

(** [move_selected_mapping] after the target was cleared. *)
Definition move_to_free (mm : MemoryMap) (source_vma : VMArea) (old_region new_region : MemoryRegion)
    (freed_pages : list Z) : outcome (result (Z * list Z) * MemoryMap) :=
  let preserved_len := Z.min (rsize old_region) (rsize new_region) in
  let? (_u, mm) :=
    if negb (preserved_len =? 0) then
      let preserved_old := mkRegion (start_address old_region) preserved_len in
      let preserved_new := mkRegion (start_address new_region) preserved_len in
      let? (_m, mm) := on_as mm (move_pages (address_space mm)
                         (zip (iter_pages preserved_old) (iter_pages preserved_new)) []) in
      let? (_p, mm) := on_as mm (as_unmap_range (address_space mm) preserved_old) in
      Return (Ok tt, mm)
    else Return (Ok tt, mm) in
  let? (freed_tail, mm) :=
    if rsize old_region >? preserved_len then
      let! r := from_start_end_address (add_bytes (start_address old_region) preserved_len)
                  (end_address old_region) in
      on_as mm (as_unmap_range (address_space mm) r)
    else Return (Ok [], mm) in
  let! mm := remove_vma mm (start_address (region source_vma)) in
  let! mm := merge_piece mm source_vma (start_address (region source_vma))
               (start_address old_region) in
  let! mm := merge_piece mm source_vma (end_address old_region)
               (end_address (region source_vma)) in
  let selected_vma := shrink_to source_vma old_region in
  let! mm := merge_vma mm (relocate_vma selected_vma new_region) in
  Return (Ok (start_address new_region, freed_pages ++ freed_tail), mm).

Definition move_selected_mapping (mm : MemoryMap) (source_vma : VMArea)
    (old_region new_region : MemoryRegion) (clobber_target : bool)
    : outcome (result (Z * list Z) * MemoryMap) :=
  let? (freed, mm) :=
    if clobber_target then do_unmap_region mm new_region None else Return (Ok [], mm) in
  move_to_free mm source_vma old_region new_region freed.

Definition mremap (mm : MemoryMap) (old_addr old_len new_len : Z) (destination : RemapDestination)
    : outcome (result (Z * list Z) * MemoryMap) :=
  if negb (is_page_aligned old_addr) || (old_len =? 0) || (new_len =? 0) then
    Return (Err InvalidValue, mm)
  else
    let old_len := align_len old_len in
    let new_len := align_len new_len in
    let old_region := mkRegion old_addr old_len in
    match find_vma mm old_addr with
    | None => Return (Err Fault, mm)
    | Some source_vma =>
        if end_address old_region >? end_address (region source_vma) then Return (Err Fault, mm)
        else
          match destination with
          | RemapFixed new_addr =>
              if negb (is_page_aligned new_addr) then Return (Err InvalidValue, mm)
              else
                let new_region := mkRegion new_addr new_len in
                if overlaps new_region old_region || overlaps new_region (region source_vma) then
                  Return (Err InvalidValue, mm)
                else move_selected_mapping mm source_vma old_region new_region true
          | _ =>
              if old_len =? new_len then Return (Ok (old_addr, []), mm)
              else if new_len <=? old_len then shrink_in_place mm source_vma old_region new_len
              else
                let! can := can_expand_in_place mm source_vma old_region new_len in
                if can then expand_in_place mm source_vma old_region new_len
                else
                  match destination with
                  | InPlaceOnly => Return (Err NoMemory, mm)
                  | MayMove =>
                      match find_free_region mm new_len with
                      | None => Return (Err NoMemory, mm)
                      | Some new_region =>
                          move_selected_mapping mm source_vma old_region new_region false
                      end
                  | RemapFixed _ => Panic
                  end
          end
    end.

(** ** fork *)

(** The permissions that an area's pages get in both processes. *)
Definition cow_perms (vma : VMArea) : PtePermissions :=
  let pte_perms := pte_from_vma (permissions vma) in
  if negb (is_shared vma) && pte_write pte_perms then into_cow pte_perms else pte_perms.

Fixpoint clone_areas (a new_as : AS) (vs : list VMArea) : outcome (result unit * (AS * AS)) :=
  match vs with
  | [] => Return (Ok tt, (a, new_as))
  | vma :: vs' =>
      let! r := align_to_page_boundary (region vma) in
      match as_protect_and_clone_region a r new_as (cow_perms vma) with
      | (Err e, s) => Return (Err e, s)
      | (Ok _, (a, new_as)) => clone_areas a new_as vs'
      end
  end.

(** The new map with the changed parent. *)
Definition mm_clone_as_cow (mm : MemoryMap) : outcome (result MemoryMap * MemoryMap) :=
  match as_new with
  | Err e => Return (Err e, mm)
  | Ok new_as =>
      let! (r, (a, new_as)) := clone_areas (address_space mm) new_as (map snd (vmas mm)) in
      match r with
      | Err e => Return (Err e, set_as mm a)
      | Ok _ => Return (Ok (mkMM (vmas mm) new_as), set_as mm a)
      end
  end.

Definition iter_vmas (mm : MemoryMap) : list VMArea := map snd (vmas mm).
End MemoryMap.
Arguments MemoryMap : clear implicits.
