(* ===== verification/MemoryMapInv.v ===== *)
(** * The memory map: invariant and address-level meaning

    The areas of a map are page-aligned and pairwise disjoint, each stored under
    its start address.  [area_at] gives the area of an address; every operation of
    MemoryMap is described by what it does to [area_at]. *)
From Stdlib Require Import String.
From S2P Require Import Prelude BTree Error Address Region Vma MemoryMap.
Local Open Scope Z_scope.

#[export] Instance region_elem_of_dec (a : Z) (r : MemoryRegion) : Decision (a ∈ r).
Proof. unfold elem_of, region_elem_of. apply _. Defined.

(** ** Areas *)

(** Offsets into the backing object stay within 64 bits over the whole area. *)
Definition span_ok (v : VMArea) : Prop :=
  match kind v with
  | Anon => True
  | File m => 0 <= foffset m /\ foffset m + rsize (region v) < 2 ^ 64
  | SharedAnon m => 0 <= soffset m /\ soffset m + rsize (region v) < 2 ^ 64
  end.

Definition aligned_region (r : MemoryRegion) : Prop :=
  region_ok r /\ 0 < rsize r /\ start_address r mod PAGE_SIZE = 0 /\ rsize r mod PAGE_SIZE = 0.

Definition area_wf (v : VMArea) : Prop := aligned_region (region v) /\ span_ok v.

(** [v'] stands for [v] at address [a]: same permissions and, unless [v] maps a file,
    same contents. *)
Definition same_at (v v' : VMArea) (a : Z) : Prop :=
  permissions v' = permissions v /\
  (is_file_backed v = false -> is_file_backed v' = false /\ content v' a = content v a).

Lemma same_at_refl v a : same_at v v a.
Proof. split; [done|]. by intros. Qed.

Lemma same_at_trans v1 v2 v3 a : same_at v1 v2 a -> same_at v2 v3 a -> same_at v1 v3 a.
Proof.
  intros [P1 C1] [P2 C2]. split; [congruence|]. intros Hf.
  destruct (C1 Hf) as [F1 E1]. destruct (C2 F1) as [F2 E2]. split; congruence.
Qed.

Lemma area_vma_ok v : area_wf v -> is_file_backed v = false -> vma_ok v.
Proof.
  intros ((Hr & Hs & _) & Hsp) Hf. unfold vma_ok, kind_ok, span_ok, is_file_backed in *.
  by destruct (kind v).
Qed.

Definition aligned_sub (r' r : MemoryRegion) : Prop :=
  subregion r' r /\ start_address r' mod PAGE_SIZE = 0 /\ rsize r' mod PAGE_SIZE = 0.

Lemma aligned_sub_region r' r : aligned_region r -> aligned_sub r' r -> aligned_region r'.
Proof.
  intros (Hr & _) (Hsub & H1 & H2). split; [by eapply subregion_ok|]. by destruct Hsub as (_ & _ & ?).
Qed.

Lemma clone_same v r' a : area_wf v -> subregion r' (region v) -> a ∈ r' ->
  same_at v (clone_with_new_region v r') a.
Proof.
  intros Hwf Hsub Ha. split; [done|]. intros Hf. split.
  - unfold is_file_backed, clone_with_new_region in *. simpl. by destruct (kind v).
  - apply clone_with_new_region_content; try done. by apply area_vma_ok.
Qed.

Lemma clone_wf v r' : area_wf v -> aligned_sub r' (region v) -> area_wf (clone_with_new_region v r').
Proof.
  intros [Ha Hsp] Hsub. split; [by apply (aligned_sub_region _ _ Ha)|].
  destruct Hsub as ((H1 & H2 & H3) & _). destruct Ha as (Hr & _). unfold region_ok in Hr.
  unfold span_ok, clone_with_new_region in *. simpl. destruct (kind v) as [m| |m]; simpl; [lia|done|].
  rewrite usub_small, uadd_small by lia. lia.
Qed.

Lemma shrink_same v r' a : area_wf v -> subregion r' (region v) -> a ∈ r' ->
  same_at v (shrink_to v r') a.
Proof.
  intros Hwf Hsub Ha. unfold shrink_to. destruct (kind v) as [m| |m] eqn:Hk.
  - split; [by bcase|]. unfold is_file_backed. by rewrite Hk.
  - by apply clone_same.
  - by apply clone_same.
Qed.

Lemma shrink_region v r' : region (shrink_to v r') = r'.
Proof. unfold shrink_to. destruct (kind v); [by bcase|done..]. Qed.

Lemma shrink_wf v r' : area_wf v -> aligned_sub r' (region v) -> area_wf (shrink_to v r').
Proof.
  intros [Ha Hsp] Hsub. split; [rewrite shrink_region; by apply (aligned_sub_region _ _ Ha)|].
  pose proof (clone_wf v r' (conj Ha Hsp) Hsub) as [_ Hc].
  unfold shrink_to. destruct (kind v) as [m| |m] eqn:Hk; [|done..].
  destruct Hsub as ((H1 & H2 & H3) & _). destruct Ha as (Hr & _). unfold region_ok in Hr.
  unfold span_ok in *. rewrite Hk in Hsp. bcase; simpl; [done|].
  rewrite usub_small, uadd_small by lia. lia.
Qed.

(** [v] grown over the region of its right neighbour [w]. *)
Definition join (v w : VMArea) : VMArea :=
  set_region v (mkRegion (start_address (region v)) (rsize (region v) + rsize (region w))).

Section Join.
Context (v w : VMArea) (Hv : area_wf v) (Hw : area_wf w).
Context (Hadj : start_address (region v) + rsize (region v) = start_address (region w)).
Context (Hm : can_merge_with v w = true).

Lemma can_merge_kinds : permissions v = permissions w /\
  match kind v, kind w with
  | Anon, Anon => True
  | SharedAnon l, SharedAnon r => backing l = backing r /\ soffset r = soffset l + rsize (region v)
  | File l, File r => file l = file r /\ foffset r = foffset l + rsize (region v)
  | _, _ => False
  end.
Proof.
  revert Hm. unfold can_merge_with. destruct Hv as [(Hr & Hs & _) Hsp]. unfold span_ok in Hsp.
  case_bool_decide as Hp; simpl; [|done]. intros E. split; [done|].
  destruct (kind v) as [l| |l], (kind w) as [r| |r]; try done; breflect.
  - rewrite uadd_small in * by lia. lia.
  - match goal with H : bool_decide _ = true |- _ => apply bool_decide_eq_true in H; rename H into Hc end.
    unfold checked_add in Hc. case_match; [|done]. injection Hc as Hc. lia.
Qed.

Lemma join_expand : expand_by (region v) (rsize (region w)) = Return (region (join v w)).
Proof.
  destruct Hv as [(Hr & _) _]. destruct Hw as [(Hr' & Hs' & _ & Hm') _]. unfold region_ok in *.
  unfold expand_by. change (Z.land (rsize (region w)) PAGE_MASK) with (page_offset (rsize (region w))).
  rewrite page_offset_eq, Hm'. ostep. rewrite uadd_small by lia. done.
Qed.

Lemma join_wf : area_wf (join v w).
Proof.
  destruct can_merge_kinds as [_ Hk].
  destruct Hv as [(Hr & Hs & Ha & Hz) Hsp]. destruct Hw as [(Hr' & Hs' & Ha' & Hz') Hsp'].
  unfold region_ok in *. split.
  - unfold aligned_region, region_ok. simpl. repeat split; try lia.
    rewrite Z.add_mod, Hz, Hz' by done. done.
  - unfold span_ok in *. simpl. destruct (kind v), (kind w); try done; lia.
Qed.

Lemma join_same_l a : same_at v (join v w) a.
Proof. split; [done|]. by intros. Qed.

Lemma join_same_r a : same_at w (join v w) a.
Proof.
  destruct can_merge_kinds as [Hp Hk]. split; [done|]. unfold is_file_backed, content. simpl.
  destruct (kind v), (kind w); try done. destruct Hk as [-> Hk]. intros _. split; [done|].
  f_equal. lia.
Qed.
End Join.

(** ** Maps *)

Record map_wf (m : btree VMArea) : Prop := mkMapWf {
  wf_sorted : sorted m;
  wf_area : forall k v, (k, v) ∈ m -> k = start_address (region v) /\ area_wf v;
  wf_disjoint : forall k v k' v', (k, v) ∈ m -> (k', v') ∈ m -> k < k' ->
    k + rsize (region v) <= k'
}.

Definition area_at (m : btree VMArea) (a : Z) : option VMArea :=
  match last (range_le a m) with
  | Some (_, vma) => if vma_contains_address vma a then Some vma else None
  | None => None
  end.

(** Nothing but the representation changed at [a]. *)
Definition agree (m m' : btree VMArea) (a : Z) : Prop :=
  match area_at m a, area_at m' a with
  | None, None => True
  | Some v, Some v' => same_at v v' a
  | _, _ => False
  end.

Lemma agree_refl m a : agree m m a.
Proof. unfold agree. destruct (area_at m a); [apply same_at_refl|done]. Qed.

Lemma agree_trans m1 m2 m3 a : agree m1 m2 a -> agree m2 m3 a -> agree m1 m3 a.
Proof.
  unfold agree. destruct (area_at m1 a), (area_at m2 a), (area_at m3 a); try done.
  apply same_at_trans.
Qed.

Lemma agree_None m m' a : agree m m' a -> area_at m a = None -> area_at m' a = None.
Proof. unfold agree. intros H E. rewrite E in H. by destruct (area_at m' a). Qed.

Lemma agree_Some m m' a v : agree m m' a -> area_at m a = Some v ->
  exists v', area_at m' a = Some v' /\ same_at v v' a.
Proof. unfold agree. intros H E. rewrite E in H. destruct (area_at m' a); [eauto|done]. Qed.

Section MapWf.
Context (m : btree VMArea) (Hwf : map_wf m).

Lemma wf_entry k v : (k, v) ∈ m ->
  k = start_address (region v) /\ area_wf v /\ region_ok (region v) /\ 0 < rsize (region v).
Proof. intros Hin. destruct (wf_area m Hwf k v Hin) as [? Hv]. pose proof Hv as ((? & ? & _) & _). done. Qed.

(** Two entries that share an address are the same. *)
Lemma wf_share k v k' v' a : (k, v) ∈ m -> (k', v') ∈ m -> a ∈ region v -> a ∈ region v' ->
  k = k' /\ v = v'.
Proof.
  intros H1 H2 A1 A2. destruct (wf_entry _ _ H1) as (E1 & _). destruct (wf_entry _ _ H2) as (E2 & _).
  destruct (Z.lt_trichotomy k k') as [Hlt|[->|Hlt]].
  - pose proof (wf_disjoint m Hwf _ _ _ _ H1 H2 Hlt). rsolve.
  - split; [done|]. by eapply sorted_unique; [apply wf_sorted|..].
  - pose proof (wf_disjoint m Hwf _ _ _ _ H2 H1 Hlt). rsolve.
Qed.

Lemma area_at_Some a v : area_at m a = Some v <-> exists k, (k, v) ∈ m /\ a ∈ region v.
Proof.
  unfold area_at. split.
  - destruct (last _) as [[k w]|] eqn:E; [|done]. case_match eqn:Ec; [|done]. intros [= <-].
    apply range_le_last in E as (Hin & _); [|apply Hwf]. exists k. split; [done|].
    apply contains_address_spec; [|done]. by apply (wf_entry k).
  - intros (k & Hin & Ha). destruct (wf_entry _ _ Hin) as (Ek & _ & Hr & Hs).
    destruct (last _) as [[k' w]|] eqn:E.
    + apply range_le_last in E as (Hin' & Hle & Hmax); [|apply Hwf].
      assert (k <= k') by (eapply Hmax; [done|rsolve]).
      destruct (Z.eq_dec k k') as [<-|].
      * rewrite (sorted_unique k w v m (wf_sorted m Hwf) Hin' Hin).
        by rewrite (proj2 (contains_address_spec _ _ Hr)).
      * pose proof (wf_disjoint m Hwf k v k' w Hin Hin' ltac:(lia)). rsolve.
    + pose proof (range_le_None m a E k v Hin). rsolve.
Qed.

Lemma area_at_None a : area_at m a = None <-> forall k v, (k, v) ∈ m -> ~ a ∈ region v.
Proof.
  destruct (area_at m a) as [v|] eqn:E.
  - apply area_at_Some in E as (k & Hin & Ha). split; [done|]. intros H. by destruct (H k v Hin).
  - split; [|done]. intros _ k v Hin Ha.
    assert (area_at m a = Some v) by (apply area_at_Some; eauto). congruence.
Qed.

Lemma area_at_wf a v : area_at m a = Some v ->
  area_wf v /\ a ∈ region v /\ (start_address (region v), v) ∈ m.
Proof.
  intros (k & Hin & Ha)%area_at_Some. destruct (wf_entry _ _ Hin) as (-> & Hv & _). done.
Qed.
End MapWf.

(** ** Inserting and removing areas *)

Definition fresh (m : btree VMArea) (r : MemoryRegion) : Prop :=
  forall k v, (k, v) ∈ m ->
    start_address (region v) + rsize (region v) <= start_address r \/
    start_address r + rsize r <= start_address (region v).

Lemma fresh_spec m r : map_wf m -> 0 < rsize r ->
  fresh m r <-> forall a, a ∈ r -> area_at m a = None.
Proof.
  intros Hwf Hr. split.
  - intros Hf a Ha. apply area_at_None; [done|]. intros k v Hin Hav. specialize (Hf k v Hin). rsolve.
  - intros Hn k v Hin. destruct (wf_entry m Hwf k v Hin) as (_ & _ & Hvr & Hs).
    destruct (decide (start_address (region v) + rsize (region v) <= start_address r)); [by left|].
    destruct (decide (start_address r + rsize r <= start_address (region v))); [by right|].
    set (a := Z.max (start_address r) (start_address (region v))).
    assert (Ha : a ∈ r) by (unfold a; rsolve). specialize (Hn a Ha).
    rewrite area_at_None in Hn by done. destruct (Hn k v Hin). unfold a. rsolve.
Qed.

Lemma fresh_mono m m' r : (forall k v, (k, v) ∈ m' -> (k, v) ∈ m) -> fresh m r -> fresh m' r.
Proof. intros Hsub Hf k v Hin. by apply (Hf k v), Hsub. Qed.

Lemma fresh_key m r v : map_wf m -> 0 < rsize r -> fresh m r -> ~ (start_address r, v) ∈ m.
Proof.
  intros Hwf Hr Hf Hin. destruct (wf_entry m Hwf _ _ Hin) as (E & _ & _ & Hs).
  specialize (Hf _ _ Hin). lia.
Qed.

Section Insert.
Context (m : btree VMArea) (Hwf : map_wf m) (v : VMArea) (Hv : area_wf v) (Hf : fresh m (region v)).

Lemma elem_of_insert_fresh k w :
  (k, w) ∈ bt_insert (start_address (region v)) v m <->
  (k = start_address (region v) /\ w = v) \/ (k, w) ∈ m.
Proof.
  rewrite elem_of_bt_insert by apply Hwf. split; [tauto|]. intros [?|Hin]; [by left|].
  right. split; [|done]. intros ->. destruct Hv as [(_ & Hs & _) _]. by eapply fresh_key.
Qed.

Lemma insert_wf : map_wf (bt_insert (start_address (region v)) v m).
Proof.
  split.
  - apply bt_insert_sorted, Hwf.
  - intros k w [[-> ->]|Hin]%elem_of_insert_fresh; [done|]. by apply (wf_area m).
  - intros k w k' w' H1 H2 Hlt. destruct Hv as [(_ & Hs & _) _].
    apply elem_of_insert_fresh in H1 as [[-> ->]|H1];
    apply elem_of_insert_fresh in H2 as [[-> ->]|H2]; [lia|..|by eapply (wf_disjoint m)].
    + destruct (wf_entry m Hwf _ _ H2) as (-> & _ & _ & ?). specialize (Hf _ _ H2). lia.
    + destruct (wf_entry m Hwf _ _ H1) as (-> & _ & _ & ?). specialize (Hf _ _ H1). lia.
Qed.

Lemma insert_area_at a : area_at (bt_insert (start_address (region v)) v m) a =
  if decide (a ∈ region v) then Some v else area_at m a.
Proof.
  destruct (decide (a ∈ region v)) as [Ha|Ha].
  - apply area_at_Some; [apply insert_wf|]. exists (start_address (region v)). split; [|done].
    apply elem_of_insert_fresh. by left.
  - destruct (area_at m a) as [w|] eqn:E.
    + apply (area_at_Some m Hwf) in E as (k & Hin & Hw). apply area_at_Some; [apply insert_wf|].
      exists k. split; [|done]. apply elem_of_insert_fresh. by right.
    + apply area_at_None; [apply insert_wf|]. intros k w [[-> ->]|Hin]%elem_of_insert_fresh; [done|].
      by apply (proj1 (area_at_None m Hwf a) E k).
Qed.
End Insert.

Section Remove.
Context (m : btree VMArea) (Hwf : map_wf m) (v : VMArea).
Context (Hin : (start_address (region v), v) ∈ m).

Lemma remove_wf s : map_wf (bt_remove s m).
Proof.
  split.
  - apply bt_remove_sorted, Hwf.
  - intros k w [_ H]%elem_of_bt_remove; [|apply Hwf]. by apply (wf_area m).
  - intros k w k' w' [_ H1]%elem_of_bt_remove [_ H2]%elem_of_bt_remove; [|apply Hwf..].
    by eapply (wf_disjoint m).
Qed.

Lemma remove_area_at a : area_at (bt_remove (start_address (region v)) m) a =
  if decide (a ∈ region v) then None else area_at m a.
Proof.
  destruct (decide (a ∈ region v)) as [Ha|Ha].
  - apply area_at_None; [apply remove_wf|]. intros k w [Hne H]%elem_of_bt_remove Hw; [|apply Hwf].
    destruct (wf_share m Hwf _ _ _ _ a H Hin Hw Ha). done.
  - destruct (area_at m a) as [w|] eqn:E.
    + apply (area_at_Some m Hwf) in E as (k & Hk & Hw). apply area_at_Some; [apply remove_wf|].
      exists k. split; [|done]. apply elem_of_bt_remove; [apply Hwf|]. split; [|done].
      intros ->. by rewrite (sorted_unique _ _ _ m (wf_sorted m Hwf) Hin Hk) in Ha.
    + apply area_at_None; [apply remove_wf|]. intros k w [_ H]%elem_of_bt_remove; [|apply Hwf].
      by apply (proj1 (area_at_None m Hwf a) E k).
Qed.

Lemma remove_fresh : fresh (bt_remove (start_address (region v)) m) (region v).
Proof.
  destruct (wf_entry m Hwf _ _ Hin) as (_ & _ & _ & Hs).
  apply fresh_spec; [apply remove_wf|done|]. intros a Ha. rewrite remove_area_at. by case_decide.
Qed.
End Remove.

(** ** Merging neighbours *)

Section JoinMap.
Context (m : btree VMArea) (Hwf : map_wf m) (v w : VMArea).
Context (Hv : (start_address (region v), v) ∈ m) (Hw : (start_address (region w), w) ∈ m).
Context (Hadj : start_address (region v) + rsize (region v) = start_address (region w)).
Context (Hm : can_merge_with v w = true).

Definition joined : btree VMArea :=
  bt_insert (start_address (region v)) (join v w) (bt_remove (start_address (region w)) m).

Lemma joined_eq : joined =
  bt_insert (start_address (region (join v w))) (join v w)
    (bt_remove (start_address (region v)) (bt_remove (start_address (region w)) m)).
Proof.
  unfold joined. pose proof (wf_sorted m Hwf) as Hs.
  apply sorted_ext; [by repeat first [apply bt_insert_sorted|apply bt_remove_sorted]..|].
  intros [k x]. rewrite !elem_of_bt_insert, !elem_of_bt_remove
    by (repeat apply bt_remove_sorted; done). simpl. tauto.
Qed.

Lemma joined_spec : map_wf joined /\ forall a, agree m joined a.
Proof.
  destruct (wf_entry m Hwf _ _ Hv) as (_ & Av & Rv & Sv).
  destruct (wf_entry m Hwf _ _ Hw) as (_ & Aw & Rw & Sw).
  set (m1 := bt_remove (start_address (region w)) m).
  assert (W1 : map_wf m1) by (by apply remove_wf).
  assert (Hv1 : (start_address (region v), v) ∈ m1).
  { apply elem_of_bt_remove; [apply Hwf|]. split; [lia|done]. }
  assert (Hfr : fresh (bt_remove (start_address (region v)) m1) (region (join v w))).
  { apply fresh_spec; [by apply remove_wf|simpl; lia|]. intros a Ha.
    rewrite (remove_area_at m1 W1 v Hv1). case_decide; [done|]. unfold m1.
    rewrite (remove_area_at m Hwf w Hw). case_decide; [done|]. rsolve. }
  rewrite joined_eq. split.
  - apply insert_wf; [by apply remove_wf|by apply join_wf|done].
  - intros a. unfold agree.
    rewrite insert_area_at by (done || by apply remove_wf || by apply join_wf).
    fold m1. rewrite (remove_area_at m1 W1 v Hv1). unfold m1. rewrite (remove_area_at m Hwf w Hw).
    assert (Hj : a ∈ region (join v w) <-> a ∈ region v \/ a ∈ region w) by rsolve.
    destruct (decide (a ∈ region v)) as [Ha|Ha]; [|destruct (decide (a ∈ region w)) as [Ha'|Ha']].
    + rewrite (proj2 (area_at_Some m Hwf a v)) by eauto. rewrite decide_True by tauto.
      apply join_same_l.
    + rewrite (proj2 (area_at_Some m Hwf a w)) by eauto. rewrite decide_True by tauto.
      by apply join_same_r.
    + rewrite decide_False by tauto. apply agree_refl.
Qed.
End JoinMap.
