(* ===== verification/MemoryMapOps.v ===== *)
(** * The memory map: correctness of its operations

    Every operation of MemoryMap keeps the invariant of MemoryMapInv, never
    panics, and changes the area of an address exactly where it should.  The page
    tables are any implementation of [UserAddressSpace] whose range operations
    succeed on page-aligned ranges. *)
From Stdlib Require Import String.
From S2P Require Import Prelude BTree Error Address Region Vma MemoryMap MemoryMapInv.
Local Open Scope Z_scope.

(** What the memory map relies on: walking a page-aligned range does not fail, and
    afterwards the translations of the range, and no others, are gone or have the
    new permissions. *)
Class UserAddressSpaceLaws (AS : Type) `{UserAddressSpace AS} : Prop := {
  unmap_range_ok : forall a r, aligned_region r -> exists ps, (as_unmap_range a r).1 = Ok ps;
  protect_range_ok : forall a r p, aligned_region r -> (as_protect_range a r p).1 = Ok tt;
  unmap_range_translate : forall a r va, aligned_region r ->
    as_translate (as_unmap_range a r).2 va = if decide (va ∈ r) then None else as_translate a va;
  protect_range_translate : forall a r p va, aligned_region r ->
    as_translate (as_protect_range a r p).2 va =
    if decide (va ∈ r) then (fun i => mkPageInfo (page_pfn i) p) <$> as_translate a va
    else as_translate a va
}.

(** The page permits no more than the area, and it is copy-on-write only where the area
    is writable. *)
Definition le_perms (p : PtePermissions) (q : VMAPermissions) : Prop :=
  (pte_read p = true -> vread q = true) /\ (pte_write p = true -> vwrite q = true) /\
  (pte_execute p = true -> vexecute q = true) /\ (pte_cow p = true -> vwrite q = true).

Lemma le_perms_from_vma q : le_perms (pte_from_vma q) q.
Proof. done. Qed.

Section Ops.
Context {AS : Type} `{UserAddressSpaceLaws AS}.
Implicit Types mm : MemoryMap AS.

Definition mm_wf mm : Prop := map_wf (vmas mm).

(** Page tables follow the areas: a page that is mapped lies in an area and permits
    no more than it. *)
Definition covered_page (m : btree VMArea) (va : Z) (i : PageInfo) : Prop :=
  exists v, area_at m va = Some v /\ le_perms (page_perms i) (permissions v).

(** The same, except for the mapped pages of [X]: operations go through states in
    which an area is taken out and its pages are not covered yet. *)
Definition tables_but mm (X : Z -> PageInfo -> Prop) : Prop :=
  forall va i, as_translate (address_space mm) va = Some i -> covered_page (vmas mm) va i \/ X va i.

Definition tables_ok mm : Prop :=
  forall va i, as_translate (address_space mm) va = Some i -> covered_page (vmas mm) va i.

Lemma tables_but_ok mm : tables_but mm (fun _ _ => False) -> tables_ok mm.
Proof. intros Ht va i Hi. by destruct (Ht va i Hi). Qed.

Lemma tables_ok_but mm X : tables_ok mm -> tables_but mm X.
Proof. intros Ht va i Hi. left. by apply Ht. Qed.

(** The pages of [r] that are fit for the area [w]. *)
Definition page_for (r : MemoryRegion) (w : option VMArea) (va : Z) (i : PageInfo) : Prop :=
  va ∈ r /\ exists v, w = Some v /\ le_perms (page_perms i) (permissions v).

Lemma covered_agree m m' va i : agree m m' va -> covered_page m va i -> covered_page m' va i.
Proof.
  intros Ha (v & Ev & Hl). destruct (agree_Some _ _ _ _ Ha Ev) as (v' & E' & [Hp _]).
  exists v'. split; [done|]. by rewrite Hp.
Qed.

(** ** merge_vma *)

Lemma merge_next_spec mm v : mm_wf mm -> area_wf v -> fresh (vmas mm) (region v) ->
  exists mm1 v1, merge_next mm v = Return (mm1, v1) /\
    address_space mm1 = address_space mm /\ mm_wf mm1 /\ area_wf v1 /\
    fresh (vmas mm1) (region v1) /\
    forall a, agree (bt_insert (start_address (region v)) v (vmas mm))
                    (bt_insert (start_address (region v1)) v1 (vmas mm1)) a.
Proof.
  intros Hwf Hv Hf. unfold merge_next. pose proof Hv as ((Rv & Sv & _) & _).
  assert (Hkeep : exists mm1 v1, Return (mm, v) = Return (mm1, v1) /\
    address_space mm1 = address_space mm /\ mm_wf mm1 /\ area_wf v1 /\
    fresh (vmas mm1) (region v1) /\
    forall a, agree (bt_insert (start_address (region v)) v (vmas mm))
                    (bt_insert (start_address (region v1)) v1 (vmas mm1)) a).
  { exists mm, v. do 5 (split; [done|]). intros a. apply agree_refl. }
  rewrite end_address_eq by done.
  destruct (bt_get _ _) as [w|] eqn:E; [|done]. apply bt_get_Some in E; [|apply Hwf].
  destruct (can_merge_with v w) eqn:Hm; [|done]. clear Hkeep.
  destruct (wf_entry _ Hwf _ _ E) as (Ek & Hw & Rw & Sw). rewrite Ek in E.
  rewrite (proj2 (bt_get_Some _ w _ (wf_sorted _ Hwf)) E). ostep.
  rewrite (join_expand v w Hv Hw Ek). ostep.
  set (M := bt_insert (start_address (region v)) v (vmas mm)).
  assert (WM : map_wf M) by (by apply insert_wf).
  assert (Hin : forall k x, (k, x) ∈ M <-> (k = start_address (region v) /\ x = v) \/ (k, x) ∈ vmas mm)
    by (intros; by apply elem_of_insert_fresh).
  destruct (joined_spec M WM v w) as [Wj Aj];
    [apply Hin; by left|apply Hin; by right|done|done|].
  assert (Ej : joined M v w = bt_insert (start_address (region v)) (join v w)
                 (bt_remove (start_address (region w)) (vmas mm))).
  { unfold joined. pose proof (wf_sorted _ Hwf) as Hs. pose proof (wf_sorted _ WM) as Hs'.
    apply sorted_ext; [by repeat first [apply bt_insert_sorted|apply bt_remove_sorted]..|].
    intros [k x]. rewrite !elem_of_bt_insert, !elem_of_bt_remove, Hin
      by (repeat apply bt_remove_sorted; done). tauto. }
  exists (set_vmas mm (bt_remove (start_address (region w)) (vmas mm))), (join v w).
  do 2 (split; [done|]). split; [by apply remove_wf|]. split; [by apply join_wf|]. split.
  - apply fresh_spec; [by apply remove_wf|simpl; lia|]. intros a Ha. cbn [vmas set_vmas].
    rewrite (remove_area_at _ Hwf w E). case_decide as Haw; [done|].
    apply (proj1 (fresh_spec _ _ Hwf Sv) Hf). rsolve.
  - intros a. cbn [vmas set_vmas]. specialize (Aj a). by rewrite Ej in Aj.
Qed.

Lemma merge_prev_spec mm v : mm_wf mm -> area_wf v -> fresh (vmas mm) (region v) ->
  exists mm', merge_prev mm v = Return mm' /\ address_space mm' = address_space mm /\ mm_wf mm' /\
    forall a, agree (bt_insert (start_address (region v)) v (vmas mm)) (vmas mm') a.
Proof.
  intros Hwf Hv Hf. unfold merge_prev. pose proof Hv as ((Rv & Sv & _) & _).
  set (M := bt_insert (start_address (region v)) v (vmas mm)).
  assert (WM : map_wf M) by (by apply insert_wf).
  assert (Hkeep : exists mm', Return (set_vmas mm M) = Return mm' /\
    address_space mm' = address_space mm /\ mm_wf mm' /\
    forall a, agree M (vmas mm') a).
  { eexists. do 3 (split; [done|]). intros a. apply agree_refl. }
  destruct (last _) as [[k p]|] eqn:E; [|done].
  apply range_lt_last in E as (Hp & Hlt & _); [|apply Hwf].
  destruct (wf_entry _ Hwf _ _ Hp) as (-> & Ap & Rp & Sp). rewrite end_address_eq by done.
  destruct (_ && _) eqn:Ec; [|done]. clear Hkeep. breflect.
  rewrite (join_expand p v) by done. ostep.
  assert (Hin : forall k x, (k, x) ∈ M <-> (k = start_address (region v) /\ x = v) \/ (k, x) ∈ vmas mm)
    by (intros; by apply elem_of_insert_fresh).
  destruct (joined_spec M WM p v) as [Wj Aj]; [apply Hin; by right|apply Hin; by left|done|done|].
  assert (Ej : joined M p v = bt_insert (start_address (region p)) (join p v) (vmas mm)).
  { unfold joined. pose proof (wf_sorted _ Hwf) as Hs. pose proof (wf_sorted _ WM) as Hs'.
    apply sorted_ext; [by repeat first [apply bt_insert_sorted|apply bt_remove_sorted]..|].
    intros [k x]. rewrite !elem_of_bt_insert, !elem_of_bt_remove, Hin
      by (repeat apply bt_remove_sorted; done).
    split; [tauto|]. intros [?|[? Hx]]; [by left|]. right. split; [done|]. split; [|by right].
    intros ->. by apply (fresh_key (vmas mm) (region v) x). }
  rewrite Ej in Wj, Aj. eexists. do 2 (split; [done|]). split; [exact Wj|exact Aj].
Qed.

Lemma merge_vma_spec mm v : mm_wf mm -> area_wf v -> fresh (vmas mm) (region v) ->
  exists mm', merge_vma mm v = Return mm' /\ address_space mm' = address_space mm /\ mm_wf mm' /\
    forall a, agree (bt_insert (start_address (region v)) v (vmas mm)) (vmas mm') a.
Proof.
  intros Hwf Hv Hf. destruct (merge_next_spec mm v Hwf Hv Hf) as (m1 & v1 & E & As1 & W1 & A1 & F1 & G1).
  destruct (merge_prev_spec m1 v1 W1 A1 F1) as (m2 & E2 & As2 & W2 & G2).
  exists m2. unfold merge_vma. rewrite E. ostep. split; [done|]. split; [congruence|]. split; [done|].
  intros a. by eapply agree_trans.
Qed.

(** ** unmap_region *)

Lemma truncate_start_spec v r' : area_wf v -> aligned_sub r' (region v) ->
  region (truncate_start v r') = r' /\ area_wf (truncate_start v r') /\
  forall a, a ∈ r' -> same_at v (truncate_start v r') a.
Proof.
  intros Hv Hsub. pose proof (clone_wf v r' Hv Hsub) as [Ha Hc].
  assert (Hs : forall a, a ∈ r' -> same_at v (clone_with_new_region v r') a)
    by (intros; apply clone_same; [done|apply Hsub|done]).
  destruct Hv as [(Hr & _) Hsp]. destruct Hsub as ((H1 & H2 & H3) & _). unfold region_ok in Hr.
  unfold truncate_start, clone_with_new_region in *. cbn [kind] in *.
  destruct (kind v) as [m| |m] eqn:Hk; try done. split; [done|]. split.
  - split; [done|]. unfold span_ok in *. rewrite Hk in Hsp. simpl.
    rewrite usub_small, uadd_small by lia. lia.
  - intros a _. split; [done|]. unfold is_file_backed. by rewrite Hk.
Qed.

Lemma insert_piece mm (p : VMArea) : mm_wf mm -> area_wf p -> fresh (vmas mm) (region p) ->
  mm_wf (insert_vma mm p) /\
  (forall k w, (k, w) ∈ vmas mm -> (k, w) ∈ vmas (insert_vma mm p)) /\
  forall a, area_at (vmas (insert_vma mm p)) a =
    if decide (a ∈ region p) then Some p else area_at (vmas mm) a.
Proof.
  intros Hwf Hp Hf. split; [by apply insert_wf|]. split; [|by intros; apply insert_area_at].
  intros k w Hin. apply elem_of_insert_fresh; auto.
Qed.

(** What is left of the area [v] when [r] is unmapped. *)
Definition carved (m m' : btree VMArea) (v : VMArea) (r : MemoryRegion) : Prop :=
  forall a, if decide (a ∈ region v) then
              if decide (a ∈ r) then area_at m' a = None
              else exists v', area_at m' a = Some v' /\ same_at v v' a
            else area_at m' a = area_at m a.
(** One piece [p] of [v] is put back. *)
Lemma insert_one mm v p r : mm_wf mm -> fresh (vmas mm) (region v) -> 0 < rsize (region v) ->
  area_wf p -> (forall a, a ∈ region p <-> a ∈ region v /\ ~ a ∈ r) ->
  (forall a, a ∈ region p -> same_at v p a) ->
  mm_wf (insert_vma mm p) /\ carved (vmas mm) (vmas (insert_vma mm p)) v r /\
  forall k w, (k, w) ∈ vmas mm -> (k, w) ∈ vmas (insert_vma mm p).
Proof.
  intros Hwf Hf Hs Hp Hreg Hsame. pose proof (proj1 (fresh_spec _ _ Hwf Hs) Hf) as Hn.
  assert (Hfp : fresh (vmas mm) (region p)).
  { apply fresh_spec; [done|apply Hp|]. intros a [Ha _]%Hreg. by apply Hn. }
  destruct (insert_piece mm p Hwf Hp Hfp) as (W & M & E). split; [done|]. split; [|done].
  intros a. rewrite E. specialize (Hreg a). case_decide as Hav; [case_decide as Har|].
  - rewrite decide_False by tauto. by apply Hn.
  - rewrite decide_True by tauto. exists p. split; [done|]. apply Hsame. tauto.
  - rewrite decide_False by tauto. done.
Qed.

(** Two pieces [p] and [q] of [v] are put back. *)
Lemma insert_two mm v p q r : mm_wf mm -> fresh (vmas mm) (region v) -> 0 < rsize (region v) ->
  area_wf p -> area_wf q ->
  (forall a, a ∈ region p \/ a ∈ region q <-> a ∈ region v /\ ~ a ∈ r) ->
  (forall a, a ∈ region p -> ~ a ∈ region q) ->
  (forall a, a ∈ region p -> same_at v p a) -> (forall a, a ∈ region q -> same_at v q a) ->
  mm_wf (insert_vma (insert_vma mm p) q) /\
  carved (vmas mm) (vmas (insert_vma (insert_vma mm p) q)) v r /\
  forall k w, (k, w) ∈ vmas mm -> (k, w) ∈ vmas (insert_vma (insert_vma mm p) q).
Proof.
  intros Hwf Hf Hs Hp Hq Hreg Hpq Sp Sq. pose proof (proj1 (fresh_spec _ _ Hwf Hs) Hf) as Hn.
  assert (Hfp : fresh (vmas mm) (region p)).
  { apply fresh_spec; [done|apply Hp|]. intros a Ha. apply Hn. specialize (Hreg a). tauto. }
  destruct (insert_piece mm p Hwf Hp Hfp) as (W & M & E).
  assert (Hfq : fresh (vmas (insert_vma mm p)) (region q)).
  { apply fresh_spec; [done|apply Hq|]. intros a Ha. rewrite E. specialize (Hpq a).
    rewrite decide_False by tauto. apply Hn. specialize (Hreg a). tauto. }
  destruct (insert_piece _ q W Hq Hfq) as (W' & M' & E'). split; [done|]. split; [|auto].
  intros a. rewrite E', E. specialize (Hreg a). case_decide as Hav; [case_decide as Har|].
  - rewrite !decide_False by tauto. by apply Hn.
  - destruct (decide (a ∈ region q)); [exists q; auto|]. rewrite decide_True by tauto.
    exists p. split; [done|]. apply Sp. tauto.
  - rewrite !decide_False by tauto. done.
Qed.

Lemma aligned_piece v s e : area_wf v -> start_address (region v) <= s -> s < e ->
  e <= start_address (region v) + rsize (region v) -> s mod PAGE_SIZE = 0 -> e mod PAGE_SIZE = 0 ->
  aligned_sub (mkRegion s (e - s)) (region v).
Proof.
  intros _ H1 H2 H3 A1 A2. unfold aligned_sub, subregion. simpl. repeat split; try lia.
  rewrite Zminus_mod, A1, A2. done.
Qed.

Lemma region_end_aligned r : aligned_region r -> (start_address r + rsize r) mod PAGE_SIZE = 0.
Proof. intros (_ & _ & E1 & E2). rewrite Z.add_mod, E1, E2 by done. done. Qed.

Lemma keep_pieces_spec mm v r : mm_wf mm -> area_wf v -> fresh (vmas mm) (region v) ->
  aligned_region r -> start_address (region v) < start_address r + rsize r ->
  start_address r < start_address (region v) + rsize (region v) ->
  let mm' := keep_pieces mm v (start_address r) (end_address r) in
  mm_wf mm' /\ carved (vmas mm) (vmas mm') v r /\
  forall k w, (k, w) ∈ vmas mm -> (k, w) ∈ vmas mm'.
Proof.
  intros Hwf Hv Hf Hr O1 O2. cbv zeta. pose proof Hv as (Hav & _). pose proof Hav as (Rv & Sv & Av & _).
  pose proof (region_end_aligned _ Hav) as Ev. pose proof (region_end_aligned _ Hr) as Er.
  destruct Hr as (Rr & Sr & Ar & Zr). unfold keep_pieces. rewrite !end_address_eq by done.
  assert (HL : start_address (region v) < start_address r ->
    aligned_sub (mkRegion (start_address (region v)) (start_address r - start_address (region v))) (region v))
    by (intros; apply aligned_piece; done || lia).
  assert (HR : start_address r + rsize r < start_address (region v) + rsize (region v) ->
    aligned_sub (mkRegion (start_address r + rsize r)
      (start_address (region v) + rsize (region v) - (start_address r + rsize r))) (region v))
    by (intros; apply aligned_piece; done || lia).
  unfold region_ok in *. destruct (_ && _) eqn:Eb; breflect; [|destruct (_ <? _) eqn:El; breflect].
  - rewrite !usub_small by lia. specialize (HL ltac:(lia)). specialize (HR ltac:(lia)).
    apply insert_two; try done; [by apply clone_wf|by apply clone_wf|rsolve|rsolve|..];
      intros a Ha; apply clone_same; done || apply HL || apply HR.
  - destruct Eb as [?|Eg]; [done|]. rewrite Eg. breflect.
    rewrite usub_small by lia. specialize (HL ltac:(lia)).
    apply insert_one; try done; [by apply clone_wf|rsolve|].
    intros a Ha; apply clone_same; done || apply HL.
  - destruct (_ >? _) eqn:Eg; breflect.
    + rewrite usub_small by lia. specialize (HR ltac:(lia)).
      destruct (truncate_start_spec v _ Hv HR) as (Et & Wt & St).
      apply insert_one; try done; rewrite Et; [rsolve|done].
    + split; [done|]. split; [|done]. intros a. case_decide as Ha; [|done].
      rewrite decide_True by rsolve. apply (proj1 (fresh_spec (vmas mm) (region v) Hwf Sv) Hf a Ha).
Qed.
(** The translations left after the page tables are fixed up for the area [v]. *)
Definition fixed_up (r : MemoryRegion) (v : VMArea) (nv : option VMArea) (a a' : AS) : Prop :=
  forall va i, as_translate a' va = Some i ->
    if decide (va ∈ r /\ va ∈ region v) then
      exists w, nv = Some w /\ (page_perms i = pte_from_vma (permissions w) \/
                                as_translate a va = Some i /\ permissions w = permissions v)
    else as_translate a va = Some i.

Lemma intersection_aligned r o i : aligned_region r -> aligned_region o ->
  intersection r o = Some i -> aligned_region i /\ forall a, a ∈ i <-> a ∈ r /\ a ∈ o.
Proof.
  intros Hr Ho E. pose proof (region_end_aligned _ Hr) as Er. pose proof (region_end_aligned _ Ho) as Eo.
  destruct Hr as (Rr & _ & Ar & _), Ho as (Ro & _ & Ao & _).
  apply intersection_Some in E as (Si & Ri & Es & Ee); [|done..]. split; [|rsolve].
  assert (A1 : start_address i mod PAGE_SIZE = 0) by (rewrite Es; by apply Z.max_case).
  assert (A2 : (start_address i + rsize i) mod PAGE_SIZE = 0) by (rewrite Ee; by apply Z.min_case).
  do 3 (split; [done|]). replace (rsize i) with (start_address i + rsize i - start_address i) by lia.
  by rewrite Zminus_mod, A1, A2.
Qed.

Lemma intersection_disjoint r o a : region_ok r -> region_ok o -> intersection r o = None ->
  ~ (a ∈ r /\ a ∈ o).
Proof. intros Hr Ho E Ha. apply intersection_elem_of in Ha as (i & E' & _); congruence || done. Qed.

Lemma fixup_spec mm r v nv : aligned_region r -> area_wf v ->
  exists ps mm', fixup_pg_tables mm r v nv = Return (Ok ps, mm') /\ vmas mm' = vmas mm /\
    fixed_up r v nv (address_space mm) (address_space mm').
Proof.
  intros Hr [Hv _]. unfold fixup_pg_tables, on_as.
  destruct (intersection r (region v)) as [i|] eqn:Ei.
  2: { eexists _, _. do 2 (split; [done|]). intros va j Hj. pose proof Hr as (Rr & _). pose proof Hv as (Rv & _).
       by rewrite decide_False by (by apply intersection_disjoint). }
  destruct (intersection_aligned _ _ _ Hr Hv Ei) as [Ai Hi].
  destruct (unmap_range_ok (address_space mm) i Ai) as [ps E].
  assert (Hun : exists ps mm', Return ((as_unmap_range (address_space mm) i).1,
      set_as mm (as_unmap_range (address_space mm) i).2) = Return (Ok ps, mm') /\
      vmas mm' = vmas mm /\ fixed_up r v nv (address_space mm) (address_space mm')).
  { eexists _, _. rewrite E. do 2 (split; [done|]). intros va j. cbn [address_space set_as].
    rewrite unmap_range_translate by done. specialize (Hi va). do 2 case_decide; tauto || done. }
  destruct nv as [w|]; [|done]. destruct (_ || _); [done|]. clear Hun ps E.
  case_bool_decide as Hp; simpl.
  - eexists _, _. do 2 (split; [done|]). intros va j Hj. case_decide; [|done]. eauto.
  - rewrite protect_range_ok by done. simpl. eexists _, _. do 2 (split; [done|]). intros va j.
    cbn [address_space set_as]. rewrite protect_range_translate by done. specialize (Hi va).
    case_decide; case_decide; try tauto. destruct (as_translate _ va); [|done]. intros [= <-]. eauto.
Qed.

(** [m'] is [m] with the areas of [l] gone from [r] and nothing else changed. *)
Definition unmapped (m m' : btree VMArea) (l : list VMArea) (r : MemoryRegion) : Prop :=
  forall a, if decide (a ∈ r /\ Exists (fun v => a ∈ region v) l) then area_at m' a = None
            else agree m m' a.
Definition affected_by (m : btree VMArea) (r : MemoryRegion) (v : VMArea) : Prop :=
  (start_address (region v), v) ∈ m /\ start_address (region v) < start_address r + rsize r /\
  start_address r < start_address (region v) + rsize (region v).

Definition below (v w : VMArea) : Prop := start_address (region v) < start_address (region w).

Lemma keep_pieces_as mm v us ue : address_space (keep_pieces mm v us ue) = address_space mm.
Proof. unfold keep_pieces. by bcases. Qed.

(** Removing [v] and putting back its pieces unmaps [v] from [r]. *)
Lemma unmap_one mm mm1 v r : mm_wf mm -> aligned_region r -> affected_by (vmas mm) r v ->
  vmas mm1 = bt_remove (start_address (region v)) (vmas mm) ->
  let mm' := keep_pieces mm1 v (start_address r) (end_address r) in
  mm_wf mm' /\ unmapped (vmas mm) (vmas mm') [v] r /\
  forall k w, (k, w) ∈ vmas mm -> k <> start_address (region v) -> (k, w) ∈ vmas mm'.
Proof.
  intros Hwf Hr (Hin & O1 & O2) E1. destruct (wf_entry _ Hwf _ _ Hin) as (_ & Hv & _).
  destruct (keep_pieces_spec mm1 v r) as (W & C & M); try done.
  { unfold mm_wf. rewrite E1. by apply remove_wf. }
  { rewrite E1. by apply remove_fresh. }
  split; [done|]. split.
  - intros a. specialize (C a). rewrite E1, remove_area_at in C by done.
    destruct (decide (a ∈ region v)) as [Ha|Ha]; [destruct (decide (a ∈ r)) as [Har|Har]|].
    + rewrite decide_True; [done|]. split; [done|]. by constructor.
    + rewrite decide_False by tauto. destruct C as (v' & E & S). unfold agree.
      rewrite E, (proj2 (area_at_Some _ Hwf a v)) by eauto. done.
    + rewrite decide_False by (rewrite Exists_cons, Exists_nil; tauto).
      unfold agree. rewrite C. apply agree_refl.
  - intros k w Hw Hne. apply M. rewrite E1. by apply elem_of_bt_remove; [apply Hwf|].
Qed.

Lemma tables_step mm mm' v r nv X : mm_wf mm -> affected_by (vmas mm) r v ->
  (forall va i, page_for r nv va i -> X va i) ->
  tables_but mm X -> fixed_up r v nv (address_space mm) (address_space mm') ->
  unmapped (vmas mm) (vmas mm') [v] r -> tables_but mm' X.
Proof.
  intros Hwf Hv HX Ht Hfix U va i Hi. specialize (Hfix va i Hi). specialize (U va).
  pose proof (Exists_cons (fun v => va ∈ region v) v []) as Y. rewrite Exists_nil in Y.
  case_decide as Hd; case_decide as Hu; try tauto.
  - right. destruct Hfix as (w & -> & [Ep|[E Ep]]).
    { apply HX. split; [tauto|]. exists w. by rewrite Ep. }
    destruct (Ht va i E) as [(v' & E' & Hl)|Hx]; [|done].
    apply HX. split; [tauto|]. exists w. split; [done|].
    apply (area_at_Some _ Hwf) in E' as (k & Hin & Ha).
    destruct (wf_share _ Hwf _ _ _ _ va Hin (proj1 Hv) Ha (proj2 Hu)) as [_ ->]. congruence.
  - destruct (Ht va i Hfix) as [Hc|Hr]; [left; by eapply covered_agree|by right].
Qed.

Lemma unmap_loop_spec l r nv : aligned_region r -> forall mm ps, mm_wf mm ->
  StronglySorted below l -> (forall v, v ∈ l -> affected_by (vmas mm) r v) ->
  exists ps' mm', unmap_loop mm l r nv ps = Return (Ok ps', mm') /\ mm_wf mm' /\
    unmapped (vmas mm) (vmas mm') l r /\
    (forall k w, (k, w) ∈ vmas mm -> (forall v, v ∈ l -> k <> start_address (region v)) ->
       (k, w) ∈ vmas mm') /\
    forall X, (forall va i, page_for r nv va i -> X va i) -> tables_but mm X -> tables_but mm' X.
Proof.
  intros Hr. induction l as [|v l IH]; intros mm ps Hwf Hs Hl.
  - eexists _, _. do 2 (split; [done|]). split; [|split; [done|by intros]]. intros a.
    rewrite decide_False by (rewrite Exists_nil; tauto). apply agree_refl.
  - apply SSorted_cons_iff in Hs as [Hs Hlt]. pose proof (Hl v ltac:(by left)) as Hv.
    cbn [unmap_loop]. rewrite (proj2 (bt_get_Some _ v _ (wf_sorted _ Hwf))) by apply Hv. ostep.
    set (mm0 := set_vmas mm (bt_remove (start_address (region v)) (vmas mm))).
    destruct (fixup_spec mm0 r v nv) as (qs & mm1 & E & Em & Ef);
      [done|by apply (wf_entry _ Hwf _ _ (proj1 Hv))|].
    rewrite E. cbn [tbind].
    destruct (unmap_one mm mm1 v r) as (W & U & M); [done..|].
    destruct (IH _ (ps ++ qs) W Hs) as (ps' & mm' & E' & W' & U' & K' & T').
    { intros w Hw. destruct (Hl w ltac:(by right)) as (Hin & ? & ?). split; [|done].
      apply M; [done|]. specialize (Hlt w Hw). unfold below in Hlt. lia. }
    exists ps', mm'. do 2 (split; [done|]). split; [|split].
    2: { intros k w Hw Hno. apply K'; [apply M; [done|apply Hno; by left]|].
         intros x Hx. apply Hno. by right. }
    2: { intros X HX Ht. apply T'; [done|]. eapply (tables_step mm); try done. by rewrite keep_pieces_as. }
    intros a. specialize (U a). specialize (U' a).
    pose proof (Exists_cons (fun v => a ∈ region v) v l) as X.
    pose proof (Exists_cons (fun v => a ∈ region v) v []) as Y. rewrite Exists_nil in Y.
    do 3 case_decide; try tauto; [by apply (agree_None _ _ _ U')|by eapply agree_trans].
Qed.

Lemma take_while_elem {A} (R : A -> A -> Prop) f (l : list A) x : StronglySorted R l ->
  (forall y z, R y z -> f z = true -> f y = true) ->
  x ∈ take_while f l <-> x ∈ l /\ f x = true.
Proof.
  intros Hs HR. induction l as [|y l IH]; simpl; [set_solver|].
  apply SSorted_cons_iff in Hs as [Hs Hlt]. destruct (f y) eqn:Ey.
  - rewrite !elem_of_cons, IH by done. split; [|tauto]. intros [->|[? ?]]; auto.
  - split; [set_solver|]. intros [[->|Hin]%elem_of_cons Hx]; [congruence|].
    by rewrite (HR y x (Hlt x Hin) Hx) in Ey.
Qed.

Lemma take_while_sorted {A} (R : A -> A -> Prop) f (l : list A) :
  StronglySorted R l -> StronglySorted R (take_while f l).
Proof.
  induction l as [|y l IH]; simpl; [done|]. intros [Hs Hlt]%SSorted_cons_iff.
  destruct (f y); [|constructor]. apply SSorted_cons_iff. split; [auto|].
  intros x Hx. apply Hlt. clear -Hx. induction l as [|z l IH]; simpl in *; [done|].
  destruct (f z); [|by apply not_elem_of_nil in Hx]. set_solver.
Qed.
Lemma range_ge_areas mm a : mm_wf mm ->
  StronglySorted below (map snd (range_ge a (vmas mm))) /\
  forall v, v ∈ map snd (range_ge a (vmas mm)) <->
    (start_address (region v), v) ∈ vmas mm /\ a <= start_address (region v).
Proof.
  intros Hwf. split.
  - pose proof (sorted_filter (fun e => a <=? fst e) _ (wf_sorted _ Hwf)) as Hs.
    assert (Hk : forall k v, (k, v) ∈ range_ge a (vmas mm) -> k = start_address (region v)).
    { intros k v [Hin _]%elem_of_filter_pair. by apply (wf_entry _ Hwf) in Hin as [-> _]. }
    fold (range_ge a (vmas mm)) in Hs. revert Hs Hk.
    generalize (range_ge a (vmas mm)) as l. induction l as [|[k v] l IH]; [constructor|].
    intros [Hs Hlt]%sorted_cons Hk. apply SSorted_cons_iff. split; [apply IH; set_solver|].
    intros w Hw. apply list_elem_of_fmap in Hw as ([k' w'] & -> & Hin). unfold below. simpl.
    rewrite <- (Hk k v) by (by left). rewrite <- (Hk k' w') by (by right). by apply (Hlt k' w').
  - intros v. rewrite list_elem_of_fmap. split.
    + intros ([k w] & -> & [Hin Hle]%elem_of_filter_pair). simpl in *.
      destruct (wf_entry _ Hwf _ _ Hin) as (-> & _). split; [done|]. breflect. lia.
    + intros [Hin Hle]. exists (start_address (region v), v). split; [done|].
      apply elem_of_filter_pair. split; [done|]. simpl. lia.
Qed.

Lemma affected_spec mm r : mm_wf mm -> aligned_region r ->
  StronglySorted below (affected_vmas mm (start_address r) (end_address r)) /\
  forall v, v ∈ affected_vmas mm (start_address r) (end_address r) <-> affected_by (vmas mm) r v.
Proof.
  intros Hwf (Rr & Sr & _). rewrite end_address_eq by done. unfold affected_vmas.
  destruct (range_ge_areas mm (start_address r) Hwf) as [Hs He].
  set (B := map snd (range_ge (start_address r) (vmas mm))) in *.
  set (f := fun v => start_address (region v) <? start_address r + rsize r).
  assert (HB : forall v, v ∈ take_while f B <->
    ((start_address (region v), v) ∈ vmas mm /\ start_address r <= start_address (region v)) /\
    start_address (region v) < start_address r + rsize r).
  { intros v. rewrite (take_while_elem below) by (done || unfold below, f; lia).
    rewrite He. unfold f. rewrite Z.ltb_lt. done. }
  assert (HA : forall v, v ∈ match last (range_lt (start_address r) (vmas mm)) with
      | Some (_, vma) => if end_address (region vma) >? start_address r then [vma] else []
      | None => [] end <->
    (start_address (region v), v) ∈ vmas mm /\ start_address (region v) < start_address r /\
    start_address r < start_address (region v) + rsize (region v)).
  { intros v. destruct (last _) as [[k p]|] eqn:E.
    - apply range_lt_last in E as (Hin & Hlt & Hmax); [|apply Hwf].
      destruct (wf_entry _ Hwf _ _ Hin) as (-> & _ & Rp & Sp). rewrite end_address_eq by done.
      assert (Hu : (start_address (region v), v) ∈ vmas mm -> start_address (region v) < start_address r ->
        start_address r < start_address (region v) + rsize (region v) -> v = p).
      { intros Hv H1 H2. specialize (Hmax _ _ Hv H1).
        destruct (Z.eq_dec (start_address (region v)) (start_address (region p))) as [Eq|].
        - rewrite Eq in Hv. by eapply sorted_unique; [apply Hwf|..].
        - pose proof (wf_disjoint _ Hwf _ _ _ _ Hv Hin ltac:(lia)). lia. }
      bcase.
      + rewrite list_elem_of_singleton. split; [by intros ->|]. intros (? & ? & ?). auto.
      + split; [by intros ?%not_elem_of_nil|]. intros (? & ? & ?). rewrite Hu in * by done. lia.
    - split; [by intros ?%not_elem_of_nil|]. intros (Hv & ? & ?).
      pose proof (range_lt_None _ _ E _ _ Hv). lia. }
  split.
  - apply SSorted_app_iff. split; [|split; [by apply take_while_sorted|]].
    + destruct (last _) as [[k p]|]; [bcase|]; repeat constructor.
    + intros x y [_ [Hx _]]%HA [[_ Hy] _]%HB. unfold below. lia.
  - intros v. rewrite elem_of_app, HA, HB. unfold affected_by. split.
    { intros [(Hv & ? & ?)|((Hv & ?) & ?)]; destruct (wf_entry _ Hwf _ _ Hv) as (_ & _ & _ & Sv);
        (split; [done|lia]). }
    intros (Hv & ? & ?). destruct (wf_entry _ Hwf _ _ Hv) as (_ & _ & _ & Sv).
    destruct (Z.lt_ge_cases (start_address (region v)) (start_address r)); [left|right]; intuition lia.
Qed.

Lemma do_unmap_spec mm r nv : mm_wf mm -> aligned_region r ->
  exists ps mm', do_unmap_region mm r nv = Return (Ok ps, mm') /\ mm_wf mm' /\
    (forall a, if decide (a ∈ r) then area_at (vmas mm') a = None
               else agree (vmas mm) (vmas mm') a) /\
    (forall k w, (k, w) ∈ vmas mm -> ~ affected_by (vmas mm) r w -> (k, w) ∈ vmas mm') /\
    forall X, (forall va i, page_for r nv va i -> X va i) -> tables_but mm X -> tables_but mm' X.
Proof.
  intros Hwf Hr. destruct (affected_spec mm r Hwf Hr) as [Hs Ha].
  destruct (unmap_loop_spec _ r nv Hr mm [] Hwf Hs (fun v => proj1 (Ha v))) as (ps & mm' & E & W & U & K & T).
  exists ps, mm'. do 2 (split; [done|]). split; [|split; [|done]].
  2: { intros k w Hw Hno. apply K; [done|]. intros v [Hv Hov]%Ha ->. apply Hno.
       by rewrite (sorted_unique _ _ _ _ (wf_sorted _ Hwf) Hw Hv). }
  intros a. specialize (U a).
  case_decide as Hx; case_decide as Hy; try tauto.
  apply (agree_None _ _ _ U). apply area_at_None; [done|]. intros k v Hin Hv. apply Hx. split; [done|].
  apply list.Exists_exists. exists v. split; [|done]. apply Ha.
  destruct (wf_entry _ Hwf _ _ Hin) as (-> & _). unfold affected_by. split; [done|]. rsolve.
Qed.

Lemma insert_and_merge_spec mm v : mm_wf mm -> area_wf v ->
  exists mm', insert_and_merge mm v = Return mm' /\ mm_wf mm' /\
    (forall a, if decide (a ∈ region v)
               then exists v', area_at (vmas mm') a = Some v' /\ same_at v v' a
               else agree (vmas mm) (vmas mm') a) /\
    forall X, tables_but mm (fun va i => X va i \/ page_for (region v) (Some v) va i) ->
      tables_but mm' X.
Proof.
  intros Hwf Hv. destruct (do_unmap_spec mm (region v) (Some v) Hwf (proj1 Hv)) as (ps & mm1 & E & W1 & U & _ & T).
  assert (Hf : fresh (vmas mm1) (region v)).
  { apply fresh_spec; [done|apply Hv|]. intros a Ha. specialize (U a). by case_decide. }
  destruct (merge_vma_spec mm1 v W1 Hv Hf) as (mm' & E' & As' & W' & A').
  exists mm'. unfold insert_and_merge. rewrite E. ostep. do 2 (split; [done|]). split.
  2: { intros X Ht va i. rewrite As'. intros Hi.
       destruct (T (fun va i => X va i \/ page_for (region v) (Some v) va i)
         (fun _ _ h => or_intror h) Ht va i Hi) as [(v' & Ev & Hl)|T1]; specialize (U va).
       - left. apply (covered_agree _ _ _ _ (A' va)). unfold covered_page.
         rewrite insert_area_at by done. case_decide; [congruence|]. eauto.
       - destruct T1 as [?|(Hr & w & [= <-] & Hl)]; [by right|].
         left. apply (covered_agree _ _ _ _ (A' va)). unfold covered_page.
         rewrite insert_area_at, decide_True by done. eauto. }
  intros a. specialize (U a). specialize (A' a). pose proof (insert_area_at _ W1 v Hv Hf a) as Ei.
  case_decide.
  - by apply (agree_Some _ _ _ _ A').
  - eapply agree_trans; [done|]. unfold agree in *. by rewrite Ei in A'.
Qed.

(** ** Pages outside the range keep their translation *)

Definition same_outside (r : MemoryRegion) mm mm' : Prop :=
  forall va, ~ va ∈ r -> as_translate (address_space mm') va = as_translate (address_space mm) va.

Lemma fixup_outside mm r v nv x mm' : aligned_region r -> area_wf v ->
  fixup_pg_tables mm r v nv = Return (x, mm') -> same_outside r mm mm'.
Proof.
  intros Hr [Hv _]. unfold fixup_pg_tables, on_as.
  destruct (intersection r (region v)) as [i|] eqn:Ei; [|by intros [= _ <-]].
  destruct (intersection_aligned _ _ _ Hr Hv Ei) as [Ai Hi].
  assert (Hout : forall va, ~ va ∈ r -> ~ va ∈ i) by (intros va Hn Ha; apply Hn, Hi, Ha).
  assert (Hun : Return ((as_unmap_range (address_space mm) i).1,
      set_as mm (as_unmap_range (address_space mm) i).2) = Return (x, mm') -> same_outside r mm mm').
  { intros [= _ <-] va Hva. cbn [address_space set_as].
    by rewrite unmap_range_translate, decide_False by auto. }
  destruct nv as [w|]; [|done]. destruct (_ || _); [done|]. clear Hun.
  case_bool_decide as Hp; simpl; [by intros [= _ <-]|].
  rewrite protect_range_ok by done. simpl. intros [= _ <-] va Hva. cbn [address_space set_as].
  by rewrite protect_range_translate, decide_False by auto.
Qed.

Lemma unmap_loop_outside l r nv : aligned_region r -> Forall area_wf l -> forall mm ps x mm',
  unmap_loop mm l r nv ps = Return (x, mm') -> same_outside r mm mm'.
Proof.
  intros Hr. induction l as [|v l IH]; intros Hl mm ps x mm'; cbn [unmap_loop]; [by intros [= _ <-]|].
  apply Forall_cons in Hl as [Hv Hl]. intros (w & _ & E)%obind_Return.
  destruct (fixup_pg_tables _ r v nv) as [[[qs|e] mm1]| |] eqn:Ef; cbn [tbind] in E; try done.
  - intros va Hva. rewrite (IH Hl _ _ _ _ E va Hva), keep_pieces_as.
    by rewrite (fixup_outside _ r v nv _ _ Hr Hv Ef va Hva).
  - injection E as _ <-. intros va Hva. by rewrite (fixup_outside _ r v nv _ _ Hr Hv Ef va Hva).
Qed.

Lemma do_unmap_outside mm r nv x mm' : mm_wf mm -> aligned_region r ->
  do_unmap_region mm r nv = Return (x, mm') -> same_outside r mm mm'.
Proof.
  intros Hwf Hr. apply unmap_loop_outside; [done|]. apply list.Forall_forall.
  intros v [Hv _]%(affected_spec mm r Hwf Hr). by apply (wf_entry _ Hwf _ _ Hv).
Qed.

Lemma insert_outside mm v mm' : mm_wf mm -> area_wf v -> insert_and_merge mm v = Return mm' ->
  same_outside (region v) mm mm'.
Proof.
  intros Hwf Hv. unfold insert_and_merge.
  destruct (do_unmap_spec mm (region v) (Some v) Hwf (proj1 Hv)) as (ps & mm1 & E & W1 & U & _).
  rewrite E. ostep. assert (Hf : fresh (vmas mm1) (region v)).
  { apply fresh_spec; [done|apply Hv|]. intros a Ha. specialize (U a). by case_decide. }
  destruct (merge_vma_spec mm1 v W1 Hv Hf) as (mm2 & -> & As & _). intros [= <-] va Hva.
  rewrite As. by apply (do_unmap_outside _ _ _ _ _ Hwf (proj1 Hv) E).
Qed.
End Ops.
