(* ===== verification/MemoryMapThms.v ===== *)
(** * The memory map: theorems

    The properties of MemoryMap that callers rely on, in terms of [find_vma] and
    of the translations of the address space: queries, [mmap], [munmap],
    [mprotect], and what goes wrong with the lengths of file mappings and with
    unaligned [mprotect] lengths.  A small page table shows that the assumptions on
    the address space can be met. *)
From Stdlib Require Import String.
From stdpp Require Import gmap.
From S2P Require Import Prelude BTree Error Address Region Vma MemoryMap MemoryMapInv MemoryMapOps.
Local Open Scope Z_scope.

(** ** A page table *)

(** Page numbers and what they map to. *)
Notation PageTable := (gmap Z PageInfo).

Definition page_no (va : Z) : Z := va / PAGE_SIZE.

Definition in_region (r : MemoryRegion) (n : Z) : bool :=
  (start_address r <=? n * PAGE_SIZE) && (n * PAGE_SIZE <? start_address r + rsize r).

Definition pt_protect (t : PageTable) (r : MemoryRegion) (p : PtePermissions) : PageTable :=
  map_imap (fun k i => Some (if in_region r k then mkPageInfo (page_pfn i) p else i)) t.

(** The pages of [r], with permissions [p]. *)
Definition pt_select (t : PageTable) (r : MemoryRegion) (p : PtePermissions) : PageTable :=
  map_imap (fun k i => if in_region r k then Some (mkPageInfo (page_pfn i) p) else None) t.

Definition pt_remove (t : PageTable) (r : MemoryRegion) : PageTable :=
  map_imap (fun k i => if in_region r k then None else Some i) t.

#[export] Instance PageTable_space : UserAddressSpace PageTable := {
  as_new := Ok ∅;
  as_map_page t pfn va p :=
    match t !! page_no va with
    | Some _ => (Err (MappingError AlreadyMapped), t)
    | None => (Ok tt, <[page_no va := mkPageInfo pfn p]> t)
    end;
  as_unmap t va :=
    match t !! page_no va with
    | Some i => (Ok (page_pfn i), delete (page_no va) t)
    | None => (Err (MappingError NotL3Mapped), t)
    end;
  as_remap t va pfn p :=
    match t !! page_no va with
    | Some i => (Ok (page_pfn i), <[page_no va := mkPageInfo pfn p]> t)
    | None => (Err (MappingError NotL3Mapped), t)
    end;
  as_protect_range t r p := (Ok tt, pt_protect t r p);
  as_unmap_range t r :=
    (Ok (map (fun e => page_pfn e.2) (map_to_list (pt_select t r (pte_ro true)))), pt_remove t r);
  as_translate t va := t !! page_no va;
  as_protect_and_clone_region t r o p := (Ok tt, (pt_protect t r p, pt_select t r p ∪ o))
}.

Lemma in_region_page r va : aligned_region r -> in_region r (page_no va) = bool_decide (va ∈ r).
Proof.
  intros (_ & _ & A1 & A2). unfold in_region, page_no.
  apply Z.mod_divide in A1 as [q1 E1]; [|done]. apply Z.mod_divide in A2 as [q2 E2]; [|done].
  pose proof (Z.div_mod va PAGE_SIZE ltac:(done)). pose proof (Z.mod_pos_bound va PAGE_SIZE ltac:(done)).
  unfold PAGE_SIZE in *. case_bool_decide as Hd; unfold elem_of, region_elem_of in Hd;
    [apply andb_true_iff|apply andb_false_iff]; lia.
Qed.

Lemma pt_protect_translate (t : PageTable) r p va : aligned_region r ->
  as_translate (pt_protect t r p) va =
  if decide (va ∈ r) then (fun i => mkPageInfo (page_pfn i) p) <$> as_translate t va
  else as_translate t va.
Proof.
  intros Hr. cbn [as_translate PageTable_space]. unfold pt_protect.
  rewrite map_lookup_imap, in_region_page by done.
  case_bool_decide; case_decide; try done; by destruct (t !! page_no va).
Qed.

#[export] Instance PageTable_laws : UserAddressSpaceLaws PageTable.
Proof.
  split.
  - intros. simpl. eauto.
  - done.
  - intros a r va Hr. cbn [as_unmap_range as_translate PageTable_space snd]. unfold pt_remove.
    rewrite map_lookup_imap, in_region_page by done.
    case_bool_decide; case_decide; try done; by destruct (a !! page_no va).
  - intros. by apply pt_protect_translate.
Qed.

Section Queries.
Context {AS : Type} `{UserAddressSpace AS}.
Implicit Types mm : MemoryMap AS.

Lemma find_vma_area mm a : find_vma mm a = area_at (vmas mm) a.
Proof. done. Qed.

(** [find_vma] finds the area of an address: it returns an area exactly when the
    map has that area and the address lies in it. *)
Theorem find_vma_correct mm a v : map_wf (vmas mm) ->
  find_vma mm a = Some v <-> v ∈ iter_vmas mm /\ a ∈ region v.
Proof.
  intros Hwf. rewrite find_vma_area, area_at_Some by done. unfold iter_vmas.
  rewrite list_elem_of_fmap. split.
  - intros (k & Hin & Ha). split; [|done]. by exists (k, v).
  - intros [([k w] & -> & Hin) Ha]. by exists k.
Qed.

Lemma is_region_free_spec mm r : map_wf (vmas mm) -> region_ok r -> 0 < rsize r ->
  is_region_free mm r = true <-> fresh (vmas mm) r.
Proof.
  intros Hwf Hr Hs. unfold is_region_free. pose proof (range_ge_head _ (start_address r) (wf_sorted _ Hwf)) as Hg.
  rewrite (end_address_eq r) by done. split.
  - destruct (last _) as [[k p]|] eqn:E; simpl; [bcase; simpl; [done|]|].
    + intros Hn k' v Hin. destruct (wf_entry _ Hwf _ _ Hin) as (-> & _ & _ & Sv).
      apply range_le_last in E as (Hp & Hle & Hmax); [|apply Hwf].
      destruct (wf_entry _ Hwf _ _ Hp) as (-> & _ & Rp & _). rewrite end_address_eq in * by done.
      destruct (Z.le_gt_cases (start_address (region v)) (start_address r)) as [H1|H1].
      * left. specialize (Hmax _ _ Hin H1). breflect.
        destruct (Z.eq_dec (start_address (region v)) (start_address (region p))) as [Eq|].
        -- rewrite Eq in Hin. rewrite (sorted_unique _ _ _ _ (wf_sorted _ Hwf) Hin Hp). lia.
        -- pose proof (wf_disjoint _ Hwf _ _ _ _ Hin Hp ltac:(lia)). lia.
      * right. destruct (head _) as [[kn n]|]; [|specialize (Hg _ _ Hin); lia].
        destruct Hg as (_ & _ & Hg). specialize (Hg _ _ Hin ltac:(lia)). breflect. lia.
    + intros Hn k' v Hin. pose proof (range_le_None _ _ E _ _ Hin).
      destruct (wf_entry _ Hwf _ _ Hin) as (-> & _).
      right. destruct (head _) as [[kn n]|]; [|specialize (Hg _ _ Hin); lia].
      destruct Hg as (_ & _ & Hg). specialize (Hg _ _ Hin ltac:(lia)). breflect. lia.
  - intros Hf. replace (negb _) with false.
    + destruct (head _) as [[kn n]|]; [|done]. destruct Hg as (Hin & Hle & _).
      destruct (wf_entry _ Hwf _ _ Hin) as (-> & _ & _ & Sn). specialize (Hf _ _ Hin).
      apply negb_true_iff. lia.
    + destruct (last _) as [[k p]|] eqn:E; [|done].
      apply range_le_last in E as (Hp & Hle & _); [|apply Hwf].
      destruct (wf_entry _ Hwf _ _ Hp) as (-> & _ & Rp & Sp). rewrite end_address_eq by done.
      specialize (Hf _ _ Hp). rewrite negb_involutive. lia.
Qed.

(** [is_region_free] answers whether no address of the region is mapped. *)
Theorem is_region_free_correct mm r : map_wf (vmas mm) -> region_ok r -> 0 < rsize r ->
  is_region_free mm r = true <-> forall a, a ∈ r -> find_vma mm a = None.
Proof. intros Hwf Hr Hs. rewrite is_region_free_spec by done. by apply fresh_spec. Qed.

(** ** find_free_region *)

Definition apart (r : MemoryRegion) (v : VMArea) : Prop :=
  start_address (region v) + rsize (region v) <= start_address r \/
  start_address r + rsize r <= start_address (region v).

#[export] Instance apart_dec r v : Decision (apart r v).
Proof. unfold apart. apply _. Defined.

Definition above (e e' : Z * VMArea) : Prop :=
  start_address (region e'.2) + rsize (region e'.2) <= start_address (region e.2).

Lemma find_gap_sound vs lst len r : StronglySorted above vs ->
  (forall e, e ∈ vs -> region_ok (region e.2) /\ 0 < rsize (region e.2)) ->
  0 <= lst < 2 ^ 64 -> 0 < len -> find_gap vs lst len = Some r ->
  rsize r = len /\ 0 <= start_address r /\ (forall e, e ∈ vs -> apart r e.2) /\
  (start_address r + len = lst \/
   exists e, e ∈ vs /\ start_address r + len = start_address (region e.2)).
Proof.
  revert lst. induction vs as [|[k v] vs IH]; intros lst Hs Hok Hl Hlen; simpl.
  - bcase; [|done]. intros [= <-]. rewrite usub_small by lia. simpl.
    do 2 (split; [lia|]). split; [by intros e He%not_elem_of_nil|left; lia].
  - apply SSorted_cons_iff in Hs as [Hs Hlt].
    destruct (Hok (k, v) ltac:(by left)) as [Rv Sv]. simpl in Rv, Sv. rewrite end_address_eq by done.
    unfold region_ok in Rv. destruct (_ && _) eqn:E.
    + intros [= <-]. apply andb_true_iff in E as [E1 E2]. breflect.
      rewrite usub_small in E2 by lia. rewrite usub_small by lia. simpl.
      do 2 (split; [lia|]). split; [|left; lia].
      intros e [->|He]%elem_of_cons; unfold apart; simpl; [lia|].
      specialize (Hlt e He). unfold above in Hlt. simpl in Hlt. lia.
    + intros Hg. apply IH in Hg as (H1 & H2 & H3 & H4); [|done|intros e He; apply Hok; by right|lia|done].
      assert (Hend : start_address r + len <= start_address (region v)).
      { destruct H4 as [H4|(e & He & H4)]; [lia|]. specialize (Hlt e He). unfold above in Hlt.
        simpl in Hlt. destruct (Hok e ltac:(by right)). lia. }
      do 2 (split; [done|]). split.
      * intros e [->|He]%elem_of_cons; [|by apply H3]. right. simpl. lia.
      * right. destruct H4 as [H4|(e & He & H4)]; [exists (k, v); split; [by left|done]|].
        exists e. split; [by right|done].
Qed.

Lemma find_gap_complete vs lst len r :
  (forall e, e ∈ vs -> region_ok (region e.2) /\ 0 < rsize (region e.2)) ->
  0 <= lst < 2 ^ 64 -> region_ok r -> rsize r = len -> start_address r + rsize r <= lst ->
  (forall e, e ∈ vs -> apart r e.2) -> find_gap vs lst len <> None.
Proof.
  revert lst. induction vs as [|[k v] vs IH]; intros lst Hok Hl Hr Hlen Hend Hap; simpl.
  - unfold region_ok in Hr. bcase; [done|lia].
  - destruct (Hok (k, v) ltac:(by left)) as [Rv Sv]. simpl in Rv, Sv. rewrite end_address_eq by done.
    unfold region_ok in *. specialize (Hap (k, v) ltac:(by left)) as Hv. unfold apart in Hv. simpl in Hv.
    destruct (_ && _) eqn:E; [done|]. apply IH;
      [intros e He; apply Hok; by right|lia|done|done| |intros e He; apply Hap; by right].
    destruct Hv as [Hv|Hv]; [|done]. breflect. destruct E as [E|E]; breflect; [lia|].
    rewrite usub_small in E by lia. lia.
Qed.

Lemma SSorted_rev {A} (R : A -> A -> Prop) l :
  StronglySorted R l -> StronglySorted (fun x y => R y x) (rev l).
Proof.
  induction l as [|x l IH]; simpl; [constructor|]. intros [Hs Hlt]%SSorted_cons_iff.
  apply SSorted_app_iff. split; [auto|]. split; [repeat constructor|].
  intros y z Hy ->%list_elem_of_singleton. apply Hlt. rewrite list_elem_of_In in *. by apply in_rev.
Qed.

Lemma areas_descending mm : map_wf (vmas mm) -> StronglySorted above (rev (vmas mm)).
Proof.
  intros Hwf. apply SSorted_rev.
  assert (Hd : forall e e', e ∈ vmas mm -> e' ∈ vmas mm -> e.1 < e'.1 -> above e' e).
  { intros [k v] [k' v'] H1 H2 Hlt. simpl in *. destruct (wf_entry _ Hwf _ _ H1) as (-> & _).
    pose proof (wf_disjoint _ Hwf _ _ _ _ H1 H2 Hlt). destruct (wf_entry _ Hwf _ _ H2) as (-> & _).
    done. }
  pose proof (wf_sorted _ Hwf) as Hs. unfold sorted in Hs. revert Hs Hd.
  generalize (vmas mm) as m. induction m as [|e m IH]; [constructor|].
  intros [Hs Hlt]%SSorted_cons_iff Hd. apply SSorted_cons_iff. split.
  - apply IH; [done|]. intros. apply Hd; [by right..|done].
  - intros e' He'. apply Hd; [by left|by right|by apply Hlt].
Qed.

Lemma find_free_region_spec mm len r : map_wf (vmas mm) -> 0 < len ->
  find_free_region mm len = Some r ->
  rsize r = len /\ region_ok r /\ fresh (vmas mm) r /\
  (len mod PAGE_SIZE = 0 -> aligned_region r).
Proof.
  intros Hwf Hlen Hg. unfold find_free_region in Hg.
  assert (Hin : forall e, e ∈ rev (vmas mm) <-> e ∈ vmas mm)
    by (intros e; rewrite !list_elem_of_In; symmetry; apply in_rev).
  apply find_gap_sound in Hg as (H1 & H2 & H3 & H4); [|by apply areas_descending| |lia|done].
  2: { intros [k v] [_ (_ & ? & ?)]%Hin%(wf_entry _ Hwf). done. }
  assert (Hend : start_address r + len < 2 ^ 64 /\ (start_address r + len) mod PAGE_SIZE = 0).
  { destruct H4 as [->|([k v] & He & ->)]; [split; [lia|done]|].
    apply Hin, (wf_entry _ Hwf) in He as (_ & [(_ & _ & ? & _) _] & Rv & Sv).
    unfold region_ok in Rv. simpl. split; [lia|done]. }
  assert (Hr : region_ok r) by (unfold region_ok; lia).
  split; [done|]. split; [done|]. split.
  - intros k v He. apply (H3 (k, v)), Hin, He.
  - intros Hm. unfold aligned_region. rewrite H1. do 2 (split; [done|]). split; [|done].
    replace (start_address r) with (start_address r + len - len) by lia.
    by rewrite Zminus_mod, (proj2 Hend), Hm.
Qed.

Lemma fresh_or_mapped mm r : map_wf (vmas mm) -> 0 < rsize r ->
  fresh (vmas mm) r \/ exists a, a ∈ r /\ find_vma mm a <> None.
Proof.
  intros Hwf Hs. destruct (decide (Forall (fun e => apart r e.2) (vmas mm))) as [Hf|Hf].
  - left. rewrite list.Forall_forall in Hf. intros k v Hin. apply (Hf (k, v) Hin).
  - right. apply not_Forall_Exists, list.Exists_exists in Hf as ([k v] & He & Hv); [|apply _].
    destruct (wf_entry _ Hwf _ _ He) as (_ & _ & Rv & Sv). simpl in Hv. unfold apart in Hv.
    exists (Z.max (start_address r) (start_address (region v))). split; [rsolve|].
    intros Hn. rewrite find_vma_area, area_at_None in Hn by done. apply (Hn k v He). rsolve.
Qed.

(** [find_free_region] returns a region of the asked length in which nothing is
    mapped, page-aligned if the length is; it fails only if every region of that
    length below the mmap base has a mapped address. *)
Theorem find_free_region_correct mm len : map_wf (vmas mm) -> 0 < len ->
  match find_free_region mm len with
  | Some r => rsize r = len /\ region_ok r /\ (forall a, a ∈ r -> find_vma mm a = None) /\
      (len mod PAGE_SIZE = 0 -> start_address r mod PAGE_SIZE = 0)
  | None => forall r, region_ok r -> rsize r = len -> start_address r + rsize r <= MMAP_BASE ->
      exists a, a ∈ r /\ find_vma mm a <> None
  end.
Proof.
  intros Hwf Hlen. destruct (find_free_region mm len) as [r|] eqn:E.
  - destruct (find_free_region_spec mm len r Hwf Hlen E) as (H1 & H2 & H3 & H4).
    do 2 (split; [done|]). split; [apply (fresh_spec _ r Hwf ltac:(lia)), H3|]. intros Hm. apply H4, Hm.
  - intros r Hr Hs Hend.
    assert (Hin : forall e, e ∈ rev (vmas mm) <-> e ∈ vmas mm)
      by (intros e; rewrite !list_elem_of_In; symmetry; apply in_rev).
    destruct (fresh_or_mapped mm r Hwf ltac:(lia)) as [Hf|Hm]; [|done].
    exfalso. revert E.
    apply (find_gap_complete (rev (vmas mm)) MMAP_BASE len r); [|by split|done|done|done|].
    + intros [k v] He%Hin. by apply (wf_entry _ Hwf) in He as (_ & _ & ? & ?).
    + intros [k v] He%Hin. by apply (Hf k v).
Qed.
End Queries.

Section Mapping.
Context {AS : Type} `{UserAddressSpaceLaws AS}.
Implicit Types mm : MemoryMap AS.

(** At [a] the two maps have the same permissions and contents, and translate [a] alike. *)
Definition unchanged_at mm mm' (a : Z) : Prop :=
  agree (vmas mm) (vmas mm') a /\
  as_translate (address_space mm') a = as_translate (address_space mm) a.

Lemma unchanged_refl mm a : unchanged_at mm mm a.
Proof. split; [apply agree_refl|done]. Qed.

(** The invariant of a memory map: areas are aligned and disjoint, and page tables
    follow them. *)
Definition mm_inv mm : Prop := mm_wf mm /\ tables_ok mm.

Lemma no_area_no_page mm a : mm_inv mm -> find_vma mm a = None ->
  as_translate (address_space mm) a = None.
Proof.
  intros [_ Ht] Hn. destruct (as_translate _ a) as [i|] eqn:E; [|done].
  destruct (Ht a i E) as (v & Ev & _). rewrite find_vma_area in Hn. congruence.
Qed.

(** [munmap] rounds the end of the range up. *)
Definition munmap_range (r : MemoryRegion) : MemoryRegion :=
  mkRegion (start_address r) (round_up (start_address r + rsize r) PAGE_SIZE - start_address r).

Lemma munmap_range_aligned r : region_ok r -> 0 < rsize r -> start_address r mod PAGE_SIZE = 0 ->
  start_address r + rsize r + PAGE_SIZE < 2 ^ 64 -> aligned_region (munmap_range r).
Proof.
  intros Hr Hs Ha Hb. unfold aligned_region, munmap_range, region_ok in *. cbn [start_address rsize].
  destruct (round_up_spec (start_address r + rsize r) PAGE_SIZE ltac:(done)) as [Hu Hm].
  repeat split; try lia. by rewrite Zminus_mod, Hm, Ha.
Qed.

Lemma do_unmap_inv mm r : mm_inv mm -> aligned_region r ->
  exists ps mm', do_unmap_region mm r None = Return (Ok ps, mm') /\ mm_inv mm' /\
    forall a, if decide (a ∈ r) then find_vma mm' a = None else unchanged_at mm mm' a.
Proof.
  intros [Hwf Ht] Hr. destruct (do_unmap_spec mm r None Hwf Hr) as (ps & mm' & E & W & U & _ & T).
  exists ps, mm'. split; [done|]. split; [split; [done|]; apply tables_but_ok, T|].
  - by intros va i (_ & v & [=] & _).
  - by apply tables_ok_but.
  - intros a. specialize (U a). case_decide; [done|]. split; [done|].
    by apply (do_unmap_outside _ _ _ _ _ Hwf Hr E).
Qed.

Lemma munmap_spec mm r : mm_inv mm -> region_ok r ->
  start_address r + rsize r + PAGE_SIZE < 2 ^ 64 ->
  exists res mm', munmap mm r = Return (res, mm') /\ mm_inv mm' /\
    match res with
    | Err e => e = InvalidValue /\ mm' = mm /\
        (start_address r mod PAGE_SIZE <> 0 \/ rsize r = 0)
    | Ok _ => forall a,
        if decide (a ∈ munmap_range r)
        then find_vma mm' a = None /\ as_translate (address_space mm') a = None
        else unchanged_at mm mm' a
    end.
Proof.
  intros Hinv Hr Hb. unfold munmap, region_is_page_aligned.
  destruct (is_page_aligned (start_address r)) eqn:Ha; simpl.
  2: { eexists _, _. split; [done|]. split; [done|]. do 2 (split; [done|]). left.
       intros E%is_page_aligned_spec. congruence. }
  apply is_page_aligned_spec in Ha. bcase; [eexists _, _; split; [done|]; split; [done|]; auto|].
  rewrite align_to_page_boundary_eq by (done || unfold PAGE_SIZE in *; lia). ostep.
  rewrite Ha, Z.sub_0_r. fold (munmap_range r).
  destruct (do_unmap_inv mm (munmap_range r) Hinv) as (ps & mm' & -> & Hinv' & U).
  { apply munmap_range_aligned; try done. unfold region_ok in Hr. lia. }
  eexists _, _. split; [done|]. split; [done|]. intros a. specialize (U a). case_decide; [|done].
  split; [done|]. by apply no_area_no_page.
Qed.


(** ** mmap *)

(** Offsets into the backing object stay within 64 bits. *)
Definition kind_span (k : VMAreaKind) (len : Z) : Prop :=
  match k with
  | Anon => True
  | File m => 0 <= foffset m /\ foffset m + len < 2 ^ 64
  | SharedAnon m => 0 <= soffset m /\ soffset m + len < 2 ^ 64
  end.

Definition request_ok (req : AddressRequest) (len : Z) : Prop :=
  match req with
  | Any => True
  | Hint address | Fixed address _ => 0 <= address /\ address + len < 2 ^ 64
  end.

(** What the request promises about the chosen region. *)
Definition honours mm (req : AddressRequest) (r : MemoryRegion) : Prop :=
  match req with
  | Fixed address true => start_address r = address
  | Fixed address false => start_address r = address /\ forall a, a ∈ r -> find_vma mm a = None
  | _ => forall a, a ∈ r -> find_vma mm a = None
  end.

Lemma choose_region_spec mm req len r : mm_wf mm -> 0 < len -> len mod PAGE_SIZE = 0 ->
  request_ok req len -> choose_region mm req len = Ok r ->
  rsize r = len /\ aligned_region r /\ honours mm req r.
Proof.
  intros Hwf Hlen Hm Hreq. unfold choose_region.
  assert (Hfree : forall r, ok_or (find_free_region mm len) NoMemory = Ok r ->
    rsize r = len /\ aligned_region r /\ forall a, a ∈ r -> find_vma mm a = None).
  { intros r' E%ok_or_Ok. destruct (find_free_region_spec mm len r' Hwf Hlen E) as (? & ? & Hf & ?).
    split; [done|]. split; [auto|]. by apply (fresh_spec _ r' Hwf ltac:(lia)). }
  destruct req as [|address|address po]; simpl in Hreq |- *.
  - apply Hfree.
  - set (ad := if negb (is_page_aligned address) then page_aligned address else address).
    assert (Had : 0 <= ad <= address /\ ad mod PAGE_SIZE = 0).
    { unfold ad. destruct (is_page_aligned address) eqn:E; simpl.
      - apply is_page_aligned_spec in E. lia.
      - rewrite page_aligned_eq by (unfold usize_ok; lia).
        pose proof (Z.mod_pos_bound address PAGE_SIZE ltac:(done)).
        pose proof (Z.mod_le address PAGE_SIZE ltac:(lia) ltac:(done)).
        split; [lia|]. by apply round_down_multiple. }
    destruct (is_region_free _ _) eqn:E; [|apply Hfree]. intros [= <-].
    assert (Hr : region_ok (mkRegion ad len)) by (unfold region_ok; simpl; lia).
    apply is_region_free_spec in E; [|done..]. split; [done|].
    split; [unfold aligned_region; simpl; tauto|]. by apply fresh_spec.
  - destruct (is_page_aligned address) eqn:Ea; simpl; [|done]. apply is_page_aligned_spec in Ea.
    assert (Hr : region_ok (mkRegion address len)) by (unfold region_ok; simpl; lia).
    assert (Har : aligned_region (mkRegion address len)) by (unfold aligned_region; simpl; tauto).
    destruct po; simpl; [by intros [= <-]|]. destruct (is_region_free _ _) eqn:E; simpl; [|done].
    intros [= <-]. apply is_region_free_spec in E; [|done..].
    do 3 (split; [done|]). by apply fresh_spec.
Qed.

(** Why a request is refused. *)
Definition refused mm (req : AddressRequest) (len : Z) : Prop :=
  match req with
  | Fixed address po => address mod PAGE_SIZE <> 0 \/
      (po = false /\ exists a, a ∈ mkRegion address len /\ find_vma mm a <> None)
  | _ => find_free_region mm len = None
  end.

Lemma choose_region_err mm req len e : mm_wf mm -> 0 < len -> request_ok req len ->
  choose_region mm req len = Err e -> refused mm req len.
Proof.
  intros Hwf Hlen Hreq. unfold choose_region, refused. destruct req as [|address|address po]; simpl.
  - by destruct (find_free_region mm len).
  - bcase; [done|]. by destruct (find_free_region mm len).
  - destruct (is_page_aligned address) eqn:Ea; simpl.
    2: { intros _. left. intros E%is_page_aligned_spec. congruence. }
    destruct po; simpl; [done|]. destruct (is_region_free _ _) eqn:E; simpl; [done|]. intros _.
    right. split; [done|]. simpl in Hreq.
    destruct (fresh_or_mapped mm (mkRegion address len) Hwf Hlen) as [Hf|]; [|done].
    apply is_region_free_spec in Hf; [congruence|done|unfold region_ok; simpl; lia|done].
Qed.

Lemma do_unmap_fresh mm r nv : mm_wf mm -> aligned_region r -> fresh (vmas mm) r ->
  do_unmap_region mm r nv = Return (Ok [], mm).
Proof.
  intros Hwf Hr Hf. destruct (affected_spec mm r Hwf Hr) as [_ Ha]. unfold do_unmap_region.
  destruct (affected_vmas _ _ _) as [|v l] eqn:E; [done|].
  destruct (proj1 (Ha v) ltac:(by left)) as (Hin & ? & ?). specialize (Hf _ _ Hin). lia.
Qed.

(** Inserting where nothing is mapped leaves the page tables alone. *)
Lemma insert_fresh_as mm v mm' : mm_wf mm -> area_wf v -> fresh (vmas mm) (region v) ->
  insert_and_merge mm v = Return mm' -> address_space mm' = address_space mm.
Proof.
  intros Hwf Hv Hf. unfold insert_and_merge. rewrite do_unmap_fresh by (done || apply Hv). ostep.
  destruct (merge_vma_spec mm v Hwf Hv Hf) as (mm1 & -> & As & _). by intros [= <-].
Qed.

Lemma insert_inv mm v : mm_wf mm -> area_wf v ->
  tables_but mm (page_for (region v) (Some v)) ->
  exists mm', insert_and_merge mm v = Return mm' /\ mm_inv mm' /\
    forall a, if decide (a ∈ region v)
              then exists v', find_vma mm' a = Some v' /\ same_at v v' a
              else unchanged_at mm mm' a.
Proof.
  intros Hwf Hv Ht. destruct (insert_and_merge_spec mm v Hwf Hv) as (mm' & E & W & U & T).
  exists mm'. split; [done|]. split; [split; [done|]; apply tables_but_ok, T|].
  - intros va i Hi. destruct (Ht va i Hi); auto.
  - intros a. specialize (U a). case_decide; [done|]. split; [done|].
    by apply (insert_outside _ _ _ Hwf Hv E).
Qed.

Lemma unchanged_trans mm1 mm2 mm3 a :
  unchanged_at mm1 mm2 a -> unchanged_at mm2 mm3 a -> unchanged_at mm1 mm3 a.
Proof. intros [A1 T1] [A2 T2]. split; [by eapply agree_trans|congruence]. Qed.

Lemma page_round_up len : 0 <= len -> len + PAGE_SIZE < 2 ^ 64 ->
  checked_add len PAGE_MASK = Some (len + PAGE_MASK) /\
  Z.land (len + PAGE_MASK) (unot PAGE_MASK) = round_up len PAGE_SIZE.
Proof.
  intros H1 H2. unfold checked_add, PAGE_MASK, PAGE_SIZE in *.
  rewrite (proj2 (Z.ltb_lt _ _)) by lia. split; [done|].
  change (unot (4096 - 1)) with (unot (2 ^ 12 - 1)).
  rewrite land_unot_ones by (unfold usize_ok; lia). unfold round_up. done.
Qed.
(** The outcome of a successful mapping of [len] bytes at [addr]. *)
Definition mapped_at mm mm' (req : AddressRequest) (r : MemoryRegion) (k : VMAreaKind)
    (perms : VMAPermissions) (replace : bool) : Prop :=
  start_address r mod PAGE_SIZE = 0 /\ honours mm req r /\
  forall a, if decide (a ∈ r) then
              (exists v', find_vma mm' a = Some v' /\ same_at (vma_new r k perms) v' a) /\
              (replace = true -> as_translate (address_space mm') a = None)
            else unchanged_at mm mm' a.

Lemma same_at_name v nm v' a : same_at (set_name v nm) v' a -> same_at v v' a.
Proof. done. Qed.

Lemma mmap_insert mm req r k perms nm (replace : bool) : mm_inv mm -> aligned_region r ->
  kind_span k (rsize r) -> honours mm req r ->
  exists pages mm1 mm',
    (if replace then do_unmap_region mm r None else Return (Ok [], mm)) = Return (Ok pages, mm1) /\
    insert_and_merge mm1 (set_name (vma_new r k perms) nm) = Return mm' /\ mm_inv mm' /\
    (replace = true \/ (forall a, a ∈ r -> find_vma mm a = None) ->
       address_space mm' = address_space mm1) /\
    mapped_at mm mm' req r k perms replace.
Proof.
  intros Hinv Hr Hk Hh. set (v := set_name (vma_new r k perms) nm).
  assert (Hv : area_wf v) by (split; [done|]; by destruct k).
  assert (Hpre : exists pages mm1,
    (if replace then do_unmap_region mm r None else Return (Ok [], mm)) = Return (Ok pages, mm1) /\
    mm_inv mm1 /\ (forall a, ~ a ∈ r -> unchanged_at mm mm1 a) /\
    (replace = true \/ (forall a, a ∈ r -> find_vma mm a = None) ->
       forall a, a ∈ r -> find_vma mm1 a = None)).
  { destruct replace.
    - destruct (do_unmap_inv mm r Hinv Hr) as (ps & mm1 & E & I1 & U). exists ps, mm1.
      do 2 (split; [done|]). split; [|intros _]; intros a Ha; specialize (U a); by case_decide.
    - eexists _, _. do 2 (split; [done|]). split; [intros a _; apply unchanged_refl|].
      by intros [?|?]. }
  destruct Hpre as (pages & mm1 & E & I1 & U1 & N1).
  destruct (insert_inv mm1 v (proj1 I1) Hv) as (mm' & E' & I' & U'); [apply tables_ok_but, I1|].
  assert (As : replace = true \/ (forall a, a ∈ r -> find_vma mm a = None) ->
    address_space mm' = address_space mm1).
  { intros Hrep. specialize (N1 Hrep). apply (insert_fresh_as mm1 v); [apply I1|done| |done].
    apply fresh_spec; [apply I1|apply Hr|exact N1]. }
  exists pages, mm1, mm'. do 4 (split; [done|]). split; [apply Hr|]. split; [done|].
  intros a. specialize (U' a). change (region v) with r in U'. case_decide as Ha.
  - split; [done|]. intros Hrep. rewrite As by auto. apply no_area_no_page; [done|]. by apply N1; auto.
  - eapply unchanged_trans; [by apply U1|done].
Qed.

Lemma mmap_spec mm req len perms k nm replace : mm_inv mm -> 0 <= len ->
  len + PAGE_SIZE < 2 ^ 64 -> request_ok req (len + PAGE_SIZE) -> kind_span k (len + PAGE_SIZE) ->
  exists res mm', mmap_impl mm req len perms k nm replace = Return (res, mm') /\ mm_inv mm' /\
    match res with
    | Err _ => mm' = mm /\ (len = 0 \/ refused mm req (round_up len PAGE_SIZE))
    | Ok (addr, pages) => let r := mkRegion addr (round_up len PAGE_SIZE) in
        mapped_at mm mm' req r k perms replace /\ aligned_region r /\
        exists mm1,
          (if replace then do_unmap_region mm r None else Return (Ok [], mm)) = Return (Ok pages, mm1) /\
          (replace = true \/ (forall a, a ∈ r -> find_vma mm a = None) ->
             address_space mm' = address_space mm1)
    end.
Proof.
  intros Hinv H0' Hlen Hreq Hk. unfold mmap_impl. bcase; [eexists _, _; by auto|].
  destruct (page_round_up len H0' Hlen) as [-> ->].
  destruct (round_up_spec len PAGE_SIZE ltac:(done)) as [Hru Hrm].
  set (n := round_up len PAGE_SIZE) in *.
  destruct (choose_region mm req n) as [r|e] eqn:Ec.
  2: { eexists _, _. split; [done|]. do 2 (split; [done|]). right.
       apply choose_region_err in Ec; try done; [apply Hinv|lia|destruct req; simpl in *; lia]. }
  apply choose_region_spec in Ec as (Hs & Hr & Hh);
    [|apply Hinv|lia|done|destruct req; simpl in *; lia].
  assert (Hkr : kind_span k (rsize r)) by (rewrite Hs; destruct k; simpl in *; try done; lia).
  destruct (mmap_insert mm req r k perms nm replace Hinv Hr Hkr Hh)
    as (pages & mm1 & mm' & Eu & Ei & I' & As & M).
  rewrite Eu. cbn [tbind]. rewrite Ei. ostep. eexists _, _. split; [done|]. split; [done|].
  rewrite <- Hs. destruct r as [st sz]. do 2 (split; [done|]). by exists mm1.
Qed.


(** ** mprotect *)

(** One area of [mm] has all of [r]. *)
Definition within_area mm (r : MemoryRegion) : Prop :=
  exists v, find_vma mm (start_address r) = Some v /\ subregion r (region v).

Definition piece_pages (o : option MemoryRegion) (p : VMAPermissions) (va : Z) (i : PageInfo) : Prop :=
  exists r, o = Some r /\ va ∈ r /\ le_perms (page_perms i) p.

(** One of the three insertions of [mprotect]: a piece of [v], if there is one, where
    nothing is mapped. *)
Lemma insert_piece_inv mm o (f : MemoryRegion -> VMArea) p X : mm_wf mm ->
  (forall r, o = Some r -> area_wf (f r) /\ region (f r) = r /\ permissions (f r) = p) ->
  (forall r a, o = Some r -> a ∈ r -> area_at (vmas mm) a = None) ->
  tables_but mm (fun va i => X va i \/ piece_pages o p va i) ->
  exists mm', match o with Some r => insert_and_merge mm (f r) | None => Return mm end = Return mm' /\
    mm_wf mm' /\ tables_but mm' X /\ address_space mm' = address_space mm /\
    forall a, (exists r v', o = Some r /\ a ∈ r /\ area_at (vmas mm') a = Some v' /\ same_at (f r) v' a) \/
              (forall r, o = Some r -> ~ a ∈ r) /\ agree (vmas mm) (vmas mm') a.
Proof.
  intros Hwf Hf Hfree Ht. destruct o as [r|].
  - destruct (Hf r eq_refl) as (Hv & Er & Ep).
    destruct (insert_and_merge_spec mm (f r) Hwf Hv) as (mm' & E & W & U & T).
    exists mm'. split; [done|]. split; [done|]. split; [|split].
    + apply T. intros va i Hi. destruct (Ht va i Hi) as [?|[?|(r' & [= <-] & ? & ?)]]; [auto..|].
      right. right. rewrite Er. split; [done|]. exists (f r). by rewrite Ep.
    + apply (insert_fresh_as mm (f r)); try done. apply fresh_spec; [done|apply Hv|].
      rewrite Er. intros a. by apply Hfree.
    + intros a. specialize (U a). rewrite Er in U. case_decide.
      * left. destruct U as (v' & ? & ?). by exists r, v'.
      * right. split; [by intros r' [= <-]|done].
  - exists mm. split; [done|]. split; [done|]. split; [|split; [done|]].
    + intros va i Hi. destruct (Ht va i Hi) as [?|[?|(r' & [=] & _)]]; auto.
    + intros a. right. split; [done|]. apply agree_refl.
Qed.

(** The pieces [l] and [g] of [v] on the two sides of [r]. *)
Record splits (v : VMArea) (r : MemoryRegion) (l g : option MemoryRegion) : Prop := {
  split_left : forall x, l = Some x ->
    aligned_sub x (region v) /\ start_address x + rsize x <= start_address r;
  split_right : forall x, g = Some x ->
    aligned_sub x (region v) /\ start_address r + rsize r <= start_address x;
  split_cover : forall a, a ∈ region v -> ~ a ∈ r ->
    (exists x, l = Some x /\ a ∈ x) \/ (exists x, g = Some x /\ a ∈ x)
}.

Lemma splits_punch v r : area_wf v -> aligned_region r -> subregion r (region v) ->
  exists l g, punch_hole (region v) r = Return (l, g) /\ splits v r l g.
Proof.
  intros Hv Hr Hsub. pose proof (region_end_aligned _ Hr) as Er.
  pose proof (region_end_aligned _ (proj1 Hv)) as Ev. pose proof Hv as ((Rv & _ & Av & _) & _).
  pose proof Hr as (Rr & Sr & Ar & _). pose proof Hsub as (S1 & S2 & _).
  pose proof (punch_hole_total (region v) r Rv Rr) as E. cbv zeta in E. eexists _, _. split; [exact E|].
  rewrite Z.min_r, Z.max_r by lia. unfold region_ok in *. split.
  - intros x Hx. case_match eqn:Eb; simplify_eq. breflect. split; [|simpl; lia].
    apply aligned_piece; done || lia.
  - intros x Hx. case_match eqn:Eb; simplify_eq. breflect. split; [|simpl; lia].
    apply aligned_piece; done || lia.
  - intros a Ha Hn. destruct (decide (a < start_address r)) as [Hlt|Hge]; [left|right];
      (eexists; split; [rewrite (proj2 (andb_true_iff _ _)); [done|rewrite !Z.ltb_lt; rsolve]|rsolve]).
Qed.

(** The three insertions of [mprotect], once the area [v] is taken out. *)
Lemma mprotect_pieces mm mm0 v vm r l g p : mm_wf mm -> (start_address (region v), v) ∈ vmas mm ->
  vmas mm0 = bt_remove (start_address (region v)) (vmas mm) -> subregion r (region v) ->
  area_wf vm -> region vm = r -> permissions vm = p ->
  (forall a, a ∈ r -> same_at (set_permissions v p) vm a) -> splits v r l g ->
  tables_but mm0 (fun va i => ((False \/ piece_pages g (permissions v) va i) \/
    piece_pages (Some r) p va i) \/ piece_pages l (permissions v) va i) ->
  exists mm1 mm2 mm',
    match l with Some x => insert_and_merge mm0 (shrink_to v x) | None => Return mm0 end = Return mm1 /\
    insert_and_merge mm1 vm = Return mm2 /\
    match g with Some x => insert_and_merge mm2 (shrink_to v x) | None => Return mm2 end = Return mm' /\
    mm_inv mm' /\ address_space mm' = address_space mm0 /\
    forall a, if decide (a ∈ r) then
        exists v', find_vma mm' a = Some v' /\ same_at (set_permissions v p) v' a
      else agree (vmas mm) (vmas mm') a.
Proof.
  intros Hwf Hin E0 Hsub Wm Em Pm Sm Hsp Ht.
  destruct (wf_entry _ Hwf _ _ Hin) as (_ & Hv & _). destruct Hsp as [Hl Hg Hc].
  assert (Hf : forall o x, o = Some x -> aligned_sub x (region v) ->
    area_wf (shrink_to v x) /\ region (shrink_to v x) = x /\
    permissions (shrink_to v x) = permissions v).
  { intros o x _ Hx. split; [by apply shrink_wf|]. split; [apply shrink_region|].
    unfold shrink_to. destruct (kind v); [by bcase|done..]. }
  assert (R0 : forall a, a ∈ region v -> area_at (vmas mm0) a = None).
  { intros a Ha. rewrite E0, (remove_area_at _ Hwf v Hin). by rewrite decide_True. }
  assert (Hnl : forall x a, l = Some x -> a ∈ x -> a ∈ region v /\ a < start_address r).
  { intros x a Hx Ha. destruct (Hl x Hx) as [((? & ? & ?) & _) ?]. rsolve. }
  assert (Hng : forall x a, g = Some x -> a ∈ x -> a ∈ region v /\ start_address r + rsize r <= a).
  { intros x a Hx Ha. destruct (Hg x Hx) as [((? & ? & ?) & _) ?]. rsolve. }
  assert (Hr : forall a, a ∈ r -> a ∈ region v) by (destruct Hsub as (? & ? & ?); intros; rsolve).
  destruct (insert_piece_inv mm0 l (shrink_to v) (permissions v)
    (fun va i => (False \/ piece_pages g (permissions v) va i) \/ piece_pages (Some r) p va i))
    as (mm1 & E1 & W1 & T1 & As1 & U1); [unfold mm_wf; rewrite E0; by apply remove_wf| | |exact Ht|].
  { intros x Hx. by apply (Hf l), Hl. }
  { intros x a Hx Ha. by apply R0, (Hnl x). }
  assert (R1 : forall a, a ∈ region v -> start_address r <= a -> area_at (vmas mm1) a = None).
  { intros a Ha Hge. destruct (U1 a) as [(x & _ & Hx & Hax & _)|[_ U]];
      [destruct (Hnl x a Hx Hax); lia|]. by apply (agree_None _ _ _ U), R0. }
  destruct (insert_piece_inv mm1 (Some r) (fun _ => vm) p
    (fun va i => False \/ piece_pages g (permissions v) va i))
    as (mm2 & E2 & W2 & T2 & As2 & U2); [done|by intros x [= <-]| |exact T1|].
  { intros x a [= <-] Ha. apply R1; [by apply Hr|rsolve]. }
  destruct (insert_piece_inv mm2 g (shrink_to v) (permissions v) (fun _ _ => False))
    as (mm' & E3 & W3 & T3 & As3 & U3); [done| | |exact T2|].
  { intros x Hx. by apply (Hf g), Hg. }
  { intros x a Hx Ha. destruct (Hng x a Hx Ha) as [Hav Hge].
    destruct (U2 a) as [(y & _ & [= <-] & Hay & _)|[_ U]]; [rsolve|].
    apply (agree_None _ _ _ U), R1; [done|]. destruct Hsub as (_ & _ & ?). lia. }
  exists mm1, mm2, mm'. do 3 (split; [done|]). split; [split; [done|by apply tables_but_ok]|].
  split; [congruence|]. clear E1 E2 E3 T1 T2 T3 Ht.
  intros a. specialize (U1 a). specialize (U2 a). specialize (U3 a).
  assert (Hv0 : a ∈ region v -> area_at (vmas mm) a = Some v) by (intros; apply area_at_Some; eauto).
  case_decide as Har.
  - destruct U2 as [(x & v2 & [= <-] & _ & F2 & S2)|[Hno _]]; [|by destruct (Hno r eq_refl)].
    destruct U3 as [(x & v3 & Hx & Ha & _)|[_ U3]]; [destruct (Hng x a Hx Ha); rsolve|].
    destruct (agree_Some _ _ _ _ U3 F2) as (v' & F' & S'). exists v'. split; [done|].
    eapply same_at_trans; [by apply Sm|]. by eapply same_at_trans.
  - destruct U2 as [(x & v2 & [= <-] & Ha & _)|[_ U2]]; [done|]. unfold agree.
    destruct U3 as [(x & v3 & Hx & Ha & F3 & S3)|[Hn3 U3]].
    { rewrite Hv0 by (by apply (Hng x)). rewrite F3.
      eapply same_at_trans; [|done]. apply shrink_same; [done|by apply Hg|done]. }
    pose proof (agree_trans _ _ _ _ U2 U3) as U23.
    destruct U1 as [(x & v1 & Hx & Ha & F1 & S1)|[Hn1 U1]].
    + destruct (agree_Some _ _ _ _ U23 F1) as (v' & F' & S'). rewrite Hv0 by (by apply (Hnl x)).
      rewrite F'. eapply same_at_trans; [|done]. eapply same_at_trans; [|done].
      apply shrink_same; [done|by apply Hl|done].
    + destruct (decide (a ∈ region v)) as [Ha|Ha].
      { destruct (Hc a Ha Har) as [(x & Hx & Hax)|(x & Hx & Hax)]; [by destruct (Hn1 x Hx)|by destruct (Hn3 x Hx)]. }
      pose proof (agree_trans _ _ _ _ U1 U23) as U. unfold agree in U.
      rewrite E0, (remove_area_at _ Hwf v Hin), decide_False in U by done. done.
Qed.

(** The page tables after [protect_range], with the area [v] taken out. *)
Lemma protect_tables mm v r l g p : mm_inv mm -> (start_address (region v), v) ∈ vmas mm ->
  aligned_region r -> splits v r l g ->
  tables_but (mkMM (bt_remove (start_address (region v)) (vmas mm))
                   (as_protect_range (address_space mm) r (pte_from_vma p)).2)
    (fun va i => ((False \/ piece_pages g (permissions v) va i) \/
      piece_pages (Some r) p va i) \/ piece_pages l (permissions v) va i).
Proof.
  intros [Hwf Ht] Hin Hr Hsp va i. cbn [address_space vmas].
  rewrite protect_range_translate by done. case_decide as Har.
  - destruct (as_translate _ va) as [j|]; [|done]. intros [= <-]. right. left. right. by exists r.
  - intros Hi. destruct (Ht va i Hi) as (w & Ew & Hl).
    destruct (decide (va ∈ region v)) as [Ha|Ha].
    + rewrite (proj2 (area_at_Some _ Hwf va v)) in Ew by eauto. injection Ew as <-. right.
      destruct (split_cover _ _ _ _ Hsp va Ha Har) as [(x & -> & Hx)|(x & -> & Hx)];
        [right|left; left; right]; by exists x.
    + left. exists w. by rewrite (remove_area_at _ Hwf v Hin), decide_False.
Qed.

Lemma mprotect_spec mm r p : mm_inv mm -> aligned_region r ->
  exists res mm', mprotect mm r p = Return (res, mm') /\ mm_inv mm' /\
    (address_space mm' = address_space mm \/
     address_space mm' = (as_protect_range (address_space mm) r (pte_from_vma p)).2) /\
    match res with
    | Ok _ => within_area mm r /\ forall a,
        if decide (a ∈ r) then exists v v', find_vma mm a = Some v /\ find_vma mm' a = Some v' /\
          same_at (set_permissions v p) v' a
        else unchanged_at mm mm' a
    | Err e => e = NoMemory /\ mm' = mm /\ ~ within_area mm r
    end.
Proof.
  intros [Hwf Ht] Hr. pose proof Hr as (Rr & Sr & Ar & _). unfold mprotect, region_is_page_aligned.
  rewrite (proj2 (is_page_aligned_spec _) Ar), (proj2 (Z.eqb_neq (rsize r) 0)) by lia. simpl.
  destruct (find_vma mm (start_address r)) as [v|] eqn:Ef.
  2: { eexists _, _. split; [done|]. split; [done|]. split; [by left|]. do 2 (split; [done|]).
       intros (v & E & _). congruence. }
  rewrite find_vma_area in Ef. destruct (area_at_wf _ Hwf _ _ Ef) as (Hv & Has & Hin).
  pose proof Hv as ((Rv & Sv & _) & _).
  rewrite (proj2 (bt_get_Some _ v _ (wf_sorted _ Hwf)) Hin). ostep.
  destruct (contains (region v) r) eqn:Ec; simpl.
  2: { eexists _, _. split; [done|]. split; [done|]. split; [by left|]. do 2 (split; [done|]).
       intros (v' & E & (S1 & S2 & _)). rewrite find_vma_area, Ef in E. injection E as <-.
       rewrite (proj2 (contains_spec _ _ Rv Rr Sv Sr)) in Ec by done. done. }
  pose proof Ec as [S1 S2]%contains_spec; [|done..]. assert (Hsub : subregion r (region v)) by done.
  unfold on_as. rewrite protect_range_ok by done. cbn [tbind].
  set (mm0 := set_vmas _ _).
  pose proof (fun l g vm Hsp W1 R1 P1 A1 => mprotect_pieces mm mm0 v vm r l g p Hwf Hin eq_refl
    Hsub W1 R1 P1 A1 Hsp (protect_tables mm v r l g p (conj Hwf Ht) Hin Hr Hsp)) as Hpieces.
  assert (Hfin : forall mm', mm_inv mm' -> address_space mm' = address_space mm0 ->
      (forall a, if decide (a ∈ r) then
        exists v', find_vma mm' a = Some v' /\ same_at (set_permissions v p) v' a
      else agree (vmas mm) (vmas mm') a) -> mm_inv mm' /\
      (address_space mm' = address_space mm \/
       address_space mm' = (as_protect_range (address_space mm) r (pte_from_vma p)).2) /\
      within_area mm r /\ forall a,
        if decide (a ∈ r) then exists v v', find_vma mm a = Some v /\ find_vma mm' a = Some v' /\
          same_at (set_permissions v p) v' a
        else unchanged_at mm mm' a).
  { intros mm' I' As' U. split; [done|]. split; [by right|]. split; [by exists v|]. intros a. specialize (U a).
    case_decide as Ha; [|split; [done|]; rewrite As'; unfold mm0; cbn [address_space set_vmas set_as];
      by rewrite protect_range_translate, decide_False]. exists v. destruct U as (v' & ? & ?). exists v'.
    split; [|done]. apply area_at_Some; [done|]. eexists. split; [done|]. rsolve. }
  case_bool_decide as Eq.
  - destruct (Hpieces None None (set_permissions v p)) as (m1 & m2 & m3 & [= <-] & E2 & [= <-] & I' & As' & U);
      [by split; [..|rewrite Eq]|done|done|done|by intros; apply same_at_refl|].
    rewrite E2. ostep. eexists _, _. split; [done|]. by apply Hfin.
  - destruct (splits_punch v r Hv Hr Hsub) as (l & g & Ep & Hsp). rewrite Ep. ostep.
    destruct (Hpieces l g (set_permissions (shrink_to v r) p)) as (m1 & m2 & m3 & E1 & E2 & E3 & I' & As' & U);
      [done| |apply shrink_region|done| |].
    + apply (shrink_wf v r Hv). split; [done|]. by destruct Hr as (_ & _ & ? & ?).
    + intros a Ha. split; [done|]. apply (shrink_same v r a Hv Hsub Ha).
    + rewrite E1. ostep. rewrite E2. ostep. rewrite E3. ostep. eexists _, _. split; [done|]. by apply Hfin.
Qed.

End Mapping.

(** ** Concrete runs *)

Local Ltac run := vm_compute; reflexivity.

Definition demo_area (s n : Z) (k : VMAreaKind) (p : VMAPermissions) : Z * VMArea :=
  (s, vma_new (mkRegion s n) k p).

(** Two anonymous areas, with one page of the first one mapped. *)
Definition demo_map : MemoryMap PageTable :=
  mkMM [demo_area 4096 12288 Anon perms_rw; demo_area 32768 4096 Anon perms_rx]
       {[2 := mkPageInfo 77 (pte_rw true)]}.

(** Concrete maps are well formed by inspection of their entries. *)
Ltac solve_demo_wf :=
  split;
  [ repeat constructor
  | let k := fresh in let v := fresh in let Hin := fresh in intros k v Hin;
    match type of Hin with _ ∈ vmas ?m => let m' := eval cbv in (vmas m) in change (vmas m) with m' in Hin end;
    repeat (apply elem_of_cons in Hin as [[= -> ->]|Hin];
      [split; [done|]; unfold area_wf, aligned_region, region_ok, span_ok; simpl; repeat split; done || lia|]);
    by apply not_elem_of_nil in Hin
  | let k := fresh in let v := fresh in let k' := fresh in let v' := fresh in
    let H1 := fresh in let H2 := fresh in intros k v k' v' H1 H2;
    match type of H1 with _ ∈ vmas ?m => let m' := eval cbv in (vmas m) in change (vmas m) with m' in H1, H2 end;
    repeat (apply elem_of_cons in H1 as [[= -> ->]|H1];
      [repeat (apply elem_of_cons in H2 as [[= -> ->]|H2]; [simpl; lia|]); by apply not_elem_of_nil in H2|]);
    by apply not_elem_of_nil in H1 ].

Lemma demo_wf : map_wf (vmas demo_map).
Proof. solve_demo_wf. Qed.

Lemma demo_inv : mm_inv demo_map.
Proof.
  split; [apply demo_wf|]. intros va i. cbn [address_space demo_map as_translate PageTable_space].
  intros [E <-]%lookup_singleton_Some.
  exists (vma_new (mkRegion 4096 12288) Anon perms_rw). split; [|done].
  apply area_at_Some; [apply demo_wf|]. exists 4096. split; [by left|].
  unfold page_no in E. pose proof (Z.div_mod va PAGE_SIZE ltac:(done)).
  pose proof (Z.mod_pos_bound va PAGE_SIZE ltac:(done)).
  unfold PAGE_SIZE in *. split; simpl; lia.
Qed.

Lemma find_vma_correct_witness :
  vma_new (mkRegion 4096 12288) Anon perms_rw ∈ iter_vmas demo_map /\
  9000 ∈ region (vma_new (mkRegion 4096 12288) Anon perms_rw).
Proof. apply (find_vma_correct demo_map 9000 _ demo_wf). reflexivity. Defined.

Lemma is_region_free_correct_witness :
  is_region_free demo_map (mkRegion 16384 16384) = true /\
  forall a, a ∈ mkRegion 16384 16384 -> find_vma demo_map a = None.
Proof.
  split; [reflexivity|]. apply (is_region_free_correct demo_map (mkRegion 16384 16384) demo_wf);
    [unfold region_ok; simpl; lia|simpl; lia|reflexivity].
Defined.

Lemma find_free_region_correct_witness :
  find_free_region demo_map 8192 = Some (mkRegion (MMAP_BASE - 8192) 8192) /\
  forall a, a ∈ mkRegion (MMAP_BASE - 8192) 8192 -> find_vma demo_map a = None.
Proof.
  assert (E : find_free_region demo_map 8192 = Some (mkRegion (MMAP_BASE - 8192) 8192))
    by (vm_compute; reflexivity).
  split; [exact E|].
  pose proof (find_free_region_correct demo_map 8192 demo_wf ltac:(lia)) as Hf.
  rewrite E in Hf. apply Hf.
Defined.




(** ** What the code does not get right *)

(** The length of [mprotect] is not rounded to pages.  Making the first 100 bytes of an
    area read-only and then writable again panics in [expand_by], when the pieces
    merge. *)
Theorem mprotect_unaligned_panics : exists mm1,
  mprotect demo_map (mkRegion 4096 100) perms_ro = Return (Ok tt, mm1) /\
  mprotect mm1 (mkRegion 4096 100) perms_rw = Panic.
Proof. eexists. split; [run|run]. Qed.

(** Two file mappings that continue each other are merged, but the merged area keeps
    the length of the first: the second page reads as zero instead of file data. *)
Theorem mmap_merge_loses_file_data : exists mm1 mm2 v,
  mmap demo_map (Fixed 65536 false) 4096 perms_ro (new_file 7 0 4096) EmptyString = Return (Ok 65536, mm1) /\
  mmap mm1 (Fixed 69632 false) 4096 perms_ro (new_file 7 4096 4096) EmptyString = Return (Ok 69632, mm2) /\
  find_vma mm2 69632 = Some v /\ resolve_fault v 69632 = None /\
  resolve_fault (vma_new (mkRegion 69632 4096) (new_file 7 4096 4096) perms_ro) 69632
    = Some (mkFileRead 4096 0 4096 7).
Proof. eexists _, _, _. do 4 (split; [run|]). run. Qed.

(** Unmapping the middle of a file mapping leaves its right part at the offset of the
    left one: the third page of the file is read from offset 0. *)
Theorem munmap_split_wrong_offset : exists mm1 mm2 ps v,
  mmap demo_map (Fixed 65536 false) 12288 perms_ro (new_file 7 0 12288) EmptyString = Return (Ok 65536, mm1) /\
  munmap mm1 (mkRegion 69632 4096) = Return (Ok ps, mm2) /\
  find_vma mm2 73728 = Some v /\ resolve_fault v 73728 = Some (mkFileRead 0 0 4096 7).
Proof. eexists _, _, _, _. do 3 (split; [run|]). run. Qed.

(** Unmapping the first page of a file mapping moves the offset of the rest but keeps
    its length: bytes past the file data are read from the file instead of zero. *)
Theorem munmap_truncate_keeps_length : exists mm1 mm2 ps v,
  mmap demo_map (Fixed 65536 false) 8192 perms_ro (new_file 7 0 4196) EmptyString = Return (Ok 65536, mm1) /\
  (exists v1, find_vma mm1 69632 = Some v1 /\ resolve_fault v1 69632 = Some (mkFileRead 4096 0 100 7)) /\
  munmap mm1 (mkRegion 65536 4096) = Return (Ok ps, mm2) /\
  find_vma mm2 69632 = Some v /\ resolve_fault v 69632 = Some (mkFileRead 4096 0 4096 7).
Proof.
  eexists _, _, _, _. split; [run|].
  split; [eexists; split; [run|run]|]. do 2 (split; [run|]). run.
Qed.

(** With areas above the mmap base the search does not start there: it returns a
    region above the base. *)
Theorem find_free_region_above_base : exists r,
  find_free_region (mkMM [demo_area (MMAP_BASE + 4096) 4096 Anon perms_rw;
                          demo_area (MMAP_BASE + 65536) 4096 Anon perms_rw] ∅ : MemoryMap PageTable) 8192
    = Some r /\ MMAP_BASE < start_address r.
Proof. eexists. split; [run|]. run. Qed.
