(* ===== verification/MemoryFrames.v ===== *)
(** * Frames in page tables

    Every present page of an address space holds one reference to its frame.  The
    operations of MemoryMap that take pages out of the page tables return the frames,
    so that the caller can give the references back; here it is shown that they return
    exactly the references that are gone. *)
From Stdlib Require Import String.
From stdpp Require Import gmap.
From S2P Require Import Prelude BTree Error Address Region Vma.
From S2P Require Import MemoryMap MemoryMapInv MemoryMapOps MemoryMapThms.
Local Open Scope Z_scope.

(** The frame behind an address. *)
Definition frame_at {AS : Type} `{UserAddressSpace AS} (a : AS) (va : Z) : option Z :=
  page_pfn <$> as_translate a va.

(** What the trait documents of frames: mapping a page adds its frame, unmapping a page
    or a range takes out and returns the frames of the mapped pages, replacing a page
    returns the frame that was there, and protecting changes no frame. *)
Class FrameLaws (AS : Type) `{UserAddressSpace AS} := {
  as_frames : AS -> list Z;
  frames_unmap_range : forall a r ps, aligned_region r -> (as_unmap_range a r).1 = Ok ps ->
    as_frames a ≡ₚ ps ++ as_frames (as_unmap_range a r).2 /\
    ps ≡ₚ omap (frame_at a) (iter_pages r);
  frames_protect_range : forall a r p, aligned_region r ->
    as_frames (as_protect_range a r p).2 ≡ₚ as_frames a;
  frames_map_page : forall a pfn va p, va mod PAGE_SIZE = 0 ->
    as_frames (as_map_page a pfn va p).2 ≡ₚ
    match (as_map_page a pfn va p).1 with Ok _ => pfn :: as_frames a | Err _ => as_frames a end;
  frames_unmap : forall a va i, va mod PAGE_SIZE = 0 -> as_translate a va = Some i ->
    as_frames a ≡ₚ page_pfn i :: as_frames (as_unmap a va).2;
  frames_remap : forall a va pfn p i, as_translate a va = Some i ->
    (as_remap a va pfn p).1 = Ok (page_pfn i) /\
    pfn :: as_frames a ≡ₚ page_pfn i :: as_frames (as_remap a va pfn p).2
}.

Section Frames.
Context {AS : Type} `{UserAddressSpaceLaws AS} `{!FrameLaws AS}.
Implicit Types mm : MemoryMap AS.

Definition mm_frames mm : list Z := as_frames (address_space mm).

(** The references of [mm] are those of [mm'] and the returned ones. *)
Definition accounted mm (ps : list Z) mm' : Prop := mm_frames mm ≡ₚ ps ++ mm_frames mm'.

Lemma accounted_same mm mm' : address_space mm' = address_space mm -> accounted mm [] mm'.
Proof. unfold accounted, mm_frames. by intros ->. Qed.

Lemma accounted_trans mm ps mm1 qs mm2 : accounted mm ps mm1 -> accounted mm1 qs mm2 ->
  accounted mm (ps ++ qs) mm2.
Proof. unfold accounted. intros E1 E2. by rewrite E1, E2, app_assoc. Qed.

Lemma accounted_unmap_range mm r ps : aligned_region r ->
  (as_unmap_range (address_space mm) r).1 = Ok ps ->
  accounted mm ps (set_as mm (as_unmap_range (address_space mm) r).2).
Proof. intros Hr E. by apply frames_unmap_range. Qed.

Lemma fixup_accounted mm r v nv ps mm' : aligned_region r -> area_wf v ->
  fixup_pg_tables mm r v nv = Return (Ok ps, mm') -> accounted mm ps mm'.
Proof.
  intros Hr [Hv _]. unfold fixup_pg_tables, on_as.
  destruct (intersection r (region v)) as [i|] eqn:Ei; [|intros [= <- <-]; by apply accounted_same].
  destruct (intersection_aligned _ _ _ Hr Hv Ei) as [Ai _].
  assert (Hun : Return ((as_unmap_range (address_space mm) i).1,
      set_as mm (as_unmap_range (address_space mm) i).2) = Return (Ok ps, mm') -> accounted mm ps mm').
  { intros [E <-]%Return_pair_inj. by apply accounted_unmap_range. }
  destruct nv as [w|]; [|done]. bcase; [done|]. clear Hun. bcase; [|intros [= <- <-]; by apply accounted_same].
  destruct (as_protect_range _ i _) as [[u|e] a'] eqn:Ep; [|done]. intros [= <- <-].
  pose proof (frames_protect_range (address_space mm) i (pte_from_vma (permissions w)) Ai) as Hp.
  rewrite Ep in Hp. unfold accounted. symmetry. exact Hp.
Qed.

Lemma unmap_loop_accounted l r nv : aligned_region r -> Forall area_wf l ->
  forall mm ps ps' mm', unmap_loop mm l r nv ps = Return (Ok ps', mm') ->
  exists qs, ps' = ps ++ qs /\ accounted mm qs mm'.
Proof.
  intros Hr. induction 1 as [|v l Hv Hl IH]; intros mm ps ps' mm'; cbn [unmap_loop].
  { intros [= <- <-]. exists []. rewrite app_nil_r. split; [done|]. by apply accounted_same. }
  intros (v0 & _ & E)%obind_Return.
  destruct (fixup_pg_tables _ r v nv) as [[[qs|e] mm1]| |] eqn:Ef; cbn [tbind] in E; try done.
  apply fixup_accounted in Ef; [|done..]. apply IH in E as (qs' & -> & A).
  exists (qs ++ qs'). split; [by rewrite app_assoc|]. eapply accounted_trans; [exact Ef|].
  unfold accounted, mm_frames in *. by rewrite keep_pieces_as in A.
Qed.

Lemma do_unmap_accounted mm r nv ps mm' : mm_wf mm -> aligned_region r ->
  do_unmap_region mm r nv = Return (Ok ps, mm') -> accounted mm ps mm'.
Proof.
  intros Hwf Hr E. unfold do_unmap_region in E.
  apply unmap_loop_accounted in E as (qs & -> & A); [done|done|].
  apply list.Forall_forall. intros v Hv. destruct (affected_spec mm r Hwf Hr) as [_ Ha].
  apply Ha in Hv as (Hin & _). by destruct (wf_entry _ Hwf _ _ Hin) as (_ & ? & _).
Qed.

(** What the three operations return to their callers. *)
Lemma munmap_accounted mm r ps mm' : mm_inv mm -> region_ok r ->
  start_address r + rsize r + PAGE_SIZE < 2 ^ 64 ->
  munmap mm r = Return (Ok ps, mm') -> accounted mm ps mm'.
Proof.
  intros Hinv Hr Hb. unfold munmap. destruct (region_is_page_aligned r) eqn:Ha; simpl; [|done].
  apply is_page_aligned_spec in Ha. bcase; [done|]. unfold region_ok in Hr.
  rewrite align_to_page_boundary_eq by (done || unfold PAGE_SIZE in *; lia). ostep.
  rewrite Ha, Z.sub_0_r. apply do_unmap_accounted; [apply Hinv|].
  apply munmap_range_aligned; try done. lia.
Qed.

Lemma mmap_replacing_accounted mm req len perms k nm addr ps mm' : mm_inv mm -> 0 <= len ->
  len + PAGE_SIZE < 2 ^ 64 -> request_ok req (len + PAGE_SIZE) -> kind_span k (len + PAGE_SIZE) ->
  mmap_replacing mm req len perms k nm = Return (Ok (addr, ps), mm') -> accounted mm ps mm'.
Proof.
  intros Hinv H0' Hl Hreq Hk E. unfold mmap_replacing in E.
  destruct (mmap_spec mm req len perms k nm true) as (res & mm1 & E1 & _ & M); [done..|].
  rewrite E in E1. apply Return_pair_inj in E1 as [<- <-]. destruct M as (_ & Hr & M).
  destruct M as (mm2 & E2 & As). specialize (As (or_introl eq_refl)). apply do_unmap_accounted in E2; [|apply Hinv|done].
  unfold accounted, mm_frames in *. by rewrite As.
Qed.

(** A mapping that may not overlap touches no page. *)
Lemma mmap_fixed_accounted mm address len perms k nm addr mm' : mm_inv mm -> 0 <= len ->
  len + PAGE_SIZE < 2 ^ 64 -> 0 <= address -> address + (len + PAGE_SIZE) < 2 ^ 64 ->
  kind_span k (len + PAGE_SIZE) ->
  mmap mm (Fixed address false) len perms k nm = Return (Ok addr, mm') -> accounted mm [] mm'.
Proof.
  intros Hinv H0' Hl Ha Hb Hk E. unfold mmap in E.
  destruct (mmap_spec mm (Fixed address false) len perms k nm false) as (res & mm1 & E1 & _ & M); [done..|].
  rewrite E1 in E. destruct res as [[ad ps]|e]; cbn [tbind] in E; [|done].
  apply Return_pair_inj in E as [_ <-]. destruct M as ((_ & [_ Hf] & _) & _ & mm2 & E2 & As).
  apply Return_pair_inj in E2 as [_ <-]. apply accounted_same. auto.
Qed.

Lemma mprotect_accounted mm r p res mm' : mm_inv mm -> aligned_region r ->
  mprotect mm r p = Return (res, mm') -> accounted mm [] mm'.
Proof.
  intros Hinv Hr E. destruct (mprotect_spec mm r p Hinv Hr) as (res1 & mm1 & E1 & _ & As & _).
  rewrite E in E1. apply Return_pair_inj in E1 as [_ <-]. unfold accounted, mm_frames.
  destruct As as [->| ->]; [done|]. by rewrite frames_protect_range.
Qed.
End Frames.

(** ** The page table of MemoryMapThms *)

(** Page numbers with their frames. *)
Definition pt_pairs (t : PageTable) : list (Z * Z) := prod_map id page_pfn <$> map_to_list t.

Lemma elem_of_pt_pairs (t : PageTable) k f : (k, f) ∈ pt_pairs t <-> page_pfn <$> t !! k = Some f.
Proof.
  unfold pt_pairs. rewrite list_elem_of_fmap. split.
  - intros ([k' i] & [= -> ->] & Hi%elem_of_map_to_list). by rewrite Hi.
  - intros (i & Hi & Ef)%fmap_Some. exists (k, i). split; [by rewrite Ef|]. by apply elem_of_map_to_list.
Qed.

Lemma NoDup_pt_pairs (t : PageTable) : NoDup (pt_pairs t).
Proof.
  apply (NoDup_fmap_1 fst). unfold pt_pairs. rewrite <- list_fmap_compose.
  rewrite (list_fmap_ext _ fst); [apply NoDup_fst_map_to_list|by intros i [k x]].
Qed.

(** Two lists of pages agree if they have the same pages, without duplicates. *)
Lemma same_frames (l l' : list (Z * Z)) : NoDup l -> NoDup l' ->
  (forall k f, (k, f) ∈ l <-> (k, f) ∈ l') -> l.*2 ≡ₚ l'.*2.
Proof. intros H1 H2 Hl. apply fmap_Permutation, NoDup_Permutation; [done|done|]. by intros [k f]. Qed.

Lemma frames_split (t : PageTable) r :
  (pt_pairs t).*2 ≡ₚ (pt_pairs (pt_select t r (pte_ro true))).*2 ++ (pt_pairs (pt_remove t r)).*2.
Proof.
  rewrite <- fmap_app. apply same_frames; [apply NoDup_pt_pairs| |].
  - apply NoDup_app. split; [apply NoDup_pt_pairs|]. split; [|apply NoDup_pt_pairs].
    intros [k f]. rewrite !elem_of_pt_pairs. unfold pt_select, pt_remove. rewrite !map_lookup_imap.
    destruct (t !! k); simpl; [|done]. by destruct (in_region r k).
  - intros k f. rewrite elem_of_app, !elem_of_pt_pairs. unfold pt_select, pt_remove.
    rewrite !map_lookup_imap. destruct (t !! k); simpl; [|naive_solver].
    destruct (in_region r k); simpl; naive_solver.
Qed.

Lemma NoDup_iter_pages r : region_ok r -> NoDup (iter_pages r).
Proof.
  intros Hr. unfold iter_pages. apply NoDup_fmap_2_strong; [|apply NoDup_seqZ].
  pose proof (Z.mul_div_le (rsize r) PAGE_SIZE ltac:(done)) as Hd.
  intros i j Hi%elem_of_seqZ Hj%elem_of_seqZ.
  rewrite Z.shiftr_div_pow2 in Hi, Hj by (unfold PAGE_SHIFT; lia).
  change (2 ^ PAGE_SHIFT) with PAGE_SIZE in *. unfold Address.add_pages, region_ok, PAGE_SIZE in *.
  rewrite !umul_small, !uadd_small by lia. lia.
Qed.

Lemma frames_select (t : PageTable) r : aligned_region r ->
  (pt_pairs (pt_select t r (pte_ro true))).*2 ≡ₚ omap (frame_at t) (iter_pages r).
Proof.
  intros Hr. pose proof Hr as (Rr & _ & Ar & Al).
  assert (Hpg : forall p, p ∈ iter_pages r <-> p = page_no p * PAGE_SIZE /\ p ∈ r).
  { intros p. rewrite iter_pages_elem_of by done. unfold page_no.
    apply Z.mod_divide in Ar as [q1 E1]; [|done]. apply Z.mod_divide in Al as [q2 E2]; [|done].
    rewrite E1, E2, Z.div_mul by done. unfold elem_of, region_elem_of. rewrite E1, E2.
    split; [intros (i & Hi & ->)|intros [E Hp]; exists (p / PAGE_SIZE - q1); unfold PAGE_SIZE in *; lia].
    replace (q1 * PAGE_SIZE + PAGE_SIZE * i) with ((q1 + i) * PAGE_SIZE) by lia.
    rewrite Z.div_mul by done. unfold PAGE_SIZE. lia. }
  set (f := fun va => if decide (va = page_no va * PAGE_SIZE) then (fun x => (page_no va, x)) <$> frame_at t va else None).
  assert (Hf : omap (frame_at t) (iter_pages r) = (omap f (iter_pages r)).*2).
  { rewrite list_fmap_omap. apply list_omap_ext, Forall_Forall2_diag, list.Forall_forall.
    intros p [Hp _]%Hpg. unfold f. rewrite decide_True by done. by destruct (frame_at t p). }
  rewrite Hf. apply same_frames; [apply NoDup_pt_pairs|apply NoDup_omap_inj; [by apply NoDup_iter_pages|]|].
  - intros x y z. unfold f. do 2 case_decide; try done.
    intros (? & _ & ->)%fmap_Some (? & _ & [= ? _])%fmap_Some. congruence.
  - intros k p. rewrite elem_of_pt_pairs, list_elem_of_omap. unfold pt_select, f.
    rewrite map_lookup_imap. unfold frame_at. cbn [as_translate PageTable_space].
    assert (Hk : page_no (k * PAGE_SIZE) = k) by (unfold page_no; by apply Z.div_mul).
    pose proof (in_region_page r (k * PAGE_SIZE) Hr) as Hreg. rewrite Hk in Hreg. split.
    + intros (i & Hi & ->)%fmap_Some. exists (k * PAGE_SIZE). destruct (t !! k) as [j|] eqn:Ej; [|done].
      simpl in Hi. rewrite Hreg in Hi. case_bool_decide as Hin; [|done]. simplify_eq.
      rewrite Hpg, Hk, Ej. split; [done|]. by rewrite decide_True.
    + intros (va & [E Hin]%Hpg & Hva). rewrite decide_True in Hva by done.
      apply fmap_Some in Hva as (x & (i & Hi & ->)%fmap_Some & [= -> ->]). rewrite Hi. simpl.
      rewrite Hreg, <- E, bool_decide_true by done. done.
Qed.

#[export] Instance PageTable_frame_laws : FrameLaws PageTable.
Proof.
  refine {| as_frames := fun t : PageTable => (pt_pairs t).*2 |}.
  - intros a r ps Hr [= <-]. cbn [as_unmap_range PageTable_space snd].
    assert (E : map (fun e => page_pfn e.2) (map_to_list (pt_select a r (pte_ro true))) =
      (pt_pairs (pt_select a r (pte_ro true))).*2)
      by (unfold pt_pairs; rewrite <- list_fmap_compose; done).
    rewrite E. split; [apply frames_split|by apply frames_select].
  - intros a r p _. cbn [as_protect_range PageTable_space snd]. apply same_frames; [apply NoDup_pt_pairs..|].
    intros k f. rewrite !elem_of_pt_pairs. unfold pt_protect. rewrite map_lookup_imap.
    destruct (a !! k); simpl; [|done]. by destruct (in_region r k).
  - intros a pfn va p _. cbn [as_map_page PageTable_space].
    destruct (a !! page_no va) eqn:E; [done|]. cbn [fst snd]. unfold pt_pairs.
    rewrite (map_to_list_insert a) by done. done.
  - intros a va i _ E. cbn [as_translate as_unmap PageTable_space] in *. rewrite E. cbn [snd].
    unfold pt_pairs. rewrite <- (map_to_list_delete a _ _ E) at 1. done.
  - intros a va pfn p i E. cbn [as_translate as_remap PageTable_space] in *. rewrite E. cbn [fst snd].
    split; [done|]. unfold pt_pairs. rewrite <- (map_to_list_delete a _ _ E) at 1.
    rewrite <- insert_delete_eq, map_to_list_insert by apply lookup_delete_eq.
    cbn. apply Permutation_swap.
Defined.
