(* ===== verification/ProcVm.v ===== *)
(** * The virtual memory of a process

    Models libkernel/src/memory/proc_vm/mod.rs and src/memory/brk.rs: the memory map
    together with the program break, the fault lookup and fork. *)
From Stdlib Require Import String.
From stdpp Require Import gmap.
From S2P Require Import Prelude BTree Error Address Region Vma.
From S2P Require Import MemoryMap MemoryMapInv MemoryMapOps MemoryMapThms.
Local Open Scope Z_scope.

Notation BRK_PERMISSIONS := perms_rw.

Section ProcVm.
Context {AS : Type} `{UserAddressSpace AS}.

Record ProcessVM := mkVM { vm_mm : MemoryMap AS; brk : MemoryRegion }.

Definition from_vma_and_address_space (vma : VMArea) (addr_spc : AS) : outcome ProcessVM :=
  let! mm := insert_and_merge (with_addr_spc addr_spc) vma in
  let! e := align_up (end_address (region vma)) PAGE_SIZE in
  Return (mkVM mm (mkRegion e 0)).

Definition from_map (map : MemoryMap AS) : outcome ProcessVM :=
  let! kv := unwrap (last (vmas map)) in
  let! e := align_up (end_address (region kv.2)) PAGE_SIZE in
  Return (mkVM map (mkRegion e 0)).

Definition find_vma_for_fault (vm : ProcessVM) (addr : Z) (access_type : AccessKind)
    : outcome (option VMArea) :=
  match find_vma (vm_mm vm) addr with
  | None => Return None
  | Some vma =>
      match validate_fault vma addr access_type with
      | Valid => Return (Some vma)
      | NotPresent => Panic
      | FaultPermissionDenied => Return None
      end
  end.

Definition start_brk (vm : ProcessVM) : Z := start_address (brk vm).
Definition current_brk (vm : ProcessVM) : Z := end_address (brk vm).

Definition set_mm (vm : ProcessVM) (mm : MemoryMap AS) : ProcessVM := mkVM mm (brk vm).
Definition set_brk (vm : ProcessVM) (r : MemoryRegion) : ProcessVM := mkVM (vm_mm vm) r.

(** A call of the memory map, with the updated map put back. *)
Definition on_mm {A : Type} (vm : ProcessVM) (o : outcome (result A * MemoryMap AS))
    : outcome (result A * ProcessVM) :=
  let! (r, mm) := o in Return (r, set_mm vm mm).

Definition resize_brk (vm : ProcessVM) (new_end_addr : Z) : outcome (result Z * ProcessVM) :=
  let brk_start := start_address (brk vm) in
  let current_end := end_address (brk vm) in
  if new_end_addr <? brk_start then Return (Err InvalidValue, vm)
  else
    let! new_end_addr_aligned := align_up new_end_addr PAGE_SIZE in
    let! new_brk_region := from_start_end_address brk_start new_end_addr_aligned in
    if new_end_addr_aligned =? current_end then Return (Ok new_end_addr, vm)
    else if new_end_addr_aligned >? current_end then
      let growth_size := usub new_end_addr_aligned current_end in
      let? (_a, vm) := on_mm vm (mmap (vm_mm vm) (Fixed current_end false) growth_size
                                   BRK_PERMISSIONS Anon "[heap]"%string) in
      Return (Ok new_end_addr, set_brk vm new_brk_region)
    else
      let! unmap_region := from_start_end_address new_end_addr_aligned current_end in
      let? (_p, vm) := on_mm vm (munmap (vm_mm vm) unmap_region) in
      Return (Ok new_end_addr, set_brk vm new_brk_region).

Definition vm_clone_as_cow (vm : ProcessVM) : outcome (result ProcessVM * ProcessVM) :=
  let? (mm, vm) := on_mm vm (mm_clone_as_cow (vm_mm vm)) in
  Return (Ok (mkVM mm (brk vm)), vm).

(** The [brk] system call. *)
Definition sys_brk (vm : ProcessVM) (addr : Z) : outcome (Z * ProcessVM) :=
  if addr =? 0 then Return (current_brk vm, vm)
  else
    let! (r, vm) := resize_brk vm addr in
    match r with
    | Ok new_brk => Return (new_brk, vm)
    | Err _ => Return (current_brk vm, vm)
    end.
End ProcVm.
Arguments ProcessVM : clear implicits.

(** * Correctness *)

Section ProcVmCorrect.
Context {AS : Type} `{UserAddressSpaceLaws AS}.
Implicit Types vm : ProcessVM AS.

(** What an access needs of an area. *)
Definition allows (p : VMAPermissions) (k : AccessKind) : bool :=
  match k with AccessRead => vread p | AccessWrite => vwrite p | AccessExecute => vexecute p end.

(** A fault is resolved to an area exactly when the address is mapped and the area
    permits the access; the lookup never reaches its [unreachable!]. *)
Theorem find_vma_for_fault_correct vm addr k : map_wf (vmas (vm_mm vm)) ->
  exists o, find_vma_for_fault vm addr k = Return o /\
    forall v, o = Some v <-> find_vma (vm_mm vm) addr = Some v /\ allows (permissions v) k = true.
Proof.
  intros Hwf. unfold find_vma_for_fault. destruct (find_vma _ addr) as [v|] eqn:E.
  2: { eexists. split; [done|]. intros v. split; [done|]. by intros [? _]. }
  rewrite find_vma_area in E. destruct (area_at_wf _ Hwf _ _ E) as (((Hr & _) & _) & Ha & _).
  unfold validate_fault.
  rewrite (proj2 (contains_address_spec _ _ Hr) Ha). simpl.
  change (match k with AccessRead => vread (permissions v) | AccessWrite => vwrite (permissions v)
    | AccessExecute => vexecute (permissions v) end) with (allows (permissions v) k).
  destruct (allows (permissions v) k) eqn:Ek; (eexists; split; [done|]); intros w; split.
  - by intros [= <-].
  - by intros [[= <-] _].
  - done.
  - intros [[= <-] ?]. congruence.
Qed.

(** ** The program break *)

(** The heap is page-aligned and mapped as anonymous memory, readable and writable. *)
Definition heap_at (mm : MemoryMap AS) (a : Z) : Prop :=
  exists v, find_vma mm a = Some v /\ permissions v = BRK_PERMISSIONS /\
    is_file_backed v = false /\ content v a = ZeroByte.

Record vm_inv vm : Prop := {
  vm_mm_inv : mm_inv (vm_mm vm);
  vm_brk_ok : region_ok (brk vm);
  vm_brk_start : start_address (brk vm) mod PAGE_SIZE = 0;
  vm_brk_size : rsize (brk vm) mod PAGE_SIZE = 0;
  vm_heap : forall a, a ∈ brk vm -> heap_at (vm_mm vm) a
}.

Lemma heap_same (mm mm' : MemoryMap AS) a : unchanged_at mm mm' a -> heap_at mm a -> heap_at mm' a.
Proof.
  intros [U _] (v & E & Hp & Hf & Hc). destruct (agree_Some _ _ _ _ U E) as (v' & E' & Pv & Cv).
  destruct (Cv Hf) as [Hf' Hc']. exists v'. split; [done|]. split; [congruence|]. split; congruence.
Qed.
Lemma brk_end_aligned vm : vm_inv vm ->
  (start_address (brk vm) + rsize (brk vm)) mod PAGE_SIZE = 0.
Proof. intros [_ _ E1 E2 _]. rewrite Z.add_mod, E1, E2 by done. done. Qed.

Lemma size_aligned s e : s mod PAGE_SIZE = 0 -> e mod PAGE_SIZE = 0 -> (e - s) mod PAGE_SIZE = 0.
Proof. intros H1 H2. by rewrite Zminus_mod, H1, H2. Qed.

(** The break after moving to [e]: the heap is where the break says, and only the
    addresses between the old and the new end have changed. *)
Definition brk_moved vm vm' (e : Z) : Prop :=
  brk vm' = mkRegion (start_address (brk vm)) (round_up e PAGE_SIZE - start_address (brk vm)) /\
  forall a, (a ∈ brk vm -> ~ a ∈ brk vm' -> find_vma (vm_mm vm') a = None) /\
            ((a ∈ brk vm <-> a ∈ brk vm') -> unchanged_at (vm_mm vm) (vm_mm vm') a).

Section Resize.
Context (vm : ProcessVM AS) (Hinv : vm_inv vm) (e : Z).
Context (He : start_address (brk vm) <= e) (Hmax : e + 2 * PAGE_SIZE < 2 ^ 64).
Context (Hend : start_address (brk vm) + rsize (brk vm) + PAGE_SIZE < 2 ^ 64).
Let s := start_address (brk vm).
Let cur := start_address (brk vm) + rsize (brk vm).
Let ne := round_up e PAGE_SIZE.

Lemma new_end_facts : e <= ne < e + PAGE_SIZE /\ ne mod PAGE_SIZE = 0 /\
  cur mod PAGE_SIZE = 0 /\ s mod PAGE_SIZE = 0 /\ 0 <= s <= cur.
Proof.
  pose proof (round_up_spec e PAGE_SIZE ltac:(done)). pose proof (brk_end_aligned vm Hinv).
  destruct Hinv as [_ Hr Hs _ _]. unfold region_ok in Hr. unfold s, cur, ne. intuition lia.
Qed.

Lemma grow_spec : cur < ne ->
  exists res mm', mmap (vm_mm vm) (Fixed cur false) (ne - cur) BRK_PERMISSIONS Anon "[heap]" = Return (res, mm') /\
    match res with
    | Ok _ => let vm' := mkVM mm' (mkRegion s (ne - s)) in vm_inv vm' /\ brk_moved vm vm' e
    | Err _ => mm' = vm_mm vm /\ exists a, cur <= a < ne /\ find_vma (vm_mm vm) a <> None
    end.
Proof.
  intros Hlt. pose proof new_end_facts as (Hne & An & Ac & As & Hs). pose proof Hinv as [Hmm Hr _ _ Hh].
  assert (An' : (ne - cur) mod PAGE_SIZE = 0) by (by apply size_aligned).
  destruct (mmap_spec (vm_mm vm) (Fixed cur false) (ne - cur) BRK_PERMISSIONS Anon "[heap]" false)
    as (res & mm' & E & I' & M); [done|lia|lia|simpl; lia|done|].
  unfold mmap. rewrite E. rewrite round_up_id in M by done.
  destruct res as [[addr ps]|err]; cbn [tbind].
  2: { eexists _, _. split; [done|]. destruct M as [-> [M|[M|(_ & a & Ha & M)]]]; [lia|done|].
       split; [done|]. exists a. split; [rsolve|done]. }
  destruct M as ((_ & [Ea Hfree] & U) & _). cbn [start_address] in Ea. rewrite Ea in U. eexists _, _. split; [done|]. cbv zeta.
  assert (Hreg : forall a, a ∈ mkRegion cur (ne - cur) <-> cur <= a < ne) by (intros; rsolve).
  assert (Hold : forall a, a ∈ brk vm <-> s <= a < cur) by (intros; unfold s, cur; rsolve).
  assert (Hnew : forall a, a ∈ mkRegion s (ne - s) <-> s <= a < ne) by (intros; rsolve).
  split.
  - split; cbn [vm_mm brk]; [done|unfold region_ok; simpl; lia|done|by apply size_aligned|].
    intros a Ha%Hnew. specialize (U a). case_decide as Hd; rewrite Hreg in Hd.
    + destruct U as [(v' & Ev & Hp & Hc) _]. destruct (Hc eq_refl). by exists v'.
    + eapply heap_same; [done|]. apply Hh, Hold. lia.
  - split; [done|]. cbn [vm_mm brk]. intros a. specialize (U a). rewrite Hold, Hnew.
    split; [lia|]. intros Heq. case_decide as Hd; rewrite Hreg in Hd; [lia|done].
Qed.

Lemma shrink_spec : ne < cur ->
  exists ps mm', munmap (vm_mm vm) (mkRegion ne (cur - ne)) = Return (Ok ps, mm') /\
    let vm' := mkVM mm' (mkRegion s (ne - s)) in vm_inv vm' /\ brk_moved vm vm' e.
Proof.
  intros Hlt. pose proof new_end_facts as (Hne & An & Ac & As & Hs). pose proof Hinv as [Hmm Hr _ _ Hh].
  destruct (munmap_spec (vm_mm vm) (mkRegion ne (cur - ne)))
    as (res & mm' & E & I' & M); [done|unfold region_ok, s in *; simpl; lia|simpl; lia|].
  destruct res as [ps|err]; [|simpl in M; destruct M as (_ & _ & [M|M]); [done|lia]].
  exists ps, mm'. split; [done|]. cbv zeta. unfold munmap_range in M. cbn [start_address rsize] in M.
  replace (ne + (cur - ne)) with cur in M by lia. rewrite round_up_id in M by done.
  assert (Hreg : forall a, a ∈ mkRegion ne (cur - ne) <-> ne <= a < cur) by (intros; rsolve).
  assert (Hold : forall a, a ∈ brk vm <-> s <= a < cur) by (intros; unfold s, cur; rsolve).
  assert (Hnew : forall a, a ∈ mkRegion s (ne - s) <-> s <= a < ne) by (intros; rsolve).
  split.
  - split; cbn [vm_mm brk]; [done|unfold region_ok, s in *; simpl; lia|done|by apply size_aligned|].
    intros a Ha%Hnew. specialize (M a). case_decide as Hd; rewrite Hreg in Hd; [lia|].
    eapply heap_same; [done|]. apply Hh, Hold. lia.
  - split; [done|]. cbn [vm_mm brk]. intros a. specialize (M a). rewrite Hold, Hnew.
    case_decide as Hd; rewrite Hreg in Hd; [split; [|lia]; by intros; apply M|]. split; [lia|done].
Qed.
End Resize.

(** The end of the break before the call, and why a request is refused. *)
Definition brk_refused vm (e : Z) : Prop :=
  e < start_brk vm \/
  exists a, current_brk vm <= a < round_up e PAGE_SIZE /\ find_vma (vm_mm vm) a <> None.

Lemma resize_brk_spec vm e : vm_inv vm -> 0 <= e -> e + 2 * PAGE_SIZE < 2 ^ 64 ->
  current_brk vm + PAGE_SIZE < 2 ^ 64 ->
  exists res vm', resize_brk vm e = Return (res, vm') /\ vm_inv vm' /\
    match res with
    | Ok x => x = e /\ brk_moved vm vm' e
    | Err _ => vm' = vm /\ brk_refused vm e
    end.
Proof.
  intros Hinv H0' Hmax Hend. pose proof Hinv as [_ Hr _ _ _]. unfold brk_refused, start_brk, current_brk in *.
  unfold resize_brk. rewrite end_address_eq in * by done.
  destruct (Z.ltb_spec e (start_address (brk vm))) as [Hlt|Hge].
  { eexists _, _. split; [done|]. split; [done|]. auto. }
  pose proof (new_end_facts vm Hinv e) as (Hne & An & Ac & As & Hs).
  rewrite align_up_page by lia. ostep. rewrite from_start_end_address_eq by lia. ostep.
  set (cur := start_address (brk vm) + rsize (brk vm)) in *. set (ne := round_up e PAGE_SIZE) in *.
  destruct (Z.eqb_spec ne cur) as [Eq|Hneq].
  { eexists _, _. split; [done|]. split; [done|]. split; [done|]. split.
    - fold ne. rewrite Eq. unfold cur. destruct (brk vm) as [s z]. simpl. f_equal. lia.
    - intros a. split; [done|]. intros _. apply unchanged_refl. }
  rewrite Z.gtb_ltb. destruct (Z.ltb_spec cur ne) as [Hlt|Hge'].
  - rewrite usub_small by lia.
    destruct (grow_spec vm Hinv e) as (res & mm' & E & M); [done..|].
    unfold on_mm. fold cur ne in E. rewrite E. ostep. destruct res as [addr|err]; cbn [tbind].
    + eexists _, _. split; [done|]. cbv zeta in M. destruct M as [I' B']. split; [exact I'|].
      split; [done|]. exact B'.
    + destruct M as [-> M]. eexists _, _. split; [done|]. destruct vm as [m b]. split; [done|]. auto.
  - rewrite from_start_end_address_eq by lia. ostep.
    destruct (shrink_spec vm Hinv e) as (ps & mm' & E & I' & B'); [done|done|fold cur ne; lia|].
    unfold on_mm. fold cur ne in E. rewrite E. ostep. cbn [tbind].
    eexists _, _. split; [done|]. split; [exact I'|]. split; [done|]. exact B'.
Qed.

(** [resize_brk] moves the program break: on success the heap reaches up to the
    requested address rounded up to a page, is mapped readable and writable over its
    whole length, keeps its contents where it was before, is unmapped where it was
    given up, and nothing outside the break changes.  It fails, without effect, only
    below the start of the break or if another mapping is in the way. *)
Theorem resize_brk_correct vm e : vm_inv vm -> 0 <= e -> e + 2 * PAGE_SIZE < 2 ^ 64 ->
  current_brk vm + PAGE_SIZE < 2 ^ 64 ->
  exists res vm', resize_brk vm e = Return (res, vm') /\ vm_inv vm' /\
    match res with
    | Ok x => x = e /\ brk_moved vm vm' e
    | Err _ => vm' = vm /\ brk_refused vm e
    end.
Proof. apply resize_brk_spec. Qed.

End ProcVmCorrect.

(** ** A concrete process *)

(** A process with one page of code and a heap of one page. *)
Definition demo_vm : ProcessVM PageTable :=
  mkVM (mkMM [demo_area 4096 4096 Anon perms_rx; demo_area 8192 4096 Anon perms_rw] ∅)
       (mkRegion 8192 4096).

Lemma demo_vm_wf : map_wf (vmas (vm_mm demo_vm)).
Proof. solve_demo_wf. Qed.

Lemma demo_vm_inv : vm_inv demo_vm.
Proof.
  split; [split; [apply demo_vm_wf|done]|unfold region_ok; simpl; lia|done|done|].
  intros a Ha. exists (vma_new (mkRegion 8192 4096) Anon perms_rw). split; [|done].
  apply area_at_Some; [apply demo_vm_wf|]. exists 8192. split; [by right; left|done].
Qed.

Lemma find_vma_for_fault_correct_witness :
  exists o, find_vma_for_fault demo_vm 9000 AccessWrite = Return o /\ o <> None.
Proof.
  destruct (find_vma_for_fault_correct demo_vm 9000 AccessWrite demo_vm_wf) as (o & E & Ho).
  exists o. split; [exact E|].
  rewrite (proj2 (Ho (vma_new (mkRegion 8192 4096) Anon perms_rw))); [discriminate|].
  split; reflexivity.
Defined.

Lemma resize_brk_correct_witness :
  exists res vm', resize_brk demo_vm 13000 = Return (res, vm') /\ vm_inv vm' /\ res = Ok 13000.
Proof.
  destruct (resize_brk_correct demo_vm 13000 demo_vm_inv) as (res & vm' & E & I & _);
    [lia|unfold PAGE_SIZE; lia|unfold current_brk, PAGE_SIZE; vm_compute; reflexivity|].
  exists res, vm'. split; [exact E|]. split; [exact I|]. assert (E' := E). vm_compute in E'. congruence.
Defined.

