(* ===== verification/MemoryFork.v ===== *)
(** * Fork: sharing pages copy-on-write

    [clone_as_cow] of MemoryMap and ProcVm: after a fork both processes map the same
    frames, and a frame of a private area is writable in neither. *)
From stdpp Require Import gmap.
From S2P Require Import Prelude BTree Error Address Region Vma.
From S2P Require Import MemoryMap MemoryMapInv MemoryMapOps MemoryMapThms ProcVm.
Local Open Scope Z_scope.

(** What the trait documents of [new] and [protect_and_clone_region]: a new address
    space is empty; cloning a range gives every mapped page of it the new permissions
    in both address spaces, backed by the same frame, and touches no other page. *)
Class CloneLaws (AS : Type) `{UserAddressSpace AS} : Prop := {
  new_translate : forall a va, as_new = Ok a -> as_translate a va = None;
  clone_translate : forall a r o p a' o' va, aligned_region r ->
    as_protect_and_clone_region a r o p = (Ok tt, (a', o')) ->
    let upd := fun i => mkPageInfo (page_pfn i) p in
    as_translate a' va = (if decide (va ∈ r) then upd <$> as_translate a va else as_translate a va) /\
    as_translate o' va =
      match (if decide (va ∈ r) then as_translate a va else None) with
      | Some i => Some (upd i)
      | None => as_translate o va
      end
}.

Section Fork.
Context {AS : Type} `{UserAddressSpaceLaws AS} `{!CloneLaws AS}.
Implicit Types mm : MemoryMap AS.

Lemma aligned_boundary r : aligned_region r -> align_to_page_boundary r = Return r.
Proof.
  intros Hr. pose proof (region_end_aligned r Hr) as He. destruct Hr as (Rr & _ & Ar & _).
  assert (Hb : start_address r + rsize r + (PAGE_SIZE - 1) < 2 ^ 64).
  { unfold region_ok in Rr. apply Z.mod_divide in He as [q Eq]; [|done]. rewrite Eq in *.
    unfold PAGE_SIZE in *. lia. }
  rewrite align_to_page_boundary_eq by done. rewrite round_up_id, Ar by done.
  destruct r as [s n]. simpl. f_equal. f_equal; lia.
Qed.

(** The areas of [vs] do not share addresses. *)
Definition separate (v w : VMArea) : Prop := forall a, a ∈ region v -> ~ a ∈ region w.

Lemma clone_areas_spec vs : Forall area_wf vs -> StronglySorted separate vs ->
  forall a o, exists res a' o', clone_areas a o vs = Return (res, (a', o')) /\
    (res = Ok tt -> forall va,
      (forall v, v ∈ vs -> va ∈ region v ->
        let upd := fun i => mkPageInfo (page_pfn i) (cow_perms v) in
        as_translate a' va = upd <$> as_translate a va /\
        as_translate o' va = match as_translate a va with
                             | Some i => Some (upd i) | None => as_translate o va end) /\
      ((forall v, v ∈ vs -> ~ va ∈ region v) ->
        as_translate a' va = as_translate a va /\ as_translate o' va = as_translate o va)).
Proof.
  induction vs as [|v vs IH]; intros Hwf Hs a o; cbn [clone_areas].
  { eexists _, _, _. split; [done|]. intros _ va. split; [|done]. by intros w Hw%not_elem_of_nil. }
  apply Forall_cons in Hwf as [Hv Hwf]. apply SSorted_cons_iff in Hs as [Hs Hsep].
  rewrite aligned_boundary by apply Hv. ostep.
  destruct (as_protect_and_clone_region a (region v) o (cow_perms v)) as [[[]|e] [a1 o1]] eqn:E.
  2: { eexists _, _, _. by split. }
  destruct (IH Hwf Hs a1 o1) as (res & a' & o' & -> & Hspec). eexists _, _, _. split; [done|].
  intros Hres va. destruct (Hspec Hres va) as [Hin Hout].
  destruct (clone_translate _ _ _ _ _ _ va (proj1 Hv) E) as [T1 T2]. cbv zeta in T1, T2. split.
  - intros w [->|Hw]%elem_of_cons Ha.
    + rewrite decide_True in T1, T2 by done. destruct Hout as [-> ->]; [|done].
      intros w Hw. by apply (Hsep w Hw).
    + destruct (Hin w Hw Ha) as [-> ->]. rewrite decide_False in T1, T2
        by (intros Hva; by apply (Hsep w Hw va)). by rewrite T1, T2.
  - intros Hno. destruct Hout as [-> ->]; [intros w Hw; apply Hno; by right|].
    rewrite decide_False in T1, T2 by (apply Hno; by left). done.
Qed.

Lemma cow_perms_le v : le_perms (cow_perms v) (permissions v).
Proof.
  unfold cow_perms, le_perms. destruct (_ && _) eqn:E; simpl; [|done].
  apply andb_true_iff in E as [_ E]. done.
Qed.

Lemma areas_separate mm : mm_wf mm -> Forall area_wf (iter_vmas mm) /\
  StronglySorted separate (iter_vmas mm).
Proof.
  intros Hwf. unfold iter_vmas. split.
  - apply list.Forall_forall. intros v ([k w] & -> & Hin)%list_elem_of_fmap. by apply (wf_entry _ Hwf _ _ Hin).
  - assert (Hd : forall e e', e ∈ vmas mm -> e' ∈ vmas mm -> e.1 < e'.1 -> separate e.2 e'.2).
    { intros [k v] [k' v'] H1 H2 Hlt a Ha Ha'. simpl in *.
      destruct (wf_share _ Hwf _ _ _ _ a H1 H2 Ha Ha') as [-> _]. lia. }
    pose proof (wf_sorted _ Hwf) as Hs. unfold sorted in Hs. revert Hs Hd.
    generalize (vmas mm) as m. induction m as [|e m IH]; [constructor|].
    intros [Hs Hlt]%SSorted_cons_iff Hd. apply SSorted_cons_iff. split.
    + apply IH; [done|]. intros. apply Hd; [by right..|done].
    + intros w (e' & -> & He')%list_elem_of_fmap. apply Hd; [by left|by right|by apply Hlt].
Qed.

(** The two address spaces after a fork, page by page. *)
Definition cow_shared mm (parent child : MemoryMap AS) : Prop :=
  forall va,
    match as_translate (address_space mm) va with
    | None => as_translate (address_space parent) va = None /\
              as_translate (address_space child) va = None
    | Some i => exists v, find_vma mm va = Some v /\
        as_translate (address_space parent) va = Some (mkPageInfo (page_pfn i) (cow_perms v)) /\
        as_translate (address_space child) va = Some (mkPageInfo (page_pfn i) (cow_perms v)) /\
        (pte_write (cow_perms v) = true -> is_shared v = true)
    end.

Lemma cow_shared_inv mm parent child : mm_inv mm -> vmas parent = vmas mm -> vmas child = vmas mm ->
  cow_shared mm parent child -> mm_inv parent /\ mm_inv child.
Proof.
  intros [Hwf Ht] Ep Ec Hcow. unfold mm_inv, mm_wf, tables_ok. rewrite Ep, Ec.
  split; (split; [done|]); intros va j Hj; specialize (Hcow va);
    (destruct (as_translate (address_space mm) va) as [i|]; [|destruct Hcow; congruence]);
    destruct Hcow as (v & Ev & E1 & E2 & _); exists v; (split; [done|]);
    [rewrite E1 in Hj|rewrite E2 in Hj]; injection Hj as <-; apply cow_perms_le.
Qed.

(** C29: fork is copy-on-write: parent and child have the same areas, every page that
    was mapped is mapped in both to the same frame with the same permissions, and only
    pages of shared areas stay writable.  A failed fork leaves the areas of the
    parent alone. *)
Theorem clone_as_cow_correct mm : mm_inv mm ->
  exists res parent, mm_clone_as_cow mm = Return (res, parent) /\ vmas parent = vmas mm /\
    match res with
    | Ok child => vmas child = vmas mm /\ mm_inv parent /\ mm_inv child /\ cow_shared mm parent child
    | Err _ => True
    end.
Proof.
  intros Hinv. pose proof Hinv as [Hwf Ht]. unfold mm_clone_as_cow.
  destruct as_new as [o|e] eqn:En; [|by eexists _, _].
  destruct (areas_separate mm Hwf) as [Hall Hsep].
  destruct (clone_areas_spec _ Hall Hsep (address_space mm) o) as (res & a' & o' & E & Hspec).
  unfold iter_vmas in E. rewrite E. ostep. destruct res as [[]|e]; [|by eexists _, _].
  eexists _, _. split; [done|]. split; [done|]. split; [done|].
  assert (Hcow : cow_shared mm (set_as mm a') (mkMM (vmas mm) o')).
  { intros va. destruct (Hspec eq_refl va) as [Hin Hout]. cbn [address_space set_as].
    destruct (as_translate (address_space mm) va) as [i|] eqn:Ei.
    - destruct (Ht va i Ei) as (v & Ev & _). exists v. split; [done|].
      apply (area_at_Some _ Hwf) in Ev as (k & Hk & Ha).
      destruct (Hin v) as [-> ->]; [apply list_elem_of_fmap; by exists (k, v)|done|].
      do 2 (split; [done|]). unfold cow_perms. destruct (is_shared v); [done|]. simpl.
      destruct (vwrite (permissions v)) eqn:Ew; simpl; congruence.
    - destruct (decide (Exists (fun v => va ∈ region v) (iter_vmas mm))) as [Hx|Hx].
      + apply list.Exists_exists in Hx as (v & Hv & Ha). destruct (Hin v Hv Ha) as [-> ->].
        split; [done|]. by apply new_translate.
      + destruct Hout as [-> ->]; [|split; [done|by apply new_translate]].
        intros v Hv Ha. apply Hx, list.Exists_exists. by exists v. }
  destruct (cow_shared_inv mm (set_as mm a') (mkMM (vmas mm) o') Hinv eq_refl eq_refl Hcow) as [? ?]. done.
Qed.
End Fork.

(** ** The page table of MemoryMapThms satisfies the laws *)

#[export] Instance PageTable_clone_laws : CloneLaws PageTable.
Proof.
  split.
  - intros a va [= <-]. apply lookup_empty.
  - intros a r o p a' o' va Hr [= <- <-]. cbv zeta. split; [by apply pt_protect_translate|].
    cbn [as_translate PageTable_space]. unfold pt_select.
    rewrite lookup_union, map_lookup_imap, in_region_page by done.
    case_bool_decide; case_decide; try done; destruct (a !! page_no va); simpl; try done;
      by destruct (o !! page_no va).
Qed.

(** The mapped page of a private writable area is shared read-only. *)
Lemma clone_as_cow_correct_witness : exists parent child,
  mm_clone_as_cow demo_map = Return (Ok child, parent) /\
  as_translate (address_space child) 9000 = Some (mkPageInfo 77 (into_cow (pte_rw true))) /\
  cow_shared demo_map parent child.
Proof.
  destruct (clone_as_cow_correct demo_map demo_inv) as (res & parent & E & _ & M).
  destruct res as [child|e].
  - exists parent, child. split; [exact E|]. split; [|apply M].
    destruct M as (_ & _ & _ & Hc). specialize (Hc 9000). vm_compute in Hc.
    destruct Hc as (v & Ev & _ & Ec & _). injection Ev as <-. exact Ec.
  - exfalso. assert (E' := E). vm_compute in E'. discriminate E'.
Defined.

(** ** mprotect after a fork *)

(** [mprotect] gives every page the permissions of the area, also the pages that are
    shared copy-on-write: here the parent makes its own area writable again, and then
    writes to the frame that the child still maps. *)
Theorem mprotect_breaks_cow : exists parent child parent',
  mm_clone_as_cow demo_map = Return (Ok child, parent) /\
  mprotect parent (mkRegion 4096 12288) perms_rw = Return (Ok tt, parent') /\
  as_translate (address_space child) 8192 = Some (mkPageInfo 77 (into_cow (pte_rw true))) /\
  as_translate (address_space parent') 8192 = Some (mkPageInfo 77 (pte_rw true)).
Proof.
  eexists _, _, _. split; [vm_compute; reflexivity|]. split; [vm_compute; reflexivity|].
  split; vm_compute; reflexivity.
Qed.
