(* ===== verification/MemoryRemap.v ===== *)
(** * mremap

    Correctness of [mremap] of MemoryMap: growing and shrinking in place, and moving a
    mapping together with its pages. *)
From Stdlib Require Import String.
From stdpp Require Import gmap.
From S2P Require Import Prelude BTree Error Address Region Vma.
From S2P Require Import MemoryMap MemoryMapInv MemoryMapOps MemoryMapThms MemoryFrames.
Local Open Scope Z_scope.

(** What the trait documents of single pages: [map_page] maps one page or fails without
    effect, [unmap] takes one page out, translation is by page. *)
Class MapPageLaws (AS : Type) `{UserAddressSpace AS} : Prop := {
  translate_page : forall a va, as_translate a va = as_translate a (page_of va);
  map_page_translate : forall a pfn va p va', va mod PAGE_SIZE = 0 ->
    as_translate (as_map_page a pfn va p).2 va' =
    match (as_map_page a pfn va p).1 with
    | Ok _ => if decide (page_of va' = va) then Some (mkPageInfo pfn p) else as_translate a va'
    | Err _ => as_translate a va'
    end;
  unmap_translate : forall a va va', va mod PAGE_SIZE = 0 ->
    as_translate (as_unmap a va).2 va' =
    if decide (page_of va' = va) then None else as_translate a va'
}.

Section Remap.
Context {AS : Type} `{UserAddressSpaceLaws AS} `{!MapPageLaws AS} `{!FrameLaws AS}.
Implicit Types mm : MemoryMap AS.

(** ** Inserting several areas *)

Fixpoint merge_list mm (ps : list VMArea) : outcome (MemoryMap AS) :=
  match ps with
  | [] => Return mm
  | p :: ps' => let! mm := merge_vma mm p in merge_list mm ps'
  end.

Lemma merge_list_app mm ps qs :
  merge_list mm (ps ++ qs) = let! mm := merge_list mm ps in merge_list mm qs.
Proof.
  revert mm. induction ps as [|p ps IH]; intros mm; simpl; [done|].
  destruct (merge_vma mm p); simpl; [apply IH|done|done].
Qed.

Definition separate_areas (v w : VMArea) : Prop := forall a, a ∈ region v -> ~ a ∈ region w.

Lemma merge_list_spec ps : forall mm, mm_wf mm -> Forall area_wf ps ->
  Forall (fun p => fresh (vmas mm) (region p)) ps -> StronglySorted separate_areas ps ->
  exists mm', merge_list mm ps = Return mm' /\ address_space mm' = address_space mm /\ mm_wf mm' /\
    forall a, (forall p, p ∈ ps -> a ∈ region p ->
                 exists v', area_at (vmas mm') a = Some v' /\ same_at p v' a) /\
              ((forall p, p ∈ ps -> ~ a ∈ region p) -> agree (vmas mm) (vmas mm') a).
Proof.
  induction ps as [|p ps IH]; intros mm Hwf Hps Hfr Hsep; simpl.
  { exists mm. do 3 (split; [done|]). intros a. split; [by intros p Hp%not_elem_of_nil|].
    intros _. apply agree_refl. }
  apply Forall_cons in Hps as [Hp Hps]. apply Forall_cons in Hfr as [Fp Hfr].
  apply SSorted_cons_iff in Hsep as [Hsep Hlt].
  destruct (merge_vma_spec mm p Hwf Hp Fp) as (mm1 & E & As1 & W1 & A1). rewrite E. ostep.
  assert (Hat : forall a, if decide (a ∈ region p)
      then exists v', area_at (vmas mm1) a = Some v' /\ same_at p v' a
      else agree (vmas mm) (vmas mm1) a).
  { intros a. specialize (A1 a). pose proof (insert_area_at _ Hwf p Hp Fp a) as Ei.
    case_decide; [by apply (agree_Some _ _ _ _ A1)|]. unfold agree in *. by rewrite Ei in A1. }
  rewrite list.Forall_forall in Hps, Hfr.
  destruct (IH mm1 W1) as (mm' & E' & As' & W' & U'); [by apply list.Forall_forall| |done|].
  { apply list.Forall_forall. intros q Hq. destruct (Hps q Hq) as ((_ & Sq & _) & _).
    apply fresh_spec; [done..|]. intros a Ha. specialize (Hat a).
    rewrite decide_False in Hat by (intros Hap; by apply (Hlt q Hq a)).
    apply (agree_None _ _ _ Hat). by apply (proj1 (fresh_spec _ _ Hwf Sq) (Hfr q Hq)). }
  exists mm'. split; [done|]. split; [congruence|]. split; [done|].
  intros a. specialize (Hat a). destruct (U' a) as [Hin Hout]. split.
  - intros q [->|Hq]%elem_of_cons Ha; [|by apply Hin]. rewrite decide_True in Hat by done.
    destruct Hat as (v1 & F1 & S1).
    destruct (agree_Some (vmas mm1) (vmas mm') a v1) as (v' & F' & S'); [|done|].
    { apply Hout. intros q Hq. by apply (Hlt q Hq). }
    exists v'. split; [done|]. by eapply same_at_trans.
  - intros Hno. rewrite decide_False in Hat by (apply Hno; by left).
    eapply agree_trans; [done|]. apply Hout. intros q Hq. apply Hno. by right.
Qed.

(** [merge_piece] as such a list. *)
Definition gap (s e : Z) : list MemoryRegion := if s <? e then [mkRegion s (e - s)] else [].

Lemma merge_piece_eq mm v s e : 0 <= s -> e < 2 ^ 64 ->
  merge_piece mm v s e = merge_list mm (map (shrink_to v) (gap s e)).
Proof.
  intros Hs He. unfold merge_piece, gap. destruct (Z.ltb_spec s e); [|done].
  rewrite from_start_end_address_eq by lia. ostep. simpl.
  by destruct (merge_vma mm _).
Qed.

Lemma elem_of_gap s e r : r ∈ gap s e <-> s < e /\ r = mkRegion s (e - s).
Proof.
  unfold gap. bcase; [rewrite list_elem_of_singleton; naive_solver|].
  split; [by intros ?%not_elem_of_nil|lia].
Qed.

(** The shrunken copies of [v] for the regions [rs]. *)
Lemma shrunken_ok v rs : area_wf v -> (forall r, r ∈ rs -> aligned_sub r (region v)) ->
  StronglySorted (fun r r' => start_address r + rsize r <= start_address r') rs ->
  Forall area_wf (map (shrink_to v) rs) /\ StronglySorted separate_areas (map (shrink_to v) rs).
Proof.
  intros Hv Hrs Hs. split.
  - apply list.Forall_forall. intros p (r & -> & Hr)%list_elem_of_fmap. by apply shrink_wf, Hrs.
  - clear Hrs. induction rs as [|r rs IH]; [constructor|]. apply SSorted_cons_iff in Hs as [Hs Hlt].
    apply SSorted_cons_iff. split; [auto|]. intros p (r' & -> & Hr')%list_elem_of_fmap a.
    rewrite !shrink_region. specialize (Hlt r' Hr'). rsolve.
Qed.

(** Take out [v] and insert [ps] in its place. *)
Lemma replace_area mm v ps : mm_wf mm -> (start_address (region v), v) ∈ vmas mm ->
  Forall area_wf ps -> StronglySorted separate_areas ps ->
  (forall p a, p ∈ ps -> a ∈ region p -> a ∈ region v \/ area_at (vmas mm) a = None) ->
  exists mm1 mm', remove_vma mm (start_address (region v)) = Return mm1 /\
    merge_list mm1 ps = Return mm' /\ address_space mm' = address_space mm /\ mm_wf mm' /\
    forall a, (forall p, p ∈ ps -> a ∈ region p ->
                 exists v', area_at (vmas mm') a = Some v' /\ same_at p v' a) /\
              ((forall p, p ∈ ps -> ~ a ∈ region p) ->
                 if decide (a ∈ region v) then area_at (vmas mm') a = None
                 else agree (vmas mm) (vmas mm') a).
Proof.
  intros Hwf Hin Hps Hsep Hfree. unfold remove_vma.
  rewrite (proj2 (bt_get_Some _ v _ (wf_sorted _ Hwf)) Hin). ostep.
  set (mm1 := set_vmas mm _). assert (W1 : mm_wf mm1) by (by apply remove_wf).
  assert (R1 : forall a, area_at (vmas mm1) a = if decide (a ∈ region v) then None else area_at (vmas mm) a)
    by (intros; by apply remove_area_at).
  destruct (merge_list_spec ps mm1 W1 Hps) as (mm' & E & As' & W' & U); [|done|].
  { rewrite list.Forall_forall in *. intros p Hp. destruct (Hps p Hp) as ((_ & Sp & _) & _).
    apply fresh_spec; [done..|]. intros a Ha. rewrite R1. case_decide; [done|].
    by destruct (Hfree p a Hp Ha). }
  exists mm1, mm'. do 4 (split; [done|]). intros a. destruct (U a) as [Ui Uo]. split; [done|].
  intros Hno. specialize (Uo Hno). specialize (R1 a). case_decide.
  - by apply (agree_None _ _ _ Uo).
  - unfold agree in *. by rewrite R1 in Uo.
Qed.
(** The areas after [v] was replaced by [ps]. *)
Definition replaced mm mm' (v : VMArea) (ps : list VMArea) : Prop :=
  forall a, (forall p, p ∈ ps -> a ∈ region p ->
               exists v', find_vma mm' a = Some v' /\ same_at p v' a) /\
            ((forall p, p ∈ ps -> ~ a ∈ region p) ->
               if decide (a ∈ region v) then find_vma mm' a = None else agree (vmas mm) (vmas mm') a).

(** Replacing [v] by [ps], with the page tables changed to [t] beforehand. *)
Lemma replace_inv mm t v ps : mm_inv mm -> (start_address (region v), v) ∈ vmas mm ->
  Forall area_wf ps -> StronglySorted separate_areas ps ->
  (forall p a, p ∈ ps -> a ∈ region p -> a ∈ region v \/ find_vma mm a = None) ->
  (forall va i, as_translate t va = Some i ->
     (exists p, p ∈ ps /\ va ∈ region p /\ le_perms (page_perms i) (permissions p)) \/
     (~ va ∈ region v /\ as_translate (address_space mm) va = Some i)) ->
  exists mm1 mm', remove_vma (set_as mm t) (start_address (region v)) = Return mm1 /\
    merge_list mm1 ps = Return mm' /\ address_space mm' = t /\ mm_inv mm' /\ replaced mm mm' v ps.
Proof.
  intros [Hwf Ht] Hin Hps Hsep Hfree Hpg.
  destruct (replace_area (set_as mm t) v ps) as (mm1 & mm' & E1 & E2 & As' & W' & U); [done..|].
  exists mm1, mm'. do 3 (split; [done|]). split; [|exact U]. split; [done|].
  intros va i. rewrite As'. cbn [address_space set_as]. intros Hi. destruct (U va) as [Ui Uo].
  destruct (Hpg va i Hi) as [(p & Hp & Ha & Hl)|[Hnv E]].
  { destruct (Ui p Hp Ha) as (v' & Ev & [Ep _]). exists v'. by rewrite Ep. }
  destruct (Ht va i E) as (w & Ew & Hl). rewrite decide_False in Uo by done.
  apply (covered_agree (vmas mm)); [|by exists w]. apply Uo. intros p Hp Ha.
  destruct (Hfree p va Hp Ha) as [?|Hn]; [done|]. rewrite find_vma_area in Hn. congruence.
Qed.

(** ** Moving pages *)

Lemma page_of_aligned p : p mod PAGE_SIZE = 0 -> page_of p = p.
Proof. unfold page_of. lia. Qed.

Lemma unmap_pages_translate l : Forall (fun p => p mod PAGE_SIZE = 0) l -> forall (a : AS) va,
  as_translate (foldl (fun a p => (as_unmap a p).2) a l) va =
  if decide (page_of va ∈ l) then None else as_translate a va.
Proof.
  induction l as [|p l IH]; intros Hl a va; simpl; [done|].
  apply Forall_cons in Hl as [Hp Hl]. rewrite IH by done. rewrite unmap_translate by done.
  pose proof (elem_of_cons l (page_of va) p). repeat case_decide; try done; tauto.
Qed.

Lemma frame_at_unmap (a : AS) p q : p mod PAGE_SIZE = 0 -> q mod PAGE_SIZE = 0 -> q <> p ->
  frame_at (as_unmap a p).2 q = frame_at a q.
Proof.
  intros Hp Hq Hne. unfold frame_at. rewrite unmap_translate by done.
  by rewrite (page_of_aligned q), decide_False.
Qed.

Lemma frame_at_map (a : AS) pfn p perms q : p mod PAGE_SIZE = 0 -> q mod PAGE_SIZE = 0 -> q <> p ->
  frame_at (as_map_page a pfn p perms).2 q = frame_at a q.
Proof.
  intros Hp Hq Hne. unfold frame_at. rewrite map_page_translate by done.
  rewrite (page_of_aligned q), decide_False by done. by destruct (as_map_page a pfn p perms).1.
Qed.

Lemma omap_frame_ext (a b : AS) (l : list Z) : (forall q, q ∈ l -> frame_at a q = frame_at b q) ->
  omap (frame_at a) l = omap (frame_at b) l.
Proof.
  induction l as [|q l IH]; intros Hl; [done|]. cbn. rewrite (Hl q) by (by left).
  rewrite IH by (intros; apply Hl; by right). done.
Qed.

Lemma unmap_pages_frames (l : list Z) : NoDup l -> Forall (fun p => p mod PAGE_SIZE = 0) l -> forall (a : AS),
  Forall (fun p => is_Some (as_translate a p)) l ->
  as_frames a ≡ₚ omap (frame_at a) l ++ as_frames (foldl (fun a p => (as_unmap a p).2) a l).
Proof.
  induction l as [|p l IH]; intros Hnd Hal a Hm; [done|]. apply NoDup_cons in Hnd as [Hp Hnd].
  apply Forall_cons in Hal as [Ap Hal]. apply Forall_cons in Hm as [[i Ei] Hm].
  assert (Hsame : forall q, q ∈ l -> frame_at (as_unmap a p).2 q = frame_at a q).
  { intros q Hq. rewrite list.Forall_forall in Hal. apply frame_at_unmap; [done|by apply Hal|].
    by intros ->. }
  cbn. unfold frame_at at 1. rewrite Ei. cbn. rewrite (frames_unmap a p i Ap Ei). constructor.
  rewrite (IH Hnd Hal (as_unmap a p).2); [by rewrite (omap_frame_ext _ _ _ Hsame)|].
  apply list.Forall_forall. intros q Hq. rewrite list.Forall_forall in Hm, Hal. specialize (Hsame q Hq).
  unfold frame_at in Hsame. destruct (Hm q Hq) as [j Ej]. rewrite Ej in Hsame.
  destruct (as_translate (as_unmap a p).2 q); [eauto|done].
Qed.

Section MovePages.
Context (o n : Z) (Ho : o mod PAGE_SIZE = 0) (Hn : n mod PAGE_SIZE = 0).

Definition move_pair (i : Z) : Z * Z := (o + PAGE_SIZE * i, n + PAGE_SIZE * i).

Lemma offset_aligned b i : b mod PAGE_SIZE = 0 -> (b + PAGE_SIZE * i) mod PAGE_SIZE = 0.
Proof. intros Hb. rewrite Z.mul_comm, Z.mod_add by done. done. Qed.

Lemma move_pages_spec l : NoDup l ->
  (forall i j, i ∈ l -> j ∈ l -> o + PAGE_SIZE * i <> n + PAGE_SIZE * j) ->
  forall (a : AS) newly, Forall (fun p => p mod PAGE_SIZE = 0) newly ->
  (forall i, i ∈ l -> as_translate a (n + PAGE_SIZE * i) = None) ->
  match move_pages a (map move_pair l) newly with
  | (Ok _, a') => forall va,
      (forall i, i ∈ l -> page_of va = n + PAGE_SIZE * i ->
         as_translate a' va = as_translate a (o + PAGE_SIZE * i)) /\
      ((forall i, i ∈ l -> page_of va <> n + PAGE_SIZE * i) -> as_translate a' va = as_translate a va)
  | (Err _, a') => forall va,
      as_translate a' va = if decide (page_of va ∈ newly) then None else as_translate a va
  end.
Proof.
  induction l as [|i l IH]; intros Hnd Hdis a newly Hal Hnone; simpl.
  { intros va. split; [by intros i Hi%not_elem_of_nil|done]. }
  apply NoDup_cons in Hnd as [Hni Hnd].
  assert (Hdis' : forall i j, i ∈ l -> j ∈ l -> o + PAGE_SIZE * i <> n + PAGE_SIZE * j)
    by (intros; apply Hdis; by right).
  pose proof (offset_aligned n i Hn) as An. pose proof (offset_aligned o i Ho) as Ao.
  assert (Htr : forall b va, page_of va = n + PAGE_SIZE * i ->
    as_translate b va = as_translate b (n + PAGE_SIZE * i)).
  { intros b va E. by rewrite (translate_page b va), E. }
  destruct (as_translate a (o + PAGE_SIZE * i)) as [info|] eqn:Ei.
  - pose proof (map_page_translate a (page_pfn info) (n + PAGE_SIZE * i) (page_perms info)) as Hmap.
    destruct (as_map_page a _ _ _) as [[u|err] a1]; cbn [fst snd] in Hmap.
    + specialize (IH Hnd Hdis' a1 (newly ++ [n + PAGE_SIZE * i])).
      assert (Hold : forall j, j ∈ l -> as_translate a1 (o + PAGE_SIZE * j) = as_translate a (o + PAGE_SIZE * j)).
      { intros j Hj. rewrite Hmap by done. rewrite page_of_aligned by (by apply offset_aligned).
        rewrite decide_False; [done|]. apply Hdis; [by right|by left]. }
      assert (Hneq : forall j, j ∈ l -> n + PAGE_SIZE * j <> n + PAGE_SIZE * i).
      { intros j Hj E. unfold PAGE_SIZE in E. assert (j = i) as -> by lia. done. }
      assert (Hnone' : forall j, j ∈ l -> as_translate a1 (n + PAGE_SIZE * j) = None).
      { intros j Hj. rewrite Hmap by done. rewrite page_of_aligned by (by apply offset_aligned).
        rewrite decide_False by (by apply Hneq). apply Hnone. by right. }
      specialize (IH ltac:(apply Forall_app; by split; [|constructor]) Hnone').
      destruct (move_pages a1 _ _) as [[u'|err] a'].
      * intros va. destruct (IH va) as [Hin Hout]. split.
        -- intros j [->|Hj]%elem_of_cons Ej; [|rewrite <- Hold by done; by apply Hin].
           rewrite Hout by (intros j Hj; rewrite Ej; by apply not_eq_sym, Hneq).
           rewrite Hmap, decide_True by done. rewrite Ei. by destruct info.
        -- intros Hno. rewrite Hout by (intros j Hj; apply Hno; by right).
           rewrite Hmap by done. rewrite decide_False; [done|]. apply Hno. by left.
      * intros va. rewrite IH, Hmap by done.
        pose proof (elem_of_app newly [n + PAGE_SIZE * i] (page_of va)) as X.
        rewrite list_elem_of_singleton in X.
        destruct (decide (page_of va = n + PAGE_SIZE * i)) as [E|].
        -- rewrite decide_True by tauto. case_decide; [done|]. rewrite (Htr a va E). symmetry.
           apply Hnone. by left.
        -- repeat case_decide; tauto || done.
    + intros va. rewrite unmap_pages_translate, Hmap by done. done.
  - specialize (IH Hnd Hdis' a newly Hal ltac:(intros; apply Hnone; by right)).
    destruct (move_pages a _ _) as [[u'|err] a']; [|done].
    intros va. destruct (IH va) as [Hin Hout]. split.
    + intros j [->|Hj]%elem_of_cons Ej; [|by apply Hin]. rewrite Ei.
      destruct (decide (Exists (fun j => page_of va = n + PAGE_SIZE * j) l)) as [Hx|Hx].
      * apply list.Exists_exists in Hx as (j & Hj & Ej'). assert (j = i) as -> by (unfold PAGE_SIZE in *; lia). done.
      * rewrite Hout; [rewrite (Htr a va Ej); apply Hnone; by left|].
        intros j Hj E. apply Hx, list.Exists_exists. by exists j.
    + intros Hno. apply Hout. intros j Hj. apply Hno. by right.
Qed.

(** Moving adds a reference for each page it maps; on failure the added ones are taken
    back. *)
Lemma move_pages_frames (l : list Z) : NoDup l ->
  (forall i j, i ∈ l -> j ∈ l -> o + PAGE_SIZE * i <> n + PAGE_SIZE * j) ->
  forall (a : AS) newly, NoDup newly -> Forall (fun p => p mod PAGE_SIZE = 0) newly ->
  Forall (fun p => is_Some (as_translate a p)) newly ->
  (forall i, i ∈ l -> as_translate a (n + PAGE_SIZE * i) = None) ->
  match move_pages a (map move_pair l) newly with
  | (Ok _, a') => as_frames a' ≡ₚ omap (frame_at a) (map (fun i => o + PAGE_SIZE * i) l) ++ as_frames a
  | (Err _, a') => as_frames a ≡ₚ omap (frame_at a) newly ++ as_frames a'
  end.
Proof.
  induction l as [|i l IH]; intros Hnd Hdis a newly Hnn Hal Hm Hnone.
  { simpl. done. }
  apply NoDup_cons in Hnd as [Hni Hnd].
  pose proof (offset_aligned n i Hn) as An. cbn [move_pages map move_pair omap list_omap].
  assert (Hdis' : forall i j, i ∈ l -> j ∈ l -> o + PAGE_SIZE * i <> n + PAGE_SIZE * j)
    by (intros; apply Hdis; by right).
  unfold frame_at at 1. destruct (as_translate a (o + PAGE_SIZE * i)) as [info|] eqn:Ei; cbn [fmap option_fmap option_map].
  2: { specialize (IH Hnd Hdis' a newly Hnn Hal Hm ltac:(intros; apply Hnone; by right)). done. }
  set (b := as_map_page a (page_pfn info) (n + PAGE_SIZE * i) (page_perms info)) in *.
  pose proof (frames_map_page a (page_pfn info) (n + PAGE_SIZE * i) (page_perms info) An) as Hf.
  pose proof (map_page_translate a (page_pfn info) (n + PAGE_SIZE * i) (page_perms info)) as Ht.
  pose proof (frame_at_map a (page_pfn info) (n + PAGE_SIZE * i) (page_perms info)) as Hx.
  assert (Hne : forall q, q ∈ newly -> q <> n + PAGE_SIZE * i).
  { intros q Hq ->. rewrite list.Forall_forall in Hm. destruct (Hm _ Hq) as [j Ej].
    rewrite Hnone in Ej by (by left). done. }
  assert (Hnew : omap (frame_at b.2) newly = omap (frame_at a) newly).
  { apply omap_frame_ext. intros q Hq. rewrite list.Forall_forall in Hal.
    apply Hx; [done|by apply Hal|by apply Hne]. }
  fold b in Hf, Ht, Hx. destruct b as [[u|err] a1]; cbn [fst snd] in *.
  2: { rewrite <- Hf, <- Hnew. apply unmap_pages_frames; [done|done|].
       rewrite list.Forall_forall in Hm |- *. intros q Hq. rewrite Ht by done. by apply Hm. }
  assert (Htr : forall q, q mod PAGE_SIZE = 0 -> q <> n + PAGE_SIZE * i -> as_translate a1 q = as_translate a q).
  { intros q Aq Hq. rewrite Ht by done. by rewrite (page_of_aligned q), decide_False. }
  specialize (IH Hnd Hdis' a1 (newly ++ [n + PAGE_SIZE * i])).
  rewrite !Forall_app, !Forall_singleton in IH.
  assert (Hself : as_translate a1 (n + PAGE_SIZE * i) = Some (mkPageInfo (page_pfn info) (page_perms info)))
    by (rewrite Ht by done; by rewrite page_of_aligned, decide_True).
  specialize (IH ltac:(apply NoDup_app; split; [done|]; split; [by intros q Hq ->%list_elem_of_singleton; eapply Hne|apply NoDup_singleton])).
  specialize (IH ltac:(done) ltac:(split; [|eauto]; rewrite list.Forall_forall in Hm, Hal |- *;
    intros q Hq; rewrite Htr by (auto); by apply Hm)).
  specialize (IH ltac:(intros j Hj; rewrite Htr by (by apply offset_aligned || (intros E'; unfold PAGE_SIZE in E';
    assert (j = i) as -> by lia; done)); apply Hnone; by right)).
  destruct (move_pages a1 _ _) as [[u'|err] a'].
  - rewrite IH, Hf. rewrite (omap_frame_ext a1 a); [symmetry; apply Permutation_middle|].
    intros q (j & -> & Hj)%list_elem_of_fmap. apply Hx; [done|by apply offset_aligned|].
    apply Hdis; [by right|by left].
  - rewrite omap_app, Hnew in IH. cbn [omap list_omap] in IH. unfold frame_at at 2 in IH.
    rewrite Hself in IH. cbn in IH. rewrite Hf in IH. apply (Permutation_cons_inv (a := page_pfn info)).
    rewrite IH. by rewrite <- app_assoc, Permutation_middle.
Qed.
End MovePages.

Lemma zip_iter_pages o n len : 0 <= o -> 0 <= n -> 0 <= len -> o + len < 2 ^ 64 -> n + len < 2 ^ 64 ->
  zip (iter_pages (mkRegion o len)) (iter_pages (mkRegion n len)) =
  map (move_pair o n) (seqZ 0 (len / PAGE_SIZE)).
Proof.
  intros Ho Hn Hl Hb1 Hb2. unfold iter_pages. cbn [start_address rsize].
  rewrite Z.shiftr_div_pow2 by (unfold PAGE_SHIFT; lia). change (2 ^ PAGE_SHIFT) with PAGE_SIZE.
  pose proof (Z.mul_div_le len PAGE_SIZE ltac:(done)) as Hd.
  assert (Hall : Forall (fun i => 0 <= i < len / PAGE_SIZE) (seqZ 0 (len / PAGE_SIZE)))
    by (apply list.Forall_forall; intros i Hi%elem_of_seqZ; lia).
  revert Hall. generalize (seqZ 0 (len / PAGE_SIZE)) as l. unfold PAGE_SIZE in *.
  induction l as [|i l IH]; intros Hall; [done|]. apply Forall_cons in Hall as [Hi Hall]. simpl.
  rewrite IH by done. f_equal. unfold move_pair, Address.add_pages, PAGE_SIZE.
  rewrite umul_small, !uadd_small by lia. done.
Qed.

(** Moving the pages of one region to another one in which no page is mapped. *)
Lemma move_region_spec (a : AS) o n len : aligned_region (mkRegion o len) -> aligned_region (mkRegion n len) ->
  (forall x, x ∈ mkRegion o len -> ~ x ∈ mkRegion n len) ->
  (forall x, x ∈ mkRegion n len -> as_translate a x = None) ->
  match move_pages a (zip (iter_pages (mkRegion o len)) (iter_pages (mkRegion n len))) [] with
  | (Ok _, a') => forall va, as_translate a' va =
      if decide (va ∈ mkRegion n len) then as_translate a (va - n + o) else as_translate a va
  | (Err _, a') => forall va, as_translate a' va = as_translate a va
  end.
Proof.
  intros (Ro & Sl & Ao & Al) (Rn & _ & An & _) Hdis Hnone. unfold region_ok in *.
  cbn [start_address rsize] in *. rewrite zip_iter_pages by lia.
  set (c := len / PAGE_SIZE). assert (Hc : len = PAGE_SIZE * c) by (apply Z.div_exact; done).
  assert (HP : PAGE_SIZE = 4096) by done.
  pose proof (move_pages_spec o n Ao An (seqZ 0 c) (NoDup_seqZ 0 c)) as Hm.
  assert (Hidx : forall i, i ∈ seqZ 0 c <-> 0 <= i < c) by (intros; rewrite elem_of_seqZ; lia).
  specialize (Hm ltac:(intros i j Hi%Hidx Hj%Hidx E; apply (Hdis (o + PAGE_SIZE * i)); rsolve)
    a [] ltac:(constructor) ltac:(intros i Hi%Hidx; apply Hnone; rsolve)).
  destruct (move_pages _ _ _) as [[u|err] a'].
  - intros va. destruct (Hm va) as [Hin Hout]. pose proof (Z.div_mod (va - n) PAGE_SIZE ltac:(done)) as Hd.
    pose proof (Z.mod_pos_bound (va - n) PAGE_SIZE ltac:(done)) as Hb.
    set (i := (va - n) / PAGE_SIZE) in *.
    assert (Hmod : va mod PAGE_SIZE = (va - n) mod PAGE_SIZE)
      by (rewrite Zminus_mod, An, Z.sub_0_r, Z.mod_mod by done; done).
    assert (Hp : page_of va = n + PAGE_SIZE * i) by (unfold page_of; lia).
    case_decide as Hva.
    + rewrite (Hin i); [|apply Hidx; rsolve|done].
      rewrite (translate_page a (va - n + o)). f_equal. unfold page_of.
      rewrite Z.add_mod, Ao, Z.add_0_r, Z.mod_mod by done. lia.
    + apply Hout. intros j Hj%Hidx Ej. apply Hva. rsolve.
  - intros va. rewrite Hm. rewrite decide_False; [done|]. apply not_elem_of_nil.
Qed.

(** The references added are those of the pages at the old place. *)
Lemma move_region_frames (a : AS) o n len : aligned_region (mkRegion o len) -> aligned_region (mkRegion n len) ->
  (forall x, x ∈ mkRegion o len -> ~ x ∈ mkRegion n len) ->
  (forall x, x ∈ mkRegion n len -> as_translate a x = None) ->
  match move_pages a (zip (iter_pages (mkRegion o len)) (iter_pages (mkRegion n len))) [] with
  | (Ok _, a') => as_frames a' ≡ₚ omap (frame_at a) (iter_pages (mkRegion o len)) ++ as_frames a
  | (Err _, a') => as_frames a ≡ₚ as_frames a'
  end.
Proof.
  intros (Ro & Sl & Ao & Al) (Rn & _ & An & _) Hdis Hnone. unfold region_ok in *.
  cbn [start_address rsize] in *. rewrite zip_iter_pages by lia.
  set (c := len / PAGE_SIZE). assert (Hc : len = PAGE_SIZE * c) by (apply Z.div_exact; done).
  assert (HP : PAGE_SIZE = 4096) by done.
  assert (Hidx : forall i, i ∈ seqZ 0 c <-> 0 <= i < c) by (intros; rewrite elem_of_seqZ; lia).
  pose proof (move_pages_frames o n Ao An (seqZ 0 c) (NoDup_seqZ 0 c)) as Hm.
  specialize (Hm ltac:(intros i j Hi%Hidx Hj%Hidx E; apply (Hdis (o + PAGE_SIZE * i)); rsolve)
    a [] ltac:(constructor) ltac:(constructor) ltac:(constructor)
    ltac:(intros i Hi%Hidx; apply Hnone; rsolve)).
  assert (Ei : iter_pages (mkRegion o len) = map (fun i => o + PAGE_SIZE * i) (seqZ 0 c)).
  { unfold iter_pages. cbn [start_address rsize]. rewrite Z.shiftr_div_pow2 by (unfold PAGE_SHIFT; lia).
    change (2 ^ PAGE_SHIFT) with PAGE_SIZE. fold c. apply map_ext_in. intros i Hi%list_elem_of_In%Hidx.
    unfold Address.add_pages. rewrite umul_small, uadd_small by lia. done. }
  rewrite Ei. destruct (move_pages _ _ _) as [[u|err] a']; done.
Qed.

(** ** The three ways of [mremap] *)

(** [old] of area [v] was remapped to [new]. *)
Record remapped mm mm' (v : VMArea) (old new : MemoryRegion) : Prop := {
  rm_new : forall i, 0 <= i < rsize new -> exists v',
    find_vma mm' (start_address new + i) = Some v' /\ permissions v' = permissions v /\
    (i < rsize old -> is_file_backed v = false ->
     content v' (start_address new + i) = content v (start_address old + i));
  rm_pages : forall i, 0 <= i < rsize new -> i < rsize old ->
    as_translate (address_space mm') (start_address new + i) =
    as_translate (address_space mm) (start_address old + i);
  rm_old : forall a, a ∈ old -> ~ a ∈ new -> find_vma mm' a = None;
  rm_other : forall a, ~ a ∈ old -> ~ a ∈ new -> unchanged_at mm mm' a
}.

Section Ways.
Context (mm : MemoryMap AS) (Hinv : mm_inv mm) (v : VMArea) (o ol : Z).
Context (Hfind : find_vma mm o = Some v) (Hold : aligned_region (mkRegion o ol)).
Context (Hsub : o + ol <= start_address (region v) + rsize (region v)).

Lemma source_facts : area_wf v /\ region_ok (region v) /\ 0 < rsize (region v) /\
  (start_address (region v), v) ∈ vmas mm /\
  start_address (region v) <= o < start_address (region v) + rsize (region v) /\
  (start_address (region v)) mod PAGE_SIZE = 0 /\
  (start_address (region v) + rsize (region v)) mod PAGE_SIZE = 0.
Proof.
  rewrite find_vma_area in Hfind. destruct (area_at_wf _ (proj1 Hinv) _ _ Hfind) as (Hv & Ha & Hin).
  pose proof (region_end_aligned _ (proj1 Hv)). pose proof Hv as ((Rv & Sv & Av & _) & _).
  split; [done|]. do 3 (split; [done|]). split; [rsolve|done].
Qed.

Lemma source_area a : a ∈ region v -> find_vma mm a = Some v.
Proof.
  intros Ha. destruct source_facts as (_ & _ & _ & Hin & _).
  apply area_at_Some; [apply Hinv|]. eauto.
Qed.

(** A page of the source area. *)
Lemma source_page va i : va ∈ region v -> as_translate (address_space mm) va = Some i ->
  le_perms (page_perms i) (permissions v).
Proof.
  intros Ha Hi. destruct (proj2 Hinv va i Hi) as (w & Ew & Hl).
  pose proof (source_area va Ha) as E. rewrite find_vma_area in E. congruence.
Qed.

Lemma shrink_perms r : permissions (shrink_to v r) = permissions v.
Proof. unfold shrink_to. destruct (kind v); [by bcase|done..]. Qed.

(** The regions of the source area that stay where they are when the first [nl] bytes of
    the old region do. *)
Definition kept (nl : Z) : list MemoryRegion :=
  gap (start_address (region v)) o ++ gap o (o + nl) ++
  gap (o + ol) (start_address (region v) + rsize (region v)).

Lemma kept_ok nl : 0 <= nl <= ol -> nl mod PAGE_SIZE = 0 ->
  (forall r, r ∈ kept nl -> aligned_sub r (region v)) /\
  StronglySorted (fun r r' => start_address r + rsize r <= start_address r') (kept nl).
Proof.
  intros Hnl Am. destruct source_facts as (Hv & Rv & Sv & Hin & Hr & Av & Ev).
  destruct Hold as (Ro & So & Ao & Al). cbn [start_address rsize] in *.
  assert (Ae : (o + ol) mod PAGE_SIZE = 0) by (rewrite Z.add_mod, Ao, Al by done; done).
  assert (An : (o + nl) mod PAGE_SIZE = 0) by (rewrite Z.add_mod, Ao, Am by done; done).
  unfold kept. split.
  - intros r. rewrite !elem_of_app, !elem_of_gap.
    intros [[? ->]|[[? ->]|[? ->]]]; apply aligned_piece; done || lia.
  - assert (Hg : forall s e, StronglySorted (fun r r' => start_address r + rsize r <= start_address r') (gap s e))
      by (intros; unfold gap; bcase; repeat constructor).
    apply SSorted_app_iff. split; [done|]. split; [apply SSorted_app_iff; split; [done|]; split; [done|]|].
    + intros x y [? ->]%elem_of_gap [? ->]%elem_of_gap. simpl. lia.
    + intros x y [? ->]%elem_of_gap [[? ->]%elem_of_gap|[? ->]%elem_of_gap]%elem_of_app; simpl; lia.
Qed.

Lemma kept_elem nl a : 0 <= nl <= ol ->
  (exists r, r ∈ kept nl /\ a ∈ r) <-> a ∈ region v /\ ~ (o + nl <= a < o + ol).
Proof.
  intros Hnl. destruct source_facts as (_ & _ & _ & _ & Hr & _). unfold kept. split.
  - intros (r & Hin & Ha). rewrite !elem_of_app, !elem_of_gap in Hin.
    destruct Hin as [[? ->]|[[? ->]|[? ->]]]; rsolve.
  - intros [Hv Hn].
    assert (Hc : (start_address (region v) < o /\ a < o) \/ (0 < nl /\ o <= a < o + nl) \/
      (o + ol < start_address (region v) + rsize (region v) /\ o + ol <= a)) by rsolve.
    destruct Hc as [[H1 H2]|[[H1 H2]|[H1 H2]]]; eexists; rewrite !elem_of_app, !elem_of_gap;
      (split; [first [left; split; [done|reflexivity] | right; left; split; [lia|reflexivity]
                     | right; right; split; [done|reflexivity]]|]); rsolve.
Qed.

(** The source area replaced by what is kept and the areas [qs] elsewhere. *)
Section Kept.
Context (nl : Z) (Hnl : 0 <= nl <= ol) (Am : nl mod PAGE_SIZE = 0) (qs : list VMArea).
Context (mm' : MemoryMap AS) (U : replaced mm mm' v (map (shrink_to v) (kept nl) ++ qs)).

Lemma kept_same a : a ∈ region v -> ~ (o + nl <= a < o + ol) ->
  exists v', find_vma mm' a = Some v' /\ same_at v v' a.
Proof.
  intros Hv Hn. destruct (proj2 (kept_elem nl a Hnl) (conj Hv Hn)) as (r & Hrk & Ha).
  destruct source_facts as (Wv & _). destruct (kept_ok nl Hnl Am) as [Hk _].
  destruct (proj1 (U a) (shrink_to v r)) as (v' & F & S);
    [apply elem_of_app; left; apply list_elem_of_fmap; eauto|by rewrite shrink_region|].
  exists v'. split; [done|]. eapply same_at_trans; [|done]. by apply shrink_same; [|apply Hk|].
Qed.

Lemma kept_out a : (forall q, q ∈ qs -> ~ a ∈ region q) -> ~ (a ∈ region v /\ ~ (o + nl <= a < o + ol)) ->
  if decide (a ∈ region v) then find_vma mm' a = None else agree (vmas mm) (vmas mm') a.
Proof.
  intros Hq Hn. apply (proj2 (U a)). intros p [(r & -> & Hrk)%list_elem_of_fmap|Hp]%elem_of_app; [|by apply Hq].
  rewrite shrink_region. intros Ha. apply Hn, kept_elem; [done|]. eauto.
Qed.

Lemma kept_other a : (forall q, q ∈ qs -> ~ a ∈ region q) -> ~ (o + nl <= a < o + ol) ->
  agree (vmas mm) (vmas mm') a.
Proof.
  intros Hq Hn. destruct (decide (a ∈ region v)) as [Hav|Hav].
  - destruct (kept_same a Hav Hn) as (v' & F & S). unfold agree.
    pose proof (source_area a Hav) as E. rewrite find_vma_area in E, F. by rewrite E, F.
  - pose proof (kept_out a Hq ltac:(tauto)) as Uo. by rewrite decide_False in Uo.
Qed.

Lemma kept_gone a : (forall q, q ∈ qs -> ~ a ∈ region q) -> o + nl <= a < o + ol ->
  find_vma mm' a = None.
Proof.
  intros Hq Hn. destruct source_facts as (_ & _ & _ & _ & Hr & _).
  pose proof (kept_out a Hq ltac:(tauto)) as Uo. rewrite decide_True in Uo by rsolve. done.
Qed.
End Kept.

(** Such a replacement, once the pages of the given-up part are unmapped or moved. *)
Lemma replace_kept nl t qs : 0 <= nl <= ol -> nl mod PAGE_SIZE = 0 -> Forall area_wf qs ->
  StronglySorted separate_areas qs ->
  (forall q a, q ∈ qs -> a ∈ region q -> find_vma mm a = None) ->
  (forall va i, as_translate t va = Some i ->
     (exists q, q ∈ qs /\ va ∈ region q /\ le_perms (page_perms i) (permissions q)) \/
     (~ (o + nl <= va < o + ol) /\ as_translate (address_space mm) va = Some i)) ->
  exists mm1 mm', remove_vma (set_as mm t) (start_address (region v)) = Return mm1 /\
    merge_list mm1 (map (shrink_to v) (kept nl) ++ qs) = Return mm' /\ address_space mm' = t /\
    mm_inv mm' /\ replaced mm mm' v (map (shrink_to v) (kept nl) ++ qs).
Proof.
  intros Hnl Am Wq Sq Fq Ht. destruct source_facts as (Hv & _ & _ & Hin & _).
  destruct (kept_ok nl Hnl Am) as [Hk Hs]. destruct (shrunken_ok v (kept nl) Hv Hk Hs) as [Hps Hsep].
  assert (Hkin : forall p a, p ∈ map (shrink_to v) (kept nl) -> a ∈ region p -> a ∈ region v).
  { intros p a (r & -> & Hrk)%list_elem_of_fmap. rewrite shrink_region. intros Ha.
    apply (kept_elem nl a Hnl). eauto. }
  apply replace_inv; try done.
  - by apply Forall_app.
  - apply SSorted_app_iff. split; [done|]. split; [done|]. intros p q Hp Hq a Ha Haq.
    pose proof (Fq q a Hq Haq) as Hn. rewrite (source_area a) in Hn by (by eapply Hkin). done.
  - intros p a [Hp|Hp]%elem_of_app Ha; [left; by eapply Hkin|right; by eapply Fq].
  - intros va i Hi. destruct (Ht va i Hi) as [(q & Hq & Ha & Hl)|[Hn Hi']].
    { left. exists q. split; [apply elem_of_app; by right|done]. }
    destruct (decide (va ∈ region v)) as [Ha|Ha]; [left|by right].
    destruct (proj2 (kept_elem nl va Hnl) (conj Ha Hn)) as (r & Hrk & Har).
    exists (shrink_to v r). split; [apply elem_of_app; left; apply list_elem_of_fmap; eauto|].
    rewrite shrink_region, shrink_perms. split; [done|]. by apply (source_page va).
Qed.

Lemma shrink_in_place_spec nl : 0 < nl < ol -> nl mod PAGE_SIZE = 0 ->
  exists ps mm', shrink_in_place mm v (mkRegion o ol) nl = Return (Ok (o, ps), mm') /\ mm_inv mm' /\
    remapped mm mm' v (mkRegion o ol) (mkRegion o nl) /\ accounted mm ps mm'.
Proof.
  intros Hnl Am. destruct source_facts as (Hv & Rv & Sv & Hin & Hr & Av & Ev).
  pose proof Hold as (Ro & So & Ao & Al). unfold region_ok in *. cbn [start_address rsize] in *.
  unfold shrink_in_place, on_as. rewrite !end_address_eq by (unfold region_ok; simpl; lia).
  cbn [start_address rsize]. rewrite from_start_end_address_eq by lia. ostep.
  set (gone := mkRegion (o + nl) (o + ol - (o + nl))).
  assert (Ag : aligned_region gone).
  { unfold aligned_region, region_ok, gone. simpl. replace (o + ol - (o + nl)) with (ol - nl) by lia.
    rewrite Z.add_mod, Ao, Am, Zminus_mod, Al, Am by done. repeat split; lia || done. }
  destruct (unmap_range_ok (address_space mm) gone Ag) as [ps Eu]. rewrite Eu. cbn [tbind].
  destruct (replace_kept nl (as_unmap_range (address_space mm) gone).2 [])
    as (mm1 & mm' & E1 & E2 & As' & I' & U);
    [lia|done|constructor|constructor|by intros q a ?%not_elem_of_nil| |].
  { intros va i. rewrite unmap_range_translate by done. case_decide as Hg; [done|]. right.
    split; [|done]. unfold gone in Hg. rsolve. }
  rewrite E1. ostep. rewrite merge_piece_eq by lia.
  rewrite app_nil_r in E2. unfold kept in E2. rewrite !map_app, merge_list_app in E2.
  apply obind_Return in E2 as (mm2 & E2 & E3). rewrite E2. ostep.
  assert (Eg : gap o (o + nl) = [mkRegion o nl])
    by (unfold gap; rewrite (proj2 (Z.ltb_lt _ _)) by lia; repeat f_equal; lia).
  rewrite Eg in E3. cbn [map app merge_list] in E3.
  apply obind_Return in E3 as (mm3 & E3 & E4). rewrite E3. ostep.
  rewrite merge_piece_eq, E4 by lia. ostep. eexists _, _. split; [done|]. split; [done|].
  split; [|unfold accounted, mm_frames; rewrite As'; by apply frames_unmap_range].
  assert (Hno : forall a q, q ∈ ([] : list VMArea) -> ~ a ∈ region q) by (by intros a q ?%not_elem_of_nil).
  split; cbn [start_address rsize].
  - intros i Hi. destruct (kept_same nl ltac:(lia) Am [] mm' U (o + i)) as (v' & F & P & C); [rsolve|lia|].
    exists v'. split; [done|]. split; [done|]. intros _ Hf. by apply C.
  - intros i Hi _. rewrite As', unmap_range_translate by done. rewrite decide_False; [done|].
    unfold gone. rsolve.
  - intros a Ha Hna. apply (kept_gone nl ltac:(lia) [] mm' U a (Hno a)). rsolve.
  - intros a Ha Hna. split; [apply (kept_other nl ltac:(lia) Am [] mm' U a (Hno a)); rsolve|].
    rewrite As', unmap_range_translate by done. rewrite decide_False; [done|]. unfold gone. rsolve.
Qed.

Lemma set_as_same : set_as mm (address_space mm) = mm.
Proof. by destruct mm. Qed.

Lemma expand_in_place_spec nl : ol < nl -> nl mod PAGE_SIZE = 0 -> o + nl < 2 ^ 64 ->
  kind_span (kind v) (o + nl - start_address (region v)) ->
  (forall a, start_address (region v) + rsize (region v) <= a < o + nl -> find_vma mm a = None) ->
  exists mm', expand_in_place mm v (mkRegion o ol) nl = Return (Ok (o, []), mm') /\ mm_inv mm' /\
    remapped mm mm' v (mkRegion o ol) (mkRegion o nl) /\ accounted mm [] mm'.
Proof.
  intros Hnl Am Hb Hspan Hfree. destruct source_facts as (Hv & Rv & Sv & Hin & Hr & Av & Ev).
  pose proof Hold as (Ro & So & Ao & Al). unfold region_ok in *. cbn [start_address rsize] in *.
  unfold expand_in_place, add_bytes. cbn [start_address]. rewrite (uadd_small o nl) by lia.
  rewrite end_address_eq by done. bcase.
  { exists mm. do 2 (split; [done|]). split; [|by apply accounted_same]. split; cbn [start_address rsize].
    - intros i Hi. exists v. split; [apply source_area; rsolve|done].
    - done.
    - intros a Ha Hna. exfalso. rsolve.
    - intros a _ _. apply unchanged_refl. }
  rewrite from_start_end_address_eq by lia.
  set (p := set_region v (mkRegion (start_address (region v)) (o + nl - start_address (region v)))).
  assert (An : (o + nl) mod PAGE_SIZE = 0) by (rewrite Z.add_mod, Ao, Am by done; done).
  assert (Wp : area_wf p).
  { split; [|unfold span_ok, p; simpl; by destruct (kind v)].
    unfold aligned_region, region_ok, p. simpl. repeat split; try lia. by rewrite Zminus_mod, An, Av. }
  destruct (replace_inv mm (address_space mm) v [p]) as (mm1 & mm' & E1 & E2 & As' & I' & U);
    [done|done|by constructor|repeat constructor| | |].
  { intros q a ->%list_elem_of_singleton Ha. destruct (decide (a ∈ region v)); [by left|right].
    apply Hfree. unfold p in Ha. rsolve. }
  { intros va i Hi. destruct (decide (va ∈ region v)) as [Ha|Ha]; [left|by right]. exists p.
    split; [by left|]. split; [unfold p; rsolve|]. by apply (source_page va). }
  rewrite set_as_same in E1. rewrite E1. ostep. fold p. cbn [merge_list] in E2.
  apply obind_Return in E2 as (mm2 & E2 & [= ->]). rewrite E2. ostep.
  exists mm'. do 2 (split; [done|]). split; [|by apply accounted_same].
  assert (Hat : forall a, a ∈ region p -> exists v', find_vma mm' a = Some v' /\ same_at v v' a)
    by (intros a Ha; apply (proj1 (U a) p); [by left|done]).
  split; cbn [start_address rsize].
  - intros i Hi. destruct (Hat (o + i)) as (v' & F & P & C); [unfold p; rsolve|]. exists v'.
    split; [done|]. split; [done|]. intros _ Hf. by apply C.
  - intros. by rewrite As'.
  - intros a Ha Hna. exfalso. rsolve.
  - intros a Ha Hna. split; [|by rewrite As']. destruct (decide (a ∈ region v)) as [Hav|Hav].
    + destruct (Hat a) as (v' & F & S); [unfold p; rsolve|]. unfold agree.
      pose proof (source_area a Hav) as E0. rewrite find_vma_area in E0, F. by rewrite E0, F.
    + destruct (U a) as [_ Uo]. rewrite decide_False in Uo by done. apply Uo.
      intros q ->%list_elem_of_singleton. unfold p. rsolve.
Qed.

(** The area at its new place. *)
Lemma relocate_spec new : aligned_region new ->
  kind_span (kind v) (o - start_address (region v) + rsize new) ->
  let q := relocate_vma (shrink_to v (mkRegion o ol)) new in
  region q = new /\ permissions q = permissions v /\ area_wf q /\
  forall i, is_file_backed v = false ->
    is_file_backed q = false /\ content q (start_address new + i) = content v (o + i).
Proof.
  intros Hnew Hspan. cbv zeta. destruct source_facts as (Hv & Rv & Sv & Hin & Hr & _).
  destruct Hv as [_ Hsp]. unfold region_ok in Rv. pose proof Hold as (Ro & _).
  unfold region_ok in Ro. cbn [start_address rsize] in Ro.
  unfold relocate_vma, shrink_to, span_ok, kind_span, is_file_backed, content, area_wf in *.
  unfold clone_with_new_region. cbn [start_address rsize].
  destruct (kind v) as [m| |m] eqn:Hk.
  - bcase; simpl; (do 2 (split; [done|])); (split; [|done]); (split; [done|]); [done|].
    unfold span_ok. simpl. rewrite usub_small, uadd_small by lia. lia.
  - simpl. do 2 (split; [done|]). split; done.
  - simpl. do 2 (split; [done|]). unfold span_ok. simpl. rewrite usub_small, uadd_small by lia.
    split; [split; [done|]; lia|].
    intros i _. split; [done|]. f_equal. lia.
Qed.

(** The end of the old region beyond the first [pl] bytes is unmapped. *)
Lemma unmap_tail (mm2 : MemoryMap AS) pl : 0 < pl <= ol -> pl mod PAGE_SIZE = 0 ->
  exists q t, (if ol >? pl then
      let! r := from_start_end_address (add_bytes o pl) (end_address (mkRegion o ol)) in
      on_as mm2 (as_unmap_range (address_space mm2) r)
    else Return (Ok [], mm2)) = Return (Ok q, set_as mm2 t) /\
    mm_frames mm2 ≡ₚ q ++ as_frames t /\ forall va, as_translate t va =
      if decide (o + pl <= va < o + ol) then None else as_translate (address_space mm2) va.
Proof.
  intros Hpl Ap. pose proof Hold as (Ro & So & Ao & Al). unfold region_ok in *.
  cbn [start_address rsize] in *. rewrite end_address_eq by done. cbn [start_address rsize].
  unfold add_bytes. rewrite uadd_small by lia. bcase.
  - rewrite from_start_end_address_eq by lia. ostep. unfold on_as. set (r := mkRegion _ _).
    assert (Ar : aligned_region r).
    { unfold aligned_region, region_ok, r. simpl. replace (o + ol - (o + pl)) with (ol - pl) by lia.
      rewrite Z.add_mod, Ao, Ap, Zminus_mod, Al, Ap by done. repeat split; lia || done. }
    destruct (unmap_range_ok (address_space mm2) r Ar) as [q Eq]. rewrite Eq.
    eexists _, _. split; [done|]. split; [by apply frames_unmap_range|].
    intros va. rewrite unmap_range_translate by done. unfold r. do 2 case_decide; done || rsolve.
  - eexists [], (address_space mm2). split; [by destruct mm2|]. split; [done|]. intros va. rewrite decide_False by lia. done.
Qed.

(** The last part of [move_to_free]. *)
Lemma merge_pieces_then (mm1 : MemoryMap AS) qa mm' {B} (k : MemoryMap AS -> outcome B) :
  merge_list mm1 (map (shrink_to v) (kept 0) ++ [qa]) = Return mm' ->
  (let! m := merge_piece mm1 v (start_address (region v)) o in
   let! m := merge_piece m v (o + ol) (start_address (region v) + rsize (region v)) in
   let! m := merge_vma m qa in k m) = k mm'.
Proof.
  destruct source_facts as (_ & Rv & _ & _ & Hr & _). pose proof Hold as (Ro & _).
  unfold region_ok in *. cbn [start_address rsize] in Ro. intros E.
  unfold kept in E. rewrite Z.add_0_r in E.
  assert (Eg : gap o o = []) by (unfold gap; by rewrite Z.ltb_irrefl). rewrite Eg in E. cbn [app] in E.
  rewrite map_app, <- app_assoc, !merge_list_app in E.
  apply obind_Return in E as (m1 & E1 & E). rewrite merge_piece_eq, E1 by lia. ostep.
  rewrite merge_list_app in E. apply obind_Return in E as (m2 & E2 & E).
  rewrite merge_piece_eq, E2 by lia. ostep. cbn [merge_list] in E.
  apply obind_Return in E as (m3 & E3 & [= ->]). rewrite E3. done.
Qed.

Lemma move_to_free_spec n nl freed : aligned_region (mkRegion n nl) ->
  kind_span (kind v) (o - start_address (region v) + nl) ->
  (forall a, a ∈ mkRegion n nl -> find_vma mm a = None) ->
  exists res mm', move_to_free mm v (mkRegion o ol) (mkRegion n nl) freed = Return (res, mm') /\ mm_inv mm' /\
    match res with
    | Ok (addr, ps) => addr = n /\ remapped mm mm' v (mkRegion o ol) (mkRegion n nl) /\
        exists qs, ps = freed ++ qs /\ accounted mm qs mm'
    | Err _ => vmas mm' = vmas mm /\ accounted mm [] mm'
    end.
Proof.
  intros Hnew Hspan Hfree. destruct source_facts as (Hv & Rv & Sv & Hin & Hr & Av & Ev).
  pose proof Hold as (Ro & So & Ao & Al). pose proof Hnew as (Rn & Sn & An & Anl).
  unfold region_ok in *. cbn [start_address rsize] in *.
  destruct (relocate_spec (mkRegion n nl) Hnew Hspan) as (Rq & Pq & Wq & Cq). cbn [start_address] in Cq.
  unfold move_to_free. cbn [start_address rsize]. set (pl := Z.min ol nl).
  assert (Hpl : 0 < pl <= ol /\ pl <= nl) by (unfold pl; lia).
  assert (Apl : pl mod PAGE_SIZE = 0) by (unfold pl; by apply Z.min_case).
  rewrite (proj2 (Z.eqb_neq pl 0)) by lia. cbn [negb].
  assert (Hsep : forall x, x ∈ region v -> ~ x ∈ mkRegion n nl).
  { intros x Hx Hxn%Hfree. by rewrite (source_area x Hx) in Hxn. }
  assert (Apo : aligned_region (mkRegion o pl)) by (unfold aligned_region, region_ok; simpl; repeat split; done || lia).
  assert (Apn : aligned_region (mkRegion n pl)) by (unfold aligned_region, region_ok; simpl; repeat split; done || lia).
  pose proof (move_region_spec (address_space mm) o n pl Apo Apn) as Hmove.
  assert (Hin1 : forall x, x ∈ mkRegion o pl -> x ∈ region v)
    by (unfold elem_of, region_elem_of; cbn [start_address rsize]; lia).
  assert (Hin2 : forall x, x ∈ mkRegion n pl -> x ∈ mkRegion n nl)
    by (unfold elem_of, region_elem_of; cbn [start_address rsize]; lia).
  specialize (Hmove (fun x Hx Hx' => Hsep x (Hin1 x Hx) (Hin2 x Hx'))
    (fun x Hx => no_area_no_page mm x Hinv (Hfree x (Hin2 x Hx)))).
  pose proof (move_region_frames (address_space mm) o n pl Apo Apn
    (fun x Hx Hx' => Hsep x (Hin1 x Hx) (Hin2 x Hx'))
    (fun x Hx => no_area_no_page mm x Hinv (Hfree x (Hin2 x Hx)))) as Hfr.
  unfold on_as at 1. destruct (move_pages _ _ _) as [[u|err] a1]; cbn [tbind fst snd].
  2: { eexists _, _. split; [done|]. split; [|done]. split; [apply Hinv|]. intros va i.
       cbn [address_space set_as]. rewrite Hmove. apply Hinv. }
  unfold on_as at 1. cbn [address_space set_as].
  destruct (unmap_range_ok a1 (mkRegion o pl) Apo) as [ps2 E2]. rewrite E2. cbn [tbind].
  set (mm2 := set_as _ (as_unmap_range a1 (mkRegion o pl)).2).
  destruct (unmap_tail mm2 pl ltac:(lia) Apl) as (q & t & Et & Hq' & Ht). rewrite Et. cbn [tbind].
  assert (Hacc : mm_frames mm ≡ₚ q ++ as_frames t).
  { destruct (frames_unmap_range a1 (mkRegion o pl) ps2 Apo E2) as [Hf1 Hf2].
    rewrite <- Hq'. unfold mm_frames, mm2. cbn [address_space set_as].
    apply (Permutation_app_inv_l ps2). rewrite <- Hf1, Hfr, Hf2. apply Permutation_app_tail.
    rewrite (omap_frame_ext a1 (address_space mm)); [done|]. intros x Hx.
    apply iter_pages_elem_of in Hx as (i & Hi & ->); [|apply Apo]. unfold frame_at. rewrite Hmove.
    cbn [start_address rsize] in *. rewrite decide_False; [done|]. intros Hxn.
    apply (Hsep (o + PAGE_SIZE * i)); [|by apply Hin2]. apply Hin1.
    pose proof (Z.mul_div_le pl PAGE_SIZE ltac:(done)) as Hdiv. clear - Hi Hdiv.
    unfold elem_of, region_elem_of, PAGE_SIZE in *. cbn [start_address rsize]. lia. }
  assert (Htr : forall va, as_translate t va =
    if decide (va ∈ mkRegion n pl) then as_translate (address_space mm) (va - n + o)
    else if decide (va ∈ mkRegion o ol) then None else as_translate (address_space mm) va).
  { clear Hacc Hfr Hq'. intros va. rewrite Ht. unfold mm2. cbn [address_space set_as].
    rewrite unmap_range_translate, Hmove by done. pose proof (Hsep va).
    repeat case_decide; try done; exfalso; rsolve. }
  clear Ht Et Hmove E2 Hfr Hq'. change (set_as mm2 t) with (set_as mm t).
  set (qa := relocate_vma (shrink_to v (mkRegion o ol)) (mkRegion n nl)) in *.
  destruct (replace_kept 0 t [qa]) as (mm1 & mm' & E1 & E2 & As' & I' & U);
    [lia|done|by constructor|repeat constructor| | |].
  { intros x a ->%list_elem_of_singleton. rewrite Rq. apply Hfree. }
  { intros va i. rewrite Htr. destruct (decide (va ∈ mkRegion n pl)) as [Hp|Hp].
    - intros Hi. left. exists qa. split; [by left|]. rewrite Rq, Pq. split; [rsolve|].
      apply (source_page (va - n + o)); [rsolve|done].
    - case_decide; [done|]. intros Hi. right. split; [|done]. rsolve. }
  rewrite E1. ostep. rewrite !end_address_eq by done. cbn [start_address rsize].
  rewrite (merge_pieces_then mm1 qa mm' _ E2). eexists _, _. split; [done|]. split; [done|].
  split; [done|]. split; [|exists q; split; [done|]; unfold accounted; unfold mm_frames at 2; by rewrite As'].
  assert (Hq : forall a, ~ a ∈ mkRegion n nl -> forall x, x ∈ [qa] -> ~ a ∈ region x)
    by (intros a Ha x ->%list_elem_of_singleton; by rewrite Rq).
  split; cbn [start_address rsize].
  - intros i Hi. destruct (proj1 (U (n + i)) qa) as (v' & F & P & C);
      [apply elem_of_app; right; by left|rewrite Rq; rsolve|].
    exists v'. split; [done|]. split; [congruence|]. intros _ Hf.
    destruct (Cq i Hf) as [Fq Eq]. destruct (C Fq). congruence.
  - intros i Hi1 Hi2. rewrite As', Htr, decide_True by (unfold pl; rsolve). f_equal. lia.
  - intros a Ha Hna. apply (kept_gone 0 ltac:(lia) [qa] mm' U a (Hq a Hna)). rsolve.
  - intros a Ha Hna. split; [apply (kept_other 0 ltac:(lia) eq_refl [qa] mm' U a (Hq a Hna)); rsolve|].
    by rewrite As', Htr, !decide_False by rsolve.
Qed.
End Ways.

(** ** mremap *)

Lemma align_len_eq len : 0 <= len -> len + PAGE_SIZE < 2 ^ 64 -> align_len len = round_up len PAGE_SIZE.
Proof.
  intros H1 H2. unfold align_len. change (Z.land len PAGE_MASK) with (page_offset len).
  rewrite page_offset_eq. pose proof (Z.mod_pos_bound len PAGE_SIZE ltac:(done)) as Hm.
  pose proof (Z.div_mod len PAGE_SIZE ltac:(done)) as Hd.
  destruct (Z.eqb_spec (len mod PAGE_SIZE) 0) as [E|E]; simpl; [by rewrite round_up_id|].
  change (Z.land len (unot PAGE_MASK)) with (Z.land len (unot (2 ^ 12 - 1))).
  rewrite land_unot_ones by (unfold usize_ok, PAGE_SIZE in *; lia).
  change (2 ^ 12) with PAGE_SIZE. rewrite uadd_small by (unfold PAGE_SIZE in *; lia).
  unfold round_up. set (c := len / PAGE_SIZE) in *. set (r := len mod PAGE_SIZE) in *.
  assert (Hx : (len + (PAGE_SIZE - 1)) mod PAGE_SIZE = r - 1).
  { symmetry. apply Z.mod_unique with (q := c + 1); unfold PAGE_SIZE in *; lia. }
  rewrite Hx. unfold PAGE_SIZE in *. lia.
Qed.

(** [v] is still there after a region away from it was unmapped. *)
Lemma clobber_spec mm r v o : mm_inv mm -> aligned_region r -> find_vma mm o = Some v ->
  overlaps r (region v) = false ->
  exists ps mm1, do_unmap_region mm r None = Return (Ok ps, mm1) /\ mm_inv mm1 /\
    find_vma mm1 o = Some v /\ (forall a, a ∈ r -> find_vma mm1 a = None) /\
    forall a, ~ a ∈ r -> unchanged_at mm mm1 a.
Proof.
  intros Hinv Hr Ho Hov. pose proof Hinv as [Hwf _].
  rewrite find_vma_area in Ho. destruct (area_at_wf _ Hwf _ _ Ho) as (Hv & Ha & Hin).
  pose proof Hv as ((Rv & Sv & _) & _). pose proof Hr as (Rr & Sr & _).
  apply overlaps_false in Hov; [|done..].
  destruct (do_unmap_inv mm r Hinv Hr) as (ps & mm1 & E & I1 & U).
  destruct (do_unmap_spec mm r None Hwf Hr) as (ps' & mm1' & E' & _ & _ & K & _).
  rewrite E in E'. injection E' as <- <-. exists ps, mm1. do 2 (split; [done|]). split; [|split].
  - apply area_at_Some; [apply I1|]. exists (start_address (region v)). split; [|done].
    apply K; [done|]. intros (_ & ? & ?). lia.
  - intros a Har. specialize (U a). by rewrite decide_True in U.
  - intros a Har. specialize (U a). by rewrite decide_False in U.
Qed.

Lemma remapped_pre mm mm1 mm' v old new : (forall a, ~ a ∈ new -> unchanged_at mm mm1 a) ->
  (forall a, a ∈ old -> ~ a ∈ new) -> remapped mm1 mm' v old new -> remapped mm mm' v old new.
Proof.
  intros U Hdis [R1 R2 R3 R4]. split; [done| |done|].
  - intros i Hi Hi'. rewrite R2 by done. apply U, Hdis. rsolve.
  - intros a Ha Hna. eapply unchanged_trans; [by apply U|by apply R4].
Qed.

(** Bounds under which no address computation wraps. *)
Record remap_bounds (old_addr old_len new_len : Z) (dest : RemapDestination) : Prop := {
  rb_old : 0 <= old_addr /\ 0 <= old_len /\ old_addr + old_len + PAGE_SIZE < 2 ^ 64;
  rb_new : 0 <= new_len /\ old_addr + new_len + PAGE_SIZE < 2 ^ 64;
  rb_dest : forall n, dest = RemapFixed n -> 0 <= n /\ n + new_len + PAGE_SIZE < 2 ^ 64
}.

Definition placed (dest : RemapDestination) (old_addr addr : Z) : Prop :=
  match dest with
  | InPlaceOnly => addr = old_addr
  | MayMove => True
  | RemapFixed n => addr = n
  end.

(** What a failed [mremap] may have done: clear the fixed target. *)
Definition remap_failed mm mm' (dest : RemapDestination) (new_len : Z) : Prop :=
  forall a, (forall n, dest = RemapFixed n -> ~ a ∈ mkRegion n new_len) -> agree (vmas mm) (vmas mm') a.

(** A failed call may lose the references of a fixed target that it cleared. *)
Definition remap_lost mm mm' (dest : RemapDestination) : Prop :=
  exists lost, accounted mm lost mm' /\ ((forall n, dest <> RemapFixed n) -> lost = []).

(** The result of [mremap] on one of its ways. *)
Definition remap_result mm (o ol nl : Z) (dest : RemapDestination) (v : VMArea)
    (r : outcome (result (Z * list Z) * MemoryMap AS)) : Prop :=
  exists res mm', r = Return (res, mm') /\ mm_inv mm' /\
    match res with
    | Ok (addr, ps) => placed dest o addr /\ remapped mm mm' v (mkRegion o ol) (mkRegion addr nl) /\
        accounted mm ps mm'
    | Err _ => remap_failed mm mm' dest nl /\ remap_lost mm mm' dest
    end.

Section Dispatch.
Context (mm : MemoryMap AS) (Hinv : mm_inv mm) (v : VMArea) (o ol nl : Z).
Context (Hfind : find_vma mm o = Some v) (Hold : aligned_region (mkRegion o ol)).
Context (Hsub : o + ol <= start_address (region v) + rsize (region v)).
Context (Hnl : 0 < nl /\ nl mod PAGE_SIZE = 0 /\ o + nl < 2 ^ 64).
Context (Hspan : kind_span (kind v) (o - start_address (region v) + nl)).

Lemma remap_err dest e : remap_result mm o ol nl dest v (Return (Err e, mm)).
Proof.
  eexists _, _. split; [done|]. split; [done|]. split; [intros a _; apply agree_refl|].
  exists []. split; [by apply accounted_same|done].
Qed.

Lemma remap_fixed n : aligned_region (mkRegion n nl) ->
  overlaps (mkRegion n nl) (region v) = false ->
  remap_result mm o ol nl (RemapFixed n) v
    (move_selected_mapping mm v (mkRegion o ol) (mkRegion n nl) true).
Proof.
  intros Hn Hov. destruct (clobber_spec mm _ v o Hinv Hn Hfind Hov) as (ps & mm1 & E & I1 & F1 & N1 & U1).
  pose proof (do_unmap_accounted mm _ None ps mm1 (proj1 Hinv) Hn E) as Hacc.
  unfold move_selected_mapping. rewrite E. cbn [tbind].
  destruct (move_to_free_spec mm1 I1 v o ol F1 Hold Hsub n nl ps Hn Hspan N1)
    as (res & mm' & Em & I' & M).
  exists res, mm'. split; [done|]. split; [done|]. destruct res as [[addr q]|e].
  - destruct M as (-> & M & qs & -> & Hqs). split; [done|]. split; [|by eapply accounted_trans].
    apply (remapped_pre mm mm1); [done| |done].
    intros a Ha Han. pose proof (N1 a Han) as Hn1.
    rewrite (source_area mm1 I1 v o F1 a) in Hn1; [done|].
    destruct (source_facts mm1 I1 v o F1) as (_ & _ & _ & _ & ? & _). rsolve.
  - destruct M as [M Hqs]. split; [intros a Ha; rewrite M; apply U1; by apply Ha|].
    exists (ps ++ []). split; [by eapply accounted_trans|]. intros Hd. by destruct (Hd n).
Qed.

Lemma remap_grow dest : (forall n, dest <> RemapFixed n) -> ol < nl ->
  remap_result mm o ol nl dest v
    (let! can := can_expand_in_place mm v (mkRegion o ol) nl in
     if can then expand_in_place mm v (mkRegion o ol) nl
     else match dest with
          | InPlaceOnly => Return (Err NoMemory, mm)
          | MayMove => match find_free_region mm nl with
                       | None => Return (Err NoMemory, mm)
                       | Some r => move_selected_mapping mm v (mkRegion o ol) r false
                       end
          | RemapFixed _ => Panic
          end).
Proof.
  intros Hd Hlt. destruct (source_facts mm Hinv v o Hfind) as (_ & Rv & Sv & _ & Hr & _).
  pose proof Hold as (Ro & _). unfold can_expand_in_place, add_bytes. cbn [start_address].
  unfold region_ok in Rv, Ro. cbn [start_address rsize] in Ro.
  rewrite (uadd_small o nl), (end_address_eq (region v)) by (done || lia).
  assert (Hexp : (forall a, start_address (region v) + rsize (region v) <= a < o + nl -> find_vma mm a = None) ->
    remap_result mm o ol nl dest v (expand_in_place mm v (mkRegion o ol) nl)).
  { intros Hfree. destruct (expand_in_place_spec mm Hinv v o ol Hfind Hold Hsub nl) as (mm' & E & I' & M);
      [lia|tauto|tauto| |done|].
    - by replace (o + nl - start_address (region v)) with (o - start_address (region v) + nl) by lia.
    - eexists _, _. split; [done|]. split; [done|]. split; [|exact M].
      destruct dest as [| |n]; done || by destruct (Hd n). }
  bcase; ostep; [apply Hexp; intros; lia|].
  rewrite from_start_end_address_eq by lia. ostep.
  set (fr := mkRegion (start_address (region v) + rsize (region v))
    (o + nl - (start_address (region v) + rsize (region v)))).
  destruct (is_region_free mm fr) eqn:Ef.
  { apply Hexp. apply is_region_free_spec in Ef; [|apply Hinv|unfold region_ok; simpl; lia|simpl; lia].
    intros a Ha. apply (proj1 (fresh_spec _ fr (proj1 Hinv) ltac:(simpl; lia)) Ef). unfold fr. rsolve. }
  destruct dest as [| |n]; [apply remap_err| |by destruct (Hd n)].
  destruct (find_free_region mm nl) as [[n sz]|] eqn:Eg; [|apply remap_err].
  destruct (find_free_region_spec mm nl _ (proj1 Hinv) ltac:(lia) Eg) as (Es & _ & Hfr & Al).
  cbn [rsize] in Es. subst sz. specialize (Al ltac:(tauto)).
  unfold move_selected_mapping. cbn [tbind].
  destruct (move_to_free_spec mm Hinv v o ol Hfind Hold Hsub n nl [] Al Hspan) as (res & mm' & Em & I' & M).
  { apply (proj1 (fresh_spec _ (mkRegion n nl) (proj1 Hinv) ltac:(simpl; lia)) Hfr). }
  exists res, mm'. split; [done|]. split; [done|]. destruct res as [[addr q]|e].
  - destruct M as (-> & M & qs & -> & Hqs). by split.
  - destruct M as [M Hqs]. split; [intros a _; rewrite M; apply agree_refl|]. by exists [].
Qed.

Lemma remap_in_place dest : (forall n, dest <> RemapFixed n) ->
  remap_result mm o ol nl dest v
    (if ol =? nl then Return (Ok (o, []), mm)
     else if nl <=? ol then shrink_in_place mm v (mkRegion o ol) nl
     else let! can := can_expand_in_place mm v (mkRegion o ol) nl in
          if can then expand_in_place mm v (mkRegion o ol) nl
          else match dest with
               | InPlaceOnly => Return (Err NoMemory, mm)
               | MayMove => match find_free_region mm nl with
                            | None => Return (Err NoMemory, mm)
                            | Some r => move_selected_mapping mm v (mkRegion o ol) r false
                            end
               | RemapFixed _ => Panic
               end).
Proof.
  intros Hd. destruct (source_facts mm Hinv v o Hfind) as (_ & _ & _ & _ & Hr & _).
  assert (Hpl : placed dest o o) by (destruct dest as [| |n]; done || by destruct (Hd n)).
  destruct (Z.eqb_spec ol nl) as [Eq|Hne].
  { eexists _, _. split; [done|]. split; [done|]. split; [done|]. split; [|by apply accounted_same].
    rewrite <- Eq. split; cbn [start_address rsize]; [|done|done|by intros; apply unchanged_refl].
    intros i Hi. exists v. split; [apply (source_area mm Hinv v o Hfind); rsolve|done]. }
  destruct (Z.leb_spec nl ol); [|by apply remap_grow].
  destruct (shrink_in_place_spec mm Hinv v o ol Hfind Hold Hsub nl) as (ps & mm' & E & I' & M);
    [lia|tauto|]. eexists _, _. split; [done|]. split; [done|]. by split.
Qed.
End Dispatch.

Lemma mremap_spec mm old_addr old_len new_len dest : mm_inv mm ->
  remap_bounds old_addr old_len new_len dest ->
  (forall v, find_vma mm old_addr = Some v ->
     kind_span (kind v) (old_addr - start_address (region v) + round_up new_len PAGE_SIZE)) ->
  exists res mm', mremap mm old_addr old_len new_len dest = Return (res, mm') /\ mm_inv mm' /\
    match res with
    | Ok (addr, ps) => exists v, find_vma mm old_addr = Some v /\ placed dest old_addr addr /\
        remapped mm mm' v (mkRegion old_addr (round_up old_len PAGE_SIZE))
                          (mkRegion addr (round_up new_len PAGE_SIZE)) /\ accounted mm ps mm'
    | Err _ => remap_failed mm mm' dest (round_up new_len PAGE_SIZE) /\ remap_lost mm mm' dest
    end.
Proof.
  intros Hinv [(Ho & Hol & Hob) (Hn & Hnb) Hdb] Hspan.
  destruct (round_up_spec old_len PAGE_SIZE ltac:(done)) as [Hro Hrom].
  destruct (round_up_spec new_len PAGE_SIZE ltac:(done)) as [Hrn Hrnm].
  set (ol := round_up old_len PAGE_SIZE) in *. set (nl := round_up new_len PAGE_SIZE) in *.
  assert (HP : PAGE_SIZE = 4096) by done.
  assert (Herr : forall e, exists res mm',
    (Return (Err e, mm) : outcome (result (Z * list Z) * MemoryMap AS)) = Return (res, mm') /\ mm_inv mm' /\
    match res with
    | Ok (addr, ps) => exists v, find_vma mm old_addr = Some v /\ placed dest old_addr addr /\
        remapped mm mm' v (mkRegion old_addr ol) (mkRegion addr nl) /\ accounted mm ps mm'
    | Err _ => remap_failed mm mm' dest nl /\ remap_lost mm mm' dest
    end).
  { intros e. eexists _, _. split; [done|]. split; [done|]. split; [intros a _; apply agree_refl|].
    exists []. split; [by apply accounted_same|done]. }
  unfold mremap. destruct (_ || _) eqn:Eg; [apply Herr|].
  apply orb_false_iff in Eg as [Eg En]. apply orb_false_iff in Eg as [Ea El]. breflect.
  apply is_page_aligned_spec in Ea. rewrite !align_len_eq by lia. fold ol nl.
  destruct (find_vma mm old_addr) as [v|] eqn:Ef; [|apply Herr]. specialize (Hspan v eq_refl).
  destruct (source_facts mm Hinv v old_addr Ef) as (_ & Rv & Sv & _ & Hr & _).
  assert (Hold : aligned_region (mkRegion old_addr ol))
    by (unfold aligned_region, region_ok; simpl; repeat split; done || lia).
  rewrite !end_address_eq by (apply Hold || done). cbn [start_address rsize].
  destruct (_ >? _) eqn:Eend; [apply Herr|]. breflect.
  assert (Hres : forall r, remap_result mm old_addr ol nl dest v r -> exists res mm', r = Return (res, mm') /\
    mm_inv mm' /\ match res with
    | Ok (addr, ps) => exists v0, Some v = Some v0 /\ placed dest old_addr addr /\
        remapped mm mm' v0 (mkRegion old_addr ol) (mkRegion addr nl) /\ accounted mm ps mm'
    | Err _ => remap_failed mm mm' dest nl /\ remap_lost mm mm' dest
    end).
  { intros r (res & mm' & -> & I' & M). exists res, mm'. do 2 (split; [done|]).
    destruct res as [[addr q]|e]; [|done]. by exists v. }
  apply Hres. assert (Hnl : 0 < nl /\ nl mod PAGE_SIZE = 0 /\ old_addr + nl < 2 ^ 64) by (repeat split; done || lia).
  destruct dest as [| |n]; [by apply remap_in_place|by apply remap_in_place|].
  destruct (is_page_aligned n) eqn:Ean; simpl; [|by apply remap_err].
  destruct (_ || _) eqn:Eov; [by apply remap_err|]. apply orb_false_iff in Eov as [_ Eov].
  apply is_page_aligned_spec in Ean. destruct (Hdb n eq_refl).
  apply remap_fixed; try done. unfold aligned_region, region_ok. simpl. repeat split; done || lia.
Qed.

End Remap.

(** ** A concrete run *)

Lemma page_no_iff va va' : va mod PAGE_SIZE = 0 -> page_no va = page_no va' <-> page_of va' = va.
Proof.
  intros Ha. unfold page_no, page_of. pose proof (Z.div_mod va PAGE_SIZE ltac:(done)).
  pose proof (Z.div_mod va' PAGE_SIZE ltac:(done)).
  pose proof (Z.mod_pos_bound va' PAGE_SIZE ltac:(done)). unfold PAGE_SIZE in *. lia.
Qed.

#[export] Instance PageTable_map_laws : MapPageLaws PageTable.
Proof.
  split.
  - intros a va. cbn [as_translate PageTable_space]. f_equal. symmetry.
    apply page_no_iff; [by apply round_down_multiple|done].
  - intros a pfn va p va' Hva. cbn [as_translate as_map_page PageTable_space].
    pose proof (page_no_iff va va' Hva) as Hp. destruct (a !! page_no va); [done|]. cbn [fst snd].
    case_decide as E; [|rewrite lookup_insert_ne; tauto].
    by rewrite (proj2 Hp E), lookup_insert_eq.
  - intros a va va' Hva. cbn [as_translate as_unmap PageTable_space].
    pose proof (page_no_iff va va' Hva) as Hp.
    destruct (a !! page_no va) eqn:Ea; cbn [snd]; case_decide as E.
    + by rewrite (proj2 Hp E), lookup_delete_eq.
    + rewrite lookup_delete_ne; tauto.
    + by rewrite <- (proj2 Hp E).
    + done.
Qed.

