(* ===== verification/MmapSys.v ===== *)
(** * The memory system calls

    Models src/memory/mmap.rs.  The state of a call is the virtual memory of the
    process and the page allocator.  The file table of the process is a parameter, and
    so is the identity of a new shared backing object. *)
From Stdlib Require Import String.
From stdpp Require Import gmap.
From S2P Require Import Prelude BTree Error Address Region Phys PhysInv PhysInit.
From S2P Require Import Vma MemoryMap MemoryMapInv MemoryMapOps MemoryMapThms.
From S2P Require Import MemoryFrames ProcVm MemoryRemap.
Local Open Scope Z_scope.

Notation PROT_READ := (1).
Notation PROT_WRITE := (2).
Notation PROT_EXEC := (4).

Notation MAP_SHARED := (1).
Notation MAP_PRIVATE := (2).
Notation MAP_FIXED := (16).
Notation MAP_FIXED_NOREPLACE := (1048576).
Notation MAP_ANON := (32).
Notation MAP_ANONYMOUS := (32).

Notation MREMAP_MAYMOVE := (1).
Notation MREMAP_FIXED := (2).
Notation MREMAP_DONTUNMAP := (4).

(** The static is never written. *)
Notation MMAP_MIN_ADDR := (4096).

(** [flags & m != 0] *)
Definition has_flag (flags m : Z) : bool := negb (Z.land flags m =? 0).

Definition prot_to_perms (prot : Z) : VMAPermissions :=
  mkPerms (has_flag prot PROT_READ) (has_flag prot PROT_WRITE) (has_flag prot PROT_EXEC).

(** What the call uses of an open file. *)
Record OpenFd := mkOpenFd { fd_inode : option Z; fd_path : option string }.

Section MmapSys.
Context {AS : Type} `{UserAddressSpace AS} {L : Type} `{IntrusiveList L}.
Notation FA := (@FrameAllocatorInner L).

(** The allocator is absent until it is initialised. *)
Record MemState := mkMem { mem_vm : ProcessVM AS; page_alloc : option FA }.

(** A call of the memory map under the lock of the process. *)
Definition on_map {A : Type} (s : MemState) (o : outcome (result A * MemoryMap AS))
    : outcome (result A * MemState) :=
  let! (r, mm) := o in Return (r, mkMem (set_mm (mem_vm s) mm) (page_alloc s)).

Definition mem_mm (s : MemState) : MemoryMap AS := vm_mm (mem_vm s).

Fixpoint drop_pages (al : FA) (pages : list Z) : outcome FA :=
  match pages with
  | [] => Return al
  | p :: pages' => let! al := page_alloc_drop al (as_phys_range p) in drop_pages al pages'
  end.

Definition free_unmapped_pages (s : MemState) (pages : list Z) : outcome (result unit * MemState) :=
  match pages with
  | [] => Return (Ok tt, s)
  | _ =>
      match page_alloc s with
      | None => Return (Err NoMemory, s)
      | Some al => let! al := drop_pages al pages in Return (Ok tt, mkMem (mem_vm s) (Some al))
      end
  end.

(** The kind and the name of the new area. *)
Definition mapping_kind_of (fd_table : Z -> option OpenFd) (new_backing : Z) (is_anon is_shared : bool)
    (len fd offset : Z) : result (VMAreaKind * string) :=
  if is_anon then
    if negb (offset =? 0) then Err InvalidValue
    else Ok (if is_shared then SharedAnon (mkSharedMapping new_backing 0) else Anon, EmptyString)
  else
    match fd_table fd with
    | None => Err BadFd
    | Some f =>
        match fd_inode f with
        | None => Err BadFd
        | Some i => Ok (new_file i offset len, default EmptyString (fd_path f))
        end
    end.

Definition address_request_of (addr flags : Z) : AddressRequest :=
  if addr =? 0 then Any
  else if has_flag flags MAP_FIXED_NOREPLACE then Fixed addr false
  else if has_flag flags MAP_FIXED then Fixed addr true
  else Hint addr.

Definition sys_mmap (fd_table : Z -> option OpenFd) (new_backing : Z) (s : MemState)
    (addr len prot flags fd offset : Z) : outcome (result Z * MemState) :=
  if len =? 0 then Return (Err InvalidValue, s)
  else
    let mapping_kind := Z.land flags (Z.lor MAP_SHARED MAP_PRIVATE) in
    if (mapping_kind =? 0) || (mapping_kind =? Z.lor MAP_SHARED MAP_PRIVATE) then
      Return (Err InvalidValue, s)
    else
      let is_shared := has_flag flags MAP_SHARED in
      let is_anon := has_flag flags (Z.lor MAP_ANON MAP_ANONYMOUS) in
      if is_shared && negb is_anon then Return (Err NotSupported, s)
      else if has_flag flags MAP_FIXED && has_flag flags MAP_FIXED_NOREPLACE then
        Return (Err InvalidValue, s)
      else if has_flag flags (Z.lor MAP_FIXED MAP_FIXED_NOREPLACE) &&
              (negb (is_page_aligned addr) || (addr <? MMAP_MIN_ADDR)) then
        Return (Err InvalidValue, s)
      else
        match mapping_kind_of fd_table new_backing is_anon is_shared len fd offset with
        | Err e => Return (Err e, s)
        | Ok (k, nm) =>
            let? (r, s) := on_map s (mmap_replacing (mem_mm s) (address_request_of addr flags) len
                                       (prot_to_perms prot) k nm) in
            let? (_u, s) := free_unmapped_pages s r.2 in
            Return (Ok r.1, s)
        end.

Definition sys_munmap (s : MemState) (addr len : Z) : outcome (result Z * MemState) :=
  let? (pages, s) := on_map s (munmap (mem_mm s) (mkRegion addr len)) in
  let? (_u, s) := free_unmapped_pages s pages in
  Return (Ok 0, s).

(** The destination that the flags ask for. *)
Definition remap_destination (old_addr old_len new_len flags new_addr : Z)
    : outcome (result RemapDestination) :=
  if has_flag flags MREMAP_FIXED then
    if negb (has_flag flags MREMAP_MAYMOVE) || negb (is_page_aligned new_addr) then
      Return (Err InvalidValue)
    else
      let! old_region := align_to_page_boundary (mkRegion old_addr old_len) in
      let! new_region := align_to_page_boundary (mkRegion new_addr new_len) in
      if overlaps old_region new_region then Return (Err InvalidValue)
      else Return (Ok (RemapFixed new_addr))
  else if has_flag flags MREMAP_MAYMOVE then Return (Ok MayMove)
  else Return (Ok InPlaceOnly).

Definition sys_mremap (s : MemState) (old_addr old_len new_len flags new_addr : Z)
    : outcome (result Z * MemState) :=
  if has_flag flags (unot (Z.lor (Z.lor MREMAP_MAYMOVE MREMAP_FIXED) MREMAP_DONTUNMAP)) then
    Return (Err InvalidValue, s)
  else if old_len =? 0 then Return (Err InvalidValue, s)
  else if (new_len =? 0) || negb (is_page_aligned old_addr) then Return (Err InvalidValue, s)
  else if has_flag flags MREMAP_DONTUNMAP then Return (Err InvalidValue, s)
  else
    let! d := remap_destination old_addr old_len new_len flags new_addr in
    match d with
    | Err e => Return (Err e, s)
    | Ok destination =>
        let? (r, s) := on_map s (mremap (mem_mm s) old_addr old_len new_len destination) in
        let? (_u, s) := free_unmapped_pages s r.2 in
        Return (Ok r.1, s)
    end.

Definition sys_mprotect (s : MemState) (addr len prot : Z) : outcome (result Z * MemState) :=
  let? (_u, s) := on_map s (mprotect (mem_mm s) (mkRegion addr len) (prot_to_perms prot)) in
  Return (Ok 0, s).

(** [sys_brk] acts on the virtual memory alone. *)
Definition mem_brk (s : MemState) (addr : Z) : outcome (Z * MemState) :=
  let! (x, vm) := sys_brk (mem_vm s) addr in Return (x, mkMem vm (page_alloc s)).
End MmapSys.
Arguments MemState : clear implicits.

(** * Correctness *)

Section MmapSysCorrect.
Context {AS : Type} `{UserAddressSpaceLaws AS} `{!MapPageLaws AS} `{!FrameLaws AS}.
Context {L : Type} `{IntrusiveListLaws L}.
Notation FA := (@FrameAllocatorInner L).
Implicit Types s : MemState AS L.

(** ** References to frames *)

(** The references that the allocator counts for a frame. *)
Definition held (al : FA) (p : Z) : Z :=
  match st al p with Some (AllocatedHead info) => ref_count info | _ => 0 end.

(** The references beyond those of [refs]: they belong to someone else. *)
Definition spare (al : FA) (refs : list Z) (p : Z) : Z :=
  held al p - Z.of_nat (count_occ Z.eq_dec refs p).

Definition backed (al : FA) (refs : list Z) : Prop := forall p, 0 <= spare al refs p.

Lemma spare_perm al refs refs' p : refs ≡ₚ refs' -> spare al refs p = spare al refs' p.
Proof. intros Hp. unfold spare. rewrite (Permutation_count_occ Z.eq_dec) in Hp. by rewrite Hp. Qed.

Lemma held_ext al al' q :
  (forall i, st al' q = Some (AllocatedHead i) <-> st al q = Some (AllocatedHead i)) ->
  held al' q = held al q.
Proof.
  intros Hx. unfold held.
  assert (Hn : forall j, st al' q = Some (AllocatedHead j) ->
    match st al q with Some (AllocatedHead i) => ref_count i | _ => 0 end = ref_count j)
    by (intros j Hj; by rewrite (proj1 (Hx j) Hj)).
  destruct (st al' q) as [[| |j| | |]|]; try (symmetry; by apply Hn);
    (destruct (st al q) as [[| |i| | |]|]; try done; discriminate (proj2 (Hx i) eq_refl)).
Qed.

(** Dropping a held frame gives back one reference to it. *)
Lemma drop_held al p : wf al -> 0 < held al p ->
  exists al', page_alloc_drop al (as_phys_range p) = Return al' /\ wf al' /\
    forall q, held al' q = held al q - if decide (q = p) then 1 else 0.
Proof.
  intros W Hp. unfold held in Hp. destruct (st al p) as [x|] eqn:Ep; [|lia].
  destruct x as [| |info| | |]; try lia.
  assert (Hb : block al p (order info)) by (by exists (AllocatedHead info)).
  pose proof (i_fits al (wf_inv al W) p _ Hb) as (Ho & _ & Hp0 & Hp1).
  pose proof (i_geom al (wf_inv al W)) as (Hg0 & Hg1 & Hg2).
  pose proof (pow2_pos (order info) ltac:(lia)) as Hpos.
  destruct (free_frames_spec al p info PAGE_SIZE W Ep) as (al' & E & W' & Hs & Hpost).
  exists al'. split; [unfold page_alloc_drop, as_phys_range; rewrite pa_eq by (unfold PAGE_SIZE; lia); exact E|].
  split; [done|]. intros q. destruct (decide (q = p)) as [->|Hq].
  - unfold held. rewrite Ep. case_decide as Hr; [destruct Hpost as [-> _]; done|].
    destruct Hpost as [Hn _]. assert (ref_count info = 1) as -> by lia.
    destruct (st al' p) as [x|] eqn:E'; [|done]. destruct x; try done.
    exfalso. apply (Hn (order info0)). by exists (AllocatedHead info0).
  - rewrite Z.sub_0_r. apply held_ext. intros i. by apply Hs.
Qed.

Lemma drop_pages_spec ps refs : forall al, wf al -> backed al (ps ++ refs) ->
  exists al', drop_pages al ps = Return al' /\ wf al' /\
    forall p, spare al' refs p = spare al (ps ++ refs) p.
Proof.
  induction ps as [|x ps IH]; intros al W Hb; [by exists al|]. cbn [drop_pages app] in *.
  pose proof (Hb x) as Hx. unfold spare in Hx. cbn [count_occ] in Hx.
  destruct (Z.eq_dec x x) as [_|]; [|done]. rewrite Nat2Z.inj_succ in Hx.
  destruct (drop_held al x W ltac:(lia)) as (al1 & -> & W1 & Hd). ostep.
  assert (Hsp : forall p, spare al1 (ps ++ refs) p = spare al (x :: ps ++ refs) p).
  { intros p. unfold spare. rewrite Hd. cbn [count_occ]. destruct (Z.eq_dec x p) as [->|Hne].
    - rewrite decide_True, Nat2Z.inj_succ by done. lia.
    - rewrite decide_False by done. lia. }
  destruct (IH al1 W1) as (al' & -> & W' & Hs); [intros p; rewrite Hsp; apply Hb|].
  exists al'. split; [done|]. split; [done|]. intros p. by rewrite Hs.
Qed.

(** ** The allocator in terms of references *)

Lemma held_free (al : FA) b : wf al -> free_page al b -> held al b = 0.
Proof.
  intros W (p & o & Hp & Hr). unfold held.
  destruct (st al b) as [[| |i| | |]|] eqn:Eb; try done. exfalso.
  assert (Hbb : block al b (order i)) by (by exists (AllocatedHead i)).
  assert (Hbp : block al p o) by (by exists (Free o)).
  destruct (decide (p = b)) as [->|Hne]; [congruence|].
  pose proof (block_pow al b _ (wf_inv al W) Hbb).
  destruct (i_disj al (wf_inv al W) _ _ _ _ Hbp Hbb Hne) as [?|?]; lia.
Qed.

Lemma alloc_held (al : FA) : wf al ->
  exists res al', alloc_frames al 0 = Return (res, al') /\ wf al' /\
    match res with
    | Ok reg => exists b, to_pfn (start_address reg) = b /\ held al b = 0 /\
        forall q, held al' q = held al q + if decide (q = b) then 1 else 0
    | Err e => e = NoMemory /\ al' = al
    end.
Proof.
  intros W. destruct (alloc_frames_spec al 0 W ltac:(lia)) as (res & al' & E & W' & P).
  exists res, al'. split; [done|]. split; [done|]. destruct res as [reg|e]; simpl in P.
  2: { destruct e; try (by destruct P as (? & _)); try (destruct P as [P _]; unfold MAX_ORDER in P; lia).
       by destruct P as (_ & _ & -> & _). }
  destruct P as (b & -> & _ & Hfree & _ & Hst & Hown & _). exists b. cbn [start_address].
  rewrite to_pfn_page. split; [done|].
  assert (Hb : held al b = 0) by (apply held_free; [done|apply Hfree; lia]).
  split; [done|]. intros q. destruct (decide (q = b)) as [->|Hq]; [unfold held in *; rewrite Hst; simpl; lia|].
  rewrite Z.add_0_r. apply held_ext. intros i. by apply Hown.
Qed.

Lemma held_block (al : FA) p : wf al -> 0 < held al p ->
  exists info, st al p = Some (AllocatedHead info) /\ ref_count info = held al p /\
    0 <= p /\ p * PAGE_SIZE < 2 ^ 64 /\ base_page al <= p < base_page al + total_pages al.
Proof.
  intros W Hp. unfold held in *. destruct (st al p) as [x|] eqn:Ep; [|lia].
  destruct x as [| |info| | |]; try lia. exists info. split; [done|]. split; [done|].
  assert (Hb : block al p (order info)) by (by exists (AllocatedHead info)).
  pose proof (i_fits al (wf_inv al W) p _ Hb) as (Ho & _ & Hp0 & Hp1).
  pose proof (i_geom al (wf_inv al W)) as (Hg0 & Hg1 & Hg2).
  pose proof (pow2_pos (order info) ltac:(lia)). unfold PAGE_SIZE. lia.
Qed.

Lemma clone_held (al : FA) p : wf al -> 0 < held al p < 2 ^ 32 - 1 ->
  exists al', page_alloc_clone al (as_phys_range p) = Return al' /\ wf al' /\
    forall q, held al' q = held al q + if decide (q = p) then 1 else 0.
Proof.
  intros W Hp. destruct (held_block al p W ltac:(lia)) as (info & Ep & Er & H0' & H1' & _).
  destruct (page_alloc_clone_spec al p info PAGE_SIZE W Ep) as (al' & E & W' & S1 & S2 & _).
  exists al'. split; [unfold as_phys_range; rewrite pa_eq by done; exact E|]. split; [done|].
  intros q. destruct (decide (q = p)) as [->|Hq].
  - unfold held at 1. rewrite S1. cbn [ref_count]. rewrite Z.mod_small by lia. lia.
  - rewrite Z.add_0_r. apply held_ext. intros i. by rewrite S2.
Qed.

Lemma exclusive_held (al : FA) p : wf al -> 0 < held al p ->
  is_allocated_exclusive al p = Return (held al p =? 1).
Proof.
  intros W Hp. destruct (held_block al p W Hp) as (info & Ep & <- & _ & _ & Hr).
  unfold is_allocated_exclusive. cbn [follow_head].
  destruct (get_frame_ok al p (wf_inv al W) Hr) as (f & Hf & ->). ostep.
  apply st_frame in Ep as (f' & Hf' & Ef). rewrite Hf in Hf'. injection Hf' as <-. by rewrite Ef.
Qed.

(** ** The invariant *)

Definition mem_frames s : list Z := mm_frames (mem_mm s).

(** The program break is page-aligned. *)
Definition brk_ok (r : MemoryRegion) : Prop :=
  region_ok r /\ start_address r mod PAGE_SIZE = 0 /\ rsize r mod PAGE_SIZE = 0.

(** Page tables permit no more than the areas, the allocator is consistent, and it
    counts at least one reference for every page that maps a frame. *)
Record mem_inv s : Prop := {
  mem_map : mm_inv (mem_mm s);
  mem_brk_ok : brk_ok (brk (mem_vm s));
  mem_alloc : exists al, page_alloc s = Some al /\ wf al /\ backed al (mem_frames s)
}.

Definition mem_spare s (p : Z) : Z :=
  match page_alloc s with Some al => spare al (mem_frames s) p | None => 0 end.

(** After the map has given up the frames [ps]. *)
Lemma free_unmapped_spec s mm' ps : mem_inv s -> mm_inv mm' -> accounted (mem_mm s) ps mm' ->
  let s1 := mkMem (set_mm (mem_vm s) mm') (page_alloc s) in
  exists al', free_unmapped_pages s1 ps = Return (Ok tt, mkMem (set_mm (mem_vm s) mm') (Some al')) /\
    mem_inv (mkMem (set_mm (mem_vm s) mm') (Some al')) /\
    forall p, mem_spare (mkMem (set_mm (mem_vm s) mm') (Some al')) p = mem_spare s p.
Proof.
  intros [_ Hbrk (al & Eal & W & Hb)] Hmm' Hacc. unfold accounted in Hacc. fold (mem_frames s) in Hacc.
  assert (Hb' : backed al (ps ++ mm_frames mm')) by (intros p; rewrite <- (spare_perm _ _ _ p Hacc); apply Hb).
  destruct (drop_pages_spec ps (mm_frames mm') al W Hb') as (al' & E & W' & Hs).
  exists al'. split; [|split].
  - unfold free_unmapped_pages. cbn [page_alloc mem_vm]. rewrite Eal. destruct ps as [|x ps].
    + simpl in E. by injection E as <-.
    + rewrite E. done.
  - split; [done|done|]. exists al'. split; [done|]. split; [done|]. intros p. unfold mem_frames. cbn.
    rewrite Hs. apply Hb'.
  - intros p. unfold mem_spare, mem_frames. cbn. rewrite Hs, Eal. symmetry. by apply spare_perm.
Qed.

(** The map gave up [lost], which nobody frees. *)
Lemma lost_spec s vm' lost : mem_inv s -> mm_inv (vm_mm vm') -> brk_ok (brk vm') ->
  accounted (mem_mm s) lost (vm_mm vm') ->
  let s' := mkMem vm' (page_alloc s) in
  mem_inv s' /\ forall p, mem_spare s' p = mem_spare s p + Z.of_nat (count_occ Z.eq_dec lost p).
Proof.
  intros [_ _ (al & Eal & W & Hb)] Hmm' Hbrk Hacc. cbv zeta.
  assert (Hs : forall p, spare al (mm_frames (vm_mm vm')) p =
    spare al (mem_frames s) p + Z.of_nat (count_occ Z.eq_dec lost p)).
  { intros p. rewrite (spare_perm al (mem_frames s) _ p Hacc). unfold spare.
    rewrite count_occ_app, Nat2Z.inj_add. lia. }
  split.
  - split; [done|done|]. exists al. split; [done|]. split; [done|]. intros p.
    unfold mem_frames, mem_mm. cbn [mem_vm]. rewrite Hs. specialize (Hb p). lia.
  - intros p. unfold mem_spare. cbn [page_alloc]. rewrite Eal. apply Hs.
Qed.

Lemma mem_eta s : mkMem (set_mm (mem_vm s) (mem_mm s)) (page_alloc s) = s.
Proof. by destruct s as [[m b] al]. Qed.

(** ** munmap, mprotect *)

Lemma sys_munmap_spec s addr len : mem_inv s -> 0 <= addr -> 0 <= len ->
  addr + len + PAGE_SIZE < 2 ^ 64 ->
  exists res s', sys_munmap s addr len = Return (res, s') /\ mem_inv s' /\
    (forall p, mem_spare s' p = mem_spare s p) /\
    match res with
    | Ok x => x = 0 /\ forall a,
        if decide (a ∈ munmap_range (mkRegion addr len))
        then find_vma (mem_mm s') a = None /\ as_translate (address_space (mem_mm s')) a = None
        else unchanged_at (mem_mm s) (mem_mm s') a
    | Err e => e = InvalidValue /\ s' = s /\ (addr mod PAGE_SIZE <> 0 \/ len = 0)
    end.
Proof.
  intros I Ha Hl Hb. pose proof (mem_map s I) as Imm. unfold sys_munmap, on_map.
  assert (Hr : region_ok (mkRegion addr len)) by (unfold region_ok, PAGE_SIZE in *; simpl; lia).
  destruct (munmap_spec (mem_mm s) (mkRegion addr len) Imm Hr Hb) as (res & mm' & E & I' & M).
  rewrite E. ostep. destruct res as [ps|e]; cbn [tbind].
  - apply munmap_accounted in E; [|done..].
    destruct (free_unmapped_spec s mm' ps I I' E) as (al' & Ef & If & Hs). rewrite Ef. cbn [tbind].
    eexists _, _. split; [done|]. split; [done|]. by split.
  - destruct M as (-> & -> & M). rewrite mem_eta. eexists _, _. split; [done|]. by split.
Qed.

Lemma sys_mprotect_spec s addr len prot : mem_inv s -> aligned_region (mkRegion addr len) ->
  exists res s', sys_mprotect s addr len prot = Return (res, s') /\ mem_inv s' /\
    forall p, mem_spare s' p = mem_spare s p.
Proof.
  intros I Hr. pose proof (mem_map s I) as Imm. unfold sys_mprotect, on_map.
  destruct (mprotect_spec (mem_mm s) _ (prot_to_perms prot) Imm Hr) as (res & mm' & E & I' & _ & M).
  rewrite E. ostep. apply mprotect_accounted in E; [|done..].
  destruct (lost_spec s (set_mm (mem_vm s) mm') [] I I' (mem_brk_ok s I) E) as [If Hs].
  assert (Hs' : forall p, mem_spare (mkMem (set_mm (mem_vm s) mm') (page_alloc s)) p = mem_spare s p)
    by (intros p; rewrite Hs; simpl; lia).
  destruct res as [u|e]; cbn [tbind]; eexists _, _; (split; [done|]); by split.
Qed.

(** ** mmap *)

Lemma mapping_kind_span fds nb anon sh len fd off k nm : 0 <= len -> 0 <= off -> off + len + PAGE_SIZE < 2 ^ 64 ->
  mapping_kind_of fds nb anon sh len fd off = Ok (k, nm) -> kind_span k (len + PAGE_SIZE).
Proof.
  intros Hl Ho Hb. unfold mapping_kind_of. destruct anon.
  - bcase; [done|]. intros [= <- <-]. destruct sh; simpl; [unfold PAGE_SIZE in *; lia|done].
  - destruct (fds fd) as [f|]; [|done]. destruct (fd_inode f); [|done]. intros [= <- <-]. simpl. lia.
Qed.

Lemma address_request_ok addr flags len : 0 <= addr -> 0 <= len -> addr + len < 2 ^ 64 ->
  request_ok (address_request_of addr flags) len.
Proof. intros. unfold address_request_of. bcases; simpl; lia || done. Qed.

Lemma sys_mmap_spec fds nb s addr len prot flags fd off : mem_inv s -> 0 <= addr -> 0 <= len ->
  addr + len + PAGE_SIZE < 2 ^ 64 -> 0 <= off -> off + len + PAGE_SIZE < 2 ^ 64 ->
  exists res s', sys_mmap fds nb s addr len prot flags fd off = Return (res, s') /\ mem_inv s' /\
    (forall p, mem_spare s' p = mem_spare s p) /\
    match res with
    | Ok x => exists k nm, mapping_kind_of fds nb (has_flag flags (Z.lor MAP_ANON MAP_ANONYMOUS))
          (has_flag flags MAP_SHARED) len fd off = Ok (k, nm) /\
        mapped_at (mem_mm s) (mem_mm s') (address_request_of addr flags)
          (mkRegion x (round_up len PAGE_SIZE)) k (prot_to_perms prot) true
    | Err _ => s' = s
    end.
Proof.
  intros I Ha Hl Hb Ho Hob. pose proof (mem_map s I) as Imm. unfold sys_mmap.
  assert (Herr : forall e, exists res s', (Return (Err e, s) : outcome (result Z * MemState AS L)) =
    Return (res, s') /\ mem_inv s' /\ (forall p, mem_spare s' p = mem_spare s p) /\
    match res with
    | Ok x => exists k nm, mapping_kind_of fds nb (has_flag flags (Z.lor MAP_ANON MAP_ANONYMOUS))
          (has_flag flags MAP_SHARED) len fd off = Ok (k, nm) /\
        mapped_at (mem_mm s) (mem_mm s') (address_request_of addr flags)
          (mkRegion x (round_up len PAGE_SIZE)) k (prot_to_perms prot) true
    | Err _ => s' = s
    end) by (intros e; by eexists _, _).
  do 5 (bcase; [apply Herr|]).
  destruct (mapping_kind_of _ _ _ _ _ _ _) as [[k nm]|e] eqn:Ek; [|apply Herr]. clear Herr.
  pose proof (mapping_kind_span _ _ _ _ _ _ _ _ _ Hl Ho Hob Ek) as Hk.
  assert (Hlen : len + PAGE_SIZE < 2 ^ 64) by lia.
  assert (Hreq : request_ok (address_request_of addr flags) (len + PAGE_SIZE))
    by (apply address_request_ok; unfold PAGE_SIZE in *; lia).
  destruct (mmap_spec (mem_mm s) _ len (prot_to_perms prot) k nm true Imm Hl Hlen Hreq Hk)
    as (res & mm' & Em & I' & M).
  unfold on_map. unfold mmap_replacing at 1. rewrite Em. ostep. destruct res as [[x ps]|e]; cbn [tbind].
  - apply mmap_replacing_accounted in Em; [|done..].
    destruct (free_unmapped_spec s mm' ps I I' Em) as (al' & Ef & If & Hs). cbn [snd]. rewrite Ef. cbn [tbind].
    eexists _, _. split; [done|]. split; [done|]. split; [done|]. exists k, nm. split; [done|]. apply M.
  - destruct M as (-> & _). rewrite mem_eta. eexists _, _. split; [done|]. by split.
Qed.

(** ** mremap *)

Lemma remap_destination_total old_addr old_len new_len flags new_addr : 0 <= old_addr -> 0 <= old_len ->
  old_addr + old_len + PAGE_SIZE < 2 ^ 64 -> 0 <= new_addr -> 0 <= new_len ->
  new_addr + new_len + PAGE_SIZE < 2 ^ 64 ->
  exists d, remap_destination old_addr old_len new_len flags new_addr = Return d /\
    forall n, d = Ok (RemapFixed n) -> n = new_addr.
Proof.
  intros. unfold remap_destination, PAGE_SIZE in *.
  assert (Hr : forall a l, 0 <= a -> 0 <= l -> a + l + 4096 < 2 ^ 64 ->
    exists r, align_to_page_boundary (mkRegion a l) = Return r).
  { intros a l ? ? ?. eexists. apply align_to_page_boundary_eq;
      [unfold region_ok; simpl; lia|simpl; unfold PAGE_SIZE; lia]. }
  bcase; [|bcase; eexists; (split; [done|]); by intros].
  bcase; [eexists; split; [done|]; by intros|].
  destruct (Hr old_addr old_len) as [r ->]; [lia..|]. ostep.
  destruct (Hr new_addr new_len) as [r' ->]; [lia..|]. ostep.
  bcase; eexists; (split; [done|]); intros n; congruence.
Qed.

Lemma sys_mremap_spec s old_addr old_len new_len flags new_addr : mem_inv s ->
  0 <= old_addr -> 0 <= old_len -> old_addr + old_len + PAGE_SIZE < 2 ^ 64 ->
  0 <= new_addr -> 0 <= new_len -> new_addr + new_len + PAGE_SIZE < 2 ^ 64 ->
  old_addr + new_len + PAGE_SIZE < 2 ^ 64 ->
  (forall v, find_vma (mem_mm s) old_addr = Some v ->
     kind_span (kind v) (old_addr - start_address (region v) + round_up new_len PAGE_SIZE)) ->
  exists res s', sys_mremap s old_addr old_len new_len flags new_addr = Return (res, s') /\ mem_inv s' /\
    match res with
    | Ok x => (forall p, mem_spare s' p = mem_spare s p) /\
        exists v, find_vma (mem_mm s) old_addr = Some v /\
          remapped (mem_mm s) (mem_mm s') v (mkRegion old_addr (round_up old_len PAGE_SIZE))
            (mkRegion x (round_up new_len PAGE_SIZE))
    | Err _ => forall p, mem_spare s p <= mem_spare s' p
    end.
Proof.
  intros I Ho Hol Hob Hn Hnl Hnb Hb Hk. pose proof (mem_map s I) as Imm. unfold sys_mremap.
  assert (Herr : forall e, exists res s', (Return (Err e, s) : outcome (result Z * MemState AS L)) =
    Return (res, s') /\ mem_inv s' /\
    match res with
    | Ok x => (forall p, mem_spare s' p = mem_spare s p) /\
        exists v, find_vma (mem_mm s) old_addr = Some v /\
          remapped (mem_mm s) (mem_mm s') v (mkRegion old_addr (round_up old_len PAGE_SIZE))
            (mkRegion x (round_up new_len PAGE_SIZE))
    | Err _ => forall p, mem_spare s p <= mem_spare s' p
    end) by (intros e; by eexists _, _).
  do 4 (bcase; [apply Herr|]).
  destruct (remap_destination_total old_addr old_len new_len flags new_addr) as (d & Ed & Hd); [done..|].
  rewrite Ed. ostep. destruct d as [dest|e]; [|apply Herr]. clear Herr.
  destruct (mremap_spec (mem_mm s) old_addr old_len new_len dest Imm) as (res & mm' & Em & I' & M);
    [split; [done|done|by intros n ->; rewrite (Hd n eq_refl)]|done|].
  unfold on_map. rewrite Em. ostep. destruct res as [[x ps]|e]; cbn [tbind].
  - destruct M as (v & Ev & _ & Hrm & Hacc).
    destruct (free_unmapped_spec s mm' ps I I' Hacc) as (al' & Ef & If & Hs). cbn [snd]. rewrite Ef. cbn [tbind].
    eexists _, _. split; [done|]. split; [done|]. split; [done|]. by exists v.
  - destruct M as (_ & lost & Hacc & _).
    destruct (lost_spec s (set_mm (mem_vm s) mm') lost I I' (mem_brk_ok s I) Hacc) as [If Hs].
    eexists _, _. split; [done|]. split; [done|]. intros p. rewrite Hs. lia.
Qed.

(** ** brk *)

(** The break moves also if the process has unmapped parts of its heap. *)
Lemma resize_brk_safe (vm : ProcessVM AS) e : mm_inv (vm_mm vm) -> brk_ok (brk vm) -> 0 <= e ->
  e + 2 * PAGE_SIZE < 2 ^ 64 -> current_brk vm + PAGE_SIZE < 2 ^ 64 ->
  exists res vm' lost, resize_brk vm e = Return (res, vm') /\ mm_inv (vm_mm vm') /\ brk_ok (brk vm') /\
    accounted (vm_mm vm) lost (vm_mm vm').
Proof.
  intros I (Rb & Sb & Zb) He Hmax Hcur. unfold resize_brk, current_brk in *.
  assert (HP : PAGE_SIZE = 4096) by done.
  rewrite end_address_eq in * by done. set (cur := start_address (brk vm) + rsize (brk vm)) in *.
  assert (Ac : cur mod PAGE_SIZE = 0) by (unfold cur; rewrite Z.add_mod, Sb, Zb by done; done).
  assert (Hsame : accounted (vm_mm vm) [] (vm_mm vm)) by (by apply accounted_same).
  destruct (Z.ltb_spec e (start_address (brk vm))) as [Hlt|Hge].
  { by eexists _, _, []. }
  unfold region_ok in Rb. destruct (round_up_spec e PAGE_SIZE ltac:(done)) as [Hru Am]. set (ne := round_up e PAGE_SIZE) in *.
  rewrite align_up_page by lia. ostep. fold ne. rewrite from_start_end_address_eq by lia. ostep.
  assert (Hnew : brk_ok (mkRegion (start_address (brk vm)) (ne - start_address (brk vm)))).
  { split; [unfold region_ok; simpl; lia|]. split; [done|]. by apply size_aligned. }
  destruct (Z.eqb_spec ne cur) as [Eq|Hneq]; [by eexists _, _, []|].
  rewrite Z.gtb_ltb. destruct (Z.ltb_spec cur ne) as [Hlt|Hge'].
  - rewrite usub_small by lia. unfold on_mm.
    destruct (mmap_spec (vm_mm vm) (Fixed cur false) (ne - cur) BRK_PERMISSIONS Anon "[heap]" false)
      as (res & mm' & E & I' & M); [done|lia|lia|simpl; lia|done|].
    assert (Em : mmap (vm_mm vm) (Fixed cur false) (ne - cur) BRK_PERMISSIONS Anon "[heap]" =
      Return (match res with Ok r => Ok r.1 | Err e => Err e end, mm'))
      by (unfold mmap; rewrite E; by destruct res).
    rewrite Em. ostep. destruct res as [[x ps]|err]; cbn [tbind].
    + eexists _, _, []. split; [done|]. split; [done|]. split; [done|].
      apply (mmap_fixed_accounted _ cur (ne - cur) BRK_PERMISSIONS Anon "[heap]" x); [done|lia|lia|lia|lia|done|exact Em].
    + destruct M as [-> _]. by eexists _, _, [].
  - rewrite from_start_end_address_eq by lia. ostep. unfold on_mm.
    assert (Hr : region_ok (mkRegion ne (cur - ne))) by (unfold region_ok; simpl; lia).
    destruct (munmap_spec (vm_mm vm) (mkRegion ne (cur - ne)) I Hr) as (res & mm' & E & I' & M); [simpl; lia|].
    rewrite E. ostep. destruct res as [ps|err]; cbn [tbind].
    + eexists _, _, ps. do 3 (split; [done|]). eapply munmap_accounted; [done|exact Hr|simpl; lia|exact E].
    + destruct M as (_ & -> & _). by eexists _, _, [].
Qed.

Lemma mem_brk_spec s addr : mem_inv s -> 0 <= addr -> addr + 2 * PAGE_SIZE < 2 ^ 64 ->
  current_brk (mem_vm s) + PAGE_SIZE < 2 ^ 64 ->
  exists x s', mem_brk s addr = Return (x, s') /\ mem_inv s' /\ forall p, mem_spare s p <= mem_spare s' p.
Proof.
  intros I Ha Hmax Hcur. unfold mem_brk, sys_brk.
  destruct (Z.eqb_spec addr 0) as [->|Hne].
  { ostep. eexists _, _. split; [done|]. destruct s as [vm al]. by split. }
  destruct (resize_brk_safe (mem_vm s) addr (mem_map s I) (mem_brk_ok s I) Ha Hmax Hcur)
    as (res & vm' & lost & -> & I' & B' & Hacc). ostep.
  destruct (lost_spec s vm' lost I I' B' Hacc) as [If Hs].
  destruct res; ostep; (eexists _, _; split; [done|]; split; [done|]); intros p; rewrite Hs; lia.
Qed.

(** ** All calls *)

Inductive MemCall : Type :=
| CallMmap (fd_table : Z -> option OpenFd) (new_backing addr len prot flags fd offset : Z)
| CallMunmap (addr len : Z)
| CallMremap (old_addr old_len new_len flags new_addr : Z)
| CallMprotect (addr len prot : Z)
| CallBrk (addr : Z).

Definition exec s (c : MemCall) : outcome (MemState AS L) :=
  match c with
  | CallMmap fds nb addr len prot flags fd off =>
      let! (_, s) := sys_mmap fds nb s addr len prot flags fd off in Return s
  | CallMunmap addr len => let! (_, s) := sys_munmap s addr len in Return s
  | CallMremap old_addr old_len new_len flags new_addr =>
      let! (_, s) := sys_mremap s old_addr old_len new_len flags new_addr in Return s
  | CallMprotect addr len prot => let! (_, s) := sys_mprotect s addr len prot in Return s
  | CallBrk addr => let! (_, s) := mem_brk s addr in Return s
  end.

(** A range of user space: it ends at least a page below 2^64. *)
Definition user_range (addr len : Z) : Prop := 0 <= addr /\ 0 <= len /\ addr + len + PAGE_SIZE < 2 ^ 64.

(** Arguments with which no address computation wraps; [mprotect] is called for whole
    pages. *)
Definition call_ok s (c : MemCall) : Prop :=
  match c with
  | CallMmap _ _ addr len _ _ _ off => user_range addr len /\ user_range off len
  | CallMunmap addr len => user_range addr len
  | CallMremap old_addr old_len new_len _ new_addr =>
      user_range old_addr old_len /\ user_range new_addr new_len /\ user_range old_addr new_len /\
      forall v, find_vma (mem_mm s) old_addr = Some v ->
        kind_span (kind v) (old_addr - start_address (region v) + round_up new_len PAGE_SIZE)
  | CallMprotect addr len _ => aligned_region (mkRegion addr len)
  | CallBrk addr => user_range addr PAGE_SIZE /\ current_brk (mem_vm s) + PAGE_SIZE < 2 ^ 64
  end.

Definition mem_step s s' : Prop := exists c, call_ok s c /\ exec s c = Return s'.

Lemma exec_safe s c : mem_inv s -> call_ok s c ->
  exists s', exec s c = Return s' /\ mem_inv s' /\ forall p, mem_spare s p <= mem_spare s' p.
Proof.
  intros I Hc. destruct c as [fds nb addr len prot flags fd off|addr len|oa ol nl flags na|addr len prot|addr];
    cbn [call_ok exec] in *; unfold user_range in Hc.
  - destruct Hc as [(? & ? & ?) (? & _ & ?)].
    destruct (sys_mmap_spec fds nb s addr len prot flags fd off) as (res & s' & -> & I' & Hs & _); [done..|].
    ostep. exists s'. split; [done|]. split; [done|]. intros p. rewrite Hs. lia.
  - destruct Hc as (? & ? & ?). destruct (sys_munmap_spec s addr len) as (res & s' & -> & I' & Hs & _); [done..|].
    ostep. exists s'. split; [done|]. split; [done|]. intros p. rewrite Hs. lia.
  - destruct Hc as ((? & ? & ?) & (? & ? & ?) & (_ & _ & ?) & Hk).
    destruct (sys_mremap_spec s oa ol nl flags na) as (res & s' & -> & I' & Hs); [done..|].
    ostep. exists s'. split; [done|]. split; [done|]. destruct res as [x|e]; [|done].
    intros p. rewrite (proj1 Hs). lia.
  - destruct (sys_mprotect_spec s addr len prot I Hc) as (res & s' & -> & I' & Hs).
    ostep. exists s'. split; [done|]. split; [done|]. intros p. rewrite Hs. lia.
  - destruct Hc as [(? & _ & ?) ?].
    destruct (mem_brk_spec s addr) as (x & s' & -> & I' & Hs); [done|done|lia|done|].
    ostep. by exists s'.
Qed.


(** [sys_munmap] unmaps the pages of its range and gives back exactly the references
    that they held, so that no frame leaks and none is freed while it is mapped
    elsewhere; a rejected call changes nothing. *)
Theorem sys_munmap_correct s addr len : mem_inv s -> user_range addr len ->
  exists res s', sys_munmap s addr len = Return (res, s') /\ mem_inv s' /\
    (forall p, mem_spare s' p = mem_spare s p) /\
    match res with
    | Ok x => x = 0 /\ forall a,
        if decide (a ∈ munmap_range (mkRegion addr len))
        then find_vma (mem_mm s') a = None /\ as_translate (address_space (mem_mm s')) a = None
        else unchanged_at (mem_mm s) (mem_mm s') a
    | Err e => e = InvalidValue /\ s' = s /\ (addr mod PAGE_SIZE <> 0 \/ len = 0)
    end.
Proof. intros I (? & ? & ?). by apply sys_munmap_spec. Qed.

(** [sys_mmap] maps what the flags ask for and gives back exactly the references of
    the pages it replaces; a call that fails has no effect. *)
Theorem sys_mmap_correct fds nb s addr len prot flags fd off : mem_inv s -> user_range addr len ->
  user_range off len ->
  exists res s', sys_mmap fds nb s addr len prot flags fd off = Return (res, s') /\ mem_inv s' /\
    (forall p, mem_spare s' p = mem_spare s p) /\
    match res with
    | Ok x => exists k nm, mapping_kind_of fds nb (has_flag flags (Z.lor MAP_ANON MAP_ANONYMOUS))
          (has_flag flags MAP_SHARED) len fd off = Ok (k, nm) /\
        mapped_at (mem_mm s) (mem_mm s') (address_request_of addr flags)
          (mkRegion x (round_up len PAGE_SIZE)) k (prot_to_perms prot) true
    | Err _ => s' = s
    end.
Proof. intros I (? & ? & ?) (? & _ & ?). by apply sys_mmap_spec. Qed.
End MmapSysCorrect.

(** ** A concrete process *)

#[local] Existing Instance list_IntrusiveList.
#[local] Existing Instance list_IntrusiveListLaws.

(** An allocator in which frame 0 is held twice. *)
Definition demo_two : @FrameAllocatorInner (list Z) :=
  match alloc_frames demo_fa 0 with
  | Return (_, al) => match page_alloc_clone al (as_phys_range 0) with Return al => al | _ => demo_fa end
  | _ => demo_fa
  end.

Lemma demo_fa_held q : held demo_fa q = 0.
Proof.
  destruct (decide (0 <= q < 1024)) as [Hq|Hq].
  - apply (held_free demo_fa q demo_fa_wf). exists 0, 10. split; [vm_compute; reflexivity|lia].
  - unfold held, st. destruct (frames demo_fa !! q) as [f|] eqn:E; [|done]. exfalso.
    destruct (proj1 (i_dom demo_fa (wf_inv _ demo_fa_wf) q)) as [H1 H2]; [eauto|].
    assert (base_page demo_fa = 0 /\ total_pages demo_fa = 1024) as [E1 E2] by (split; vm_compute; reflexivity).
    clear E.
    lia.
Qed.

Lemma demo_two_wf : wf demo_two /\ forall q, held demo_two q = if decide (q = 0) then 2 else 0.
Proof.
  destruct (alloc_held demo_fa demo_fa_wf) as (res & al1 & E1 & W1 & P).
  assert (Er : to_pfn (match res with Ok r => start_address r | Err _ => 4096 end) = 0).
  { transitivity (to_pfn (match alloc_frames demo_fa 0 with
      | Return (Ok r, _) => start_address r | _ => 4096 end)); [rewrite E1; reflexivity|vm_compute; reflexivity]. }
  destruct res as [reg|e]; [|discriminate Er]. destruct P as (b & Eb & _ & Hh). rewrite Eb in Er. subst b.
  destruct (clone_held al1 0 W1) as (al2 & E2 & W2 & Hc).
  { rewrite Hh, demo_fa_held, Er. rewrite decide_True by reflexivity. clear. lia. }
  assert (demo_two = al2) as -> by (unfold demo_two; rewrite E1, E2; reflexivity).
  split; [exact W2|]. intros q. rewrite Hc, Hh, demo_fa_held, Er. clear. case_decide; lia.
Qed.

(** Two anonymous areas, with one page mapped to frame 0. *)
Definition demo_mem : MemState PageTable (list Z) :=
  mkMem (mkVM (mkMM (vmas demo_map) {[2 := mkPageInfo 0 (pte_rw true)]}) (mkRegion 16384 0)) (Some demo_two).

Lemma demo_mem_inv : mem_inv demo_mem.
Proof.
  split.
  - split; [apply demo_wf|]. intros va i. cbn [address_space mem_mm mem_vm demo_mem vm_mm as_translate PageTable_space].
    intros [E <-]%lookup_singleton_Some.
    exists (vma_new (mkRegion 4096 12288) Anon perms_rw). split; [|done].
    apply area_at_Some; [apply demo_wf|]. exists 4096. split; [by left|].
    unfold page_no in E. pose proof (Z.div_mod va PAGE_SIZE ltac:(done)).
    pose proof (Z.mod_pos_bound va PAGE_SIZE ltac:(done)). unfold PAGE_SIZE in *. split; simpl; lia.
  - split; [unfold region_ok; simpl; lia|split; reflexivity].
  - exists demo_two. split; [reflexivity|]. destruct demo_two_wf as [W Hh]. split; [exact W|].
    intros p. unfold spare. rewrite Hh.
    assert (E : mem_frames demo_mem = [0]) by (vm_compute; reflexivity). rewrite E. clear.
    cbn [count_occ]. destruct (Z.eq_dec 0 p) as [<-|Hne]; [rewrite decide_True by reflexivity; lia|].
    case_decide; lia.
Qed.

Definition call_result {A : Type} (o : outcome (result A * MemState PageTable (list Z))) : option (result A) :=
  match o with Return (r, _) => Some r | _ => None end.

(** Unmapping the page gives back one of the two references. *)
Lemma sys_munmap_correct_witness : exists res s',
  sys_munmap demo_mem 8192 4096 = Return (res, s') /\ mem_spare s' 0 = mem_spare demo_mem 0 /\ res = Ok 0.
Proof.
  destruct (sys_munmap_correct demo_mem 8192 4096 demo_mem_inv) as (res & s' & E & _ & Hs & _).
  - unfold user_range, PAGE_SIZE. lia.
  - exists res, s'. split; [exact E|]. split; [apply Hs|].
    assert (Er : call_result (Return (res, s')) = Some (Ok 0))
      by (rewrite <- E; vm_compute; reflexivity). injection Er as Er. exact Er.
Defined.

(** [mmap(8192, 4096, RW, PRIVATE|ANON|FIXED, -1, 0)] replaces the page. *)
Lemma sys_mmap_correct_witness : exists res s',
  sys_mmap (fun _ => None) 1 demo_mem 8192 4096 3 50 (-1) 0 = Return (res, s') /\ mem_inv s' /\ res = Ok 8192.
Proof.
  destruct (sys_mmap_correct (fun _ => None) 1 demo_mem 8192 4096 3 50 (-1) 0 demo_mem_inv) as (res & s' & E & I & _).
  - unfold user_range, PAGE_SIZE. lia.
  - unfold user_range, PAGE_SIZE. lia.
  - exists res, s'. split; [exact E|]. split; [exact I|].
    assert (Er : call_result (Return (res, s')) = Some (Ok 8192))
      by (rewrite <- E; vm_compute; reflexivity). injection Er as Er. exact Er.
Defined.


(** ** Arguments outside of user space *)

(** The end of the range wraps around, and the alignment of the range panics. *)
Theorem munmap_wrap_panics : sys_munmap demo_mem (2 ^ 64 - 4096) 8192 = Panic.
Proof. vm_compute. reflexivity. Qed.

(** Rounding up the new break wraps around to 0, below the start of the break. *)
Theorem brk_wrap_panics : mem_brk demo_mem (2 ^ 64 - 1) = Panic.
Proof. vm_compute. reflexivity. Qed.
