(* ===== verification/Fault.v ===== *)
(** * Page faults

    Models src/memory/fault.rs, src/memory/shared_anon.rs and
    libkernel/src/memory/claimed_page.rs on top of the process state of MmapSys: the
    contents of the frames are part of the state.  A fault that has to read a file is
    split where the handler awaits the read: [handle_demand_fault] returns what is
    left to do, and [complete_deferred] does it in whatever state it finds then. *)
From Stdlib Require Import String.
From stdpp Require Import gmap.
From S2P Require Import Prelude BTree Error Address Region Phys PhysInv PhysInit.
From S2P Require Import Vma MemoryMap MemoryMapInv MemoryMapOps MemoryMapThms.
From S2P Require Import MemoryFrames ProcVm MemoryRemap MmapSys.
Local Open Scope Z_scope.

#[export] Instance VMFileMapping_eq_dec : EqDecision VMFileMapping.
Proof. solve_decision. Defined.
#[export] Instance VMSharedMapping_eq_dec : EqDecision VMSharedMapping.
Proof. solve_decision. Defined.
#[export] Instance VMAreaKind_eq_dec : EqDecision VMAreaKind.
Proof. solve_decision. Defined.
#[export] Instance VMArea_eq_dec : EqDecision VMArea.
Proof. solve_decision. Defined.
#[export] Instance AccessKind_eq_dec : EqDecision AccessKind.
Proof. solve_decision. Defined.

(** What the future of a deferred fault has captured. *)
Record DeferredFault := mkDeferred {
  df_addr : Z; df_access : AccessKind; df_vma : VMArea; df_page : Z; df_read : VMAFileRead
}.

Inductive FaultResolution : Type :=
| Resolved
| Denied
| Deferred (d : DeferredFault).

Section Fault.
Context {AS : Type} `{UserAddressSpace AS} {L : Type} `{IntrusiveList L}.
Notation FA := (@FrameAllocatorInner L).

(** [shared_pages] holds the pages of the shared backing objects, by object and
    offset. *)
Record FaultState := mkFS {
  fs_vm : ProcessVM AS;
  fs_alloc : option FA;
  shared_pages : gmap (Z * Z) Z;
  contents : Z -> list Z
}.

Definition fs_mm (s : FaultState) : MemoryMap AS := vm_mm (fs_vm s).
Definition set_alloc (s : FaultState) (al : FA) : FaultState :=
  mkFS (fs_vm s) (Some al) (shared_pages s) (contents s).
Definition set_contents (s : FaultState) (p : Z) (bs : list Z) : FaultState :=
  mkFS (fs_vm s) (fs_alloc s) (shared_pages s) (fun q => if q =? p then bs else contents s q).
Definition set_shared (s : FaultState) (m : gmap (Z * Z) Z) : FaultState :=
  mkFS (fs_vm s) (fs_alloc s) m (contents s).
Definition set_space (s : FaultState) (a : AS) : FaultState :=
  mkFS (set_mm (fs_vm s) (set_as (fs_mm s) a)) (fs_alloc s) (shared_pages s) (contents s).

Definition zero_page : list Z := replicate (Z.to_nat PAGE_SIZE) 0.

(** ** ClaimedPage *)

(** The claimed page is its frame; leaking it is doing nothing. *)
Definition claimed_alloc (s : FaultState) : outcome (result Z * FaultState) :=
  let! al := unwrap (fs_alloc s) in
  let! (r, al) := alloc_frames al 0 in
  Return (match r with Ok reg => Ok (to_pfn (start_address reg)) | Err e => Err e end, set_alloc s al).

Definition alloc_zeroed (s : FaultState) : outcome (result Z * FaultState) :=
  let? (page, s) := claimed_alloc s in
  Return (Ok page, set_contents s page zero_page).

Definition claimed_drop (s : FaultState) (page : Z) : outcome FaultState :=
  let! al := unwrap (fs_alloc s) in
  let! al := page_alloc_drop al (as_phys_range page) in
  Return (set_alloc s al).

(** ** SharedAnon *)

Definition claim_page (backing offset : Z) (s : FaultState) : outcome (result Z * FaultState) :=
  let? (page, s) :=
    match shared_pages s !! (backing, offset) with
    | Some page => Return (Ok page, s)
    | None =>
        let? (page, s) := alloc_zeroed s in
        Return (Ok page, set_shared s (<[(backing, offset) := page]> (shared_pages s)))
    end in
  let! al := unwrap (fs_alloc s) in
  let! al := page_alloc_clone al (as_phys_range page) in
  Return (Ok page, set_alloc s al).

(** ** Demand faults *)

Definition as_map (s : FaultState) (pfn va : Z) (p : PtePermissions) : result unit * FaultState :=
  let r := as_map_page (address_space (fs_mm s)) pfn va p in (r.1, set_space s r.2).

(** Map an owned page; if it cannot be used the reference is dropped. *)
Definition map_claimed (s : FaultState) (page page_va : Z) (vma : VMArea)
    : outcome (result FaultResolution * FaultState) :=
  match as_map s page page_va (pte_from_vma (permissions vma)) with
  | (Ok _, s) => Return (Ok Resolved, s)
  | (Err (MappingError AlreadyMapped), s) =>
      let! s := claimed_drop s page in Return (Ok Resolved, s)
  | (Err e, s) => let! s := claimed_drop s page in Return (Err e, s)
  end.

Definition handle_demand_fault (s : FaultState) (faulting_addr : Z) (access_kind : AccessKind)
    : outcome (result FaultResolution * FaultState) :=
  let! o := find_vma_for_fault (fs_vm s) faulting_addr access_kind in
  match o with
  | None => Return (Ok Denied, s)
  | Some vma =>
      let page_va := page_aligned faulting_addr in
      match kind vma with
      | SharedAnon mapping =>
          let offset := usub page_va (start_address (region vma)) in
          let? (frame, s) := shared_claim_page claim_page mapping offset s in
          map_claimed s frame page_va vma
      | _ =>
          let? (new_page, s) := alloc_zeroed s in
          match resolve_fault vma faulting_addr with
          | Some vma_read =>
              Return (Ok (Deferred (mkDeferred faulting_addr access_kind vma new_page vma_read)), s)
          | None => map_claimed s new_page page_va vma
          end
      end
  end.

(** [read] is what the inode returned: the bytes read, at most [read_len] of them. *)
Definition complete_deferred (s : FaultState) (d : DeferredFault) (read : result (list Z))
    : outcome (result FaultResolution * FaultState) :=
  let r := df_read d in
  let page := df_page d in
  assert! uadd (read_page_offset r) (read_len r) <=? PAGE_SIZE;
  match read with
  | Err e => let! s := claimed_drop s page in Return (Err e, s)
  | Ok bytes =>
      let bs := contents s page in
      let n := Z.to_nat (read_page_offset r) in
      let s := set_contents s page (take n bs ++ bytes ++ drop (n + length bytes) bs) in
      let! o := find_vma_for_fault (fs_vm s) (df_addr d) (df_access d) in
      if bool_decide (o = Some (df_vma d)) then
        map_claimed s page (page_aligned (df_addr d)) (df_vma d)
      else let! s := claimed_drop s page in Return (Ok Resolved, s)
  end.

(** ** Protection faults *)

Definition handle_protection_fault (s : FaultState) (faulting_addr : Z) (access_kind : AccessKind)
    (pg_info : PageInfo) : outcome (result FaultResolution * FaultState) :=
  if bool_decide (access_kind = AccessWrite) && pte_cow (page_perms pg_info) then
    let new_pte_perms := from_cow (page_perms pg_info) in
    let! al := unwrap (fs_alloc s) in
    let! exclusive := is_allocated_exclusive al (page_pfn pg_info) in
    if exclusive then
      match as_protect_range (address_space (fs_mm s)) (page_region faulting_addr) new_pte_perms with
      | (Ok _, a) => Return (Ok Resolved, set_space s a)
      | (Err e, a) => Return (Err e, set_space s a)
      end
    else
      let? (new_page, s) := alloc_zeroed s in
      let s := set_contents s new_page (contents s (page_pfn pg_info)) in
      match as_remap (address_space (fs_mm s)) faulting_addr new_page new_pte_perms with
      | (Ok _, a) =>
          let! s := claimed_drop (set_space s a) (page_pfn pg_info) in
          Return (Ok Resolved, s)
      | (Err _, _) => Panic
      end
  else Return (Ok Denied, s).
End Fault.
Arguments FaultState : clear implicits.

(** * Correctness *)

(** What the trait documents of the two operations of the fault handler: [map_page]
    reports [AlreadyMapped] only for a mapped page, and [remap] replaces one page. *)
Class FaultLaws (AS : Type) `{UserAddressSpace AS} : Prop := {
  map_page_conflict : forall a pfn va p, va mod PAGE_SIZE = 0 ->
    (as_map_page a pfn va p).1 = Err (MappingError AlreadyMapped) -> is_Some (as_translate a va);
  map_page_fresh : forall a pfn va p u, va mod PAGE_SIZE = 0 ->
    (as_map_page a pfn va p).1 = Ok u -> as_translate a va = None;
  remap_translate : forall a pfn va p va', is_Some (as_translate a va) ->
    as_translate (as_remap a va pfn p).2 va' =
    if decide (page_of va' = page_of va) then Some (mkPageInfo pfn p) else as_translate a va'
}.

Section FaultCorrect.
Context {AS : Type} `{UserAddressSpaceLaws AS} `{!MapPageLaws AS} `{!FrameLaws AS} `{!FaultLaws AS}.
Context {L : Type} `{IntrusiveListLaws L}.
Notation FA := (@FrameAllocatorInner L).
Implicit Types s : FaultState AS L.

(** ** The invariant *)

(** The references of the page tables and of the shared backing objects. *)
Definition fs_refs s : list Z :=
  as_frames (address_space (fs_mm s)) ++ (map_to_list (shared_pages s)).*2.

Definition fs_held s (p : Z) : Z := match fs_alloc s with Some al => held al p | None => 0 end.

(** The references that neither they nor [others] account for. *)
Definition fs_spare s (others : list Z) (p : Z) : Z :=
  fs_held s p - Z.of_nat (count_occ Z.eq_dec (others ++ fs_refs s) p).

Record fs_inv s (others : list Z) : Prop := {
  fi_map : mm_inv (fs_mm s);
  fi_alloc : exists al, fs_alloc s = Some al /\ wf al;
  fi_backed : forall p, 0 <= fs_spare s others p
}.

(** Nothing happens to frames that are in use. *)
Definition keeps s s' : Prop := forall q, 0 < fs_held s q -> contents s' q = contents s q.

Definition same_but_alloc s s' : Prop :=
  fs_vm s' = fs_vm s /\ shared_pages s' = shared_pages s /\ contents s' = contents s.

(** A state with the same map whose references are accounted for alike. *)
Lemma fs_inv_alloc s s' al' others others' : fs_inv s others -> fs_mm s' = fs_mm s ->
  fs_alloc s' = Some al' -> wf al' -> (forall p, fs_spare s' others' p = fs_spare s others p) ->
  fs_inv s' others'.
Proof.
  intros [Im _ Hb] Em Ea W Hs. split; [by rewrite Em|eauto|]. intros p. rewrite Hs. apply Hb.
Qed.

Lemma count_cons (x p : Z) l : Z.of_nat (count_occ Z.eq_dec (x :: l) p) =
  Z.of_nat (count_occ Z.eq_dec l p) + if decide (p = x) then 1 else 0.
Proof. cbn [count_occ]. destruct (Z.eq_dec x p), (decide (p = x)); subst; try done; lia. Qed.

(** An owned page is held. *)
Lemma owned_held s others p : fs_inv s others -> p ∈ others ++ fs_refs s -> 0 < fs_held s p.
Proof.
  intros I Hp. pose proof (fi_backed s others I p) as Hb. unfold fs_spare in Hb.
  apply list_elem_of_In, (count_occ_In Z.eq_dec (others ++ fs_refs s) p) in Hp. lia.
Qed.

Lemma alloc_zeroed_spec s others : fs_inv s others ->
  exists res s', alloc_zeroed s = Return (res, s') /\
    match res with
    | Ok b => fs_inv s' (b :: others) /\ (forall p, fs_spare s' (b :: others) p = fs_spare s others p) /\
        fs_vm s' = fs_vm s /\ shared_pages s' = shared_pages s /\ fs_held s b = 0 /\ fs_held s' b = 1 /\
        contents s' b = zero_page /\ (forall q, q <> b -> contents s' q = contents s q) /\
        (forall q, fs_held s q <= fs_held s' q)
    | Err e => e = NoMemory /\ s' = s
    end.
Proof.
  intros I. destruct (fi_alloc s others I) as (al & Ea & W). unfold alloc_zeroed, claimed_alloc.
  rewrite Ea. ostep. destruct (alloc_held al W) as (res & al' & -> & W' & P). ostep.
  destruct res as [reg|e]; cbn [tbind].
  2: { destruct P as [-> ->]. eexists _, _. split; [done|]. split; [done|].
       unfold set_alloc. rewrite <- Ea. by destruct s. }
  destruct P as (b & -> & Hb & Hh). eexists _, _. split; [done|].
  set (s' := set_contents _ _ _). assert (Es : forall q, fs_held s' q = fs_held s q + if decide (q = b) then 1 else 0).
  { intros q. unfold fs_held, s'. cbn. rewrite Ea. apply Hh. }
  assert (Hs : forall p, fs_spare s' (b :: others) p = fs_spare s others p).
  { intros p. unfold fs_spare. rewrite Es. cbn [app]. rewrite count_cons.
    change (fs_refs s') with (fs_refs s). lia. }
  split; [by eapply (fs_inv_alloc s s' al')|]. do 3 (split; [done|]).
  assert (H0' : fs_held s b = 0) by (unfold fs_held; by rewrite Ea). split; [done|].
  split; [rewrite Es, decide_True by done; lia|].
  split; [unfold s'; cbn; by rewrite Z.eqb_refl|].
  split; [intros q Hq; unfold s'; cbn; by rewrite (proj2 (Z.eqb_neq q b))|].
  intros q. rewrite Es. case_decide; lia.
Qed.

Lemma claimed_drop_spec s others p : fs_inv s (p :: others) ->
  exists s', claimed_drop s p = Return s' /\ fs_inv s' others /\ same_but_alloc s s' /\
    (forall q, fs_spare s' others q = fs_spare s (p :: others) q) /\
    forall q, fs_held s' q = fs_held s q - if decide (q = p) then 1 else 0.
Proof.
  intros I. destruct (fi_alloc s _ I) as (al & Ea & W). unfold claimed_drop. rewrite Ea. ostep.
  pose proof (owned_held s _ p I ltac:(by left)) as Hp. unfold fs_held in Hp. rewrite Ea in Hp.
  destruct (drop_held al p W Hp) as (al' & -> & W' & Hh). ostep.
  assert (Es : forall q, fs_held (set_alloc s al') q = fs_held s q - if decide (q = p) then 1 else 0)
    by (intros q; unfold fs_held; cbn; rewrite Ea; apply Hh).
  assert (Hs : forall q, fs_spare (set_alloc s al') others q = fs_spare s (p :: others) q).
  { intros q. unfold fs_spare. rewrite Es. cbn [app]. rewrite count_cons.
    change (fs_refs (set_alloc s al')) with (fs_refs s). lia. }
  eexists. split; [done|]. split; [by eapply (fs_inv_alloc s _ al')|]. by repeat split.
Qed.

(** ** Mapping a page *)

Lemma same_page_region r a b : aligned_region r -> page_of b = page_of a -> a ∈ r -> b ∈ r.
Proof.
  intros Hr E Ha. apply (bool_decide_eq_true (b ∈ r)). rewrite <- (in_region_page r b Hr).
  assert (page_no b = page_no a) as ->.
  { unfold page_no, page_of in *. pose proof (Z.div_mod a PAGE_SIZE ltac:(done)).
    pose proof (Z.div_mod b PAGE_SIZE ltac:(done)). unfold PAGE_SIZE in *. lia. }
  rewrite (in_region_page r a Hr). by apply (bool_decide_eq_true (a ∈ r)).
Qed.

Lemma page_of_page a : page_of a mod PAGE_SIZE = 0 /\ page_of (page_of a) = page_of a.
Proof.
  assert (E : page_of a mod PAGE_SIZE = 0) by (by apply round_down_multiple).
  split; [done|]. by apply page_of_aligned.
Qed.

(** The map with one more or one changed page, which its area permits. *)
Lemma page_inv (mm : MemoryMap AS) a' va v i : mm_inv mm -> find_vma mm va = Some v ->
  le_perms (page_perms i) (permissions v) ->
  (forall va', as_translate a' va' =
     if decide (page_of va' = page_of va) then Some i else as_translate (address_space mm) va') ->
  mm_inv (set_as mm a').
Proof.
  intros [W T] Hv Hle Ht. split; [done|]. intros va' j. cbn [address_space set_as vmas].
  rewrite Ht. case_decide as Hp; [|apply T]. intros [= <-]. exists v. split; [|done].
  rewrite find_vma_area in Hv. destruct (area_at_wf _ W _ _ Hv) as (Wv & Ha & Hin).
  apply area_at_Some; [done|]. eexists. split; [done|].
  eapply (same_page_region _ va); [apply Wv|done|done].
Qed.

(** The translations other than the page of [va] are untouched. *)
Definition other_pages s s' (va : Z) : Prop := forall va', page_of va' <> page_of va ->
  as_translate (address_space (fs_mm s')) va' = as_translate (address_space (fs_mm s)) va'.

(** A page that could not be mapped is given back. *)
Lemma drop_unmapped s others p a' va : fs_inv s (p :: others) ->
  (forall va', as_translate a' va' = as_translate (address_space (fs_mm s)) va') ->
  as_frames a' ≡ₚ as_frames (address_space (fs_mm s)) ->
  exists s', claimed_drop (set_space s a') p = Return s' /\ fs_inv s' others /\
    (forall q, fs_spare s' others q = fs_spare s (p :: others) q) /\
    vmas (fs_mm s') = vmas (fs_mm s) /\ shared_pages s' = shared_pages s /\
    contents s' = contents s /\ other_pages s s' va /\
    as_translate (address_space (fs_mm s')) va = as_translate (address_space (fs_mm s)) va.
Proof.
  intros I Ha Hfa.
  assert (Hsp : forall q, fs_spare (set_space s a') (p :: others) q = fs_spare s (p :: others) q).
  { intros q. unfold fs_spare, fs_refs. cbn [fs_mm fs_vm set_space vm_mm set_mm set_as address_space shared_pages].
    fold (fs_mm s). rewrite !count_occ_app. do 2 f_equal.
    rewrite (Permutation_count_occ Z.eq_dec) in Hfa. by rewrite (Hfa q). }
  assert (I1 : fs_inv (set_space s a') (p :: others)).
  { destruct I as [[W T] Ia Ib]. split; [|done|by intros q; rewrite Hsp].
    split; [done|]. intros va' i. cbn. rewrite Ha. apply T. }
  destruct (claimed_drop_spec _ others p I1) as (s' & E & I' & (Ev & Esh & Ec) & Hs' & _).
  exists s'. split; [done|]. split; [done|]. split; [intros q; by rewrite Hs', Hsp|].
  unfold other_pages, fs_mm. rewrite Ev. cbn [fs_vm set_space vm_mm set_mm vmas set_as address_space].
  split; [done|]. split; [done|]. split; [done|]. split; [intros; apply Ha|]. apply Ha.
Qed.

Lemma map_claimed_spec s others p va v : fs_inv s (p :: others) -> find_vma (fs_mm s) va = Some v ->
  exists res s', map_claimed s p (page_of va) v = Return (res, s') /\ fs_inv s' others /\
    (forall q, fs_spare s' others q = fs_spare s (p :: others) q) /\
    vmas (fs_mm s') = vmas (fs_mm s) /\ shared_pages s' = shared_pages s /\
    contents s' = contents s /\ other_pages s s' va /\
    match res with
    | Ok Resolved =>
        as_translate (address_space (fs_mm s')) va =
        match as_translate (address_space (fs_mm s)) va with
        | Some i => Some i
        | None => Some (mkPageInfo p (pte_from_vma (permissions v)))
        end
    | Ok _ => False
    | Err _ => as_translate (address_space (fs_mm s')) va = as_translate (address_space (fs_mm s)) va
    end.
Proof.
  intros I Hv. destruct (page_of_page va) as [Apg Epg]. unfold map_claimed, as_map.
  set (a := address_space (fs_mm s)). set (perms := pte_from_vma (permissions v)).
  pose proof (map_page_translate a p (page_of va) perms) as Ht.
  pose proof (frames_map_page a p (page_of va) perms Apg) as Hf.
  pose proof (map_page_conflict a p (page_of va) perms Apg) as Hc.
  pose proof (map_page_fresh a p (page_of va) perms) as Hfr.
  destruct (as_map_page a p (page_of va) perms) as [[u|e] a1]; cbn [fst snd] in *.
  - specialize (Hfr u Apg eq_refl). rewrite (translate_page a va). fold a. rewrite Hfr.
    eexists _, _. split; [done|].
    assert (Hsp : forall q, fs_spare (set_space s a1) others q = fs_spare s (p :: others) q).
    { intros q. unfold fs_spare, fs_refs. cbn [fs_mm fs_vm set_space vm_mm set_mm set_as address_space shared_pages].
      fold (fs_mm s). fold a. cbn [app]. rewrite count_cons, !count_occ_app, !Nat2Z.inj_add.
      rewrite (Permutation_count_occ Z.eq_dec) in Hf. rewrite (Hf q), count_cons.
      change (fs_held (set_space s a1) q) with (fs_held s q). lia. }
    assert (Htr : forall va', as_translate a1 va' = if decide (page_of va' = page_of va)
        then Some (mkPageInfo p perms) else as_translate a va') by (intros; by apply Ht).
    split; [split|].
    + apply (page_inv (fs_mm s) a1 va v (mkPageInfo p perms)); [apply I|done|apply le_perms_from_vma|done].
    + apply I.
    + intros q. rewrite Hsp. apply I.
    + split; [done|]. do 3 (split; [done|]). cbn [fs_mm fs_vm set_space vm_mm set_mm set_as address_space].
      split; [|by rewrite Htr, decide_True]. intros va' Hne. cbn [fs_mm fs_vm set_space vm_mm set_mm set_as address_space].
      by rewrite Htr, decide_False.
  - assert (Ha1 : forall va', as_translate a1 va' = as_translate a va') by (intros; by apply Ht).
    destruct (drop_unmapped s others p a1 va I Ha1 Hf) as (s' & E & I' & Hsp & Ev & Esh & Ec & Ho & Etr).
    assert (Hgen : exists res s', (let! s := claimed_drop (set_space s a1) p in Return (Err e, s)) = Return (res, s') /\
      fs_inv s' others /\ (forall q, fs_spare s' others q = fs_spare s (p :: others) q) /\
      vmas (fs_mm s') = vmas (fs_mm s) /\ shared_pages s' = shared_pages s /\
      contents s' = contents s /\ other_pages s s' va /\
      match res with
      | Ok Resolved => as_translate (address_space (fs_mm s')) va =
          match as_translate a va with Some i => Some i | None => Some (mkPageInfo p perms) end
      | Ok _ => False
      | Err _ => as_translate (address_space (fs_mm s')) va = as_translate a va
      end) by (rewrite E; ostep; eexists _, _; split; [done|]; do 6 (split; [done|]); exact Etr).
    destruct e as [| | | |me| | | | | | | | | | | | | | | | | | | | | | | |]; try exact Hgen.
    destruct me; try exact Hgen. clear Hgen. rewrite E. ostep. eexists _, _. split; [done|].
    do 6 (split; [done|]). destruct (Hc eq_refl) as [i Ei]. rewrite Etr. fold a. rewrite !(translate_page a va). by rewrite Ei.
Qed.

(** ** Shared backing objects *)

(** The page of the backing object, allocated if need be. *)
Lemma backing_page s others b off : fs_inv s others -> (forall p, fs_held s p < 2 ^ 32 - 1) ->
  exists res s1,
    match shared_pages s !! (b, off) with
    | Some page => Return (Ok page, s)
    | None => let? (page, s) := alloc_zeroed s in
              Return (Ok page, set_shared s (<[(b, off) := page]> (shared_pages s)))
    end = Return (res, s1) /\ fs_vm s1 = fs_vm s /\ keeps s s1 /\
    match res with
    | Ok p => fs_inv s1 others /\ (forall q, fs_spare s1 others q = fs_spare s others q) /\
        shared_pages s1 !! (b, off) = Some p /\ 0 < fs_held s1 p < 2 ^ 32 - 1 /\
        (forall k q, shared_pages s !! k = Some q -> shared_pages s1 !! k = Some q) /\
        (shared_pages s !! (b, off) = None -> contents s1 p = zero_page /\ fs_held s p = 0)
    | Err e => e = NoMemory /\ s1 = s
    end.
Proof.
  intros I Hmax.
  destruct (shared_pages s !! (b, off)) as [p|] eqn:Ep.
    { eexists _, _. split; [done|]. split; [done|]. split; [done|]. do 2 (split; [done|]).
      split; [done|]. split; [|done]. split; [|apply Hmax]. apply (owned_held s others p I).
      apply elem_of_app. right. apply elem_of_app. right. apply list_elem_of_fmap.
      exists (b, off, p). split; [done|]. by apply elem_of_map_to_list. }
    destruct (alloc_zeroed_spec s others I) as (res & s1 & -> & P). destruct res as [p|e]; cbn [tbind].
    2: { destruct P as [-> ->]. eexists _, _. by split. }
    destruct P as (I1 & Hs & Ev & Esh & Hp & Hp1 & Hc & Hcq & _). eexists _, _. split; [done|].
    split; [done|]. split.
    { intros q Hq. cbn. apply Hcq. intros ->. lia. }
    assert (Hsp : forall q, fs_spare (set_shared s1 (<[(b, off) := p]> (shared_pages s1))) others q = fs_spare s others q).
    { intros q. rewrite <- Hs. unfold fs_spare, fs_refs. cbn [shared_pages set_shared]. rewrite Esh.
      change (fs_held (set_shared s1 (<[(b, off) := p]> (shared_pages s))) q) with (fs_held s1 q).
      change (fs_mm (set_shared s1 (<[(b, off) := p]> (shared_pages s)))) with (fs_mm s1).
      assert (Hperm : (map_to_list (<[(b, off) := p]> (shared_pages s))).*2 ≡ₚ p :: (map_to_list (shared_pages s)).*2)
        by (rewrite map_to_list_insert by done; done).
      rewrite !count_occ_app, !(proj1 (Permutation_count_occ Z.eq_dec _ _) Hperm).
      rewrite !Nat2Z.inj_add, !count_cons. lia. }
    split; [|split; [done|]].
    { destruct I1 as [Im Ia Ib]. split; [done|done|]. intros q. rewrite Hsp. apply I. }
    cbn [shared_pages set_shared]. split; [apply lookup_insert_eq|].
    change (fs_held (set_shared s1 (<[(b, off) := p]> (shared_pages s1))) p) with (fs_held s1 p).
    split; [lia|]. split; [|done]. intros k q Hk. rewrite Esh, lookup_insert_ne; [done|]. congruence.
Qed.

Lemma claim_page_spec s others b off : fs_inv s others -> (forall p, fs_held s p < 2 ^ 32 - 1) ->
  exists res s', claim_page b off s = Return (res, s') /\ fs_vm s' = fs_vm s /\ keeps s s' /\
    match res with
    | Ok p => fs_inv s' (p :: others) /\ (forall q, fs_spare s' (p :: others) q = fs_spare s others q) /\
        shared_pages s' !! (b, off) = Some p /\
        (forall k q, shared_pages s !! k = Some q -> shared_pages s' !! k = Some q) /\
        (shared_pages s !! (b, off) = None -> contents s' p = zero_page /\ fs_held s p = 0)
    | Err e => e = NoMemory /\ s' = s
    end.
Proof.
  intros I Hmax. pose proof (backing_page s others b off I Hmax) as Hpage.
  destruct Hpage as (res & s1 & E & Ev & Hk & P). unfold claim_page. rewrite E.
  destruct res as [p|e]; cbn [tbind]; [|destruct P as [-> ->]; eexists _, _; by split].
  destruct P as (I1 & Hs & Esh & Hh & Hkeep & Hz). destruct (fi_alloc s1 others I1) as (al & Ea & W). rewrite Ea. ostep.
  unfold fs_held in Hh. rewrite Ea in Hh. destruct (clone_held al p W Hh) as (al' & -> & W' & Hcl). ostep.
  eexists _, _. split; [done|]. split; [done|]. split; [done|].
  assert (Hsp : forall q, fs_spare (set_alloc s1 al') (p :: others) q = fs_spare s others q).
  { intros q. rewrite <- Hs. unfold fs_spare. cbn [app]. rewrite count_cons.
    change (fs_refs (set_alloc s1 al')) with (fs_refs s1). unfold fs_held. cbn [fs_alloc set_alloc].
    rewrite Hcl, Ea. lia. }
  split; [|by split]. eapply (fs_inv_alloc s1); [exact I1|done|done|done|]. intros q. by rewrite Hsp, Hs.
Qed.

(** ** Demand faults *)

(** The page that a fault at [addr] in area [v] has put in place. *)
Definition fresh_page s s' (addr : Z) (v : VMArea) (i : PageInfo) : Prop :=
  page_perms i = pte_from_vma (permissions v) /\
  match kind v with
  | SharedAnon m =>
      shared_pages s' !! (backing m, soffset m + (page_of addr - start_address (region v))) = Some (page_pfn i)
  | _ => fs_held s (page_pfn i) = 0 /\ contents s' (page_pfn i) = zero_page
  end.

(** The fault was handled in the page tables. *)
Definition fault_resolved s s' others (addr : Z) (v : VMArea) : Prop :=
  fs_inv s' others /\ (forall p, fs_spare s' others p = fs_spare s others p) /\
  vmas (fs_mm s') = vmas (fs_mm s) /\ other_pages s s' addr /\
  match as_translate (address_space (fs_mm s)) addr with
  | Some i => as_translate (address_space (fs_mm s')) addr = Some i
  | None => exists i, as_translate (address_space (fs_mm s')) addr = Some i /\ fresh_page s s' addr v i
  end.

(** The outcome of a demand fault. *)
Definition demand_post s others (addr : Z) (k : AccessKind) (res : result FaultResolution) s' : Prop :=
  keeps s s' /\
  match res with
  | Ok Denied => s' = s /\
      forall v, find_vma (fs_mm s) addr = Some v -> allows (permissions v) k = false
  | Ok Resolved => exists v, find_vma (fs_mm s) addr = Some v /\ allows (permissions v) k = true /\
      fault_resolved s s' others addr v
  | Ok (Deferred d) => find_vma (fs_mm s) addr = Some (df_vma d) /\ allows (permissions (df_vma d)) k = true /\
      resolve_fault (df_vma d) addr = Some (df_read d) /\ df_addr d = addr /\ df_access d = k /\
      fs_inv s' (df_page d :: others) /\ (forall p, fs_spare s' (df_page d :: others) p = fs_spare s others p) /\
      fs_vm s' = fs_vm s /\ contents s' (df_page d) = zero_page
  | Err _ => fs_inv s' others /\ (forall p, fs_spare s' others p = fs_spare s others p) /\
      vmas (fs_mm s') = vmas (fs_mm s) /\ forall va,
      as_translate (address_space (fs_mm s')) va = as_translate (address_space (fs_mm s)) va
  end.

Lemma find_vma_for_fault_spec s addr k : mm_inv (fs_mm s) ->
  find_vma_for_fault (fs_vm s) addr k =
  Return (match find_vma (fs_mm s) addr with
          | Some v => if allows (permissions v) k then Some v else None
          | None => None end).
Proof.
  intros [Hwf _]. unfold find_vma_for_fault. fold (fs_mm s).
  destruct (find_vma (fs_mm s) addr) as [v|] eqn:E; [|done].
  rewrite find_vma_area in E. destruct (area_at_wf _ Hwf _ _ E) as (((Hr & _) & _) & Ha & _).
  unfold validate_fault.
  rewrite (proj2 (contains_address_spec _ _ Hr) Ha). simpl. unfold allows. by destruct k, (permissions v) as [[] [] []].
Qed.

(** [map_claimed] for a page that the handler has just claimed. *)
Lemma map_new_page s s1 others addr k v p : fs_inv s1 (p :: others) -> fs_vm s1 = fs_vm s -> keeps s s1 ->
  (forall q, fs_spare s1 (p :: others) q = fs_spare s others q) ->
  find_vma (fs_mm s) addr = Some v -> allows (permissions v) k = true ->
  match kind v with
  | SharedAnon m =>
      shared_pages s1 !! (backing m, soffset m + (page_of addr - start_address (region v))) = Some p
  | _ => fs_held s p = 0 /\ contents s1 p = zero_page
  end ->
  exists res s', map_claimed s1 p (page_of addr) v = Return (res, s') /\ demand_post s others addr k res s'.
Proof.
  intros I1 Ev Hk Hs Hv Hal Hp. assert (Em : fs_mm s1 = fs_mm s) by (unfold fs_mm; by rewrite Ev).
  destruct (map_claimed_spec s1 others p addr v I1) as (res & s' & E & I' & Hs' & Evm & Esh & Ec & Ho & M);
    [by rewrite Em|].
  exists res, s'. split; [done|]. rewrite Em in *. unfold other_pages in Ho. rewrite Em in Ho.
  split; [intros q Hq; rewrite Ec; by apply Hk|].
  assert (Hsp : forall q, fs_spare s' others q = fs_spare s others q) by (intros q; by rewrite Hs', Hs).
  destruct res as [[| |d]|e]; try done.
  - exists v. do 5 (split; [done|]). split; [done|].
    destruct (as_translate (address_space (fs_mm s)) addr) as [i|]; [done|]. eexists. split; [exact M|].
    split; [done|]. cbn [page_pfn]. rewrite Esh, Ec. done.
  - do 3 (split; [done|]). intros va. destruct (decide (page_of va = page_of addr)) as [Epg|Hne]; [|by apply Ho].
    rewrite (translate_page _ va), Epg, <- translate_page, M.
    by rewrite (translate_page _ va), Epg, <- translate_page.
Qed.


(** ** Deferred faults *)

Lemma resolve_fault_bounds v addr r : resolve_fault v addr = Some r ->
  0 <= read_page_offset r < PAGE_SIZE /\ 0 < read_len r <= PAGE_SIZE - read_page_offset r.
Proof.
  unfold resolve_fault. destruct (kind v); [|done..]. cbv zeta. bcase; [done|]. intros [= <-].
  cbn [read_page_offset read_len]. change (Z.land (start_address (region v)) PAGE_MASK) with
    (page_offset (start_address (region v))) in *. rewrite page_offset_eq in *.
  pose proof (Z.mod_pos_bound (start_address (region v)) PAGE_SIZE ltac:(done)) as Hm.
  destruct (_ =? page_aligned (start_address (region v)));
    rewrite !(usub_small PAGE_SIZE) in * by (unfold PAGE_SIZE in *; lia); unfold saturating_sub, PAGE_SIZE in *; lia.
Qed.

(** A zeroed page into which [bytes] were read. *)
Definition loaded_page (r : VMAFileRead) (bytes : list Z) : list Z :=
  let n := Z.to_nat (read_page_offset r) in
  take n zero_page ++ bytes ++ drop (n + length bytes) zero_page.

(** What finishing the deferred fault [d] has done. *)
Definition deferred_post s others (d : DeferredFault) (read : result (list Z))
    (res : result FaultResolution) s' : Prop :=
  fs_inv s' others /\ (forall p, fs_spare s' others p = fs_spare s (df_page d :: others) p) /\
  vmas (fs_mm s') = vmas (fs_mm s) /\ other_pages s s' (df_addr d) /\
  (forall q, q <> df_page d -> contents s' q = contents s q) /\
  let old := as_translate (address_space (fs_mm s)) (df_addr d) in
  let new := as_translate (address_space (fs_mm s')) (df_addr d) in
  match res, read with
  | Ok Resolved, Ok bytes =>
      new = old \/
      old = None /\ find_vma (fs_mm s) (df_addr d) = Some (df_vma d) /\
      new = Some (mkPageInfo (df_page d) (pte_from_vma (permissions (df_vma d)))) /\
      contents s' (df_page d) = loaded_page (df_read d) bytes
  | Ok Resolved, Err _ => False
  | Ok _, _ => False
  | Err _, _ => new = old
  end.

(** Finishing a deferred fault is safe whatever has happened to the address space
    since: the page is mapped, with the bytes read in their place and zeroes around
    them, only if the area is still the same and the page not yet mapped; in all other
    cases, and if the read fails, the page is given back and nothing has changed. *)
Theorem deferred_fault_correct s others d read : fs_inv s (df_page d :: others) -> usize_ok (df_addr d) ->
  resolve_fault (df_vma d) (df_addr d) = Some (df_read d) -> contents s (df_page d) = zero_page ->
  exists res s', complete_deferred s d read = Return (res, s') /\ deferred_post s others d read res s'.
Proof.
  intros I Hu Hr Hz. destruct (resolve_fault_bounds _ _ _ Hr) as [Hwo Hlen]. unfold complete_deferred.
  rewrite uadd_small, (proj2 (Z.leb_le _ _)) by (unfold PAGE_SIZE in *; lia). ostep. rewrite Hz.
  assert (Hdrop : forall s1 : FaultState AS L, fs_vm s1 = fs_vm s -> fs_alloc s1 = fs_alloc s -> shared_pages s1 = shared_pages s ->
    (forall q, q <> df_page d -> contents s1 q = contents s q) ->
    exists s', claimed_drop s1 (df_page d) = Return s' /\ fs_inv s' others /\
      (forall p, fs_spare s' others p = fs_spare s (df_page d :: others) p) /\ fs_mm s' = fs_mm s /\
      forall q, q <> df_page d -> contents s' q = contents s q).
  { intros s1 E1 E2 E3 Hc. assert (I1 : fs_inv s1 (df_page d :: others)).
    { destruct I as [Im Ia Ib]. split; [unfold fs_mm; by rewrite E1|by rewrite E2|].
      intros p. specialize (Ib p). unfold fs_spare, fs_held, fs_refs, fs_mm in *. by rewrite E1, E2, E3. }
    destruct (claimed_drop_spec s1 others _ I1) as (s' & -> & I' & (Ev & _ & Ec) & Hs & _).
    exists s'. split; [done|]. split; [done|]. split; [|split].
    - intros p. rewrite Hs. unfold fs_spare, fs_held, fs_refs, fs_mm. by rewrite E1, E2, E3.
    - unfold fs_mm. by rewrite Ev, E1.
    - intros q Hq. rewrite Ec. by apply Hc. }
  destruct read as [bytes|e].
  2: { destruct (Hdrop s) as (s' & -> & I' & Hs & Em & Hc); [done..|]. ostep. eexists _, _. split; [done|].
       split; [done|]. split; [done|]. unfold other_pages. rewrite Em. done. }
  set (s1 := set_contents s (df_page d) _).
  assert (I1 : fs_inv s1 (df_page d :: others)) by (by destruct I).
  assert (Hc1 : forall q, q <> df_page d -> contents s1 q = contents s q).
  { intros q Hq. cbn. by rewrite (proj2 (Z.eqb_neq _ _)). }
  rewrite find_vma_for_fault_spec by apply I1. ostep. change (fs_mm s1) with (fs_mm s).
  case_bool_decide as Hsame.
  - assert (Hv : find_vma (fs_mm s) (df_addr d) = Some (df_vma d)).
    { destruct (find_vma (fs_mm s) (df_addr d)) as [v|]; [|done]. by destruct (allows _ _). }
    rewrite page_aligned_eq by done. fold (page_of (df_addr d)).
    destruct (map_claimed_spec s1 others (df_page d) (df_addr d) (df_vma d) I1 Hv)
      as (res & s' & -> & I' & Hs & Evm & _ & Ec & Ho & M).
    eexists _, _. split; [done|]. split; [done|]. split; [done|]. split; [done|]. split; [done|].
    split; [intros q Hq; rewrite Ec; by apply Hc1|]. cbv zeta. change (fs_mm s1) with (fs_mm s) in M.
    destruct res as [[| |d']|e]; try done.
    destruct (as_translate (address_space (fs_mm s)) (df_addr d)) as [i|]; [by left|]. right.
    do 3 (split; [done|]). rewrite Ec. cbn. by rewrite Z.eqb_refl.
  - destruct (Hdrop s1) as (s' & -> & I' & Hs & Em & Hc); [done..|]. ostep. eexists _, _. split; [done|].
    split; [done|]. split; [done|]. unfold other_pages. rewrite Em. do 3 (split; [done|]). by left.
Qed.

(** ** Copy-on-write faults *)

Definition cow_post s others (va : Z) (i : PageInfo) (res : result FaultResolution) s' : Prop :=
  fs_inv s' others /\ vmas (fs_mm s') = vmas (fs_mm s) /\ keeps s s' /\ other_pages s s' va /\
  (forall p, fs_spare s' others p = fs_spare s others p) /\
  match res with
  | Ok Resolved => exists j, as_translate (address_space (fs_mm s')) va = Some j /\
      page_perms j = from_cow (page_perms i) /\ fs_held s' (page_pfn j) = 1 /\
      contents s' (page_pfn j) = contents s (page_pfn i)
  | Ok _ => False
  | Err e => e = NoMemory /\ as_translate (address_space (fs_mm s')) va = Some i
  end.

Lemma mapped_frame s va i : as_translate (address_space (fs_mm s)) va = Some i ->
  page_pfn i ∈ as_frames (address_space (fs_mm s)).
Proof.
  intros E. destruct (page_of_page va) as [Ap _]. rewrite translate_page in E.
  rewrite (frames_unmap _ _ _ Ap E). by left.
Qed.

Lemma page_region_spec va : usize_ok va -> va + PAGE_SIZE < 2 ^ 64 ->
  aligned_region (page_region va) /\ forall a, a ∈ page_region va <-> page_of a = page_of va.
Proof.
  intros Hu Hb. unfold page_region. rewrite page_aligned_eq by done. fold (page_of va).
  destruct (page_of_page va) as [Ap _]. unfold usize_ok, page_of in *.
  pose proof (Z.mod_pos_bound va PAGE_SIZE ltac:(done)).
  assert (va mod PAGE_SIZE <= va) by (apply Z.mod_le; [lia|done]). split.
  - unfold aligned_region, region_ok. simpl. unfold PAGE_SIZE in *. repeat split; try lia.
  - intros a. unfold elem_of, region_elem_of. cbn [start_address rsize].
    pose proof (Z.mod_pos_bound a PAGE_SIZE ltac:(done)).
    pose proof (Z.div_mod va PAGE_SIZE ltac:(done)). pose proof (Z.div_mod a PAGE_SIZE ltac:(done)).
    unfold PAGE_SIZE in *. lia.
Qed.

(** The only reference to the frame: the page becomes writable in place. *)
Lemma cow_exclusive s others va i : fs_inv s others -> usize_ok va -> va + PAGE_SIZE < 2 ^ 64 ->
  as_translate (address_space (fs_mm s)) va = Some i -> pte_cow (page_perms i) = true ->
  fs_held s (page_pfn i) = 1 ->
  exists a', as_protect_range (address_space (fs_mm s)) (page_region va) (from_cow (page_perms i)) = (Ok tt, a') /\
    cow_post s others va i (Ok Resolved) (set_space s a').
Proof.
  intros I Hu Hb Ei Hcow Hone. destruct (page_region_spec va Hu Hb) as [Har Hreg].
  set (a := address_space (fs_mm s)) in *. set (np := from_cow (page_perms i)).
  pose proof (protect_range_ok a (page_region va) np Har) as Hok.
  pose proof (frames_protect_range a (page_region va) np Har) as Hf.
  pose proof (fun x => protect_range_translate a (page_region va) np x Har) as Ht.
  destruct (as_protect_range a (page_region va) np) as [r a']. cbn [fst snd] in *. rewrite Hok.
  exists a'. split; [done|].
  destruct (proj2 (fi_map s _ I) va i Ei) as (v & Hv & Hl1 & Hl2 & Hl3 & Hl4). fold (fs_mm s) in Hv.
  assert (Htr : forall x, as_translate a' x = if decide (page_of x = page_of va)
    then Some (mkPageInfo (page_pfn i) np) else as_translate a x).
  { intros x. rewrite Ht. pose proof (Hreg x) as Hx. case_decide as H1'; case_decide as H2'; try tauto.
    by rewrite (translate_page a x), H2', <- translate_page, Ei. }
  assert (Hsp : forall p, fs_spare (set_space s a') others p = fs_spare s others p).
  { intros p. unfold fs_spare, fs_refs. cbn [fs_mm fs_vm set_space vm_mm set_mm set_as address_space shared_pages].
    fold (fs_mm s). fold a. rewrite !count_occ_app. do 3 f_equal.
    rewrite (Permutation_count_occ Z.eq_dec) in Hf. by rewrite (Hf p). }
  split; [split|].
  - apply (page_inv (fs_mm s) a' va v (mkPageInfo (page_pfn i) np)); [apply I|done| |exact Htr].
    unfold le_perms, np. cbn. split; [done|]. by auto.
  - apply I.
  - intros p. rewrite Hsp. apply I.
  - split; [done|]. split; [done|]. split; [intros x Hx; cbn; fold (fs_mm s); by rewrite Htr, decide_False|].
    split; [done|]. exists (mkPageInfo (page_pfn i) np). split; [cbn; by rewrite Htr, decide_True|]. done.
Qed.

(** The frame is shared: the page gets a copy of it. *)
Lemma cow_copy s others va i : fs_inv s others ->
  as_translate (address_space (fs_mm s)) va = Some i -> pte_cow (page_perms i) = true ->
  exists res s',
    (let? (new_page, s) := alloc_zeroed s in
     let s := set_contents s new_page (contents s (page_pfn i)) in
     match as_remap (address_space (fs_mm s)) va new_page (from_cow (page_perms i)) with
     | (Ok _, a) => let! s := claimed_drop (set_space s a) (page_pfn i) in Return (Ok Resolved, s)
     | (Err _, _) => Panic
     end) = Return (res, s') /\ cow_post s others va i res s'.
Proof.
  intros I Ei Hcow. set (np := from_cow (page_perms i)).
  destruct (alloc_zeroed_spec s others I) as (r & s1 & -> & P). destruct r as [b|e]; cbn [tbind].
  2: { destruct P as [-> ->]. eexists _, _. split; [done|]. by repeat (split; [done|]). }
  destruct P as (I1 & Hs & Ev & Esh & Hb0 & Hb1 & _ & Hcq & Hle).
  assert (Em : fs_mm s1 = fs_mm s) by (unfold fs_mm; by rewrite Ev).
  assert (Hin : page_pfn i ∈ others ++ fs_refs s)
    by (apply elem_of_app; right; apply elem_of_app; left; by apply (mapped_frame s va)).
  assert (Hne : page_pfn i <> b) by (intros E; pose proof (owned_held s others _ I Hin); rewrite E in *; lia).
  set (s2 := set_contents s1 b _). change (fs_mm s2) with (fs_mm s1). rewrite Em.
  set (a := address_space (fs_mm s)) in *.
  destruct (frames_remap a va b np i Ei) as [Er Hf].
  pose proof (fun x => remap_translate a b va np x ltac:(eauto)) as Htr.
  destruct (as_remap a va b np) as [r a']. cbn [fst snd] in *. rewrite Er.
  destruct (proj2 (fi_map s _ I) va i Ei) as (v & Hv & Hl1 & Hl2 & Hl3 & Hl4). fold (fs_mm s) in Hv.
  assert (Hsp : forall p, fs_spare (set_space s2 a') (page_pfn i :: others) p = fs_spare s others p).
  { intros p. rewrite <- Hs. unfold fs_spare, fs_refs.
    cbn [fs_mm fs_vm set_space vm_mm set_mm set_as address_space shared_pages s2 set_contents].
    fold (fs_mm s1). rewrite Em. fold a. cbn [app]. rewrite !count_cons, !count_occ_app, !Nat2Z.inj_add.
    apply (Permutation_count_occ Z.eq_dec) with (x := p) in Hf.
    assert (Hf' : Z.of_nat (count_occ Z.eq_dec (b :: as_frames a) p) =
      Z.of_nat (count_occ Z.eq_dec (page_pfn i :: as_frames a') p)) by (by rewrite Hf).
    rewrite !count_cons in Hf'.
    change (fs_held (set_space s2 a') p) with (fs_held s1 p). lia. }
  assert (I2 : fs_inv (set_space s2 a') (page_pfn i :: others)).
  { split; [|apply I1|intros p; rewrite Hsp; apply I].
    change (mm_inv (set_as (fs_mm s1) a')). rewrite Em.
    apply (page_inv (fs_mm s) a' va v (mkPageInfo b np)); [apply I|done| |exact Htr].
    unfold le_perms, np. cbn. split; [done|]. by auto. }
  destruct (claimed_drop_spec _ others _ I2) as (s' & -> & I' & (Ev' & _ & Ec') & Hs' & Hh'). ostep.
  eexists _, _. split; [done|]. split; [done|].
  assert (Em' : fs_mm s' = set_as (fs_mm s) a') by (unfold fs_mm at 1; rewrite Ev'; cbn; by rewrite <- Em).
  rewrite Em'. unfold keeps, other_pages. rewrite Em'. cbn [vmas set_as address_space]. rewrite Ec'.
  split; [done|]. split.
  { intros q Hq. cbn. destruct (Z.eqb_spec q b) as [->|Hqb]; [lia|]. by apply Hcq. }
  split; [intros x Hx; by rewrite Htr, decide_False|]. split; [intros p; by rewrite Hs'|].
  exists (mkPageInfo b np). split; [by rewrite Htr, decide_True|]. split; [done|]. cbn [page_pfn].
  split; [rewrite Hh', decide_False by done; change (fs_held s1 b - 0 = 1); lia|].
  cbn. rewrite Z.eqb_refl. by apply Hcq.
Qed.

(** C2: a write to a copy-on-write page is resolved: afterwards the page is writable, it
    has the contents it had, and the process has the only reference to its frame, so
    that no other process sees the write; if the frame was shared the other processes
    keep it unchanged.  The only error is a lack of memory, with no effect.  All
    references to frames stay accounted for. *)
Theorem cow_fault_correct s others va i : fs_inv s others -> usize_ok va -> va + PAGE_SIZE < 2 ^ 64 ->
  as_translate (address_space (fs_mm s)) va = Some i -> pte_cow (page_perms i) = true ->
  exists res s', handle_protection_fault s va AccessWrite i = Return (res, s') /\
    cow_post s others va i res s'.
Proof.
  intros I Hu Hb Ei Hcow. unfold handle_protection_fault. rewrite Hcow. cbn [bool_decide andb].
  destruct (fi_alloc s others I) as (al & Ea & W). rewrite Ea. ostep.
  assert (Hp : 0 < fs_held s (page_pfn i)).
  { apply (owned_held s others); [done|]. apply elem_of_app. right. apply elem_of_app. left.
    by apply (mapped_frame s va). }
  unfold fs_held in Hp. rewrite Ea in Hp. rewrite (exclusive_held al _ W Hp). ostep.
  destruct (Z.eqb_spec (held al (page_pfn i)) 1) as [E1|_].
  - destruct (cow_exclusive s others va i) as (a' & -> & P); [done..|unfold fs_held; by rewrite Ea|].
    eexists _, _. by split.
  - by apply cow_copy.
Qed.
End FaultCorrect.

(** ** Concrete faults *)

#[local] Existing Instance list_IntrusiveList.
#[local] Existing Instance list_IntrusiveListLaws.

#[export] Instance PageTable_fault_laws : FaultLaws PageTable.
Proof.
  split.
  - intros a pfn va p _. cbn [as_map_page as_translate PageTable_space].
    destruct (a !! page_no va); [eauto|done].
  - intros a pfn va p u _. cbn [as_map_page as_translate PageTable_space]. by destruct (a !! page_no va).
  - intros a pfn va p va' [i Ei]. cbn [as_remap as_translate PageTable_space] in *. rewrite Ei. cbn [snd].
    assert (Hp : page_no va' = page_no va <-> page_of va' = page_of va).
    { unfold page_no, page_of. pose proof (Z.div_mod va PAGE_SIZE ltac:(done)).
      pose proof (Z.div_mod va' PAGE_SIZE ltac:(done)). pose proof (Z.mod_pos_bound va PAGE_SIZE ltac:(done)).
      pose proof (Z.mod_pos_bound va' PAGE_SIZE ltac:(done)). unfold PAGE_SIZE in *. lia. }
    case_decide as E; [|rewrite lookup_insert_ne; [done|]; intros E'; apply E, Hp; congruence].
    by rewrite (proj2 Hp E), lookup_insert_eq.
Qed.

(** A process with a page that it shares copy-on-write, and a file mapping. *)
Definition demo_cow_map : MemoryMap PageTable :=
  mkMM [demo_area 4096 12288 Anon perms_rw; demo_area 65536 8192 (File (mkFileMapping 7 0 5000)) perms_rx]
       {[2 := mkPageInfo 0 (into_cow (pte_rw true))]}.

Lemma demo_cow_wf : map_wf (vmas demo_cow_map).
Proof. solve_demo_wf. Qed.

Lemma demo_cow_inv : mm_inv demo_cow_map.
Proof.
  split; [apply demo_cow_wf|]. intros va i. cbn [address_space demo_cow_map as_translate PageTable_space].
  intros [E <-]%lookup_singleton_Some.
  exists (vma_new (mkRegion 4096 12288) Anon perms_rw). split; [|done].
  apply area_at_Some; [apply demo_cow_wf|]. exists 4096. split; [by left|].
  unfold page_no in E. pose proof (Z.div_mod va PAGE_SIZE ltac:(done)).
  pose proof (Z.mod_pos_bound va PAGE_SIZE ltac:(done)).
  unfold PAGE_SIZE in *. split; simpl; lia.
Qed.

Definition demo_fs : FaultState PageTable (list Z) :=
  mkFS (mkVM demo_cow_map (mkRegion 16384 0)) (Some demo_two) ∅ (fun _ => zero_page).

Lemma demo_fs_held p : fs_held demo_fs p = if decide (p = 0) then 2 else 0.
Proof. apply demo_two_wf. Qed.

(** The other reference to frame 0 is the other process's. *)
Lemma demo_fs_inv : fs_inv demo_fs [0].
Proof.
  split; [apply demo_cow_inv|exists demo_two; split; [reflexivity|apply demo_two_wf]|].
  intros p. unfold fs_spare. rewrite demo_fs_held.
  assert (E : [0] ++ fs_refs demo_fs = [0; 0]) by (vm_compute; reflexivity). rewrite E. clear E.
  cbn [count_occ]. destruct (Z.eq_dec 0 p) as [<-|Hne]; [rewrite decide_True by reflexivity; lia|].
  case_decide; lia.
Qed.

Definition fault_result (o : outcome (result FaultResolution * FaultState PageTable (list Z)))
    : option (result FaultResolution) :=
  match o with Return (r, _) => Some r | _ => None end.


Definition demo_deferred : DeferredFault :=
  mkDeferred 69700 AccessRead (vma_new (mkRegion 65536 8192) (File (mkFileMapping 7 0 5000)) perms_rx) 0
    (mkFileRead 4096 0 904 7).

(** The second page of the file mapping, of which the file has 904 bytes. *)
Lemma deferred_fault_correct_witness : exists res s',
  complete_deferred demo_fs demo_deferred (Ok [1; 2; 3]) = Return (res, s') /\
  deferred_post demo_fs [] demo_deferred (Ok [1; 2; 3]) res s' /\ res = Ok Resolved.
Proof.
  destruct (deferred_fault_correct demo_fs [] demo_deferred (Ok [1; 2; 3]) demo_fs_inv) as (res & s' & E & P).
  - split; simpl; lia.
  - vm_compute. reflexivity.
  - reflexivity.
  - exists res, s'. split; [exact E|]. split; [exact P|].
    assert (Er : fault_result (Return (res, s')) = Some (Ok Resolved))
      by (rewrite <- E; vm_compute; reflexivity). injection Er as Er. exact Er.
Defined.

Lemma cow_fault_correct_witness : exists res s',
  handle_protection_fault demo_fs 9000 AccessWrite (mkPageInfo 0 (into_cow (pte_rw true))) = Return (res, s') /\
  cow_post demo_fs [0] 9000 (mkPageInfo 0 (into_cow (pte_rw true))) res s' /\ res = Ok Resolved.
Proof.
  destruct (cow_fault_correct demo_fs [0] 9000 (mkPageInfo 0 (into_cow (pte_rw true))) demo_fs_inv)
    as (res & s' & E & P).
  - split; lia.
  - unfold PAGE_SIZE. lia.
  - vm_compute. reflexivity.
  - reflexivity.
  - exists res, s'. split; [exact E|]. split; [exact P|].
    assert (Er : fault_result (Return (res, s')) = Some (Ok Resolved))
      by (rewrite <- E; vm_compute; reflexivity). injection Er as Er. exact Er.
Defined.
