(* ===== verification/Blk.v ===== *)
(** * Block devices

    Models libkernel/src/fs/blk: the byte-level access of BlockBuffer (buffer.rs) over any
    block device, and the RAM disk (ramdisk.rs).  A device is used through the trait
    BlockDevice of libkernel/src/fs/mod.rs; [BlockDeviceLaws] is what the trait documents,
    with the bytes of the device as a list, and is proved of the RAM disk. *)
From stdpp Require Import base list.
From S2P Require Import Prelude Error Address Region Vma.
Local Open Scope Z_scope.

(** ** Slices of byte lists *)

Notation bytes := (list Z).
Definition zlen {A : Type} (l : list A) : Z := Z.of_nat (length l).
Definition slice {A : Type} (l : list A) (off n : Z) : list A := take (Z.to_nat n) (drop (Z.to_nat off) l).
(** [l[off..off + buf.len()].copy_from_slice(buf)] *)
Definition patch {A : Type} (l : list A) (off : Z) (buf : list A) : list A :=
  take (Z.to_nat off) l ++ buf ++ drop (Z.to_nat off + length buf) l.

Class BlockDevice (D : Type) := {
  block_size : D -> Z;
  dev_read : D -> Z -> Z -> result bytes;
  dev_write : D -> Z -> bytes -> result unit * D
}.

(** ** Byte-level access *)

Section BlockBuffer.
Context {D : Type} `{BlockDevice D}.

Record BlockBuffer := mkBuffer { bb_dev : D; bb_block_size : Z }.

Definition buffer_new (dev : D) : BlockBuffer := mkBuffer dev (block_size dev).

(** The blocks of a non-empty byte range: the first one and their number. *)
Definition block_range (b : BlockBuffer) (offset len : Z) : Z * Z :=
  let start_block := offset / bb_block_size b in
  let end_offset := uadd offset len in
  let end_block := usub end_offset 1 / bb_block_size b in
  (start_block, uadd (usub end_block start_block) 1).

Definition buffer_read_at (b : BlockBuffer) (offset len : Z) : result bytes :=
  if len =? 0 then Ok []
  else
    let (start_block, num_blocks) := block_range b offset len in
    try! temp_buf := dev_read (bb_dev b) start_block (umul num_blocks (bb_block_size b)) in
    Ok (slice temp_buf (offset mod bb_block_size b) len).

Definition buffer_write_at (b : BlockBuffer) (offset : Z) (buf : bytes) : result unit * BlockBuffer :=
  if zlen buf =? 0 then (Ok tt, b)
  else
    let (start_block, num_blocks) := block_range b offset (zlen buf) in
    match dev_read (bb_dev b) start_block (umul num_blocks (bb_block_size b)) with
    | Err e => (Err e, b)
    | Ok temp_buf =>
        let (r, dev) := dev_write (bb_dev b) start_block (patch temp_buf (offset mod bb_block_size b) buf) in
        (r, mkBuffer dev (bb_block_size b))
    end.
End BlockBuffer.
Arguments BlockBuffer : clear implicits.

(** ** The RAM disk *)

(** The memory of the disk is the region that [new] maps. *)
Record RamdiskBlkDev := mkRamdisk { rd_base : Z; num_blocks : Z; rd_mem : bytes }.

Section Ramdisk.
Context {KA : Type} (map_normal : KA -> MemoryRegion -> MemoryRegion -> PtePermissions -> result unit * KA).

Definition ramdisk_new (region : MemoryRegion) (base : Z) (mem : bytes) (kern_addr_spc : KA) : result RamdiskBlkDev * KA :=
  let (r, ka) := map_normal kern_addr_spc region (mkRegion base (rsize region)) (pte_rw false) in
  match r with
  | Err e => (Err e, ka)
  | Ok _ =>
      if negb (rsize region mod PAGE_SIZE =? 0) then (Err InvalidValue, ka)
      else (Ok (mkRamdisk base (rsize region / PAGE_SIZE) mem), ka)
  end.
End Ramdisk.

Definition ramdisk_read (d : RamdiskBlkDev) (block_id len : Z) : result bytes :=
  if uadd block_id (len / PAGE_SIZE) >? num_blocks d then Err (Io IoOutOfBounds)
  else Ok (slice (rd_mem d) (umul block_id PAGE_SIZE) len).

Definition ramdisk_write (d : RamdiskBlkDev) (block_id : Z) (buf : bytes) : result unit * RamdiskBlkDev :=
  if uadd block_id (zlen buf / PAGE_SIZE) >? num_blocks d then (Err (Io IoOutOfBounds), d)
  else (Ok tt, mkRamdisk (rd_base d) (num_blocks d) (patch (rd_mem d) (umul block_id PAGE_SIZE) buf)).

#[export] Instance ramdisk_device : BlockDevice RamdiskBlkDev := {|
  block_size _ := PAGE_SIZE;
  dev_read := ramdisk_read;
  dev_write := ramdisk_write
|}.

(** * Correctness *)

Lemma zlen_nonneg {A} (l : list A) : 0 <= zlen l.
Proof. unfold zlen. lia. Qed.
Lemma zlen_app {A} (l l' : list A) : zlen (l ++ l') = zlen l + zlen l'.
Proof. unfold zlen. rewrite length_app. lia. Qed.
Lemma zlen_slice {A} (l : list A) off n : 0 <= off -> 0 <= n -> zlen (slice l off n) = Z.max 0 (Z.min n (zlen l - off)).
Proof. intros. unfold zlen, slice. rewrite length_take, length_drop. lia. Qed.
Lemma zlen_slice_in {A} (l : list A) off n : 0 <= off -> 0 <= n -> off + n <= zlen l -> zlen (slice l off n) = n.
Proof. intros. rewrite zlen_slice by done. lia. Qed.

Lemma lookup_slice {A} (l : list A) off n i :
  slice l off n !! i = if decide (Z.of_nat i < n) then l !! (Z.to_nat off + i)%nat else None.
Proof.
  unfold slice. case_decide as Hi; [rewrite lookup_take_lt, lookup_drop by lia; done|]. apply lookup_take_ge. lia.
Qed.

Lemma lookup_patch {A} (l : list A) off buf i : 0 <= off -> off + zlen buf <= zlen l ->
  patch l off buf !! i = if decide (off <= Z.of_nat i < off + zlen buf) then buf !! (i - Z.to_nat off)%nat else l !! i.
Proof.
  intros Ho Hb. unfold patch, zlen in *. assert (Hl : length (take (Z.to_nat off) l) = Z.to_nat off) by (rewrite length_take; lia).
  destruct (decide (Z.of_nat i < off)) as [H1|H1].
  - rewrite decide_False by lia. rewrite lookup_app_l by lia. apply lookup_take_lt. lia.
  - rewrite lookup_app_r, Hl by lia. case_decide as H2.
    + apply lookup_app_l. lia.
    + rewrite lookup_app_r, lookup_drop by lia. f_equal. lia.
Qed.

Lemma slice_slice {A} (l : list A) a n b m : 0 <= a -> 0 <= b -> b + m <= n -> slice (slice l a n) b m = slice l (a + b) m.
Proof.
  intros. apply list_eq. intros i. rewrite !lookup_slice. repeat case_decide; try done; try lia. f_equal. lia.
Qed.

Lemma slice_app {A} (l : list A) a n m : 0 <= a -> 0 <= n -> 0 <= m -> slice l a (n + m) = slice l a n ++ slice l (a + n) m.
Proof.
  intros. unfold slice. rewrite !Z2Nat.inj_add, <- drop_drop by lia.
  generalize (drop (Z.to_nat a) l) as k. intros k. apply list_eq. intros i.
  destruct (decide (i < Z.to_nat n)%nat) as [Hi|Hi].
  - rewrite lookup_take_lt by lia. destruct (decide (i < length k)%nat).
    + rewrite lookup_app_l by (rewrite length_take; lia). by rewrite lookup_take_lt by lia.
    + rewrite lookup_ge_None_2 by lia. symmetry. apply lookup_ge_None_2. rewrite length_app, !length_take, length_drop. lia.
  - destruct (decide (length k <= Z.to_nat n)%nat) as [Hk|Hk].
    + rewrite lookup_ge_None_2 by (rewrite length_take; lia). symmetry. apply lookup_ge_None_2. rewrite length_app, !length_take, length_drop. lia.
    + rewrite lookup_app_r by (rewrite length_take; lia). rewrite length_take, Nat.min_l by lia.
      destruct (decide (i < Z.to_nat n + Z.to_nat m)%nat).
      * rewrite !lookup_take_lt, lookup_drop by lia. f_equal. lia.
      * rewrite !lookup_take_ge by lia. done.
Qed.

Lemma slice_all {A} (l : list A) : slice l 0 (zlen l) = l.
Proof. unfold slice, zlen. rewrite Nat2Z.id. apply firstn_all. Qed.

Lemma zlen_patch {A} (l : list A) off buf : 0 <= off -> off + zlen buf <= zlen l -> zlen (patch l off buf) = zlen l.
Proof. intros. unfold patch, zlen in *. rewrite !length_app, length_take, length_drop. lia. Qed.

Lemma patch_slice_nested {A} (l : list A) a n b buf : 0 <= a -> 0 <= b -> 0 <= n -> b + zlen buf <= n -> a + n <= zlen l ->
  patch l a (patch (slice l a n) b buf) = patch l (a + b) buf.
Proof.
  intros. pose proof (zlen_nonneg buf). assert (Hs : zlen (slice l a n) = n) by (apply zlen_slice_in; lia).
  assert (Hp : zlen (patch (slice l a n) b buf) = n) by (rewrite zlen_patch; lia).
  apply list_eq. intros i. rewrite !lookup_patch by lia. rewrite Hp.
  repeat case_decide; try lia; try done.
  - f_equal. lia.
  - rewrite lookup_slice, decide_True by lia. f_equal. lia.
Qed.

(** What the trait documents: block-aligned transfers inside of the device. *)
Class BlockDeviceLaws (D : Type) `{BlockDevice D} := {
  dev_ok : D -> Prop;
  dev_bytes : D -> bytes;
  dev_block_pos : forall d, 0 < block_size d;
  dev_whole_blocks : forall d, dev_ok d -> zlen (dev_bytes d) mod block_size d = 0;
  dev_read_ok : forall d id n, dev_ok d -> 0 <= id -> 0 <= n -> n mod block_size d = 0 ->
    id * block_size d + n <= zlen (dev_bytes d) -> zlen (dev_bytes d) < 2 ^ 63 ->
    dev_read d id n = Ok (slice (dev_bytes d) (id * block_size d) n);
  dev_write_ok : forall d id buf, dev_ok d -> 0 <= id -> zlen buf mod block_size d = 0 ->
    id * block_size d + zlen buf <= zlen (dev_bytes d) -> zlen (dev_bytes d) < 2 ^ 63 ->
    exists d', dev_write d id buf = (Ok tt, d') /\ dev_ok d' /\ block_size d' = block_size d /\
      dev_bytes d' = patch (dev_bytes d) (id * block_size d) buf
}.

Section BufferCorrect.
Context {D : Type} `{BlockDeviceLaws D}.

Definition buffer_ok (b : BlockBuffer D) : Prop :=
  bb_block_size b = block_size (bb_dev b) /\ dev_ok (bb_dev b) /\ zlen (dev_bytes (bb_dev b)) < 2 ^ 63.
Definition buffer_bytes (b : BlockBuffer D) : bytes := dev_bytes (bb_dev b).

(** The blocks of a range cover it and lie on the device. *)
Lemma block_range_spec b offset len : buffer_ok b -> 0 <= offset -> 0 < len -> offset + len <= zlen (buffer_bytes b) ->
  exists id n, block_range b offset len = (id, n) /\ 0 <= id /\ umul n (bb_block_size b) = n * block_size (bb_dev b) /\
    (n * block_size (bb_dev b)) mod block_size (bb_dev b) = 0 /\ 0 <= n * block_size (bb_dev b) /\
    id * block_size (bb_dev b) + n * block_size (bb_dev b) <= zlen (buffer_bytes b) /\
    offset = id * block_size (bb_dev b) + offset mod block_size (bb_dev b) /\
    offset mod block_size (bb_dev b) + len <= n * block_size (bb_dev b).
Proof.
  intros (Hb & Hdo & Hl) Ho Hn Hr. unfold buffer_bytes in *. set (L := zlen (dev_bytes (bb_dev b))) in *. unfold block_range. rewrite Hb.
  pose proof (dev_block_pos (bb_dev b)) as Hp. pose proof (dev_whole_blocks (bb_dev b) Hdo) as Hw. fold L in Hw. set (k := block_size (bb_dev b)) in *.
  rewrite (uadd_small offset len), (usub_small (offset + len) 1) by lia. set (id := offset / k). set (e := (offset + len - 1) / k).
  assert (Hie : 0 <= id <= e) by (split; [apply Z.div_pos; lia|apply Z.div_le_mono; lia]).
  pose proof (Z.div_mod offset k ltac:(lia)) as Hdd. pose proof (Z.mod_pos_bound offset k Hp) as Hmo. fold id in Hdd.
  pose proof (Z.div_mod (offset + len - 1) k ltac:(lia)) as Hde. pose proof (Z.mod_pos_bound (offset + len - 1) k Hp) as Hme. fold e in Hde.
  assert (HeL : (e + 1) * k <= L).
  { apply Z.div_exact in Hw; [|lia]. set (q := L / k) in *. assert (e < q) by (apply Z.div_lt_upper_bound; lia). nia. }
  assert (He63 : e < 2 ^ 63) by nia.
  rewrite (usub_small e id), (uadd_small (e - id) 1) by lia. exists id, (e - id + 1). split; [done|]. split; [lia|].
  split; [apply umul_small; nia|]. split; [apply Z.mod_mul; lia|]. nia.
Qed.

Lemma buffer_read_at_spec b offset len : buffer_ok b -> 0 <= offset -> 0 <= len -> offset + len <= zlen (buffer_bytes b) ->
  buffer_read_at b offset len = Ok (slice (buffer_bytes b) offset len).
Proof.
  intros Hok Ho Hn Hr. unfold buffer_read_at. destruct (Z.eqb_spec len 0) as [->|Hnz]; [done|].
  destruct (block_range_spec b offset len Hok Ho ltac:(lia) Hr) as (id & n & -> & Hid & -> & Hal & Hn0 & Hin & Hoff & Hcov).
  destruct Hok as (Hb & Hdo & Hl). rewrite dev_read_ok by done. cbn [rbind]. rewrite Hb.
  pose proof (dev_block_pos (bb_dev b)) as Hk. pose proof (Z.mod_pos_bound offset _ Hk).
  rewrite slice_slice by (done || lia || apply Z.mul_nonneg_nonneg; lia). by rewrite <- Hoff.
Qed.

Lemma buffer_write_at_spec b offset buf : buffer_ok b -> 0 <= offset -> offset + zlen buf <= zlen (buffer_bytes b) ->
  exists b', buffer_write_at b offset buf = (Ok tt, b') /\ buffer_ok b' /\ buffer_bytes b' = patch (buffer_bytes b) offset buf.
Proof.
  intros Hok Ho Hr. unfold buffer_write_at. pose proof (zlen_nonneg buf). destruct (Z.eqb_spec (zlen buf) 0) as [E|Hnz].
  { exists b. split; [done|]. split; [done|]. destruct buf; [|unfold zlen in E; simpl in E; lia]. unfold patch. simpl.
    by rewrite Nat.add_0_r, take_drop. }
  destruct (block_range_spec b offset (zlen buf) Hok Ho ltac:(lia) Hr) as (id & n & -> & Hid & -> & Hal & Hn0 & Hin & Hoff & Hcov).
  destruct Hok as (Hb & Hdo & Hl). pose proof (Z.mod_pos_bound offset _ (dev_block_pos (bb_dev b))) as Hm. unfold buffer_bytes in *.
  pose proof (dev_block_pos (bb_dev b)) as Hk.
  assert (Hidk : 0 <= id * block_size (bb_dev b)) by nia.
  rewrite dev_read_ok by done. cbn. rewrite Hb. set (k := block_size (bb_dev b)) in *.
  set (sl := slice (dev_bytes (bb_dev b)) (id * k) (n * k)). assert (Hsl : zlen sl = n * k) by (apply zlen_slice_in; lia).
  assert (Hz : zlen (patch sl (offset mod k) buf) = n * k) by (rewrite zlen_patch; lia).
  destruct (dev_write_ok (bb_dev b) id (patch sl (offset mod k) buf) Hdo Hid) as (d' & -> & Hok' & Hb' & Hd'); rewrite ?Hz; try done.
  eexists. split; [done|]. split; [split; simpl; [by rewrite Hb'|split; [done|]]|]; simpl; rewrite Hd'; fold k.
  - rewrite zlen_patch; lia.
  - unfold sl. rewrite patch_slice_nested by lia. by rewrite <- Hoff.
Qed.

(** C39: byte-level access to a block device.  Reading any range of the device gives
    exactly its bytes, whatever the block size and alignment; writing changes exactly the
    bytes of the range and keeps the rest, although whole blocks are read and written. *)
Theorem block_buffer_correct b offset buf off' len' : buffer_ok b -> 0 <= offset -> offset + zlen buf <= zlen (buffer_bytes b) ->
  0 <= off' -> 0 <= len' -> off' + len' <= zlen (buffer_bytes b) ->
  buffer_read_at b off' len' = Ok (slice (buffer_bytes b) off' len') /\
  exists b', buffer_write_at b offset buf = (Ok tt, b') /\ buffer_ok b' /\
    buffer_read_at b' off' len' = Ok (slice (patch (buffer_bytes b) offset buf) off' len') /\
    buffer_read_at b' offset (zlen buf) = Ok buf.
Proof.
  intros Hok Ho Hr Ho' Hn' Hr'. split; [by apply buffer_read_at_spec|].
  destruct (buffer_write_at_spec b offset buf Hok Ho Hr) as (b' & Hw & Hok' & Hb'). exists b'. pose proof (zlen_nonneg buf).
  assert (Hl : zlen (buffer_bytes b') = zlen (buffer_bytes b)) by (rewrite Hb'; by apply zlen_patch).
  split; [done|]. split; [done|]. rewrite !buffer_read_at_spec by (done || lia). split; [by rewrite Hb'|]. f_equal.
  apply list_eq. intros i. rewrite Hb', lookup_slice. case_decide.
  - rewrite lookup_patch, decide_True by lia. f_equal. lia.
  - symmetry. apply lookup_ge_None_2. unfold zlen in *. lia.
Qed.
End BufferCorrect.

(** ** The RAM disk keeps the contract *)

#[export] Instance ramdisk_laws : BlockDeviceLaws RamdiskBlkDev.
Proof.
  refine {| dev_ok := fun d => zlen (rd_mem d) = num_blocks d * PAGE_SIZE; dev_bytes := rd_mem |}; simpl.
  - intros _. unfold PAGE_SIZE. lia.
  - intros d ->. apply Z.mod_mul. unfold PAGE_SIZE. lia.
  - intros d id n Hd Hid Hn Ha Hr Hl. unfold ramdisk_read. apply Z.div_exact in Ha; [|unfold PAGE_SIZE; lia]. rewrite Hd in *.
    rewrite Ha in Hr at 1. unfold PAGE_SIZE in *. rewrite uadd_small, umul_small by lia. bcase; [lia|done].
  - intros d id buf Hd Hid Ha Hr Hl. unfold ramdisk_write. pose proof (zlen_nonneg buf). pose proof Ha as Hb. apply Z.div_exact in Hb; [|unfold PAGE_SIZE; lia].
    pose proof Hr as Hr'. rewrite Hd in Hl, Hr'. rewrite Hb in Hr' at 1. unfold PAGE_SIZE in *. rewrite uadd_small, umul_small by lia.
    bcase; [lia|]. eexists. split; [done|]. simpl. split; [|done]. rewrite zlen_patch; lia.
Defined.

(** [new] gives a disk that satisfies it. *)
Lemma ramdisk_new_spec {KA : Type} (map_normal : KA -> MemoryRegion -> MemoryRegion -> PtePermissions -> result unit * KA) region base mem ka d ka' :
  ramdisk_new map_normal region base mem ka = (Ok d, ka') -> zlen mem = rsize region -> dev_ok d /\ dev_bytes d = mem.
Proof.
  unfold ramdisk_new. destruct (map_normal _ _ _ _) as [[u|e] k]; [|done]. destruct (rsize region mod PAGE_SIZE =? 0) eqn:E; [|done].
  intros [= <- <-] Hm. simpl. breflect. apply Z.div_exact in E; [|unfold PAGE_SIZE; lia]. split; [lia|done].
Qed.

(** Two blocks of zeroes. *)
Definition demo_disk : BlockBuffer RamdiskBlkDev := buffer_new (mkRamdisk 0 2 (replicate 8192 0)).

Lemma block_buffer_correct_witness : exists b', buffer_write_at demo_disk 4095 [1; 2; 3] = (Ok tt, b') /\
  buffer_read_at b' 4095 3 = Ok [1; 2; 3].
Proof.
  destruct (block_buffer_correct demo_disk 4095 [1; 2; 3] 0 8) as (_ & b' & Hw & _ & _ & Hr).
  - split; [reflexivity|]. split; [vm_compute; reflexivity|]. vm_compute. reflexivity.
  - lia.
  - vm_compute. discriminate.
  - lia.
  - lia.
  - vm_compute. discriminate.
  - exists b'. exact (conj Hw Hr).
Defined.
