(* ===== verification/Attr.v ===== *)
(** * File attributes, identities and access checks

    Models libkernel/src/fs/attr.rs (permission bits, file modes, file attributes and
    [check_access]), the identifiers of libkernel/src/fs/mod.rs that they use, and
    libkernel/src/proc: the capability sets (caps.rs) and user and group ids (ids.rs).
    Bit-flag types are their bits; [bits_contain] and [intersects] are those of the bitflags
    crate. *)
From stdpp Require Import base list.
From S2P Require Import Prelude Error.
Local Open Scope Z_scope.

(** ** Bit flags *)

Definition bits_contain (a b : Z) : bool := Z.land a b =? b.
Definition intersects (a b : Z) : bool := negb (Z.land a b =? 0).

Lemma contains_bit a k : 0 <= k -> bits_contain a (2 ^ k) = Z.testbit a k.
Proof.
  intros Hk. unfold bits_contain. rewrite Z.land_comm.
  destruct (Z.testbit a k) eqn:E.
  - apply Z.eqb_eq. apply Z.bits_inj'. intros n Hn. rewrite Z.land_spec, Z.pow2_bits_eqb by done.
    destruct (Z.eqb_spec k n) as [<-|]; [by rewrite E|done].
  - apply Z.eqb_neq. intros H. apply (f_equal (fun x => Z.testbit x k)) in H.
    rewrite Z.land_spec, Z.pow2_bits_true, E in H by done. done.
Qed.

Lemma contains_subset a b : bits_contain a b = true <-> forall k, 0 <= k -> Z.testbit b k = true -> Z.testbit a k = true.
Proof.
  unfold bits_contain. rewrite Z.eqb_eq. split.
  - intros H k Hk Hb. rewrite <- H, Z.land_spec in Hb. by apply andb_true_iff in Hb as [? _].
  - intros H. apply Z.bits_inj'. intros n Hn. rewrite Z.land_spec.
    destruct (Z.testbit b n) eqn:E; [by rewrite (H n Hn E)|apply andb_false_r].
Qed.

Lemma contains_refl a : bits_contain a a = true.
Proof. by apply contains_subset. Qed.

Lemma contains_trans a b c : bits_contain a b = true -> bits_contain b c = true -> bits_contain a c = true.
Proof. rewrite !contains_subset. auto. Qed.

(** ** Capabilities and ids *)

Notation CAP_DAC_OVERRIDE := (2 ^ 1).
Notation CAP_DAC_READ_SEARCH := (2 ^ 2).
Notation CAP_SETGID := (2 ^ 6).
Notation CAP_SETUID := (2 ^ 7).
Notation CAP_SETPCAP := (2 ^ 8).
(** [CapabilitiesFlags::all()]: the 41 flags from CAP_CHOWN to CAP_CHECKPOINT_RESTORE. *)
Notation CAP_ALL := (2 ^ 41 - 1).

Record Capabilities := mkCaps {
  effective : Z; permitted : Z; inheritable : Z; ambient : Z; bounding : Z
}.

Definition caps_new_root : Capabilities := mkCaps CAP_ALL CAP_ALL CAP_ALL CAP_ALL CAP_ALL.
Definition caps_new_empty : Capabilities := mkCaps 0 0 0 0 0.
Notation caps_new_cap cap := (mkCaps cap cap cap cap cap) (only parsing).

Definition set_public (self caller_caps : Capabilities) (eff perm inh : Z) : result unit * Capabilities :=
  if negb (bits_contain (permitted self) perm)
     || negb (bits_contain perm eff)
     || (negb (bits_contain (bounding self) inh) && negb (bits_contain (effective caller_caps) CAP_SETPCAP))
  then (Err NotPermitted, self)
  else (Ok tt, mkCaps eff perm inh (ambient self) (bounding self)).

Definition is_capable (self : Capabilities) (cap : Z) : bool := bits_contain (effective self) cap.
Definition check_capable (self : Capabilities) (cap : Z) : result unit :=
  if negb (bits_contain (effective self) cap) then Err NotPermitted else Ok tt.

(** [Uid] and [Gid] are 32-bit numbers; [as u32] truncates. *)
Definition as_u32 (x : Z) : Z := x mod 2 ^ 32.
Notation is_root uid := (uid =? 0) (only parsing).

(** ** Permissions, file types and modes *)

Notation X_OK := (2 ^ 0).
Notation W_OK := (2 ^ 1).
Notation R_OK := (2 ^ 2).

Notation S_IXOTH := (2 ^ 0).
Notation S_IXGRP := (2 ^ 3).
Notation S_IXUSR := (2 ^ 6).
Notation S_IWUSR := (2 ^ 7).
Notation S_IRUSR := (2 ^ 8).
(** The twelve flags of [FilePermissions] and the sixteen bits covered by [FileMode]. *)
Notation PERM_ALL := (0xfff).
Notation MODE_ALL := (0xffff).

Definition perm_from_bits_truncate (bits : Z) : Z := Z.land bits PERM_ALL.
Definition mode_from_bits_truncate (bits : Z) : Z := Z.land bits MODE_ALL.

Record CharDevDescriptor := mkDev { major : Z; minor : Z }.

Inductive FileType : Type :=
| File | Directory | Symlink
| BlockDev (d : CharDevDescriptor) | CharDev (d : CharDevDescriptor)
| Fifo | Socket.

#[export] Instance CharDevDescriptor_eq_dec : EqDecision CharDevDescriptor.
Proof. solve_decision. Defined.
#[export] Instance FileType_eq_dec : EqDecision FileType.
Proof. solve_decision. Defined.

Definition file_type_to_u32 (ft : FileType) : Z :=
  match ft with
  | Directory => 0x4000 | CharDev _ => 0x2000 | BlockDev _ => 0x6000 | File => 0x8000
  | Fifo => 0x1000 | Symlink => 0xA000 | Socket => 0xC000
  end.

Definition filemode_new (file_type : FileType) (permissions : Z) : Z :=
  let mode := mode_from_bits_truncate permissions in
  Z.lor mode
    match file_type with
    | Directory => 0x4000 | File => 0x8000 | Symlink => 0xA000 | BlockDev _ => 0x6000
    | CharDev _ => 0x2000 | Fifo => 0x1000 | Socket => 0xC000
    end.
Definition perm_of_mode (mode : Z) : Z := perm_from_bits_truncate mode.

Record InodeId := mkInodeId { fs_id : Z; inode_id : Z }.
Notation inode_dummy := (mkInodeId (2 ^ 64 - 1) (2 ^ 64 - 1)).

#[export] Instance InodeId_eq_dec : EqDecision InodeId.
Proof. solve_decision. Defined.

(** Times are durations since the epoch, in nanoseconds. *)
Record FileAttr := mkAttr {
  attr_id : InodeId; attr_size : Z; attr_block_size : Z; attr_blocks : Z;
  atime : Z; btime : Z; mtime : Z; ctime : Z;
  file_type : FileType; permissions : Z; nlinks : Z; attr_uid : Z; attr_gid : Z
}.

Definition attr_default : FileAttr :=
  mkAttr inode_dummy 0 0 0 0 0 0 0 File 0 1 0 0.

(** ** Access checks *)

Definition check_access (self : FileAttr) (uid gid : Z) (caps : Capabilities) (requested_mode : Z) : result unit :=
  if is_capable caps CAP_DAC_OVERRIDE then Ok tt
  else if is_root uid
       && (if bits_contain requested_mode X_OK
           then intersects (permissions self) (Z.lor (Z.lor S_IXUSR S_IXGRP) S_IXOTH)
           else true) then Ok tt
  else
    let perms_to_check :=
      if attr_uid self =? uid then permissions self
      else if attr_gid self =? gid then perm_from_bits_truncate (Z.shiftl (permissions self) 3 mod 2 ^ 16)
      else perm_from_bits_truncate (Z.shiftl (permissions self) 6 mod 2 ^ 16) in
    if bits_contain requested_mode R_OK && negb (bits_contain perms_to_check S_IRUSR)
       && negb (is_capable caps CAP_DAC_READ_SEARCH) then Err NotPermitted
    else if bits_contain requested_mode W_OK && negb (bits_contain perms_to_check S_IWUSR) then Err NotPermitted
    else if bits_contain requested_mode X_OK && negb (bits_contain perms_to_check S_IXUSR)
       && (negb (bool_decide (file_type self = Directory)) || negb (is_capable caps CAP_DAC_READ_SEARCH))
    then Err NotPermitted
    else Ok tt.

(** ** Reference: the POSIX rule

    The class of the caller selects three of the nine permission bits; every requested access
    is granted by its bit of that class or by a capability. *)

Inductive access : Type := Read | Write | Execute.
Inductive class : Type := Owner | Group | Others.

Definition access_bit (m : access) : Z := match m with Execute => 0 | Write => 1 | Read => 2 end.
Definition class_of (f : FileAttr) (uid gid : Z) : class :=
  if attr_uid f =? uid then Owner else if attr_gid f =? gid then Group else Others.
Definition class_shift (c : class) : Z := match c with Owner => 6 | Group => 3 | Others => 0 end.
Definition requests (mode : Z) (m : access) : bool := Z.testbit mode (access_bit m).
Definition has_cap (caps : Capabilities) (k : Z) : bool := Z.testbit (effective caps) k.

Definition grants (f : FileAttr) (c : class) (m : access) : bool :=
  Z.testbit (permissions f) (class_shift c + access_bit m).
Definition search_override (f : FileAttr) (caps : Capabilities) (m : access) : Prop :=
  has_cap caps 2 = true /\ match m with Read => True | Write => False | Execute => file_type f = Directory end.

(** The superuser may do anything, except execute what nobody may execute. *)
Definition superuser_may (f : FileAttr) (uid mode : Z) : Prop :=
  uid = 0 /\ (requests mode Execute = true -> exists c, grants f c Execute = true).

Definition posix_access (f : FileAttr) (uid gid : Z) (caps : Capabilities) (mode : Z) : Prop :=
  has_cap caps 1 = true \/ superuser_may f uid mode \/
  forall m, requests mode m = true -> grants f (class_of f uid gid) m = true \/ search_override f caps m.

(** *** Lemmas *)

Lemma perm_shift_bit p s k : 0 <= s <= 6 -> 0 <= k < 12 ->
  bits_contain (perm_from_bits_truncate (Z.shiftl p s mod 2 ^ 16)) (2 ^ k) = Z.testbit p (k - s).
Proof.
  intros Hs Hk. rewrite contains_bit by lia. unfold perm_from_bits_truncate.
  change PERM_ALL with (Z.ones 12). rewrite Z.land_ones, Z.mod_pow2_bits_low by lia.
  rewrite Z.mod_pow2_bits_low, Z.shiftl_spec by lia. done.
Qed.

(** The bits [check_access] looks at are those of the class. *)
Lemma perms_to_check_bit f uid gid m :
  bits_contain (if attr_uid f =? uid then permissions f
            else if attr_gid f =? gid then perm_from_bits_truncate (Z.shiftl (permissions f) 3 mod 2 ^ 16)
            else perm_from_bits_truncate (Z.shiftl (permissions f) 6 mod 2 ^ 16)) (2 ^ (6 + access_bit m))
  = grants f (class_of f uid gid) m.
Proof.
  unfold grants, class_of. pose proof (eq_refl (access_bit m)) as Hm.
  assert (0 <= access_bit m <= 2) by (destruct m; simpl; lia).
  destruct (attr_uid f =? uid); [by rewrite contains_bit by lia|].
  destruct (attr_gid f =? gid); rewrite perm_shift_bit by lia; f_equal; simpl; lia.
Qed.

Lemma execute_bits p :
  intersects p (Z.lor (Z.lor S_IXUSR S_IXGRP) S_IXOTH)
  = Z.testbit p 6 || Z.testbit p 3 || Z.testbit p 0.
Proof.
  unfold intersects. change (Z.lor (Z.lor S_IXUSR S_IXGRP) S_IXOTH) with 73.
  destruct (Z.testbit p 6 || Z.testbit p 3 || Z.testbit p 0) eqn:E.
  - apply negb_true_iff, Z.eqb_neq. intros H.
    assert (forall k, Z.testbit p k && Z.testbit 73 k = false) as Hk
      by (intros k; rewrite <- Z.land_spec, H; apply Z.bits_0).
    pose proof (Hk 6) as H6. pose proof (Hk 3) as H3. pose proof (Hk 0) as H0.
    change (Z.testbit 73 6) with true in H6. change (Z.testbit 73 3) with true in H3.
    change (Z.testbit 73 0) with true in H0. rewrite andb_true_r in H6, H3, H0.
    by rewrite H6, H3, H0 in E.
  - apply negb_false_iff, Z.eqb_eq, Z.bits_inj'. intros n Hn.
    apply orb_false_iff in E as [[E6 E3]%orb_false_iff E0].
    rewrite Z.land_spec, Z.bits_0.
    destruct (decide (n = 0)) as [->|]; [by rewrite E0|].
    destruct (decide (n = 3)) as [->|]; [by rewrite E3|].
    destruct (decide (n = 6)) as [->|]; [by rewrite E6|].
    change 73 with (Z.lor (Z.lor (2 ^ 6) (2 ^ 3)) (2 ^ 0)).
    rewrite !Z.lor_spec, !Z.pow2_bits_false by lia. apply andb_false_r.
Qed.

Lemma superuser_spec f uid mode :
  is_root uid && (if bits_contain mode X_OK
     then intersects (permissions f) (Z.lor (Z.lor S_IXUSR S_IXGRP) S_IXOTH) else true) = true
  <-> superuser_may f uid mode.
Proof.
  unfold superuser_may, requests. rewrite andb_true_iff, Z.eqb_eq.
  rewrite contains_bit by lia. cbn [access_bit].
  rewrite execute_bits. destruct (Z.testbit mode 0).
  - rewrite !orb_true_iff. split.
    + intros [-> H]. split; [done|intros _].
      destruct H as [[H|H]|H]; [by exists Owner|by exists Group|by exists Others].
    + intros [-> H]. split; [done|]. destruct (H eq_refl) as [[] Hc]; unfold grants in Hc; simpl in Hc; tauto.
  - split; [intros [-> _]; done|intros [-> _]; done].
Qed.

Lemma access_chain (r w x gr gw gx c : bool) (d : Prop) `{Decision d} :
  (if r && negb gr && negb c then Err NotPermitted
   else if w && negb gw then Err NotPermitted
   else if x && negb gx && (negb (bool_decide d) || negb c) then Err NotPermitted
   else Ok tt) = Ok tt <->
  (r = true -> gr = true \/ c = true /\ True) /\ (w = true -> gw = true \/ c = true /\ False) /\
  (x = true -> gx = true \/ c = true /\ d).
Proof.
  transitivity (r && negb gr && negb c || w && negb gw || x && negb gx && (negb (bool_decide d) || negb c) = false);
    [by destruct (r && negb gr && negb c), (w && negb gw), (x && negb gx && (negb (bool_decide d) || negb c))|].
  rewrite !orb_false_iff, !andb_false_iff, orb_false_iff, !negb_false_iff, bool_decide_eq_true.
  destruct r, w, x, c; intuition congruence.
Qed.

(** C40: [check_access] decides the POSIX rule. It succeeds exactly if the caller has
    CAP_DAC_OVERRIDE, or is the superuser and does not ask to execute what nobody may
    execute, or every requested access is granted by the bit of the one class (owner, group,
    others) the caller falls into, with CAP_DAC_READ_SEARCH standing in for reading and for
    searching a directory; otherwise it fails with NotPermitted. *)
Theorem check_access_posix f uid gid caps mode :
  (check_access f uid gid caps mode = Ok tt <-> posix_access f uid gid caps mode) /\
  (check_access f uid gid caps mode = Ok tt \/ check_access f uid gid caps mode = Err NotPermitted).
Proof.
  unfold check_access, posix_access, is_capable.
  rewrite (contains_bit (effective caps) 1), (contains_bit (effective caps) 2) by lia. fold (has_cap caps 1). fold (has_cap caps 2).
  destruct (has_cap caps 1); [split; [split; [by left|done]|by left]|].
  destruct (is_root uid && _) eqn:Es.
  { apply superuser_spec in Es. split; [split; [by right; left|done]|by left]. }
  assert (~ superuser_may f uid mode) as Hns by (intros H%superuser_spec; congruence).
  cbv zeta. change S_IRUSR with (2 ^ (6 + access_bit Read)). change S_IWUSR with (2 ^ (6 + access_bit Write)).
  change S_IXUSR with (2 ^ (6 + access_bit Execute)).
  rewrite (perms_to_check_bit f uid gid Read), (perms_to_check_bit f uid gid Write), (perms_to_check_bit f uid gid Execute).
  rewrite !contains_bit by lia.
  change (Z.testbit mode 2) with (requests mode Read). change (Z.testbit mode 1) with (requests mode Write).
  change (Z.testbit mode 0) with (requests mode Execute).
  split; [|bcases; auto]. rewrite access_chain. split.
  - intros (Hr & Hw & Hx). right. right. by intros [].
  - intros [[=]|[?|H]]; [done|]. exact (conj (H Read) (conj (H Write) (H Execute))).
Qed.

(** ** File modes *)

(** A file mode tells the file type and the permissions: made from the twelve permission
    bits it gives them back, its type bits are those of the file type, so that two modes are
    equal only for the same kind of file. *)
Theorem filemode_roundtrip ft p : bits_contain PERM_ALL p = true -> 0 <= p ->
  perm_of_mode (filemode_new ft p) = p /\
  Z.land (filemode_new ft p) 0xf000 = file_type_to_u32 ft /\
  0 <= filemode_new ft p < 2 ^ 16.
Proof.
  intros Hc Hp.
  assert (p < 2 ^ 12) as Hp'.
  { unfold bits_contain in Hc. apply Z.eqb_eq in Hc. change PERM_ALL with (Z.ones 12) in Hc.
    rewrite Z.land_comm, Z.land_ones in Hc by lia. rewrite <- Hc. apply Z.mod_pos_bound. lia. }
  assert (forall n, 12 <= n -> Z.testbit p n = false) as Hhi.
  { intros n Hn. destruct (decide (p = 0)) as [->|]; [apply Z.bits_0|].
    apply Z.bits_above_log2; [done|]. apply Z.log2_lt_pow2 in Hp'; lia. }
  assert (filemode_new ft p = Z.lor p (file_type_to_u32 ft)) as ->.
  { unfold filemode_new, mode_from_bits_truncate. change MODE_ALL with (Z.ones 16).
    rewrite Z.land_ones, Z.mod_small by lia. by destruct ft. }
  assert (Z.land (file_type_to_u32 ft) 0xfff = 0 /\ Z.land (file_type_to_u32 ft) 0xf000 = file_type_to_u32 ft
    /\ 0 <= file_type_to_u32 ft < 2 ^ 16) as (Hl & Hh & Hr) by (destruct ft; vm_compute; intuition congruence).
  unfold perm_of_mode, perm_from_bits_truncate. rewrite !Z.land_lor_distr_l, Hl, Hh, Z.lor_0_r.
  assert (Z.land p 0xf000 = 0) as ->.
  { apply Z.bits_inj'. intros n Hn. rewrite Z.land_spec, Z.bits_0.
    destruct (decide (12 <= n)); [by rewrite Hhi|].
    change 0xf000 with (Z.shiftl 15 12). rewrite Z.shiftl_spec_low by lia. apply andb_false_r. }
  rewrite Z.lor_0_l. split_and!; [|done|apply Z.lor_nonneg; lia|].
  - change 0xfff with (Z.ones 12). rewrite Z.land_ones by lia. apply Z.mod_small. lia.
  - destruct (decide (Z.lor p (file_type_to_u32 ft) = 0)) as [->|]; [lia|].
    assert (0 <= Z.lor p (file_type_to_u32 ft)) by (apply Z.lor_nonneg; lia).
    apply Z.log2_lt_pow2; [lia|]. rewrite Z.log2_lor by lia.
    assert (Z.log2 p < 12).
    { destruct (decide (p = 0)) as [->|]; [done|]. apply Z.log2_lt_pow2; lia. }
    destruct ft; simpl; lia.
Qed.

Lemma filemode_roundtrip_witness : perm_of_mode (filemode_new Directory 0x1ed) = 0x1ed.
Proof. apply (filemode_roundtrip Directory 0x1ed); [reflexivity|lia]. Defined.
