(* ===== verification/Creds.v ===== *)
(** * Process credentials

    Models the credential system calls: src/process/creds.rs (user and group ids, sessions),
    src/process/caps.rs (capget and capset) and src/process/prctl.rs.  The tasks of the system
    are a map from their ids to their credentials and names.  What a copy from or to user
    memory yields is an argument of the call, since user memory may hold anything and any
    access may fault; a call is one step. *)
From stdpp Require Import base list gmap.
From S2P Require Import Prelude Error Attr.
Local Open Scope Z_scope.

(** ** Credentials and their system calls *)

Record Credentials := mkCreds {
  uid : Z; euid : Z; suid : Z; gid : Z; egid : Z; sgid : Z; caps : Capabilities
}.

Notation creds_new_root := (mkCreds 0 0 0 0 0 0 caps_new_root) (only parsing).

Definition with_uids (c : Credentials) (u e s : Z) : Credentials :=
  mkCreds u e s (gid c) (egid c) (sgid c) (caps c).
Definition with_gids (c : Credentials) (g e s : Z) : Credentials :=
  mkCreds (uid c) (euid c) (suid c) g e s (caps c).
Definition with_caps (c : Credentials) (k : Capabilities) : Credentials :=
  mkCreds (uid c) (euid c) (suid c) (gid c) (egid c) (sgid c) k.

Definition sys_setuid (creds : Credentials) (id : Z) : result Z * Credentials :=
  let new_uid := as_u32 id in
  if is_capable (caps creds) CAP_SETUID then (Ok 0, with_uids creds new_uid new_uid new_uid)
  else if (new_uid =? uid creds) || (new_uid =? suid creds)
       then (Ok 0, with_uids creds (uid creds) new_uid (suid creds))
  else (Err NotPermitted, creds).

Definition sys_setgid (creds : Credentials) (id : Z) : result Z * Credentials :=
  let new_gid := as_u32 id in
  if is_capable (caps creds) CAP_SETGID then (Ok 0, with_gids creds new_gid new_gid new_gid)
  else if (new_gid =? gid creds) || (new_gid =? sgid creds)
       then (Ok 0, with_gids creds (gid creds) new_gid (sgid creds))
  else (Err NotPermitted, creds).

(** [usize::MAX] stands for an id that is to stay. *)
Definition sys_setreuid (creds : Credentials) (r e : Z) : result Z * Credentials :=
  let new_ruid := if r =? usize_max then uid creds else as_u32 r in
  let new_euid := if e =? usize_max then euid creds else as_u32 e in
  let capable := is_capable (caps creds) CAP_SETUID in
  if negb capable && negb (r =? usize_max) && negb (new_ruid =? uid creds)
     && negb (new_ruid =? euid creds) && negb (new_ruid =? suid creds) then (Err NotPermitted, creds)
  else if negb capable && negb (e =? usize_max) && negb (new_euid =? uid creds)
     && negb (new_euid =? euid creds) && negb (new_euid =? suid creds) then (Err NotPermitted, creds)
  else
    let new_suid :=
      if negb (r =? usize_max) || (negb (e =? usize_max) && negb (new_euid =? uid creds))
      then new_euid else suid creds in
    (Ok 0, with_uids creds new_ruid new_euid new_suid).

Definition sys_setregid (creds : Credentials) (r e : Z) : result Z * Credentials :=
  let new_rgid := if r =? usize_max then gid creds else as_u32 r in
  let new_egid := if e =? usize_max then egid creds else as_u32 e in
  let capable := is_capable (caps creds) CAP_SETGID in
  if negb capable && negb (r =? usize_max) && negb (new_rgid =? gid creds)
     && negb (new_rgid =? egid creds) && negb (new_rgid =? sgid creds) then (Err NotPermitted, creds)
  else if negb capable && negb (e =? usize_max) && negb (new_egid =? gid creds)
     && negb (new_egid =? egid creds) && negb (new_egid =? sgid creds) then (Err NotPermitted, creds)
  else
    let new_sgid :=
      if negb (r =? usize_max) || (negb (e =? usize_max) && negb (new_egid =? gid creds))
      then new_egid else sgid creds in
    (Ok 0, with_gids creds new_rgid new_egid new_sgid).

Definition sys_setresuid (creds : Credentials) (r e s : Z) : result Z * Credentials :=
  let new_ruid := if r =? usize_max then uid creds else as_u32 r in
  let new_euid := if e =? usize_max then euid creds else as_u32 e in
  let new_suid := if s =? usize_max then suid creds else as_u32 s in
  let capable := is_capable (caps creds) CAP_SETUID in
  if negb capable && negb (r =? usize_max) && negb (new_ruid =? uid creds)
     && negb (new_ruid =? euid creds) && negb (new_ruid =? suid creds) then (Err NotPermitted, creds)
  else if negb capable && negb (e =? usize_max) && negb (new_euid =? uid creds)
     && negb (new_euid =? euid creds) && negb (new_euid =? suid creds) then (Err NotPermitted, creds)
  else if negb capable && negb (s =? usize_max) && negb (new_suid =? uid creds)
     && negb (new_suid =? euid creds) && negb (new_suid =? suid creds) then (Err NotPermitted, creds)
  else (Ok 0, with_uids creds new_ruid new_euid new_suid).

Definition sys_setresgid (creds : Credentials) (r e s : Z) : result Z * Credentials :=
  let new_rgid := if r =? usize_max then gid creds else as_u32 r in
  let new_egid := if e =? usize_max then egid creds else as_u32 e in
  let new_sgid := if s =? usize_max then sgid creds else as_u32 s in
  let capable := is_capable (caps creds) CAP_SETGID in
  if negb capable && negb (r =? usize_max) && negb (new_rgid =? gid creds)
     && negb (new_rgid =? egid creds) && negb (new_rgid =? sgid creds) then (Err NotPermitted, creds)
  else if negb capable && negb (e =? usize_max) && negb (new_egid =? gid creds)
     && negb (new_egid =? egid creds) && negb (new_egid =? sgid creds) then (Err NotPermitted, creds)
  else if negb capable && negb (s =? usize_max) && negb (new_sgid =? gid creds)
     && negb (new_sgid =? egid creds) && negb (new_sgid =? sgid creds) then (Err NotPermitted, creds)
  else (Ok 0, with_gids creds new_rgid new_egid new_sgid).

(** ** Tasks *)

(** [Comm]: 16 bytes, the last one zero. *)
Definition comm_new (name : list Z) : list Z :=
  take (Nat.min (length name) 15) name ++ replicate (16 - Nat.min (length name) 15) 0.

Record Task := mkTask { creds : Credentials; comm : list Z; tgid : Z; sid : Z }.
Definition with_creds (t : Task) (c : Credentials) : Task := mkTask c (comm t) (tgid t) (sid t).
Notation tasks := (gmap Z Task).
Definition find_task_by_tid (ts : tasks) (tid : Z) : option Task := ts !! tid.

(** The thread group id becomes the session id; every thread of the process is its own entry
    here, and the session is the one of the calling entry. *)
Definition sys_setsid (t : Task) : result Z * Task := (Ok (tgid t), mkTask (creds t) (comm t) (tgid t) (tgid t)).

(** ** capget and capset *)

Notation LINUX_CAPABILITY_VERSION_1 := (0x19980330).
Notation LINUX_CAPABILITY_VERSION_3 := (0x20080522).

Record CapUserHeader := mkHdr { version : Z; hdr_pid : Z }.
Record CapUserData := mkData { d_effective : Z; d_permitted : Z; d_inheritable : Z }.

Definition from_caps (k : Capabilities) : CapUserData * CapUserData :=
  (mkData (as_u32 (effective k)) (as_u32 (permitted k)) (as_u32 (inheritable k)),
   mkData (as_u32 (Z.shiftr (effective k) 32)) (as_u32 (Z.shiftr (permitted k) 32))
          (as_u32 (Z.shiftr (inheritable k) 32))).

(** [header.pid as u32] *)
Definition cap_target (ts : tasks) (cur : Z) (h : CapUserHeader) : result Z :=
  if hdr_pid h =? 0 then Ok cur
  else match find_task_by_tid ts (as_u32 (hdr_pid h)) with
       | Some _ => Ok (as_u32 (hdr_pid h))
       | None => Err NoProcess
       end.

(** What a call copies to user memory: capability data, or the header with the version the
    kernel prefers. *)
Inductive cap_output : Type :=
| CapData (d : list CapUserData)
| CapHeader (h : CapUserHeader).

(** [hdrp] is the copy of the header from user memory, [put] the result of copying out. *)
Definition sys_capget (ts : tasks) (cur : Z) (hdrp : result CapUserHeader) (put : cap_output -> result unit) : result Z :=
  try! header := hdrp in
  try! tid := cap_target ts cur header in
  let k := match ts !! tid with Some t => caps (creds t) | None => caps_new_empty end in
  if version header =? LINUX_CAPABILITY_VERSION_1 then
    try! _ := put (CapData [(from_caps k).1]) in Ok 0
  else if version header =? LINUX_CAPABILITY_VERSION_3 then
    try! _ := put (CapData [(from_caps k).1; (from_caps k).2]) in Ok 0
  else
    try! _ := put (CapHeader (mkHdr LINUX_CAPABILITY_VERSION_3 (hdr_pid header))) in
    Err InvalidValue.

Definition join_u32 (hi lo : Z) : Z := Z.lor (Z.shiftl hi 32) lo.

(** [data1] and [data3] are the copies of one and of two data records from user memory. *)
Definition capset_data (header : CapUserHeader) (data1 : result CapUserData)
    (data3 : result (CapUserData * CapUserData)) (put : cap_output -> result unit) : result (Z * Z * Z) :=
  if version header =? LINUX_CAPABILITY_VERSION_1 then
    try! d := data1 in Ok (d_effective d, d_permitted d, d_inheritable d)
  else if version header =? LINUX_CAPABILITY_VERSION_3 then
    try! (d0, d1) := data3 in
    Ok (join_u32 (d_effective d1) (d_effective d0), join_u32 (d_permitted d1) (d_permitted d0),
        join_u32 (d_inheritable d1) (d_inheritable d0))
  else
    try! _ := put (CapHeader (mkHdr LINUX_CAPABILITY_VERSION_3 (hdr_pid header))) in
    Err InvalidValue.

Definition sys_capset (ts : tasks) (cur : Z) (hdrp : result CapUserHeader) (data1 : result CapUserData)
    (data3 : result (CapUserData * CapUserData)) (put : cap_output -> result unit) : result Z * tasks :=
  let caller_caps := match ts !! cur with Some t => caps (creds t) | None => caps_new_empty end in
  match
    (try! header := hdrp in
     try! tid :=
       if hdr_pid header =? 0 then Ok cur
       else try! _ := check_capable caller_caps CAP_SETPCAP in cap_target ts cur header in
     try! d := capset_data header data1 data3 put in
     Ok (tid, d)) with
  | Err e => (Err e, ts)
  | Ok (tid, (eff, perm, inh)) =>
      match ts !! tid with
      | None => (Err NoProcess, ts)
      | Some t =>
          let (r, k) := set_public (caps (creds t)) caller_caps eff perm inh in
          (rbind r (fun _ => Ok 0), <[tid := with_creds t (with_caps (creds t) k)]> ts)
      end
  end.

(** ** prctl *)

(** [CapabilitiesFlags::from_bits(1u64 << what)]: the shift amount wraps at 64, and bits that
    are no flag are refused. *)
Definition cap_from_shift (what : Z) : result Z :=
  let bits := ushl 1 (what mod 64) in
  if bits_contain CAP_ALL bits then Ok bits else Err InvalidValue.

Definition remove_flag (flags f : Z) : Z := Z.land flags (Z.lnot f).
Definition insert_flag (flags f : Z) : Z := Z.lor flags f.
Definition with_ambient (k : Capabilities) (a : Z) : Capabilities :=
  mkCaps (effective k) (permitted k) (inheritable k) a (bounding k).
Definition with_bounding (k : Capabilities) (b : Z) : Capabilities :=
  mkCaps (effective k) (permitted k) (inheritable k) (ambient k) b.

Definition pr_read_capbset (c : Credentials) (what : Z) : result Z :=
  try! f := cap_from_shift what in
  Ok (Z.b2z (bits_contain (bounding (caps c)) f)).

Definition pr_drop_capbset (c : Credentials) (what : Z) : result Z * Credentials :=
  match cap_from_shift what with
  | Err e => (Err e, c)
  | Ok f => (Ok 0, with_caps c (with_bounding (caps c) (remove_flag (bounding (caps c)) f)))
  end.

Inductive AmbientCapOp : Type := IsSet | Raise | Lower | ClearAll.
Definition ambient_op (value : Z) : result AmbientCapOp :=
  if value =? 1 then Ok IsSet else if value =? 2 then Ok Raise
  else if value =? 3 then Ok Lower else if value =? 4 then Ok ClearAll else Err InvalidValue.

Definition pr_cap_ambient (c : Credentials) (op arg1 : Z) : result Z * Credentials :=
  match ambient_op op with
  | Err e => (Err e, c)
  | Ok ClearAll => (Ok 0, with_caps c (with_ambient (caps c) 0))
  | Ok IsSet => (try! f := cap_from_shift arg1 in Ok (Z.b2z (bits_contain (ambient (caps c)) f)), c)
  | Ok Lower =>
      match cap_from_shift arg1 with
      | Err e => (Err e, c)
      | Ok f => (Ok 0, with_caps c (with_ambient (caps c) (remove_flag (ambient (caps c)) f)))
      end
  | Ok Raise =>
      match cap_from_shift arg1 with
      | Err e => (Err e, c)
      | Ok f =>
          if negb (bits_contain (inheritable (caps c)) f) then (Err NotPermitted, c)
          else if negb (bits_contain (bounding (caps c)) f) then (Err NotPermitted, c)
          else (Ok 0, with_caps c (with_ambient (caps c) (insert_flag (ambient (caps c)) f)))
      end
  end.

Notation PR_CAPBSET_READ := (23).
Notation PR_CAPBSET_DROP := (24).
Notation PR_SET_NAME := (15).
Notation PR_GET_NAME := (16).
Notation PR_GET_SECUREBITS := (27).
Notation PR_GET_NO_NEW_PRIVS := (39).
Notation PR_CAP_AMBIENT := (47).

(** [name] is the string read from user memory, [put] the result of copying the name out. *)
Definition sys_prctl (t : Task) (op arg1 arg2 : Z) (name : result (list Z)) (put : list Z -> result unit)
    : outcome (result Z * Task) :=
  if op =? PR_SET_NAME then
    Return match name with
           | Err e => (Err e, t)
           | Ok n => (Ok 0, mkTask (creds t) (comm_new n) (tgid t) (sid t))
           end
  else if op =? PR_GET_NAME then Return (try! _ := put (comm t) in Ok 0, t)
  else if op =? PR_CAPBSET_READ then Return (pr_read_capbset (creds t) arg1, t)
  else if op =? PR_CAPBSET_DROP then
    let (r, c) := pr_drop_capbset (creds t) arg1 in Return (r, with_creds t c)
  else if op =? PR_GET_SECUREBITS then Return (Ok 0, t)
  else if op =? PR_GET_NO_NEW_PRIVS then Return (Ok 0, t)
  else if op =? PR_CAP_AMBIENT then
    let (r, c) := pr_cap_ambient (creds t) arg1 arg2 in Return (r, with_creds t c)
  else Panic.

(** ** Sequences of calls *)

Inductive cred_call : Type :=
| CSetuid (id : Z) | CSetgid (id : Z)
| CSetreuid (r e : Z) | CSetregid (r e : Z)
| CSetresuid (r e s : Z) | CSetresgid (r e s : Z)
| CSetsid
| CCapset (hdrp : result CapUserHeader) (data1 : result CapUserData)
    (data3 : result (CapUserData * CapUserData)) (put : cap_output -> result unit)
| CPrctl (op arg1 arg2 : Z) (name : result (list Z)) (put : list Z -> result unit).

Definition creds_call (call : cred_call) (c : Credentials) : option (result Z * Credentials) :=
  match call with
  | CSetuid id => Some (sys_setuid c id)
  | CSetgid id => Some (sys_setgid c id)
  | CSetreuid r e => Some (sys_setreuid c r e)
  | CSetregid r e => Some (sys_setregid c r e)
  | CSetresuid r e s => Some (sys_setresuid c r e s)
  | CSetresgid r e s => Some (sys_setresgid c r e s)
  | _ => None
  end.

(** Task [cur] makes a call. *)
Definition cred_step (ts : tasks) (cur : Z) (call : cred_call) : outcome (result Z * tasks) :=
  match ts !! cur with
  | None => Return (Err NoProcess, ts)
  | Some t =>
      match call with
      | CCapset h d1 d3 put => Return (sys_capset ts cur h d1 d3 put)
      | CPrctl op a1 a2 name put =>
          let! (r, t) := sys_prctl t op a1 a2 name put in Return (r, <[cur := t]> ts)
      | CSetsid => let (r, t) := sys_setsid t in Return (r, <[cur := t]> ts)
      | _ =>
          match creds_call call (creds t) with
          | Some (r, c) => Return (r, <[cur := with_creds t c]> ts)
          | None => Return (Ok 0, ts)
          end
      end
  end.

Fixpoint cred_run (ts : tasks) (calls : list (Z * cred_call)) : outcome tasks :=
  match calls with
  | [] => Return ts
  | (cur, call) :: rest => let! (_, ts) := cred_step ts cur call in cred_run ts rest
  end.

Definition prctl_ops : list Z :=
  [PR_CAPBSET_READ; PR_CAPBSET_DROP; PR_SET_NAME; PR_GET_NAME; PR_GET_SECUREBITS; PR_GET_NO_NEW_PRIVS; PR_CAP_AMBIENT].
Definition known_call (call : cred_call) : Prop :=
  match call with CPrctl op _ _ _ _ => op ∈ prctl_ops | _ => True end.

(** *** What the calls may do to the credentials of a task *)

Definition uids (c : Credentials) : list Z := [uid c; euid c; suid c].
Definition gids (c : Credentials) : list Z := [gid c; egid c; sgid c].
(** Effective capabilities are permitted ones. *)
Definition caps_ok (c : Credentials) : Prop := bits_contain (permitted (caps c)) (effective (caps c)) = true.

Record creds_le (c c' : Credentials) : Prop := {
  le_permitted : bits_contain (permitted (caps c)) (permitted (caps c')) = true;
  le_bounding : bits_contain (bounding (caps c)) (bounding (caps c')) = true;
  le_ok : caps_ok c -> caps_ok c';
  le_uids : caps_ok c -> bits_contain (permitted (caps c)) CAP_SETUID = false -> uids c' ⊆ uids c;
  le_gids : caps_ok c -> bits_contain (permitted (caps c)) CAP_SETGID = false -> gids c' ⊆ gids c
}.

Lemma contains_false_mono a b f : bits_contain a b = true -> bits_contain a f = false -> bits_contain b f = false.
Proof. intros Hab Ha. apply not_true_iff_false. intros Hb. rewrite (contains_trans a b f) in Ha; done. Qed.

#[export] Instance creds_le_preorder : PreOrder creds_le.
Proof.
  split.
  - intros c. split; auto using contains_refl.
  - intros a b c [] []. split; eauto using contains_trans.
    + intros Ha Hf. etransitivity; [apply le_uids1; eauto using contains_false_mono|eauto].
    + intros Ha Hf. etransitivity; [apply le_gids1; eauto using contains_false_mono|eauto].
Qed.

(** A call that keeps the capabilities, and the ids unless it may change them. *)
Lemma creds_le_same_caps c c' : caps c' = caps c ->
  (is_capable (caps c) CAP_SETUID = false -> uids c' ⊆ uids c) ->
  (is_capable (caps c) CAP_SETGID = false -> gids c' ⊆ gids c) -> creds_le c c'.
Proof.
  intros Hc Hu Hg. split; unfold caps_ok; rewrite ?Hc; auto using contains_refl.
  - intros Hok Hf. apply Hu. unfold is_capable. eauto using contains_false_mono.
  - intros Hok Hf. apply Hg. unfold is_capable. eauto using contains_false_mono.
Qed.

Lemma creds_le_same_ids c k : bits_contain (permitted (caps c)) (permitted k) = true ->
  bits_contain (bounding (caps c)) (bounding k) = true -> (caps_ok c -> bits_contain (permitted k) (effective k) = true) ->
  creds_le c (with_caps c k).
Proof. by intros; split. Qed.

Lemma triple_subseteq (a b c : Z) l : a ∈ l -> b ∈ l -> c ∈ l -> [a; b; c] ⊆ l.
Proof. intros Ha Hb Hc x Hx. rewrite !elem_of_cons in Hx. set_solver. Qed.

(** The check of an unprivileged change: the new id is one of the three. *)
Lemma id_guard capable r old a b d : old ∈ [a; b; d] -> capable = false ->
  negb capable && negb (r =? usize_max) && negb ((if r =? usize_max then old else as_u32 r) =? a)
    && negb ((if r =? usize_max then old else as_u32 r) =? b)
    && negb ((if r =? usize_max then old else as_u32 r) =? d) = false ->
  (if r =? usize_max then old else as_u32 r) ∈ [a; b; d].
Proof.
  intros Ho -> H. destruct (r =? usize_max); [done|]. simpl in H.
  rewrite !elem_of_cons. rewrite !andb_false_iff, !negb_false_iff, !Z.eqb_eq in H. tauto.
Qed.

Lemma first_in (a b d : Z) : a ∈ [a; b; d]. Proof. set_solver. Qed.
Lemma second_in (a b d : Z) : b ∈ [a; b; d]. Proof. set_solver. Qed.
Lemma third_in (a b d : Z) : d ∈ [a; b; d]. Proof. set_solver. Qed.
#[local] Hint Resolve first_in second_in third_in triple_subseteq : creds.

(** Follow the guards of a call; what is left are its ids. *)
Ltac id_guards :=
  repeat match goal with
  | |- creds_le _ (snd (if ?b then _ else _)) => destruct b eqn:?; [simpl; try reflexivity|]
  end; simpl.

Lemma setuid_le c id : creds_le c (sys_setuid c id).2.
Proof.
  unfold sys_setuid. id_guards; [| |reflexivity]; apply creds_le_same_caps; try done; simpl; try congruence.
  breflect. intros _. unfold uids; simpl.
  destruct Heqb0 as [->%Z.eqb_eq| ->%Z.eqb_eq]; auto with creds.
Qed.

Lemma setgid_le c id : creds_le c (sys_setgid c id).2.
Proof.
  unfold sys_setgid. id_guards; [| |reflexivity]; apply creds_le_same_caps; try done; simpl; try congruence.
  breflect. intros _. unfold gids; simpl.
  destruct Heqb0 as [->%Z.eqb_eq| ->%Z.eqb_eq]; auto with creds.
Qed.

Lemma setreuid_le c r e : creds_le c (sys_setreuid c r e).2.
Proof.
  unfold sys_setreuid. id_guards. apply creds_le_same_caps; [done| |done].
  intros Hc. pose proof (id_guard _ r (uid c) _ _ _ (first_in _ _ _) Hc Heqb).
  pose proof (id_guard _ e (euid c) _ _ _ (second_in _ _ _) Hc Heqb0).
  apply triple_subseteq; [done..|]. simpl. destruct (_ || _); [done|apply third_in].
Qed.

Lemma setregid_le c r e : creds_le c (sys_setregid c r e).2.
Proof.
  unfold sys_setregid. id_guards. apply creds_le_same_caps; [done..|].
  intros Hc. pose proof (id_guard _ r (gid c) _ _ _ (first_in _ _ _) Hc Heqb).
  pose proof (id_guard _ e (egid c) _ _ _ (second_in _ _ _) Hc Heqb0).
  apply triple_subseteq; [done..|]. simpl. destruct (_ || _); [done|apply third_in].
Qed.

Lemma setresuid_le c r e s : creds_le c (sys_setresuid c r e s).2.
Proof.
  unfold sys_setresuid. id_guards. apply creds_le_same_caps; [done| |done].
  intros Hc. apply triple_subseteq; apply (id_guard (is_capable (caps c) CAP_SETUID)); auto with creds.
Qed.

Lemma setresgid_le c r e s : creds_le c (sys_setresgid c r e s).2.
Proof.
  unfold sys_setresgid. id_guards. apply creds_le_same_caps; [done..|].
  intros Hc. apply triple_subseteq; apply (id_guard (is_capable (caps c) CAP_SETGID)); auto with creds.
Qed.

Lemma set_public_le self caller eff perm inh : let k := (set_public self caller eff perm inh).2 in
  bits_contain (permitted self) (permitted k) = true /\ bounding k = bounding self /\
  (bits_contain (permitted self) (effective self) = true -> bits_contain (permitted k) (effective k) = true).
Proof.
  unfold set_public. destruct (_ || _) eqn:E; simpl; [auto using contains_refl|].
  breflect. auto.
Qed.

Lemma remove_flag_subset a f : bits_contain a (remove_flag a f) = true.
Proof.
  apply contains_subset. intros k Hk. unfold remove_flag. rewrite Z.land_spec.
  by intros [? _]%andb_true_iff.
Qed.

Lemma prctl_drop_le c what : creds_le c (pr_drop_capbset c what).2.
Proof.
  unfold pr_drop_capbset. destruct (cap_from_shift what); simpl; [|reflexivity].
  apply creds_le_same_ids; simpl; auto using contains_refl, remove_flag_subset.
Qed.

Lemma prctl_ambient_le c op arg : creds_le c (pr_cap_ambient c op arg).2.
Proof.
  unfold pr_cap_ambient. destruct (ambient_op op) as [[]|]; try reflexivity;
    try (destruct (cap_from_shift arg); [|reflexivity]); id_guards; try reflexivity;
    apply creds_le_same_ids; simpl; auto using contains_refl.
Qed.

(** The credentials of every task after a step. *)
Definition tasks_le (ts ts' : tasks) : Prop :=
  forall tid t, ts !! tid = Some t -> exists t', ts' !! tid = Some t' /\ creds_le (creds t) (creds t').

#[export] Instance tasks_le_preorder : PreOrder tasks_le.
Proof.
  split.
  - intros ts tid t Ht. exists t. by split.
  - intros a b c Hab Hbc tid t (t1 & Ht1 & H1)%Hab. apply Hbc in Ht1 as (t2 & Ht2 & H2).
    exists t2. split; [done|]. by transitivity (creds t1).
Qed.

Lemma tasks_le_insert ts tid t t' : ts !! tid = Some t -> creds_le (creds t) (creds t') ->
  tasks_le ts (<[tid := t']> ts).
Proof.
  intros Ht Hle i ti Hi. destruct (decide (i = tid)) as [->|].
  - rewrite lookup_insert_eq. exists t'. split; [done|]. congruence.
  - rewrite lookup_insert_ne by done. exists ti. by split.
Qed.

Lemma capset_le ts cur h d1 d3 put : tasks_le ts (sys_capset ts cur h d1 d3 put).2.
Proof.
  unfold sys_capset. cbv zeta. destruct (rbind h _) as [[tid [[eff perm] inh]]|]; [|reflexivity].
  destruct (ts !! tid) as [t|] eqn:Et; [|reflexivity].
  destruct (set_public _ _ eff perm inh) as [r k] eqn:Ek. simpl.
  match type of Ek with set_public ?s ?c _ _ _ = _ => pose proof (set_public_le s c eff perm inh) as Hle end.
  rewrite Ek in Hle. simpl in Hle. destruct Hle as (Hp & Hb & Ho).
  apply (tasks_le_insert _ _ t); [done|]. apply creds_le_same_ids; auto. rewrite Hb. apply contains_refl.
Qed.

Lemma prctl_le t op a1 a2 name put : op ∈ prctl_ops ->
  exists r t', sys_prctl t op a1 a2 name put = Return (r, t') /\ creds_le (creds t) (creds t').
Proof.
  intros Hop. unfold sys_prctl.
  destruct (op =? PR_SET_NAME) eqn:E1; [destruct name; eexists _, _; split; reflexivity|].
  destruct (op =? PR_GET_NAME) eqn:E2; [eexists _, _; split; reflexivity|].
  destruct (op =? PR_CAPBSET_READ) eqn:E3; [eexists _, _; split; reflexivity|].
  destruct (op =? PR_CAPBSET_DROP) eqn:E4.
  { pose proof (prctl_drop_le (creds t) a1). destruct (pr_drop_capbset _ _). eexists _, _; split; [done|done]. }
  destruct (op =? PR_GET_SECUREBITS) eqn:E5; [eexists _, _; split; reflexivity|].
  destruct (op =? PR_GET_NO_NEW_PRIVS) eqn:E6; [eexists _, _; split; reflexivity|].
  destruct (op =? PR_CAP_AMBIENT) eqn:E7.
  { pose proof (prctl_ambient_le (creds t) a1 a2). destruct (pr_cap_ambient _ _ _). eexists _, _; split; [done|done]. }
  exfalso. breflect. unfold prctl_ops in Hop. rewrite !elem_of_cons in Hop. set_solver.
Qed.

Lemma creds_call_le call c r c' : creds_call call c = Some (r, c') -> creds_le c c'.
Proof.
  assert (forall p : result Z * Credentials, Some p = Some (r, c') -> creds_le c p.2 -> creds_le c c') as Hp
    by (by intros p [= ->]).
  destruct call; simpl; try done; intros H; apply Hp in H;
    auto using setuid_le, setgid_le, setreuid_le, setregid_le, setresuid_le, setresgid_le.
Qed.

Lemma cred_step_le ts cur call : known_call call ->
  exists r ts', cred_step ts cur call = Return (r, ts') /\ tasks_le ts ts'.
Proof.
  intros Hk. unfold cred_step. destruct (ts !! cur) as [t|] eqn:Et; [|eexists _, _; split; reflexivity].
  assert (forall p, creds_call call (creds t) = Some p ->
    exists r ts', (let (r, c) := p : result Z * Credentials in Return (r, <[cur := with_creds t c]> ts)) = Return (r, ts') /\ tasks_le ts ts') as Hc.
  { intros [r c] Hp%creds_call_le. eexists _, _. split; [done|]. by apply (tasks_le_insert _ _ t). }
  destruct call; try exact (Hc _ eq_refl).
  - eexists _, _. split; [reflexivity|]. by apply (tasks_le_insert _ _ t).
  - pose proof (capset_le ts cur hdrp data1 data3 put). destruct (sys_capset _ _ _ _ _ _). eauto.
  - destruct (prctl_le t op arg1 arg2 name put Hk) as (r & t' & -> & Hle).
    eexists _, _. split; [reflexivity|]. by apply (tasks_le_insert _ _ t).
Qed.

Lemma cred_run_le ts calls : Forall (fun p => known_call p.2) calls ->
  exists ts', cred_run ts calls = Return ts' /\ tasks_le ts ts'.
Proof.
  intros H. revert ts. induction H as [|[cur call] calls Hk _ IH]; intros ts; simpl; [eexists; split; reflexivity|].
  destruct (cred_step_le ts cur call Hk) as (r & ts1 & -> & Hle). simpl.
  destruct (IH ts1) as (ts' & -> & Hle'). eexists. split; [done|]. by transitivity ts1.
Qed.

(** C11: no sequence of credential calls, made by any tasks in any order with any arguments
    and any contents of user memory, gives a task more privilege. Each call returns (for the
    prctl operations that exist), and afterwards for every task: its permitted and bounding
    capabilities are a subset of what they were, its effective ones are still permitted ones,
    and a task that was not permitted CAP_SETUID or CAP_SETGID still has only the user or
    group ids that it started with. *)
Theorem credentials_never_escalate ts calls : Forall (fun p => known_call p.2) calls ->
  exists ts', cred_run ts calls = Return ts' /\
  forall tid t, ts !! tid = Some t -> exists t', ts' !! tid = Some t' /\ creds_le (creds t) (creds t').
Proof. apply cred_run_le. Qed.

Definition demo_creds : Credentials := mkCreds 1000 0 1000 1000 1000 1000 (caps_new_cap (2 ^ 1)).
Definition demo_tasks : tasks := {[1 := mkTask creds_new_root (comm_new []) 1 1; 7 := mkTask demo_creds (comm_new []) 7 1]}.
Definition demo_calls : list (Z * cred_call) :=
  [(7, CSetreuid 0 1000); (7, CSetuid 0); (7, CPrctl PR_CAPBSET_DROP 1 0 (Ok []) (fun _ => Ok tt));
   (1, CCapset (Ok (mkHdr LINUX_CAPABILITY_VERSION_1 7)) (Ok (mkData 0 0 0)) (Err Fault) (fun _ => Ok tt))].

Lemma credentials_never_escalate_witness :
  exists ts', cred_run demo_tasks demo_calls = Return ts' /\
  exists t', ts' !! 7 = Some t' /\ creds_le demo_creds (creds t').
Proof.
  destruct (credentials_never_escalate demo_tasks demo_calls) as (ts' & H & Hle).
  - unfold demo_calls, known_call. repeat constructor.
  - exists ts'. split; [exact H|]. exact (Hle 7 (mkTask demo_creds (comm_new []) 7 1) eq_refl).
Defined.

(** ** Capabilities pass through user memory unchanged *)

Lemma join_split x : 0 <= x < 2 ^ 64 -> join_u32 (as_u32 (Z.shiftr x 32)) (as_u32 x) = x.
Proof.
  intros Hx. unfold join_u32, as_u32. apply Z.bits_inj'. intros n Hn.
  rewrite Z.lor_spec, Z.shiftl_spec by done. destruct (decide (n < 32)).
  - rewrite (Z.testbit_neg_r _ (n - 32)), Z.mod_pow2_bits_low by lia. done.
  - rewrite (Z.mod_pow2_bits_high _ 32 n), orb_false_r by lia.
    destruct (decide (n < 64)).
    + rewrite Z.mod_pow2_bits_low, Z.shiftr_spec by lia. f_equal. lia.
    + rewrite Z.mod_pow2_bits_high by lia. destruct (decide (x = 0)) as [->|]; [by rewrite Z.bits_0|].
      symmetry. apply Z.bits_above_log2; [lia|].
      assert (Z.log2 x < 64) by (apply Z.log2_lt_pow2; lia). lia.
Qed.

Definition flags_ok (k : Capabilities) : Prop :=
  0 <= effective k < 2 ^ 64 /\ 0 <= permitted k < 2 ^ 64 /\ 0 <= inheritable k < 2 ^ 64.

(** Capget and capset round trip. Giving to capset what capget has returned for a task
    (version 3) succeeds and changes no task, as long as the task's effective capabilities
    are permitted and its inheritable ones bounded. *)
Theorem capset_capget_roundtrip ts cur t put : ts !! cur = Some t -> flags_ok (caps (creds t)) ->
  caps_ok (creds t) -> bits_contain (bounding (caps (creds t))) (inheritable (caps (creds t))) = true ->
  put (CapData [(from_caps (caps (creds t))).1; (from_caps (caps (creds t))).2]) = Ok tt ->
  sys_capget ts cur (Ok (mkHdr LINUX_CAPABILITY_VERSION_3 0)) put = Ok 0 /\
  sys_capset ts cur (Ok (mkHdr LINUX_CAPABILITY_VERSION_3 0)) (Err Fault) (Ok (from_caps (caps (creds t)))) put = (Ok 0, ts).
Proof.
  intros Ht (He & Hp & Hi) Hok Hb Hput. split.
  - unfold sys_capget. cbn [rbind cap_target hdr_pid version Z.eqb]. rewrite Ht. simpl in *. by rewrite Hput.
  - unfold sys_capset. simpl. rewrite Ht. unfold set_public.
    rewrite !join_split by done. unfold caps_ok in Hok. rewrite Hok, Hb, contains_refl. simpl.
    f_equal. apply insert_id. rewrite Ht. f_equal. by destruct t as [[? ? ? ? ? ? []] ? ? ?].
Qed.

Lemma capset_capget_roundtrip_witness :
  sys_capset demo_tasks 7 (Ok (mkHdr LINUX_CAPABILITY_VERSION_3 0)) (Err Fault) (Ok (from_caps (caps demo_creds))) (fun _ => Ok tt)
  = (Ok 0, demo_tasks).
Proof.
  apply (capset_capget_roundtrip demo_tasks 7 (mkTask demo_creds (comm_new []) 7 1) (fun _ => Ok tt));
    try reflexivity. vm_compute. intuition congruence.
Defined.

(** ** Where the calls differ from their Linux counterparts *)

(** Changing from root to another user keeps every capability, CAP_SETUID included, so the
    process can return to root and is exempt from access checks all along. *)
Lemma setuid_keeps_capabilities :
  let dropped := (sys_setuid creds_new_root 1000).2 in
  uids dropped = [1000; 1000; 1000] /\ caps dropped = caps_new_root /\
  sys_setuid dropped 0 = (Ok 0, creds_new_root) /\
  forall f mode, check_access f (euid dropped) (egid dropped) (caps dropped) mode = Ok tt.
Proof. split_and!; reflexivity || (intros; unfold check_access; reflexivity). Qed.

(** An id of -1 that is passed as a 32-bit number is not recognised: it is stored, or refused
    to an unprivileged caller that asks for no change. *)
Lemma setreuid_minus_one_32 :
  uid (sys_setreuid creds_new_root (2 ^ 32 - 1) 0).2 = 2 ^ 32 - 1 /\
  (sys_setresuid demo_creds (2 ^ 32 - 1) (2 ^ 32 - 1) (2 ^ 32 - 1)).1 = Err NotPermitted.
Proof. split; reflexivity. Qed.

(** Raising an ambient capability does not ask for a permitted one. *)
Lemma ambient_raise_not_permitted :
  let c := mkCreds 1 1 1 1 1 1 (mkCaps 0 0 1 0 1) in
  (pr_cap_ambient c 2 0).1 = Ok 0 /\ ambient (caps (pr_cap_ambient c 2 0).2) = 1 /\ permitted (caps c) = 0.
Proof. split_and!; reflexivity. Qed.

(** A capability number of 64 or more aliases another capability. *)
Lemma capbset_drop_wraps : bounding (caps (pr_drop_capbset creds_new_root 64).2) = remove_flag CAP_ALL 1.
Proof. reflexivity. Qed.

(** A prctl operation that is not listed panics the kernel. *)
Lemma prctl_unknown_panics t a1 a2 name put : sys_prctl t 4 a1 a2 name put = Panic.
Proof. reflexivity. Qed.
