(* ===== verification/Fat32.v ===== *)
(** * The FAT32 filesystem: volume, allocation table and file contents

    Models libkernel/src/fs/filesystems/fat32: the boot sector (bpb.rs), the allocation table
    and its cluster chains (fat.rs), mounting and sector access (mod.rs), the byte reader
    (reader.rs) and file nodes (file.rs), over the block buffer of Blk.  Numbers of sectors
    and clusters are 32 bits wide and wrap.  A read yields the bytes it puts at the start of
    the caller's buffer.  The trait Fat32Operations is the class of that name. *)
From stdpp Require Import base list.
From S2P Require Import Prelude Error Blk Attr.
Local Open Scope Z_scope.

Definition u32add (a b : Z) : Z := (a + b) mod 2 ^ 32.
Definition u32sub (a b : Z) : Z := (a - b) mod 2 ^ 32.
Definition u32mul (a b : Z) : Z := (a * b) mod 2 ^ 32.

(** Little-endian numbers. *)
Definition le (l : bytes) : Z := foldr (fun b acc => b + 256 * acc) 0 l.
Definition field (l : bytes) (off n : Z) : Z := le (slice l off n).

(** ** The boot sector *)

Record BiosParameterBlock := mkBpb {
  bytes_per_sector : Z; sectors_per_cluster : Z; reserved_sector_count : Z; num_fats : Z;
  root_entry_count : Z; fat_size_16 : Z; fat_size_32 : Z; root_cluster : Z; fsinfo_sector : Z
}.

(** The packed structure has 50 bytes. *)
Definition bpb_of_bytes (l : bytes) : BiosParameterBlock :=
  mkBpb (field l 11 2) (field l 13 1) (field l 14 2) (field l 16 1)
        (field l 17 2) (field l 22 2) (field l 36 4) (field l 44 4) (field l 48 2).

Notation cluster_is_valid c := (c >=? 2) (only parsing).
Notation cluster_from_high_low clust_high clust_low := (Z.lor (Z.shiftl clust_high 16) clust_low) (only parsing).

Definition bpb_new {D : Type} `{BlockDevice D} (dev : BlockBuffer D) : result BiosParameterBlock :=
  try! l := buffer_read_at dev 0 50 in
  let bpb := bpb_of_bytes l in
  if negb (fat_size_16 bpb =? 0) || negb (root_entry_count bpb =? 0) then Err (Fs InvalidFs)
  else if fat_size_32 bpb =? 0 then Err (Fs InvalidFs)
  else if num_fats bpb =? 0 then Err (Fs InvalidFs)
  else if negb ((bytes_per_sector bpb =? 512) || (bytes_per_sector bpb =? 1024)
                || (bytes_per_sector bpb =? 2048) || (bytes_per_sector bpb =? 4096)) then Err (Fs InvalidFs)
  else if negb (is_power_of_two (bytes_per_sector bpb)) then Err (Fs InvalidFs)
  else if negb (is_power_of_two (sectors_per_cluster bpb)) then Err (Fs InvalidFs)
  else if negb (cluster_is_valid (root_cluster bpb)) then Err (Fs InvalidFs)
  else Ok bpb.

(** The numbers from [a] up to, but not including, [b]. *)
Notation sectors_until a b := (seqZ a (b - a)) (only parsing).

Definition sector_offset (bpb : BiosParameterBlock) (sector : Z) : Z := umul sector (bytes_per_sector bpb).
Definition fat_region_start (bpb : BiosParameterBlock) : Z := reserved_sector_count bpb.
Definition fat_len (bpb : BiosParameterBlock) : Z := fat_size_32 bpb.

Definition fat_region (bpb : BiosParameterBlock) (fat_number : Z) : option (Z * Z) :=
  if fat_number >=? num_fats bpb then None
  else
    let start := u32add (fat_region_start bpb) (u32mul (fat_len bpb) fat_number) in
    let end' := u32add start (fat_len bpb) in
    Some (start, end').

Notation data_region_start bpb := (u32add (fat_region_start bpb) (u32mul (fat_len bpb) (num_fats bpb))) (only parsing).

Definition bpb_cluster_to_sectors (bpb : BiosParameterBlock) (cluster : Z) : result (list Z) :=
  if cluster <? 2 then Err (Fs InvalidFs)
  else
    let root_sector := u32add (data_region_start bpb) (u32mul (u32sub cluster 2) (sectors_per_cluster bpb)) in
    Ok (sectors_until root_sector (u32add root_sector (sectors_per_cluster bpb))).

(** ** The file allocation table *)

Inductive FatEntry : Type :=
| Eoc | NextCluster (c : Z) | Bad | FatReserved | FatFree.
#[export] Instance FatEntry_eq_dec : EqDecision FatEntry.
Proof. solve_decision. Defined.

Definition fat_entry_from (value : Z) : FatEntry :=
  let n := Z.land value 0x0fffffff in
  if n =? 0 then FatFree
  else if n =? 1 then FatReserved
  else if n <=? 0xFFFFFF6 then NextCluster n
  else if n =? 0xFFFFFF7 then Bad
  else Eoc.

(** [as_chunks::<4>().0] with [u32::from_le_bytes] *)
Fixpoint words (l : bytes) : list Z :=
  match l with
  | a :: b :: c :: d :: l => le [a; b; c; d] :: words l
  | _ => []
  end.

Notation Fat := (list FatEntry).

(** One step of ClusterChainIterator from the cluster it is at: the item it yields and the
    cluster it goes on with. *)
Definition chain_next (fat : Fat) (cluster_to_return : Z) : result Z * option Z :=
  match fat !! Z.to_nat cluster_to_return with
  | None => (Err (Io IoOutOfBounds), None)
  | Some Eoc => (Ok cluster_to_return, None)
  | Some (NextCluster next) => (Ok cluster_to_return, Some next)
  | Some (Bad | FatReserved | FatFree) => (Err (Io MetadataCorruption), None)
  end.

Definition isize_max : Z := 2 ^ 63 - 1.

Section ReadFat.
Context {D : Type} `{BlockDevice D}.

Fixpoint read_fat_sectors (dev : BlockBuffer D) (bpb : BiosParameterBlock) (secs : list Z) (fat : Fat) : result Fat :=
  match secs with
  | [] => Ok fat
  | sec :: secs =>
      try! buf := buffer_read_at dev (sector_offset bpb sec) (bytes_per_sector bpb) in
      read_fat_sectors dev bpb secs (fat ++ map fat_entry_from (words buf))
  end.

(** An entry takes 8 bytes; a vector of more than [isize::MAX] bytes cannot be reserved, which
    panics. *)
Definition read_fat (dev : BlockBuffer D) (bpb : BiosParameterBlock) (fat_number : Z) : outcome (result Fat) :=
  match fat_region bpb fat_number with
  | None => Return (Err (Fs InvalidFs))
  | Some (start, end') =>
      let capacity := usub (sector_offset bpb end') (sector_offset bpb start) / 4 in
      assert! (8 * capacity <=? isize_max);
      Return (read_fat_sectors dev bpb (sectors_until start end') [])
  end.

(** ** The mounted filesystem *)

Record Fat32Filesystem := mkFat32 { f_dev : BlockBuffer D; f_bpb : BiosParameterBlock; f_fat : Fat; f_id : Z }.

Fixpoint compare_fats (dev : BlockBuffer D) (bpb : BiosParameterBlock) (fat : Fat) (nums : list Z) : outcome (result unit) :=
  match nums with
  | [] => Return (Ok tt)
  | fat_num :: nums =>
      let! other := read_fat dev bpb fat_num in
      match other with
      | Err e => Return (Err e)
      | Ok other_fat =>
          if bool_decide (other_fat = fat) then compare_fats dev bpb fat nums
          else Return (Err (Fs InvalidFs))
      end
  end.

Definition fat32_new (dev : BlockBuffer D) (id : Z) : outcome (result Fat32Filesystem) :=
  match bpb_new dev with
  | Err e => Return (Err e)
  | Ok bpb =>
      let! r := read_fat dev bpb 0 in
      match r with
      | Err e => Return (Err e)
      | Ok fat =>
          let! c := compare_fats dev bpb fat (seqZ 1 (num_fats bpb - 1)) in
          match c with
          | Err e => Return (Err e)
          | Ok _ => Return (Ok (mkFat32 dev bpb fat id))
          end
      end
  end.
End ReadFat.
Arguments Fat32Filesystem : clear implicits.

Class Fat32Operations (T : Type) := {
  read_sector : T -> Z -> Z -> Z -> result bytes;
  fs_instance : T -> Z;
  sector_size : T -> Z;
  spc : T -> Z;
  cluster_to_sectors : T -> Z -> result (list Z);
  chain_step : T -> Z -> result Z * option Z
}.

Definition bytes_per_cluster {T : Type} `{Fat32Operations T} (fs : T) : Z := umul (spc fs) (sector_size fs).

Definition fs_read_sector {D : Type} `{BlockDevice D} (fs : Fat32Filesystem D) (sector offset len : Z) : result bytes :=
  let bytes_left_in_sec := usub (bytes_per_sector (f_bpb fs)) offset in
  let read_sz := Z.min len bytes_left_in_sec in
  buffer_read_at (f_dev fs) (uadd (sector_offset (f_bpb fs) sector) offset) read_sz.

#[export] Instance fat32_operations {D : Type} `{BlockDevice D} : Fat32Operations (Fat32Filesystem D) := {|
  read_sector := fs_read_sector;
  fs_instance := f_id;
  sector_size fs := bytes_per_sector (f_bpb fs);
  spc fs := sectors_per_cluster (f_bpb fs);
  cluster_to_sectors fs := bpb_cluster_to_sectors (f_bpb fs);
  chain_step fs := chain_next (f_fat fs)
|}.

(** ** Reading a cluster chain *)

Section Reader.
Context {T : Type} `{Fat32Operations T}.

(** The first [n] items of [iter_clusters]. *)
Fixpoint iter_take (fs : T) (n : nat) (current_or_next : option Z) : list (result Z) :=
  match n, current_or_next with
  | S n, Some c => let (item, next) := chain_step fs c in item :: iter_take fs n next
  | _, _ => []
  end.

(** [iter_clusters(root).count()], which does not end on a cyclic chain. *)
Fixpoint iter_count (fs : T) (fuel : nat) (current_or_next : option Z) : outcome Z :=
  match current_or_next with
  | None => Return 0
  | Some c =>
      match fuel with
      | O => OutOfFuel
      | S fuel => let! n := iter_count fs fuel (chain_step fs c).2 in Return (1 + n)
      end
  end.

Record Fat32Reader := mkReader { r_fs : T; r_root : Z; r_max_sz : Z }.

(** The loop over the rest of the sectors of a cluster; [total_bytes_read] is the length of
    [acc]. *)
Fixpoint read_sectors (fs : T) (sectors : list Z) (acc : bytes) (bytes_to_read : Z) : result bytes :=
  match sectors with
  | [] => Ok acc
  | sector :: sectors =>
      if zlen acc >=? bytes_to_read then Ok acc
      else
        try! b := read_sector fs sector 0 (bytes_to_read - zlen acc) in
        read_sectors fs sectors (acc ++ b) bytes_to_read
  end.

Definition read_first_cluster (fs : T) (cluster : Z) (start_sector_idx offset_in_sector bytes_to_read : Z) : result bytes :=
  try! sectors := cluster_to_sectors fs cluster in
  match drop (Z.to_nat start_sector_idx) sectors with
  | [] => Ok []
  | sector :: sectors =>
      try! b := read_sector fs sector offset_in_sector bytes_to_read in
      read_sectors fs sectors b bytes_to_read
  end.

Fixpoint read_clusters (fs : T) (items : list (result Z)) (acc : bytes) (bytes_to_read : Z) : result bytes :=
  match items with
  | [] => Ok acc
  | cluster_result :: items =>
      if zlen acc >=? bytes_to_read then Ok acc
      else
        try! cluster := cluster_result in
        try! sectors := cluster_to_sectors fs cluster in
        try! acc := read_sectors fs sectors acc bytes_to_read in
        read_clusters fs items acc bytes_to_read
  end.

Definition reader_read_at (self : Fat32Reader) (offset len : Z) : result bytes :=
  if offset >=? r_max_sz self then Ok []
  else
    let bytes_to_read := Z.min len (r_max_sz self - offset) in
    if bytes_to_read =? 0 then Ok []
    else
      let fs := r_fs self in
      let bpc := bytes_per_cluster fs in
      let max_clusters := div_ceil (r_max_sz self) bpc in
      let start_cluster_idx := offset / bpc in
      let offset_in_first_cluster := offset mod bpc in
      let start_sector_idx_in_cluster := offset_in_first_cluster / sector_size fs in
      let offset_in_first_sector := offset_in_first_cluster mod sector_size fs in
      let cluster_iter := iter_take fs (Z.to_nat max_clusters) (Some (r_root self)) in
      try! acc :=
        match cluster_iter !! Z.to_nat start_cluster_idx with
        | Some cluster_result =>
            try! cluster := cluster_result in
            read_first_cluster fs cluster start_sector_idx_in_cluster offset_in_first_sector bytes_to_read
        | None => Ok []
        end in
      read_clusters fs (drop (S (Z.to_nat start_cluster_idx)) cluster_iter) acc bytes_to_read.

(** File nodes. *)
Record Fat32FileNode := mkFileNode { n_reader : Fat32Reader; n_attr : FileAttr; n_id : InodeId }.
Definition filenode_new (fs : T) (root : Z) (attr : FileAttr) : Fat32FileNode :=
  mkFileNode (mkReader fs root (attr_size attr)) attr (mkInodeId (fs_instance fs) root).
Definition filenode_read_at (n : Fat32FileNode) (offset len : Z) : result bytes := reader_read_at (n_reader n) offset len.
End Reader.
Arguments Fat32Reader : clear implicits.
Arguments Fat32FileNode : clear implicits.

(** * Correctness *)

(** ** Lists of chunks of one length *)

Lemma length_concat_chunks {A} (ls : list (list A)) n : Forall (fun l => length l = n) ls -> length (concat ls) = (length ls * n)%nat.
Proof. induction 1 as [|l ls Hl _ IH]; simpl; [done|]. rewrite length_app. lia. Qed.

Lemma drop_concat_chunks {A} (ls : list (list A)) n k r : Forall (fun l => length l = n) ls -> (r <= n)%nat ->
  drop (k * n + r) (concat ls) = drop r (default [] (ls !! k)) ++ concat (drop (S k) ls).
Proof.
  intros Hls Hr. revert k. induction Hls as [|l ls Hl _ IH]; intros k; [by rewrite lookup_nil; simpl; rewrite !drop_nil|].
  destruct k as [|k]; simpl.
  - by rewrite drop_app_le, drop_0 by lia.
  - rewrite drop_app_ge by lia. rewrite <- (IH k). f_equal. lia.
Qed.

Lemma take_concat_chunks {A} (ls : list (list A)) n k m : Forall (fun l => length l = n) ls -> (m <= k * n)%nat ->
  take m (concat (take k ls)) = take m (concat ls).
Proof.
  intros Hls. revert k m. induction Hls as [|l ls Hl _ IH]; intros k m Hm; [by rewrite take_nil|].
  destruct k as [|k]; simpl in *; [by replace m with 0%nat by lia|].
  rewrite !take_app, Hl. f_equal. apply IH. lia.
Qed.

(** ** The reader *)

Section ReaderCorrect.
Context {T : Type} `{Fat32Operations T} (fs : T).

(** Sector [s] holds [data], cluster [c] holds [data]. *)
Definition sector_holds (s : Z) (data : bytes) : Prop :=
  zlen data = sector_size fs /\
  forall o len, 0 <= o < sector_size fs -> 0 <= len -> read_sector fs s o len = Ok (slice data o len).

Definition cluster_holds (c : Z) (data : bytes) : Prop :=
  exists secs datas, cluster_to_sectors fs c = Ok secs /\ Z.of_nat (length secs) = spc fs /\
    Forall2 sector_holds secs datas /\ data = concat datas.

(** Following the chain from a cluster visits [cs] and ends. *)
Inductive chain : Z -> list Z -> Prop :=
| chain_last c : chain_step fs c = (Ok c, None) -> chain c [c]
| chain_cons c next cs : chain_step fs c = (Ok c, Some next) -> chain next cs -> chain c (c :: cs).

Hypothesis Hss : 0 < sector_size fs.
Hypothesis Hspc : 0 < spc fs.
Hypothesis Hbpc : spc fs * sector_size fs < 2 ^ 64.

Lemma bytes_per_cluster_eq : bytes_per_cluster fs = spc fs * sector_size fs.
Proof. apply umul_small. nia. Qed.

Lemma sectors_chunks secs datas : Forall2 sector_holds secs datas ->
  Forall (fun l : bytes => length l = Z.to_nat (sector_size fs)) datas.
Proof. induction 1 as [|s d secs ds [Hd _] _ IH]; constructor; [unfold zlen in Hd; lia|done]. Qed.

Lemma cluster_length c data : cluster_holds c data -> length data = Z.to_nat (bytes_per_cluster fs).
Proof.
  intros (secs & datas & _ & Hn & Hf & ->). rewrite bytes_per_cluster_eq.
  rewrite (length_concat_chunks _ _ (sectors_chunks _ _ Hf)), <- (Forall2_length _ _ _ Hf). nia.
Qed.

Lemma read_sectors_spec secs datas acc want : Forall2 sector_holds secs datas ->
  read_sectors fs secs acc want = Ok (acc ++ take (Z.to_nat (want - zlen acc)) (concat datas)).
Proof.
  intros Hf. revert acc. induction Hf as [|s d secs ds [Hd Hr] _ IH]; intros acc; simpl; [by rewrite take_nil, app_nil_r|].
  bcase.
  - by replace (Z.to_nat (want - zlen acc)) with 0%nat by lia; rewrite app_nil_r.
  - rewrite Hr by lia. simpl. rewrite IH. f_equal. rewrite <- app_assoc. f_equal.
    unfold slice. simpl. rewrite take_app. f_equal. f_equal. unfold zlen in *. rewrite length_app, length_take, length_drop. lia.
Qed.

Lemma read_clusters_spec cs datas acc want : Forall2 cluster_holds cs datas ->
  read_clusters fs (map Ok cs) acc want = Ok (acc ++ take (Z.to_nat (want - zlen acc)) (concat datas)).
Proof.
  intros Hf. revert acc. induction Hf as [|c d cs ds Hd _ IH]; intros acc; simpl; [by rewrite take_nil, app_nil_r|].
  bcase.
  - by replace (Z.to_nat (want - zlen acc)) with 0%nat by lia; rewrite app_nil_r.
  - destruct Hd as (secs & datas & -> & Hn & Hfs & ->). simpl. rewrite (read_sectors_spec _ _ _ _ Hfs). simpl.
    rewrite IH. f_equal. rewrite <- app_assoc. f_equal. rewrite take_app. f_equal. f_equal.
    unfold zlen in *. rewrite length_app, length_take. lia.
Qed.

Lemma read_first_spec c data r want : cluster_holds c data -> 0 <= r < bytes_per_cluster fs -> 0 <= want ->
  read_first_cluster fs c (r / sector_size fs) (r mod sector_size fs) want
  = Ok (take (Z.to_nat want) (drop (Z.to_nat r) data)).
Proof.
  intros (secs & datas & Hc & Hn & Hf & ->) Hr Hw. unfold read_first_cluster. rewrite Hc. simpl.
  rewrite bytes_per_cluster_eq in Hr. assert (sector_size fs <> 0) as Hnz by lia.
  pose proof (Z.div_mod r (sector_size fs) Hnz) as Hdm.
  pose proof (Z.mod_pos_bound r (sector_size fs) Hss) as Hm.
  assert (0 <= r / sector_size fs < spc fs) as Hk by (split; [apply Z.div_pos|apply Z.div_lt_upper_bound]; nia).
  set (k := r / sector_size fs) in *. set (m := r mod sector_size fs) in *.
  assert (Z.to_nat r = Z.to_nat k * Z.to_nat (sector_size fs) + Z.to_nat m)%nat as -> by nia.
  rewrite drop_concat_chunks by (try apply (sectors_chunks _ _ Hf); lia).
  destruct (drop (Z.to_nat k) secs) as [|s rest] eqn:Es.
  { exfalso. apply (f_equal length) in Es. rewrite length_drop in Es. simpl in Es. lia. }
  pose proof (Forall2_drop _ _ _ (Z.to_nat k) Hf) as Hd. rewrite Es in Hd.
  destruct (drop (Z.to_nat k) datas) as [|d ds] eqn:Heq2; [by apply Forall2_length in Hd|].
  apply Forall2_cons in Hd as [[Hsd Hrd] Hrest].
  assert (datas !! Z.to_nat k = Some d) as Hdk.
  { rewrite <- (Nat.add_0_r (Z.to_nat k)), <- lookup_drop, Heq2. done. }
  assert (drop (S (Z.to_nat k)) datas = ds) as ->.
  { rewrite <- Nat.add_1_r, <- drop_drop, Heq2. done. }
  rewrite Hdk. simpl. rewrite Hrd by lia. simpl. rewrite (read_sectors_spec _ _ _ _ Hrest).
  f_equal. unfold slice. rewrite take_app. f_equal. f_equal. unfold zlen. rewrite length_take. lia.
Qed.

Lemma iter_take_chain c cs n : chain c cs -> iter_take fs n (Some c) = map Ok (take n cs).
Proof.
  intros Hc. revert n. induction Hc as [c Hs|c next cs Hs Hc IH]; intros [|n]; simpl; try done; rewrite Hs.
  - destruct n; simpl; done.
  - by rewrite IH.
Qed.

Lemma reader_read_at_spec root cs datas size offset len : chain root cs -> Forall2 cluster_holds cs datas ->
  0 <= offset -> 0 <= len ->
  reader_read_at (mkReader fs root size) offset len
  = Ok (slice (take (Z.to_nat size) (concat datas)) offset len).
Proof.
  intros Hch Hd Ho Hl. unfold reader_read_at. simpl.
  assert (Hgoal : slice (take (Z.to_nat size) (concat datas)) offset len
    = take (Z.to_nat (Z.min len (size - offset))) (drop (Z.to_nat offset) (concat datas))).
  { unfold slice. rewrite skipn_firstn_comm, take_take. f_equal. lia. }
  rewrite Hgoal. clear Hgoal.
  destruct (offset >=? size) eqn:E1; breflect; [by replace (Z.to_nat (Z.min len (size - offset))) with 0%nat by lia|].
  set (want := Z.min len (size - offset)) in *.
  destruct (want =? 0) eqn:E2; breflect; [by rewrite E2|].
  assert (0 < bytes_per_cluster fs) as Hb by (rewrite bytes_per_cluster_eq; nia).
  set (bpc := bytes_per_cluster fs) in *.
  pose proof (Z.div_mod offset bpc ltac:(lia)) as Hdm. pose proof (Z.mod_pos_bound offset bpc Hb) as Hm.
  pose proof (div_ceil_spec size bpc ltac:(lia) Hb) as Hdc.
  rewrite (iter_take_chain _ _ _ Hch). set (mx := Z.to_nat (div_ceil size bpc)) in *.
  assert (0 <= offset / bpc) as Hk0 by (apply Z.div_pos; lia).
  set (k := offset / bpc) in *. set (r := offset mod bpc) in *.
  assert (Hch' : Forall (fun l : bytes => length l = Z.to_nat bpc) datas).
  { clear -Hd Hss Hspc Hbpc. induction Hd; constructor; [by apply (cluster_length x)|done]. }
  assert (Htk : take (Z.to_nat want) (drop (Z.to_nat offset) (concat datas))
    = take (Z.to_nat want) (drop (Z.to_nat offset) (concat (take mx datas)))).
  { assert (forall l : bytes, take (Z.to_nat want) (drop (Z.to_nat offset) l) = drop (Z.to_nat offset) (take (Z.to_nat (offset + want)) l)) as Hsw.
    { intros l. rewrite skipn_firstn_comm. f_equal. lia. }
    rewrite !Hsw. f_equal. symmetry. apply (take_concat_chunks _ (Z.to_nat bpc)); [done|]. unfold mx. nia. }
  rewrite Htk. clear Htk.
  pose proof (Forall2_take _ _ _ mx Hd) as Hd'. set (cs' := take mx cs) in *. set (ds' := take mx datas) in *.
  assert (Z.to_nat offset = Z.to_nat k * Z.to_nat bpc + Z.to_nat r)%nat as -> by nia.
  rewrite drop_concat_chunks by (try (by apply Forall_take); lia).
  rewrite skipn_map.
  destruct (ds' !! Z.to_nat k) as [d|] eqn:Ek.
  - destruct (Forall2_lookup_r _ _ _ _ _ Hd' Ek) as (c & Hck & Hcd).
    rewrite list_lookup_fmap, Hck. simpl. rewrite (read_first_spec _ _ _ _ Hcd) by (fold bpc; lia). simpl.
    rewrite (read_clusters_spec _ (drop (S (Z.to_nat k)) ds')) by (by apply Forall2_drop).
    f_equal. rewrite take_app. f_equal. f_equal. unfold zlen. rewrite length_take. lia.
  - rewrite list_lookup_fmap. apply lookup_ge_None in Ek. pose proof (Forall2_length _ _ _ Hd') as Hlen.
    rewrite (lookup_ge_None_2 cs') by lia. simpl.
    rewrite (drop_ge ds'), (drop_ge cs') by lia. simpl. by rewrite drop_nil; simpl; rewrite take_nil.
Qed.
End ReaderCorrect.

(** ** Mounting *)

Lemma words_length l : length (words l) = (length l / 4)%nat.
Proof.
  remember (length l) as n eqn:Hn. revert l Hn. induction (lt_wf n) as [n _ IH]. intros l ->.
  destruct l as [|a [|b [|c [|d l]]]]; try done. cbn [words length].
  rewrite (IH (length l)) by (simpl; lia || done).
  replace (S (S (S (S (length l))))) with (length l + 1 * 4)%nat by lia. rewrite Nat.div_add; lia.
Qed.

Lemma words_app l l' k : length l = (4 * k)%nat -> words (l ++ l') = words l ++ words l'.
Proof.
  revert l. induction k as [|k IH]; intros l Hl; [destruct l; [done|simpl in Hl; lia]|].
  destruct l as [|a [|b [|c [|d l]]]]; simpl in Hl; try lia.
  cbn [words app]. f_equal. apply IH. lia.
Qed.

Lemma seqZ_cons_range a n : 0 < n -> seqZ a n = a :: seqZ (a + 1) (n - 1).
Proof. intros. by rewrite seqZ_cons by lia. Qed.

Definition bpb_valid (bpb : BiosParameterBlock) : bool :=
  (fat_size_16 bpb =? 0) && (root_entry_count bpb =? 0) && negb (fat_size_32 bpb =? 0) && negb (num_fats bpb =? 0)
  && bool_decide (bytes_per_sector bpb ∈ [512; 1024; 2048; 4096])
  && is_power_of_two (sectors_per_cluster bpb) && (root_cluster bpb >=? 2).

(** The whole of the FATs lies on the disk. *)
Definition fats_fit (disk : bytes) (bpb : BiosParameterBlock) : Prop :=
  0 <= reserved_sector_count bpb /\ 0 <= num_fats bpb /\ 0 <= fat_size_32 bpb /\
  reserved_sector_count bpb + num_fats bpb * fat_size_32 bpb < 2 ^ 32 /\
  (reserved_sector_count bpb + num_fats bpb * fat_size_32 bpb) * bytes_per_sector bpb <= zlen disk.

(** The entries of FAT number [i], as they are on the disk. *)
Definition disk_fat (disk : bytes) (bpb : BiosParameterBlock) (i : Z) : Fat :=
  map fat_entry_from (words (slice disk ((reserved_sector_count bpb + i * fat_size_32 bpb) * bytes_per_sector bpb)
    (fat_size_32 bpb * bytes_per_sector bpb))).

Lemma bpb_valid_sizes bpb : bpb_valid bpb = true ->
  0 < bytes_per_sector bpb <= 4096 /\ bytes_per_sector bpb mod 4 = 0 /\ 0 < sectors_per_cluster bpb.
Proof.
  unfold bpb_valid. intros Hv. breflect. apply bool_decide_eq_true in H2.
  assert (0 < sectors_per_cluster bpb) by (unfold is_power_of_two in H1; breflect; lia).
  rewrite !elem_of_cons in H2. destruct H2 as [->|[->|[->|[->|[]%not_elem_of_nil]]]]; (split_and!; [lia|lia|done|lia]).
Qed.

Section MountCorrect.
Context {D : Type} `{BlockDeviceLaws D} (dev : BlockBuffer D) (bpb : BiosParameterBlock).
Local Notation disk := (buffer_bytes dev).
Hypothesis Hdev : buffer_ok dev.
Hypothesis Hvalid : bpb_valid bpb = true.
Hypothesis Hfit : fats_fit disk bpb.

Lemma sector_offset_small s : 0 <= s < 2 ^ 32 -> sector_offset bpb s = s * bytes_per_sector bpb.
Proof. intros. pose proof (bpb_valid_sizes bpb Hvalid). apply umul_small. nia. Qed.

Lemma read_fat_sectors_spec n s fat : 0 <= s -> 0 <= n -> s + n < 2 ^ 32 -> (s + n) * bytes_per_sector bpb <= zlen disk ->
  read_fat_sectors dev bpb (seqZ s n) fat
  = Ok (fat ++ map fat_entry_from (words (slice disk (s * bytes_per_sector bpb) (n * bytes_per_sector bpb)))).
Proof.
  pose proof (bpb_valid_sizes bpb Hvalid) as (Hb & Hb4 & _).
  intros Hs Hn. revert s fat Hs. pattern n. apply natlike_ind; [|clear n Hn; intros n Hn IH|done]; intros s fat Hs Hlt Hin.
  - unfold slice. simpl. by rewrite app_nil_r.
  - rewrite seqZ_cons_range by lia. simpl. rewrite sector_offset_small by lia. rewrite buffer_read_at_spec by (done || nia).
    simpl. replace (Z.succ n - 1) with n by lia. rewrite IH by nia. f_equal. rewrite <- app_assoc. f_equal. rewrite <- map_app.
    replace (Z.succ n * bytes_per_sector bpb) with (bytes_per_sector bpb + n * bytes_per_sector bpb) by lia.
    rewrite slice_app by nia. apply Z.div_exact in Hb4; [|done].
    rewrite (words_app _ _ (Z.to_nat (bytes_per_sector bpb / 4))); [repeat f_equal; lia|].
    assert (zlen (slice disk (s * bytes_per_sector bpb) (bytes_per_sector bpb)) = bytes_per_sector bpb) as Hz
      by (apply zlen_slice_in; nia).
    unfold zlen in Hz. lia.
Qed.

Lemma read_fat_spec i : 0 <= i < num_fats bpb -> read_fat dev bpb i = Return (Ok (disk_fat disk bpb i)).
Proof.
  intros Hi. destruct Hfit as (Hr & Hnf & Hs & Hlt & Hin). pose proof (bpb_valid_sizes bpb Hvalid) as (Hb & _).
  pose proof Hdev as (_ & _ & Hl). fold (buffer_bytes dev) in Hl.
  assert (reserved_sector_count bpb + i * fat_size_32 bpb + fat_size_32 bpb
    <= reserved_sector_count bpb + num_fats bpb * fat_size_32 bpb) as Hle by nia.
  unfold read_fat, fat_region. destruct (i >=? num_fats bpb) eqn:E; breflect; [lia|].
  unfold fat_region_start, fat_len, u32add, u32mul. rewrite !(Z.mod_small (fat_size_32 bpb * i)) by nia.
  rewrite (Z.mul_comm (fat_size_32 bpb) i). rewrite !Z.mod_small by (rewrite ?Z.mod_small; nia).
  set (st := reserved_sector_count bpb + i * fat_size_32 bpb) in *.
  rewrite !sector_offset_small by nia. rewrite usub_small by nia.
  replace ((st + fat_size_32 bpb) * bytes_per_sector bpb - st * bytes_per_sector bpb) with (fat_size_32 bpb * bytes_per_sector bpb) by ring.
  rewrite (proj2 (Z.leb_le _ _)).
  2:{ unfold isize_max. pose proof (Z.mul_div_le (fat_size_32 bpb * bytes_per_sector bpb) 4 ltac:(lia)). nia. }
  ostep. replace (st + fat_size_32 bpb - st) with (fat_size_32 bpb) by lia.
  rewrite read_fat_sectors_spec by nia. done.
Qed.

Lemma compare_fats_spec nums : Forall (fun i => 0 <= i < num_fats bpb) nums ->
  compare_fats dev bpb (disk_fat disk bpb 0) nums
  = Return (if forallb (fun i => bool_decide (disk_fat disk bpb i = disk_fat disk bpb 0)) nums then Ok tt else Err (Fs InvalidFs)).
Proof.
  induction 1 as [|i nums Hi _ IH]; [done|]. cbn [compare_fats forallb]. rewrite read_fat_spec by done. ostep.
  destruct (bool_decide _); [exact IH|done].
Qed.
End MountCorrect.

Lemma bpb_new_spec {D : Type} `{BlockDeviceLaws D} (dev : BlockBuffer D) : buffer_ok dev -> 50 <= zlen (buffer_bytes dev) ->
  let bpb := bpb_of_bytes (slice (buffer_bytes dev) 0 50) in
  bpb_new dev = if bpb_valid bpb then Ok bpb else Err (Fs InvalidFs).
Proof.
  intros Hok Hlen bpb. unfold bpb_new. rewrite buffer_read_at_spec by (done || lia). cbn [rbind]. cbv zeta. fold bpb. clearbody bpb.
  unfold bpb_valid. destruct (fat_size_16 bpb =? 0); [|done]. destruct (root_entry_count bpb =? 0); [|done].
  destruct (fat_size_32 bpb =? 0); [done|]. destruct (num_fats bpb =? 0); [done|]. simpl.
  assert ((bytes_per_sector bpb =? 512) || (bytes_per_sector bpb =? 1024) || (bytes_per_sector bpb =? 2048)
    || (bytes_per_sector bpb =? 4096) = bool_decide (bytes_per_sector bpb ∈ [512; 1024; 2048; 4096])) as ->.
  { apply eq_bool_prop_intro. rewrite bool_decide_spec, !orb_True, !elem_of_cons, elem_of_nil, !Is_true_true, !Z.eqb_eq. tauto. }
  case_bool_decide as Hb; [|done]. simpl.
  assert (is_power_of_two (bytes_per_sector bpb) = true) as ->.
  { rewrite !elem_of_cons in Hb. destruct Hb as [->|[->|[->|[->|[]%not_elem_of_nil]]]]; reflexivity. }
  destruct (is_power_of_two (sectors_per_cluster bpb)); [|done]. by destruct (root_cluster bpb >=? 2).
Qed.

(** The copies of the FAT are all alike. *)
Definition fats_agree (disk : bytes) (bpb : BiosParameterBlock) : bool :=
  forallb (fun i => bool_decide (disk_fat disk bpb i = disk_fat disk bpb 0)) (seqZ 1 (num_fats bpb - 1)).

Lemma fat32_new_spec {D : Type} `{BlockDeviceLaws D} (dev : BlockBuffer D) id : buffer_ok dev -> 50 <= zlen (buffer_bytes dev) ->
  let disk := buffer_bytes dev in let bpb := bpb_of_bytes (slice disk 0 50) in
  fats_fit disk bpb ->
  fat32_new dev id = Return (if bpb_valid bpb && fats_agree disk bpb then Ok (mkFat32 dev bpb (disk_fat disk bpb 0) id)
                             else Err (Fs InvalidFs)).
Proof.
  intros Hok Hlen disk bpb Hfit. unfold fat32_new. rewrite bpb_new_spec by done. cbv zeta. fold disk. fold bpb.
  destruct (bpb_valid bpb) eqn:Hv; [|done].
  assert (0 < num_fats bpb) as Hnf. { destruct Hfit as (_ & ? & _). unfold bpb_valid in Hv. breflect. lia. }
  rewrite read_fat_spec by (done || lia). ostep.
  rewrite compare_fats_spec; [|done..|].
  - ostep. fold disk. fold (fats_agree disk bpb). by destruct (fats_agree disk bpb).
  - apply Forall_forall. intros i Hi%elem_of_seqZ. lia.
Qed.

(** Mounting accepts exactly the proper FAT32 volumes. If the FATs that the boot sector
    describes lie on the disk, [Fat32Filesystem::new] returns without a panic: a filesystem
    whose allocation table is the one on the disk if the boot sector is valid and all copies
    of the table agree, and InvalidFs otherwise. *)
Theorem fat32_mount_correct {D : Type} `{BlockDeviceLaws D} (dev : BlockBuffer D) id :
  buffer_ok dev -> 50 <= zlen (buffer_bytes dev) ->
  let disk := buffer_bytes dev in let bpb := bpb_of_bytes (slice disk 0 50) in
  fats_fit disk bpb ->
  fat32_new dev id = Return (if bpb_valid bpb && fats_agree disk bpb then Ok (mkFat32 dev bpb (disk_fat disk bpb 0) id)
                             else Err (Fs InvalidFs)).
Proof. apply fat32_new_spec. Qed.

(** ** File contents *)

(** The chain of clusters from [c] in an allocation table. *)
Inductive fat_chain (fat : Fat) : Z -> list Z -> Prop :=
| fat_chain_last c : fat !! Z.to_nat c = Some Eoc -> fat_chain fat c [c]
| fat_chain_cons c next cs : fat !! Z.to_nat c = Some (NextCluster next) -> fat_chain fat next cs -> fat_chain fat c (c :: cs).

Definition data_start (bpb : BiosParameterBlock) : Z := reserved_sector_count bpb + num_fats bpb * fat_size_32 bpb.
Definition cluster_data (disk : bytes) (bpb : BiosParameterBlock) (c : Z) : bytes :=
  slice disk ((data_start bpb + (c - 2) * sectors_per_cluster bpb) * bytes_per_sector bpb)
             (sectors_per_cluster bpb * bytes_per_sector bpb).
Definition cluster_in_volume (disk : bytes) (bpb : BiosParameterBlock) (c : Z) : Prop :=
  2 <= c < 2 ^ 32 /\ data_start bpb + (c - 1) * sectors_per_cluster bpb < 2 ^ 32 /\
  (data_start bpb + (c - 1) * sectors_per_cluster bpb) * bytes_per_sector bpb <= zlen disk.

Section FileCorrect.
Context {D : Type} `{BlockDeviceLaws D} (fs : Fat32Filesystem D).
Local Notation disk := (buffer_bytes (f_dev fs)).
Local Notation bpb := (f_bpb fs).
Hypothesis Hdev : buffer_ok (f_dev fs).
Hypothesis Hvalid : bpb_valid bpb = true.
Hypothesis Hfit : fats_fit disk bpb.

Lemma sector_holds_disk s : 0 <= s < 2 ^ 32 -> (s + 1) * bytes_per_sector bpb <= zlen disk ->
  sector_holds fs s (slice disk (s * bytes_per_sector bpb) (bytes_per_sector bpb)).
Proof.
  intros Hs Hin. destruct (bpb_valid_sizes bpb Hvalid) as (Hb & _). split; [simpl; apply zlen_slice_in; nia|].
  intros o len Ho Hl. simpl in *. unfold fs_read_sector.
  rewrite usub_small by lia. rewrite sector_offset_small by done. destruct Hdev as (_ & _ & Hd). fold (buffer_bytes (f_dev fs)) in Hd.
  rewrite uadd_small by nia. rewrite buffer_read_at_spec by (done || nia). f_equal.
  destruct (decide (len <= bytes_per_sector bpb - o)).
  - rewrite Z.min_l by done. symmetry. apply slice_slice; nia.
  - rewrite Z.min_r by lia. unfold slice. rewrite skipn_firstn_comm, drop_drop, take_take. f_equal; [lia|]. f_equal. nia.
Qed.

Lemma sectors_hold_disk n s : 0 <= n -> 0 <= s -> s + n < 2 ^ 32 -> (s + n) * bytes_per_sector bpb <= zlen disk ->
  exists datas, Forall2 (sector_holds fs) (seqZ s n) datas /\
    concat datas = slice disk (s * bytes_per_sector bpb) (n * bytes_per_sector bpb).
Proof.
  destruct (bpb_valid_sizes bpb Hvalid) as (Hb & _).
  intros Hn. revert s. pattern n. apply natlike_ind; [|clear n Hn; intros n Hn IH|done]; intros s Hs Hlt Hin.
  - exists []. split; [constructor|done].
  - destruct (IH (s + 1)) as (ds & Hds & Hcat); [lia..|nia|].
    exists (slice disk (s * bytes_per_sector bpb) (bytes_per_sector bpb) :: ds).
    rewrite seqZ_cons_range by lia. replace (Z.succ n - 1) with n by lia. split.
    + constructor; [apply sector_holds_disk; nia|done].
    + simpl. rewrite Hcat. replace (Z.succ n * bytes_per_sector bpb) with (bytes_per_sector bpb + n * bytes_per_sector bpb) by lia.
      rewrite slice_app by nia. f_equal. f_equal. lia.
Qed.

Lemma cluster_holds_disk c : cluster_in_volume disk bpb c -> cluster_holds fs c (cluster_data disk bpb c).
Proof.
  intros (Hc & Hlt & Hin). destruct (bpb_valid_sizes bpb Hvalid) as (Hb & _ & Hspc). destruct Hfit as (Hr & Hnf & Hfs & Hd & _).
  unfold data_start in *. set (ds := reserved_sector_count bpb + num_fats bpb * fat_size_32 bpb) in *.
  set (s := ds + (c - 2) * sectors_per_cluster bpb).
  assert (0 <= s /\ s + sectors_per_cluster bpb = ds + (c - 1) * sectors_per_cluster bpb) as [Hs He] by nia.
  destruct (sectors_hold_disk (sectors_per_cluster bpb) s) as (datas & Hf & Hcat); [lia..| |].
  { rewrite He. done. }
  exists (seqZ s (sectors_per_cluster bpb)), datas. split_and!; [|rewrite length_seqZ; simpl; lia|done|done].
  simpl. unfold bpb_cluster_to_sectors. destruct (c <? 2) eqn:E; breflect; [lia|]. cbv zeta.
  unfold fat_region_start, fat_len, u32add, u32mul, u32sub.
  rewrite (Z.mod_small (c - 2)) by lia. rewrite (Z.mod_small (fat_size_32 bpb * num_fats bpb)) by nia.
  rewrite (Z.mul_comm (fat_size_32 bpb)). fold ds. rewrite (Z.mod_small ds) by nia.
  rewrite (Z.mod_small ((c - 2) * sectors_per_cluster bpb)) by nia. fold s. rewrite (Z.mod_small s) by lia.
  rewrite Z.mod_small by lia. do 2 f_equal. lia.
Qed.

Lemma fat_chain_chain c cs : fat_chain (f_fat fs) c cs -> chain fs c cs.
Proof.
  induction 1 as [c Hc|c next cs Hc _ IH]; [apply chain_last|apply (chain_cons _ _ next)]; try done;
    simpl; unfold chain_next; by rewrite Hc.
Qed.

Lemma fs_read_at_spec root cs size offset len : fat_chain (f_fat fs) root cs -> Forall (cluster_in_volume disk bpb) cs ->
  0 <= offset -> 0 <= len ->
  reader_read_at (mkReader fs root size) offset len
  = Ok (slice (take (Z.to_nat size) (concat (map (cluster_data disk bpb) cs))) offset len).
Proof.
  intros Hc Hcs Ho Hl. destruct (bpb_valid_sizes bpb Hvalid) as (Hb & _ & Hspc).
  apply (reader_read_at_spec fs) with (cs := cs); try done; simpl; try lia.
  - destruct Hcs as [|c ? (? & ? & ?)]; [inversion Hc|]. destruct Hfit as (? & ? & ? & _). unfold data_start in *. nia.
  - by apply fat_chain_chain.
  - clear Hc. induction Hcs; simpl; constructor; [by apply cluster_holds_disk|done].
Qed.
End FileCorrect.

(** C10: a file of a mounted volume reads as its contents. Whatever the offset and the length,
    reading gives that part of the first [size] bytes of the clusters of the file, in the
    order in which the allocation table on the disk links them; the read crosses sectors and
    clusters as needed and stops at the end of the file. *)
Theorem fat32_read_correct {D : Type} `{BlockDeviceLaws D} (dev : BlockBuffer D) id fs root cs attr offset len :
  let disk := buffer_bytes dev in let bpb := bpb_of_bytes (slice disk 0 50) in
  buffer_ok dev -> 50 <= zlen disk -> fats_fit disk bpb -> fat32_new dev id = Return (Ok fs) ->
  fat_chain (disk_fat disk bpb 0) root cs -> Forall (cluster_in_volume disk bpb) cs -> 0 <= offset -> 0 <= len ->
  filenode_read_at (filenode_new fs root attr) offset len
  = Ok (slice (take (Z.to_nat (attr_size attr)) (concat (map (cluster_data disk bpb) cs))) offset len).
Proof.
  intros disk bpb Hok Hlen Hfit Hnew Hc Hcs Ho Hl. rewrite fat32_new_spec in Hnew by done. cbv zeta in Hnew. fold disk bpb in Hnew.
  destruct (bpb_valid bpb) eqn:Hv; [|done]. destruct (fats_agree disk bpb); [|done]. injection Hnew as <-.
  by apply (fs_read_at_spec (mkFat32 dev bpb (disk_fat disk bpb 0) id)).
Qed.

(** ** A read never yields more than was asked for *)

Lemma slice_len_le {A} (l : list A) off n : zlen (slice l off n) <= Z.max 0 n.
Proof. unfold zlen, slice. rewrite length_take. lia. Qed.

Lemma buffer_read_at_len {D : Type} `{BlockDevice D} (b : BlockBuffer D) off n l : buffer_read_at b off n = Ok l -> zlen l <= Z.max 0 n.
Proof.
  unfold buffer_read_at. destruct (n =? 0) eqn:E; breflect; [intros [= <-]; subst; done|].
  destruct (block_range b off n). intros (t & _ & [= <-])%rbind_Ok. apply slice_len_le.
Qed.

Section ReadBounds.
Context {D : Type} `{BlockDevice D} (fs : Fat32Filesystem D).

Lemma read_sector_len s o n l : 0 <= n -> fs_read_sector fs s o n = Ok l -> zlen l <= n.
Proof. intros Hn Hr%buffer_read_at_len. lia. Qed.

Lemma read_sectors_len secs acc want l : zlen acc <= want -> read_sectors fs secs acc want = Ok l -> zlen l <= want.
Proof.
  revert acc. induction secs as [|s secs IH]; intros acc Ha; simpl; [by intros [= <-]|].
  bcase; [by intros [= <-]|]. intros (b & Hb%read_sector_len & Hr)%rbind_Ok; [|lia].
  apply (IH (acc ++ b)); [rewrite zlen_app; lia|done].
Qed.

Lemma read_clusters_len items acc want l : zlen acc <= want -> read_clusters fs items acc want = Ok l -> zlen l <= want.
Proof.
  revert acc. induction items as [|i items IH]; intros acc Ha; simpl; [by intros [= <-]|].
  bcase; [by intros [= <-]|]. intros (c & _ & (secs & _ & (a & Hs%read_sectors_len & Hr)%rbind_Ok)%rbind_Ok)%rbind_Ok; [|done].
  by apply (IH a).
Qed.

Lemma read_first_len c i o want l : 0 <= want -> read_first_cluster fs c i o want = Ok l -> zlen l <= want.
Proof.
  intros Hw (secs & _ & Hr)%rbind_Ok. destruct (drop _ secs) as [|s rest]; [injection Hr as <-; done|].
  apply rbind_Ok in Hr as (b & Hb%read_sector_len & Hr); [|done]. by apply read_sectors_len in Hr.
Qed.
End ReadBounds.


(** ** A volume

    512-byte sectors and clusters, two FATs of one sector; a file of two clusters, 3 and 5. *)
Fixpoint le_bytes (n : nat) (v : Z) : bytes :=
  match n with O => [] | S n => v mod 256 :: le_bytes n (v / 256) end.

Definition demo_boot : bytes :=
  replicate 11 0 ++ le_bytes 2 512 ++ [1] ++ le_bytes 2 1 ++ [2] ++ replicate 19 0 ++ le_bytes 4 1
  ++ replicate 4 0 ++ le_bytes 4 2 ++ le_bytes 2 1 ++ replicate 462 0.
Definition demo_fat : bytes :=
  concat (map (le_bytes 4) [0x0FFFFFF8; 0x0FFFFFFF; 0x0FFFFFFF; 5; 0; 0x0FFFFFFF]) ++ replicate 488 0.
Definition demo_volume (root_dir : bytes) : bytes :=
  demo_boot ++ demo_fat ++ demo_fat ++ root_dir ++ replicate 512 97 ++ replicate 512 0 ++ replicate 512 98 ++ replicate 512 0.
Definition demo_dev (root_dir : bytes) : BlockBuffer RamdiskBlkDev := buffer_new (mkRamdisk 0 1 (demo_volume root_dir)).
Definition demo_dir0 : bytes := replicate 512 0.
Definition demo_fs (root_dir : bytes) : Fat32Filesystem RamdiskBlkDev :=
  mkFat32 (demo_dev root_dir) (mkBpb 512 1 1 2 0 0 1 2 1) (map fat_entry_from (words demo_fat)) 10.

Lemma demo_dev_ok : buffer_ok (demo_dev demo_dir0).
Proof. split; [reflexivity|]. split; vm_compute; reflexivity. Defined.

Lemma fat32_mount_correct_witness : fat32_new (demo_dev demo_dir0) 10 = Return (Ok (demo_fs demo_dir0)).
Proof.
  pose proof (fat32_mount_correct (demo_dev demo_dir0) 10 demo_dev_ok) as Hm. simpl in Hm.
  rewrite Hm; [vm_compute; reflexivity|vm_compute; discriminate|]. vm_compute. intuition discriminate.
Defined.

Lemma fat32_read_correct_witness :
  filenode_read_at (filenode_new (demo_fs demo_dir0) 3 (mkAttr inode_dummy 1000 0 0 0 0 0 0 File 0 1 0 0)) 510 4 = Ok [97; 97; 98; 98].
Proof.
  rewrite (fat32_read_correct (demo_dev demo_dir0) 10 (demo_fs demo_dir0) 3 [3; 5]).
  - vm_compute. reflexivity.
  - apply demo_dev_ok.
  - vm_compute. discriminate.
  - vm_compute. intuition discriminate.
  - vm_compute. reflexivity.
  - apply (fat_chain_cons _ 3 5); [vm_compute; reflexivity|]. apply fat_chain_last. vm_compute. reflexivity.
  - repeat constructor; vm_compute; congruence.
  - lia.
  - lia.
Defined.


(** ** Where the driver trusts the volume *)

(** A boot sector whose FAT would reach past the last sector number makes the size of the
    table negative: mounting panics. *)
Lemma mount_overflow_panics :
  let boot := replicate 11 0 ++ le_bytes 2 512 ++ [1] ++ le_bytes 2 32 ++ [2] ++ replicate 19 0 ++ le_bytes 4 (2 ^ 32 - 1)
    ++ replicate 4 0 ++ le_bytes 4 2 ++ le_bytes 2 1 ++ replicate 4046 0 in
  fat32_new (buffer_new (mkRamdisk 0 1 boot)) 10 = Panic.
Proof. vm_compute. reflexivity. Qed.
