(* ===== verification/Fat32Dir.v ===== *)
(** * The FAT32 filesystem: directories

    Models libkernel/src/fs/filesystems/fat32/dir.rs: directory entries with short and long
    names, time stamps, the directory stream, lookup and readdir.  Strings are lists of
    Unicode scalar values; the lossy UTF-8 and UTF-16 conversions of the standard library and
    the two ASCII case operations are written out.  A duration is a number of nanoseconds. *)
From stdpp Require Import base list.
From S2P Require Import Prelude Error Blk Attr Fat32.
Local Open Scope Z_scope.

Lemma lor_shift_add h l k : 0 <= k -> 0 <= l < 2 ^ k -> Z.lor (Z.shiftl h k) l = h * 2 ^ k + l.
Proof.
  intros Hk Hl. rewrite <- Z.shiftl_mul_pow2 by done. symmetry. rewrite <- Z.lxor_lor; [apply Z.add_nocarry_lxor|];
    apply Z.bits_inj'; intros n Hn; rewrite Z.land_spec, Z.bits_0;
    (destruct (decide (n < k)); [by rewrite Z.shiftl_spec_low|]);
    (destruct (decide (l = 0)) as [->|]; [by rewrite Z.bits_0, andb_false_r|]);
    rewrite (Z.bits_above_log2 l n), andb_false_r by (try lia; assert (Z.log2 l < k) by (apply Z.log2_lt_pow2; lia); lia); done.
Qed.

Notation str := (list Z).

(** ** Strings *)

Definition REPLACEMENT : Z := 0xFFFD.
Definition in_range (lo hi b : Z) : bool := (lo <=? b) && (b <=? hi).
Definition cont (b : Z) : bool := in_range 0x80 0xBF b.
(** The second byte of a three- or four-byte sequence that starts with [b0]. *)
Definition second3 (b0 b1 : Z) : bool :=
  if b0 =? 0xE0 then in_range 0xA0 0xBF b1 else if b0 =? 0xED then in_range 0x80 0x9F b1 else cont b1.
Definition second4 (b0 b1 : Z) : bool :=
  if b0 =? 0xF0 then in_range 0x90 0xBF b1 else if b0 =? 0xF4 then in_range 0x80 0x8F b1 else cont b1.

(** [String::from_utf8_lossy]: every maximal prefix of a sequence that is cut short becomes one
    replacement character. *)
Fixpoint from_utf8_lossy (l : bytes) : str :=
  match l with
  | [] => []
  | b0 :: l1 =>
      if b0 <? 0x80 then b0 :: from_utf8_lossy l1
      else if in_range 0xC2 0xDF b0 then
        match l1 with
        | b1 :: l2 => if cont b1 then (Z.land b0 0x1F * 64 + Z.land b1 0x3F) :: from_utf8_lossy l2
                      else REPLACEMENT :: from_utf8_lossy l1
        | [] => [REPLACEMENT]
        end
      else if in_range 0xE0 0xEF b0 then
        match l1 with
        | b1 :: l2 =>
            if second3 b0 b1 then
              match l2 with
              | b2 :: l3 => if cont b2 then (Z.land b0 0x0F * 4096 + Z.land b1 0x3F * 64 + Z.land b2 0x3F) :: from_utf8_lossy l3
                            else REPLACEMENT :: from_utf8_lossy l2
              | [] => [REPLACEMENT]
              end
            else REPLACEMENT :: from_utf8_lossy l1
        | [] => [REPLACEMENT]
        end
      else if in_range 0xF0 0xF4 b0 then
        match l1 with
        | b1 :: l2 =>
            if second4 b0 b1 then
              match l2 with
              | b2 :: l3 =>
                  if cont b2 then
                    match l3 with
                    | b3 :: l4 =>
                        if cont b3 then (Z.land b0 0x07 * 262144 + Z.land b1 0x3F * 4096 + Z.land b2 0x3F * 64 + Z.land b3 0x3F) :: from_utf8_lossy l4
                        else REPLACEMENT :: from_utf8_lossy l3
                    | [] => [REPLACEMENT]
                    end
                  else REPLACEMENT :: from_utf8_lossy l2
              | [] => [REPLACEMENT]
              end
            else REPLACEMENT :: from_utf8_lossy l1
        | [] => [REPLACEMENT]
        end
      else REPLACEMENT :: from_utf8_lossy l1
  end.

(** [String::from_utf16_lossy] *)
Fixpoint from_utf16_lossy (l : list Z) : str :=
  match l with
  | [] => []
  | u :: l1 =>
      if negb (in_range 0xD800 0xDFFF u) then u :: from_utf16_lossy l1
      else if in_range 0xDC00 0xDFFF u then REPLACEMENT :: from_utf16_lossy l1
      else match l1 with
           | v :: l2 =>
               if in_range 0xDC00 0xDFFF v
               then (0x10000 + (u - 0xD800) * 0x400 + (v - 0xDC00)) :: from_utf16_lossy l2
               else REPLACEMENT :: from_utf16_lossy l1
           | [] => [REPLACEMENT]
           end
  end.

Definition ascii_lower (c : Z) : Z := if in_range 65 90 c then c + 32 else c.
Definition to_ascii_lowercase (s : str) : str := map ascii_lower s.
Definition eq_ignore_ascii_case (s t : str) : bool := bool_decide (to_ascii_lowercase s = to_ascii_lowercase t).

(** [iter().position(p).unwrap_or(len)] and the slice up to it. *)
Fixpoint until (p : Z -> bool) (l : list Z) : list Z :=
  match l with [] => [] | x :: l => if p x then [] else x :: until p l end.

(** ** Directory entries *)

Notation ATTR_VOLUME_LABEL := (0x08).
Notation ATTR_DIRECTORY := (0x10).
Notation ATTR_ARCHIVE := (0x20).

Definition file_type_of_attributes (value : Z) : result FileType :=
  if bits_contain value ATTR_DIRECTORY then Ok Directory
  else if bits_contain value ATTR_ARCHIVE then Ok File
  else Err (Fs InvalidFs).

Fixpoint u16s (l : bytes) : list Z :=
  match l with a :: b :: l => le [a; b] :: u16s l | _ => [] end.

(** The thirteen characters of a long-name entry. *)
Definition extract_chars (l : bytes) : list Z := u16s (slice l 1 10) ++ u16s (slice l 14 12) ++ u16s (slice l 28 4).

Record DirEntry := mkDirEntry {
  dos_file_name : bytes; dos_extension : bytes; attributes : Z; ctime_ms : Z; e_ctime : Z; cdate : Z; adate : Z;
  clust_high : Z; e_mtime : Z; mdate : Z; clust_low : Z; e_size : Z
}.

Definition dir_entry_of_bytes (l : bytes) : DirEntry :=
  mkDirEntry (slice l 0 8) (slice l 8 3) (field l 11 1) (field l 13 1) (field l 14 2) (field l 16 2) (field l 18 2)
    (field l 20 2) (field l 22 2) (field l 24 2) (field l 26 2) (field l 28 4).

Definition parse_filename (d : DirEntry) : str :=
  let name_part := until (Z.eqb 32) (dos_file_name d) in
  let ext_part := until (Z.eqb 32) (dos_extension d) in
  let result := from_utf8_lossy name_part in
  to_ascii_lowercase
    (if 0 <? zlen ext_part then result ++ [46] ++ from_utf8_lossy ext_part else result).

(** ** Time stamps *)

Notation is_leap_year year := (((year mod 4 =? 0) && negb (year mod 100 =? 0)) || (year mod 400 =? 0)) (only parsing).

Definition days_in_month (year month : Z) : Z :=
  if bool_decide (month ∈ [1; 3; 5; 7; 8; 10; 12]) then 31
  else if bool_decide (month ∈ [4; 6; 9; 11]) then 30
  else if month =? 2 then (if is_leap_year year then 29 else 28)
  else 30.

(** [while month > 1] *)
Fixpoint add_months (n : nat) (year month days : Z) : Z :=
  match n with
  | O => days
  | S n => if month >? 1 then add_months n year (month - 1) (days + days_in_month year (month - 1)) else days
  end.

Definition days_since_1980 (year month day : Z) : Z :=
  let days := foldl (fun days y => days + (365 + Z.b2z (is_leap_year y))) 0 (seqZ 1980 (year - 1980)) in
  let days := add_months (Z.to_nat month) year month days in
  days + saturating_sub day 1.

Definition from_secs (s : Z) : Z := s * 10 ^ 9.
Definition from_millis (m : Z) : Z := m * 10 ^ 6.

Definition fat_date_to_duration (date : Z) : Z :=
  if date =? 0 then 0
  else
    let day := Z.land date 31 in
    let month := Z.land (Z.shiftr date 5) 15 in
    let year := Z.land (Z.shiftr date 9) 127 + 1980 in
    if (day =? 0) || (month =? 0) then 0
    else from_secs ((3652 + days_since_1980 year month day) * 86400).

Definition fat_datetime_to_duration (date time csecs : Z) : Z :=
  if (date =? 0) && (time =? 0) then 0
  else
    let base := fat_date_to_duration date in
    let hours := Z.land (Z.shiftr time 11) 31 in
    let minutes := Z.land (Z.shiftr time 5) 63 in
    let two_secs := Z.land time 31 in
    let secs := two_secs * 2 in
    let millis := csecs * 10 in
    base + from_secs (hours * 3600 + minutes * 60 + secs) + from_millis millis.

(** ** The directory stream *)

Record Fat32DirEntry := mkFatEntry { fe_attr : FileAttr; fe_cluster : Z; fe_name : str; fe_offset : Z }.
Record Dirent := mkDirent { dent_id : InodeId; dent_name : str; dent_type : FileType; dent_offset : Z }.

Section Stream.
Context {T : Type} `{Fat32Operations T}.

Record Fat32DirStream := mkStream { ds_reader : Fat32Reader T; ds_offset : Z; lfn_buffer : list Z; ds_fs_id : Z }.

(** Counting the clusters of the chain uses [fuel]. *)
Definition dirstream_new (fuel : nat) (fs : T) (root : Z) : outcome Fat32DirStream :=
  let! n := iter_count fs fuel (Some root) in
  let max_sz := umul n (bytes_per_cluster fs) in
  Return (mkStream (mkReader fs root max_sz) 0 [] (fs_instance fs)).

Notation stream_advance s offset := (mkStream (ds_reader s) offset (lfn_buffer s) (ds_fs_id s)) (only parsing).

Definition skip_to (s : Fat32DirStream) (lfn : list Z) : Fat32DirStream :=
  mkStream (ds_reader s) (uadd (ds_offset s) 1) lfn (ds_fs_id s).

Definition entry_attr (d : DirEntry) (ft : FileType) : FileAttr :=
  mkAttr inode_dummy (e_size d) 0 0
    (fat_date_to_duration (adate d)) 0 (fat_datetime_to_duration (mdate d) (e_mtime d) 0)
    (fat_datetime_to_duration (cdate d) (e_ctime d) (ctime_ms d))
    ft 0x1ed 1 0 0.

Definition entry_name (lfn : list Z) (d : DirEntry) : str :=
  match lfn with
  | [] => parse_filename d
  | _ => from_utf16_lossy (until (fun c => (c =? 0) || (c =? 0xFFFF)) lfn)
  end.

Fixpoint next_loop (fuel : nat) (s : Fat32DirStream) : outcome (result (option Fat32DirEntry) * Fat32DirStream) :=
  match fuel with
  | O => OutOfFuel
  | S fuel =>
      match reader_read_at (ds_reader s) (umul (ds_offset s) 32) 32 with
      | Err e => Return (Err e, s)
      | Ok b =>
          let entry_bytes := b ++ replicate (32 - length b) 0 in
          let first := nth 0 entry_bytes 0 in
          if first =? 0 then Return (Ok None, s)
          else if first =? 0xE5 then next_loop fuel (skip_to s [])
          else if nth 11 entry_bytes 0 =? 0x0F then
            next_loop fuel (skip_to s (extract_chars entry_bytes ++ lfn_buffer s))
          else
            let dir_entry := dir_entry_of_bytes entry_bytes in
            if bits_contain (attributes dir_entry) ATTR_VOLUME_LABEL then next_loop fuel (skip_to s [])
            else
              let name := entry_name (lfn_buffer s) dir_entry in
              match file_type_of_attributes (attributes dir_entry) with
              | Err e => Return (Err e, s)
              | Ok file_type =>
                  let cluster := cluster_from_high_low (clust_high dir_entry) (clust_low dir_entry) in
                  let s := skip_to s [] in
                  Return (Ok (Some (mkFatEntry (entry_attr dir_entry file_type) cluster name (ds_offset s))), s)
              end
      end
  end.

(** Every round that goes on advances by one entry, and a read at or behind [max_sz] gives a
    zero entry. *)
Definition dir_fuel (s : Fat32DirStream) : nat := Z.to_nat (r_max_sz (ds_reader s) / 32) + 2.
Definition next_fat32_entry (s : Fat32DirStream) : outcome (result (option Fat32DirEntry) * Fat32DirStream) :=
  next_loop (dir_fuel s) s.

Definition next_entry (s : Fat32DirStream) : outcome (result (option Dirent) * Fat32DirStream) :=
  let? (entry, s) := next_fat32_entry s in
  Return (Ok (option_map (fun x =>
    mkDirent (mkInodeId (ds_fs_id s) (fe_cluster x)) (fe_name x) (file_type (fe_attr x)) (fe_offset x)) entry), s).

(** ** Directory nodes *)

Record Fat32DirNode := mkDirNode { d_attr : FileAttr; d_root : Z; d_fs : T; streamer : Fat32DirStream }.

Definition dirnode_new (fuel : nat) (fs : T) (root : Z) (attr : FileAttr) : outcome Fat32DirNode :=
  let! s := dirstream_new fuel fs root in
  Return (mkDirNode attr root fs s).

Inductive Fat32Node : Type :=
| NodeFile (n : Fat32FileNode T)
| NodeDir (n : Fat32DirNode).

(** [rounds] bounds the entries looked at, [fuel] the chain of the directory found. *)
Fixpoint lookup_loop (rounds fuel : nat) (fs : T) (dir_iter : Fat32DirStream) (name : str) : outcome (result Fat32Node) :=
  match rounds with
  | O => OutOfFuel
  | S rounds =>
      let! (r, dir_iter) := next_fat32_entry dir_iter in
      match r with
      | Err e => Return (Err e)
      | Ok None => Return (Err (Fs NotFound))
      | Ok (Some entry) =>
          if eq_ignore_ascii_case (fe_name entry) name then
            match file_type (fe_attr entry) with
            | File => Return (Ok (NodeFile (filenode_new fs (fe_cluster entry) (fe_attr entry))))
            | Directory => let! n := dirnode_new fuel fs (fe_cluster entry) (fe_attr entry) in Return (Ok (NodeDir n))
            | _ => Return (Err NotSupported)
            end
          else lookup_loop rounds fuel fs dir_iter name
      end
  end.

Definition dir_lookup (fuel : nat) (n : Fat32DirNode) (name : str) : outcome (result Fat32Node) :=
  lookup_loop (dir_fuel (streamer n)) fuel (d_fs n) (streamer n) name.

Definition readdir (n : Fat32DirNode) (start_offset : Z) : result Fat32DirStream := Ok (stream_advance (streamer n) start_offset).
End Stream.
Arguments Fat32DirStream : clear implicits.
Arguments Fat32DirNode : clear implicits.

Definition root_inode {D : Type} `{BlockDevice D} (fs : Fat32Filesystem D) : outcome (Fat32DirNode (Fat32Filesystem D)) :=
  dirnode_new (S (length (f_fat fs))) fs (root_cluster (f_bpb fs))
    (mkAttr (mkInodeId (f_id fs) (root_cluster (f_bpb fs))) 0 0 0 0 0 0 0 Directory 0 1 0 0).

(** * Correctness *)

(** ** Time stamps

    The reference counts days in the proleptic Gregorian calendar from 1970-01-01, with years
    starting in March. *)
Definition days_from_civil (y m d : Z) : Z :=
  let y' := if m <=? 2 then y - 1 else y in
  let era := y' / 400 in
  let yoe := y' - era * 400 in
  let doy := (153 * ((m + 9) mod 12) + 2) / 5 + d - 1 in
  era * 146097 + (yoe * 365 + yoe / 4 - yoe / 100 + doy) - 719468.

Definition encode_date (y m d : Z) : Z := (y - 1980) * 512 + m * 32 + d.
Definition encode_time (h mi s2 : Z) : Z := h * 2048 + mi * 32 + s2.

Lemma days_since_1980_spec y m d : 1980 <= y <= 2107 -> 1 <= m <= 12 -> 1 <= d ->
  3652 + days_since_1980 y m d = days_from_civil y m d.
Proof.
  intros Hy Hm Hd.
  assert (forallb (fun y => forallb (fun m => 3652 + days_since_1980 y m 1 =? days_from_civil y m 1) (seqZ 1 12)) (seqZ 1980 128) = true) as Hall
    by (vm_compute; reflexivity).
  rewrite forallb_forall in Hall. specialize (Hall y). rewrite <- list_elem_of_In, elem_of_seqZ, forallb_forall in Hall.
  specialize (Hall ltac:(lia) m). rewrite <- list_elem_of_In, elem_of_seqZ, Z.eqb_eq in Hall. specialize (Hall ltac:(lia)).
  unfold days_since_1980, days_from_civil in *. rewrite saturating_sub_ge in Hall |- * by lia. lia.
Qed.

Lemma field_low x k n : 0 <= k -> 0 <= n -> Z.land (Z.shiftr x k) (2 ^ n - 1) = (x / 2 ^ k) mod 2 ^ n.
Proof.
  intros. replace (2 ^ n - 1) with (Z.ones n) by (rewrite Z.ones_equiv; lia). by rewrite Z.land_ones, Z.shiftr_div_pow2.
Qed.

(** Decode a bit field of a packed number. *)
Ltac bit_field :=
  rewrite field_low by lia;
  repeat match goal with |- context [2 ^ ?n] => let v := eval vm_compute in (2 ^ n) in change (2 ^ n) with v end;
  Z.to_euclidean_division_equations; lia.

Lemma fat_date_spec y m d : 1980 <= y <= 2107 -> 1 <= m <= 12 -> 1 <= d <= 31 ->
  fat_date_to_duration (encode_date y m d) = from_secs (days_from_civil y m d * 86400).
Proof.
  intros Hy Hm Hd. unfold fat_date_to_duration, encode_date. set (x := (y - 1980) * 512 + m * 32 + d).
  assert (Z.land x 31 = d) as ->.
  { rewrite <- (Z.shiftr_0_r x). change 31 with (2 ^ 5 - 1). unfold x. bit_field. }
  assert (Z.land (Z.shiftr x 5) 15 = m) as -> by (change 15 with (2 ^ 4 - 1); unfold x; bit_field).
  assert (Z.land (Z.shiftr x 9) 127 + 1980 = y) as -> by (change 127 with (2 ^ 7 - 1); unfold x; bit_field).
  bcases; try (unfold x in *; lia). by rewrite days_since_1980_spec by lia.
Qed.

(** Time stamps are converted correctly. For every date that FAT can represent (1980-01-01
    to 2107-12-31) and every time of day with its centiseconds, the conversion is the number
    of nanoseconds since 1970-01-01 00:00:00 in the Gregorian calendar, leap years included. *)
Theorem fat_datetime_correct y m d h mi s2 cs :
  1980 <= y <= 2107 -> 1 <= m <= 12 -> 1 <= d <= 31 -> 0 <= h < 24 -> 0 <= mi < 60 -> 0 <= s2 < 30 -> 0 <= cs < 200 ->
  fat_datetime_to_duration (encode_date y m d) (encode_time h mi s2) cs
  = ((days_from_civil y m d * 24 + h) * 60 + mi) * 60 * 10 ^ 9 + s2 * 2 * 10 ^ 9 + cs * 10 ^ 7.
Proof.
  intros Hy Hm Hd Hh Hmi Hs Hcs. unfold fat_datetime_to_duration. rewrite fat_date_spec by done.
  set (t := encode_time h mi s2).
  assert (Z.land (Z.shiftr t 11) 31 = h) as -> by (change 31 with (2 ^ 5 - 1); unfold t, encode_time; bit_field).
  assert (Z.land (Z.shiftr t 5) 63 = mi) as -> by (change 63 with (2 ^ 6 - 1); unfold t, encode_time; bit_field).
  assert (Z.land t 31 = s2) as ->.
  { rewrite <- (Z.shiftr_0_r t). change 31 with (2 ^ 5 - 1). unfold t, encode_time. bit_field. }
  destruct (encode_date y m d =? 0) eqn:E; breflect; [unfold encode_date in E; lia|]. simpl.
  unfold from_secs, from_millis. lia.
Qed.

Lemma fat_datetime_correct_witness :
  fat_datetime_to_duration (encode_date 2024 2 29) (encode_time 23 59 29) 150 = 1709251199500000000.
Proof. rewrite (fat_datetime_correct 2024 2 29 23 59 29 150) by lia. vm_compute. reflexivity. Defined.

(** ** Long names *)

Definition scalar (c : Z) : Prop := (0 <= c < 0xD800 \/ 0xE000 <= c < 0x110000).
Definition utf16_units (c : Z) : list Z :=
  if c <? 0x10000 then [c] else [0xD800 + (c - 0x10000) / 0x400; 0xDC00 + (c - 0x10000) mod 0x400].
Definition utf16 (s : str) : list Z := concat (map utf16_units s).

Lemma from_utf16_utf16 s : Forall scalar s -> from_utf16_lossy (utf16 s) = s.
Proof.
  induction 1 as [|c s Hc _ IH]; [done|]. unfold utf16 in *. cbn [map concat]. unfold utf16_units at 1.
  destruct (c <? 0x10000) eqn:E; breflect.
  - cbn [app from_utf16_lossy]. unfold in_range. destruct ((0xD800 <=? c) && (c <=? 0xDFFF)) eqn:Er; [breflect; unfold scalar in Hc; lia|].
    simpl. by rewrite IH.
  - unfold scalar in Hc. pose proof (Z.mod_pos_bound (c - 0x10000) 0x400 ltac:(lia)).
    pose proof (Z.div_mod (c - 0x10000) 0x400 ltac:(lia)).
    assert (0 <= (c - 0x10000) / 0x400 < 0x400) by lia.
    cbn [app from_utf16_lossy]. unfold in_range.
    rewrite !(proj2 (Z.leb_le _ _)) by lia. simpl. rewrite (proj2 (Z.leb_gt _ _)) by lia. simpl.
    rewrite IH. f_equal. lia.
Qed.

(** Units are 16 bits wide, and the two that end a name occur only for U+0000 and U+FFFF. *)
Lemma utf16_units_ok s : Forall (fun c => scalar c /\ c <> 0 /\ c <> 0xFFFF) s ->
  Forall (fun u => 0 <= u < 65536 /\ u <> 0 /\ u <> 0xFFFF) (utf16 s).
Proof.
  induction 1 as [|c s (Hc & H0 & H1) _ IH]; [constructor|]. unfold utf16 in *. cbn [map concat]. apply Forall_app. split; [|done].
  unfold utf16_units, scalar in *. bcase; repeat constructor; Z.to_euclidean_division_equations; lia.
Qed.

(** A name is cut into entries of thirteen units, ended by 0 and filled with 0xFFFF. *)
Definition pad_units (u : list Z) : list Z :=
  if (length u mod 13 =? 0)%nat then u else u ++ 0 :: replicate (12 - length u mod 13) 0xFFFF.
Fixpoint chunks (k : nat) (l : list Z) : list (list Z) :=
  match k with O => [] | S k => take 13 l :: chunks k (drop 13 l) end.
Definition u16_bytes (u : Z) : bytes := [u mod 256; u / 256].
Definition lfn_entry (seq sum : Z) (c : list Z) : bytes :=
  [seq] ++ concat (map u16_bytes (take 5 c)) ++ [0x0F; 0; sum] ++ concat (map u16_bytes (take 6 (drop 5 c)))
  ++ [0; 0] ++ concat (map u16_bytes (drop 11 c)).
Definition name_chunks (name : str) : list (list Z) :=
  let u := pad_units (utf16 name) in chunks (length u / 13) u.
Definition lfn_seq (n i : nat) : Z := Z.of_nat (S i) + (if (S i =? n)%nat then 0x40 else 0).
Definition lfn_entries (name : str) (sum : Z) : list bytes :=
  let cs := name_chunks name in rev (imap (fun i c => lfn_entry (lfn_seq (length cs) i) sum c) cs).

Lemma pad_units_length u : (length (pad_units u) mod 13 = 0)%nat.
Proof.
  unfold pad_units. destruct (Nat.eqb_spec (length u mod 13) 0); [done|]. rewrite length_app. cbn [length]. rewrite length_replicate.
  pose proof (Nat.mod_upper_bound (length u) 13 ltac:(lia)). pose proof (Nat.div_mod_eq (length u) 13).
  replace (length u + S (12 - length u mod 13))%nat with ((length u / 13 + 1) * 13)%nat by lia. apply Nat.Div0.mod_mul.
Qed.

Lemma pad_units_until u : Forall (fun x => x <> 0 /\ x <> 0xFFFF) u ->
  until (fun c => (c =? 0) || (c =? 0xFFFF)) (pad_units u) = u.
Proof.
  assert (forall v, Forall (fun x => x <> 0 /\ x <> 0xFFFF) u -> (v = [] \/ exists v', v = 0 :: v') ->
    until (fun c => (c =? 0) || (c =? 0xFFFF)) (u ++ v) = u) as Hu.
  { intros v H Hv. induction H as [|x u [H0 H1] _ IH]; simpl.
    - destruct Hv as [->|[v' ->]]; done.
    - apply Z.eqb_neq in H0, H1. rewrite H0, H1. simpl. by rewrite IH. }
  intros H. unfold pad_units. case_match; [rewrite <- (app_nil_r u) at 1|]; apply Hu; eauto.
Qed.

Lemma chunks_spec k l : length l = (13 * k)%nat ->
  concat (chunks k l) = l /\ Forall (fun c => length c = 13%nat) (chunks k l) /\ length (chunks k l) = k.
Proof.
  revert l. induction k as [|k IH]; intros l Hl; simpl; [destruct l; [done|simpl in Hl; lia]|].
  destruct (IH (drop 13 l)) as (Hc & Hf & Hn); [rewrite length_drop; lia|].
  split_and!; [by rewrite Hc, take_drop|constructor; [rewrite length_take; lia|done]|by rewrite Hn].
Qed.

Lemma le_u16_bytes u : le (u16_bytes u) = u.
Proof. unfold le, u16_bytes. simpl. pose proof (Z.div_mod u 256 ltac:(lia)). lia. Qed.

Lemma lfn_entry_extract seq sum c : length c = 13%nat -> extract_chars (lfn_entry seq sum c) = c.
Proof.
  intros Hc. do 13 (destruct c as [|? c]; [done|]). destruct c; [|done].
  unfold extract_chars, lfn_entry, u16_bytes, slice. simpl.
  pose proof le_u16_bytes as Hle. unfold le, u16_bytes in Hle. simpl in Hle. by rewrite !Hle.
Qed.

Lemma lfn_entry_shape seq sum c : length c = 13%nat ->
  length (lfn_entry seq sum c) = 32%nat /\ nth 0 (lfn_entry seq sum c) 0 = seq /\ nth 11 (lfn_entry seq sum c) 0 = 0x0F.
Proof. intros Hc. do 13 (destruct c as [|? c]; [done|]). by destruct c. Qed.

(** ** Directory entries on the disk *)

Definition encode_dir_entry (d : DirEntry) : bytes :=
  dos_file_name d ++ dos_extension d ++ [attributes d; 0; ctime_ms d] ++ le_bytes 2 (e_ctime d) ++ le_bytes 2 (cdate d)
  ++ le_bytes 2 (adate d) ++ le_bytes 2 (clust_high d) ++ le_bytes 2 (e_mtime d) ++ le_bytes 2 (mdate d)
  ++ le_bytes 2 (clust_low d) ++ le_bytes 4 (e_size d).

Definition u16_ok (x : Z) : Prop := 0 <= x < 65536.
Record dir_entry_wf (d : DirEntry) : Prop := {
  wf_name : length (dos_file_name d) = 8%nat;
  wf_ext : length (dos_extension d) = 3%nat;
  wf_ctime : u16_ok (e_ctime d);
  wf_cdate : u16_ok (cdate d);
  wf_adate : u16_ok (adate d);
  wf_high : u16_ok (clust_high d);
  wf_mtime : u16_ok (e_mtime d);
  wf_mdate : u16_ok (mdate d);
  wf_low : u16_ok (clust_low d);
  wf_size : 0 <= e_size d < 2 ^ 32
}.

Lemma le_bytes_spec n v : 0 <= v < 256 ^ Z.of_nat n -> le (le_bytes n v) = v.
Proof.
  revert v. induction n as [|n IH]; intros v Hv; simpl; [change (256 ^ Z.of_nat 0) with 1 in Hv; simpl; lia|].
  rewrite Nat2Z.inj_succ, Z.pow_succ_r in Hv by lia. fold (le (le_bytes n (v / 256))). rewrite IH.
  - pose proof (Z.div_mod v 256 ltac:(lia)). lia.
  - split; [apply Z.div_pos; lia|]. apply Z.div_lt_upper_bound; lia.
Qed.

Lemma dir_entry_roundtrip d : dir_entry_wf d -> dir_entry_of_bytes (encode_dir_entry d) = d.
Proof.
  intros []. destruct d as [name ext a cm ct cd ad ch mt md cl sz]. simpl in *.
  do 8 (destruct name as [|? name]; [done|]). destruct name; [|done].
  do 3 (destruct ext as [|? ext]; [done|]). destruct ext; [|done].
  unfold dir_entry_of_bytes, encode_dir_entry, field, slice.
  pose proof (fun v H => le_bytes_spec 2 v H) as H2. pose proof (fun v H => le_bytes_spec 4 v H) as H4.
  change (256 ^ Z.of_nat 2) with 65536 in H2. change (256 ^ Z.of_nat 4) with (2 ^ 32) in H4. unfold u16_ok in *.
  f_equal; try reflexivity; try (simpl; lia); first [by apply H2|by apply H4].
Qed.

(** ** Short names *)

Lemma until_app p (u v : list Z) : Forall (fun x => p x = false) u -> (v = [] \/ exists x v', v = x :: v' /\ p x = true) ->
  until p (u ++ v) = u.
Proof.
  intros H Hv. induction H as [|x u Hx _ IH]; simpl; [|by rewrite Hx, IH].
  destruct Hv as [->|(x & v' & -> & Hp)]; simpl; [done|by rewrite Hp].
Qed.

Definition printable (c : Z) : Prop := 33 <= c <= 126.
Definition space_pad (n : nat) (l : bytes) : bytes := l ++ replicate (n - length l) 32.
Definition short_name (base ext : bytes) : str :=
  to_ascii_lowercase (base ++ match ext with [] => [] | _ => 46 :: ext end).

Lemma until_space_pad n l : Forall printable l -> until (Z.eqb 32) (space_pad n l) = l.
Proof.
  intros Hl. apply until_app.
  - eapply Forall_impl; [exact Hl|]. unfold printable. intros c Hc. apply Z.eqb_neq. lia.
  - destruct (n - length l)%nat; [by left|right; simpl; eauto].
Qed.

Lemma from_utf8_ascii l : Forall printable l -> from_utf8_lossy l = l.
Proof.
  induction 1 as [|c l Hc _ IH]; [done|]. unfold printable in Hc. cbn [from_utf8_lossy].
  rewrite (proj2 (Z.ltb_lt _ _)) by lia. by rewrite IH.
Qed.

Lemma parse_filename_short d base ext : dos_file_name d = space_pad 8 base -> dos_extension d = space_pad 3 ext ->
  Forall printable base -> Forall printable ext -> parse_filename d = short_name base ext.
Proof.
  intros Hb He Hpb Hpe. unfold parse_filename. rewrite Hb, He, !until_space_pad, !from_utf8_ascii by done. unfold short_name.
  destruct ext; simpl; [by rewrite app_nil_r|done].
Qed.

(** ** What is in a directory

    A directory holds entries that are skipped (deleted ones and volume labels) and files with
    a short name and possibly a long one; after the last of them it ends, or a zero byte marks
    the end. *)
Inductive slot : Type :=
| Skipped (b : bytes)
| Present (long : option str) (sum : Z) (base ext : bytes) (d : DirEntry).

Definition slot_entries (s : slot) : list bytes :=
  match s with
  | Skipped b => [b]
  | Present long sum _ _ d => match long with Some n => lfn_entries n sum | None => [] end ++ [encode_dir_entry d]
  end.
Definition slot_name (long : option str) (base ext : bytes) : str :=
  match long with Some n => n | None => short_name base ext end.

Definition first_ok (b : Z) : Prop := b <> 0 /\ b <> 0xE5.
Definition long_ok (n : str) : Prop :=
  n <> [] /\ (length (utf16 n) <= 255)%nat /\ Forall (fun c => scalar c /\ c <> 0 /\ c <> 0xFFFF) n.
Definition slot_ok (s : slot) : Prop :=
  match s with
  | Skipped b => length b = 32%nat /\ (nth 0 b 0 = 0xE5 \/
      nth 0 b 0 <> 0 /\ nth 11 b 0 <> 0x0F /\ bits_contain (nth 11 b 0) ATTR_VOLUME_LABEL = true)
  | Present long _ base ext d =>
      dir_entry_wf d /\ dos_file_name d = space_pad 8 base /\ dos_extension d = space_pad 3 ext /\
      base <> [] /\ Forall printable base /\ Forall printable ext /\
      attributes d <> 0x0F /\ bits_contain (attributes d) ATTR_VOLUME_LABEL = false /\
      (bits_contain (attributes d) ATTR_DIRECTORY = true \/ bits_contain (attributes d) ATTR_ARCHIVE = true) /\
      match long with Some n => long_ok n | None => True end
  end.

Definition entry_type (d : DirEntry) : FileType := if bits_contain (attributes d) ATTR_DIRECTORY then Directory else File.

(** What listing the slots from entry [i] on gives: names, metadata, first clusters and the
    offset behind each file. *)
Fixpoint listing (i : Z) (slots : list slot) : list Fat32DirEntry :=
  match slots with
  | [] => []
  | s :: slots =>
      let j := i + zlen (slot_entries s) in
      match s with
      | Skipped _ => listing j slots
      | Present long sum base ext d =>
          mkFatEntry (entry_attr d (entry_type d)) (clust_high d * 65536 + clust_low d) (slot_name long base ext) j
          :: listing j slots
      end
  end.

(** Listing a stream to its end. *)
Fixpoint list_stream {T : Type} `{Fat32Operations T} (rounds : nat) (s : Fat32DirStream T) : outcome (result (list Fat32DirEntry)) :=
  match rounds with
  | O => OutOfFuel
  | S rounds =>
      let! (r, s) := next_fat32_entry s in
      match r with
      | Err e => Return (Err e)
      | Ok None => Return (Ok [])
      | Ok (Some x) =>
          let! r := list_stream rounds s in
          Return (match r with Ok l => Ok (x :: l) | Err e => Err e end)
      end
  end.

(** The long-name buffer after an entry that yields no file. *)
Definition scan_entry (b : bytes) (lfn : list Z) : option (list Z) :=
  if nth 0 b 0 =? 0 then None
  else if nth 0 b 0 =? 0xE5 then Some []
  else if nth 11 b 0 =? 0x0F then Some (extract_chars b ++ lfn)
  else if bits_contain (attributes (dir_entry_of_bytes b)) ATTR_VOLUME_LABEL then Some []
  else None.
Fixpoint scan (es : list bytes) (lfn : list Z) : option (list Z) :=
  match es with [] => Some lfn | b :: es => match scan_entry b lfn with Some lfn => scan es lfn | None => None end end.

Lemma scan_app es es' lfn : scan (es ++ es') lfn = match scan es lfn with Some l => scan es' l | None => None end.
Proof. revert lfn. induction es as [|b es IH]; intros lfn; simpl; [done|]. destruct (scan_entry b lfn); [apply IH|done]. Qed.

Lemma lfn_seq_ok n i : (i < n)%nat -> (n <= 20)%nat -> first_ok (lfn_seq n i).
Proof. intros. unfold lfn_seq, first_ok. destruct (Nat.eqb_spec (S i) n); lia. Qed.

(** Reading the long-name entries of a name, last part first, puts its units together. *)
Lemma scan_lfn_chunks n cs f lfn : (length cs <= n)%nat -> Forall (fun c => length c = 13%nat) cs ->
  (forall i, (i < n)%nat -> first_ok (f i)) ->
  forall sum, scan (rev (imap (fun i c => lfn_entry (f i) sum c) cs)) lfn = Some (concat cs ++ lfn).
Proof.
  intros Hn Hcs Hf sum. revert lfn. induction cs as [|c cs IH] using rev_ind; intros lfn; [done|].
  rewrite imap_app, rev_app_distr. simpl. apply Forall_app in Hcs as [Hcs [Hc _]%Forall_cons].
  rewrite length_app in Hn. simpl in Hn.
  destruct (lfn_entry_shape (f (length cs + 0)%nat) sum c Hc) as (_ & H0 & H11).
  destruct (Hf (length cs + 0)%nat ltac:(lia)) as [Hz He5].
  unfold scan_entry. rewrite H0, H11. apply Z.eqb_neq in Hz, He5. rewrite Hz, He5. simpl.
  rewrite lfn_entry_extract, IH by (done || lia). rewrite concat_app. simpl. by rewrite app_nil_r, <- app_assoc.
Qed.

Lemma name_chunks_spec n : concat (name_chunks n) = pad_units (utf16 n) /\
  Forall (fun c => length c = 13%nat) (name_chunks n) /\ (length (name_chunks n) = length (pad_units (utf16 n)) / 13)%nat.
Proof.
  unfold name_chunks. apply chunks_spec. pose proof (pad_units_length (utf16 n)) as H.
  pose proof (Nat.div_mod_eq (length (pad_units (utf16 n))) 13). lia.
Qed.

Lemma scan_lfn_entries n sum : long_ok n -> scan (lfn_entries n sum) [] = Some (pad_units (utf16 n)).
Proof.
  intros (_ & Hl & _). destruct (name_chunks_spec n) as (Hc & Hf & Hn). unfold lfn_entries.
  rewrite (scan_lfn_chunks (length (name_chunks n))); [by rewrite Hc, app_nil_r|done|done|].
  intros i Hi. apply lfn_seq_ok; [done|]. rewrite Hn. apply Nat.Div0.div_le_upper_bound.
  unfold pad_units. case_match; [lia|]. rewrite length_app. cbn [length]. rewrite length_replicate.
  pose proof (Nat.div_mod_eq (length (utf16 n)) 13). pose proof (Nat.mod_upper_bound (length (utf16 n)) 13 ltac:(lia)). lia.
Qed.

Lemma entry_name_long n d : long_ok n -> entry_name (pad_units (utf16 n)) d = n.
Proof.
  intros (Hne & _ & Hf). pose proof (utf16_units_ok n Hf) as Hu.
  assert (until (fun c => (c =? 0) || (c =? 0xFFFF)) (pad_units (utf16 n)) = utf16 n) as Hp
    by (apply pad_units_until; eapply Forall_impl; [exact Hu|]; simpl; tauto).
  assert (from_utf16_lossy (utf16 n) = n) as Hr by (apply from_utf16_utf16; eapply Forall_impl; [exact Hf|]; simpl; tauto).
  unfold entry_name. destruct (pad_units (utf16 n)) eqn:E; [|by rewrite Hp].
  simpl in Hp. rewrite <- Hp in Hr. simpl in Hr. congruence.
Qed.

(** ** The stream *)

Section StreamCorrect.
Context {T : Type} `{Fat32Operations T} (r : Fat32Reader T) (ents : list bytes) (id : Z).

(** The directory's data are the 32-byte entries [ents]. *)
Record dir_holds : Prop := {
  dh_read : forall i, (i <= length ents)%nat -> reader_read_at r (Z.of_nat i * 32) 32 = Ok (default [] (ents !! i));
  dh_len : Forall (fun b => length b = 32%nat) ents;
  dh_size : r_max_sz r = zlen ents * 32;
  dh_bound : zlen ents * 32 < 2 ^ 63
}.
Hypothesis Hdir : dir_holds.

Definition at_entry (i : nat) (lfn : list Z) : Fat32DirStream T := mkStream r (Z.of_nat i) lfn id.

Lemma read_entry i lfn : (i <= length ents)%nat ->
  reader_read_at (ds_reader (at_entry i lfn)) (umul (ds_offset (at_entry i lfn)) 32) 32 = Ok (default [] (ents !! i)).
Proof. intros Hi. simpl. pose proof (dh_bound Hdir). rewrite umul_small by (unfold zlen in *; lia). by apply dh_read. Qed.

Lemma skip_to_at i lfn lfn' : (i <= length ents)%nat -> skip_to (at_entry i lfn) lfn' = at_entry (S i) lfn'.
Proof. intros Hi. unfold skip_to, at_entry. simpl. pose proof (dh_bound Hdir). f_equal. rewrite uadd_small by (unfold zlen in *; lia). lia. Qed.

Lemma entry_padded i b : ents !! i = Some b -> b ++ replicate (32 - length b) 0 = b.
Proof.
  intros Hi. pose proof (dh_len Hdir) as Hl. rewrite Forall_lookup in Hl. rewrite (Hl _ _ Hi). simpl. apply app_nil_r.
Qed.

Lemma next_loop_scan1 fuel i b lfn lfn' : ents !! i = Some b -> scan_entry b lfn = Some lfn' ->
  next_loop (S fuel) (at_entry i lfn) = next_loop fuel (at_entry (S i) lfn').
Proof.
  intros Hi Hs. assert (i <= length ents)%nat as Hle by (apply lookup_lt_Some in Hi; lia).
  cbn [next_loop]. rewrite read_entry, Hi by done. cbv [default from_option Datatypes.id]. rewrite (entry_padded _ _ Hi). cbv zeta.
  unfold scan_entry in Hs. destruct (nth 0 b 0 =? 0); [done|].
  destruct (nth 0 b 0 =? 0xE5); [injection Hs as <-; by rewrite skip_to_at|].
  destruct (nth 11 b 0 =? 0x0F); [injection Hs as <-; by rewrite skip_to_at|].
  destruct (bits_contain _ _); [injection Hs as <-; by rewrite skip_to_at|done].
Qed.

Lemma next_loop_scan fuel es rest i lfn lfn' : drop i ents = es ++ rest -> scan es lfn = Some lfn' ->
  next_loop (length es + fuel) (at_entry i lfn) = next_loop fuel (at_entry (i + length es) lfn').
Proof.
  revert i lfn. induction es as [|b es IH]; intros i lfn Hd Hs; simpl in Hs.
  - injection Hs as <-. by rewrite Nat.add_0_r.
  - change (length (b :: es) + fuel)%nat with (S (length es + fuel)). destruct (scan_entry b lfn) as [l|] eqn:E; [|done].
    assert (ents !! i = Some b) as Hi by (rewrite <- (Nat.add_0_r i), <- lookup_drop, Hd; done).
    rewrite (next_loop_scan1 _ _ _ _ _ Hi E), (IH (S i)); [f_equal; f_equal; simpl; lia| |done].
    rewrite <- Nat.add_1_r, <- drop_drop, Hd. done.
Qed.

Lemma next_loop_present fuel i lfn d name : ents !! i = Some (encode_dir_entry d) -> dir_entry_wf d ->
  first_ok (nth 0 (dos_file_name d) 0) -> attributes d <> 0x0F -> bits_contain (attributes d) ATTR_VOLUME_LABEL = false ->
  (bits_contain (attributes d) ATTR_DIRECTORY = true \/ bits_contain (attributes d) ATTR_ARCHIVE = true) -> entry_name lfn d = name ->
  next_loop (S fuel) (at_entry i lfn) = Return (Ok (Some (mkFatEntry (entry_attr d (entry_type d))
    (clust_high d * 65536 + clust_low d) name (Z.of_nat (S i)))), at_entry (S i) []).
Proof.
  intros Hi Hwf [H0 He5] Ha Hv Ht <-. assert (i <= length ents)%nat as Hle by (apply lookup_lt_Some in Hi; lia).
  cbn [next_loop]. rewrite read_entry, Hi by done. cbv [default from_option Datatypes.id]. rewrite (entry_padded _ _ Hi). cbv zeta.
  assert (nth 0 (encode_dir_entry d) 0 = nth 0 (dos_file_name d) 0 /\ nth 11 (encode_dir_entry d) 0 = attributes d) as [-> ->].
  { destruct Hwf. destruct d as [nm ex]. simpl in *. do 8 (destruct nm as [|? nm]; [done|]). destruct nm; [|done].
    do 3 (destruct ex as [|? ex]; [done|]). by destruct ex. }
  apply Z.eqb_neq in H0, He5, Ha. rewrite H0, He5, Ha, dir_entry_roundtrip, Hv by done.
  assert (file_type_of_attributes (attributes d) = Ok (entry_type d)) as ->.
  { unfold file_type_of_attributes, entry_type. destruct (bits_contain _ ATTR_DIRECTORY); [done|]. by destruct Ht as [?| ->]. }
  rewrite skip_to_at by done. do 4 f_equal. f_equal.
  destruct Hwf as [_ _ _ _ _ Hh _ _ Hlo _]. unfold u16_ok in *.
  rewrite lor_shift_add; [done|lia|]. exact Hlo.
Qed.

(** After the last slot the directory ends. *)
Definition end_marked (tail : list bytes) : Prop := tail = [] \/ exists b tl, tail = b :: tl /\ nth 0 b 0 = 0.

Lemma next_loop_end fuel i lfn tail : drop i ents = tail -> (i <= length ents)%nat -> end_marked tail ->
  next_loop (S fuel) (at_entry i lfn) = Return (Ok None, at_entry i lfn).
Proof.
  intros Hd Hi Hend. cbn [next_loop]. rewrite read_entry by done.
  destruct Hend as [->|(b & tl & -> & H0)].
  - rewrite lookup_ge_None_2; [done|]. apply (f_equal length) in Hd. rewrite length_drop in Hd. simpl in Hd. lia.
  - assert (ents !! i = Some b) as Hb by (rewrite <- (Nat.add_0_r i), <- lookup_drop, Hd; done).
    rewrite Hb. cbv [default from_option Datatypes.id]. rewrite (entry_padded _ _ Hb). cbv zeta. by rewrite H0.
Qed.

Definition slots_entries (slots : list slot) : list bytes := concat (map slot_entries slots).

Lemma next_loop_present_slot fuel i long sum base ext d rest :
  slot_ok (Present long sum base ext d) -> drop i ents = slot_entries (Present long sum base ext d) ++ rest ->
  (length (slot_entries (Present long sum base ext d)) <= fuel)%nat ->
  next_loop fuel (at_entry i []) = Return (Ok (Some (mkFatEntry (entry_attr d (entry_type d))
    (clust_high d * 65536 + clust_low d) (slot_name long base ext)
    (Z.of_nat i + zlen (slot_entries (Present long sum base ext d))))),
    at_entry (i + length (slot_entries (Present long sum base ext d))) []).
Proof.
  intros (Hwf & Hb & He & Hne & Hpb & Hpe & Ha & Hv & Ht & Hl) Hd Hf.
  set (pre := match long with Some n => lfn_entries n sum | None => [] end) in *.
  assert (exists lfn, scan pre [] = Some lfn /\ entry_name lfn d = slot_name long base ext) as (lfn & Hs & Hn).
  { destruct long as [n|]; simpl.
    - eexists. split; [by apply scan_lfn_entries|by apply entry_name_long].
    - exists []. split; [done|]. by apply parse_filename_short. }
  cbn [slot_entries] in *. fold pre in Hd, Hf |- *. rewrite <- app_assoc in Hd. simpl in Hd.
  rewrite length_app in Hf. simpl in Hf.
  replace fuel with (length pre + S (fuel - length pre - 1))%nat by lia.
  rewrite (next_loop_scan _ _ _ _ _ _ Hd Hs), (next_loop_present _ _ _ d (slot_name long base ext)); try done.
  - unfold zlen. rewrite length_app. simpl. do 4 f_equal; [|f_equal; lia]. f_equal. f_equal. lia.
  - replace (i + length pre)%nat with (i + length pre + 0)%nat by lia. rewrite <- lookup_drop, <- drop_drop, Hd, drop_app_length. done.
  - rewrite Hb. destruct base as [|c base]; [done|]. apply Forall_cons in Hpb as [Hc _]. unfold printable, first_ok in *. simpl. lia.
Qed.

Lemma next_loop_skipped fuel i b rest : slot_ok (Skipped b) -> drop i ents = b :: rest ->
  next_loop (S fuel) (at_entry i []) = next_loop fuel (at_entry (S i) []).
Proof.
  intros (Hlen & Hs) Hd. assert (ents !! i = Some b) as Hi by (rewrite <- (Nat.add_0_r i), <- lookup_drop, Hd; done).
  apply (next_loop_scan1 _ _ b); [done|]. unfold scan_entry.
  destruct Hs as [->|(H0 & H11 & Hc)]; [done|].
  assert (attributes (dir_entry_of_bytes b) = nth 11 b 0) as ->.
  { unfold dir_entry_of_bytes, field, slice. cbn [attributes]. do 12 (destruct b as [|? b]; [done|]). simpl. lia. }
  apply Z.eqb_neq in H0, H11. rewrite H0, H11, Hc. by destruct (nth 0 b 0 =? 0xE5).
Qed.

(** One call of [next_fat32_entry] on a list of slots. *)
Lemma next_slots slots tail i fuel : Forall slot_ok slots -> drop i ents = slots_entries slots ++ tail ->
  (i <= length ents)%nat -> end_marked tail -> (length (slots_entries slots) < fuel)%nat ->
  match listing (Z.of_nat i) slots with
  | [] => exists j, next_loop fuel (at_entry i []) = Return (Ok None, at_entry j [])
  | e :: es => exists j rest, next_loop fuel (at_entry i []) = Return (Ok (Some e), at_entry j []) /\
      es = listing (Z.of_nat j) rest /\ Forall slot_ok rest /\ drop j ents = slots_entries rest ++ tail /\ (j <= length ents)%nat
  end.
Proof.
  intros Hok. revert i fuel. induction Hok as [|s slots Hs Hok IH]; intros i fuel Hd Hi Hend Hf.
  { simpl in *. exists i. destruct fuel; [lia|]. by apply (next_loop_end _ _ _ tail). }
  assert (Hlen : (i + length (slot_entries s) <= length ents)%nat).
  { apply (f_equal length) in Hd. unfold slots_entries in Hd. simpl in Hd. rewrite !length_app, length_drop in Hd. lia. }
  unfold slots_entries in Hd, Hf. cbn [map concat] in Hd, Hf. fold (slots_entries slots) in Hd, Hf. rewrite <- app_assoc in Hd.
  assert (Hd' : drop (i + length (slot_entries s)) ents = slots_entries slots ++ tail) by (rewrite <- drop_drop, Hd; apply drop_app_length).
  rewrite length_app in Hf. cbn [listing]. destruct s as [b|long sum base ext d].
  - destruct fuel as [|fuel]; [lia|]. rewrite (next_loop_skipped _ _ _ _ Hs Hd). simpl in Hf, Hd', Hlen.
    replace (Z.of_nat i + zlen (slot_entries (Skipped b))) with (Z.of_nat (S i)) by (unfold zlen; simpl; lia).
    rewrite Nat.add_1_r in Hd'. apply IH; [done|lia|done|lia].
  - eexists _, slots. split; [eapply next_loop_present_slot; [done|done|lia]|].
    split_and!; [f_equal; unfold zlen; lia|done|done|done].
Qed.

Lemma listing_length i slots : (length (listing i slots) <= length (slots_entries slots))%nat.
Proof.
  revert i. induction slots as [|s slots IH]; intros i; [done|]. unfold slots_entries. cbn [listing map concat].
  rewrite length_app. fold (slots_entries slots). specialize (IH (i + zlen (slot_entries s))).
  destruct s; simpl in *; [lia|]. rewrite length_app. simpl. lia.
Qed.

Lemma dir_fuel_eq i lfn : dir_fuel (at_entry i lfn) = (length ents + 2)%nat.
Proof. unfold dir_fuel. simpl. rewrite (dh_size Hdir). unfold zlen. rewrite Z.div_mul by lia. lia. Qed.

Lemma slots_fuel slots tail i : drop i ents = slots_entries slots ++ tail -> (length (slots_entries slots) < length ents + 2)%nat.
Proof. intros Hd. apply (f_equal length) in Hd. rewrite length_app, length_drop in Hd. lia. Qed.

Lemma list_stream_spec rounds slots tail i : Forall slot_ok slots -> drop i ents = slots_entries slots ++ tail ->
  (i <= length ents)%nat -> end_marked tail -> (length (listing (Z.of_nat i) slots) < rounds)%nat ->
  list_stream rounds (at_entry i []) = Return (Ok (listing (Z.of_nat i) slots)).
Proof.
  revert i slots. induction rounds as [|rounds IH]; intros i slots Hok Hd Hi Hend Hr; [lia|].
  cbn [list_stream]. unfold next_fat32_entry. rewrite dir_fuel_eq.
  pose proof (next_slots slots tail i (length ents + 2) Hok Hd Hi Hend (slots_fuel _ _ _ Hd)) as Hn.
  destruct (listing (Z.of_nat i) slots) as [|e es].
  - destruct Hn as (j & ->). done.
  - destruct Hn as (j & rest & -> & -> & Hok' & Hd' & Hj). ostep.
    rewrite (IH j rest Hok' Hd' Hj Hend) by (simpl in Hr; lia). done.
Qed.

(** [lookup] looks for the first file of the listing that has the name. *)
Definition find_name (name : str) (l : list Fat32DirEntry) : option Fat32DirEntry :=
  List.find (fun e => eq_ignore_ascii_case (fe_name e) name) l.

Definition node_of (fuel : nat) (fs : T) (e : Fat32DirEntry) : outcome (result Fat32Node) :=
  match file_type (fe_attr e) with
  | File => Return (Ok (NodeFile (filenode_new fs (fe_cluster e) (fe_attr e))))
  | Directory => let! n := dirnode_new fuel fs (fe_cluster e) (fe_attr e) in Return (Ok (NodeDir n))
  | _ => Return (Err NotSupported)
  end.

Lemma lookup_loop_spec rounds fuel fs name slots tail i : Forall slot_ok slots -> drop i ents = slots_entries slots ++ tail ->
  (i <= length ents)%nat -> end_marked tail -> (length (listing (Z.of_nat i) slots) < rounds)%nat ->
  lookup_loop rounds fuel fs (at_entry i []) name
  = match find_name name (listing (Z.of_nat i) slots) with Some e => node_of fuel fs e | None => Return (Err (Fs NotFound)) end.
Proof.
  revert i slots. induction rounds as [|rounds IH]; intros i slots Hok Hd Hi Hend Hr; [lia|].
  cbn [lookup_loop]. unfold next_fat32_entry. rewrite dir_fuel_eq.
  pose proof (next_slots slots tail i (length ents + 2) Hok Hd Hi Hend (slots_fuel _ _ _ Hd)) as Hn.
  destruct (listing (Z.of_nat i) slots) as [|e es].
  - destruct Hn as (j & ->). done.
  - destruct Hn as (j & rest & -> & -> & Hok' & Hd' & Hj). ostep. unfold find_name. cbn [List.find].
    destruct (eq_ignore_ascii_case (fe_name e) name); [done|].
    rewrite (IH j rest Hok' Hd' Hj Hend) by (simpl in Hr; lia). done.
Qed.
End StreamCorrect.

(** ** Directories on a mounted volume *)

Lemma fat_chain_det fat c cs cs' : fat_chain fat c cs -> fat_chain fat c cs' -> cs = cs'.
Proof.
  intros H. revert cs'. induction H as [c Hc|c next cs Hc Hch IH]; intros cs' H'; inversion H'; subst; try congruence.
  f_equal. apply IH. congruence.
Qed.

Lemma fat_chain_suffix fat c cs x : fat_chain fat c cs -> x ∈ cs -> exists cs', fat_chain fat x cs' /\ (length cs' <= length cs)%nat.
Proof.
  induction 1 as [c Hc|c next cs Hc Hch IH]; intros Hx.
  - apply list_elem_of_singleton in Hx as ->. exists [c]. split; [by constructor|done].
  - apply elem_of_cons in Hx as [->|Hx]; [exists (c :: cs); split; [by apply (fat_chain_cons _ _ next)|done]|].
    destruct (IH Hx) as (cs' & H' & Hl). exists cs'. split; [done|simpl; lia].
Qed.

Lemma fat_chain_NoDup fat c cs : fat_chain fat c cs -> NoDup cs.
Proof.
  induction 1 as [c Hc|c next cs Hc Hch IH]; [apply NoDup_singleton|]. constructor; [|done].
  intros Hin. destruct (fat_chain_suffix _ _ _ _ Hch Hin) as (cs' & H' & Hl).
  pose proof (fat_chain_det _ _ _ _ (fat_chain_cons _ _ _ _ Hc Hch) H') as <-. simpl in Hl. lia.
Qed.

(** Distinct numbers of a range are at most as many as the range has. *)
Lemma NoDup_range_zlen (l : list Z) a n : NoDup l -> 0 <= n -> Forall (fun x => a <= x < a + n) l -> zlen l <= n.
Proof.
  intros Hnd Hn Hl. assert (l ⊆ seqZ a n) as Hs by (intros x Hx; rewrite Forall_forall in Hl; apply elem_of_seqZ; by apply Hl).
  pose proof (NoDup_submseteq _ _ Hnd Hs) as Hle%submseteq_length. rewrite length_seqZ in Hle. unfold zlen. lia.
Qed.

Lemma fat_chain_length fat c cs : fat_chain fat c cs -> Forall (Z.le 0) cs -> (length cs <= length fat)%nat.
Proof.
  intros Hc Hp. enough (zlen cs <= zlen fat) by (unfold zlen in *; lia).
  apply (NoDup_range_zlen _ 0); [by eapply fat_chain_NoDup|apply zlen_nonneg|].
  assert (Forall (fun x => is_Some (fat !! Z.to_nat x)) cs) as Hs.
  { clear Hp. induction Hc as [c Hc|c next cs Hc _ IH]; constructor; eauto. }
  apply Forall_forall. intros x Hx. rewrite Forall_forall in Hp, Hs. apply Hp in Hx as H0. apply Hs, lookup_lt_is_Some_1 in Hx.
  unfold zlen. lia.
Qed.

Lemma iter_count_chain {T : Type} `{Fat32Operations T} (fs : T) c cs fuel : chain fs c cs -> (length cs <= fuel)%nat ->
  iter_count fs fuel (Some c) = Return (zlen cs).
Proof.
  intros Hc. revert fuel. induction Hc as [c Hs|c next cs Hs _ IH]; intros [|fuel] Hf; simpl in Hf; try lia;
    cbn [iter_count]; rewrite Hs; simpl.
  - by destruct fuel.
  - rewrite IH by lia. simpl. unfold zlen. simpl. f_equal. lia.
Qed.

(** A mounted volume whose tables lie on the disk. *)
Definition mounted {D : Type} `{BlockDeviceLaws D} (fs : Fat32Filesystem D) : Prop :=
  buffer_ok (f_dev fs) /\ bpb_valid (f_bpb fs) = true /\ fats_fit (buffer_bytes (f_dev fs)) (f_bpb fs).

(** The directory that starts at cluster [root] has the clusters [cs] and in them the entries
    [ents]. *)
Definition directory_on {D : Type} `{BlockDeviceLaws D} (fs : Fat32Filesystem D) (root : Z) (ents : list bytes) : Prop :=
  exists cs, fat_chain (f_fat fs) root cs /\ Forall (cluster_in_volume (buffer_bytes (f_dev fs)) (f_bpb fs)) cs /\
    concat (map (cluster_data (buffer_bytes (f_dev fs)) (f_bpb fs)) cs) = concat ents /\
    Forall (fun b => length b = 32%nat) ents.

Section DirCorrect.
Context {D : Type} `{BlockDeviceLaws D} (fs : Fat32Filesystem D).
Local Notation disk := (buffer_bytes (f_dev fs)).
Local Notation bpb := (f_bpb fs).
Hypothesis Hm : mounted fs.

Lemma fs_bpc c : cluster_in_volume disk bpb c -> bytes_per_cluster fs = sectors_per_cluster bpb * bytes_per_sector bpb /\
  0 < bytes_per_cluster fs.
Proof.
  destruct Hm as (_ & Hv & (Hr & Hnf & Hfs & _)). intros (Hc & Hlt & _). destruct (bpb_valid_sizes bpb Hv) as (Hb & _ & Hspc).
  unfold data_start in *. assert (sectors_per_cluster bpb < 2 ^ 32) by nia.
  unfold bytes_per_cluster. simpl. rewrite umul_small by nia. split; [done|nia].
Qed.

(** A chain of clusters of the volume is no longer than the disk. *)
Lemma chain_bytes_bound root cs : fat_chain (f_fat fs) root cs -> Forall (cluster_in_volume disk bpb) cs ->
  zlen cs * bytes_per_cluster fs <= zlen disk.
Proof.
  intros Hc Hcs. pose proof Hm as (_ & Hv & (Hr & Hnf & Hfs & _)). destruct (bpb_valid_sizes bpb Hv) as (Hb & _ & Hspc).
  assert (exists c, cluster_in_volume disk bpb c) as [c0 Hc0] by (destruct Hcs; [inversion Hc|eauto]).
  destruct (fs_bpc c0 Hc0) as [Hbpc Hpos]. pose proof (zlen_nonneg disk).
  assert (zlen cs <= zlen disk / bytes_per_cluster fs) as Hle.
  { apply (NoDup_range_zlen _ 2); [by eapply fat_chain_NoDup|apply Z.div_pos; lia|].
    eapply Forall_impl; [exact Hcs|]. intros c (Hc2 & Hlt & Hin). unfold data_start in *.
    assert ((c - 1) * bytes_per_cluster fs <= zlen disk) as Hle by (rewrite Hbpc; nia).
    rewrite Z.mul_comm in Hle. apply Z.div_le_lower_bound in Hle; lia. }
  pose proof (Z.mul_div_le (zlen disk) (bytes_per_cluster fs) Hpos). nia.
Qed.

Lemma slice_concat_entries (ents : list bytes) i : Forall (fun b => length b = 32%nat) ents ->
  slice (concat ents) (Z.of_nat i * 32) 32 = default [] (ents !! i).
Proof.
  intros Hl. unfold slice. replace (Z.to_nat (Z.of_nat i * 32)) with (i * 32 + 0)%nat by lia.
  rewrite (drop_concat_chunks _ 32) by (done || lia). rewrite drop_0. destruct (ents !! i) as [b|] eqn:Ei; simpl.
  - rewrite Forall_lookup in Hl. pose proof (Hl _ _ Ei) as Hb. change (Z.to_nat 32) with 32%nat. rewrite <- Hb. apply take_app_length.
  - apply lookup_ge_None in Ei. by rewrite drop_ge by lia.
Qed.

(** [Fat32DirNode::new] ends, and its stream reads the entries of the directory. *)
Lemma dirnode_new_spec root ents attr : directory_on fs root ents ->
  exists n, dirnode_new (length (f_fat fs)) fs root attr = Return n /\ d_fs n = fs /\ d_root n = root /\ d_attr n = attr /\
    dir_holds (ds_reader (streamer n)) ents /\ streamer n = mkStream (ds_reader (streamer n)) 0 [] (f_id fs).
Proof.
  intros (cs & Hc & Hcs & Hcat & Hl). pose proof Hm as (Hok & Hv & Hfit). pose proof Hok as (_ & _ & Hd63).
  fold (buffer_bytes (f_dev fs)) in Hd63.
  assert (exists c, cluster_in_volume disk bpb c) as [c0 Hc0] by (destruct Hcs; [inversion Hc|eauto]).
  destruct (fs_bpc c0 Hc0) as [Hbpc Hpos]. pose proof (chain_bytes_bound root cs Hc Hcs) as Hbound. pose proof (zlen_nonneg cs).
  unfold dirnode_new, dirstream_new.
  assert (length cs <= length (f_fat fs))%nat as Hfuel.
  { apply (fat_chain_length _ root); [done|]. eapply Forall_impl; [exact Hcs|]. intros c (? & _). lia. }
  rewrite (iter_count_chain fs root cs _ (fat_chain_chain fs root cs Hc) Hfuel).
  ostep. rewrite umul_small by nia. eexists. split; [done|]. simpl. split_and!; try done.
  assert (Hsz : zlen cs * bytes_per_cluster fs = zlen ents * 32).
  { apply (f_equal length) in Hcat. rewrite (length_concat_chunks ents 32 Hl) in Hcat.
    rewrite (length_concat_chunks _ (Z.to_nat (bytes_per_cluster fs))), length_map in Hcat; [unfold zlen; nia|].
    apply Forall_map. eapply Forall_impl; [exact Hcs|]. intros c Hcv. simpl.
    destruct (bpb_valid_sizes bpb Hv) as (Hb & _ & Hspc).
    apply (cluster_length fs) with (c := c); simpl; [lia|lia|rewrite <- Hbpc; apply wrap_ok|].
    by apply (cluster_holds_disk fs). }
  split; simpl; [|done|lia|lia].
  intros i Hi. rewrite (fs_read_at_spec fs Hok Hv Hfit root cs) by (done || lia). f_equal.
  rewrite Hcat, take_ge; [by apply slice_concat_entries|]. rewrite (length_concat_chunks _ 32) by done. unfold zlen in *. lia.
Qed.
End DirCorrect.

(** Where a file of the listing ends, the listing of the remaining slots begins. *)
Lemma listing_split slots i pre e post : listing i slots = pre ++ e :: post -> 0 <= i ->
  exists done rest, slots = done ++ rest /\ fe_offset e = i + zlen (slots_entries done) /\ post = listing (fe_offset e) rest.
Proof.
  revert i pre. induction slots as [|s slots IH]; intros i pre Hl Hi; [by destruct pre|].
  cbn [listing] in Hl. pose proof (zlen_nonneg (slot_entries s)).
  assert (forall pre', listing (i + zlen (slot_entries s)) slots = pre' ++ e :: post ->
    exists done rest, s :: slots = done ++ rest /\ fe_offset e = i + zlen (slots_entries done) /\ post = listing (fe_offset e) rest) as Hrec.
  { intros pre' Hl'. destruct (IH _ _ Hl' ltac:(lia)) as (dn & rest & -> & Ho & Hp).
    exists (s :: dn), rest. split_and!; [done| |done]. unfold slots_entries. cbn [map concat]. rewrite zlen_app. fold (slots_entries dn). lia. }
  destruct s as [b|long sum base ext d]; [by apply (Hrec pre)|]. destruct pre as [|p pre]; [|injection Hl as _ Hl; by apply (Hrec pre)].
  injection Hl as <- <-. exists [Present long sum base ext d], slots. split_and!; [done| |done].
  unfold slots_entries. cbn [map concat fe_offset]. by rewrite app_nil_r.
Qed.


(** looking a name up in such a directory ends and finds the first file of the listing
    whose name is equal up to ASCII case: a file node that reads the file's clusters, or the
    node of the subdirectory; if there is none, it fails with NotFound. *)
Theorem fat32_lookup_correct {D : Type} `{BlockDeviceLaws D} (fs : Fat32Filesystem D) root slots tail attr name :
  mounted fs -> directory_on fs root (slots_entries slots ++ tail) -> Forall slot_ok slots -> end_marked tail ->
  exists n, dirnode_new (length (f_fat fs)) fs root attr = Return n /\
  dir_lookup (length (f_fat fs)) n name
  = match find_name name (listing 0 slots) with
    | Some e => node_of (length (f_fat fs)) fs e
    | None => Return (Err (Fs NotFound))
    end.
Proof.
  intros Hm Hdir Hok Hend. destruct (dirnode_new_spec fs Hm root _ attr Hdir) as (n & Hn & Hfs & _ & _ & Hh & Hs).
  exists n. split; [done|]. unfold dir_lookup. rewrite Hs, Hfs.
  change (mkStream (ds_reader (streamer n)) 0 [] (f_id fs)) with (at_entry (ds_reader (streamer n)) (f_id fs) 0 []). rewrite (dir_fuel_eq _ _ (f_id fs) Hh).
  apply (lookup_loop_spec _ _ (f_id fs) Hh) with (tail := tail) (i := 0%nat); [done|done|lia|done|].
  pose proof (listing_length (Z.of_nat 0) slots). rewrite length_app. lia.
Qed.

(** ** A directory

    A volume label, a file with a short name, a deleted entry, and a directory with a long
    name. *)
Definition demo_entry (base ext : bytes) (attr cluster size : Z) : DirEntry :=
  mkDirEntry (space_pad 8 base) (space_pad 3 ext) attr 0 0 0 0 0 0 0 cluster size.
Definition demo_long : str := [72; 101; 108; 108; 111; 32; 0x1F30D; 32; 100; 105; 114; 101; 99; 116; 111; 114; 121].
Definition demo_slots : list slot :=
  [Skipped (encode_dir_entry (demo_entry [77; 79; 83; 83] [] 0x08 0 0));
   Present None 0 [65; 66] [84] (demo_entry [65; 66] [84] 0x20 3 1000);
   Skipped (0xE5 :: replicate 31 7);
   Present (Some demo_long) 0 [72; 126; 49] [] (demo_entry [72; 126; 49] [] 0x10 5 0)].
Definition demo_tail : list bytes := replicate 10 (replicate 32 0).
Definition demo_root_dir : bytes := concat (slots_entries demo_slots ++ demo_tail).
Definition demo_dir_fs : Fat32Filesystem RamdiskBlkDev := demo_fs demo_root_dir.

Lemma demo_mounted : mounted demo_dir_fs.
Proof. split; [split; [reflexivity|split; vm_compute; reflexivity]|]. split; [vm_compute; reflexivity|]. vm_compute. intuition discriminate. Defined.

Lemma demo_directory_on : directory_on demo_dir_fs 2 (slots_entries demo_slots ++ demo_tail).
Proof.
  exists [2]. split; [apply fat_chain_last; vm_compute; reflexivity|].
  split; [repeat constructor; vm_compute; congruence|]. split; [vm_compute; reflexivity|]. vm_compute. repeat constructor.
Defined.

Lemma demo_present_ok long base ext attr cluster size : (length base <= 8)%nat -> (length ext <= 3)%nat -> u16_ok cluster ->
  0 <= size < 2 ^ 32 -> base <> [] -> Forall printable base -> Forall printable ext ->
  attr = 0x10 \/ attr = 0x20 -> match long with Some n => long_ok n | None => True end ->
  slot_ok (Present long 0 base ext (demo_entry base ext attr cluster size)).
Proof.
  intros Hb He Hc Hs Hne Hpb Hpe Ha Hl. unfold slot_ok, demo_entry. cbn [dos_file_name dos_extension attributes].
  refine (conj _ (conj eq_refl (conj eq_refl (conj Hne (conj Hpb (conj Hpe _)))))).
  - split; cbn; try done; unfold space_pad; rewrite length_app, length_replicate; lia.
  - destruct Ha as [-> | ->]; (split; [done|]; split; [done|]; split; [|exact Hl]); [by left|by right].
Defined.

Lemma demo_slots_ok : Forall slot_ok demo_slots.
Proof.
  apply Forall_cons_2; [|apply Forall_cons_2; [|apply Forall_cons_2; [|apply Forall_cons_2; [|apply Forall_nil_2]]]].
  - split; [reflexivity|]. right. split; [discriminate|]. split; [discriminate|reflexivity].
  - apply demo_present_ok; [simpl; lia|simpl; lia|unfold u16_ok; lia|lia|discriminate|unfold printable; repeat constructor; lia|unfold printable; repeat constructor; lia|by right|done].
  - split; [reflexivity|by left].
  - apply demo_present_ok; [simpl; lia|simpl; lia|unfold u16_ok; lia|lia|discriminate|unfold printable; repeat constructor; lia|unfold printable; repeat constructor; lia|by left|].
    split; [discriminate|]. split; [vm_compute; lia|]. unfold demo_long, scalar. repeat constructor; lia.
Defined.


Lemma fat32_lookup_correct_witness : exists n, dirnode_new 128 demo_dir_fs 2 attr_default = Return n /\
  dir_lookup 128 n [97; 66; 46; 116]
  = Return (Ok (NodeFile (filenode_new demo_dir_fs 3 (entry_attr (demo_entry [65; 66] [84] 0x20 3 1000) File)))).
Proof.
  destruct (fat32_lookup_correct demo_dir_fs 2 demo_slots demo_tail attr_default [97; 66; 46; 116] demo_mounted demo_directory_on demo_slots_ok)
    as (n & Hn & Hl); [right; eexists _, _; split; reflexivity|].
  exists n. exact (conj Hn Hl).
Defined.

(** ** Where the driver trusts the volume *)

(** Opening a directory whose cluster chain is a cycle does not end: there is no bound on the
    clusters that are counted. *)
Lemma cyclic_directory_hangs {D : Type} `{BlockDevice D} dev bpb id fuel :
  dirstream_new fuel (mkFat32 (D := D) dev bpb [Eoc; Eoc; NextCluster 3; NextCluster 2] id) 2 = OutOfFuel.
Proof.
  unfold dirstream_new. set (fs := mkFat32 _ _ _ _).
  assert (forall k, iter_count fs k (Some 2) = OutOfFuel /\ iter_count fs k (Some 3) = OutOfFuel) as Hk.
  { intros k. induction k as [|k [IH2 IH3]]; [done|]. cbn [iter_count]. simpl. by rewrite IH2, IH3. }
  by rewrite (proj1 (Hk fuel)).
Qed.

Definition unarchived_dir : bytes :=
  concat (map encode_dir_entry [demo_entry [65] [] 0x01 3 5; demo_entry [66] [] 0x20 5 5] ++ replicate 14 (replicate 32 0)).

(** A file without the archive bit is not ignored: it ends the listing with an error, and a
    file behind it cannot be found. *)
Lemma unarchived_file_blocks : exists n, dirnode_new 128 (demo_fs unarchived_dir) 2 attr_default = Return n /\
  list_stream 20 (streamer n) = Return (Err (Fs InvalidFs)) /\ dir_lookup 128 n [98] = Return (Err (Fs InvalidFs)).
Proof. eexists. split; [reflexivity|]. split; vm_compute; reflexivity. Qed.

(** The parent entry of a directory below the root has cluster 0, which is not taken as the
    root: the node it gives cannot be read. *)
Lemma dotdot_of_root_unreadable : exists n, dirnode_new 128 demo_dir_fs 0 attr_default = Return n /\
  dir_lookup 128 n [65] = Return (Err (Fs InvalidFs)).
Proof. eexists. split; [reflexivity|]. vm_compute. reflexivity. Qed.

(** All empty files have the same inode number, and no node from a lookup has its id in its
    attributes. *)
Lemma empty_files_share_id {T : Type} `{Fat32Operations T} (fs : T) d d' :
  n_id (filenode_new fs 0 (entry_attr d File)) = n_id (filenode_new fs 0 (entry_attr d' File)) /\
  attr_id (entry_attr d File) = inode_dummy.
Proof. done. Qed.
