(* ===== verification/PgDesc.v ===== *)
(** * Page table descriptors

    Models the descriptors of the two architectures, macro [define_descriptor] and its
    instances in libkernel/src/arch/arm64/memory/pg_descriptors.rs and
    libkernel/src/arch/x86_64/memory/pg_descriptors.rs.  A descriptor is its raw 64-bit
    value.  [Level] has the operations of the traits PageTableEntry, TableMapper and
    PaMapper of libkernel/src/memory/paging/mod.rs for one level of the hierarchy;
    [LevelLaws] is what the table code needs of them, proved for every level of both
    architectures. *)
From stdpp Require Import base.
From S2P Require Import Prelude Error Address Vma.
Local Open Scope Z_scope.

(** ** Register fields *)

Definition field_mask (off bits : Z) : Z := Z.shiftl (Z.ones bits) off.
Definition reg_read (r off bits : Z) : Z := Z.land (Z.shiftr r off) (Z.ones bits).
Definition reg_is_set (r off : Z) : bool := negb (Z.land r (field_mask off 1) =? 0).
Definition reg_modify (r off bits v : Z) : Z :=
  Z.lor (Z.land r (unot (field_mask off bits))) (Z.shiftl (Z.land v (Z.ones bits)) off).

(** ** A level of the hierarchy *)

Record Level (MT AT : Type) := mkLevel {
  MAP_SHIFT : Z;
  is_valid : Z -> bool;
  next_table_address : Z -> option Z;
  new_next_table : Z -> Z;
  mapped_address : Z -> option Z;
  mapping_attributes : Z -> option AT;
  new_mapping : Z -> AT -> outcome Z;
  new_map_pa : Z -> MT -> PtePermissions -> outcome Z;
  permissions : Z -> option PtePermissions
}.
Arguments MAP_SHIFT {MT AT} l.
Arguments is_valid {MT AT} l _.
Arguments next_table_address {MT AT} l _.
Arguments new_next_table {MT AT} l _.
Arguments mapped_address {MT AT} l _.
Arguments mapping_attributes {MT AT} l _.
Arguments new_mapping {MT AT} l _ _.
Arguments new_map_pa {MT AT} l _ _ _.
Arguments permissions {MT AT} l _.

Definition INVALID : Z := 0.

Definition is_aligned_to (shift addr : Z) : bool := Z.land addr (ushl 1 shift - 1) =? 0.

(** ** arm64 *)

Notation table_as_raw_parts pa := (Z.land pa (unot (Z.ones 12))) (only parsing).
Notation table_from_raw_parts v := (Z.land v (unot (Z.ones 12))) (only parsing).

Inductive ArmMemoryType : Type := Device | Normal.

Definition arm_is_valid (d : Z) : bool := negb (Z.land d 3 =? 0).

Definition arm_next_table_address (d : Z) : option Z :=
  if Z.land d 3 =? 3 then Some (table_from_raw_parts d) else None.

Definition arm_new_next_table (pa : Z) : Z := Z.lor (table_as_raw_parts pa) 3.

Definition arm_permissions (map_bits d : Z) : option PtePermissions :=
  if negb (Z.land d 3 =? map_bits) then None else
  let ap_val := reg_read d 6 2 in
  let '(write, user) :=
    if ap_val =? 0 then (true, false) else if ap_val =? 1 then (true, true)
    else if ap_val =? 2 then (false, false) else (false, true) in
  let xn := reg_is_set d 54 in
  let cow := reg_is_set d 55 in
  let execute := negb xn in
  Some (from_raw_bits true write execute user cow).

Definition arm_set_permissions (map_bits d : Z) (perms : PtePermissions) : Z :=
  let ap := match pte_user perms, pte_write perms with
            | false, true => 0 | true, true => 1 | false, false => 2 | true, false => 3
            end in
  let reg := reg_modify d 6 2 ap in
  let reg := if negb (pte_execute perms) then reg_modify (reg_modify reg 54 1 1) 53 1 1
             else reg_modify (reg_modify reg 54 1 0) 53 1 0 in
  let reg := if pte_cow perms then reg_modify reg 55 1 1 else reg_modify reg 55 1 0 in
  let map_bits :=
    if (map_bits =? 3) && negb (pte_read perms) && negb (pte_write perms)
       && negb (pte_execute perms) && negb (pte_cow perms)
    then 2 else map_bits in
  Z.lor (Z.land reg (unot 3)) map_bits.

(** [((1u64 << 48) - 1) & !0xfff] *)
Definition arm_address_mask (shift : Z) : Z := Z.land (Z.ones 48) (unot (Z.ones shift)).

Definition arm_mapping_attributes (map_bits d : Z) : option Z :=
  if negb (Z.land d 3 =? map_bits) then None
  else Some (Z.land d (unot (Z.lor (Z.lor (arm_address_mask 12) 3) (Z.shiftl 1 52)))).

Definition arm_new_mapping (shift map_bits pa attributes : Z) : outcome Z :=
  assert! (Z.land pa (ushl 1 shift - 1) =? 0);
  Return (Z.lor (Z.lor (Z.land pa (arm_address_mask shift)) attributes) map_bits).

Definition arm_new_map_pa (shift map_bits oa_len page_address : Z) (memory_type : ArmMemoryType)
    (perms : PtePermissions) : outcome Z :=
  assert! is_aligned_to shift page_address;
  let reg := reg_modify 0 shift oa_len (Z.shiftr page_address shift) in
  let reg := reg_modify reg 10 1 1 in
  let reg := match memory_type with
             | Device => reg_modify (reg_modify reg 8 2 0) 2 3 1
             | Normal => reg_modify (reg_modify reg 8 2 3) 2 3 0
             end in
  Return (arm_set_permissions map_bits (Z.lor reg map_bits) perms).

Definition arm_mapped_address (shift map_bits oa_len d : Z) : option Z :=
  let low := Z.land d 3 in
  if low =? 0 then None
  else if (low =? 2) || (low =? map_bits) then Some (ushl (reg_read d shift oa_len) shift)
  else None.

Definition arm_map_level (shift map_bits oa_len : Z) (table : bool) : Level ArmMemoryType Z := {|
  MAP_SHIFT := shift;
  is_valid := arm_is_valid;
  next_table_address d := if table then arm_next_table_address d else None;
  new_next_table := arm_new_next_table;
  mapped_address := arm_mapped_address shift map_bits oa_len;
  mapping_attributes := arm_mapping_attributes map_bits;
  new_mapping := arm_new_mapping shift map_bits;
  new_map_pa := arm_new_map_pa shift map_bits oa_len;
  permissions := arm_permissions map_bits
|}.

(** A level 0 descriptor maps no memory of its own. *)
Definition L0Descriptor : Level ArmMemoryType Z := {|
  MAP_SHIFT := 39;
  is_valid := arm_is_valid;
  next_table_address := arm_next_table_address;
  new_next_table := arm_new_next_table;
  mapped_address _ := None;
  mapping_attributes _ := None;
  new_mapping _ _ := Panic;
  new_map_pa _ _ _ := Panic;
  permissions _ := None
|}.
Definition L1Descriptor : Level ArmMemoryType Z := arm_map_level 30 1 18 true.
Definition L2Descriptor : Level ArmMemoryType Z := arm_map_level 21 1 27 true.
Definition L3Descriptor : Level ArmMemoryType Z := arm_map_level 12 3 36 false.

Inductive L3DescriptorState : Type := StInvalid | StSwapped | StValid.

Definition l3_state (d : Z) : outcome L3DescriptorState :=
  let b := Z.land d 3 in
  if b =? 0 then Return StInvalid else if b =? 2 then Return StSwapped else if b =? 1 then Return StInvalid
  else if b =? 3 then Return StValid else Panic.

Definition mark_as_swapped (d : Z) : Z := Z.lor 2 (Z.land d (unot 3)).

Definition arm_levels : list (Level ArmMemoryType Z) := [L0Descriptor; L1Descriptor; L2Descriptor; L3Descriptor].

(** ** x86_64 *)

Notation ADDR_MASK := (0xFFFFFFFFFF000) (only parsing).

Inductive X86MemoryType : Type := UC | WT | WB.

Record X86Attributes := mkX86Attrs { flags : Z; pat : bool }.

Definition x86_is_valid (d : Z) : bool := negb (Z.land d 1 =? 0).

Definition x86_desc_permissions (d : Z) : PtePermissions :=
  let write := reg_is_set d 1 in
  let user := reg_is_set d 2 in
  let nx := reg_is_set d 63 in
  from_raw_bits true write (negb nx) user false.

Definition x86_set_permissions (d : Z) (perms : PtePermissions) : Z :=
  let reg := reg_modify d 2 1 (if pte_user perms then 1 else 0) in
  let reg := reg_modify reg 1 1 (if pte_write perms then 1 else 0) in
  reg_modify reg 63 1 (if pte_execute perms then 0 else 1).

Definition x86_address (shift d : Z) : Z := Z.land (Z.land d ADDR_MASK) (unot (ushl 1 shift - 1)).

Definition x86_pat_bit (shift : Z) : Z := if shift =? 12 then 7 else 12.

Definition x86_mapping_attributes (shift marker d : Z) : option X86Attributes :=
  if negb (Z.land d marker =? marker) then None
  else Some (mkX86Attrs (Z.land d (unot (Z.lor (Z.lor ADDR_MASK 1) (Z.shiftl 1 7))))
                        (negb (Z.land d (Z.shiftl 1 (x86_pat_bit shift)) =? 0))).

Definition x86_new_mapping (shift marker pa : Z) (attributes : X86Attributes) : outcome Z :=
  assert! (Z.land pa (ushl 1 shift - 1) =? 0);
  Return (Z.lor (Z.lor (Z.lor (Z.land pa ADDR_MASK) (flags attributes))
                       (Z.shiftl (Z.b2z (pat attributes)) (x86_pat_bit shift))) marker).

Definition x86_new_map_pa (shift marker page_address : Z) (memory_type : X86MemoryType)
    (perms : PtePermissions) : outcome Z :=
  assert! is_aligned_to shift page_address;
  let reg := Z.lor (Z.land page_address ADDR_MASK) marker in
  let reg := match memory_type with
             | UC => reg_modify reg 4 1 1
             | WT => reg_modify (reg_modify reg 4 1 0) 3 1 1
             | WB => reg_modify (reg_modify reg 4 1 0) 3 1 0
             end in
  Return (x86_set_permissions reg perms).

Definition x86_mapped_address (shift marker d : Z) : option Z :=
  if negb (Z.land d marker =? marker) then None else Some (x86_address shift d).

Definition x86_permissions (marker d : Z) : option PtePermissions :=
  if negb (Z.land d marker =? marker) then None else Some (x86_desc_permissions d).

Definition x86_next_table_address (d : Z) : option Z :=
  if (reg_read d 0 1 =? 1) && (reg_read d 7 1 =? 0) then Some (Z.land d ADDR_MASK) else None.

Definition x86_new_next_table (pa : Z) : Z :=
  let reg := Z.land pa ADDR_MASK in
  reg_modify (reg_modify (reg_modify (reg_modify reg 0 1 1) 7 1 0) 1 1 1) 2 1 1.

Definition x86_map_level (shift marker : Z) (table : bool) : Level X86MemoryType X86Attributes := {|
  MAP_SHIFT := shift;
  is_valid := x86_is_valid;
  next_table_address d := if table then x86_next_table_address d else None;
  new_next_table := x86_new_next_table;
  mapped_address := x86_mapped_address shift marker;
  mapping_attributes := x86_mapping_attributes shift marker;
  new_mapping := x86_new_mapping shift marker;
  new_map_pa := x86_new_map_pa shift marker;
  permissions := x86_permissions marker
|}.

Definition PML4E : Level X86MemoryType X86Attributes := {|
  MAP_SHIFT := 39;
  is_valid := x86_is_valid;
  next_table_address := x86_next_table_address;
  new_next_table := x86_new_next_table;
  mapped_address _ := None;
  mapping_attributes _ := None;
  new_mapping _ _ := Panic;
  new_map_pa _ _ _ := Panic;
  permissions _ := None
|}.
Definition PDPE : Level X86MemoryType X86Attributes := x86_map_level 30 129 true.
Definition PDE : Level X86MemoryType X86Attributes := x86_map_level 21 129 true.
Definition PTE : Level X86MemoryType X86Attributes := x86_map_level 12 1 false.

Definition x86_levels : list (Level X86MemoryType X86Attributes) := [PML4E; PDPE; PDE; PTE].

(** ** Bits *)

#[local] Arguments Z.testbit : simpl never.
#[local] Arguments Z.land : simpl never.
#[local] Arguments Z.lor : simpl never.

Lemma high_bit r n : usize_ok r -> 64 <= n -> Z.testbit r n = false.
Proof.
  intros [H0 H1] Hn. destruct (decide (r = 0)) as [->|]; [apply Z.bits_0|].
  apply Z.bits_above_log2; [done|]. apply Z.log2_lt_pow2; [lia|].
  assert (2 ^ 64 <= 2 ^ n) by (apply Z.pow_le_mono_r; lia). lia.
Qed.

Lemma unot_bit a n : usize_ok a -> 0 <= n -> Z.testbit (unot a) n = (n <? 64) && negb (Z.testbit a n).
Proof.
  intros Ha Hn. assert (Hones : forall k, 0 <= k -> Z.testbit (Z.ones 64) k = (k <? 64)).
  { intros k Hk. rewrite Z.testbit_ones by lia. destruct (Z.leb_spec 0 k); [done|lia]. }
  assert (Hu : unot a = Z.ldiff (Z.ones 64) a).
  { unfold unot. rewrite <- Z.sub_nocarry_ldiff; [rewrite Z.ones_equiv; unfold usize_max; lia|].
    apply Z.bits_inj'. intros k Hk. rewrite Z.ldiff_spec, Z.bits_0, Hones by lia.
    destruct (Z.ltb_spec k 64); [apply andb_false_r|]. by rewrite (high_bit a k). }
  by rewrite Hu, Z.ldiff_spec, Hones.
Qed.

Lemma bits_usize r : 0 <= r -> (forall n, 64 <= n -> Z.testbit r n = false) -> usize_ok r.
Proof.
  intros H0 H. split; [done|]. destruct (decide (r = 0)) as [->|]; [lia|].
  apply Z.log2_lt_pow2; [lia|]. destruct (Z.lt_ge_cases (Z.log2 r) 64); [done|].
  pose proof (Z.bit_log2 r ltac:(lia)). rewrite H in *; [done|lia].
Qed.

Definition in_field (off bits n : Z) : bool := (off <=? n) && (n <? off + bits).

Lemma field_mask_bit off bits n : 0 <= off -> 0 <= bits -> 0 <= n ->
  Z.testbit (field_mask off bits) n = in_field off bits n.
Proof.
  intros. unfold field_mask, in_field. rewrite Z.shiftl_spec, Z.testbit_ones by lia.
  destruct (Z.leb_spec 0 (n - off)), (Z.leb_spec off n), (Z.ltb_spec (n - off) bits), (Z.ltb_spec n (off + bits)); done || lia.
Qed.

Lemma field_mask_ok off bits : 0 <= off -> 0 <= bits -> off + bits <= 64 -> usize_ok (field_mask off bits).
Proof.
  intros. apply bits_usize.
  - unfold field_mask. apply Z.shiftl_nonneg. rewrite Z.ones_equiv. pose proof (Z.pow_pos_nonneg 2 bits). lia.
  - intros n Hn. rewrite field_mask_bit by lia. unfold in_field.
    destruct (Z.leb_spec off n), (Z.ltb_spec n (off + bits)); done || lia.
Qed.

Lemma reg_modify_bit r off bits v n : usize_ok r -> 0 <= off -> 0 <= bits -> off + bits <= 64 -> 0 <= n ->
  Z.testbit (reg_modify r off bits v) n = if in_field off bits n then Z.testbit v (n - off) else Z.testbit r n.
Proof.
  intros Hr Ho Hb Hs Hn. unfold reg_modify.
  rewrite Z.lor_spec, Z.land_spec, unot_bit, field_mask_bit, Z.shiftl_spec by (lia || by apply field_mask_ok).
  unfold in_field. destruct (Z.leb_spec off n) as [Hon|Hon]; simpl.
  - rewrite Z.land_spec, Z.testbit_ones by lia. destruct (Z.ltb_spec n (off + bits)) as [Hnb|Hnb]; simpl.
    + rewrite andb_false_r, andb_false_r. simpl.
      destruct (Z.leb_spec 0 (n - off)), (Z.ltb_spec (n - off) bits); simpl; rewrite ?andb_true_r; done || lia.
    + destruct (Z.ltb_spec (n - off) bits); [lia|]. rewrite !andb_false_r, orb_false_r, andb_true_r.
      destruct (Z.ltb_spec n 64); [by rewrite andb_true_r|]. by rewrite (high_bit r n), andb_false_r.
  - rewrite (Z.testbit_neg_r _ (n - off)) by lia. rewrite orb_false_r.
    destruct (Z.ltb_spec n 64); [by rewrite andb_true_r|lia].
Qed.

Lemma reg_modify_ok r off bits v : usize_ok r -> 0 <= off -> 0 <= bits -> off + bits <= 64 -> 0 <= v ->
  usize_ok (reg_modify r off bits v).
Proof.
  intros Hr Ho Hb Hs Hv. apply bits_usize.
  - unfold reg_modify. apply Z.lor_nonneg. split; [apply Z.land_nonneg; left; apply Hr|].
    apply Z.shiftl_nonneg, Z.land_nonneg. by left.
  - intros n Hn. rewrite reg_modify_bit by (done || lia). unfold in_field.
    destruct (Z.leb_spec off n), (Z.ltb_spec n (off + bits)); simpl; lia || by apply high_bit.
Qed.

Lemma low2_bits d : Z.land d 3 = Z.b2z (Z.testbit d 0) + 2 * Z.b2z (Z.testbit d 1).
Proof.
  change 3 with (Z.ones 2). rewrite Z.land_ones by lia. change (2 ^ 2) with (2 * 2).
  rewrite Z.rem_mul_r, <- !Z.bit0_mod by lia. do 3 f_equal.
  change (d / 2) with (d / 2 ^ 1). rewrite <- Z.shiftr_div_pow2, Z.shiftr_spec by lia. done.
Qed.

Lemma low1_bits d : Z.land d 1 = Z.b2z (Z.testbit d 0).
Proof. change 1 with (Z.ones 1). rewrite Z.land_ones by lia. by rewrite Z.bit0_mod. Qed.

Lemma reg_read_1 d off : 0 <= off -> reg_read d off 1 = Z.b2z (Z.testbit d off).
Proof. intros. unfold reg_read. change (Z.ones 1) with 1. rewrite low1_bits, Z.shiftr_spec by lia. done. Qed.

Lemma reg_read_2 d off : 0 <= off ->
  reg_read d off 2 = Z.b2z (Z.testbit d off) + 2 * Z.b2z (Z.testbit d (off + 1)).
Proof.
  intros. unfold reg_read. change (Z.ones 2) with 3. rewrite low2_bits, !Z.shiftr_spec by lia.
  by rewrite Z.add_0_l, (Z.add_comm 1 off).
Qed.

(** A single bit, tested through a mask. *)
Lemma mask_bit d off : 0 <= off -> negb (Z.land d (Z.shiftl 1 off) =? 0) = Z.testbit d off.
Proof.
  intros Ho. destruct (Z.testbit d off) eqn:E.
  - apply negb_true_iff, Z.eqb_neq. intros Hz. apply (f_equal (fun x => Z.testbit x off)) in Hz.
    rewrite Z.land_spec, E, Z.bits_0, Z.shiftl_1_l, Z.pow2_bits_true in Hz by lia. done.
  - apply negb_false_iff, Z.eqb_eq, Z.bits_inj'. intros n Hn.
    rewrite Z.land_spec, Z.bits_0, Z.shiftl_1_l, Z.pow2_bits_eqb by lia.
    destruct (Z.eqb_spec off n) as [<-|]; [by rewrite E|apply andb_false_r].
Qed.

Lemma reg_is_set_bit d off : 0 <= off -> reg_is_set d off = Z.testbit d off.
Proof. intros. unfold reg_is_set, field_mask. by apply mask_bit. Qed.

(** The part of [d] in a field. *)
Lemma field_part d s len : 0 <= s -> 0 <= len -> s + len <= 64 -> usize_ok d ->
  ushl (reg_read d s len) s = Z.land d (field_mask s len).
Proof.
  intros Hs Hl Hsl Hd. assert (He : Z.shiftl (reg_read d s len) s = Z.land d (field_mask s len)).
  { apply Z.bits_inj'. intros n Hn. rewrite Z.shiftl_spec, Z.land_spec, field_mask_bit by lia.
    unfold reg_read, in_field. destruct (Z.leb_spec s n).
    - rewrite Z.land_spec, Z.shiftr_spec, Z.testbit_ones by lia. replace (n - s + s) with n by lia.
      destruct (Z.leb_spec 0 (n - s)), (Z.ltb_spec (n - s) len), (Z.ltb_spec n (s + len)); done || lia.
    - rewrite Z.testbit_neg_r by lia. by rewrite andb_false_r. }
  unfold ushl. rewrite He. apply wrap_small, bits_usize.
  - apply Z.land_nonneg. left. apply Hd.
  - intros n Hn. by rewrite Z.land_spec, high_bit.
Qed.

Lemma mod_bits pa s n : 0 <= s -> pa mod 2 ^ s = 0 -> n < s -> Z.testbit pa n = false.
Proof.
  intros Hs Hm Hn. destruct (Z.lt_ge_cases n 0); [by apply Z.testbit_neg_r|].
  rewrite <- (Z.mod_pow2_bits_low pa s n), Hm by lia. apply Z.bits_0.
Qed.

Lemma above_bits pa k n : 0 <= k -> 0 <= pa < 2 ^ k -> k <= n -> Z.testbit pa n = false.
Proof.
  intros Hk Hp Hn. rewrite <- (Z.mod_small pa (2 ^ k)) by lia. apply Z.mod_pow2_bits_high. lia.
Qed.

Lemma aligned_test shift addr : 0 <= shift < 64 ->
  (Z.land addr (ushl 1 shift - 1) =? 0) = (addr mod 2 ^ shift =? 0).
Proof.
  intros Hs. assert (Hu : ushl 1 shift - 1 = Z.ones shift).
  { unfold ushl. rewrite Z.shiftl_1_l, wrap_small, Z.ones_equiv; [lia|].
    split; [pose proof (Z.pow_pos_nonneg 2 shift); lia|apply Z.pow_lt_mono_r; lia]. }
  by rewrite Hu, Z.land_ones by lia.
Qed.

(** Side conditions on the fields of a register. *)
Ltac reg_ok := repeat first [apply reg_modify_ok | assumption | lia | (case_match; lia)].
Ltac reg_bit := rewrite ?reg_modify_bit by reg_ok.

Lemma set_low reg mb : 0 <= mb < 4 -> Z.lor (Z.land reg (unot 3)) mb = reg_modify reg 0 2 mb.
Proof.
  intros H. unfold reg_modify. change (field_mask 0 2) with 3. rewrite Z.shiftl_0_r, Z.land_ones by lia.
  by rewrite Z.mod_small.
Qed.

(** ** Permissions of arm64 descriptors *)

Definition arm_map_bits (map_bits : Z) (p : PtePermissions) : Z :=
  if (map_bits =? 3) && negb (pte_read p) && negb (pte_write p) && negb (pte_execute p) && negb (pte_cow p)
  then 2 else map_bits.

Lemma in_field_1 off n : in_field off 1 n = (n =? off).
Proof. unfold in_field. destruct (Z.leb_spec off n), (Z.ltb_spec n (off + 1)), (Z.eqb_spec n off); done || lia. Qed.
Lemma in_field_2 off n : in_field off 2 n = (n =? off) || (n =? off + 1).
Proof.
  unfold in_field. destruct (Z.leb_spec off n), (Z.ltb_spec n (off + 2)), (Z.eqb_spec n off), (Z.eqb_spec n (off + 1)); done || lia.
Qed.

Lemma arm_set_permissions_fields mb d p : 0 <= mb < 4 -> arm_set_permissions mb d p =
  reg_modify (reg_modify (reg_modify (reg_modify (reg_modify d 6 2 (Z.b2z (pte_user p) + 2 * Z.b2z (negb (pte_write p))))
    54 1 (Z.b2z (negb (pte_execute p)))) 53 1 (Z.b2z (negb (pte_execute p)))) 55 1 (Z.b2z (pte_cow p)))
    0 2 (arm_map_bits mb p).
Proof.
  intros Hm. unfold arm_set_permissions. fold (arm_map_bits mb p).
  rewrite set_low by (unfold arm_map_bits; case_match; lia).
  f_equal. destruct p as [r w x u c]; simpl. destruct u, w, x, c; reflexivity.
Qed.

Lemma b2z_bit b : Z.testbit (Z.b2z b) 0 = b.
Proof. by destruct b. Qed.

Lemma arm_set_permissions_ok mb d p : usize_ok d -> 0 <= mb < 4 -> usize_ok (arm_set_permissions mb d p).
Proof.
  intros Hd Hm. rewrite arm_set_permissions_fields by done.
  assert (forall b, 0 <= Z.b2z b) by (intros []; simpl; lia).
  assert (0 <= arm_map_bits mb p) by (unfold arm_map_bits; case_match; lia).
  repeat apply reg_modify_ok; auto; try lia. pose proof (H (pte_user p)). pose proof (H (negb (pte_write p))). lia.
Qed.

Lemma arm_set_permissions_bits mb d p n : usize_ok d -> 0 <= mb < 4 -> 0 <= n ->
  Z.testbit (arm_set_permissions mb d p) n =
    if n <? 2 then Z.testbit (arm_map_bits mb p) n
    else if n =? 6 then pte_user p else if n =? 7 then negb (pte_write p)
    else if (n =? 53) || (n =? 54) then negb (pte_execute p) else if n =? 55 then pte_cow p
    else Z.testbit d n.
Proof.
  intros Hd Hm Hn. rewrite arm_set_permissions_fields by done.
  assert (Hb : forall b, 0 <= Z.b2z b) by (intros []; simpl; lia).
  pose proof (Hb (pte_user p)). pose proof (Hb (negb (pte_write p))). pose proof (Hb (negb (pte_execute p))).
  pose proof (Hb (pte_cow p)).
  rewrite !reg_modify_bit by (repeat first [apply reg_modify_ok | assumption | lia]).
  rewrite !in_field_1, !in_field_2. change (0 + 1) with 1. change (6 + 1) with 7.
  destruct (Z.ltb_spec n 2) as [Hl|Hl].
  { assert (n = 0 \/ n = 1) as [-> | ->] by lia; reflexivity. }
  destruct (Z.eqb_spec n 0), (Z.eqb_spec n 1); try lia. simpl.
  destruct (Z.eqb_spec n 55) as [->|]; [simpl; apply b2z_bit|].
  destruct (Z.eqb_spec n 53) as [->|]; [simpl; apply b2z_bit|].
  destruct (Z.eqb_spec n 54) as [->|]; [simpl; apply b2z_bit|].
  destruct (Z.eqb_spec n 6) as [->|]; [simpl; by destruct (pte_user p), (pte_write p)|].
  destruct (Z.eqb_spec n 7) as [->|]; [simpl; by destruct (pte_user p), (pte_write p)|]. done.
Qed.

Lemma arm_permissions_bits mb d : arm_permissions mb d =
  if Z.land d 3 =? mb
  then Some (mkPte true (negb (Z.testbit d 7)) (negb (Z.testbit d 54)) (Z.testbit d 6) (Z.testbit d 55))
  else None.
Proof.
  unfold arm_permissions. destruct (Z.land d 3 =? mb); simpl; [|done].
  rewrite reg_read_2, !reg_is_set_bit by lia. change (6 + 1) with 7.
  by destruct (Z.testbit d 6), (Z.testbit d 7).
Qed.

(** What a mapping with permissions [p] is read back as: a page without any access is
    marked invalid for the hardware. *)
Definition arm_pview (map_bits : Z) (p : PtePermissions) : option PtePermissions :=
  if arm_map_bits map_bits p =? map_bits
  then Some (mkPte true (pte_write p) (pte_execute p) (pte_user p) (pte_cow p)) else None.

Lemma arm_low mb p d : usize_ok d -> 0 <= mb < 4 -> Z.land (arm_set_permissions mb d p) 3 = arm_map_bits mb p.
Proof.
  intros Hd Hm. rewrite low2_bits, !arm_set_permissions_bits by (done || lia). simpl. rewrite <- low2_bits.
  unfold arm_map_bits. case_match; [done|]. change 3 with (Z.ones 2). rewrite Z.land_ones by lia. apply Z.mod_small. lia.
Qed.

Lemma arm_set_permissions_view mb d p : usize_ok d -> 0 <= mb < 4 ->
  arm_permissions mb (arm_set_permissions mb d p) = arm_pview mb p.
Proof.
  intros Hd Hm. rewrite arm_permissions_bits, arm_low, !arm_set_permissions_bits by (done || lia). simpl.
  unfold arm_pview. case_match; [|done]. rewrite !negb_involutive. by destruct p.
Qed.

(** ** What the tables need of a level *)

Definition table_ok (pa : Z) : Prop := 0 <= pa < 2 ^ 48 /\ pa mod 2 ^ 12 = 0.
(** An address of [pab] bits, aligned to [2 ^ shift]. *)
Definition phys_ok (pab shift pa : Z) : Prop := 0 <= pa < 2 ^ pab /\ pa mod 2 ^ shift = 0.

Record LevelLaws {MT AT : Type} (l : Level MT AT) : Prop := {
  ll_shift : 12 <= MAP_SHIFT l <= 39;
  ll_invalid : is_valid l INVALID = false /\ next_table_address l INVALID = None;
  ll_next_valid : forall d c, next_table_address l d = Some c -> is_valid l d = true;
  ll_next_excl : forall d c, next_table_address l d = Some c -> mapped_address l d = None;
  ll_mapped_valid : forall d pa, mapped_address l d = Some pa -> is_valid l d = true;
  ll_attrs : forall d at', mapping_attributes l d = Some at' -> mapped_address l d <> None
}.

(** A level whose descriptors may link a table. *)
Definition link_law {MT AT : Type} (l : Level MT AT) : Prop :=
  forall c, table_ok c -> next_table_address l (new_next_table l c) = Some c /\ usize_ok (new_next_table l c).

(** A level whose descriptors may map memory.  [attr_ok] is what attributes taken from a
    descriptor satisfy, [attr_perms] the permissions they carry, [pview] how permissions
    are read back. *)
Record MapLaws {MT AT : Type} (pab : Z) (attr_ok : AT -> Prop) (attr_perms : AT -> PtePermissions)
    (pview : PtePermissions -> option PtePermissions) (l : Level MT AT) : Prop := {
  ml_new_mapping : forall pa at', phys_ok pab (MAP_SHIFT l) pa -> attr_ok at' ->
    exists d, new_mapping l pa at' = Return d /\ usize_ok d /\ is_valid l d = true /\
      next_table_address l d = None /\ mapped_address l d = Some pa /\ mapping_attributes l d = Some at';
  ml_new_map_pa : forall pa mt p, phys_ok pab (MAP_SHIFT l) pa ->
    exists d, new_map_pa l pa mt p = Return d /\ usize_ok d /\ is_valid l d = true /\
      next_table_address l d = None /\ mapped_address l d = Some pa /\ permissions l d = pview p;
  ml_attrs : forall d at', usize_ok d -> mapping_attributes l d = Some at' ->
    attr_ok at' /\ permissions l d = Some (attr_perms at') /\
    exists pa, mapped_address l d = Some pa /\ phys_ok pab (MAP_SHIFT l) pa
}.

(** A field that takes the whole of an address. *)
Lemma field_address pa s len : 0 <= s -> 0 <= len -> s + len = 48 -> phys_ok 48 s pa -> Z.land pa (field_mask s len) = pa.
Proof.
  intros Hs Hl Hsl [Hp Ha]. apply Z.bits_inj'. intros n Hn. rewrite Z.land_spec, field_mask_bit by lia.
  unfold in_field. destruct (Z.leb_spec s n); [|by rewrite (mod_bits pa s n) by (done || lia)].
  destruct (Z.ltb_spec n (s + len)); [apply andb_true_r|]. by rewrite (above_bits pa 48 n) by lia.
Qed.

Lemma phys_usize s pa : phys_ok 48 s pa -> usize_ok pa.
Proof. intros [H _]. unfold usize_ok. assert (2 ^ 48 < 2 ^ 64) by (apply Z.pow_lt_mono_r; lia). lia. Qed.

(** The address read back from a descriptor that has it in its address field. *)
Lemma arm_mapped_field shift mb oa d pa : 12 <= shift -> 0 <= oa -> shift + oa = 48 -> usize_ok d -> phys_ok 48 shift pa ->
  Z.land d 3 <> 0 -> (Z.land d 3 = 2 \/ Z.land d 3 = mb) ->
  (forall n, shift <= n < 48 -> Z.testbit d n = Z.testbit pa n) ->
  arm_mapped_address shift mb oa d = Some pa.
Proof.
  intros Hs Ho Hso Hd Hp Hnz Hl Hb. unfold arm_mapped_address.
  destruct (Z.eqb_spec (Z.land d 3) 0) as [|_]; [done|].
  assert (He : (Z.land d 3 =? 2) || (Z.land d 3 =? mb) = true).
  { apply orb_true_iff. rewrite !Z.eqb_eq. done. }
  rewrite He, field_part by (done || lia). f_equal. rewrite <- (field_address pa shift oa) by (done || lia).
  apply Z.bits_inj'. intros n Hn. rewrite !Z.land_spec, field_mask_bit by lia. unfold in_field.
  destruct (Z.leb_spec shift n), (Z.ltb_spec n (shift + oa)); simpl; rewrite ?andb_false_r; try done.
  by rewrite !andb_true_r, Hb by lia.
Qed.

(** ** The levels of arm64 *)

Definition arm_attr_mask : Z := unot (Z.lor (Z.lor (arm_address_mask 12) 3) (Z.shiftl 1 52)).
Definition arm_attr_ok (a : Z) : Prop := usize_ok a /\ Z.land a arm_attr_mask = a.
Definition arm_attr_perms (a : Z) : PtePermissions :=
  mkPte true (negb (Z.testbit a 7)) (negb (Z.testbit a 54)) (Z.testbit a 6) (Z.testbit a 55).

(** Attributes have the bits outside of the address, the type and the contiguous hint. *)
Definition arm_attr_bit (n : Z) : bool := (2 <=? n) && (n <? 12) || (48 <=? n) && (n <? 52) || (53 <=? n) && (n <? 64).

Lemma arm_attr_mask_eq : arm_attr_mask = Z.lor (Z.lor (field_mask 2 10) (field_mask 48 4)) (field_mask 53 11).
Proof. reflexivity. Qed.

Lemma arm_attr_mask_bit n : 0 <= n -> Z.testbit arm_attr_mask n = arm_attr_bit n.
Proof. intros Hn. rewrite arm_attr_mask_eq, !Z.lor_spec, !field_mask_bit by lia. done. Qed.

Lemma arm_attr_zero a n : arm_attr_ok a -> 0 <= n -> arm_attr_bit n = false -> Z.testbit a n = false.
Proof. intros [_ Ha] Hn Hb. by rewrite <- Ha, Z.land_spec, arm_attr_mask_bit, Hb, andb_false_r. Qed.

Lemma arm_address_mask_eq shift : shift = 12 \/ shift = 21 \/ shift = 30 -> arm_address_mask shift = field_mask shift (48 - shift).
Proof. by intros [-> | [-> | ->]]. Qed.

Lemma usize_lor a b : usize_ok a -> usize_ok b -> usize_ok (Z.lor a b).
Proof.
  intros Ha Hb. apply bits_usize; [apply Z.lor_nonneg; split; [apply Ha|apply Hb]|].
  intros n Hn. by rewrite Z.lor_spec, !high_bit.
Qed.
Lemma usize_land a b : usize_ok a -> 0 <= b -> usize_ok (Z.land a b).
Proof.
  intros Ha Hb. apply bits_usize; [apply Z.land_nonneg; left; apply Ha|].
  intros n Hn. by rewrite Z.land_spec, high_bit.
Qed.

Section ArmLevel.
Context (shift mb oa : Z) (table : bool).
Hypothesis Hshift : shift = 12 \/ shift = 21 \/ shift = 30.
Hypothesis Hoa : shift + oa = 48.
Hypothesis Hmb : mb = (if table then 1 else 3).
Let l := arm_map_level shift mb oa table.

Lemma arm_low_cases d : Z.land d 3 = 0 \/ Z.land d 3 = 1 \/ Z.land d 3 = 2 \/ Z.land d 3 = 3.
Proof. rewrite low2_bits. destruct (Z.testbit d 0), (Z.testbit d 1); simpl; lia. Qed.

Lemma arm_level_laws : LevelLaws l.
Proof.
  split; simpl.
  - lia.
  - by destruct table.
  - intros d c. destruct table; [|done]. unfold arm_next_table_address, arm_is_valid.
    destruct (Z.eqb_spec (Z.land d 3) 3) as [->|]; done.
  - intros d c. unfold arm_next_table_address, arm_mapped_address. rewrite Hmb. destruct table; [|done].
    destruct (Z.eqb_spec (Z.land d 3) 3) as [->|]; done.
  - intros d pa. unfold arm_mapped_address, arm_is_valid. destruct (Z.land d 3 =? 0); done.
  - intros d a. unfold arm_mapping_attributes, arm_mapped_address.
    destruct (Z.eqb_spec (Z.land d 3) mb) as [->|]; simpl; [|done]. intros _.
    rewrite Hmb, orb_true_r. by destruct table.
Qed.

Lemma small_bit m n : 0 <= m < 4 -> 2 <= n -> Z.testbit m n = false.
Proof. intros Hm Hn. by apply (above_bits m 2 n). Qed.

Lemma arm_mapping_bit pa a n : phys_ok 48 shift pa -> arm_attr_ok a -> 0 <= n ->
  Z.testbit (Z.lor (Z.lor (Z.land pa (arm_address_mask shift)) a) mb) n =
    if n <? 2 then Z.testbit mb n else if arm_attr_bit n then Z.testbit a n
    else in_field shift oa n && Z.testbit pa n.
Proof.
  intros Hp Ha Hn. replace oa with (48 - shift) by lia.
  rewrite !Z.lor_spec, Z.land_spec, arm_address_mask_eq, field_mask_bit by (done || lia).
  destruct (Z.ltb_spec n 2).
  - rewrite (arm_attr_zero a n) by (done || lia || (unfold arm_attr_bit; destruct (Z.leb_spec 2 n), (Z.leb_spec 48 n), (Z.leb_spec 53 n); done || lia)).
    rewrite (mod_bits pa shift n) by (apply Hp || lia). done.
  - rewrite (small_bit mb n) by (destruct table; lia). rewrite orb_false_r.
    destruct (arm_attr_bit n) eqn:Eb.
    + replace (in_field shift (48 - shift) n) with false; [by rewrite andb_false_r|].
      unfold arm_attr_bit, in_field in *. destruct (Z.leb_spec shift n), (Z.ltb_spec n (shift + (48 - shift))); try done.
      destruct (Z.ltb_spec n 12), (Z.leb_spec 48 n), (Z.leb_spec 53 n); simpl in Eb; rewrite ?andb_false_r in Eb; done || lia.
    + rewrite (arm_attr_zero a n) by done. rewrite orb_false_r. apply andb_comm.
Qed.

Lemma arm_low_bits m d : 0 <= m < 4 -> Z.testbit d 0 = Z.testbit m 0 -> Z.testbit d 1 = Z.testbit m 1 -> Z.land d 3 = m.
Proof.
  intros Hm H0 H1. rewrite low2_bits, H0, H1, <- low2_bits. change 3 with (Z.ones 2).
  rewrite Z.land_ones by lia. by apply Z.mod_small.
Qed.

Lemma arm_new_mapping_law pa a : phys_ok 48 shift pa -> arm_attr_ok a ->
  exists d, new_mapping l pa a = Return d /\ usize_ok d /\ is_valid l d = true /\
    next_table_address l d = None /\ mapped_address l d = Some pa /\ mapping_attributes l d = Some a.
Proof.
  intros Hp Ha. simpl. unfold arm_new_mapping. rewrite aligned_test by lia.
  rewrite (proj2 (Z.eqb_eq _ _) (proj2 Hp)). simpl.
  set (d := Z.lor (Z.lor (Z.land pa (arm_address_mask shift)) a) mb).
  assert (Hb : forall n, 0 <= n -> Z.testbit d n = if n <? 2 then Z.testbit mb n else if arm_attr_bit n then Z.testbit a n
    else in_field shift oa n && Z.testbit pa n) by (intros; by apply arm_mapping_bit).
  assert (Hm4 : 0 <= mb < 4) by (rewrite Hmb; destruct table; lia).
  assert (Hl : Z.land d 3 = mb) by (apply arm_low_bits; [done|by rewrite Hb..]).
  assert (Hd : usize_ok d).
  { apply usize_lor; [apply usize_lor; [|apply Ha]|unfold usize_ok; lia].
    apply usize_land; [by apply (phys_usize shift)|]. rewrite arm_address_mask_eq by done. apply field_mask_ok; lia. }
  exists d. split; [done|]. split; [done|]. unfold arm_is_valid, arm_next_table_address, arm_mapping_attributes. rewrite Hl.
  split; [rewrite Hmb; by destruct table|]. split; [rewrite Hmb; by destruct table|]. split.
  - apply arm_mapped_field; [lia|lia|lia|done|done|rewrite Hl, Hmb; by destruct table|right; exact Hl|].
    intros n Hn. rewrite Hb by lia. destruct (Z.ltb_spec n 2); [lia|].
    replace (arm_attr_bit n) with false by (unfold arm_attr_bit; destruct (Z.ltb_spec n 12), (Z.leb_spec 48 n), (Z.leb_spec 53 n); simpl; rewrite ?andb_false_r; done || lia).
    unfold in_field. destruct (Z.leb_spec shift n), (Z.ltb_spec n (shift + oa)); done || lia.
  - rewrite Z.eqb_refl. simpl. fold arm_attr_mask. f_equal. rewrite <- (proj2 Ha).
    apply Z.bits_inj'. intros n Hn. rewrite !Z.land_spec, arm_attr_mask_bit, Hb by lia.
    destruct (arm_attr_bit n) eqn:Eb; [|by rewrite !andb_false_r]. destruct (Z.ltb_spec n 2); [|done].
    unfold arm_attr_bit in Eb. destruct (Z.leb_spec 2 n), (Z.leb_spec 48 n), (Z.leb_spec 53 n); done || lia.
Qed.

Lemma arm_new_map_pa_law pa mt p : phys_ok 48 shift pa ->
  exists d, new_map_pa l pa mt p = Return d /\ usize_ok d /\ is_valid l d = true /\
    next_table_address l d = None /\ mapped_address l d = Some pa /\ permissions l d = arm_pview mb p.
Proof.
  intros Hp. simpl. unfold arm_new_map_pa, is_aligned_to. rewrite aligned_test by lia.
  rewrite (proj2 (Z.eqb_eq _ _) (proj2 Hp)). simpl.
  set (r := match mt with Device => _ | Normal => _ end).
  assert (H0 : usize_ok 0) by (unfold usize_ok; lia).
  assert (Hm4 : 0 <= mb < 4) by (rewrite Hmb; destruct table; lia).
  assert (Hpa : 0 <= Z.shiftr pa shift) by (apply Z.shiftr_nonneg; apply Hp).
  assert (Hr : usize_ok r) by (subst r; destruct mt; repeat apply reg_modify_ok; done || lia).
  assert (Hrm : usize_ok (Z.lor r mb)) by (apply usize_lor; [done|unfold usize_ok; lia]).
  assert (Hrb : forall n, shift <= n < 48 -> Z.testbit r n = Z.testbit pa n).
  { intros n Hn. subst r. destruct mt; rewrite !reg_modify_bit by (repeat first [apply reg_modify_ok | done | lia]);
      unfold in_field; repeat (match goal with |- context [?a <? ?b] => destruct (Z.ltb_spec a b) end; try lia);
      rewrite !andb_false_r, andb_true_r; destruct (Z.leb_spec shift n); try lia;
      rewrite Z.shiftr_spec by lia; f_equal; lia. }
  exists (arm_set_permissions mb (Z.lor r mb) p). split; [done|]. split; [by apply arm_set_permissions_ok|].
  unfold arm_is_valid, arm_next_table_address. rewrite arm_low by done.
  assert (Hmb' : arm_map_bits mb p = mb \/ arm_map_bits mb p = 2 /\ mb = 3).
  { unfold arm_map_bits. destruct (Z.eqb_spec mb 3); simpl; [|by left]. (destruct (_ && _ && _ && _); [right; done|left; done]). }
  split; [destruct Hmb' as [-> | [-> _]]; [rewrite Hmb; by destruct table|done]|].
  split; [destruct table; [|done]; destruct Hmb' as [-> | [_ ?]]; [by rewrite Hmb|lia]|].
  split; [|by apply arm_set_permissions_view].
  apply arm_mapped_field; [lia|lia|lia| |done| | |].
  - by apply arm_set_permissions_ok.
  - rewrite arm_low by done. destruct Hmb' as [-> | [-> _]]; [rewrite Hmb; by destruct table|done].
  - rewrite arm_low by done. destruct Hmb' as [-> | [-> _]]; [by right|by left].
  - intros n Hn. rewrite arm_set_permissions_bits by (done || lia).
    destruct (Z.ltb_spec n 2), (Z.eqb_spec n 6), (Z.eqb_spec n 7), (Z.eqb_spec n 53), (Z.eqb_spec n 54), (Z.eqb_spec n 55); try lia.
    simpl. rewrite Z.lor_spec, (small_bit mb n), Hrb by lia. apply orb_false_r.
Qed.

(** Part of [d] in a field is an aligned address. *)
Lemma field_phys d s len k : 0 <= s -> 0 <= len -> s + len <= k -> 0 <= d -> phys_ok k s (Z.land d (field_mask s len)).
Proof.
  intros Hs Hl Hk Hd. split.
  - split; [apply Z.land_nonneg; by left|]. destruct (decide (Z.land d (field_mask s len) = 0)) as [->|Hnz]; [apply Z.pow_pos_nonneg; lia|].
    assert (0 <= Z.land d (field_mask s len)) by (apply Z.land_nonneg; by left).
    apply Z.log2_lt_pow2; [lia|]. destruct (Z.lt_ge_cases (Z.log2 (Z.land d (field_mask s len))) k) as [|Hge]; [done|].
    pose proof (Z.bit_log2 (Z.land d (field_mask s len)) ltac:(lia)) as Hb.
    rewrite Z.land_spec, field_mask_bit in Hb by (lia || apply Z.log2_nonneg). unfold in_field in Hb.
    apply andb_true_iff in Hb as [_ Hb]. breflect. lia.
  - rewrite <- Z.land_ones by lia. apply Z.bits_inj'. intros n Hn.
    rewrite !Z.land_spec, Z.bits_0, field_mask_bit, Z.testbit_ones by lia. unfold in_field.
    destruct (Z.leb_spec s n), (Z.ltb_spec n s); simpl; rewrite ?andb_false_r; try done; lia.
Qed.

Lemma arm_mapped_phys d : usize_ok d -> Z.land d 3 = mb ->
  exists pa, arm_mapped_address shift mb oa d = Some pa /\ phys_ok 48 shift pa.
Proof.
  intros Hd Hl. unfold arm_mapped_address. rewrite Hl, Z.eqb_refl, orb_true_r.
  replace (mb =? 0) with false by (rewrite Hmb; by destruct table).
  rewrite field_part by (done || lia). eexists. split; [done|]. apply field_phys; try lia. apply Hd.
Qed.

Lemma arm_map_laws : MapLaws 48 arm_attr_ok arm_attr_perms (arm_pview mb) l.
Proof.
  split; [apply arm_new_mapping_law|apply arm_new_map_pa_law|]. simpl. intros d a Hd.
  unfold arm_mapping_attributes. rewrite arm_permissions_bits. destruct (Z.land d 3 =? mb) eqn:El; simpl; [|done].
  intros [= <-]. fold arm_attr_mask. split; [split|split].
  - apply usize_land; [done|]. rewrite arm_attr_mask_eq. done.
  - by rewrite <- Z.land_assoc, Z.land_diag.
  - unfold arm_attr_perms. rewrite !Z.land_spec, !arm_attr_mask_bit by lia. simpl. by rewrite !andb_true_r.
  - apply arm_mapped_phys; [done|]. by apply Z.eqb_eq.
Qed.
End ArmLevel.

Lemma arm_link c : table_ok c -> arm_next_table_address (arm_new_next_table c) = Some c.
Proof.
  intros [Hc Ha]. assert (Ht : forall x, usize_ok x -> Z.land x (unot (Z.ones 12)) = Z.land x (field_mask 12 52)) by done.
  assert (Hu : usize_ok c) by (apply (phys_usize 12); done).
  assert (He : table_as_raw_parts c = c).
  { rewrite Ht by done. apply Z.bits_inj'. intros n Hn. rewrite Z.land_spec, field_mask_bit by lia.
    unfold in_field. destruct (Z.leb_spec 12 n); [|by rewrite (mod_bits c 12 n) by (done || lia)].
    destruct (Z.ltb_spec n (12 + 52)); [apply andb_true_r|]. by rewrite (high_bit c n) by (done || lia). }
  unfold arm_next_table_address, arm_new_next_table. rewrite He.
  assert (Hl : Z.land (Z.lor c 3) 3 = 3).
  { apply arm_low_bits; [lia|..]; rewrite Z.lor_spec; apply (orb_true_r (Z.testbit c _)). }
  rewrite Hl. simpl.
  f_equal. rewrite Ht by (apply usize_lor; [done|unfold usize_ok; lia]).
  transitivity (Z.land c (field_mask 12 52)); [|rewrite <- Ht by done; exact He].
  apply Z.bits_inj'. intros n Hn. rewrite !Z.land_spec, Z.lor_spec, field_mask_bit by lia.
  destruct (in_field 12 52 n) eqn:Ef; [|by rewrite !andb_false_r]. unfold in_field in Ef. breflect.
  by rewrite (small_bit 3 n), orb_false_r by lia.
Qed.

(** ** The levels of x86_64 *)

Definition x86_attr_mask : Z := unot (Z.lor (Z.lor ADDR_MASK 1) (Z.shiftl 1 7)).
Definition x86_attr_ok (a : X86Attributes) : Prop := usize_ok (flags a) /\ Z.land (flags a) x86_attr_mask = flags a.
Definition x86_attr_perms (a : X86Attributes) : PtePermissions :=
  mkPte true (Z.testbit (flags a) 1) (negb (Z.testbit (flags a) 63)) (Z.testbit (flags a) 2) false.
Definition x86_pview (p : PtePermissions) : option PtePermissions :=
  Some (mkPte true (pte_write p) (pte_execute p) (pte_user p) false).

Lemma ADDR_MASK_eq : ADDR_MASK = field_mask 12 40.
Proof. reflexivity. Qed.

Definition x86_attr_bit (n : Z) : bool := in_field 1 6 n || in_field 8 4 n || in_field 52 12 n.

Lemma x86_attr_mask_bit n : 0 <= n -> Z.testbit x86_attr_mask n = x86_attr_bit n.
Proof.
  intros Hn. change x86_attr_mask with (Z.lor (Z.lor (field_mask 1 6) (field_mask 8 4)) (field_mask 52 12)).
  by rewrite !Z.lor_spec, !field_mask_bit by lia.
Qed.

Lemma x86_attr_zero a n : x86_attr_ok a -> 0 <= n -> x86_attr_bit n = false -> Z.testbit (flags a) n = false.
Proof. intros [_ Ha] Hn Hb. by rewrite <- Ha, Z.land_spec, x86_attr_mask_bit, Hb, andb_false_r. Qed.

(** Decide a test of bit positions. *)
Ltac bit_pos :=
  unfold x86_attr_bit, in_field;
  repeat (match goal with
          | |- context [?a <=? ?b] => destruct (Z.leb_spec a b)
          | |- context [?a <? ?b] => destruct (Z.ltb_spec a b)
          end; try lia); try done.

Lemma x86_next_bits d : x86_next_table_address d =
  if Z.testbit d 0 && negb (Z.testbit d 7) then Some (Z.land d ADDR_MASK) else None.
Proof.
  unfold x86_next_table_address. rewrite !reg_read_1 by lia.
  by destruct (Z.testbit d 0), (Z.testbit d 7).
Qed.

Lemma x86_valid_bit d : x86_is_valid d = Z.testbit d 0.
Proof. unfold x86_is_valid. rewrite low1_bits. by destruct (Z.testbit d 0). Qed.

Section X86Level.
Context (shift : Z) (table : bool).
Hypothesis Hshift : if table then shift = 21 \/ shift = 30 else shift = 12.
Let marker := if table then 129 else 1.
Let l := x86_map_level shift marker table.

Lemma x86_shift : shift = 12 \/ shift = 21 \/ shift = 30.
Proof. destruct table; lia. Qed.

Lemma marker_bit n : 0 <= n -> Z.testbit marker n = (n =? 0) || (table && (n =? 7)).
Proof.
  intros Hn. unfold marker. destruct table; simpl.
  - change 129 with (Z.lor (2 ^ 0) (2 ^ 7)). rewrite Z.lor_spec, !Z.pow2_bits_eqb by lia.
    by rewrite (Z.eqb_sym 0), (Z.eqb_sym 7).
  - change 1 with (2 ^ 0). rewrite Z.pow2_bits_eqb by lia. by rewrite Z.eqb_sym, orb_false_r.
Qed.

(** The marker is there exactly when its bits are. *)
Lemma marker_test d : (Z.land d marker =? marker) = Z.testbit d 0 && (negb table || Z.testbit d 7).
Proof.
  destruct (Z.testbit d 0 && (negb table || Z.testbit d 7)) eqn:E.
  - apply Z.eqb_eq, Z.bits_inj'. intros n Hn. rewrite Z.land_spec, marker_bit by done. breflect.
    destruct (Z.eqb_spec n 0) as [->|]; simpl; [by rewrite H|].
    destruct table; simpl in *; [|apply andb_false_r].
    destruct (Z.eqb_spec n 7) as [->|]; [|apply andb_false_r]. destruct H0 as [|H0]; [done|by rewrite H0].
  - apply Z.eqb_neq. intros He. apply andb_false_iff in E as [E|E].
    + apply (f_equal (fun x => Z.testbit x 0)) in He. rewrite Z.land_spec, E, marker_bit in He by lia. done.
    + apply orb_false_iff in E as [Et E]. apply negb_false_iff in Et.
      apply (f_equal (fun x => Z.testbit x 7)) in He. rewrite Z.land_spec, E, marker_bit, Et in He by lia. done.
Qed.

Lemma x86_level_laws : LevelLaws l.
Proof.
  split; simpl.
  - pose proof x86_shift. lia.
  - by destruct table.
  - intros d c. rewrite x86_valid_bit. destruct table; [|done]. rewrite x86_next_bits. by destruct (Z.testbit d 0).
  - intros d c. unfold x86_mapped_address. rewrite marker_test. destruct table; [|done]. rewrite x86_next_bits.
    by destruct (Z.testbit d 0), (Z.testbit d 7).
  - intros d pa. unfold x86_mapped_address. rewrite marker_test, x86_valid_bit. by destruct (Z.testbit d 0).
  - intros d a. unfold x86_mapped_address, x86_mapping_attributes. by destruct (Z.land d marker =? marker).
Qed.

Lemma x86_address_part d : x86_address shift d = Z.land d (field_mask shift (52 - shift)).
Proof.
  unfold x86_address. rewrite <- Z.land_assoc. f_equal. by destruct x86_shift as [-> | [-> | ->]].
Qed.

(** The address read back from a descriptor that has it in its address field. *)
Lemma x86_mapped_field d pa : phys_ok 52 shift pa -> Z.testbit d 0 = true -> (table = true -> Z.testbit d 7 = true) ->
  (forall n, shift <= n < 52 -> Z.testbit d n = Z.testbit pa n) ->
  x86_mapped_address shift marker d = Some pa.
Proof.
  intros [Hp Ha] H0 H7 Hb. unfold x86_mapped_address. rewrite marker_test, H0, x86_address_part.
  replace (negb table || Z.testbit d 7) with true by (destruct table; [by rewrite H7|done]). simpl. f_equal.
  pose proof x86_shift. apply Z.bits_inj'. intros n Hn. rewrite Z.land_spec, field_mask_bit by lia. unfold in_field.
  destruct (Z.leb_spec shift n); simpl; [|rewrite andb_false_r; symmetry; apply (mod_bits pa shift n); done || lia].
  destruct (Z.ltb_spec n (shift + (52 - shift))); [rewrite andb_true_r; apply Hb; lia|].
  rewrite andb_false_r. symmetry. apply (above_bits pa 52 n); done || lia.
Qed.

Lemma x86_map_pa_bits pa n : phys_ok 52 shift pa -> 0 <= n ->
  Z.testbit (Z.land pa ADDR_MASK) n = in_field shift (52 - shift) n && Z.testbit pa n.
Proof.
  intros [Hp Ha] Hn. pose proof x86_shift. rewrite Z.land_spec, ADDR_MASK_eq, field_mask_bit, andb_comm by lia.
  unfold in_field. destruct (Z.leb_spec shift n).
  - destruct (Z.leb_spec 12 n), (Z.ltb_spec n (12 + 40)), (Z.ltb_spec n (shift + (52 - shift))); done || lia.
  - rewrite (mod_bits pa shift n) by (done || lia). by rewrite !andb_false_r.
Qed.

Definition x86_pat_n : Z := if table then 12 else 7.
Lemma x86_pat_bit_eq : x86_pat_bit shift = x86_pat_n.
Proof. unfold x86_pat_bit, x86_pat_n. destruct table; [|by rewrite Hshift]. by destruct Hshift as [-> | ->]. Qed.

Lemma b2z_shift_bit b k n : 0 <= k -> 0 <= n -> Z.testbit (Z.shiftl (Z.b2z b) k) n = (n =? k) && b.
Proof.
  intros Hk Hn. rewrite Z.shiftl_spec by lia. destruct (Z.eqb_spec n k) as [->|].
  - rewrite Z.sub_diag. by destruct b.
  - destruct (Z.lt_ge_cases n k); [by apply Z.testbit_neg_r; lia|]. destruct b; simpl; [|apply Z.bits_0].
    change 1 with (2 ^ 0). rewrite Z.pow2_bits_eqb by lia. apply Z.eqb_neq. lia.
Qed.

Lemma x86_mapping_bit pa a n : phys_ok 52 shift pa -> x86_attr_ok a -> 0 <= n ->
  Z.testbit (Z.lor (Z.lor (Z.lor (Z.land pa ADDR_MASK) (flags a)) (Z.shiftl (Z.b2z (pat a)) (x86_pat_bit shift))) marker) n =
    in_field shift (52 - shift) n && Z.testbit pa n || x86_attr_bit n && Z.testbit (flags a) n
    || (n =? x86_pat_n) && pat a || ((n =? 0) || (table && (n =? 7))).
Proof.
  intros Hp Ha Hn. rewrite !Z.lor_spec, (x86_map_pa_bits pa n), marker_bit, x86_pat_bit_eq by done.
  rewrite b2z_shift_bit by (unfold x86_pat_n; destruct table; lia).
  destruct (x86_attr_bit n) eqn:Eb; [done|]. by rewrite (x86_attr_zero a n).
Qed.

Lemma x86_new_mapping_law pa a : phys_ok 52 shift pa -> x86_attr_ok a ->
  exists d, new_mapping l pa a = Return d /\ usize_ok d /\ is_valid l d = true /\
    next_table_address l d = None /\ mapped_address l d = Some pa /\ mapping_attributes l d = Some a.
Proof.
  intros Hp Ha. pose proof x86_shift as Hs. simpl. unfold x86_new_mapping. rewrite aligned_test by lia.
  rewrite (proj2 (Z.eqb_eq _ _) (proj2 Hp)). simpl.
  set (d := Z.lor (Z.lor (Z.lor (Z.land pa ADDR_MASK) (flags a)) (Z.shiftl (Z.b2z (pat a)) (x86_pat_bit shift))) marker).
  pose proof (fun n => x86_mapping_bit pa a n Hp Ha) as Hb. fold d in Hb.
  assert (H0 : Z.testbit d 0 = true) by (rewrite Hb, orb_true_r by lia; done).
  assert (H7 : table = true -> Z.testbit d 7 = true) by (intros Ht; rewrite Hb, Ht, !orb_true_r by lia; done).
  assert (Hd : usize_ok d).
  { apply bits_usize; [|intros n Hn; rewrite Hb by lia; unfold x86_pat_n].
    - repeat (apply Z.lor_nonneg; split); [apply Z.land_nonneg; left; apply Hp|apply Ha|apply Z.shiftl_nonneg; destruct (pat a); simpl; lia|unfold marker; destruct table; lia].
    - replace (in_field shift (52 - shift) n) with false by (symmetry; bit_pos).
      replace (x86_attr_bit n) with false by (symmetry; bit_pos).
      destruct table; destruct (Z.eqb_spec n 12), (Z.eqb_spec n 7), (Z.eqb_spec n 0); done || lia. }
  exists d. split; [done|]. split; [done|]. rewrite x86_valid_bit, x86_next_bits. split; [done|].
  split; [destruct table; [by rewrite H7, andb_false_r|done]|]. split.
  - apply x86_mapped_field; [done..|]. intros n Hn. rewrite Hb by lia.
    replace (in_field shift (52 - shift) n) with true by (symmetry; bit_pos).
    replace (x86_attr_bit n) with false by (symmetry; bit_pos). simpl.
    destruct (Z.eqb_spec n 7), (Z.eqb_spec n 0); try lia. rewrite andb_false_r, !orb_false_r.
    unfold x86_pat_n. destruct table; destruct (Z.eqb_spec n 12), (Z.eqb_spec n 7); try lia; simpl; by rewrite orb_false_r.
  - unfold x86_mapping_attributes. rewrite marker_test, H0.
    replace (negb table || Z.testbit d 7) with true by (destruct table; [by rewrite H7|done]). simpl.
    rewrite mask_bit by (rewrite x86_pat_bit_eq; unfold x86_pat_n; destruct table; lia). fold x86_attr_mask.
    f_equal. destruct a as [fl pt]; simpl in *. f_equal.
    + transitivity (Z.land fl x86_attr_mask); [|exact (proj2 Ha)]. apply Z.bits_inj'. intros n Hn. rewrite !Z.land_spec, x86_attr_mask_bit, Hb by lia.
      destruct (x86_attr_bit n) eqn:Eb; [|by rewrite !andb_false_r]. simpl. rewrite !andb_true_r.
      assert (Hout : (shift <= n < 52) -> False).
      { intros ?. revert Eb. bit_pos. }
      replace (in_field shift (52 - shift) n) with false by (symmetry; bit_pos).
      assert (n <> 0 /\ n <> 7 /\ n <> 12) as (? & ? & ?) by (repeat split; intros ->; done).
      unfold x86_pat_n. destruct table; destruct (Z.eqb_spec n 0), (Z.eqb_spec n 7), (Z.eqb_spec n 12); try done;
      simpl; by rewrite !orb_false_r.
    + rewrite x86_pat_bit_eq, Hb by (unfold x86_pat_n; destruct table; lia). unfold x86_pat_n.
      destruct table; simpl.
      * replace (in_field shift (52 - shift) 12) with false by (symmetry; bit_pos). simpl. by rewrite orb_false_r.
      * replace (in_field shift (52 - shift) 7) with false by (symmetry; bit_pos). simpl. by rewrite orb_false_r.
Qed.

Lemma x86_set_permissions_bits d p n : usize_ok d -> 0 <= n ->
  Z.testbit (x86_set_permissions d p) n =
    if n =? 63 then negb (pte_execute p) else if n =? 1 then pte_write p else if n =? 2 then pte_user p else Z.testbit d n.
Proof.
  intros Hd Hn. unfold x86_set_permissions.
  assert (Hb : forall b : bool, 0 <= if b then 1 else 0) by (intros []; lia).
  rewrite !reg_modify_bit by (repeat first [apply reg_modify_ok | assumption | apply Hb | lia | (destruct (pte_execute p); lia)]).
  rewrite !in_field_1. destruct (Z.eqb_spec n 63) as [->|]; [by destruct (pte_execute p)|].
  destruct (Z.eqb_spec n 1) as [->|]; [by destruct (pte_write p)|].
  destruct (Z.eqb_spec n 2) as [->|]; [by destruct (pte_user p)|]. done.
Qed.

Lemma x86_new_map_pa_law pa mt p : phys_ok 52 shift pa ->
  exists d, new_map_pa l pa mt p = Return d /\ usize_ok d /\ is_valid l d = true /\
    next_table_address l d = None /\ mapped_address l d = Some pa /\ permissions l d = x86_pview p.
Proof.
  intros Hp. pose proof x86_shift as Hs. simpl. unfold x86_new_map_pa, is_aligned_to. rewrite aligned_test by lia.
  rewrite (proj2 (Z.eqb_eq _ _) (proj2 Hp)). simpl.
  set (b := Z.lor (Z.land pa ADDR_MASK) marker). set (r := match mt with UC => _ | WT => _ | WB => _ end).
  assert (Hu : usize_ok b).
  { apply usize_lor; [|unfold marker, usize_ok; destruct table; lia]. rewrite Z.land_comm. apply usize_land; [|apply Hp].
    unfold usize_ok. lia. }
  assert (Hr : usize_ok r) by (subst r; destruct mt; repeat apply reg_modify_ok; done || lia).
  assert (Hrb : forall n, 0 <= n -> n <> 3 -> n <> 4 -> Z.testbit r n = Z.testbit b n).
  { intros n Hn H3 H4. subst r. destruct mt; rewrite !reg_modify_bit by (repeat first [apply reg_modify_ok | done | lia]);
      rewrite !in_field_1; destruct (Z.eqb_spec n 3), (Z.eqb_spec n 4); done. }
  assert (Hok : usize_ok (x86_set_permissions r p)).
  { clearbody r. unfold x86_set_permissions. repeat apply reg_modify_ok; try lia; try done; destruct (pte_user p), (pte_write p), (pte_execute p); lia. }
  assert (Hdb : forall n, 0 <= n < 63 -> n <> 1 -> n <> 2 -> n <> 3 -> n <> 4 -> Z.testbit (x86_set_permissions r p) n = Z.testbit b n).
  { intros n Hn ????. rewrite x86_set_permissions_bits by (done || lia).
    destruct (Z.eqb_spec n 63), (Z.eqb_spec n 1), (Z.eqb_spec n 2); try lia. apply Hrb; lia. }
  assert (Hbb : forall n, 0 <= n -> Z.testbit b n = in_field shift (52 - shift) n && Z.testbit pa n || ((n =? 0) || (table && (n =? 7)))).
  { intros n Hn. subst b. by rewrite Z.lor_spec, x86_map_pa_bits, marker_bit. }
  assert (H0 : Z.testbit (x86_set_permissions r p) 0 = true) by (rewrite Hdb, Hbb, orb_true_r by lia; done).
  assert (H7 : table = true -> Z.testbit (x86_set_permissions r p) 7 = true) by (intros Ht; rewrite Hdb, Hbb, Ht, !orb_true_r by lia; done).
  eexists. split; [done|]. split; [done|]. rewrite x86_valid_bit, x86_next_bits. split; [done|].
  split; [destruct table; [by rewrite H7, andb_false_r|done]|]. split.
  - apply x86_mapped_field; [done..|]. intros n Hn. rewrite Hdb, Hbb by lia.
    replace (in_field shift (52 - shift) n) with true by (symmetry; bit_pos).
    destruct (Z.eqb_spec n 7), (Z.eqb_spec n 0); try lia. by rewrite andb_false_r, !orb_false_r.
  - unfold x86_permissions. rewrite marker_test, H0.
    replace (negb table || Z.testbit (x86_set_permissions r p) 7) with true by (destruct table; [by rewrite H7|done]). simpl.
    unfold x86_desc_permissions, x86_pview. rewrite !reg_is_set_bit, !x86_set_permissions_bits by (done || lia). simpl.
    by rewrite negb_involutive.
Qed.

Lemma x86_map_laws : MapLaws 52 x86_attr_ok x86_attr_perms x86_pview l.
Proof.
  split; [apply x86_new_mapping_law|apply x86_new_map_pa_law|]. simpl. intros d a Hd.
  unfold x86_mapping_attributes, x86_permissions, x86_mapped_address. destruct (Z.land d marker =? marker); simpl; [|done].
  intros [= <-]. fold x86_attr_mask. split; [split; simpl|split].
  - apply usize_land; [done|]. by vm_compute.
  - by rewrite <- Z.land_assoc, Z.land_diag.
  - unfold x86_attr_perms, x86_desc_permissions. simpl.
    rewrite !reg_is_set_bit, !Z.land_spec, !x86_attr_mask_bit by lia. simpl. by rewrite !andb_true_r.
  - eexists. split; [done|]. pose proof x86_shift. rewrite x86_address_part. apply field_phys; try lia. apply Hd.
Qed.
End X86Level.

Lemma x86_link c : table_ok c -> x86_next_table_address (x86_new_next_table c) = Some c.
Proof.
  intros [Hc Ha]. assert (Hm : Z.land c ADDR_MASK = c).
  { rewrite ADDR_MASK_eq. apply Z.bits_inj'. intros n Hn. rewrite Z.land_spec, field_mask_bit by lia. unfold in_field.
    destruct (Z.leb_spec 12 n); [|by rewrite (mod_bits c 12 n) by (done || lia)].
    destruct (Z.ltb_spec n (12 + 40)); [apply andb_true_r|]. by rewrite (above_bits c 48 n) by lia. }
  assert (Hu : usize_ok c) by (unfold usize_ok; assert (2 ^ 48 < 2 ^ 64) by (apply Z.pow_lt_mono_r; lia); lia).
  unfold x86_new_next_table. rewrite Hm, x86_next_bits.
  rewrite !reg_modify_bit by (repeat first [apply reg_modify_ok | done | lia]). simpl. f_equal.
  rewrite <- Hm at 2. apply Z.bits_inj'. intros n Hn. rewrite !Z.land_spec, ADDR_MASK_eq, field_mask_bit by lia.
  destruct (in_field 12 40 n) eqn:Ef; [|by rewrite !andb_false_r]. unfold in_field in Ef. breflect.
  rewrite !reg_modify_bit by (repeat first [apply reg_modify_ok | done | lia]). rewrite !in_field_1.
  destruct (Z.eqb_spec n 0), (Z.eqb_spec n 1), (Z.eqb_spec n 2), (Z.eqb_spec n 7); try lia. done.
Qed.

Lemma arm_link_ok c : table_ok c -> usize_ok (arm_new_next_table c).
Proof.
  intros [Hc _]. assert (2 ^ 48 < 2 ^ 64) by (apply Z.pow_lt_mono_r; lia).
  apply usize_lor; [|unfold usize_ok; lia]. apply usize_land; [unfold usize_ok; lia|]. by vm_compute.
Qed.

Lemma x86_link_ok c : table_ok c -> usize_ok (x86_new_next_table c).
Proof.
  intros [Hc _]. assert (2 ^ 48 < 2 ^ 64) by (apply Z.pow_lt_mono_r; lia).
  unfold x86_new_next_table. repeat apply reg_modify_ok; try lia. apply usize_land; [unfold usize_ok; lia|]. by vm_compute.
Qed.

(** ** The hierarchies *)

Section Hierarchy.
Context {MT AT : Type} (pab : Z) (attr_ok : AT -> Prop) (attr_perms : AT -> PtePermissions)
  (pview : Level MT AT -> PtePermissions -> option PtePermissions).

(** A root that links tables, levels that link and map, and a leaf. *)
Inductive hier : list (Level MT AT) -> Prop :=
| hier_leaf l : LevelLaws l -> MAP_SHIFT l = 12 -> (forall d, next_table_address l d = None) -> hier [l]
| hier_cons l next ls : LevelLaws l -> link_law l -> MAP_SHIFT l = MAP_SHIFT next + 9 ->
    MapLaws pab attr_ok attr_perms (pview next) next -> hier (next :: ls) -> hier (l :: next :: ls).
End Hierarchy.

Definition arm_level_pview (l : Level ArmMemoryType Z) : PtePermissions -> option PtePermissions :=
  arm_pview (if MAP_SHIFT l =? 12 then 3 else 1).

Lemma arm_hier : hier 48 arm_attr_ok arm_attr_perms arm_level_pview arm_levels.
Proof.
  assert (H0 : LevelLaws L0Descriptor).
  { split; simpl; try done; try lia. intros d c. unfold arm_next_table_address, arm_is_valid.
    by destruct (Z.eqb_spec (Z.land d 3) 3) as [->|]. }
  assert (Hl : forall l : Level ArmMemoryType Z, next_table_address l = arm_next_table_address -> new_next_table l = arm_new_next_table -> link_law l).
  { intros l E1 E2 c Hc. rewrite E1, E2. split; [by apply arm_link|by apply arm_link_ok]. }
  apply hier_cons; [exact H0|by apply Hl|done|apply (arm_map_laws 30 1 18 true); auto|].
  apply hier_cons; [apply (arm_level_laws 30 1 18 true); auto|by apply Hl|done|apply (arm_map_laws 21 1 27 true); auto|].
  apply hier_cons; [apply (arm_level_laws 21 1 27 true); auto|by apply Hl|done|apply (arm_map_laws 12 3 36 false); auto|].
  apply hier_leaf; [apply (arm_level_laws 12 3 36 false); auto|done|done].
Qed.

Lemma x86_hier : hier 52 x86_attr_ok x86_attr_perms (fun _ => x86_pview) x86_levels.
Proof.
  assert (H0 : LevelLaws PML4E).
  { split; simpl; try done; try lia. intros d c. rewrite x86_next_bits, x86_valid_bit. by destruct (Z.testbit d 0). }
  assert (Hl : forall l : Level X86MemoryType X86Attributes, next_table_address l = x86_next_table_address -> new_next_table l = x86_new_next_table -> link_law l).
  { intros l E1 E2 c Hc. rewrite E1, E2. split; [by apply x86_link|by apply x86_link_ok]. }
  apply hier_cons; [exact H0|by apply Hl|done|apply (x86_map_laws 30 true); auto|].
  apply hier_cons; [apply (x86_level_laws 30 true); auto|by apply Hl|done|apply (x86_map_laws 21 true); auto|].
  apply hier_cons; [apply (x86_level_laws 21 true); auto|by apply Hl|done|apply (x86_map_laws 12 false); auto|].
  apply hier_leaf; [apply (x86_level_laws 12 false); auto|done|done].
Qed.


