(* ===== verification/PgTables.v ===== *)
(** * Page tables

    Models libkernel/src/memory/paging (mod.rs, walk.rs, tear_down.rs) and the mapping,
    walking and tear-down code of libkernel/src/arch/arm64/memory and
    libkernel/src/arch/x86_64/memory (pg_tables.rs, pg_walk.rs, pg_tear_down.rs).  The
    operations are recursive functions on the list of levels, as the generic code is on
    the types of the levels; the two architectures differ in their levels.

    Page tables are accessed through PageOffsetPgTableMapper, which never fails, so
    [with_page_table] is an access to the memory of the tables.  The log has every store
    to a table and every call of the TLB invalidator, in order. *)
From stdpp Require Import base list.
From S2P Require Import Prelude Error Address Region Vma PgDesc.
Local Open Scope Z_scope.

Notation DESCRIPTORS_PER_PAGE := (512) (only parsing).

Record TranslationChange := mkChange { tc_va : Z; tc_size : Z; old_descriptor : Z; new_descriptor : Z }.

Inductive TlbEvent : Type :=
| EvPrepare (c : TranslationChange)
| EvStore (table idx raw : Z)
| EvInvalidate (c : TranslationChange)
| EvPublish (c : TranslationChange).

(** The tables, by address and index, the log and the page allocator. *)
Record PtState (A : Type) := mkPt { tables : Z -> Z -> Z; tlb_log : list TlbEvent; page_alloc : A }.
Arguments mkPt {A} tables tlb_log page_alloc.
Arguments tables {A} p _ _.
Arguments tlb_log {A} p.
Arguments page_alloc {A} p.

Definition store_entry (m : Z -> Z -> Z) (table idx raw : Z) : Z -> Z -> Z :=
  fun t i => if (t =? table) && (i =? idx) then raw else m t i.
Definition zero_table (m : Z -> Z -> Z) (table : Z) : Z -> Z -> Z :=
  fun t i => if t =? table then 0 else m t i.

Section PgTables.
Context {MT AT A : Type} (allocate_page_table : A -> result Z * A).
Notation Level := (Level MT AT).
Notation St := (PtState A).
Notation res X := (outcome (result X * St)).

Definition pg_index (l : Level) (va : Z) : Z := Z.land (Z.shiftr va (MAP_SHIFT l)) (DESCRIPTORS_PER_PAGE - 1).

Definition get_desc (l : Level) (s : St) (table va : Z) : Z := tables s table (pg_index l va).

(** [invalidator] is [false] for the null invalidator, whose hooks do nothing. *)
Definition hook (invalidator : bool) (e : TlbEvent) : list TlbEvent := if invalidator then [e] else [].

Definition update_descriptor (l : Level) (s : St) (table idx va new_desc : Z) (invalidator : bool) : outcome St :=
  let old := tables s table idx in
  if old =? new_desc then Return s else
  let size := ushl 1 (MAP_SHIFT l) in
  let! base := align va size in
  let change := mkChange base size old new_desc in
  let log := tlb_log s ++ hook invalidator (EvPrepare change) in
  let log := if is_valid l old
             then log ++ [EvStore table idx INVALID] ++ hook invalidator (EvInvalidate change) else log in
  Return (mkPt (store_entry (tables s) table idx new_desc)
               (log ++ [EvStore table idx new_desc] ++ hook invalidator (EvPublish change)) (page_alloc s)).

Definition set_desc (l : Level) (s : St) (table va desc : Z) (invalidator : bool) : outcome St :=
  update_descriptor l s table (pg_index l va) va desc invalidator.

(** ** Mapping *)

Record MapAttributes := mkMapAttrs {
  ma_phys : MemoryRegion; ma_virt : MemoryRegion; ma_mem_type : MT; ma_perms : PtePermissions
}.

Definition could_map (l : Level) (region : MemoryRegion) (va : Z) : bool :=
  is_aligned_to (MAP_SHIFT l) (start_address region) && is_aligned_to (MAP_SHIFT l) va &&
  (ushl 1 (MAP_SHIFT l) <=? rsize region).

Definition try_map_pa (l : Level) (table va : Z) (phys_region : MemoryRegion) (attrs : MapAttributes) (s : St)
    : res (option Z) :=
  if could_map l phys_region va then
    if is_valid l (get_desc l s table va) then Return (Err (MappingError AlreadyMapped), s)
    else
      let! d := new_map_pa l (start_address phys_region) (ma_mem_type attrs) (ma_perms attrs) in
      let! s := set_desc l s table va d false in
      Return (Ok (Some (ushl 1 (MAP_SHIFT l - 12))), s)
  else Return (Ok None, s).

Definition alloc_table (s : St) : result Z * St :=
  let (r, a) := allocate_page_table (page_alloc s) in (r, mkPt (tables s) (tlb_log s) a).

Definition map_at_level (l : Level) (table va : Z) (s : St) : res Z :=
  let desc := get_desc l s table va in
  match next_table_address l desc with
  | Some pa => Return (Ok pa, s)
  | None =>
      if is_valid l desc then Return (Err (MappingError AlreadyMapped), s)
      else
        match alloc_table s with
        | (Err e, s) => Return (Err e, s)
        | (Ok new_pa, s) =>
            let s := mkPt (zero_table (tables s) new_pa) (tlb_log s) (page_alloc s) in
            let! s := set_desc l s table va (new_next_table l new_pa) true in
            Return (Ok new_pa, s)
        end
  end.

(** One round of the loop of [map_range] below the root: try to map at each level, and
    descend otherwise.  Returns the number of pages mapped; a page is the unit at the
    last level. *)
Fixpoint map_round (up : Level) (ls : list Level) (table va : Z) (attrs : MapAttributes) (s : St) : res Z :=
  match ls with
  | [] => Panic
  | l :: ls' =>
      let? (next, s) := map_at_level up table va s in
      let? (o, s) := try_map_pa l next va (ma_phys attrs) attrs s in
      match ls', o with
      | [], _ => Return (Ok 1, s)
      | _, Some pgs_mapped => Return (Ok pgs_mapped, s)
      | _, None => map_round l ls' next va attrs s
      end
  end.

Definition advance (attrs : MapAttributes) (n : Z) : MapAttributes :=
  mkMapAttrs (region_add_pages (ma_phys attrs) n) (region_add_pages (ma_virt attrs) n)
             (ma_mem_type attrs) (ma_perms attrs).

Fixpoint map_loop (fuel : nat) (root : Level) (ls : list Level) (table : Z) (attrs : MapAttributes) (s : St) : res unit :=
  if 0 <? rsize (ma_virt attrs) then
    match fuel with
    | O => OutOfFuel
    | S fuel =>
        let? (n, s) := map_round root ls table (start_address (ma_virt attrs)) attrs s in
        map_loop fuel root ls table (advance attrs n) s
    end
  else Return (Ok tt, s).

Definition check_regions (attrs : MapAttributes) : option KernelError :=
  if negb (rsize (ma_phys attrs) =? rsize (ma_virt attrs)) then Some (MappingError SizeMismatch)
  else if rsize (ma_phys attrs) <? PAGE_SIZE then Some (MappingError TooSmall)
  else if negb (region_is_page_aligned (ma_phys attrs)) then Some (MappingError PhysNotAligned)
  else if negb (region_is_page_aligned (ma_virt attrs)) then Some (MappingError VirtNotAligned)
  else None.

(** Every round maps at least a page. *)
Definition map_fuel (attrs : MapAttributes) : nat := S (Z.to_nat (rsize (ma_virt attrs) / PAGE_SIZE)).

Definition map_range (root : Level) (ls : list Level) (l0_table : Z) (attrs : MapAttributes) (s : St) : res unit :=
  match check_regions attrs with
  | Some e => Return (Err e, s)
  | None => map_loop (map_fuel attrs) root ls l0_table attrs s
  end.

(** ** Walking *)

(** The closures the kernel passes read and write state of their own; [X] is that state. *)
Context {X : Type}.
Notation resX Y := (outcome (result Y * (St * X))).

Inductive WalkOperation : Type :=
| Modify (modifier : Z -> Z -> St * X -> outcome (Z * (St * X)))
| PunchHole.

Definition apply_op (op : WalkOperation) (va desc : Z) (s : St * X) : outcome (Z * (St * X)) :=
  match op with
  | Modify modifier => modifier va desc s
  | PunchHole => Return (INVALID, s)
  end.

Notation is_punch op := (match op with PunchHole => true | Modify _ => false end) (only parsing).

Definition validate_allocating_region (region : MemoryRegion) : result unit :=
  if negb (region_is_page_aligned region) || negb (rsize region mod PAGE_SIZE =? 0)
  then Err (MappingError VirtNotAligned)
  else match checked_add (start_address region) (rsize region) with
       | None => Err InvalidValue
       | Some _ => Ok tt
       end.

(** [RejectBlockAllocator]: the allocator of a walk that must not split blocks. *)
Definition reject_block_alloc (s : St) : result Z * St := (Err (MappingError NotL3Mapped), s).

(** The pages of the region at the last level. *)
Fixpoint walk_leaf (l : Level) (table : Z) (pages : list Z) (op : WalkOperation) (s : St * X) : outcome (St * X) :=
  match pages with
  | [] => Return s
  | va :: pages =>
      let desc := get_desc l s.1 table va in
      if is_valid l desc then
        let! (d, s) := apply_op op va desc s in
        let! pt := set_desc l s.1 table va d true in
        walk_leaf l table pages op (pt, s.2)
      else walk_leaf l table pages op s
  end.

(** The new table of a split block: [entries] mappings from [pa] on. *)
Fixpoint fill_table (l : Level) (table entry_va pa : Z) (attributes : AT) (idxs : list Z) (s : St) : outcome St :=
  match idxs with
  | [] => Return s
  | idx :: idxs =>
      let coverage := ushl 1 (MAP_SHIFT l) in
      let! d := new_mapping l (add_bytes pa (umul idx coverage)) attributes in
      let! s := set_desc l s table (add_bytes entry_va (umul idx coverage)) d false in
      fill_table l table entry_va pa attributes idxs s
  end.

(** What a walk does at an entry: the table to descend to, if any. *)
Definition walk_entry (alloc : St -> result Z * St) (l next : Level) (table : Z) (region : MemoryRegion)
    (op : WalkOperation) (entry_va : Z) (s : St) : res (option Z) :=
  let coverage := ushl 1 (MAP_SHIFT l) in
  let desc := get_desc l s table entry_va in
  match next_table_address l desc with
  | Some next_pa => Return (Ok (Some next_pa), s)
  | None =>
      if is_valid l desc then
        match mapped_address l desc, mapping_attributes l desc with
        | Some pa, Some attributes =>
            if is_punch op && contains region (mkRegion entry_va coverage) then
              let! s := set_desc l s table entry_va INVALID true in
              Return (Ok None, s)
            else
              match alloc s with
              | (Err e, s) => Return (Err e, s)
              | (Ok next_pa, s) =>
                  let! s := fill_table next next_pa entry_va pa attributes (seqZ 0 DESCRIPTORS_PER_PAGE) s in
                  let! s := set_desc l s table entry_va (new_next_table l next_pa) true in
                  Return (Ok (Some next_pa), s)
              end
        | _, _ => Return (Err (MappingError InvalidDescriptor), s)
        end
      else Return (Ok None, s)
  end.

(** The loop over the entries of a table; [below] walks the next level. *)
Fixpoint walk_entries (alloc : St -> result Z * St) (l next : Level)
    (below : Z -> MemoryRegion -> St * X -> resX unit) (table : Z) (region : MemoryRegion)
    (op : WalkOperation) (table_base_va : Z) (idxs : list Z) (s : St * X) : resX unit :=
  match idxs with
  | [] => Return (Ok tt, s)
  | idx :: idxs =>
      let coverage := ushl 1 (MAP_SHIFT l) in
      let entry_va := add_bytes table_base_va (umul idx coverage) in
      let! (r, pt) := walk_entry alloc l next table region op entry_va s.1 in
      let s := (pt, s.2) in
      match r with
      | Err e => Return (Err e, s)
      | Ok None => walk_entries alloc l next below table region op table_base_va idxs s
      | Ok (Some next_pa) =>
          let! sub_region := unwrap (intersection (mkRegion entry_va coverage) region) in
          let? (_, s) := below next_pa sub_region s in
          walk_entries alloc l next below table region op table_base_va idxs s
      end
  end.

Definition walk_table_level (alloc : St -> result Z * St) (l next : Level)
    (below : Z -> MemoryRegion -> St * X -> resX unit) (table : Z) (region : MemoryRegion)
    (op : WalkOperation) (s : St * X) : resX unit :=
  let start_idx := pg_index l (start_address region) in
  let end_idx := pg_index l (end_address_inclusive region) in
  let! table_base_va := align (start_address region) (ushl 1 (MAP_SHIFT l + 9)) in
  walk_entries alloc l next below table region op table_base_va
    (seqZ start_idx (end_idx + 1 - start_idx)) s.

Fixpoint walk_with_allocator (alloc : St -> result Z * St) (ls : list Level) (table : Z) (region : MemoryRegion)
    (op : WalkOperation) (s : St * X) : resX unit :=
  match ls with
  | [] => Panic
  | l :: ls' =>
      match ls' with
      | [] => let! s := walk_leaf l table (iter_pages region) op s in Return (Ok tt, s)
      | next :: _ => walk_table_level alloc l next
          (fun t r s => walk_with_allocator alloc ls' t r op s) table region op s
      end
  end.

Definition walk_and_modify_region (ls : list Level) (l0_table : Z) (region : MemoryRegion)
    (modifier : Z -> Z -> St * X -> outcome (Z * (St * X))) (s : St * X) : resX unit :=
  if negb (region_is_page_aligned region) then Return (Err (MappingError VirtNotAligned), s)
  else if rsize region =? 0 then Return (Ok tt, s)
  else walk_with_allocator reject_block_alloc ls l0_table region (Modify modifier) s.

Definition pt_punch_hole (ls : list Level) (l0_table : Z) (region : MemoryRegion) (s : St * X) : resX unit :=
  match validate_allocating_region region with
  | Err e => Return (Err e, s)
  | Ok _ =>
      if rsize region =? 0 then Return (Ok tt, s)
      else walk_with_allocator alloc_table ls l0_table region PunchHole s
  end.

(** ** Translation *)

(** The address, the size of the mapping and its permissions. *)
Fixpoint translate_level (ls : list Level) (table va : Z) (s : St) : outcome (result (option (Z * Z * PtePermissions))) :=
  match ls with
  | [] => Panic
  | l :: ls' =>
      let desc := get_desc l s table va in
      match next_table_address l desc with
      | Some next_pa => translate_level ls' next_pa va s
      | None =>
          match mapped_address l desc with
          | Some pa =>
              let! p := unwrap (permissions l desc) in
              Return (Ok (Some (pa, ushl 1 (MAP_SHIFT l), p)))
          | None =>
              if is_valid l desc then Return (Err (MappingError InvalidDescriptor)) else Return (Ok None)
          end
      end
  end.

(** The mapped region, the offset of the address in it and the permissions. *)
Definition pt_translate (ls : list Level) (table va : Z) (s : St)
    : outcome (result (option (MemoryRegion * Z * PtePermissions))) :=
  let! r := translate_level ls table va s in
  match r with
  | Ok (Some (pa, blk_sz, perms)) => Return (Ok (Some (mkRegion pa blk_sz, Z.land va (blk_sz - 1), perms)))
  | Ok None => Return (Ok None)
  | Err e => Return (Err e)
  end.
End PgTables.
Arguments MapAttributes : clear implicits.
Arguments WalkOperation : clear implicits.

(** The descriptor a walk over the page finds: the closure keeps the last one. *)
Definition get_pte {MT AT A : Type} (ls : list (Level MT AT)) (l0_table va : Z) (s : PtState A)
    : outcome (result (option Z) * PtState A) :=
  let! (r, (s, descriptor)) :=
    walk_and_modify_region ls l0_table (mkRegion (page_aligned va) PAGE_SIZE)
      (fun _ pte '(s, _) => Return (pte, (s, Some pte))) (s, None) in
  match r with
  | Ok _ => Return (Ok descriptor, s)
  | Err e => Return (Err e, s)
  end.

(** ** The two architectures *)

(** Sign extension of bit 47, as the arithmetic shifts of [i64] do. *)
Definition as_i64 (x : Z) : Z := if x <? 2 ^ 63 then x else x - 2 ^ 64.
Notation is_canonical va := (Z.shiftr (as_i64 (ushl va 16)) 16 =? as_i64 va) (only parsing).

Section Arch.
Context {A : Type} (allocate_page_table : A -> result Z * A).

Definition arm_map_range := map_range (MT := ArmMemoryType) allocate_page_table L0Descriptor [L1Descriptor; L2Descriptor; L3Descriptor].
Definition arm_walk_and_modify_region {X : Type} := walk_and_modify_region (A := A) (X := X) arm_levels.
Definition arm_punch_hole := pt_punch_hole (X := unit) allocate_page_table arm_levels.
Definition arm_get_pte := get_pte (A := A) arm_levels.

Definition x86_map_range (pml4_table : Z) (attrs : MapAttributes X86MemoryType) (s : PtState A)
    : outcome (result unit * PtState A) :=
  match check_regions attrs with
  | Some e => Return (Err e, s)
  | None =>
      if negb (is_canonical (start_address (ma_virt attrs))) then Return (Err (MappingError NonCanonicalAddress), s)
      else map_loop allocate_page_table (map_fuel attrs) PML4E [PDPE; PDE; PTE] pml4_table attrs s
  end.
Definition x86_walk_and_modify_region {X : Type} := walk_and_modify_region (A := A) (X := X) x86_levels.
Definition x86_punch_hole := pt_punch_hole (X := unit) allocate_page_table x86_levels.
Definition x86_get_pte := get_pte (A := A) x86_levels.
Definition x86_translate := pt_translate (A := A) x86_levels.
End Arch.

(** ** Tear-down *)

Inductive EntryKind : Type := Mapping (virt : MemoryRegion) | IntermediateTable | RootTable.

Record TeardownEntry := mkEntry { te_kind : EntryKind; te_depth : Z; te_region : MemoryRegion }.

Inductive TeardownAction : Type := Free | FreeAndClear | Skip.

(** The frames given to the deallocator are logged. *)
Section TearDown.
Context {MT AT A : Type} (control : TeardownEntry -> TeardownAction).
Notation Level := (Level MT AT).
Notation St := (PtState A * list MemoryRegion)%type.

Definition clear_entry (l : Level) (table va : Z) (action : TeardownAction) (s : St) : outcome St :=
  match action with
  | FreeAndClear => let! pt := set_desc l s.1 table va INVALID true in Return (pt, s.2)
  | _ => Return s
  end.

Definition dealloc (r : MemoryRegion) (s : St) : St := (s.1, s.2 ++ [r]).

(** The loop looks for the next entry in use from its cursor on, so it visits the indices
    in order and reads each entry when it gets there. *)
Fixpoint tear_down_entries (l : Level) (below : Z -> Z -> Z -> St -> outcome St) (table base_va depth : Z)
    (idxs : list Z) (s : St) : outcome St :=
  match idxs with
  | [] => Return s
  | i :: idxs =>
      let desc := tables s.1 table i in
      let entry_va := add_bytes base_va (ushl i (MAP_SHIFT l)) in
      let! s :=
        match next_table_address l desc with
        | Some table_addr =>
            let entry := mkEntry IntermediateTable (depth + 1) (mkRegion table_addr PAGE_SIZE) in
            match control entry with
            | Skip => Return s
            | action =>
                let! s := below table_addr entry_va (depth + 1) s in
                let! s := clear_entry l table entry_va action s in
                Return (dealloc (te_region entry) s)
            end
        | None =>
            match mapped_address l desc with
            | Some pa =>
                let map_size := ushl 1 (MAP_SHIFT l) in
                let entry := mkEntry (Mapping (mkRegion entry_va map_size)) depth (mkRegion pa map_size) in
                match control entry with
                | Skip => Return s
                | action =>
                    let! s := clear_entry l table entry_va action s in
                    Return (dealloc (te_region entry) s)
                end
            | None => Return s
            end
        end in
      tear_down_entries l below table base_va depth idxs s
  end.

Fixpoint tear_down (ls : list Level) (table base_va depth : Z) (s : St) : outcome St :=
  match ls with
  | [] => Return s
  | l :: ls' =>
      tear_down_entries l (fun t va d s => tear_down ls' t va d s) table base_va depth
        (seqZ 0 DESCRIPTORS_PER_PAGE) s
  end.

Definition tear_down_address_space (ls : list Level) (l0_table : Z) (s : St) : outcome St :=
  let! s := tear_down ls l0_table 0 0 s in
  let root_entry := mkEntry RootTable 0 (mkRegion l0_table PAGE_SIZE) in
  match control root_entry with
  | Skip => Return s
  | _ => Return (dealloc (te_region root_entry) s)
  end.
End TearDown.

Definition arm_tear_down_address_space {A : Type} (control : TeardownEntry -> TeardownAction) :=
  tear_down_address_space (A := A) control arm_levels.
Definition x86_tear_down_address_space {A : Type} (control : TeardownEntry -> TeardownAction) :=
  tear_down_address_space (A := A) control x86_levels.
