(* ===== verification/PgInv.v ===== *)
(** * Page table trees

    The tables reachable from a root form a tree; every operation of PgTables changes the
    tables of the tree it works on and tables it takes from the allocator, and nothing
    else.  [view] is the entry that ends the walk of the hardware for an address.  The
    lemmas of this file say what replacing one entry of a table does to the tree and to
    the views. *)
From stdpp Require Import base list.
From S2P Require Import Prelude Error Address Region Vma PgDesc PgTables.
Local Open Scope Z_scope.

Notation mem := (Z -> Z -> Z).

(** ** Indices *)

Section Index.
Context {MT AT : Type}.
Implicit Types l : Level MT AT.

Lemma pg_index_eq l va : 0 <= MAP_SHIFT l -> pg_index l va = (va / 2 ^ MAP_SHIFT l) mod 512.
Proof.
  intros H. unfold pg_index. change (512 - 1) with (Z.ones 9).
  by rewrite Z.land_ones, Z.shiftr_div_pow2 by lia.
Qed.

Lemma pg_index_range l va : 0 <= MAP_SHIFT l -> 0 <= pg_index l va < 512.
Proof. intros H. rewrite pg_index_eq by done. apply Z.mod_pos_bound. lia. Qed.

(** Two addresses of the window of a table have the same index exactly when they are in
    the window of the same entry. *)
Lemma window_split l a b : 0 <= MAP_SHIFT l -> a / 2 ^ (MAP_SHIFT l + 9) = b / 2 ^ (MAP_SHIFT l + 9) ->
  pg_index l a = pg_index l b <-> a / 2 ^ MAP_SHIFT l = b / 2 ^ MAP_SHIFT l.
Proof.
  intros Hs Hw. rewrite !pg_index_eq by done. split; [|by intros ->]. intros Hm.
  rewrite Z.pow_add_r, <- !Z.div_div in Hw by lia. change (2 ^ 9) with 512 in Hw.
  rewrite (Z.div_mod (a / 2 ^ MAP_SHIFT l) 512), (Z.div_mod (b / 2 ^ MAP_SHIFT l) 512) by lia. lia.
Qed.
End Index.

(** ** Trees *)

Section Tree.
Context {MT AT : Type}.
Notation Level := (Level MT AT).
Implicit Types (l : Level) (ls : list Level) (m : mem).

(** The tables of a tree. *)
Fixpoint foot ls m (pa t : Z) : Prop :=
  t = pa \/ match ls with
            | [] => False
            | l :: ls' => exists i c, 0 <= i < 512 /\ next_table_address l (m pa i) = Some c /\ foot ls' m c t
            end.

(** No table is used twice, and entries are 64-bit values. *)
Fixpoint tree ls m (pa : Z) : Prop :=
  match ls with
  | [] => True
  | l :: ls' =>
      (forall i, 0 <= i < 512 -> usize_ok (m pa i)) /\
      (forall i c, 0 <= i < 512 -> next_table_address l (m pa i) = Some c -> tree ls' m c /\ ~ foot ls' m c pa) /\
      (forall i j c c' t, 0 <= i < 512 -> 0 <= j < 512 -> i <> j ->
        next_table_address l (m pa i) = Some c -> next_table_address l (m pa j) = Some c' ->
        foot ls' m c t -> ~ foot ls' m c' t)
  end.

(** The level and the value of the entry at which the walk for [va] ends. *)
Fixpoint view ls m (pa va : Z) : option (Level * Z) :=
  match ls with
  | [] => None
  | l :: ls' =>
      let d := m pa (pg_index l va) in
      match next_table_address l d with
      | Some c => view ls' m c va
      | None => if is_valid l d then Some (l, d) else None
      end
  end.

(** [m'] has the same table at [t]. *)
Definition same_table m m' (t : Z) : Prop := forall i, m' t i = m t i.

Lemma foot_root ls m pa : foot ls m pa pa.
Proof. destruct ls; by left. Qed.

Lemma foot_child l ls m pa i c t : 0 <= i < 512 -> next_table_address l (m pa i) = Some c ->
  foot ls m c t -> foot (l :: ls) m pa t.
Proof. intros Hi Hn Ht. right. by exists i, c. Qed.

(** Nothing depends on tables outside of the tree. *)
Lemma tree_frame ls m m' pa : (forall t, foot ls m pa t -> same_table m m' t) ->
  (forall t, foot ls m' pa t <-> foot ls m pa t) /\ (tree ls m pa -> tree ls m' pa) /\
  (forall va, view ls m' pa va = view ls m pa va).
Proof.
  revert pa. induction ls as [|l ls IH]; intros pa Hs; [done|].
  assert (Hp : same_table m m' pa) by (apply Hs; by left).
  assert (Hc : forall i c, 0 <= i < 512 -> next_table_address l (m pa i) = Some c ->
    (forall t, foot ls m' c t <-> foot ls m c t) /\ (tree ls m c -> tree ls m' c) /\
    (forall va, view ls m' c va = view ls m c va)).
  { intros i c Hi Hn. apply IH. intros t Ht. apply Hs. by apply (foot_child l ls m pa i c). }
  split; [|split].
  - intros t. simpl. f_equiv. split; intros (i & c & Hi & Hn & Ht); exists i, c.
    + rewrite Hp in Hn. split; [done|]. split; [done|]. by apply (Hc i c).
    + rewrite Hp. split; [done|]. split; [done|]. by apply (Hc i c).
  - intros (Hu & Ht & Hd). simpl. split; [intros i Hi; rewrite Hp; by apply Hu|]. split.
    + intros i c Hi Hn. rewrite Hp in Hn. destruct (Ht i c Hi Hn) as [Htr Hnf].
      destruct (Hc i c Hi Hn) as (Hf & Htr' & _). split; [by apply Htr'|]. by rewrite Hf.
    + intros i j c c' t Hi Hj Hij Hn Hn' Hf. rewrite Hp in Hn, Hn'.
      rewrite (proj1 (Hc j c' Hj Hn')). rewrite (proj1 (Hc i c Hi Hn)) in Hf. by apply (Hd i j c c' t).
  - intros va. simpl. rewrite !Hp. destruct (next_table_address l (m pa (pg_index l va))) as [c|] eqn:En; [|done].
    destruct (decide (0 <= pg_index l va < 512)) as [Hi|Hi]; [by apply (Hc _ _ Hi En)|].
    exfalso. apply Hi. unfold pg_index. change (512 - 1) with (Z.ones 9).
    rewrite Z.land_ones by lia. apply Z.mod_pos_bound. lia.
Qed.

(** The tables below entry [i]. *)
Definition below l ls m (pa i t : Z) : Prop := exists c, next_table_address l (m pa i) = Some c /\ foot ls m c t.

(** Replacing what is below one entry of the root; the tables [N] are new. *)
Lemma entry_replaced l ls m m' pa i (N : Z -> Prop) : tree (l :: ls) m pa -> 0 <= i < 512 ->
  (forall t, foot (l :: ls) m pa t -> ~ N t) ->
  (forall j, j <> i -> m' pa j = m pa j) -> usize_ok (m' pa i) ->
  (forall t, t <> pa -> ~ below l ls m pa i t -> ~ N t -> same_table m m' t) ->
  (forall c, next_table_address l (m' pa i) = Some c ->
    tree ls m' c /\ forall t, foot ls m' c t -> below l ls m pa i t \/ N t) ->
  tree (l :: ls) m' pa /\ (forall t, foot (l :: ls) m' pa t -> foot (l :: ls) m pa t \/ N t) /\
  (forall va, pg_index l va <> i -> 0 <= pg_index l va < 512 -> view (l :: ls) m' pa va = view (l :: ls) m pa va).
Proof.
  intros (Hu & Ht & Hd) Hi HN Hj Hui Hframe Hnew.
  assert (Hpi : ~ below l ls m pa i pa).
  { intros (c & Hn & Hf). by apply (Ht i c Hi Hn). }
  assert (Hother : forall j c, 0 <= j < 512 -> j <> i -> next_table_address l (m pa j) = Some c ->
    forall t, foot ls m c t -> same_table m m' t).
  { intros j c Hj' Hne Hn t Hf. apply Hframe.
    - intros ->. by apply (Ht j c Hj' Hn).
    - intros (c' & Hn' & Hf'). by apply (Hd j i c c' t).
    - apply HN. by apply (foot_child l ls m pa j c). }
  pose proof (fun j c Hj' Hne Hn => tree_frame ls m m' c (Hother j c Hj' Hne Hn)) as Hfr.
  assert (Hnot : forall t, below l ls m pa i t \/ N t -> t <> pa /\
    forall j c, 0 <= j < 512 -> j <> i -> next_table_address l (m pa j) = Some c -> ~ foot ls m c t).
  { intros t [Hb|HNt].
    - split; [by intros ->|]. intros j c Hj' Hne Hn Hf. destruct Hb as (c' & Hn' & Hf'). by apply (Hd j i c c' t).
    - split; [intros ->; by apply (HN pa); [left|]|]. intros j c Hj' Hne Hn Hf. apply (HN t); [|done].
      by apply (foot_child l ls m pa j c). }
  split; [|split].
  - split; [intros j Hj'; destruct (decide (j = i)) as [->|Hne]; [done|rewrite Hj by done; by apply Hu]|]. split.
    + intros j c Hj' Hn. destruct (decide (j = i)) as [->|Hne].
      * destruct (Hnew c Hn) as [Htr Hf]. split; [done|]. intros Hfp. by destruct (Hnot pa (Hf pa Hfp)).
      * rewrite Hj in Hn by done. destruct (Hfr j c Hj' Hne Hn) as (Hff & Htr & _).
        destruct (Ht j c Hj' Hn). split; [by apply Htr|]. by rewrite Hff.
    + intros j k c c' t Hj' Hk Hjk Hn Hn' Hf Hf'. destruct (decide (j = i)) as [->|Hne].
      * rewrite Hj in Hn' by congruence. rewrite (proj1 (Hfr k c' Hk ltac:(congruence) Hn')) in Hf'.
        destruct (Hnew c Hn) as [_ Hfn]. apply (proj2 (Hnot t (Hfn t Hf)) k c'); congruence || done.
      * rewrite Hj in Hn by done. rewrite (proj1 (Hfr j c Hj' Hne Hn)) in Hf. destruct (decide (k = i)) as [->|Hnk].
        -- destruct (Hnew c' Hn') as [_ Hfn]. by apply (proj2 (Hnot t (Hfn t Hf')) j c).
        -- rewrite Hj in Hn' by done. rewrite (proj1 (Hfr k c' Hk Hnk Hn')) in Hf'. by apply (Hd j k c c' t).
  - intros t [->|(j & c & Hj' & Hn & Hf)]; [left; by left|]. destruct (decide (j = i)) as [->|Hne].
    + destruct (Hnew c Hn) as [_ Hfn]. destruct (Hfn t Hf) as [(c' & Hn' & Hf')|]; [|by right].
      left. by apply (foot_child l ls m pa i c').
    + rewrite Hj in Hn by done. rewrite (proj1 (Hfr j c Hj' Hne Hn)) in Hf. left. by apply (foot_child l ls m pa j c).
  - intros va Hva Hr. simpl. rewrite Hj by done.
    destruct (next_table_address l (m pa (pg_index l va))) as [c|] eqn:En; [|done]. by apply (Hfr _ _ Hr Hva En).
Qed.
End Tree.

(** ** Steps *)

(** What the tables need of the page allocator: [pt_free] are the pages it still has. *)
Class PageAllocLaws {A : Type} (allocate : A -> result Z * A) := {
  pt_free : A -> Z -> Prop;
  pt_alloc_ok : forall a pa a', allocate a = (Ok pa, a') ->
    pt_free a pa /\ ~ pt_free a' pa /\ table_ok pa /\ forall t, pt_free a' t -> pt_free a t;
  pt_alloc_err : forall a e a', allocate a = (Err e, a') -> forall t, pt_free a' t -> pt_free a t
}.

Section Steps.
Context {MT AT A : Type} (allocate : A -> result Z * A) `{L : PageAllocLaws A allocate}.
Notation Level := (Level MT AT).
Notation St := (PtState A).
Implicit Types (l : Level) (ls : list Level) (s : St).

(** Pages taken from the allocator. *)
Definition taken s s' (t : Z) : Prop := pt_free (page_alloc s) t /\ ~ pt_free (page_alloc s') t.

(** A tree whose tables the allocator does not have. *)
Definition pt_inv ls s (pa : Z) : Prop :=
  tree ls (tables s) pa /\ forall t, foot ls (tables s) pa t -> ~ pt_free (page_alloc s) t.

(** From [s] to [s'] only tables of the tree and tables taken from the allocator changed. *)
Record pt_step ls (pa : Z) s s' : Prop := {
  ps_tree : tree ls (tables s') pa;
  ps_foot : forall t, foot ls (tables s') pa t -> foot ls (tables s) pa t \/ taken s s' t;
  ps_frame : forall t, ~ foot ls (tables s) pa t -> ~ taken s s' t -> same_table (tables s) (tables s') t;
  ps_free : forall t, pt_free (page_alloc s') t -> pt_free (page_alloc s) t
}.

Lemma pt_step_inv ls pa s s' : pt_inv ls s pa -> pt_step ls pa s s' -> pt_inv ls s' pa.
Proof.
  intros [Ht Hd] [Ht' Hf _ Hfr]. split; [done|]. intros t Hft Hfree. destruct (Hf t Hft) as [H|[_ H]]; [|done].
  apply (Hd t H). by apply Hfr.
Qed.

Lemma pt_step_refl ls pa s : tree ls (tables s) pa -> pt_step ls pa s s.
Proof. intros H. split; [done|by left|done|done]. Qed.

Lemma pt_step_trans ls pa s1 s2 s3 : pt_step ls pa s1 s2 -> pt_step ls pa s2 s3 -> pt_step ls pa s1 s3.
Proof.
  intros [T1 F1 R1 Q1] [T2 F2 R2 Q2].
  assert (H12 : forall t, taken s1 s2 t -> taken s1 s3 t) by (intros t [? ?]; split; [done|]; auto).
  assert (H23 : forall t, taken s2 s3 t -> taken s1 s3 t) by (intros t [? ?]; split; auto).
  split; [done| | |auto].
  - intros t H. destruct (F2 t H) as [H'|H']; [|by right; apply H23]. destruct (F1 t H'); [by left|right; by apply H12].
  - intros t Hf Ht i. assert (Hf2 : ~ foot ls (tables s2) pa t) by (intros H; destruct (F1 t H); auto).
    rewrite (R2 t Hf2 ltac:(auto) i). apply R1; auto.
Qed.

(** Same tables and allocator: only the log or nothing changed. *)
Lemma pt_step_same ls pa s s' : tree ls (tables s) pa -> (forall t, same_table (tables s) (tables s') t) ->
  (forall t, pt_free (page_alloc s') t -> pt_free (page_alloc s) t) ->
  pt_step ls pa s s' /\ forall va, view ls (tables s') pa va = view ls (tables s) pa va.
Proof.
  intros Ht Hs Hq. destruct (tree_frame ls (tables s) (tables s') pa ltac:(auto)) as (Hf & Ht' & Hv).
  split; [split; auto|done]. intros t H. left. by apply Hf.
Qed.

Lemma set_desc_spec l s table va d inv : 0 <= MAP_SHIFT l < 64 ->
  exists s', set_desc l s table va d inv = Return s' /\ page_alloc s' = page_alloc s /\
    forall t i, tables s' t i = store_entry (tables s) table (pg_index l va) d t i.
Proof.
  intros Hs. unfold set_desc, update_descriptor. destruct (Z.eqb_spec (tables s table (pg_index l va)) d) as [<-|Hne].
  - exists s. split; [done|]. split; [done|]. intros t i. unfold store_entry.
    destruct (Z.eqb_spec t table) as [->|]; [|done]. by destruct (Z.eqb_spec i (pg_index l va)) as [->|].
  - unfold align. rewrite ushl_1 by lia. unfold is_power_of_two.
    rewrite Z.log2_pow2, Z.eqb_refl, andb_true_r by lia.
    rewrite (proj2 (Z.ltb_lt 0 (2 ^ MAP_SHIFT l)) ltac:(apply Z.pow_pos_nonneg; lia)). simpl. eauto.
Qed.

Lemma store_eq m table idx d : store_entry m table idx d table idx = d.
Proof. unfold store_entry. by rewrite !Z.eqb_refl. Qed.
Lemma store_ne m table idx d t i : t <> table \/ i <> idx -> store_entry m table idx d t i = m t i.
Proof. unfold store_entry. destruct (Z.eqb_spec t table), (Z.eqb_spec i idx); simpl; try done. tauto. Qed.

(** Storing an entry that links no table. *)
Lemma pt_step_store l ls pa s s' i d : pt_inv (l :: ls) s pa -> 0 <= i < 512 -> usize_ok d ->
  next_table_address l d = None -> page_alloc s' = page_alloc s ->
  (forall t j, tables s' t j = store_entry (tables s) pa i d t j) ->
  pt_step (l :: ls) pa s s' /\
  (forall va, 0 <= pg_index l va < 512 -> view (l :: ls) (tables s') pa va =
    if pg_index l va =? i then (if is_valid l d then Some (l, d) else None) else view (l :: ls) (tables s) pa va).
Proof.
  intros [Ht Hd] Hi Hu Hn Ha Hs. assert (Hpi : tables s' pa i = d) by (rewrite Hs; apply store_eq).
  destruct (entry_replaced l ls (tables s) (tables s') pa i (fun _ => False)) as (Ht' & Hf & Hv); try done.
  - tauto.
  - intros j Hj. rewrite Hs. apply store_ne. by right.
  - by rewrite Hpi.
  - intros t Htp _ _ j. rewrite Hs. apply store_ne. by left.
  - intros c. rewrite Hpi. congruence.
  - split; [split; [done| | |by rewrite Ha]|].
    + intros t H. destruct (Hf t H); [by left|done].
    + intros t H _ j. rewrite Hs. apply store_ne. left. intros ->. apply H. by left.
    + intros va Hr. destruct (Z.eqb_spec (pg_index l va) i) as [E|E]; [|by apply Hv].
      simpl. by rewrite E, Hpi, Hn.
Qed.

(** A step below an entry. *)
Lemma pt_step_child l ls pa s s' i c : pt_inv (l :: ls) s pa -> 0 <= i < 512 ->
  next_table_address l (tables s pa i) = Some c -> pt_step ls c s s' ->
  pt_step (l :: ls) pa s s' /\ next_table_address l (tables s' pa i) = Some c /\
  (forall va, 0 <= pg_index l va < 512 -> view (l :: ls) (tables s') pa va =
    if pg_index l va =? i then view ls (tables s') c va else view (l :: ls) (tables s) pa va).
Proof.
  intros [Ht Hd] Hi Hn [T F R Q]. pose proof Ht as (Hu & Hc & Hdis).
  assert (Hnp : ~ taken s s' pa) by (intros [H _]; apply (Hd pa); [by left|done]).
  assert (Hpa : same_table (tables s) (tables s') pa) by (apply R; [by apply (Hc i c)|done]).
  destruct (entry_replaced l ls (tables s) (tables s') pa i (taken s s')) as (Ht' & Hf & Hv); try done.
  - intros t H [H' _]. by apply (Hd t).
  - rewrite Hpa. by apply Hu.
  - intros t Htp Hb Hnt. apply R; [|done]. intros H. apply Hb. by exists c.
  - intros c'. rewrite Hpa, Hn. intros [= <-]. split; [done|]. intros t H. destruct (F t H); [left; by exists c|by right].
  - split; [split; [done|done| |done]|split; [by rewrite Hpa|]].
    + intros t H Hnt. apply R; [|done]. intros H'. apply H. by apply (foot_child l ls _ pa i c).
    + intros va Hr. destruct (Z.eqb_spec (pg_index l va) i) as [E|E]; [|by apply Hv].
      simpl. by rewrite E, Hpa, Hn.
Qed.

(** A table that links nothing further. *)
Definition flat l m (t : Z) : Prop := forall i, 0 <= i < 512 -> usize_ok (m t i) /\ next_table_address l (m t i) = None.

Lemma flat_tree l ls m t : flat l m t -> tree (l :: ls) m t /\ forall u, foot (l :: ls) m t u -> u = t.
Proof.
  intros Hf. split; [split; [intros; by apply Hf|split]|].
  - intros i c Hi Hn. by rewrite (proj2 (Hf i Hi)) in Hn.
  - intros i j c c' u Hi Hj Hij Hn. by rewrite (proj2 (Hf i Hi)) in Hn.
  - intros u [->|(i & c & Hi & Hn & _)]; [done|]. by rewrite (proj2 (Hf i Hi)) in Hn.
Qed.

(** Linking a new flat table, in place of an entry that links no table. *)
Lemma pt_step_link l next ls pa s s' i nt : pt_inv (l :: next :: ls) s pa -> 0 <= i < 512 ->
  next_table_address l (tables s pa i) = None -> taken s s' nt -> flat next (tables s') nt ->
  (forall t, pt_free (page_alloc s') t -> pt_free (page_alloc s) t) ->
  next_table_address l (tables s' pa i) = Some nt -> usize_ok (tables s' pa i) ->
  (forall t j, t <> nt -> (t, j) <> (pa, i) -> tables s' t j = tables s t j) ->
  pt_step (l :: next :: ls) pa s s' /\
  (forall va, 0 <= pg_index l va < 512 -> view (l :: next :: ls) (tables s') pa va =
    if pg_index l va =? i then view (next :: ls) (tables s') nt va else view (l :: next :: ls) (tables s) pa va).
Proof.
  intros [Ht Hd] Hi Hn Hnt Hfl Hq Hn' Hu Hs. destruct (flat_tree next ls _ nt Hfl) as [Htn Hfn].
  assert (Hne : nt <> pa) by (intros ->; apply (Hd pa); [by left|apply Hnt]).
  destruct (entry_replaced l (next :: ls) (tables s) (tables s') pa i (taken s s')) as (Ht' & Hf & Hv); try done.
  - intros t H [H' _]. by apply (Hd t).
  - intros j Hj. apply Hs; [done|]. congruence.
  - intros t Htp _ Hnn j. apply Hs; [|congruence]. intros ->. done.
  - intros c. rewrite Hn'. intros [= <-]. split; [done|]. intros t H. right. by rewrite (Hfn t H).
  - split; [split; [done|done| |done]|].
    + intros t H Hnn j. apply Hs; [intros ->; done|]. intros [= -> ->]. apply H. by left.
    + intros va Hr. destruct (Z.eqb_spec (pg_index l va) i) as [E|E]; [|by apply Hv].
      cbn [view]. by rewrite E, Hn'.
Qed.
End Steps.
