(* ===== verification/PgTlb.v ===== *)
(** * Break before make

    [update_descriptor] (libkernel/src/memory/paging/walk.rs) tells the TLB invalidator
    about every change of a translation.  Here its log is run against a TLB that may load
    any valid entry at any time and loses its entries only when it is told to: it never
    holds two translations for the same entry, and after the update it holds only entries
    that are in the tables. *)
From stdpp Require Import base list.
From S2P Require Import Prelude Error Address Region Vma PgDesc PgTables PgInv.
Local Open Scope Z_scope.

Section Tlb.
Context (valid : Z -> bool) (invalid_not : valid INVALID = false).

(** The entries the TLB holds: table, index and value. *)
Notation Tlb := (Z -> Z -> Z -> Prop).

Definition event_mem (e : TlbEvent) (m : mem) : mem := match e with EvStore t i r => store_entry m t i r | _ => m end.
Definition event_tlb (e : TlbEvent) (T : Tlb) : Tlb := match e with EvInvalidate _ => fun _ _ _ => False | _ => T end.

(** The events, with loads of the TLB in between. *)
Inductive tlb_steps : mem -> Tlb -> list TlbEvent -> mem -> Tlb -> Prop :=
| tlb_done m T : tlb_steps m T [] m T
| tlb_load m T t i evs m' T' : valid (m t i) = true ->
    tlb_steps m (fun t' i' r => T t' i' r \/ (t' = t /\ i' = i /\ r = m t i)) evs m' T' -> tlb_steps m T evs m' T'
| tlb_event m T e evs m' T' : tlb_steps (event_mem e m) (event_tlb e T) evs m' T' -> tlb_steps m T (e :: evs) m' T'.

Definition no_conflict (T : Tlb) : Prop := forall t i r r', T t i r -> T t i r' -> r = r'.
Definition coherent (m : mem) (T : Tlb) : Prop := forall t i r, T t i r -> r = m t i /\ valid r = true.

(** While an entry is being replaced the TLB may still have its old value [x]. *)
Definition coherent_but (x : option (Z * Z * Z)) (m : mem) (T : Tlb) : Prop :=
  forall t i r, T t i r -> (r = m t i /\ valid r = true) \/ (x = Some (t, i, r) /\ m t i = INVALID).

(** Sequences of events that break before they make. *)
Inductive bbm : mem -> option (Z * Z * Z) -> list TlbEvent -> mem -> Prop :=
| bbm_done m m' : (forall t i, m' t i = m t i) -> bbm m None [] m'
| bbm_prepare m x c evs m' : bbm m x evs m' -> bbm m x (EvPrepare c :: evs) m'
| bbm_publish m x c evs m' : bbm m x evs m' -> bbm m x (EvPublish c :: evs) m'
| bbm_break m t i evs m' : bbm (store_entry m t i INVALID) (Some (t, i, m t i)) evs m' -> bbm m None (EvStore t i INVALID :: evs) m'
| bbm_flush m x c evs m' : bbm m None evs m' -> bbm m x (EvInvalidate c :: evs) m'
| bbm_make m t i r evs m' : valid (m t i) = false -> bbm (store_entry m t i r) None evs m' -> bbm m None (EvStore t i r :: evs) m'.

Lemma coherent_but_conflict x m T : coherent_but x m T -> no_conflict T.
Proof.
  intros H t i r r' H1 H2. destruct (H t i r H1) as [[-> V1]|[E1 I1]], (H t i r' H2) as [[-> V2]|[E2 I2]]; try congruence.
Qed.

Lemma coherent_but_load x m T t i : coherent_but x m T -> valid (m t i) = true ->
  coherent_but x m (fun t' i' r => T t' i' r \/ (t' = t /\ i' = i /\ r = m t i)).
Proof. intros H V t' i' r [Hr|(-> & -> & ->)]; [by apply H|by left]. Qed.

Lemma coherent_event m x e evs m' T : bbm m x (e :: evs) m' -> coherent_but x m T ->
  exists x', bbm (event_mem e m) x' evs m' /\ coherent_but x' (event_mem e m) (event_tlb e T).
Proof.
  inversion 1; subst; simpl; intros Hc; eauto.
  - exists (Some (t, i, m t i)). split; [done|]. intros t' i' r Hr. destruct (Hc t' i' r Hr) as [[-> V]|[? _]]; [|done].
    unfold store_entry. destruct (Z.eqb_spec t' t) as [->|]; [|by left]. destruct (Z.eqb_spec i' i) as [->|]; [by right|by left].
  - exists None. split; [done|]. by intros ? ? ? [].
  - exists None. split; [done|]. intros t' i' r' Hr. destruct (Hc t' i' r' Hr) as [[-> V]|[? _]]; [|done]. left.
    rewrite store_ne; [done|]. destruct (decide (t' = t)) as [->|]; [|by left]. right. intros ->. congruence.
Qed.

(** At every point of the run there is no conflict, and at the end no stale entry. *)
Lemma bbm_run m x evs m' : bbm m x evs m' -> forall pre post T m1 T1, evs = pre ++ post -> coherent_but x m T ->
  tlb_steps m T pre m1 T1 -> exists x1, bbm m1 x1 post m' /\ coherent_but x1 m1 T1.
Proof.
  intros Hb pre post T m1 T1 -> Hc Hs. revert x m' Hb Hc. induction Hs as [m T|m T t i evs m1 T1 V Hs IH|m T e evs m1 T1 Hs IH]; intros x m' Hb Hc.
  - by exists x.
  - apply (IH x m' Hb). by apply coherent_but_load.
  - destruct (coherent_event m x e (evs ++ post) m' T Hb Hc) as (x' & Hb' & Hc'). by apply (IH x' m').
Qed.

Lemma bbm_proper m1 m2 x evs m' : bbm m1 x evs m' -> (forall t i, m2 t i = m1 t i) -> bbm m2 x evs m'.
Proof.
  intros H. revert m2. induction H as [m m' He|m x c evs m' H IH|m x c evs m' H IH|m t i evs m' H IH|m x c evs m' H IH|m t i r evs m' V H IH]; intros m2 Hm.
  - constructor. intros. by rewrite He, Hm.
  - constructor. by apply IH.
  - constructor. by apply IH.
  - constructor. rewrite Hm. apply IH. intros t' i'. unfold store_entry. by rewrite Hm.
  - constructor. by apply IH.
  - apply bbm_make; [by rewrite Hm|]. apply IH. intros t' i'. unfold store_entry. by rewrite Hm.
Qed.

Lemma bbm_app m evs m1 evs' m2 x : bbm m x evs m1 -> bbm m1 None evs' m2 -> bbm m x (evs ++ evs') m2.
Proof. intros H H'. induction H; simpl; eauto using bbm. by apply (bbm_proper m'). Qed.

Section Updates.
Context {MT AT A : Type}.
Notation Level := (Level MT AT).
Notation St := (PtState A).

(** A call of [update_descriptor] with an invalidator. *)
Record Update := mkUpdate { up_level : Level; up_table : Z; up_idx : Z; up_va : Z; up_desc : Z }.

Definition run_update (u : Update) (s : St) : outcome St :=
  update_descriptor (up_level u) s (up_table u) (up_idx u) (up_va u) (up_desc u) true.
Fixpoint run_updates (us : list Update) (s : St) : outcome St :=
  match us with [] => Return s | u :: us => let! s := run_update u s in run_updates us s end.

Definition update_ok (u : Update) : Prop := 0 <= MAP_SHIFT (up_level u) < 64 /\ forall d, is_valid (up_level u) d = valid d.

Lemma update_bbm u s : update_ok u -> exists s' evs, run_update u s = Return s' /\ tlb_log s' = tlb_log s ++ evs /\
  bbm (tables s) None evs (tables s').
Proof.
  intros [Hs Hv]. unfold run_update, update_descriptor. destruct (Z.eqb_spec (tables s (up_table u) (up_idx u)) (up_desc u)) as [E|E].
  { exists s, []. rewrite app_nil_r. split; [done|]. split; [done|]. by constructor. }
  unfold align. rewrite ushl_1 by lia. unfold is_power_of_two.
  rewrite Z.log2_pow2, Z.eqb_refl, andb_true_r by lia.
  rewrite (proj2 (Z.ltb_lt 0 (2 ^ MAP_SHIFT (up_level u))) ltac:(apply Z.pow_pos_nonneg; lia)). cbn [obind hook].
  rewrite Hv. destruct (valid (tables s (up_table u) (up_idx u))) eqn:Ev.
  - eexists _, _. split; [done|]. cbn [tlb_log tables]. split; [by rewrite <- !app_assoc|]. cbn [app].
    do 3 constructor. apply bbm_make; [by rewrite store_eq|]. do 2 constructor. intros t i. unfold store_entry. by destruct (_ && _).
  - eexists _, _. split; [done|]. cbn [tlb_log tables]. split; [by rewrite <- !app_assoc|]. cbn [app].
    constructor. apply bbm_make; [done|]. by do 2 constructor.
Qed.

Lemma updates_bbm us s : Forall update_ok us -> exists s' evs, run_updates us s = Return s' /\ tlb_log s' = tlb_log s ++ evs /\
  bbm (tables s) None evs (tables s').
Proof.
  intros Hus. revert s. induction Hus as [|u us Hu Hus IH]; intros s; cbn [run_updates].
  { exists s, []. rewrite app_nil_r. split; [done|]. split; [done|]. by constructor. }
  destruct (update_bbm u s Hu) as (s1 & e1 & -> & Hl1 & Hb1). destruct (IH s1) as (s' & e2 & Hr & Hl2 & Hb2). cbn [obind].
  exists s', (e1 ++ e2). split; [done|]. split; [by rewrite Hl2, Hl1, app_assoc|]. by eapply bbm_app.
Qed.

(** C22: break before make.  Whatever entries are changed, with the TLB loading valid
    entries at any moment in between: at no point does the TLB hold two different values
    for the same entry, and once the updates are done every value it holds is the one in
    the tables. *)
Theorem updates_break_before_make us s T : Forall update_ok us -> coherent (tables s) T ->
  exists s' evs, run_updates us s = Return s' /\ tlb_log s' = tlb_log s ++ evs /\
    (forall pre post m1 T1, evs = pre ++ post -> tlb_steps (tables s) T pre m1 T1 -> no_conflict T1) /\
    (forall m1 T1, tlb_steps (tables s) T evs m1 T1 -> coherent (tables s') T1).
Proof.
  intros Hus Hc. destruct (updates_bbm us s Hus) as (s' & evs & Hr & Hl & Hb). exists s', evs. split; [done|]. split; [done|].
  assert (Hc' : coherent_but None (tables s) T) by (intros t i r HT; left; by apply Hc). split.
  - intros pre post m1 T1 He Hs. destruct (bbm_run _ _ _ _ Hb pre post T m1 T1 He Hc' Hs) as (x1 & _ & Hx). by eapply coherent_but_conflict.
  - intros m1 T1 Hs. destruct (bbm_run _ _ _ _ Hb evs [] T m1 T1 ltac:(by rewrite app_nil_r) Hc' Hs) as (x1 & Hb1 & Hx).
    inversion Hb1 as [? ? Hm| | | | |]; subst. intros t i r HT. destruct (Hx t i r HT) as [[-> V]|[? _]]; [|done]. by rewrite Hm.
Qed.
End Updates.
End Tlb.

(** A page that is mapped, given other permissions and unmapped. *)
Definition demo_updates : list (Update (MT := ArmMemoryType) (AT := Z)) :=
  [mkUpdate L3Descriptor 0 1 4096 0x7003; mkUpdate L3Descriptor 0 1 4096 0x7083; mkUpdate L3Descriptor 0 1 4096 0].

Lemma updates_break_before_make_witness : exists s' evs,
  run_updates demo_updates (mkPt (fun _ _ => 0) [] tt) = Return s' /\ tlb_log s' = evs /\
  forall m1 T1, tlb_steps arm_is_valid (fun _ _ => 0) (fun _ _ _ => False) evs m1 T1 -> coherent arm_is_valid (tables s') T1.
Proof.
  destruct (updates_break_before_make arm_is_valid eq_refl demo_updates (mkPt (fun _ _ => 0) [] tt) (fun _ _ _ => False)) as (s' & evs & Hr & Hl & _ & Hc).
  - repeat constructor; simpl; lia.
  - intros t i r [].
  - exists s', evs. split; [exact Hr|]. split; [exact Hl|]. exact Hc.
Defined.
