(* ===== verification/PgMap.v ===== *)
(** * Mapping

    What [map_range] of PgTables does, for any hierarchy of levels that satisfies [hier]
    of PgDesc, so for both architectures. *)
From stdpp Require Import base list.
From S2P Require Import Prelude Error Address Region Vma PgDesc PgTables PgInv.
Local Open Scope Z_scope.

Section Map.
Context {MT AT A : Type} (allocate : A -> result Z * A) `{L : PageAllocLaws A allocate}.
Context (pab : Z) (attr_ok : AT -> Prop) (attr_perms : AT -> PtePermissions)
  (pview : Level MT AT -> PtePermissions -> option PtePermissions).
Notation Level := (Level MT AT).
Notation St := (PtState A).
Notation hier := (hier pab attr_ok attr_perms pview).
Implicit Types (l : Level) (ls : list Level) (s : St).

Lemma hier_laws l ls : hier (l :: ls) -> LevelLaws l.
Proof. by inversion 1. Qed.

Lemma hier_index l ls va : hier (l :: ls) -> 0 <= pg_index l va < 512.
Proof. intros H%hier_laws. apply pg_index_range. pose proof (ll_shift l H). lia. Qed.

Lemma pt_inv_child l ls s pa i c : pt_inv allocate (l :: ls) s pa -> 0 <= i < 512 ->
  next_table_address l (tables s pa i) = Some c -> pt_inv allocate ls s c.
Proof.
  intros [(_ & Hc & _) Hd] Hi Hn. split; [by apply (Hc i c)|]. intros t Ht. apply Hd.
  by apply (foot_child l ls _ pa i c).
Qed.

(** The error came from the page allocator. *)
Definition alloc_error (e : KernelError) : Prop := exists a, (allocate a).1 = Err e.

Lemma view_invalid l ls s pa va : LevelLaws l -> next_table_address l (tables s pa (pg_index l va)) = None ->
  is_valid l (tables s pa (pg_index l va)) = false -> view (l :: ls) (tables s) pa va = None.
Proof. intros _ Hn Hv. simpl. by rewrite Hn, Hv. Qed.

Lemma map_at_level_spec l next ls table va s : hier (l :: next :: ls) -> pt_inv allocate (l :: next :: ls) s table ->
  exists r s', map_at_level allocate l table va s = Return (r, s') /\ pt_step allocate (l :: next :: ls) table s s' /\
    (forall va', view (l :: next :: ls) (tables s') table va' = view (l :: next :: ls) (tables s) table va') /\
    match r with
    | Ok c => next_table_address l (tables s' table (pg_index l va)) = Some c
    | Err e => alloc_error e \/ e = MappingError AlreadyMapped /\ view (l :: next :: ls) (tables s) table va <> None
    end.
Proof.
  intros Hh Hi. inversion Hh as [|? ? ? Ll Lk Hsh Hml Hh']; subst. pose proof (hier_laws _ _ Hh') as Ln.
  pose proof (hier_index _ _ va Hh) as Hidx. unfold map_at_level, get_desc.
  set (i := pg_index l va) in *. destruct (next_table_address l (tables s table i)) as [c|] eqn:En.
  { exists (Ok c), s. split; [done|]. split; [apply pt_step_refl, Hi|]. by split. }
  destruct (is_valid l (tables s table i)) eqn:Ev.
  { exists (Err (MappingError AlreadyMapped)), s. split; [done|]. split; [apply pt_step_refl, Hi|]. split; [done|].
    right. split; [done|]. simpl. fold i. by rewrite En, Ev. }
  unfold alloc_table. destruct (allocate (page_alloc s)) as [r a'] eqn:Ea. destruct r as [nt|e]; cbv beta iota zeta; cbn [tables tlb_log page_alloc].
  2: { eexists (Err e), _. split; [reflexivity|].
       destruct (pt_step_same allocate (l :: next :: ls) table s (mkPt (tables s) (tlb_log s) a')) as [Hst Hvw];
         [apply Hi|done|apply (pt_alloc_err _ _ _ Ea)|].
       split; [done|]. split; [done|]. left. exists (page_alloc s). by rewrite Ea. }
  destruct (pt_alloc_ok _ _ _ Ea) as (Hf & Hnf & Htok & Hmono). destruct (Lk nt Htok) as [Hlk Hlu].
  set (s1 := mkPt (zero_table (tables s) nt) (tlb_log s) a').
  destruct (set_desc_spec l s1 table va (new_next_table l nt) true) as (s' & -> & Ha' & Hs');
    [pose proof (ll_shift l Ll); lia|]. fold i in Hs'. ostep.
  assert (Hne : nt <> table) by (intros ->; apply (proj2 Hi table); [by left|done]).
  assert (Htab : forall t j, t <> nt -> (t, j) <> (table, i) -> tables s' t j = tables s t j).
  { intros t j Ht Hj. rewrite Hs', store_ne by (destruct (decide (t = table)) as [->|]; [right; congruence|by left]).
    simpl. unfold zero_table. by destruct (Z.eqb_spec t nt). }
  assert (Hzero : forall j, tables s' nt j = 0).
  { intros j. rewrite Hs', store_ne by (left; congruence). simpl. unfold zero_table. by rewrite Z.eqb_refl. }
  assert (Hent : tables s' table i = new_next_table l nt) by (rewrite Hs'; apply store_eq).
  destruct (ll_invalid next Ln) as [Hz1 Hz2]. unfold INVALID in *.
  destruct (pt_step_link allocate l next ls table s s' i nt) as [Hst Hvw]; try done.
  - split; [done|]. by rewrite Ha'.
  - intros j Hj. rewrite Hzero. split; [unfold usize_ok; lia|done].
  - by rewrite Ha'.
  - by rewrite Hent.
  - by rewrite Hent.
  - eexists (Ok nt), s'. split; [done|]. split; [done|]. split; [|by rewrite Hent].
    intros va'. rewrite Hvw by (by apply (hier_index l (next :: ls))).
    destruct (Z.eqb_spec (pg_index l va') i) as [E|E]; [|done].
    simpl. rewrite Hzero, Hz2, Hz1. fold i in E. by rewrite E, En, Ev.
Qed.

(** The physical region of a mapping, with room for what is left to map. *)
Definition phys_region_ok (r : MemoryRegion) : Prop :=
  0 <= start_address r /\ 0 <= rsize r /\ start_address r + rsize r <= 2 ^ pab.

Lemma could_map_spec l r va : LevelLaws l -> could_map l r va = true ->
  start_address r mod 2 ^ MAP_SHIFT l = 0 /\ va mod 2 ^ MAP_SHIFT l = 0 /\ 2 ^ MAP_SHIFT l <= rsize r.
Proof.
  intros Ll. unfold could_map, is_aligned_to. pose proof (ll_shift l Ll).
  rewrite !aligned_test, ushl_1 by lia. intros H'. breflect. done.
Qed.

Lemma try_map_pa_spec l ls table va attrs s : hier (l :: ls) -> MapLaws pab attr_ok attr_perms (pview l) l ->
  pt_inv allocate (l :: ls) s table -> phys_region_ok (ma_phys attrs) ->
  exists r s', try_map_pa l table va (ma_phys attrs) attrs s = Return (r, s') /\
    pt_step allocate (l :: ls) table s s' /\
    match r with
    | Ok None => could_map l (ma_phys attrs) va = false /\ s' = s
    | Ok (Some n) => could_map l (ma_phys attrs) va = true /\ n = 2 ^ (MAP_SHIFT l - 12) /\
        is_valid l (tables s table (pg_index l va)) = false /\
        exists d, new_map_pa l (start_address (ma_phys attrs)) (ma_mem_type attrs) (ma_perms attrs) = Return d /\
          forall va', view (l :: ls) (tables s') table va' =
            if pg_index l va' =? pg_index l va then Some (l, d) else view (l :: ls) (tables s) table va'
    | Err e => e = MappingError AlreadyMapped /\ s' = s /\ could_map l (ma_phys attrs) va = true /\
        is_valid l (tables s table (pg_index l va)) = true
    end.
Proof.
  intros Hh Hml Hi (Hp0 & Hp1 & Hp2). pose proof (hier_laws _ _ Hh) as Ll. pose proof (ll_shift l Ll) as Hsh.
  unfold try_map_pa, get_desc. destruct (could_map l (ma_phys attrs) va) eqn:Ec.
  2: { exists (Ok None), s. split; [done|]. split; [apply pt_step_refl, Hi|done]. }
  destruct (could_map_spec l _ va Ll Ec) as (Hpa & Hva & Hsz).
  destruct (is_valid l (tables s table (pg_index l va))) eqn:Ev.
  { exists (Err (MappingError AlreadyMapped)), s. split; [done|]. split; [apply pt_step_refl, Hi|done]. }
  destruct (ml_new_map_pa _ _ _ _ l Hml (start_address (ma_phys attrs)) (ma_mem_type attrs) (ma_perms attrs))
    as (d & Hd & Hu & Hv & Hn & _ & _).
  { split; [|done]. pose proof (Z.pow_pos_nonneg 2 (MAP_SHIFT l)). lia. }
  rewrite Hd. ostep. destruct (set_desc_spec l s table va d false) as (s' & -> & Ha & Hs'); [lia|]. ostep.
  destruct (pt_step_store allocate l ls table s s' (pg_index l va) d) as [Hst Hvw]; try done;
    [by apply (hier_index l ls)|].
  eexists (Ok (Some _)), s'. split; [reflexivity|]. split; [done|]. split; [done|].
  split; [rewrite ushl_1 by lia; done|]. split; [done|]. exists d. split; [done|].
  intros va'. rewrite Hvw by (by apply (hier_index l ls)). by rewrite Hv.
Qed.

Lemma div_coarser a b k j : 0 <= k <= j -> a / 2 ^ k = b / 2 ^ k -> a / 2 ^ j = b / 2 ^ j.
Proof.
  intros Hk He. replace j with (k + (j - k)) by lia. rewrite Z.pow_add_r, <- !Z.div_div by lia. by rewrite He.
Qed.

Lemma hier_shift l ls l' : hier (l :: ls) -> l' ∈ ls -> 12 <= MAP_SHIFT l' /\ MAP_SHIFT l' + 9 <= MAP_SHIFT l.
Proof.
  revert l. induction ls as [|l2 ls IH]; intros l Hh Hin; [by apply not_elem_of_nil in Hin|].
  inversion Hh as [|? ? ? Ll Lk Hsh Hml Hh']; subst. pose proof (ll_shift _ (hier_laws _ _ Hh')).
  apply elem_of_cons in Hin as [->|Hin]; [lia|]. destruct (IH l2 Hh' Hin). lia.
Qed.

(** The levels below [up] at which the rest of the region could be mapped as a block. *)
Definition block_level (ls : list Level) (attrs : MapAttributes MT) (va : Z) : Prop :=
  exists l, l ∈ ls /\ MAP_SHIFT l <> 12 /\ could_map l (ma_phys attrs) va = true.

(** The result of a round: either one entry of level [l] maps the window of [va], or
    nothing changed. *)
Definition round_post (up : Level) (ls : list Level) (table va : Z) (attrs : MapAttributes MT) s (r : result Z) s' : Prop :=
  match r with
  | Ok n => exists l d, l ∈ ls /\ could_map l (ma_phys attrs) va = true /\ n = 2 ^ (MAP_SHIFT l - 12) /\
      new_map_pa l (start_address (ma_phys attrs)) (ma_mem_type attrs) (ma_perms attrs) = Return d /\
      MapLaws pab attr_ok attr_perms (pview l) l /\
      forall va', va' / 2 ^ (MAP_SHIFT up + 9) = va / 2 ^ (MAP_SHIFT up + 9) ->
        (va' / 2 ^ MAP_SHIFT l = va / 2 ^ MAP_SHIFT l ->
          view (up :: ls) (tables s) table va' = None /\ view (up :: ls) (tables s') table va' = Some (l, d)) /\
        (va' / 2 ^ MAP_SHIFT l <> va / 2 ^ MAP_SHIFT l ->
          view (up :: ls) (tables s') table va' = view (up :: ls) (tables s) table va')
  | Err e =>
      (forall va', view (up :: ls) (tables s') table va' = view (up :: ls) (tables s) table va') /\
      (alloc_error e \/ e = MappingError AlreadyMapped /\
        (view (up :: ls) (tables s) table va <> None \/ block_level ls attrs va))
  end.

(** Lifting the result of the level below. *)
Lemma round_lift up l ls table c va attrs s s1 r s' : hier (up :: l :: ls) -> pt_inv allocate (up :: l :: ls) s1 table ->
  (forall va', view (up :: l :: ls) (tables s1) table va' = view (up :: l :: ls) (tables s) table va') ->
  next_table_address up (tables s1 table (pg_index up va)) = Some c ->
  pt_step allocate (l :: ls) c s1 s' -> ls <> [] -> round_post l ls c va attrs s1 r s' ->
  pt_step allocate (up :: l :: ls) table s1 s' /\ round_post up (l :: ls) table va attrs s r s'.
Proof.
  intros Hh Hi Hv1 Hn Hst _ Hp. inversion Hh as [|? ? ? Ll Lk Hsh Hml Hh']; subst.
  pose proof (hier_index up (l :: ls) va Hh) as Hidx. pose proof (ll_shift _ Ll) as Hus.
  destruct (pt_step_child allocate up (l :: ls) table s1 s' (pg_index up va) c Hi Hidx Hn Hst) as (Hst' & _ & Hvw).
  split; [done|].
  assert (Hup : forall va', view (up :: l :: ls) (tables s') table va' =
    if pg_index up va' =? pg_index up va then view (l :: ls) (tables s') c va' else view (up :: l :: ls) (tables s) table va').
  { intros va'. rewrite Hvw by (by apply (hier_index up (l :: ls))). by rewrite Hv1. }
  assert (Hold : forall va', pg_index up va' = pg_index up va ->
    view (up :: l :: ls) (tables s) table va' = view (l :: ls) (tables s1) c va').
  { intros va' E. rewrite <- Hv1. cbn [view]. by rewrite E, Hn. }
  destruct r as [n|e]; simpl in *.
  - destruct Hp as (l' & d & Hin & Hcm & Hn' & Hd & Hml' & Hpost). exists l', d.
    split; [by right|]. do 4 (split; [done|]). intros va' Hw. destruct (hier_shift l ls l' Hh' Hin) as [Hs12 Hs9].
    split; intros Hq.
    + assert (E : pg_index up va' = pg_index up va) by (apply window_split; [lia|done|apply (div_coarser _ _ (MAP_SHIFT l')); done || lia]).
      rewrite Hup, Hold, E, Z.eqb_refl by done. apply Hpost; [|done]. rewrite <- Hsh. apply (div_coarser _ _ (MAP_SHIFT l')); done || lia.
    + rewrite Hup. destruct (Z.eqb_spec (pg_index up va') (pg_index up va)) as [E|E]; [|done].
      rewrite Hold by done. apply Hpost; [|done]. rewrite <- Hsh. apply (window_split up); [lia|done|done].
  - destruct Hp as (Hsame & He). split.
    + intros va'. rewrite Hup. destruct (Z.eqb_spec (pg_index up va') (pg_index up va)) as [E|E]; [|done].
      by rewrite Hsame, Hold.
    + destruct He as [He|(-> & He)]; [by left|right]. split; [done|]. rewrite Hold by done.
      destruct He as [He|(l' & Hin & H1 & H2)]; [by left|right]. exists l'. split; [by right|done].
Qed.

(** What has to hold of a region that is mapped page by page. *)
Definition round_pre (attrs : MapAttributes MT) (va : Z) : Prop :=
  phys_region_ok (ma_phys attrs) /\ va mod PAGE_SIZE = 0 /\ start_address (ma_phys attrs) mod PAGE_SIZE = 0 /\
  PAGE_SIZE <= rsize (ma_phys attrs).

(** Mapping at the level below [up]. *)
Lemma round_here up l ls table c va attrs s s1 d s2 : hier (up :: l :: ls) -> pt_inv allocate (up :: l :: ls) s1 table ->
  (forall va', view (up :: l :: ls) (tables s1) table va' = view (up :: l :: ls) (tables s) table va') ->
  next_table_address up (tables s1 table (pg_index up va)) = Some c -> pt_step allocate (l :: ls) c s1 s2 ->
  could_map l (ma_phys attrs) va = true -> is_valid l (tables s1 c (pg_index l va)) = false ->
  new_map_pa l (start_address (ma_phys attrs)) (ma_mem_type attrs) (ma_perms attrs) = Return d ->
  (forall va', view (l :: ls) (tables s2) c va' =
    if pg_index l va' =? pg_index l va then Some (l, d) else view (l :: ls) (tables s1) c va') ->
  pt_step allocate (up :: l :: ls) table s1 s2 /\
  round_post up (l :: ls) table va attrs s (Ok (2 ^ (MAP_SHIFT l - 12))) s2.
Proof.
  intros Hh Hi Hv1 Hn Hst Hcm Hinv Hd Hv2. inversion Hh as [|? ? ? Ll Lk Hsh Hml Hh']; subst.
  pose proof (hier_index up (l :: ls) va Hh) as Hidx. pose proof (ll_shift _ Ll) as Hus. pose proof (hier_laws _ _ Hh') as Ln.
  destruct (pt_step_child allocate up (l :: ls) table s1 s2 (pg_index up va) c Hi Hidx Hn Hst) as (Hst' & _ & Hvw).
  split; [done|]. exists l, d. split; [by left|]. do 4 (split; [done|]). intros va' Hw.
  rewrite Hvw by (by apply (hier_index up (l :: ls))). rewrite Hv1, Hv2. pose proof (ll_shift _ Ln) as Hls. split; intros Hq.
  - assert (E : pg_index up va' = pg_index up va) by (apply window_split; [lia|done|apply (div_coarser _ _ (MAP_SHIFT l)); done || lia]).
    assert (E' : pg_index l va' = pg_index l va) by (rewrite !pg_index_eq by lia; by rewrite Hq).
    rewrite E, E', !Z.eqb_refl. split; [|done]. rewrite <- Hv1. cbn [view]. rewrite E, Hn, E', Hinv.
    destruct (next_table_address l (tables s1 c (pg_index l va))) eqn:En; [|done].
    by rewrite (ll_next_valid l Ln _ _ En) in Hinv.
  - destruct (Z.eqb_spec (pg_index up va') (pg_index up va)) as [E|E]; [|done].
    destruct (Z.eqb_spec (pg_index l va') (pg_index l va)) as [E'|E'].
    + exfalso. apply Hq. apply (window_split l); [lia| |done]. rewrite <- Hsh. by apply (window_split up); [lia| |].
    + rewrite <- Hv1. cbn [view]. by rewrite E, Hn.
Qed.

Lemma map_round_spec up ls table va attrs s : hier (up :: ls) -> ls <> [] -> pt_inv allocate (up :: ls) s table ->
  round_pre attrs va ->
  exists r s', map_round allocate up ls table va attrs s = Return (r, s') /\ pt_step allocate (up :: ls) table s s' /\
    round_post up ls table va attrs s r s'.
Proof.
  revert up table s. induction ls as [|l ls IH]; intros up table s Hh Hne Hi Hpre; [done|].
  pose proof Hpre as (Hph & Hva & Hpa & Hsz). inversion Hh as [|? ? ? Ll Lk Hsh Hml Hh']; subst. cbn [map_round].
  destruct (map_at_level_spec up l ls table va s Hh Hi) as (r & s1 & -> & Hst1 & Hv1 & Hr).
  pose proof (pt_step_inv _ _ _ _ _ Hi Hst1) as Hi1.
  destruct r as [c|e]; cbn [tbind].
  2: { exists (Err e), s1. split; [done|]. split; [done|]. split; [done|]. destruct Hr as [Hr|[-> Hr]]; [by left|right].
       split; [done|by left]. }
  assert (Hic : pt_inv allocate (l :: ls) s1 c).
  { eapply pt_inv_child; [exact Hi1| |exact Hr]. by apply (hier_index up (l :: ls)). }
  destruct (try_map_pa_spec l ls c va attrs s1 Hh' Hml Hic Hph) as (r2 & s2 & -> & Hst2 & Hr2).
  destruct r2 as [[n|]|e]; cbn [tbind].
  - destruct Hr2 as (Hcm & -> & Hinv & d & Hd & Hv2).
    destruct (round_here up l ls table c va attrs s s1 d s2) as [Hst Hp]; try done.
    assert (Hret : exists r s', (match ls with [] => Return (Ok 1, s2) | _ :: _ => Return (Ok (2 ^ (MAP_SHIFT l - 12)), s2) end) = Return (r, s')
      /\ r = Ok (2 ^ (MAP_SHIFT l - 12)) /\ s' = s2).
    { destruct ls; [|eauto]. inversion Hh' as [? ? Hs ?|]; subst. rewrite Hs. eauto. }
    destruct Hret as (r & s' & -> & -> & ->). eexists _, _. split; [done|].
    split; [by eapply pt_step_trans|done].
  - destruct Hr2 as (Hcm & ->). destruct ls as [|l2 ls].
    { exfalso. inversion Hh' as [? Ln Hs ?|]; subst. unfold could_map, is_aligned_to in Hcm.
      rewrite !aligned_test, ushl_1, Hs in Hcm by lia. change (2 ^ 12) with PAGE_SIZE in Hcm.
      rewrite Hva, Hpa in Hcm. simpl in Hcm. breflect. lia. }
    destruct (IH l c s1 Hh' ltac:(done) Hic Hpre) as (r & s' & -> & Hst & Hp).
    destruct (round_lift up l (l2 :: ls) table c va attrs s s1 r s' Hh Hi1 Hv1 Hr Hst ltac:(done) Hp) as [Hst' Hp'].
    exists r, s'. split; [done|]. split; [by eapply pt_step_trans|done].
  - destruct Hr2 as (-> & -> & Hcm & Hval). eexists (Err _), s1. split; [done|]. split; [done|]. split; [done|].
    right. split; [done|]. destruct (decide (MAP_SHIFT l = 12)) as [E12|].
    + left. rewrite <- Hv1. cbn [view]. rewrite Hr. inversion Hh' as [? ? ? Hno|? l2 ? ? ? Hs]; subst.
      * cbn [view]. by rewrite Hno, Hval.
      * exfalso. assert (Hl2 : l2 ∈ l2 :: ls0) by by left. destruct (hier_shift l (l2 :: ls0) l2 Hh' Hl2). lia.
    + right. exists l. split; [by left|done].
Qed.

(** ** The whole range *)

Context (root : Level) (ls : list Level).
Hypothesis Hhier : hier (root :: ls).
Hypothesis Hls : ls <> [].
Hypothesis Hroot : MAP_SHIFT root = 39.
Hypothesis Hpab : pab <= 63.

(** [va] is mapped as [attrs] says. *)
Definition mapped_as (attrs : MapAttributes MT) s (table va : Z) : Prop :=
  exists l d b, view (root :: ls) (tables s) table va = Some (l, d) /\ mapped_address l d = Some b /\
    b + va mod 2 ^ MAP_SHIFT l = start_address (ma_phys attrs) + (va - start_address (ma_virt attrs)) /\
    permissions l d = pview l (ma_perms attrs) /\ 2 ^ MAP_SHIFT l <= rsize (ma_virt attrs).

(** The regions of a mapping in the lower half, in pages. *)
Definition attrs_ok (attrs : MapAttributes MT) : Prop :=
  rsize (ma_phys attrs) = rsize (ma_virt attrs) /\ 0 <= rsize (ma_virt attrs) /\ rsize (ma_virt attrs) mod PAGE_SIZE = 0 /\
  0 <= start_address (ma_virt attrs) /\ start_address (ma_virt attrs) mod PAGE_SIZE = 0 /\
  start_address (ma_virt attrs) + rsize (ma_virt attrs) <= 2 ^ 48 /\
  0 <= start_address (ma_phys attrs) /\ start_address (ma_phys attrs) mod PAGE_SIZE = 0 /\
  start_address (ma_phys attrs) + rsize (ma_phys attrs) <= 2 ^ pab.

Definition in_virt (attrs : MapAttributes MT) (va : Z) : Prop :=
  start_address (ma_virt attrs) <= va < start_address (ma_virt attrs) + rsize (ma_virt attrs).

Lemma pow_page k : 12 <= k -> 2 ^ (k - 12) * PAGE_SIZE = 2 ^ k.
Proof. intros Hk. change PAGE_SIZE with (2 ^ 12). rewrite <- Z.pow_add_r by lia. f_equal. lia. Qed.

Lemma advance_ok attrs k : attrs_ok attrs -> 12 <= k <= 39 -> 2 ^ k <= rsize (ma_virt attrs) ->
  attrs_ok (advance attrs (2 ^ (k - 12))) /\
  ma_virt (advance attrs (2 ^ (k - 12))) = mkRegion (start_address (ma_virt attrs) + 2 ^ k) (rsize (ma_virt attrs) - 2 ^ k) /\
  ma_phys (advance attrs (2 ^ (k - 12))) = mkRegion (start_address (ma_phys attrs) + 2 ^ k) (rsize (ma_phys attrs) - 2 ^ k).
Proof.
  intros (H1 & H2 & H3 & H4 & H5 & H6 & H7 & H8 & H9) Hk Hle.
  assert (Ho : ushl (2 ^ (k - 12)) PAGE_SHIFT = 2 ^ k).
  { unfold ushl. rewrite Z.shiftl_mul_pow2 by (unfold PAGE_SHIFT; lia). change (2 ^ PAGE_SHIFT) with PAGE_SIZE.
    rewrite pow_page by lia. apply wrap_small. split; [apply Z.pow_nonneg; lia|apply Z.pow_lt_mono_r; lia]. }
  assert (Hp : 2 ^ pab <= 2 ^ 63) by (destruct (Z.le_gt_cases 0 pab); [apply Z.pow_le_mono_r; lia|rewrite (Z.pow_neg_r 2 pab) by lia; lia]).
  assert (Hm : 2 ^ k mod PAGE_SIZE = 0) by (rewrite <- (pow_page k) by lia; apply Z.mod_mul; unfold PAGE_SIZE; lia).
  assert (Hadd : forall x, x mod PAGE_SIZE = 0 -> (x + 2 ^ k) mod PAGE_SIZE = 0).
  { intros x Hx. rewrite Z.add_mod, Hx, Hm by (unfold PAGE_SIZE; lia). done. }
  assert (Hsub : forall x, x mod PAGE_SIZE = 0 -> (x - 2 ^ k) mod PAGE_SIZE = 0).
  { intros x Hx. rewrite Zminus_mod, Hx, Hm. done. }
  assert (0 < 2 ^ k) by (apply Z.pow_pos_nonneg; lia).
  unfold advance, attrs_ok, region_add_pages. rewrite Ho. simpl. unfold saturating_sub.
  rewrite !uadd_small, !Z.max_r by lia. simpl. repeat split; try done; try lia; auto.
Qed.

(** A round maps the beginning of the region. *)
Lemma round_maps attrs s table l d s' : attrs_ok attrs -> 0 < rsize (ma_virt attrs) ->
  could_map l (ma_phys attrs) (start_address (ma_virt attrs)) = true -> LevelLaws l ->
  new_map_pa l (start_address (ma_phys attrs)) (ma_mem_type attrs) (ma_perms attrs) = Return d ->
  MapLaws pab attr_ok attr_perms (pview l) l ->
  (forall va', va' / 2 ^ (MAP_SHIFT root + 9) = start_address (ma_virt attrs) / 2 ^ (MAP_SHIFT root + 9) ->
    (va' / 2 ^ MAP_SHIFT l = start_address (ma_virt attrs) / 2 ^ MAP_SHIFT l ->
      view (root :: ls) (tables s) table va' = None /\ view (root :: ls) (tables s') table va' = Some (l, d)) /\
    (va' / 2 ^ MAP_SHIFT l <> start_address (ma_virt attrs) / 2 ^ MAP_SHIFT l ->
      view (root :: ls) (tables s') table va' = view (root :: ls) (tables s) table va')) ->
  forall va', 0 <= va' < 2 ^ 48 ->
    (start_address (ma_virt attrs) <= va' < start_address (ma_virt attrs) + 2 ^ MAP_SHIFT l ->
      view (root :: ls) (tables s) table va' = None /\ mapped_as attrs s' table va') /\
    (~ (start_address (ma_virt attrs) <= va' < start_address (ma_virt attrs) + 2 ^ MAP_SHIFT l) ->
      view (root :: ls) (tables s') table va' = view (root :: ls) (tables s) table va').
Proof.
  intros (H1 & H2 & H3 & H4 & H5 & H6 & H7 & H8 & H9) Hpos Hcm Ll Hd Hml Hpost va' Hva'.
  destruct (could_map_spec l _ _ Ll Hcm) as (Hpa & Hva & Hsz). pose proof (ll_shift l Ll) as Hsh.
  rewrite Hroot in Hpost. change (39 + 9) with 48 in Hpost.
  destruct (Hpost va') as [Hin Hout]; [rewrite !Z.div_small by lia; done|].
  set (v := start_address (ma_virt attrs)) in *. set (k := MAP_SHIFT l) in *.
  assert (Hk : 0 < 2 ^ k) by (apply Z.pow_pos_nonneg; lia).
  assert (Hdiv : va' / 2 ^ k = v / 2 ^ k <-> v <= va' < v + 2 ^ k).
  { apply Z.div_exact in Hva; [|lia]. rewrite Hva at 2 3. pose proof (Z.div_mod va' (2 ^ k) ltac:(lia)).
    pose proof (Z.mod_pos_bound va' (2 ^ k) Hk). split; [intros E; rewrite E in *; nia|intros; nia]. }
  split; [|intros Hn; apply Hout; by rewrite Hdiv].
  intros Hr. destruct (Hin (proj2 Hdiv Hr)) as [Hold Hnew]. split; [done|].
  destruct (ml_new_map_pa _ _ _ _ l Hml (start_address (ma_phys attrs)) (ma_mem_type attrs) (ma_perms attrs))
    as (d' & Hd' & _ & _ & _ & Hma & Hpm); [split; [fold k in Hsz; lia|done]|].
  rewrite Hd in Hd'. injection Hd' as <-.
  exists l, d, (start_address (ma_phys attrs)). split; [done|]. split; [done|]. split; [|split; [done|by rewrite <- H1]].
  fold k. fold v. assert (Hq : va' / 2 ^ k = v / 2 ^ k) by (by apply Hdiv).
  apply Z.div_exact in Hva; [|lia]. pose proof (Z.div_mod va' (2 ^ k) ltac:(lia)). rewrite Hq in *. lia.
Qed.

Lemma hier_elem l0 ls0 l : hier (l0 :: ls0) -> l ∈ ls0 -> LevelLaws l.
Proof.
  revert l0. induction ls0 as [|l2 ls0 IH]; intros l0 Hh Hin; [by apply not_elem_of_nil in Hin|].
  inversion Hh as [|? ? ? ? ? ? ? Hh']; subst. apply elem_of_cons in Hin as [->|Hin]; [by apply (hier_laws _ _ Hh')|eauto].
Qed.

(** Why mapping a range fails: no memory for tables, or a page is mapped already, or the
    region is large enough for a block and there is a table where the block would go. *)
Definition map_fails (attrs : MapAttributes MT) s (table : Z) (e : KernelError) : Prop :=
  alloc_error e \/ e = MappingError AlreadyMapped /\
    ((exists va, in_virt attrs va /\ view (root :: ls) (tables s) table va <> None) \/
     exists l, l ∈ ls /\ MAP_SHIFT l <> 12 /\ 2 ^ MAP_SHIFT l <= rsize (ma_virt attrs)).

Definition map_post (attrs : MapAttributes MT) s (table : Z) (r : result unit) s' : Prop :=
  (forall va, 0 <= va < 2 ^ 48 -> ~ in_virt attrs va -> view (root :: ls) (tables s') table va = view (root :: ls) (tables s) table va) /\
  match r with
  | Ok _ => forall va, in_virt attrs va -> view (root :: ls) (tables s) table va = None /\ mapped_as attrs s' table va
  | Err e => map_fails attrs s table e /\ exists m, in_virt attrs m /\ m mod PAGE_SIZE = 0 /\
      forall va, in_virt attrs va ->
        (va < m -> view (root :: ls) (tables s) table va = None /\ mapped_as attrs s' table va) /\
        (m <= va -> view (root :: ls) (tables s') table va = view (root :: ls) (tables s) table va)
  end.

Lemma map_loop_spec fuel attrs s table : attrs_ok attrs -> pt_inv allocate (root :: ls) s table ->
  rsize (ma_virt attrs) / PAGE_SIZE <= Z.of_nat fuel ->
  exists r s', map_loop allocate fuel root ls table attrs s = Return (r, s') /\ pt_step allocate (root :: ls) table s s' /\
    map_post attrs s table r s'.
Proof.
  revert attrs s. induction fuel as [|fuel IH]; intros attrs s Hok Hi Hf; pose proof Hok as (H1 & H2 & H3 & H4 & H5 & H6 & H7 & H8 & H9);
    cbn [map_loop]; destruct (Z.ltb_spec 0 (rsize (ma_virt attrs))) as [Hpos|Hz].
  1: { exfalso. apply Z.div_exact in H3; [|unfold PAGE_SIZE; lia]. unfold PAGE_SIZE in *. lia. }
  1, 3: exists (Ok tt), s; split; [done|]; split; [apply pt_step_refl, Hi|]; unfold map_post, in_virt; split; [done|]; intros; lia.
  assert (Hpg : PAGE_SIZE <= rsize (ma_virt attrs)) by (apply Z.div_exact in H3; [|unfold PAGE_SIZE; lia]; unfold PAGE_SIZE in *; lia).
  set (va := start_address (ma_virt attrs)) in *.
  destruct (map_round_spec root ls table va attrs s Hhier Hls Hi) as (r & s1 & -> & Hst1 & Hp1).
  { split; [split; [done|split; lia]|]. split; [done|]. split; [done|]. by rewrite H1. }
  pose proof (pt_step_inv _ _ _ _ _ Hi Hst1) as Hi1. destruct r as [n|e]; cbn [tbind].
  2: { exists (Err e), s1. split; [done|]. split; [done|]. destruct Hp1 as [Hsame He]. split; [done|].
       split; [|exists va; split; [unfold in_virt; fold va; lia|]; split; [done|]; intros a Ha; unfold in_virt in Ha; fold va in Ha; split; [lia|done]].
       destruct He as [He|(-> & He)]; [by left|right]. split; [done|]. destruct He as [He|(l & Hl & Hs & Hcm)].
       - left. exists va. split; [unfold in_virt; fold va; lia|done].
       - right. exists l. split; [done|]. split; [done|].
         destruct (could_map_spec l _ _ (hier_elem _ _ _ Hhier Hl) Hcm) as (_ & _ & Hle). by rewrite <- H1. }
  destruct Hp1 as (l & d & Hl & Hcm & -> & Hd & Hml & Hpost). pose proof (hier_elem _ _ _ Hhier Hl) as Ll.
  destruct (could_map_spec l _ _ Ll Hcm) as (_ & _ & Hle). rewrite H1 in Hle. pose proof (ll_shift l Ll) as Hsh.
  pose proof (round_maps attrs s table l d s1 Hok Hpos Hcm Ll Hd Hml Hpost) as Hround.
  destruct (advance_ok attrs (MAP_SHIFT l) Hok Hsh Hle) as (Hok' & Hv' & Hph').
  assert (Hpow : PAGE_SIZE <= 2 ^ MAP_SHIFT l) by (change PAGE_SIZE with (2 ^ 12); apply Z.pow_le_mono_r; lia).
  destruct (IH (advance attrs (2 ^ (MAP_SHIFT l - 12))) s1 Hok' Hi1) as (r & s' & -> & Hst' & Hout & Hr).
  { rewrite Hv'. simpl. assert ((rsize (ma_virt attrs) - 2 ^ MAP_SHIFT l) / PAGE_SIZE <= (rsize (ma_virt attrs) - PAGE_SIZE) / PAGE_SIZE)
      by (apply Z.div_le_mono; unfold PAGE_SIZE in *; lia).
    assert ((rsize (ma_virt attrs) - PAGE_SIZE) / PAGE_SIZE = rsize (ma_virt attrs) / PAGE_SIZE - 1)
      by (replace (rsize (ma_virt attrs) - PAGE_SIZE) with (rsize (ma_virt attrs) + (-1) * PAGE_SIZE) by lia;
          rewrite Z.div_add by (unfold PAGE_SIZE; lia); lia). lia. }
  exists r, s'. split; [done|]. split; [by eapply pt_step_trans|].
  set (attrs' := advance attrs (2 ^ (MAP_SHIFT l - 12))) in *.
  assert (Hiv : forall a, in_virt attrs' a <-> va + 2 ^ MAP_SHIFT l <= a < va + rsize (ma_virt attrs)).
  { intros a. unfold in_virt. rewrite Hv'. simpl. fold va. lia. }
  assert (Hva0 : forall a, in_virt attrs a <-> va <= a < va + rsize (ma_virt attrs)) by done.
  assert (HB : 0 < 2 ^ MAP_SHIFT l) by (apply Z.pow_pos_nonneg; lia).
  set (B := 2 ^ MAP_SHIFT l) in *. set (S := rsize (ma_virt attrs)) in *.
  assert (Hmap : forall a, va + B <= a < va + S -> mapped_as attrs' s' table a -> mapped_as attrs s' table a).
  { intros a Ha (l' & d' & b & Hvw & Hma & Heq & Hpm & Hsz). exists l', d', b. split; [done|]. split; [done|].
    rewrite Heq, Hv', Hph'. rewrite Hv' in Hsz. simpl in *. fold va B S. fold B S in Hsz. split; [lia|]. split; [done|lia]. }
  assert (Hfirst : forall a, va <= a < va + B -> view (root :: ls) (tables s) table a = None /\ mapped_as attrs s' table a).
  { intros a Ha. destruct (Hround a ltac:(lia)) as [Hr1 _]. destruct (Hr1 Ha) as [Hn (l' & d' & b & Hvw & Hrest)].
    split; [done|]. exists l', d', b. split; [|done]. rewrite Hout by (rewrite ?Hiv; lia). done. }
  assert (Hlater : forall a, 0 <= a < 2 ^ 48 -> ~ (va <= a < va + B) ->
    view (root :: ls) (tables s1) table a = view (root :: ls) (tables s) table a).
  { intros a Ha Hna. by apply (Hround a). }
  split.
  - intros a Ha Hna. rewrite Hva0 in Hna. rewrite Hout by (rewrite ?Hiv; lia). apply Hlater; lia.
  - destruct r as [u|e].
    + intros a Ha. pose proof (proj1 (Hva0 a) Ha) as Ha'. destruct (decide (a < va + B)); [apply Hfirst; lia|].
      rewrite <- (Hlater a) by lia. destruct (Hr a) as [Hn Hm]; [apply Hiv; lia|]. split; [done|apply Hmap; done || lia].
    + destruct Hr as [Hf' (m & Hm & Hma & Hr)]. pose proof (proj1 (Hiv m) Hm) as Hm'. split.
      * destruct Hf' as [Hf'|(-> & Hf')]; [by left|right]. split; [done|].
        destruct Hf' as [(a & Ha & Hva)|(l' & Hl' & Hs' & Hle')].
        -- pose proof (proj1 (Hiv a) Ha) as Ha'. left. exists a. split; [apply Hva0; lia|]. rewrite <- (Hlater a) by lia. done.
        -- right. exists l'. split; [done|]. split; [done|]. rewrite Hv' in Hle'. simpl in Hle'. fold S. fold S in Hle'. lia.
      * exists m. split; [apply Hva0; lia|]. split; [done|]. intros a Ha. pose proof (proj1 (Hva0 a) Ha) as Ha'.
        destruct (decide (a < va + B)); [split; [intros _; apply Hfirst; lia|lia]|].
        destruct (Hr a) as [R1 R2]; [apply Hiv; lia|]. rewrite <- (Hlater a) by lia. split; [|done].
        intros Hlt. destruct (R1 Hlt) as [Hn Hmm]. split; [done|apply Hmap; done || lia].
Qed.

Lemma check_regions_ok attrs : attrs_ok attrs -> PAGE_SIZE <= rsize (ma_virt attrs) -> check_regions attrs = None.
Proof.
  intros (H1 & H2 & H3 & H4 & H5 & H6 & H7 & H8 & H9) Hpg. unfold check_regions, region_is_page_aligned. rewrite H1, Z.eqb_refl. simpl.
  by rewrite (proj2 (Z.ltb_ge _ _) Hpg), (proj2 (is_page_aligned_spec _) H8), (proj2 (is_page_aligned_spec _) H5).
Qed.

Lemma map_range_spec attrs s table : attrs_ok attrs -> PAGE_SIZE <= rsize (ma_virt attrs) -> pt_inv allocate (root :: ls) s table ->
  exists r s', map_range allocate root ls table attrs s = Return (r, s') /\ pt_step allocate (root :: ls) table s s' /\
    map_post attrs s table r s'.
Proof.
  intros Hok Hpg Hi. pose proof Hok as (H1 & H2 & H3 & H4 & H5 & H6 & H7 & H8 & H9). unfold map_range.
  rewrite (check_regions_ok attrs Hok Hpg). apply map_loop_spec; [done|done|]. unfold map_fuel.
  assert (0 <= rsize (ma_virt attrs) / PAGE_SIZE) by (apply Z.div_pos; unfold PAGE_SIZE; lia). lia.
Qed.
End Map.
