(* ===== verification/PgWalk.v ===== *)
(** * Walking

    What a walk over a region of the page tables does, for any hierarchy that satisfies
    [hier] of PgDesc.  The loop over the entries is verified once, for any operation:
    [Good] is what the operation does to the view of an address of the region, [Keep] how
    the other views are preserved. *)
From stdpp Require Import base list.
From S2P Require Import Prelude Error Address Region Vma PgDesc PgTables PgInv PgMap.
Local Open Scope Z_scope.

(** ** Pages of a range *)

Definition pgs (a b : Z) : list Z := map (fun k => a + PAGE_SIZE * k) (seqZ 0 ((b - a) / PAGE_SIZE)).

Lemma elem_of_pgs a b p : a mod PAGE_SIZE = 0 -> b mod PAGE_SIZE = 0 ->
  p ∈ pgs a b <-> p mod PAGE_SIZE = 0 /\ a <= p < b.
Proof.
  intros Ha Hb. unfold pgs. rewrite list_elem_of_fmap. setoid_rewrite elem_of_seqZ.
  apply Z.div_exact in Ha, Hb; [|unfold PAGE_SIZE; lia..].
  assert (Hd : (b - a) / PAGE_SIZE = b / PAGE_SIZE - a / PAGE_SIZE).
  { rewrite Ha, Hb, <- Z.mul_sub_distr_l, Z.mul_comm, Z.div_mul by (unfold PAGE_SIZE; lia). rewrite <- Ha, <- Hb. done. }
  rewrite Hd. split.
  - intros (k & -> & Hk). split; [|unfold PAGE_SIZE in *; lia].
    rewrite Ha, <- Z.mul_add_distr_l, Z.mul_comm. apply Z.mod_mul. unfold PAGE_SIZE. lia.
  - intros [Hp Hr]. apply Z.div_exact in Hp; [|unfold PAGE_SIZE; lia].
    exists (p / PAGE_SIZE - a / PAGE_SIZE). unfold PAGE_SIZE in *. lia.
Qed.

Lemma pgs_nil a b : b <= a -> pgs a b = [].
Proof.
  intros H. unfold pgs. replace (seqZ 0 ((b - a) / PAGE_SIZE)) with (@nil Z); [done|].
  symmetry. apply seqZ_nil. apply Z.div_le_upper_bound; unfold PAGE_SIZE; lia.
Qed.

Lemma pgs_app a m b : a mod PAGE_SIZE = 0 -> m mod PAGE_SIZE = 0 -> b mod PAGE_SIZE = 0 -> a <= m <= b ->
  pgs a b = pgs a m ++ pgs m b.
Proof.
  intros Ha Hm Hb Hr. apply Z.div_exact in Ha, Hm, Hb; [|unfold PAGE_SIZE; lia..].
  assert (Hd : forall x y, x = PAGE_SIZE * (x / PAGE_SIZE) -> y = PAGE_SIZE * (y / PAGE_SIZE) ->
    (y - x) / PAGE_SIZE = y / PAGE_SIZE - x / PAGE_SIZE).
  { intros x y Hx Hy. rewrite Hx, Hy, <- Z.mul_sub_distr_l, Z.mul_comm, Z.div_mul by (unfold PAGE_SIZE; lia). by rewrite <- Hx, <- Hy. }
  unfold pgs. rewrite !Hd by done. set (x := a / PAGE_SIZE) in *. set (y := m / PAGE_SIZE) in *. set (z := b / PAGE_SIZE) in *.
  assert (x <= y <= z) by (unfold PAGE_SIZE in *; lia).
  replace (z - x) with ((y - x) + (z - y)) by lia. rewrite seqZ_app, map_app by lia. f_equal.
  replace (0 + (y - x)) with (y - x + 0) by lia. rewrite <- (fmap_add_seqZ (y - x) 0), <- list_fmap_compose.
  apply list_fmap_ext. intros _ k _. simpl. unfold compose, PAGE_SIZE in *. lia.
Qed.

Lemma iter_pages_pgs a b : 0 <= a -> a <= b -> b < 2 ^ 64 -> a mod PAGE_SIZE = 0 -> b mod PAGE_SIZE = 0 ->
  iter_pages (mkRegion a (b - a)) = pgs a b.
Proof.
  intros H0 H1 H2 Ha Hb. unfold iter_pages, pgs. simpl. rewrite Z.shiftr_div_pow2 by (unfold PAGE_SHIFT; lia).
  change (2 ^ PAGE_SHIFT) with PAGE_SIZE. apply list_fmap_ext. intros i k Hk%list_elem_of_lookup_2%elem_of_seqZ.
  unfold add_pages. assert (PAGE_SIZE * k <= b - a).
  { apply Z.div_exact in Ha, Hb; [|unfold PAGE_SIZE; lia..]. pose proof (Z.mul_div_le (b - a) PAGE_SIZE ltac:(unfold PAGE_SIZE; lia)).
    unfold PAGE_SIZE in *. lia. }
  unfold umul. rewrite wrap_small by (unfold usize_ok, PAGE_SIZE in *; lia). apply uadd_small; unfold PAGE_SIZE in *; lia.
Qed.

Lemma page_of_eq va p : p mod PAGE_SIZE = 0 -> p <= va < p + PAGE_SIZE -> page_of va = p.
Proof.
  intros Hp Hr. unfold page_of. apply Z.div_exact in Hp; [|unfold PAGE_SIZE; lia].
  pose proof (Z.div_mod va PAGE_SIZE ltac:(unfold PAGE_SIZE; lia)). pose proof (Z.mod_pos_bound va PAGE_SIZE ltac:(unfold PAGE_SIZE; lia)).
  unfold PAGE_SIZE in *. lia.
Qed.

Lemma page_of_spec va : page_of va mod PAGE_SIZE = 0 /\ page_of va <= va < page_of va + PAGE_SIZE.
Proof.
  unfold page_of. pose proof (Z.mod_pos_bound va PAGE_SIZE ltac:(unfold PAGE_SIZE; lia)). split; [|lia].
  rewrite Zminus_mod, Z.mod_mod, Z.sub_diag by (unfold PAGE_SIZE; lia). done.
Qed.

Definition rg (a b : Z) : MemoryRegion := mkRegion a (b - a).

(** ** The loop over the entries *)

Section Walk.
Context {MT AT A X : Type} (allocate : A -> result Z * A) `{L : PageAllocLaws A allocate}.
Context (pab : Z) (attr_ok : AT -> Prop) (attr_perms : AT -> PtePermissions)
  (pview : Level MT AT -> PtePermissions -> option PtePermissions).
Notation Level := (Level MT AT).
Notation St := (PtState A).
Notation hier := (hier pab attr_ok attr_perms pview).
Notation View := (option (Level * Z)).
Context (alloc : St -> result Z * St) (op : WalkOperation A X).
Context (Keep Good : Z -> View -> View -> Prop) (Pre : Z -> View -> Prop) (hstep : View -> X -> Z -> X)
  (errs : KernelError -> Prop).
Hypothesis keep_refl : forall va v, Keep va v v.
Hypothesis keep_trans : forall va v1 v2 v3, Keep va v1 v2 -> Keep va v2 v3 -> Keep va v1 v3.
Hypothesis good_keep : forall va v1 v2 v3, Good va v1 v2 -> Keep va v2 v3 -> Good va v1 v3.
Hypothesis keep_good : forall va v1 v2 v3, Keep va v1 v2 -> Good va v2 v3 -> Good va v1 v3.
Hypothesis pre_keep : forall va v1 v2, Pre va v1 -> Keep va v1 v2 -> Pre va v2.
Hypothesis hstep_keep : forall va v1 v2 x, Keep va v1 v2 -> hstep v1 x va = hstep v2 x va.
Implicit Types (l : Level) (ls : list Level) (s : St) (x : X).

(** [va] and [vb] are in the window of the same table of level [l]. *)
Definition window l (va vb : Z) : Prop := va / 2 ^ (MAP_SHIFT l + 9) = vb / 2 ^ (MAP_SHIFT l + 9).

Definition range_ok l (a b : Z) : Prop :=
  0 <= a < b /\ b <= 2 ^ 48 /\ a mod PAGE_SIZE = 0 /\ b mod PAGE_SIZE = 0 /\ window l a (b - 1).

Definition hfold ls s (table : Z) (ps : list Z) x : X :=
  fold_left (fun x p => hstep (view ls (tables s) table p) x p) ps x.

Definition walk_post l ls (table a b : Z) s x (r : result unit) s' x' : Prop :=
  pt_step allocate (l :: ls) table s s' /\
  match r with
  | Ok _ =>
      (forall va, window l va a ->
        (a <= va < b -> Good va (view (l :: ls) (tables s) table va) (view (l :: ls) (tables s') table va)) /\
        (~ (a <= va < b) -> Keep va (view (l :: ls) (tables s) table va) (view (l :: ls) (tables s') table va))) /\
      x' = hfold (l :: ls) s table (pgs a b) x
  | Err e => errs e /\ forall va, window l va a ->
      (a <= va < b -> Good va (view (l :: ls) (tables s) table va) (view (l :: ls) (tables s') table va) \/
        Keep va (view (l :: ls) (tables s) table va) (view (l :: ls) (tables s') table va)) /\
      (~ (a <= va < b) -> Keep va (view (l :: ls) (tables s) table va) (view (l :: ls) (tables s') table va))
  end.

Definition walk_pre l ls (table a b : Z) s : Prop :=
  pt_inv allocate (l :: ls) s table /\ forall va, a <= va < b -> Pre va (view (l :: ls) (tables s) table va).

(** What has to be shown of the operation at the last level and at an entry. *)
Definition leaf_spec : Prop := forall l table a b s x, hier [l] -> range_ok l a b -> walk_pre l [] table a b s ->
  exists s' x', walk_leaf l table (pgs a b) op (s, x) = Return (s', x') /\ walk_post l [] table a b s x (Ok tt) s' x'.

Definition entry_spec : Prop := forall l next ls table a b s x E, hier (l :: next :: ls) -> range_ok l a b ->
  E mod 2 ^ MAP_SHIFT l = 0 -> window l E a -> a < E + 2 ^ MAP_SHIFT l -> E < b ->
  pt_inv allocate (l :: next :: ls) s table ->
  (forall va, a <= va < b -> E <= va < E + 2 ^ MAP_SHIFT l -> Pre va (view (l :: next :: ls) (tables s) table va)) ->
  exists r s1, walk_entry alloc l next table (rg a b) op E s = Return (r, s1) /\
    pt_step allocate (l :: next :: ls) table s s1 /\
    match r with
    | Ok (Some c) => next_table_address l (tables s1 table (pg_index l E)) = Some c /\
        forall va, Keep va (view (l :: next :: ls) (tables s) table va) (view (l :: next :: ls) (tables s1) table va)
    | Ok None => forall va, window l va a ->
        (E <= va < E + 2 ^ MAP_SHIFT l -> a <= va < b ->
          Good va (view (l :: next :: ls) (tables s) table va) (view (l :: next :: ls) (tables s1) table va) /\
          hstep (view (l :: next :: ls) (tables s) table va) x va = x) /\
        (~ (E <= va < E + 2 ^ MAP_SHIFT l /\ a <= va < b) ->
          Keep va (view (l :: next :: ls) (tables s) table va) (view (l :: next :: ls) (tables s1) table va))
    | Err e => errs e /\
        forall va, Keep va (view (l :: next :: ls) (tables s) table va) (view (l :: next :: ls) (tables s1) table va)
    end.

Hypothesis Hleaf : leaf_spec.
Hypothesis Hentry : entry_spec.

Lemma hfold_app ls s table ps qs x : hfold ls s table (ps ++ qs) x = hfold ls s table qs (hfold ls s table ps x).
Proof. unfold hfold. apply fold_left_app. Qed.

Lemma hfold_ext ls ls' s s' table table' ps x : (forall p y, p ∈ ps ->
    hstep (view ls (tables s) table p) y p = hstep (view ls' (tables s') table' p) y p) ->
  hfold ls s table ps x = hfold ls' s' table' ps x.
Proof.
  unfold hfold. revert x. induction ps as [|p ps IH]; intros x H; [done|]. simpl. rewrite (H p x) by by left.
  apply IH. intros q y Hq. apply H. by right.
Qed.

Lemma hfold_id ls s table ps x : (forall p, p ∈ ps -> hstep (view ls (tables s) table p) x p = x) ->
  hfold ls s table ps x = x.
Proof.
  unfold hfold. induction ps as [|p ps IH]; intros H; [done|]. simpl. rewrite H by by left.
  apply IH. intros q Hq. apply H. by right.
Qed.

(** Two parts of the range one after the other. *)
Lemma walk_post_seq l ls table a m b s x s1 x1 r s2 x2 : a <= m <= b -> a mod PAGE_SIZE = 0 -> m mod PAGE_SIZE = 0 ->
  b mod PAGE_SIZE = 0 -> (forall va, a <= va < b -> window l va a) -> (m = b -> r = Ok tt /\ s2 = s1 /\ x2 = x1) ->
  walk_post l ls table a m s x (Ok tt) s1 x1 -> (m < b -> walk_post l ls table m b s1 x1 r s2 x2) ->
  walk_post l ls table a b s x r s2 x2.
Proof.
  intros Hr Ha Hm Hb Hw Heq [Hst1 [Hv1 Hx1]] Hpost2. destruct (decide (m = b)) as [->|Hne].
  { destruct (Heq eq_refl) as (-> & -> & ->). by split. }
  destruct (Hpost2 ltac:(lia)) as [Hst2 Hv2]. split; [by eapply pt_step_trans|].
  assert (Hwm : forall va, window l va a -> window l va m).
  { intros va Hva. unfold window in *. rewrite (Hw m) by lia. done. }
  destruct r as [u|e].
  - destruct Hv2 as [Hv2 Hx2]. split.
    + intros va Hva. destruct (Hv1 va Hva) as [G1 K1]. destruct (Hv2 va (Hwm va Hva)) as [G2 K2].
      split; intros Hin.
      * destruct (decide (va < m)); [eapply good_keep; [apply G1|apply K2]; lia|eapply keep_good; [apply K1|apply G2]; lia].
      * eapply keep_trans; [apply K1|apply K2]; lia.
    + rewrite Hx2, Hx1, (pgs_app a m b), hfold_app by done. apply hfold_ext. intros p y Hp.
      apply elem_of_pgs in Hp as [_ Hp]; [|done..]. symmetry. apply hstep_keep, (proj2 (Hv1 p (Hw p ltac:(lia)))). lia.
  - destruct Hv2 as [He Hv2]. split; [done|]. intros va Hva. destruct (Hv1 va Hva) as [G1 K1].
    destruct (Hv2 va (Hwm va Hva)) as [G2 K2]. split; intros Hin.
    + destruct (decide (va < m)).
      * left. eapply good_keep; [apply G1|apply K2]; lia.
      * destruct G2 as [G2|G2]; [lia|left; eapply keep_good; [apply K1; lia|done]|right; eapply keep_trans; [apply K1; lia|done]].
    + eapply keep_trans; [apply K1|apply K2]; lia.
Qed.

Lemma window_idx l a i va : 0 <= MAP_SHIFT l -> window l va a ->
  pg_index l va = i <-> (a - a mod 2 ^ (MAP_SHIFT l + 9)) + i * 2 ^ MAP_SHIFT l <= va < (a - a mod 2 ^ (MAP_SHIFT l + 9)) + (i + 1) * 2 ^ MAP_SHIFT l.
Proof.
  intros Hs Hw. rewrite pg_index_eq by done. unfold window in Hw.
  set (k := MAP_SHIFT l) in *. assert (Hk : 0 < 2 ^ k) by (apply Z.pow_pos_nonneg; lia).
  assert (Hp : 2 ^ (k + 9) = 2 ^ k * 512) by (rewrite Z.pow_add_r by lia; done).
  pose proof (Z.div_mod a (2 ^ (k + 9)) ltac:(lia)) as Ha. rewrite <- Hw in Ha.
  rewrite Hp, <- Z.div_div in Ha by lia.
  pose proof (Z.div_mod va (2 ^ k) ltac:(lia)) as Hv. pose proof (Z.mod_pos_bound va (2 ^ k) Hk).
  pose proof (Z.div_mod (va / 2 ^ k) 512 ltac:(lia)) as Hq. rewrite Hp.
  set (q := va / 2 ^ k) in *. set (w := q / 512) in *. set (j := q mod 512) in *.
  replace (a - a mod (2 ^ k * 512)) with (2 ^ k * (512 * w)) by lia.
  split; [intros <-; nia|]. intros Hr. assert (512 * w + i = q) by nia. lia.
Qed.

Lemma walk_post_err l ls table a m b s x e s' x' : a <= m <= b ->
  walk_post l ls table a m s x (Err e) s' x' -> walk_post l ls table a b s x (Err e) s' x'.
Proof.
  intros Hm [Hst [He Hv]]. split; [done|]. split; [done|]. intros va Hva. destruct (Hv va Hva) as [G K].
  split; intros Hin; [|apply K; lia]. destruct (decide (va < m)); [apply G; lia|right; apply K; lia].
Qed.

(** The views through an entry that links a table are the views of that table. *)
Lemma view_linked l ls s table va c i : pg_index l va = i -> next_table_address l (tables s table i) = Some c ->
  view (l :: ls) (tables s) table va = view ls (tables s) c va.
Proof. intros <- Hn. cbn [view]. by rewrite Hn. Qed.

(** A walk below entry [i], after a step that kept every view. *)
Lemma walk_post_lift l next ls table c a m s x s1 r s2 x2 E : hier (l :: next :: ls) -> a < m -> a mod PAGE_SIZE = 0 -> m mod PAGE_SIZE = 0 ->
  (forall va, window l va a -> E <= va < E + 2 ^ MAP_SHIFT l <-> pg_index l va = pg_index l E) ->
  E <= a -> m <= E + 2 ^ MAP_SHIFT l -> (forall va, a <= va < m -> window l va a) ->
  pt_inv allocate (l :: next :: ls) s1 table -> pt_step allocate (l :: next :: ls) table s s1 ->
  next_table_address l (tables s1 table (pg_index l E)) = Some c ->
  (forall va, Keep va (view (l :: next :: ls) (tables s) table va) (view (l :: next :: ls) (tables s1) table va)) ->
  walk_post next ls c a m s1 x r s2 x2 -> walk_post l (next :: ls) table a m s x r s2 x2.
Proof.
  intros Hh Ham Haa Hma Hidx HEa HmE Hwin Hi1 Hst Hn Hkeep [Hst2 Hpost]. inversion Hh as [|? ? ? Ll Lk Hsh Hml Hh']; subst.
  pose proof (hier_index _ _ _ _ l (next :: ls) E Hh) as Hie. pose proof (ll_shift l Ll) as Hs.
  destruct (pt_step_child allocate l (next :: ls) table s1 s2 (pg_index l E) c Hi1 Hie Hn Hst2) as (Hst' & Hn2 & Hvw).
  split; [by eapply pt_step_trans|].
  assert (Hv2 : forall va, pg_index l va = pg_index l E -> view (l :: next :: ls) (tables s2) table va = view (next :: ls) (tables s2) c va).
  { intros va Hva. by apply (view_linked l _ _ _ _ _ (pg_index l E)). }
  assert (Hv1 : forall va, pg_index l va = pg_index l E -> view (l :: next :: ls) (tables s1) table va = view (next :: ls) (tables s1) c va).
  { intros va Hva. by apply (view_linked l _ _ _ _ _ (pg_index l E)). }
  assert (Hother : forall va, pg_index l va <> pg_index l E -> view (l :: next :: ls) (tables s2) table va = view (l :: next :: ls) (tables s1) table va).
  { intros va Hva. rewrite Hvw by (exact (hier_index _ _ _ _ l (next :: ls) va Hh)). by destruct (Z.eqb_spec (pg_index l va) (pg_index l E)). }
  assert (Hwn : forall va, window l va a -> pg_index l va = pg_index l E -> window next va a).
  { intros va Hva Hq. unfold window. rewrite <- Hsh. apply (window_split l); [lia|exact Hva|]. rewrite Hq. symmetry. apply Hidx; [done|lia]. }
  assert (Hlift : forall va, window l va a -> ~ (a <= va < m) ->
    (forall va, window next va a -> ~ (a <= va < m) -> Keep va (view (next :: ls) (tables s1) c va) (view (next :: ls) (tables s2) c va)) ->
    Keep va (view (l :: next :: ls) (tables s) table va) (view (l :: next :: ls) (tables s2) table va)).
  { intros va Hva Hna Hk. eapply keep_trans; [apply Hkeep|]. destruct (decide (pg_index l va = pg_index l E)) as [Hq|Hq].
    - rewrite Hv2, Hv1 by done. apply Hk; [by apply Hwn|done].
    - rewrite Hother by done. apply keep_refl. }
  assert (Hina : forall va, window l va a -> a <= va < m -> pg_index l va = pg_index l E) by (intros; apply Hidx; [done|lia]).
  destruct r as [u|e].
  - destruct Hpost as [Hp Hx]. split.
    + intros va Hva. split; intros Hin.
      * pose proof (Hina va Hva Hin) as Hq. eapply keep_good; [apply Hkeep|]. rewrite Hv2, Hv1 by done. apply Hp; [by apply Hwn|done].
      * apply Hlift; [done|done|]. intros va' Hva' Hna. by apply Hp.
    + rewrite Hx. apply hfold_ext. intros p y Hp'%elem_of_pgs; [|done..]. destruct Hp' as [_ Hp'].
      rewrite <- (Hv1 p) by (apply Hina; [apply Hwin; lia|lia]). symmetry. apply hstep_keep, Hkeep.
  - destruct Hpost as [He Hp]. split; [done|]. intros va Hva. split; intros Hin.
    + pose proof (Hina va Hva Hin) as Hq. destruct (proj1 (Hp va (Hwn va Hva Hq)) Hin) as [G|K].
      * left. eapply keep_good; [apply Hkeep|]. by rewrite Hv2, Hv1.
      * right. eapply keep_trans; [apply Hkeep|]. by rewrite Hv2, Hv1.
    + apply Hlift; [done|done|]. intros va' Hva' Hna. by apply Hp.
Qed.

(** The entry of index [i] in the table of [a]. *)
Definition entry_at l (a i : Z) : Z := (a - a mod 2 ^ (MAP_SHIFT l + 9)) + i * 2 ^ MAP_SHIFT l.

Lemma entry_at_spec l a b i : LevelLaws l -> range_ok l a b -> 0 <= i < 512 ->
  entry_at l a i mod 2 ^ MAP_SHIFT l = 0 /\ window l (entry_at l a i) a /\
  0 <= entry_at l a i /\ entry_at l a i + 2 ^ MAP_SHIFT l <= 2 ^ 49 /\
  (forall va, window l va a -> pg_index l va = i <-> entry_at l a i <= va < entry_at l a i + 2 ^ MAP_SHIFT l).
Proof.
  intros Ll (Hab & Hb & _) Hi. pose proof (ll_shift l Ll) as Hs. unfold entry_at, window.
  assert (Hk : 0 < 2 ^ MAP_SHIFT l) by (apply Z.pow_pos_nonneg; lia).
  assert (Hp : 2 ^ (MAP_SHIFT l + 9) = 2 ^ MAP_SHIFT l * 512) by (rewrite Z.pow_add_r by lia; done).
  pose proof (Z.div_mod a (2 ^ (MAP_SHIFT l + 9)) ltac:(lia)) as Ha.
  set (W := a / 2 ^ (MAP_SHIFT l + 9)) in *. set (P := 2 ^ (MAP_SHIFT l + 9)) in *.
  replace (a - a mod P) with (P * W) by lia.
  assert (HW : 0 <= W) by (apply Z.div_pos; lia).
  assert (HPW : P * W <= 2 ^ 48) by (pose proof (Z.mod_pos_bound a P ltac:(lia)); lia).
  assert (HP : P <= 2 ^ 48) by (apply Z.pow_le_mono_r; lia).
  split; [rewrite Hp; replace (2 ^ MAP_SHIFT l * 512 * W + i * 2 ^ MAP_SHIFT l) with ((512 * W + i) * 2 ^ MAP_SHIFT l) by lia; apply Z.mod_mul; lia|].
  split; [rewrite Z.mul_comm, Z.div_add_l by lia; rewrite Z.div_small; [lia|nia]|].
  split; [nia|]. split; [change (2 ^ 49) with (2 ^ 48 + 2 ^ 48); nia|].
  intros va Hva. rewrite (window_idx l a i va) by (done || lia). fold P. replace (a - a mod P) with (P * W) by lia. lia.
Qed.

Lemma intersection_rg a b E k : 0 <= a < b -> b < 2 ^ 64 -> 0 <= E -> 0 < k -> E + k < 2 ^ 64 -> a < E + k -> E < b ->
  intersection (mkRegion E k) (rg a b) = Some (rg (Z.max a E) (Z.min b (E + k))).
Proof.
  intros H1 H2 H3 H4 H5 H6 H7.
  assert (Hr : region_ok (mkRegion E k)) by (unfold region_ok; simpl; lia).
  assert (Ho : region_ok (rg a b)) by (unfold region_ok; simpl; lia).
  destruct (intersection (mkRegion E k) (rg a b)) as [[st sz]|] eqn:Ei.
  - destruct (intersection_Some _ _ _ Hr Ho Ei) as (_ & _ & Hs & He). simpl in *. unfold rg. f_equal. f_equal; lia.
  - exfalso. destruct (proj1 (intersection_elem_of _ _ (Z.max a E) Hr Ho)) as (i & Hi & _); [|congruence].
    unfold elem_of, region_elem_of. simpl. lia.
Qed.

(** One entry, from [cur] to the end of the entry or of the range. *)
Lemma walk_one l next ls below table a b s x i : hier (l :: next :: ls) -> range_ok l a b ->
  (forall c a b s x, range_ok next a b -> walk_pre next ls c a b s ->
    exists r s' x', below c (rg a b) (s, x) = Return (r, (s', x')) /\ walk_post next ls c a b s x r s' x') ->
  0 <= i < 512 -> a < entry_at l a i + 2 ^ MAP_SHIFT l -> entry_at l a i < b ->
  let E := entry_at l a i in let cur := Z.max a E in let m := Z.min b (E + 2 ^ MAP_SHIFT l) in
  pt_inv allocate (l :: next :: ls) s table ->
  (forall va, cur <= va < b -> Pre va (view (l :: next :: ls) (tables s) table va)) ->
  exists r s1 x1,
    (forall idxs, walk_entries alloc l next below table (rg a b) op (a - a mod 2 ^ (MAP_SHIFT l + 9)) (i :: idxs) (s, x) =
      match r with
      | Ok _ => walk_entries alloc l next below table (rg a b) op (a - a mod 2 ^ (MAP_SHIFT l + 9)) idxs (s1, x1)
      | Err e => Return (Err e, (s1, x1))
      end) /\
    walk_post l (next :: ls) table cur m s x r s1 x1.
Proof.
  intros Hh Hr Hbelow Hi HaE HEb E cur m Hinv Hpre. pose proof (hier_laws _ _ _ _ _ _ Hh) as Ll. pose proof (ll_shift l Ll) as Hsh.
  destruct (entry_at_spec l a b i Ll Hr Hi) as (HE0 & HEw & HEpos & HEend & Hidx). fold E in HE0, HEw, HEpos, HEend, Hidx.
  pose proof Hr as (Hab & Hb48 & Haa & Hba & Hwab). inversion Hh as [|? ? ? _ Lk Hsn Hml Hh']; subst.
  assert (Hk : 0 < 2 ^ MAP_SHIFT l) by (apply Z.pow_pos_nonneg; lia).
  assert (HEi : pg_index l E = i) by (apply Hidx; [done|fold E; lia]).
  assert (Hpow : 2 ^ MAP_SHIFT l mod PAGE_SIZE = 0) by (change PAGE_SIZE with (2 ^ 12); replace (MAP_SHIFT l) with ((MAP_SHIFT l - 12) + 12) by lia; rewrite Z.pow_add_r by lia; apply Z.mod_mul; lia).
  assert (HEal : E mod PAGE_SIZE = 0) by (apply Z.div_exact in HE0; [|lia]; rewrite HE0, Z.mul_mod, Hpow by (unfold PAGE_SIZE; lia); apply Z.mod_0_l; unfold PAGE_SIZE; lia).
  assert (Hcal : cur mod PAGE_SIZE = 0) by (unfold cur; destruct (Z.max_spec a E) as [[_ ->]|[_ ->]]; done).
  assert (Hmal : m mod PAGE_SIZE = 0) by (unfold m; destruct (Z.min_spec b (E + 2 ^ MAP_SHIFT l)) as [[_ ->]|[_ ->]]; [done|rewrite Z.add_mod, HEal, Hpow by (unfold PAGE_SIZE; lia); done]).
  assert (Hwin : forall va, a <= va < b -> window l va a).
  { intros va Hva. unfold window in *. apply Z.le_antisymm; [rewrite Hwab|]; apply Z.div_le_mono; try lia; apply Z.pow_pos_nonneg; lia. }
  assert (Hent : forall idxs, walk_entries alloc l next below table (rg a b) op (a - a mod 2 ^ (MAP_SHIFT l + 9)) (i :: idxs) (s, x) =
    let! (r, pt) := walk_entry alloc l next table (rg a b) op E s in
      match r with
      | Err e => Return (Err e, (pt, x))
      | Ok None => walk_entries alloc l next below table (rg a b) op (a - a mod 2 ^ (MAP_SHIFT l + 9)) idxs (pt, x)
      | Ok (Some next_pa) =>
          let? (_, s) := below next_pa (rg cur m) (pt, x) in
          walk_entries alloc l next below table (rg a b) op (a - a mod 2 ^ (MAP_SHIFT l + 9)) idxs s
      end).
  { intros idxs. cbn [walk_entries]. rewrite ushl_1 by lia. unfold umul, add_bytes.
    assert (H49 : 2 ^ 49 < 2 ^ 64) by (apply Z.pow_lt_mono_r; lia).
    assert (Hbase : 0 <= a - a mod 2 ^ (MAP_SHIFT l + 9)) by (pose proof (Z.mod_le a (2 ^ (MAP_SHIFT l + 9)) ltac:(lia) ltac:(apply Z.pow_pos_nonneg; lia)); lia).
    rewrite wrap_small by (unfold usize_ok; unfold E, entry_at in *; nia).
    rewrite uadd_small by (unfold E, entry_at in *; lia || nia).
    change (a - a mod 2 ^ (MAP_SHIFT l + 9) + i * 2 ^ MAP_SHIFT l) with E.
    rewrite intersection_rg by lia. done. }
  destruct (Hentry l next ls table a b s x E Hh Hr HE0 HEw HaE HEb Hinv) as (r & s1 & He & Hst & Hpost).
  { intros va Hva1 Hva2. apply Hpre. unfold cur. lia. }
  setoid_rewrite Hent. rewrite He. cbn [obind]. destruct r as [[c|]|e].
  - destruct Hpost as [Hn Hkeep]. rewrite HEi in Hn. pose proof (pt_step_inv _ _ _ _ _ Hinv Hst) as Hinv1.
    assert (Hview : forall va, cur <= va < m -> view (next :: ls) (tables s1) c va = view (l :: next :: ls) (tables s1) table va).
    { intros va Hva. symmetry. apply (view_linked l _ _ _ _ _ i); [apply Hidx; [apply Hwin|]; unfold cur, m in *; lia|done]. }
    destruct (Hbelow c cur m s1 x) as (r2 & s2 & x2 & Hb2 & Hp2).
    { split; [unfold cur, m; lia|]. split; [unfold m; lia|]. split; [done|]. split; [done|]. unfold window. rewrite <- Hsn.
      apply (window_split l); [lia|unfold window in Hwin; rewrite (Hwin cur), (Hwin (m - 1)) by (unfold cur, m; lia); done|].
      transitivity i; [|symmetry]; apply Hidx; try (apply Hwin); unfold cur, m; lia. }
    { split; [eapply pt_inv_child; [exact Hinv1|exact Hi|exact Hn]|]. intros va Hva. rewrite Hview by done.
      eapply pre_keep; [apply Hpre; unfold cur, m in *; lia|apply Hkeep]. }
    exists r2, s2, x2. split; [intros idxs; rewrite Hb2; by destruct r2|].
    apply (walk_post_lift l next ls table c cur m s x s1 r2 s2 x2 E); try done; try (unfold cur, m; lia); try (by rewrite HEi).
    + intros va Hva. rewrite HEi. symmetry. apply Hidx. unfold window in *. rewrite Hva. apply Hwin. unfold cur. lia.
    + intros va Hva. unfold window in *. rewrite (Hwin va), (Hwin cur) by (unfold cur, m in *; lia). done.
  - exists (Ok tt), s1, x. split; [done|]. split; [done|]. split.
    + intros va Hva. assert (Hva' : window l va a) by (unfold window in *; rewrite Hva; apply Hwin; unfold cur; lia).
      destruct (Hpost va Hva') as [G K]. split; intros Hin; [apply G; unfold cur, m in *; lia|apply K; unfold cur, m in *; lia].
    + symmetry. apply hfold_id. intros p [_ Hp]%elem_of_pgs; [|done..]. apply (Hpost p); [apply Hwin| |]; unfold cur, m in *; lia.
  - destruct Hpost as [Herr Hkeep]. exists (Err e), s1, x. split; [done|]. split; [done|]. split; [done|].
    intros va _. split; intros _; [right|]; apply Hkeep.
Qed.

Lemma walk_entries_spec l next ls below table a b n i s x : hier (l :: next :: ls) -> range_ok l a b ->
  (forall c a b s x, range_ok next a b -> walk_pre next ls c a b s ->
    exists r s' x', below c (rg a b) (s, x) = Return (r, (s', x')) /\ walk_post next ls c a b s x r s' x') ->
  pg_index l a <= i -> i + Z.of_nat n = pg_index l (b - 1) + 1 ->
  let cur := Z.max a (entry_at l a i) in
  pt_inv allocate (l :: next :: ls) s table ->
  (forall va, cur <= va < b -> Pre va (view (l :: next :: ls) (tables s) table va)) ->
  exists r s' x',
    walk_entries alloc l next below table (rg a b) op (a - a mod 2 ^ (MAP_SHIFT l + 9)) (seqZ i (Z.of_nat n)) (s, x) =
      Return (r, (s', x')) /\
    (cur < b -> walk_post l (next :: ls) table cur b s x r s' x') /\
    (b <= cur -> r = Ok tt /\ s' = s /\ x' = x).
Proof.
  intros Hh Hr Hbelow. pose proof (hier_laws _ _ _ _ _ _ Hh) as Ll. pose proof (ll_shift l Ll) as Hsh.
  pose proof Hr as (Hab & Hb48 & Haa & Hba & Hwab).
  assert (Hk : 0 < 2 ^ MAP_SHIFT l) by (apply Z.pow_pos_nonneg; lia).
  assert (Hwin : forall va, a <= va < b -> window l va a).
  { intros va Hva. unfold window in *. apply Z.le_antisymm; [rewrite Hwab|]; apply Z.div_le_mono; try lia; apply Z.pow_pos_nonneg; lia. }
  pose proof (pg_index_range l a ltac:(lia)) as Hra. pose proof (pg_index_range l (b - 1) ltac:(lia)) as Hrb.
  assert (Hstep : forall i, entry_at l a (i + 1) = entry_at l a i + 2 ^ MAP_SHIFT l) by (intros; unfold entry_at; lia).
  destruct (entry_at_spec l a b (pg_index l (b - 1)) Ll Hr Hrb) as (_ & _ & _ & _ & Hib).
  destruct (entry_at_spec l a b (pg_index l a) Ll Hr Hra) as (_ & _ & _ & _ & Hia).
  pose proof (proj1 (Hib (b - 1) ltac:(apply Hwin; lia)) eq_refl) as Hlast.
  pose proof (proj1 (Hia a ltac:(done)) eq_refl) as Hfirst.
  assert (Hmono : forall i j, i <= j -> entry_at l a i <= entry_at l a j) by (intros; unfold entry_at; nia).
  revert i s x. induction n as [|n IH]; intros i s x Hai Hn cur Hinv Hpre.
  - exists (Ok tt), s, x. split; [done|]. assert (Hi : i = pg_index l (b - 1) + 1) by lia.
    assert (b <= cur) by (unfold cur; rewrite Hi, Hstep; lia). split; [lia|done].
  - rewrite Nat2Z.inj_succ, seqZ_cons by lia. rewrite Z.pred_succ.
    assert (HE : a < entry_at l a i + 2 ^ MAP_SHIFT l) by (pose proof (Hmono _ _ Hai); lia).
    assert (HEb : entry_at l a i < b) by (pose proof (Hmono i (pg_index l (b - 1)) ltac:(lia)); lia).
    destruct (walk_one l next ls below table a b s x i Hh Hr Hbelow ltac:(lia) HE HEb Hinv Hpre) as (r & s1 & x1 & Heq & Hp1).
    rewrite Heq. fold cur in Hp1. set (m := Z.min b (entry_at l a i + 2 ^ MAP_SHIFT l)) in *.
    assert (Hcm : cur < m) by (unfold cur, m; lia). assert (Hcb : cur < b) by (unfold cur; lia).
    destruct r as [[]|e]; [|exists (Err e), s1, x1; split; [done|]; split; [intros _|lia]; apply (walk_post_err _ _ _ cur m b); [unfold m in *; lia|done]].
    pose proof Hp1 as [Hst1 [Hv1 _]]. replace (Z.succ i) with (i + 1) by lia.
    destruct (IH (i + 1) s1 x1) as (r & s2 & x2 & -> & Hp2 & Hend); [lia|lia|by eapply pt_step_inv| |].
    { intros va Hva. rewrite Hstep in Hva. eapply pre_keep; [apply Hpre; unfold cur; lia|apply (Hv1 va)]; [|unfold m; lia].
      unfold window in *. rewrite (Hwin va), (Hwin cur) by (unfold cur; lia). done. }
    exists r, s2, x2. split; [done|]. split; [intros _|lia]. rewrite Hstep in Hp2, Hend.
    assert (Hpow : 2 ^ MAP_SHIFT l mod PAGE_SIZE = 0) by (change PAGE_SIZE with (2 ^ 12); replace (MAP_SHIFT l) with ((MAP_SHIFT l - 12) + 12) by lia; rewrite Z.pow_add_r by lia; apply Z.mod_mul; lia).
    destruct (entry_at_spec l a b i Ll Hr ltac:(lia)) as (HE0 & _).
    assert (HEal : entry_at l a i mod PAGE_SIZE = 0) by (apply Z.div_exact in HE0; [|lia]; rewrite HE0, Z.mul_mod, Hpow by (unfold PAGE_SIZE; lia); apply Z.mod_0_l; unfold PAGE_SIZE; lia).
    apply (walk_post_seq l (next :: ls) table cur m b s x s1 x1); [unfold m in *; lia| | |done| | |done|].
    + unfold cur; destruct (Z.max_spec a (entry_at l a i)) as [[_ ->]|[_ ->]]; done.
    + unfold m; destruct (Z.min_spec b (entry_at l a i + 2 ^ MAP_SHIFT l)) as [[_ ->]|[_ ->]]; [done|].
      rewrite Z.add_mod, HEal, Hpow by (unfold PAGE_SIZE; lia); done.
    + intros va Hva. unfold window in *. rewrite (Hwin va), (Hwin cur) by (unfold cur in *; lia). done.
    + intros Hmb. apply Hend. unfold m in *. lia.
    + intros Hmb. replace m with (Z.max a (entry_at l a i + 2 ^ MAP_SHIFT l)) by (unfold m in *; lia). apply Hp2. unfold m in *. lia.
Qed.

Lemma walk_spec l ls table a b s x : hier (l :: ls) -> range_ok l a b -> walk_pre l ls table a b s ->
  exists r s' x', walk_with_allocator alloc (l :: ls) table (rg a b) op (s, x) = Return (r, (s', x')) /\
    walk_post l ls table a b s x r s' x'.
Proof.
  revert l table a b s x. induction ls as [|next ls IH]; intros l table a b s x Hh Hr Hpre.
  - pose proof Hr as (Hab & Hb48 & Haa & Hba & _). assert (2 ^ 48 < 2 ^ 64) by (apply Z.pow_lt_mono_r; lia).
    cbn [walk_with_allocator]. unfold rg. rewrite iter_pages_pgs by (done || lia).
    destruct (Hleaf l table a b s x Hh Hr Hpre) as (s' & x' & -> & Hp). exists (Ok tt), s', x'. by split.
  - pose proof Hr as (Hab & Hb48 & Haa & Hba & Hwab). pose proof Hpre as [Hinv Hp].
    pose proof (hier_laws _ _ _ _ _ _ Hh) as Ll. pose proof (ll_shift l Ll) as Hsh.
    assert (H48 : 2 ^ 48 < 2 ^ 64) by (apply Z.pow_lt_mono_r; lia).
    assert (Hrok : region_ok (rg a b)) by (unfold region_ok; simpl; lia).
    inversion Hh as [|? ? ? _ Lk Hsn Hml Hh']; subst.
    cbn [walk_with_allocator]. unfold walk_table_level. rewrite end_address_inclusive_eq by (done || (simpl; lia)).
    rewrite ushl_1 by lia. cbn [start_address rg rsize]. rewrite align_pow2 by (unfold usize_ok; lia).
    cbn [obind]. replace (a + (b - a) - 1) with (b - 1) by lia.
    pose proof (pg_index_range l a ltac:(lia)) as Hra. pose proof (pg_index_range l (b - 1) ltac:(lia)) as Hrb.
    assert (Hle : pg_index l a <= pg_index l (b - 1)).
    { destruct (entry_at_spec l a b (pg_index l (b - 1)) Ll Hr Hrb) as (_ & _ & _ & _ & Hib).
      destruct (entry_at_spec l a b (pg_index l a) Ll Hr Hra) as (_ & _ & _ & _ & Hia).
      pose proof (proj1 (Hib (b - 1) ltac:(unfold window in *; congruence)) eq_refl).
      pose proof (proj1 (Hia a ltac:(done)) eq_refl). unfold entry_at in *.
      assert (0 < 2 ^ MAP_SHIFT l) by (apply Z.pow_pos_nonneg; lia). nia. }
    destruct (walk_entries_spec l next ls (fun t r q => walk_with_allocator alloc (next :: ls) t r op q) table a b
      (Z.to_nat (pg_index l (b - 1) + 1 - pg_index l a)) (pg_index l a) s x Hh Hr) as (r & s' & x' & Heq & Hpost & _);
      [intros; by apply IH|lia|lia|done|intros va Hva; apply Hp; lia|].
    rewrite Z2Nat.id in Heq by lia. exists r, s', x'. split; [exact Heq|].
    destruct (entry_at_spec l a b (pg_index l a) Ll Hr Hra) as (_ & _ & _ & _ & Hia).
    pose proof (proj1 (Hia a ltac:(done)) eq_refl) as Hfirst.
    rewrite Z.max_l in Hpost by lia. apply Hpost. lia.
Qed.
End Walk.

Lemma NoDup_pgs a b : NoDup (pgs a b).
Proof. unfold pgs. apply NoDup_fmap_2; [|apply NoDup_seqZ]. intros x y. unfold PAGE_SIZE. lia. Qed.

(** ** The last level *)

Section Leaf.
Context {MT AT A X : Type} (allocate : A -> result Z * A) `{L : PageAllocLaws A allocate}.
Context (pab : Z) (attr_ok : AT -> Prop) (attr_perms : AT -> PtePermissions)
  (pview : Level MT AT -> PtePermissions -> option PtePermissions).
Notation Level := (Level MT AT).
Notation St := (PtState A).
Notation hier := (hier pab attr_ok attr_perms pview).
Notation View := (option (Level * Z)).
Context (op : WalkOperation A X) (g : Z -> Z -> Z) (h : X -> Z -> Z -> X).
Hypothesis op_pure : forall va d s x, apply_op op va d (s, x) = Return (g va d, (s, h x va d)).
Hypothesis g_ok : forall va d, usize_ok d -> usize_ok (g va d).

(** The new view of an address of page [p]. *)
Definition updv (p : Z) (v : View) : View :=
  match v with
  | Some (l, d) => if is_valid l (g p d) then Some (l, g p d) else None
  | None => None
  end.
Definition hview (v : View) (x : X) (p : Z) : X := match v with Some (_, d) => h x p d | None => x end.

Lemma leaf_index (l : Level) va p : MAP_SHIFT l = 12 -> window l va p -> p mod PAGE_SIZE = 0 ->
  pg_index l va = pg_index l p <-> page_of va = p.
Proof.
  intros H12 Hw Hp. rewrite (window_split l va p) by (lia || exact Hw). rewrite H12. change (2 ^ 12) with PAGE_SIZE.
  apply Z.div_exact in Hp; [|unfold PAGE_SIZE; lia]. unfold page_of.
  pose proof (Z.div_mod va PAGE_SIZE ltac:(unfold PAGE_SIZE; lia)). unfold PAGE_SIZE in *. lia.
Qed.

Lemma hview_fold_ext (f f' : Z -> View) ps x : (forall q, q ∈ ps -> f q = f' q) ->
  fold_left (fun x p => hview (f p) x p) ps x = fold_left (fun x p => hview (f' p) x p) ps x.
Proof.
  revert x. induction ps as [|p ps IH]; intros x Hf; [done|]. simpl. rewrite (Hf p) by by left.
  apply IH. intros q Hq. apply Hf. by right.
Qed.

Lemma hview_fold_ext' (f f' : X -> Z -> X) ps x : (forall y q, f y q = f' y q) -> fold_left f ps x = fold_left f' ps x.
Proof. intros Hf. revert x. induction ps as [|p ps IH]; intros x; [done|]. simpl. by rewrite Hf. Qed.

Lemma walk_leaf_pages (l : Level) table a ps (s : St) x : hier [l] -> pt_inv allocate [l] s table -> NoDup ps ->
  (forall p, p ∈ ps -> p mod PAGE_SIZE = 0 /\ window l p a) ->
  exists s' x', walk_leaf l table ps op (s, x) = Return (s', x') /\ pt_step allocate [l] table s s' /\
    (forall va, window l va a ->
      (page_of va ∈ ps -> view [l] (tables s') table va = updv (page_of va) (view [l] (tables s) table va)) /\
      (page_of va ∉ ps -> view [l] (tables s') table va = view [l] (tables s) table va)) /\
    x' = fold_left (fun x p => hview (view [l] (tables s) table p) x p) ps x.
Proof.
  intros Hh. inversion Hh as [? Ll H12 Hno|]; subst. revert s x. induction ps as [|p ps IH]; intros s x Hinv Hnd Hps.
  { exists s, x. split; [done|]. split; [apply pt_step_refl, Hinv|]. split; [|done].
    intros va _. split; [by intros ?%not_elem_of_nil|done]. }
  apply NoDup_cons in Hnd as [Hp Hnd]. destruct (Hps p ltac:(by left)) as [Hpa Hpw].
  cbn [walk_leaf fold_left]. unfold get_desc. cbn [fst snd]. pose proof (hier_index _ _ _ _ l [] p Hh) as Hi.
  assert (Hvp : view [l] (tables s) table p = if is_valid l (tables s table (pg_index l p)) then Some (l, tables s table (pg_index l p)) else None)
    by (cbn [view]; by rewrite Hno).
  destruct (is_valid l (tables s table (pg_index l p))) eqn:Ev.
  - set (d := tables s table (pg_index l p)) in *. rewrite op_pure. cbn [obind fst snd].
    destruct (set_desc_spec l s table p (g p d) true) as (s1 & -> & Ha1 & Hs1); [rewrite H12; lia|]. cbn [obind].
    destruct (pt_step_store allocate l [] table s s1 (pg_index l p) (g p d) Hinv Hi) as [Hst1 Hv1]; try done.
    { apply g_ok. apply (proj1 Hinv). done. }
    destruct (IH s1 (h x p d)) as (s' & x' & -> & Hst & Hv & Hx); [by eapply pt_step_inv|done|intros q Hq; apply Hps; by right|].
    exists s', x'. split; [done|]. split; [by eapply pt_step_trans|].
    assert (Hvs1 : forall va, window l va a -> view [l] (tables s1) table va =
      if decide (page_of va = p) then updv p (view [l] (tables s) table p) else view [l] (tables s) table va).
    { intros va Hva. rewrite Hv1 by (exact (hier_index _ _ _ _ l [] va Hh)).
      assert (Hq : pg_index l va = pg_index l p <-> page_of va = p) by (apply leaf_index; [done|unfold window in *; congruence|done]).
      destruct (Z.eqb_spec (pg_index l va) (pg_index l p)) as [E|E], (decide (page_of va = p)) as [E'|E']; try tauto.
      rewrite Hvp. done. }
    split.
    + intros va Hva. destruct (Hv va Hva) as [Vin Vout]. split; intros Hin.
      * apply elem_of_cons in Hin as [Hin|Hin].
        -- rewrite Vout by congruence. rewrite Hvs1, decide_True by done. subst p. f_equal.
           cbn [view]. rewrite !Hno. assert (Hq : pg_index l va = pg_index l (page_of va)) by (apply leaf_index; [done|unfold window in *; congruence|done|done]).
           by rewrite Hq.
        -- rewrite Vin, Hvs1, decide_False by (done || congruence). done.
      * apply not_elem_of_cons in Hin as [Hne Hin]. rewrite Vout, Hvs1, decide_False by done. done.
    + rewrite Hx, Hvp. cbn [hview]. apply hview_fold_ext. intros q Hq.
      destruct (Hps q ltac:(by right)) as [Hqa Hqw]. rewrite Hvs1 by done. rewrite decide_False; [done|].
      rewrite (page_of_eq q q) by (done || (unfold PAGE_SIZE; lia)). by intros ->.
  - destruct (IH s x) as (s' & x' & -> & Hst & Hv & Hx); [done|done|intros q Hq; apply Hps; by right|].
    exists s', x'. split; [done|]. split; [done|]. rewrite Hvp. cbn [hview]. split; [|done].
    intros va Hva. destruct (Hv va Hva) as [Vin Vout]. split; intros Hin.
    + apply elem_of_cons in Hin as [Hin|Hin]; [|by apply Vin]. rewrite Vout by congruence.
      assert (Hq : pg_index l va = pg_index l p) by (apply leaf_index; [done|unfold window in *; congruence|done|done]).
      cbn [view]. by rewrite Hno, Hq, Ev.
    + apply not_elem_of_cons in Hin as [_ Hin]. by apply Vout.
Qed.

Lemma leaf_pure (Keep Good : Z -> View -> View -> Prop) (Pre : Z -> View -> Prop) (hstep : View -> X -> Z -> X)
    (errs : KernelError -> Prop) :
  (forall va v, Keep va v v) -> (forall va v, Pre va v -> Good va v (updv (page_of va) v)) ->
  (forall v x p, hstep v x p = hview v x p) ->
  leaf_spec allocate pab attr_ok attr_perms pview op Keep Good Pre hstep errs.
Proof.
  intros Hkr Hgood Hh l table a b s x Hhier (Hab & Hb & Haa & Hba & Hw) [Hinv Hpre].
  assert (H12 : MAP_SHIFT l = 12) by (by inversion Hhier).
  assert (Hwin : forall va, a <= va < b -> window l va a).
  { intros va Hva. unfold window in *. apply Z.le_antisymm; [rewrite Hw|]; apply Z.div_le_mono; try lia; apply Z.pow_pos_nonneg; lia. }
  destruct (walk_leaf_pages l table a (pgs a b) s x Hhier Hinv (NoDup_pgs a b)) as (s' & x' & -> & Hst & Hv & Hx).
  { intros p [Hp Hr]%elem_of_pgs; [|done..]. split; [done|by apply Hwin]. }
  exists s', x'. split; [done|]. split; [done|].
  assert (Hpg : forall va, page_of va ∈ pgs a b <-> a <= va < b).
  { intros va. rewrite elem_of_pgs by done. destruct (page_of_spec va) as [Hp Hr].
    apply Z.div_exact in Hp, Haa, Hba; [|unfold PAGE_SIZE; lia..]. unfold PAGE_SIZE in *. split; [lia|].
    intros H'. split; [apply Z.div_exact; lia|lia]. }
  split.
  - intros va Hva. destruct (Hv va Hva) as [Vin Vout]. split; intros Hin.
    + rewrite Vin by by apply Hpg. apply Hgood. by apply Hpre.
    + rewrite Vout by (by rewrite Hpg). apply Hkr.
  - rewrite Hx. unfold hfold. apply hview_fold_ext'. intros y q. symmetry. apply Hh.
Qed.
End Leaf.
