(* ===== verification/PgThms.v ===== *)
(** * Page tables: what the operations do

    Mapping a range, changing the pages of a range, punching a hole and reading an entry,
    for any hierarchy that satisfies [hier] of PgDesc and any page allocator that satisfies
    [PageAllocLaws] of PgInv, with runs on the levels of arm64. *)
From stdpp Require Import base list.
From S2P Require Import Prelude Error Address Region Vma PgDesc PgTables PgInv PgMap PgWalk.
Local Open Scope Z_scope.

(** Between two multiples of [k] there is room for [k]. *)
Lemma aligned_room k a b : 0 < k -> a mod k = 0 -> b mod k = 0 -> a < b -> a + k <= b.
Proof.
  intros Hk Ha Hb Hab. apply Z.div_exact in Ha, Hb; [|lia..]. set (u := a / k) in *. set (w := b / k) in *. clearbody u w.
  subst a b. assert (u < w) by nia. nia.
Qed.

(** The part of the window of a table that belongs to an entry. *)
Lemma entry_window {MT AT : Type} (l : Level MT AT) a b E : 12 <= MAP_SHIFT l <= 39 -> range_ok l a b -> E mod 2 ^ MAP_SHIFT l = 0 -> window l E a ->
  (forall va, a <= va < b -> window l va a) /\
  (forall va, window l va a -> E <= va < E + 2 ^ MAP_SHIFT l <-> pg_index l va = pg_index l E) /\ 0 <= E < 2 ^ 48.
Proof.
  intros Hsh (Hab & Hb & Haa & Hba & Hw) HE HEw. assert (Hk : 0 < 2 ^ MAP_SHIFT l) by (apply Z.pow_pos_nonneg; lia).
  assert (Hk9 : 0 < 2 ^ (MAP_SHIFT l + 9)) by (apply Z.pow_pos_nonneg; lia).
  split; [|split].
  - intros va Hva. unfold window in *. apply Z.le_antisymm; [rewrite Hw|]; apply Z.div_le_mono; lia.
  - intros va Hva. rewrite window_split by (lia || unfold window in *; congruence).
    apply Z.div_exact in HE; [|lia]. set (q := E / 2 ^ MAP_SHIFT l) in *. clearbody q. subst E. split.
    + intros Hr. symmetry. apply (Z.div_unique_pos va (2 ^ MAP_SHIFT l) _ (va - 2 ^ MAP_SHIFT l * q)); lia.
    + intros Hq. pose proof (Z.div_mod va (2 ^ MAP_SHIFT l) ltac:(lia)). pose proof (Z.mod_pos_bound va (2 ^ MAP_SHIFT l) Hk). nia.
  - unfold window in HEw. assert (Hd : 0 <= a / 2 ^ (MAP_SHIFT l + 9)) by (apply Z.div_pos; lia). rewrite <- HEw in Hd.
    assert (Hu : a / 2 ^ (MAP_SHIFT l + 9) < 2 ^ 48 / 2 ^ (MAP_SHIFT l + 9)).
    { replace (2 ^ 48) with (2 ^ (39 - MAP_SHIFT l) * 2 ^ (MAP_SHIFT l + 9)) in *.
      2: { rewrite <- Z.pow_add_r by lia. f_equal. lia. }
      rewrite Z.div_mul by lia. apply Z.div_lt_upper_bound; [lia|]. lia. }
    rewrite <- HEw in Hu. pose proof (Z.div_mod E (2 ^ (MAP_SHIFT l + 9)) ltac:(lia)). pose proof (Z.mod_pos_bound E _ Hk9).
    split; [nia|]. destruct (Z.lt_ge_cases E (2 ^ 48)) as [|Hge]; [done|]. pose proof (Z.div_le_mono _ _ _ Hk9 Hge). lia.
Qed.

Section Modify.
Context {MT AT A X : Type} (allocate : A -> result Z * A) `{L : PageAllocLaws A allocate}.
Context (pab : Z) (attr_ok : AT -> Prop) (attr_perms : AT -> PtePermissions)
  (pview : Level MT AT -> PtePermissions -> option PtePermissions).
Notation Level := (Level MT AT).
Notation St := (PtState A).
Notation hier := (hier pab attr_ok attr_perms pview).
Notation View := (option (Level * Z)).

(** A closure that looks at the address and the entry and keeps a state of its own. *)
Context (modifier : Z -> Z -> St * X -> outcome (Z * (St * X))) (g : Z -> Z -> Z) (h : X -> Z -> Z -> X).
Hypothesis modifier_pure : forall va d s x, modifier va d (s, x) = Return (g va d, (s, h x va d)).
Hypothesis g_ok : forall va d, usize_ok d -> usize_ok (g va d).

(** No block maps the address. *)
Definition leafy (va : Z) (v : View) : Prop := match v with Some (l, _) => MAP_SHIFT l = 12 | None => True end.

Lemma modify_entry : entry_spec (X := X) allocate pab attr_ok attr_perms pview reject_block_alloc (Modify modifier)
  (fun _ v v' => v' = v) (fun va v v' => v' = updv g (page_of va) v) leafy (hview h) (fun _ => False).
Proof.
  intros l next ls table a b s x E Hh (Hab & Hb & Haa & Hba & Hw) HE HEw HaE HEb Hinv Hpre.
  inversion Hh as [|? ? ? Ll Lk Hsn Hml Hh']; subst. pose proof (ll_shift l Ll) as Hsh.
  pose proof (ll_shift next (hier_laws _ _ _ _ _ _ Hh')) as Hshn.
  destruct (entry_window l a b E Hsh (conj Hab (conj Hb (conj Haa (conj Hba Hw)))) HE HEw) as (Hwin & Hsame & _).
  unfold walk_entry, get_desc. cbn [andb].
  destruct (next_table_address l (tables s table (pg_index l E))) as [c|] eqn:En.
  { exists (Ok (Some c)), s. split; [done|]. split; [apply pt_step_refl, Hinv|]. by split. }
  destruct (is_valid l (tables s table (pg_index l E))) eqn:Ev.
  { exfalso. set (va := Z.max a E). assert (Hin : a <= va < b) by (unfold va; lia).
    assert (HinE : E <= va < E + 2 ^ MAP_SHIFT l) by (unfold va; lia).
    pose proof (Hpre va Hin HinE) as Hl. cbn [view] in Hl. rewrite (proj1 (Hsame va (Hwin va Hin)) HinE), En, Ev in Hl.
    simpl in Hl. lia. }
  exists (Ok None), s. split; [done|]. split; [apply pt_step_refl, Hinv|]. intros va Hva. split; [|done].
  intros HrE Hr. cbn [view]. rewrite (proj1 (Hsame va Hva) HrE), En, Ev. done.
Qed.

(** A walk that changes the pages of a range. *)
Lemma walk_modify_spec l ls table a b s x : hier (l :: ls) -> MAP_SHIFT l = 39 -> pt_inv allocate (l :: ls) s table ->
  0 <= a <= b -> b <= 2 ^ 48 -> a mod PAGE_SIZE = 0 -> b mod PAGE_SIZE = 0 ->
  (forall va, a <= va < b -> leafy va (view (l :: ls) (tables s) table va)) ->
  exists s' x', walk_and_modify_region (l :: ls) table (rg a b) modifier (s, x) = Return (Ok tt, (s', x')) /\
    pt_step allocate (l :: ls) table s s' /\
    (forall va, 0 <= va < 2 ^ 48 -> view (l :: ls) (tables s') table va =
      if decide (a <= va < b) then updv g (page_of va) (view (l :: ls) (tables s) table va)
      else view (l :: ls) (tables s) table va) /\
    x' = fold_left (fun x p => hview h (view (l :: ls) (tables s) table p) x p) (pgs a b) x.
Proof.
  intros Hh H39 Hinv Hab Hb Haa Hba Hleaf. unfold walk_and_modify_region, region_is_page_aligned. cbn [rg start_address rsize].
  rewrite (proj2 (is_page_aligned_spec a) Haa). simpl. destruct (Z.eqb_spec (b - a) 0) as [Hz|Hnz].
  { exists s, x. split; [done|]. split; [apply pt_step_refl, Hinv|]. rewrite pgs_nil by lia. split; [|done].
    intros va _. rewrite decide_False by lia. done. }
  fold (rg a b).
  destruct (walk_spec allocate pab attr_ok attr_perms pview reject_block_alloc (Modify modifier)
    (fun _ v v' => v' = v) (fun va v v' => v' = updv g (page_of va) v) leafy (hview h) (fun _ => False)) with (l := l) (ls := ls)
    (table := table) (a := a) (b := b) (s := s) (x := x) as (r & s' & x' & Hw & Hst & Hpost); try done.
  - intros; congruence.
  - intros; subst; done.
  - intros; subst; done.
  - intros; subst; done.
  - intros; subst; done.
  - eapply leaf_pure; done.
  - apply modify_entry.
  - split; [lia|]. split; [done|]. split; [done|]. split; [done|]. unfold window. rewrite H39, !Z.div_small by lia. done.
  - exists s', x'. destruct r as [[]|e]; [|by destruct Hpost]. destruct Hpost as [Hv Hx].
    split; [done|]. split; [done|]. split; [|done]. intros va Hva.
    destruct (Hv va) as [V1 V2]; [unfold window; rewrite H39, !Z.div_small by lia; done|].
    case_decide as Hd; [by apply V1|by apply V2].
Qed.
End Modify.

(** ** Punching holes *)

Section Punch.
Context {MT AT A : Type} (allocate : A -> result Z * A) `{L : PageAllocLaws A allocate}.
Context (pab : Z) (attr_ok : AT -> Prop) (attr_perms : AT -> PtePermissions)
  (pview : Level MT AT -> PtePermissions -> option PtePermissions).
Hypothesis Hpab : 39 <= pab <= 63.
Notation Level := (Level MT AT).
Notation St := (PtState A).
Notation hier := (hier pab attr_ok attr_perms pview).
Notation View := (option (Level * Z)).

(** What an address is translated to: physical address, attributes and permissions. *)
Definition tr (va : Z) (v : View) : option (Z * option AT * option PtePermissions) :=
  match v with
  | Some (l, d) =>
      match mapped_address l d with
      | Some pa => Some (pa + va mod 2 ^ MAP_SHIFT l, mapping_attributes l d, permissions l d)
      | None => None
      end
  | None => None
  end.

(** A block is a proper mapping, at a level that may have blocks. *)
Definition block_ok (va : Z) (v : View) : Prop :=
  match v with
  | Some (l, d) => LevelLaws l /\
      (MAP_SHIFT l = 12 \/ (mapping_attributes l d <> None /\ MapLaws pab attr_ok attr_perms (pview l) l))
  | None => True
  end.

Definition tr_keep (va : Z) (v v' : View) : Prop :=
  tr va v' = tr va v /\ (block_ok va v -> block_ok va v') /\ (v = None -> v' = None).
Definition tr_gone (va : Z) (v v' : View) : Prop := v' = None.

(** Physical parts of an aligned block. *)
Lemma phys_ok_sub k pa' j : 0 <= k -> k + 9 <= 39 -> phys_ok pab (k + 9) pa' -> 0 <= j < 512 ->
  phys_ok pab k (pa' + j * 2 ^ k).
Proof.
  intros Hk H39 [Hpr Hpm] Hj. assert (Hk' : 0 < 2 ^ k) by (apply Z.pow_pos_nonneg; lia).
  assert (Hp9 : 2 ^ (k + 9) = 2 ^ k * 512) by (rewrite Z.pow_add_r by lia; done).
  assert (Hd : 2 ^ pab mod 2 ^ (k + 9) = 0).
  { replace pab with ((pab - (k + 9)) + (k + 9)) by lia. rewrite Z.pow_add_r by lia. apply Z.mod_mul. lia. }
  pose proof (aligned_room (2 ^ (k + 9)) pa' (2 ^ pab) ltac:(lia) Hpm Hd ltac:(lia)) as Hroom. rewrite Hp9 in Hroom, Hpm. split; [nia|].
  rewrite Z.mod_add by lia. apply Z.div_exact in Hpm; [|lia]. set (w := pa' / (2 ^ k * 512)) in *. clearbody w. subst pa'.
  replace (2 ^ k * 512 * w) with ((512 * w) * 2 ^ k) by lia. apply Z.mod_mul. lia.
Qed.

(** The mappings of a table that replaces a block. *)
Lemma fill_table_spec (next : Level) table E pa' at' idxs (s : St) : LevelLaws next -> MapLaws pab attr_ok attr_perms (pview next) next ->
  attr_ok at' -> phys_ok pab (MAP_SHIFT next + 9) pa' -> MAP_SHIFT next + 9 <= 39 ->
  0 <= E < 2 ^ 48 -> E mod 2 ^ (MAP_SHIFT next + 9) = 0 -> NoDup idxs -> (forall j, j ∈ idxs -> 0 <= j < 512) ->
  exists s', fill_table next table E pa' at' idxs s = Return s' /\ page_alloc s' = page_alloc s /\
    (forall t j, (t <> table \/ j ∉ idxs) -> tables s' t j = tables s t j) /\
    (forall j, j ∈ idxs -> new_mapping next (pa' + j * 2 ^ MAP_SHIFT next) at' = Return (tables s' table j)).
Proof.
  intros Ln Hml Hat Hpa H39 HE HEa. pose proof (ll_shift next Ln) as Hsh. set (k := MAP_SHIFT next) in *.
  assert (Hk : 0 < 2 ^ k) by (apply Z.pow_pos_nonneg; lia).
  assert (Hp9 : 2 ^ (k + 9) = 2 ^ k * 512) by (rewrite Z.pow_add_r by lia; done).
  assert (Hk39 : 2 ^ (k + 9) <= 2 ^ 39) by (apply Z.pow_le_mono_r; lia).
  assert (Hp63 : 2 ^ pab <= 2 ^ 63) by (apply Z.pow_le_mono_r; lia).
  pose proof (fun j => phys_ok_sub k pa' j ltac:(lia) H39 Hpa) as Hsub. destruct Hpa as [Hpr _].
  revert s. induction idxs as [|j idxs IH]; intros s Hnd Hj.
  { exists s. split; [done|]. split; [done|]. split; [done|]. by intros j ?%not_elem_of_nil. }
  apply NoDup_cons in Hnd as [Hnj Hnd]. pose proof (Hj j ltac:(by left)) as Hjr. cbn [fill_table]. fold k.
  rewrite ushl_1 by lia. unfold umul, add_bytes. assert (Hjk : 0 <= j * 2 ^ k /\ j * 2 ^ k + 2 ^ k <= 2 ^ (k + 9)) by nia.
  rewrite wrap_small by (unfold usize_ok; lia). destruct (Hsub j Hjr) as [Hps _]. rewrite !uadd_small by lia.
  destruct (ml_new_mapping _ _ _ _ next Hml (pa' + j * 2 ^ k) at') as (d & Hd & Hud & _); [by apply Hsub|done|].
  rewrite Hd. cbn [obind]. destruct (set_desc_spec next s table (E + j * 2 ^ k) d false) as (s1 & -> & Ha1 & Hs1); [fold k; lia|].
  assert (Hidx : pg_index next (E + j * 2 ^ k) = j).
  { rewrite pg_index_eq by (fold k; lia). fold k. apply Z.div_exact in HEa; [|lia]. rewrite HEa, Hp9.
    replace (2 ^ k * 512 * (E / (2 ^ k * 512)) + j * 2 ^ k) with ((j + (E / (2 ^ k * 512)) * 512) * 2 ^ k) by lia.
    rewrite Z.div_mul, Z.mod_add, Z.mod_small by lia. done. }
  rewrite Hidx in Hs1. cbn [obind].
  destruct (IH s1 Hnd ltac:(intros i Hi; apply Hj; by right)) as (s' & -> & Ha' & Hout & Hin).
  exists s'. split; [done|]. split; [congruence|]. split.
  - intros t i Hti. rewrite Hout, Hs1, store_ne; [done|..]; destruct Hti as [?|Hti]; try (by left); right.
    + intros ->. apply Hti. by left.
    + intros Hi. apply Hti. by right.
  - intros i [->|Hi]%elem_of_cons; [|by apply Hin].
    rewrite Hout, Hs1, store_eq by (by right). exact Hd.
Qed.

Lemma alloc_table_spec (s : St) r s1 : alloc_table allocate s = (r, s1) ->
  tables s1 = tables s /\ (forall t, pt_free (page_alloc s1) t -> pt_free (page_alloc s) t) /\
  match r with
  | Ok nt => taken allocate s s1 nt /\ table_ok nt
  | Err e => alloc_error allocate e
  end.
Proof.
  unfold alloc_table. destruct (allocate (page_alloc s)) as [r' a'] eqn:Ea. intros [= <- <-]. split; [done|].
  destruct r' as [nt|e].
  - destruct (pt_alloc_ok _ _ _ Ea) as (? & ? & ? & ?). done.
  - split; [exact (pt_alloc_err _ _ _ Ea)|]. exists (page_alloc s). by rewrite Ea.
Qed.

(** Splitting a block keeps every translation. *)
Lemma split_spec l next ls table E (s : St) d pa' at' nt s1 : hier (l :: next :: ls) ->
  pt_inv allocate (l :: next :: ls) s table -> 0 <= E < 2 ^ 48 -> E mod 2 ^ MAP_SHIFT l = 0 ->
  tables s table (pg_index l E) = d -> next_table_address l d = None -> is_valid l d = true ->
  mapped_address l d = Some pa' -> mapping_attributes l d = Some at' -> MapLaws pab attr_ok attr_perms (pview l) l ->
  alloc_table allocate s = (Ok nt, s1) ->
  exists s3, (let! s2 := fill_table next nt E pa' at' (seqZ 0 DESCRIPTORS_PER_PAGE) s1 in
              set_desc l s2 table E (new_next_table l nt) true) = Return s3 /\
    pt_step allocate (l :: next :: ls) table s s3 /\
    next_table_address l (tables s3 table (pg_index l E)) = Some nt /\
    forall va, tr_keep va (view (l :: next :: ls) (tables s) table va) (view (l :: next :: ls) (tables s3) table va).
Proof.
  intros Hh Hinv HE HEa Hd Hn Hv Hma Hat Hmll Hal. inversion Hh as [|? ? ? Ll Lk Hsn Hml Hh']; subst l0 next0 ls0.
  pose proof (ll_shift l Ll) as Hsh. pose proof (hier_laws _ _ _ _ _ _ Hh') as Ln. pose proof (ll_shift next Ln) as Hshn.
  destruct (alloc_table_spec s (Ok nt) s1 Hal) as (Ht1 & Hfree & Htk & Htok). destruct (Lk nt Htok) as [Hlk Hlu].
  pose proof (hier_index _ _ _ _ l (next :: ls) E Hh) as Hi. set (i := pg_index l E) in *.
  assert (Hud : usize_ok d) by (rewrite <- Hd; by apply (proj1 Hinv)).
  destruct (ml_attrs _ _ _ _ l Hmll d at' Hud Hat) as (Haok & Hperm & pa2 & Hma2 & Hphys).
  rewrite Hma in Hma2. injection Hma2 as <-.
  destruct (fill_table_spec next nt E pa' at' (seqZ 0 DESCRIPTORS_PER_PAGE) s1 Ln Hml Haok) as (s2 & -> & Ha2 & Hout & Hin).
  { by rewrite <- Hsn. } { lia. } { done. } { by rewrite <- Hsn. } { apply NoDup_seqZ. }
  { intros j Hj%elem_of_seqZ. lia. }
  cbn [obind]. destruct (set_desc_spec l s2 table E (new_next_table l nt) true) as (s3 & -> & Ha3 & Hs3); [lia|]. fold i in Hs3.
  assert (Hne : nt <> table) by (intros ->; apply (proj2 Hinv table); [by left|apply Htk]).
  assert (Hnt : forall j, tables s3 nt j = tables s2 nt j) by (intros; rewrite Hs3; apply store_ne; by left).
  assert (Hent : tables s3 table i = new_next_table l nt) by (rewrite Hs3; apply store_eq).
  assert (Hchild : forall j, 0 <= j < 512 -> exists d', tables s3 nt j = d' /\ usize_ok d' /\ is_valid next d' = true /\
    next_table_address next d' = None /\ mapped_address next d' = Some (pa' + j * 2 ^ MAP_SHIFT next) /\ mapping_attributes next d' = Some at').
  { intros j Hj. exists (tables s3 nt j). split; [done|]. rewrite Hnt.
    pose proof (Hin j ltac:(apply elem_of_seqZ; lia)) as Hnm.
    destruct (ml_new_mapping _ _ _ _ next Hml (pa' + j * 2 ^ MAP_SHIFT next) at') as (d' & Hd' & Hrest); [|done|].
    - apply phys_ok_sub; [lia|lia|by rewrite <- Hsn|done].
    - rewrite Hd' in Hnm. injection Hnm as <-. done. }
  destruct (pt_step_link allocate l next ls table s s3 i nt) as [Hst Hvw]; try done.
  - by rewrite Hd.
  - split; [apply Htk|]. rewrite Ha3, Ha2. apply Htk.
  - intros j Hj. destruct (Hchild j Hj) as (d' & -> & ? & _ & ? & _). done.
  - intros t. rewrite Ha3, Ha2. apply Hfree.
  - by rewrite Hent.
  - by rewrite Hent.
  - intros t j Htn Htj. rewrite Hs3, store_ne by (destruct (decide (t = table)) as [->|]; [right; congruence|by left]).
    rewrite Hout by (by left). by rewrite Ht1.
  - exists s3. split; [done|]. split; [done|]. split; [by rewrite Hent|]. intros va. rewrite Hvw by (exact (hier_index _ _ _ _ l (next :: ls) va Hh)).
    destruct (Z.eqb_spec (pg_index l va) i) as [Ei|Ei]; [|done].
    cbn [view]. rewrite Ei, Hd, Hn, Hv.
    destruct (Hchild (pg_index next va) (hier_index _ _ _ _ next ls va Hh')) as (d' & -> & Hu' & Hv' & Hn' & Hm' & Hat').
    rewrite Hn', Hv'. destruct (ml_attrs _ _ _ _ next Hml d' at' Hu' Hat') as (_ & Hperm' & _).
    split; [|split; [intros _; split; [done|right; by rewrite Hat']|done]]. unfold tr. rewrite Hma, Hm', Hat, Hat', Hperm, Hperm'. do 3 f_equal.
    rewrite pg_index_eq, Hsn, Z.pow_add_r by lia. change (2 ^ 9) with 512. rewrite Z.rem_mul_r by lia. lia.
Qed.

Lemma punch_entry : entry_spec (X := unit) allocate pab attr_ok attr_perms pview (alloc_table allocate) PunchHole
  tr_keep tr_gone block_ok (fun _ x _ => x) (alloc_error allocate).
Proof.
  intros l next ls table a b s x E Hh (Hab & Hb & Haa & Hba & Hw) HE HEw HaE HEb Hinv Hpre.
  pose proof (hier_laws _ _ _ _ _ _ Hh) as Ll. pose proof (ll_shift l Ll) as Hsh.
  destruct (entry_window l a b E Hsh (conj Hab (conj Hb (conj Haa (conj Hba Hw)))) HE HEw) as (Hwin & Hsame & HEr).
  unfold walk_entry, get_desc. rewrite ushl_1 by lia. cbn [andb].
  destruct (next_table_address l (tables s table (pg_index l E))) as [c|] eqn:En.
  { exists (Ok (Some c)), s. split; [done|]. split; [apply pt_step_refl, Hinv|]. by split. }
  destruct (is_valid l (tables s table (pg_index l E))) eqn:Ev.
  2: { exists (Ok None), s. split; [done|]. split; [apply pt_step_refl, Hinv|]. intros va Hva. split; [|done].
       intros HrE _. split; [|done]. unfold tr_gone. cbn [view]. by rewrite (proj1 (Hsame va Hva) HrE), En, Ev. }
  set (d := tables s table (pg_index l E)) in *.
  assert (Hblk : mapping_attributes l d <> None /\ MapLaws pab attr_ok attr_perms (pview l) l).
  { set (va := Z.max a E). assert (Hin : a <= va < b) by (unfold va; lia).
    assert (HinE : E <= va < E + 2 ^ MAP_SHIFT l) by (unfold va; lia).
    pose proof (Hpre va Hin HinE) as Hl. cbn [view] in Hl. rewrite (proj1 (Hsame va (Hwin va Hin)) HinE) in Hl. fold d in Hl.
    rewrite En, Ev in Hl. destruct Hl as [_ [Hl|Hl]]; [|done]. exfalso.
    inversion Hh as [|? ? ? _ _ Hsn _ Hh']; subst. pose proof (ll_shift next (hier_laws _ _ _ _ _ _ Hh')). lia. }
  destruct Hblk as [Hat Hmll]. destruct (mapping_attributes l d) as [at'|] eqn:Eat; [|done].
  destruct (mapped_address l d) as [pa'|] eqn:Epa; [|by destruct (ll_attrs l Ll d at' Eat)].
  destruct (contains (rg a b) (mkRegion E (2 ^ MAP_SHIFT l))) eqn:Ec.
  - assert (Hc : a <= E /\ E + 2 ^ MAP_SHIFT l <= b).
    { apply contains_spec in Ec; unfold region_ok; simpl in *; try lia. assert (2 ^ 48 < 2 ^ 64) by (apply Z.pow_lt_mono_r; lia).
      assert (2 ^ MAP_SHIFT l <= 2 ^ 39) by (apply Z.pow_le_mono_r; lia). lia. }
    destruct (set_desc_spec l s table E INVALID true) as (s1 & -> & Ha1 & Hs1); [lia|]. cbn [obind].
    destruct (pt_step_store allocate l (next :: ls) table s s1 (pg_index l E) INVALID Hinv) as [Hst Hv]; try done.
    { exact (hier_index _ _ _ _ l (next :: ls) E Hh). } { apply (ll_invalid l Ll). }
    exists (Ok None), s1. split; [done|]. split; [done|]. intros va Hva.
    rewrite Hv by (exact (hier_index _ _ _ _ l (next :: ls) va Hh)). rewrite (proj1 (ll_invalid l Ll)).
    destruct (Z.eqb_spec (pg_index l va) (pg_index l E)) as [Ei|Ei].
    + split; [done|]. intros Hn. exfalso. apply Hn. apply (Hsame va Hva) in Ei. lia.
    + split; [|done]. intros HrE. by apply (Hsame va Hva) in HrE.
  - destruct (alloc_table allocate s) as [[nt|e] s1] eqn:Eal.
    + destruct (split_spec l next ls table E s d pa' at' nt s1) as (s3 & Hr & Hst & Hn3 & Hk); try done.
      apply obind_Return in Hr as (s2 & Hf & Hset). rewrite Hf. cbn [obind]. rewrite Hset. cbn [obind].
      exists (Ok (Some nt)), s3. done.
    + destruct (alloc_table_spec s (Err e) s1 Eal) as (Ht1 & Hfree & Herr).
      destruct (pt_step_same allocate (l :: next :: ls) table s s1) as [Hst Hv]; [apply Hinv|intros t i; by rewrite Ht1|done|].
      exists (Err e), s1. split; [done|]. split; [done|]. split; [done|]. intros va. rewrite Hv. done.
Qed.

Lemma hier_map_laws l ls k : hier (l :: ls) -> k ∈ ls -> MapLaws pab attr_ok attr_perms (pview k) k.
Proof.
  revert l. induction ls as [|next ls IH]; intros l Hh Hk; [by apply not_elem_of_nil in Hk|].
  inversion Hh; subst. apply elem_of_cons in Hk as [->|Hk]; [done|]. by apply (IH next).
Qed.

Lemma hier_level_laws ls k : hier ls -> k ∈ ls -> LevelLaws k.
Proof. induction 1; intros Hk; apply elem_of_cons in Hk as [->|Hk]; try done; [by apply not_elem_of_nil in Hk|auto]. Qed.

Lemma view_level (ls : list Level) m pa va l d : view ls m pa va = Some (l, d) -> l ∈ ls.
Proof.
  revert pa. induction ls as [|k ls IH]; intros pa; [done|]. cbn [view]. destruct (next_table_address k _) as [c|].
  - intros H. right. by apply (IH c).
  - destruct (is_valid k _); [|done]. intros [= <- _]. by left.
Qed.

(** Every block of the range is a proper mapping. *)
Definition blocks_ok (ls : list Level) (s : St) (table a b : Z) : Prop :=
  forall va l d, a <= va < b -> view ls (tables s) table va = Some (l, d) -> MAP_SHIFT l = 12 \/ mapping_attributes l d <> None.

Lemma punch_hole_spec l ls table a b s : hier (l :: ls) -> MAP_SHIFT l = 39 -> (forall d, mapping_attributes l d = None) ->
  pt_inv allocate (l :: ls) s table -> 0 <= a <= b -> b <= 2 ^ 48 -> a mod PAGE_SIZE = 0 -> b mod PAGE_SIZE = 0 ->
  blocks_ok (l :: ls) s table a b ->
  exists r s', pt_punch_hole allocate (l :: ls) table (rg a b) (s, tt) = Return (r, (s', tt)) /\
    pt_step allocate (l :: ls) table s s' /\
    (forall va, 0 <= va < 2 ^ 48 -> ~ (a <= va < b) -> tr va (view (l :: ls) (tables s') table va) = tr va (view (l :: ls) (tables s) table va)) /\
    match r with
    | Ok _ => forall va, a <= va < b -> view (l :: ls) (tables s') table va = None
    | Err e => alloc_error allocate e /\ forall va, a <= va < b ->
        view (l :: ls) (tables s') table va = None \/
        tr va (view (l :: ls) (tables s') table va) = tr va (view (l :: ls) (tables s) table va)
    end.
Proof.
  intros Hh H39 Hroot Hinv Hab Hb Haa Hba Hblk. assert (H48 : 2 ^ 48 < 2 ^ 64) by (apply Z.pow_lt_mono_r; lia).
  unfold pt_punch_hole, validate_allocating_region, region_is_page_aligned, checked_add. cbn [rg start_address rsize].
  rewrite (proj2 (is_page_aligned_spec a) Haa). rewrite Zminus_mod, Haa, Hba. change ((0 - 0) mod PAGE_SIZE) with 0. cbn [negb orb Z.eqb].
  rewrite (proj2 (Z.ltb_lt (a + (b - a)) (2 ^ 64)) ltac:(lia)). destruct (Z.eqb_spec (b - a) 0) as [Hz|Hnz].
  { exists (Ok tt), s. split; [done|]. split; [apply pt_step_refl, Hinv|]. split; [done|]. lia. }
  fold (rg a b).
  destruct (walk_spec allocate pab attr_ok attr_perms pview (alloc_table allocate) PunchHole
    tr_keep tr_gone block_ok (fun _ (x : unit) _ => x) (alloc_error allocate)) with (l := l) (ls := ls)
    (table := table) (a := a) (b := b) (s := s) (x := tt) as (r & s' & [] & Hw & Hst & Hpost); try done.
  - intros va v1 v2 v3 (T1 & B1 & N1) (T2 & B2 & N2). split; [congruence|]. auto.
  - intros va v1 v2 v3 G (_ & _ & N). by apply N.
  - intros va v1 v2 HB (_ & B & _). by apply B.
  - apply (leaf_pure allocate pab attr_ok attr_perms pview PunchHole (fun _ _ => INVALID) (fun x _ _ => x)); try done.
    + intros va [[k d]|] Hpre; [|done]. unfold updv, tr_gone. by rewrite (proj1 (ll_invalid k (proj1 Hpre))).
    + by intros [[k d]|].
  - apply punch_entry.
  - split; [lia|]. split; [done|]. split; [done|]. split; [done|]. unfold window. rewrite H39, !Z.div_small by lia. done.
  - split; [done|]. intros va Hva. destruct (view (l :: ls) (tables s) table va) as [[k d]|] eqn:Ek; [|done].
    pose proof (Hblk va k d Hva Ek) as Hk. apply view_level in Ek. split; [by apply (hier_level_laws (l :: ls))|].
    destruct Hk as [|Hm]; [by left|right]. split; [done|].
    apply elem_of_cons in Ek as [->|Ek]; [by rewrite Hroot in Hm|]. by apply (hier_map_laws l ls).
  - assert (Hwin : forall va, 0 <= va < 2 ^ 48 -> window l va a).
    { intros va Hva. unfold window. rewrite H39, !Z.div_small by lia. done. }
    exists r, s'. split; [done|]. split; [done|]. destruct r as [[]|e]; [destruct Hpost as [Hv _]|destruct Hpost as [He Hv]].
    + split; intros va Hva; [intros Hn|]; destruct (Hv va (Hwin va ltac:(lia))) as [V1 V2]; [by apply V2|by apply V1].
    + split; [|split; [done|]]; intros va Hva; [intros Hn|]; destruct (Hv va (Hwin va ltac:(lia))) as [V1 V2]; [by apply V2|].
      destruct (V1 Hva) as [G|K]; [by left|right; apply K].
Qed.
End Punch.

(** ** The page allocator of the examples *)

(** Pages from [next] on, up to a limit. *)
Definition bump_alloc (next : Z) : result Z * Z :=
  if (0 <=? next) && (next <? 2 ^ 40) && (next mod 2 ^ 12 =? 0) then (Ok next, next + PAGE_SIZE) else (Err NoMemory, next).

#[export] Instance bump_laws : PageAllocLaws bump_alloc.
Proof.
  refine {| pt_free := fun next t => next <= t |}; unfold bump_alloc; intros a r a';
    destruct ((0 <=? a) && (a <? 2 ^ 40) && (a mod 2 ^ 12 =? 0)) eqn:E; try done.
  - intros [= <- <-]. breflect. unfold PAGE_SIZE, table_ok. assert (2 ^ 40 < 2 ^ 48) by (apply Z.pow_lt_mono_r; lia).
    split; [lia|]. split; [lia|]. split; [lia|]. intros t Ht. lia.
  - by intros [= <- <-].
Defined.

(** No tables, and the first page to give out is page 1. *)
Definition bump_state : PtState Z := mkPt (fun _ _ => 0) [] PAGE_SIZE.

Section Claims.
Context {A : Type} (allocate : A -> result Z * A) `{L : PageAllocLaws A allocate}.
Notation root_view s t va := (view arm_levels (tables s) t va).

(** C20: mapping a range on arm64.  For page-aligned regions of the same size, the virtual
    one in the lower half, [map_range] returns; if it succeeds every address of the range
    was unmapped and is now mapped, by a page or a block, to the physical address at the
    same offset with the permissions asked for; if it fails, either no page table could be
    allocated or there was a mapping (or a table in the way of a block), and exactly a
    prefix of the range was mapped.  Addresses outside of the range keep their entries,
    and only tables of the tree and newly allocated ones change. *)
Theorem map_range_correct attrs s l0_table : pt_inv allocate arm_levels s l0_table -> attrs_ok 48 attrs ->
  PAGE_SIZE <= rsize (ma_virt attrs) ->
  exists r s', arm_map_range allocate l0_table attrs s = Return (r, s') /\ pt_step allocate arm_levels l0_table s s' /\
    pt_inv allocate arm_levels s' l0_table /\
    map_post allocate arm_level_pview L0Descriptor [L1Descriptor; L2Descriptor; L3Descriptor] attrs s l0_table r s'.
Proof.
  intros Hi Ha Hp.
  destruct (map_range_spec allocate 48 arm_attr_ok arm_attr_perms arm_level_pview L0Descriptor [L1Descriptor; L2Descriptor; L3Descriptor] arm_hier
    ltac:(done) ltac:(done) ltac:(lia) attrs s l0_table Ha Hp Hi) as (r & s' & Hr & Hst & Hpost).
  exists r, s'. split; [done|]. split; [done|]. split; [by eapply pt_step_inv|done].
Qed.

(** C9: punching a hole on arm64.  For a page-aligned range of the lower half whose blocks
    are proper mappings, [punch_hole] returns; if it succeeds no address of the range is
    mapped any more, and if it fails it is because no page table could be allocated.
    In both cases every address outside of the range keeps its physical address,
    attributes and permissions, although blocks that reach over the ends of the range are
    split into tables, and only tables of the tree and newly allocated ones change. *)
Theorem punch_hole_correct s l0_table a b : pt_inv allocate arm_levels s l0_table -> 0 <= a <= b -> b <= 2 ^ 48 ->
  a mod PAGE_SIZE = 0 -> b mod PAGE_SIZE = 0 -> blocks_ok arm_levels s l0_table a b ->
  exists r s', arm_punch_hole allocate l0_table (rg a b) (s, tt) = Return (r, (s', tt)) /\
    pt_step allocate arm_levels l0_table s s' /\ pt_inv allocate arm_levels s' l0_table /\
    (forall va, 0 <= va < 2 ^ 48 -> ~ (a <= va < b) -> tr va (root_view s' l0_table va) = tr va (root_view s l0_table va)) /\
    match r with
    | Ok _ => forall va, a <= va < b -> root_view s' l0_table va = None
    | Err e => alloc_error allocate e /\ forall va, a <= va < b ->
        root_view s' l0_table va = None \/ tr va (root_view s' l0_table va) = tr va (root_view s l0_table va)
    end.
Proof.
  intros Hi Hab Hb Haa Hba Hbl.
  destruct (punch_hole_spec allocate 48 arm_attr_ok arm_attr_perms arm_level_pview ltac:(lia) L0Descriptor [L1Descriptor; L2Descriptor; L3Descriptor]
    l0_table a b s arm_hier eq_refl ltac:(done) Hi Hab Hb Haa Hba Hbl) as (r & s' & Hr & Hst & Hpost).
  exists r, s'. split; [done|]. split; [done|]. split; [by eapply pt_step_inv|done].
Qed.
End Claims.

Lemma bump_inv : pt_inv bump_alloc arm_levels bump_state 0.
Proof.
  destruct (flat_tree L0Descriptor [L1Descriptor; L2Descriptor; L3Descriptor] (tables bump_state) 0) as [Ht Hf].
  { intros i Hi. simpl. split; [unfold usize_ok; lia|done]. }
  split; [exact Ht|]. intros t Hft. rewrite (Hf t Hft). simpl. unfold PAGE_SIZE. lia.
Qed.

(** A page followed by a block of 2 MiB. *)
Definition demo_attrs : MapAttributes ArmMemoryType :=
  mkMapAttrs (mkRegion 0x5ff000 0x201000) (mkRegion 0x1ff000 0x201000) Normal (mkPte true true false true false).

Lemma map_range_correct_witness : exists r s', arm_map_range bump_alloc 0 demo_attrs bump_state = Return (r, s') /\
  pt_inv bump_alloc arm_levels s' 0 /\
  map_post bump_alloc arm_level_pview L0Descriptor [L1Descriptor; L2Descriptor; L3Descriptor] demo_attrs bump_state 0 r s'.
Proof.
  destruct (map_range_correct bump_alloc demo_attrs bump_state 0) as (r & s' & Hr & _ & Hi & Hp).
  - exact bump_inv.
  - unfold attrs_ok; simpl; unfold PAGE_SIZE; repeat split; lia.
  - simpl. unfold PAGE_SIZE. lia.
  - exists r, s'. exact (conj Hr (conj Hi Hp)).
Defined.

(** The state after that mapping; the hole takes the page and the first half of the block. *)
Definition demo_state : PtState Z :=
  match arm_map_range bump_alloc 0 demo_attrs bump_state with Return (_, s) => s | _ => bump_state end.

Lemma demo_state_spec : pt_inv bump_alloc arm_levels demo_state 0 /\ blocks_ok arm_levels demo_state 0 0x1ff000 0x300000.
Proof.
  destruct (map_range_spec bump_alloc 48 arm_attr_ok arm_attr_perms arm_level_pview L0Descriptor [L1Descriptor; L2Descriptor; L3Descriptor] arm_hier
    ltac:(discriminate) eq_refl ltac:(lia) demo_attrs bump_state 0) as (r & s' & Hr & Hst & _ & Hpost).
  { unfold attrs_ok; simpl; unfold PAGE_SIZE; repeat split; lia. } { simpl. unfold PAGE_SIZE. lia. } { exact bump_inv. }
  assert (Hok : exists s0, arm_map_range bump_alloc 0 demo_attrs bump_state = Return (Ok tt, s0)) by (eexists; vm_compute; reflexivity).
  unfold demo_state. unfold arm_map_range in *. destruct Hok as [s0 Hs0]. rewrite Hr in Hs0 |- *. injection Hs0 as -> _.
  split; [by eapply pt_step_inv; [exact bump_inv|]|]. intros va l d Hva Hv. right.
  destruct (Hpost va) as [_ (l' & d' & b & Hv' & _ & _ & Hpm & _)]; [unfold in_virt; simpl; lia|].
  change (L0Descriptor :: [L1Descriptor; L2Descriptor; L3Descriptor]) with arm_levels in Hv'. rewrite Hv' in Hv. injection Hv as -> ->.
  apply view_level in Hv'. unfold arm_levels in Hv'. rewrite !elem_of_cons, elem_of_nil in Hv'.
  destruct Hv' as [->|[->|[->|[->|[]]]]]; [done|..]; simpl in *; unfold arm_mapping_attributes, arm_permissions in *; by destruct (negb _).
Qed.

Lemma punch_hole_correct_witness : exists r s', arm_punch_hole bump_alloc 0 (rg 0x1ff000 0x300000) (demo_state, tt) = Return (r, (s', tt)) /\
  pt_inv bump_alloc arm_levels s' 0.
Proof.
  destruct demo_state_spec as [Hi Hb].
  destruct (punch_hole_correct bump_alloc demo_state 0 0x1ff000 0x300000 Hi) as (r & s' & Hr & _ & Hi' & _).
  - lia.
  - lia.
  - reflexivity.
  - reflexivity.
  - exact Hb.
  - exists r, s'. exact (conj Hr Hi').
Defined.

(** ** Translation *)

Section Translate.
Context {MT AT A : Type} (ls : list (Level MT AT)).
Hypothesis levels_ok : forall l, l ∈ ls -> LevelLaws l.
Hypothesis perms_ok : forall l d pa', l ∈ ls -> mapped_address l d = Some pa' -> permissions l d <> None.

(** Translating finds the entry at which the walk of the hardware ends. *)
Lemma pt_translate_spec (s : PtState A) table va : ls <> [] -> (forall l d c, last ls = Some l -> next_table_address l d = Some c -> False) ->
  pt_translate ls table va s = Return (match view ls (tables s) table va with
    | Some (l, d) =>
        match mapped_address l d, permissions l d with
        | Some pa', Some p => Ok (Some (mkRegion pa' (2 ^ MAP_SHIFT l), va mod 2 ^ MAP_SHIFT l, p))
        | _, _ => Err (MappingError InvalidDescriptor)
        end
    | None => Ok None
    end).
Proof.
  unfold pt_translate. revert table levels_ok perms_ok. induction ls as [|l ks IH]; intros table Hlv Hpm Hne Hlast; [done|].
  pose proof (Hlv l ltac:(by left)) as Ll. pose proof (ll_shift l Ll) as Hs. cbn [translate_level view]. unfold get_desc.
  destruct (next_table_address l (tables s table (pg_index l va))) as [c|] eqn:En.
  - destruct ks as [|k ks]; [by destruct (Hlast l _ c eq_refl En)|].
    apply IH; [intros; apply Hlv; by right|intros ? ? ? ?; apply Hpm; by right|done|done].
  - destruct (mapped_address l (tables s table (pg_index l va))) as [pa'|] eqn:Em.
    + rewrite (ll_mapped_valid l Ll _ _ Em), Em. pose proof (Hpm l _ pa' ltac:(by left) Em) as Hp.
      destruct (permissions l _) as [p|]; [|done]. cbn [unwrap obind]. rewrite ushl_1 by lia. do 4 f_equal.
      rewrite <- Z.land_ones by lia. by rewrite Z.ones_equiv.
    + destruct (is_valid l _) eqn:Ev; cbn [obind]; [|done]. by rewrite Em.
Qed.
End Translate.

(** ** x86-64 *)

Lemma is_canonical_low va : 0 <= va < 2 ^ 48 -> is_canonical va = (va <? 2 ^ 47).
Proof.
  intros Hva. unfold as_i64, ushl. assert (H64 : 2 ^ 48 * 2 ^ 16 = 2 ^ 64) by reflexivity.
  rewrite Z.shiftl_mul_pow2 by lia. rewrite wrap_small by (unfold usize_ok; lia).
  assert (H63 : 2 ^ 47 * 2 ^ 16 = 2 ^ 63) by reflexivity.
  assert (H48 : 2 ^ 48 = 2 * 2 ^ 47) by reflexivity.
  rewrite (proj2 (Z.ltb_lt va (2 ^ 63))) by lia. rewrite Z.shiftr_div_pow2 by lia.
  destruct (Z.ltb_spec (va * 2 ^ 16) (2 ^ 63)) as [Hl|Hl], (Z.ltb_spec va (2 ^ 47)) as [Hv|Hv]; try nia.
  - rewrite Z.div_mul by lia. apply Z.eqb_refl.
  - replace (va * 2 ^ 16 - 2 ^ 64) with ((va - 2 ^ 48) * 2 ^ 16) by lia. rewrite Z.div_mul by lia. apply Z.eqb_neq. lia.
Qed.

(** The same of [map_range] on x86-64, which also refuses addresses between the halves. *)
Lemma x86_map_range_spec {A : Type} (allocate : A -> result Z * A) `{L : PageAllocLaws A allocate} attrs s table :
  pt_inv allocate x86_levels s table -> attrs_ok 52 attrs -> PAGE_SIZE <= rsize (ma_virt attrs) ->
  exists r s', x86_map_range allocate table attrs s = Return (r, s') /\ pt_step allocate x86_levels table s s' /\
    if start_address (ma_virt attrs) <? 2 ^ 47
    then map_post allocate (fun _ => x86_pview) PML4E [PDPE; PDE; PTE] attrs s table r s'
    else r = Err (MappingError NonCanonicalAddress) /\ s' = s.
Proof.
  intros Hi Ha Hp. pose proof Ha as (H1 & H2 & H3 & H4 & H5 & H6 & H7 & H8 & H9).
  destruct (map_range_spec allocate 52 x86_attr_ok x86_attr_perms (fun _ => x86_pview) PML4E [PDPE; PDE; PTE] x86_hier
    ltac:(done) ltac:(done) ltac:(lia) attrs s table Ha Hp Hi) as (r & s' & Hr & Hst & Hpost).
  unfold map_range in Hr. unfold x86_map_range.
  rewrite (check_regions_ok 52 attrs Ha Hp) in *. rewrite is_canonical_low by (unfold PAGE_SIZE in *; lia).
  destruct (start_address (ma_virt attrs) <? 2 ^ 47); cbn [negb].
  - exists r, s'. done.
  - eexists _, s. split; [done|]. split; [apply pt_step_refl, Hi|]. done.
Qed.
