(* ===== verification/PgTear.v ===== *)
(** * Tearing page tables down

    [tear_down_address_space] with the action the kernel uses for processes, [Free]: it
    gives every mapped frame and every table to the deallocator exactly once. *)
From stdpp Require Import base list.
From S2P Require Import Prelude Error Address Region Vma PgDesc PgTables PgInv PgMap PgWalk PgThms.
Local Open Scope Z_scope.

Definition table_region (t : Z) : MemoryRegion := mkRegion t PAGE_SIZE.

(** The regions [fr] are the mappings [Pm] and the tables [Pt], each of them once. *)
Definition freed_exactly (Pm : Z -> MemoryRegion -> Prop) (Pt : Z -> Prop) (fr : list MemoryRegion) : Prop :=
  exists (ms : list (Z * MemoryRegion)) ts, fr ≡ₚ ms.*2 ++ (table_region <$> ts) /\ NoDup ms.*1 /\ NoDup ts /\
    (forall v r, (v, r) ∈ ms <-> Pm v r) /\ (forall t, t ∈ ts <-> Pt t).

Lemma freed_nil : freed_exactly (fun _ _ => False) (fun _ => False) [].
Proof.
  exists [], []. split; [done|]. split; [constructor|]. split; [constructor|].
  split; intros; split; try done; apply not_elem_of_nil.
Qed.

Lemma freed_mapping v r : freed_exactly (fun v' r' => v' = v /\ r' = r) (fun _ => False) [r].
Proof.
  exists [(v, r)], []. split; [done|]. split; [apply NoDup_singleton|]. split; [constructor|].
  split; intros; [rewrite list_elem_of_singleton|split; [apply not_elem_of_nil|done]]. split; [by intros [= -> ->]|by intros [-> ->]].
Qed.

Lemma freed_table t : freed_exactly (fun _ _ => False) (fun u => u = t) [table_region t].
Proof.
  exists [], [t]. split; [done|]. split; [constructor|]. split; [apply NoDup_singleton|].
  split; intros; [split; [apply not_elem_of_nil|done]|apply list_elem_of_singleton].
Qed.

Lemma freed_ext (P P' : Z -> MemoryRegion -> Prop) (T T' : Z -> Prop) fr : freed_exactly P T fr ->
  (forall v r, P v r <-> P' v r) -> (forall t, T t <-> T' t) -> freed_exactly P' T' fr.
Proof.
  intros (ms & ts & Hp & Hm & Ht & Hms & Hts) HP HT. exists ms, ts. do 3 (split; [done|]).
  split; intros; [rewrite Hms; apply HP|rewrite Hts; apply HT].
Qed.

Lemma freed_app P P' T T' fr fr' : freed_exactly P T fr -> freed_exactly P' T' fr' ->
  (forall v r r', P v r -> P' v r' -> False) -> (forall t, T t -> T' t -> False) ->
  freed_exactly (fun v r => P v r \/ P' v r) (fun t => T t \/ T' t) (fr ++ fr').
Proof.
  intros (ms & ts & Hp & Hm & Ht & Hms & Hts) (ms' & ts' & Hp' & Hm' & Ht' & Hms' & Hts') HP HT.
  exists (ms ++ ms'), (ts ++ ts'). split; [|split; [|split; [|split]]].
  - rewrite Hp, Hp', !fmap_app. solve_Permutation.
  - rewrite fmap_app. apply NoDup_app. split; [done|]. split; [|done]. intros v [[v1 r] [-> H1]]%list_elem_of_fmap [[v2 r'] [E H2]]%list_elem_of_fmap.
    simpl in *. subst v2. apply Hms in H1. apply Hms' in H2. by apply (HP v1 r r').
  - apply NoDup_app. split; [done|]. split; [|done]. intros t H1 H2. apply (HT t); [by apply Hts|by apply Hts'].
  - intros v r. by rewrite elem_of_app, Hms, Hms'.
  - intros t. by rewrite elem_of_app, Hts, Hts'.
Qed.

Section Tear.
Context {MT AT A : Type} (pab : Z) (attr_ok : AT -> Prop) (attr_perms : AT -> PtePermissions)
  (pview : Level MT AT -> PtePermissions -> option PtePermissions).
Notation Level := (Level MT AT).
Notation hier := (hier pab attr_ok attr_perms pview).
Notation St := (PtState A).
Implicit Types (l : Level) (ls : list Level) (s : St).

Definition free_all (e : TeardownEntry) : TeardownAction := Free.

(** A mapping of memory [r] begins at [v]. *)
Definition mapping_at ls m (t v : Z) (r : MemoryRegion) : Prop :=
  exists k d pa', view ls m t v = Some (k, d) /\ mapped_address k d = Some pa' /\ v mod 2 ^ MAP_SHIFT k = 0 /\
    r = mkRegion pa' (2 ^ MAP_SHIFT k).

(** The tables below the entries [idxs] of a table. *)
Definition tables_below l ls m (t : Z) (idxs : list Z) (u : Z) : Prop := exists i, i ∈ idxs /\ below l ls m t i u.

(** What is freed below the table [t] whose window begins at [base]. *)
Definition tears (body : St * list MemoryRegion -> outcome (St * list MemoryRegion)) s Pm Pt : Prop :=
  forall log, exists fr, body (s, log) = Return (s, log ++ fr) /\ freed_exactly Pm Pt fr.

(** The loop body of [tear_down_entries]. *)
Definition tear_entry l (below_fn : Z -> Z -> Z -> St * list MemoryRegion -> outcome (St * list MemoryRegion)) (t base depth i : Z)
    (sl : St * list MemoryRegion) : outcome (St * list MemoryRegion) :=
  tear_down_entries free_all l below_fn t base depth [i] sl.

Section Entries.
Context (l : Level) (ls : list Level) (s : St) (t base depth : Z).
Context (below_fn : Z -> Z -> Z -> St * list MemoryRegion -> outcome (St * list MemoryRegion)).
Hypothesis Hh : hier (l :: ls).
Hypothesis Htree : tree (l :: ls) (tables s) t.
Hypothesis Hb0 : 0 <= base.
Hypothesis Hba : base mod 2 ^ (MAP_SHIFT l + 9) = 0.
Hypothesis Hb48 : base + 2 ^ (MAP_SHIFT l + 9) <= 2 ^ 48.
Hypothesis Hbelow : forall i c, 0 <= i < 512 -> next_table_address l (tables s t i) = Some c ->
    tears (below_fn c (base + i * 2 ^ MAP_SHIFT l) (depth + 1)) s
      (fun v r => base + i * 2 ^ MAP_SHIFT l <= v < base + (i + 1) * 2 ^ MAP_SHIFT l /\ mapping_at ls (tables s) c v r)
      (fun u => foot ls (tables s) c u /\ u <> c).

Definition window_mapping (idxs : list Z) (v : Z) (r : MemoryRegion) : Prop :=
  base <= v < base + 2 ^ (MAP_SHIFT l + 9) /\ pg_index l v ∈ idxs /\ mapping_at (l :: ls) (tables s) t v r.

Lemma tear_shift : 12 <= MAP_SHIFT l <= 39 /\ 0 < 2 ^ MAP_SHIFT l /\ 2 ^ (MAP_SHIFT l + 9) = 512 * 2 ^ MAP_SHIFT l.
Proof.
  pose proof (ll_shift l (hier_laws _ _ _ _ _ _ Hh)) as Hs. split; [done|]. split; [apply Z.pow_pos_nonneg; lia|].
  rewrite Z.pow_add_r by lia. change (2 ^ 9) with 512. lia.
Qed.

Lemma entry_index i v : 0 <= i < 512 -> base + i * 2 ^ MAP_SHIFT l <= v < base + (i + 1) * 2 ^ MAP_SHIFT l <->
  base <= v < base + 2 ^ (MAP_SHIFT l + 9) /\ pg_index l v = i.
Proof.
  intros Hi. destruct tear_shift as (Hs & Hk & Hk9). rewrite Hk9.
  assert (Hw : base <= v < base + 512 * 2 ^ MAP_SHIFT l -> window l v base).
  { intros Hv. rewrite <- Hk9 in Hv. unfold window. apply Z.div_exact in Hba; [|lia]. set (q := base / 2 ^ (MAP_SHIFT l + 9)) in *.
    symmetry. apply (Z.div_unique_pos v (2 ^ (MAP_SHIFT l + 9)) q (v - base)); lia. }
  split.
  - intros Hv. assert (Hin : base <= v < base + 512 * 2 ^ MAP_SHIFT l) by nia. split; [done|].
    apply (window_idx l base); [lia|by apply Hw|]. rewrite Hba. lia.
  - intros [Hv Hx]. apply (window_idx l base) in Hx; [|lia|by apply Hw]. rewrite Hba in Hx. lia.
Qed.

Lemma entry_view i v : 0 <= i < 512 -> pg_index l v = i ->
  view (l :: ls) (tables s) t v = match next_table_address l (tables s t i) with
    | Some c => view ls (tables s) c v
    | None => if is_valid l (tables s t i) then Some (l, tables s t i) else None
    end.
Proof. intros _ <-. done. Qed.

Lemma tear_entry_spec i : 0 <= i < 512 ->
  tears (tear_entry l below_fn t base depth i) s (window_mapping [i]) (below l ls (tables s) t i).
Proof.
  intros Hi log. destruct tear_shift as (Hs & Hk & Hk9). unfold tear_entry. cbn [tear_down_entries fst snd].
  assert (Hva : add_bytes base (ushl i (MAP_SHIFT l)) = base + i * 2 ^ MAP_SHIFT l).
  { assert (H48 : 2 ^ 48 < 2 ^ 64) by (apply Z.pow_lt_mono_r; lia). unfold add_bytes, ushl. rewrite Z.shiftl_mul_pow2 by lia.
    rewrite wrap_small by (unfold usize_ok; nia). apply uadd_small; nia. }
  rewrite Hva. assert (Hwm : forall v r, window_mapping [i] v r <-> base + i * 2 ^ MAP_SHIFT l <= v < base + (i + 1) * 2 ^ MAP_SHIFT l /\ mapping_at (l :: ls) (tables s) t v r).
  { intros v r. unfold window_mapping. rewrite list_elem_of_singleton, (entry_index i v Hi). tauto. }
  destruct (next_table_address l (tables s t i)) as [c|] eqn:En.
  - cbn [free_all]. destruct (Hbelow i c Hi En log) as (fr & -> & Hfr). cbn [obind clear_entry]. unfold dealloc. cbn [fst snd te_region].
    exists (fr ++ [table_region c]). rewrite app_assoc. split; [done|].
    eapply freed_ext; [apply (freed_app _ _ _ _ _ _ Hfr (freed_table c)); [done|by intros u [_ ?]]|..].
    + intros v r. rewrite Hwm. split; [intros [[Hv Hm]|[]]|intros [Hv Hm]; left]; (split; [done|]);
        destruct Hm as (k & d & pa' & Hvw & Hrest); exists k, d, pa'; (split; [|done]);
        pose proof (proj1 (entry_index i v Hi) Hv) as [_ Hx]; rewrite (entry_view i v Hi Hx), En in *; done.
    + intros u. unfold below. split; [intros [[Hf _]| ->]; exists c; (split; [done|]); [done|apply foot_root]|].
      intros (c' & Hc & Hf). rewrite En in Hc. injection Hc as <-. destruct (decide (u = c)); [by right|by left].
  - assert (Hno : forall u, below l ls (tables s) t i u <-> False).
    { intros u. split; [|done]. intros (c & Hc & _). congruence. }
    destruct (mapped_address l (tables s t i)) as [pa'|] eqn:Em.
    + rewrite ushl_1 by lia. cbn [free_all obind clear_entry]. unfold dealloc. cbn [fst snd te_region].
      eexists. split; [done|]. eapply freed_ext; [apply (freed_mapping (base + i * 2 ^ MAP_SHIFT l))|..]; [|by intros u; rewrite Hno].
      assert (Hvalid := ll_mapped_valid l (hier_laws _ _ _ _ _ _ Hh) _ _ Em).
      assert (Hbk : base mod 2 ^ MAP_SHIFT l = 0).
      { apply Z.div_exact in Hba; [|lia]. rewrite Hba, Hk9. rewrite <- Z.mul_assoc, (Z.mul_comm 512), <- Z.mul_assoc, Z.mul_comm. apply Z.mod_mul. lia. }
      intros v r. rewrite Hwm. split.
      * intros [-> ->]. split; [nia|]. exists l, (tables s t i), pa'.
        assert (Hx : pg_index l (base + i * 2 ^ MAP_SHIFT l) = i) by (apply (entry_index i _ Hi); nia).
        rewrite (entry_view i _ Hi Hx), En, Hvalid. split; [done|]. split; [done|]. split; [|done]. rewrite Z.mod_add by lia. done.
      * intros [Hv (k & d & pa2 & Hvw & Hma & Hal & ->)]. pose proof (proj1 (entry_index i v Hi) Hv) as [_ Hx].
        rewrite (entry_view i v Hi Hx), En, Hvalid in Hvw. injection Hvw as <- <-. rewrite Em in Hma. injection Hma as <-. split; [|done].
        apply Z.div_exact in Hal, Hbk; [|lia..]. set (q := v / 2 ^ MAP_SHIFT l) in *. set (w := base / 2 ^ MAP_SHIFT l) in *.
        rewrite Hal, Hbk in Hv. assert (q = w + i) by nia. nia.
    + cbn [obind]. exists []. rewrite app_nil_r. split; [done|]. eapply freed_ext; [apply freed_nil|..]; [|by intros u; rewrite Hno].
      intros v r. rewrite Hwm. split; [done|]. intros [Hv (k & d & pa2 & Hvw & Hma & _)]. pose proof (proj1 (entry_index i v Hi) Hv) as [_ Hx].
      rewrite (entry_view i v Hi Hx), En in Hvw. destruct (is_valid l _); [|done]. injection Hvw as <- <-. congruence.
Qed.

Lemma tear_entries_spec idxs : NoDup idxs -> (forall i, i ∈ idxs -> 0 <= i < 512) ->
  tears (tear_down_entries free_all l below_fn t base depth idxs) s (window_mapping idxs) (tables_below l ls (tables s) t idxs).
Proof.
  induction idxs as [|i idxs IH]; intros Hnd Hr log.
  { exists []. rewrite app_nil_r. split; [done|]. eapply freed_ext; [apply freed_nil|..].
    - intros v r. split; [done|]. by intros (_ & ?%not_elem_of_nil & _).
    - intros u. split; [done|]. by intros (i & ?%not_elem_of_nil & _). }
  apply NoDup_cons in Hnd as [Hni Hnd].
  destruct (tear_entry_spec i (Hr i ltac:(by left)) log) as (fr & Hone & Hfr).
  destruct (IH Hnd ltac:(intros; apply Hr; by right) (log ++ fr)) as (fr' & Hrest & Hfr').
  exists (fr ++ fr'). rewrite app_assoc. split.
  - unfold tear_entry in Hone. cbn [tear_down_entries] in Hone |- *. apply obind_Return in Hone as (sl & -> & [= ->]). exact Hrest.
  - eapply freed_ext; [apply (freed_app _ _ _ _ _ _ Hfr Hfr')|..].
    + intros v r r' (_ & Hx%list_elem_of_singleton & _) (_ & Hx' & _). by rewrite Hx in Hx'.
    + intros u (c & Hc & Hf) (j & Hj & c' & Hc' & Hf'). destruct Htree as (_ & _ & Hdis).
      apply (Hdis i j c c' u); try done; [apply Hr; by left|apply Hr; by right|by intros ->].
    + intros v r. unfold window_mapping. rewrite list_elem_of_singleton, elem_of_cons. tauto.
    + intros u. unfold tables_below. setoid_rewrite elem_of_cons. split; [intros [Hu|(j & Hj & Hu)]; eauto|].
      intros (j & [->|Hj] & Hu); eauto.
Qed.

Lemma tear_table_spec : tears (tear_down_entries free_all l below_fn t base depth (seqZ 0 DESCRIPTORS_PER_PAGE)) s
  (fun v r => base <= v < base + 2 ^ (MAP_SHIFT l + 9) /\ mapping_at (l :: ls) (tables s) t v r)
  (fun u => foot (l :: ls) (tables s) t u /\ u <> t).
Proof.
  intros log. destruct (tear_entries_spec (seqZ 0 DESCRIPTORS_PER_PAGE)) with (log := log) as (fr & Hrun & Hfr).
  { apply NoDup_seqZ. } { intros i Hi%elem_of_seqZ. lia. }
  exists fr. split; [done|]. eapply freed_ext; [exact Hfr|..].
  - intros v r. unfold window_mapping. split; [tauto|]. intros [Hv Hm]. split; [done|]. split; [|done].
    apply elem_of_seqZ. apply (pg_index_range l v). pose proof tear_shift. lia.
  - intros u. unfold tables_below. split.
    + intros (i & Hi%elem_of_seqZ & c & Hc & Hf). assert (Hi' : 0 <= i < 512) by lia.
      split; [by apply (foot_child l ls _ t i c)|]. intros ->. destruct Htree as (_ & Hcl & _). by apply (Hcl i c).
    + intros [[->|(i & c & Hi & Hc & Hf)] Hne]; [done|]. exists i. split; [apply elem_of_seqZ; lia|]. by exists c.
Qed.
End Entries.

Lemma tear_down_spec l ls s t base depth : hier (l :: ls) -> tree (l :: ls) (tables s) t -> 0 <= base ->
  base mod 2 ^ (MAP_SHIFT l + 9) = 0 -> base + 2 ^ (MAP_SHIFT l + 9) <= 2 ^ 48 ->
  tears (tear_down free_all (l :: ls) t base depth) s
    (fun v r => base <= v < base + 2 ^ (MAP_SHIFT l + 9) /\ mapping_at (l :: ls) (tables s) t v r)
    (fun u => foot (l :: ls) (tables s) t u /\ u <> t).
Proof.
  revert l t base depth. induction ls as [|next ls IH]; intros l t base depth Hh Ht Hb0 Hba Hb48; cbn [tear_down];
    apply tear_table_spec; try done; intros i c Hi Hc.
  - inversion Hh as [? ? ? Hno|]; subst. congruence.
  - inversion Hh as [|? ? ? Ll _ Hsn _ Hh']; subst. pose proof (ll_shift l Ll) as Hs.
    assert (Hk : 0 < 2 ^ MAP_SHIFT l) by (apply Z.pow_pos_nonneg; lia).
    assert (Hk9 : 2 ^ (MAP_SHIFT l + 9) = 512 * 2 ^ MAP_SHIFT l) by (rewrite Z.pow_add_r by lia; change (2 ^ 9) with 512; lia).
    assert (Hbk : base mod 2 ^ MAP_SHIFT l = 0).
    { apply Z.mod_divide in Hba as [q Hq]; [|lia]. rewrite Hq, Hk9, Z.mul_assoc. apply Z.mod_mul. lia. }
    replace (base + (i + 1) * 2 ^ MAP_SHIFT l) with (base + i * 2 ^ MAP_SHIFT l + 2 ^ MAP_SHIFT l) by lia.
    rewrite Hsn in *. apply IH; try done; [by apply (proj1 (proj2 Ht) i c)|nia|rewrite Z.mod_add by lia; done|nia].
Qed.

(** Tearing down frees every mapping of the lower half and every table, once. *)
Lemma tear_down_all_spec l ls s t : hier (l :: ls) -> MAP_SHIFT l = 39 -> tree (l :: ls) (tables s) t ->
  exists fr, tear_down_address_space free_all (l :: ls) t (s, []) = Return (s, fr) /\
    freed_exactly (fun v r => 0 <= v < 2 ^ 48 /\ mapping_at (l :: ls) (tables s) t v r) (foot (l :: ls) (tables s) t) fr.
Proof.
  intros Hh H39 Ht. unfold tear_down_address_space.
  destruct (tear_down_spec l ls s t 0 0 Hh Ht ltac:(lia)) with (log := @nil MemoryRegion) as (fr & -> & Hfr).
  { apply Z.mod_0_l. apply Z.pow_nonzero; lia. } { by rewrite H39. }
  cbn [obind free_all]. unfold dealloc. cbn [fst snd te_region app]. exists (fr ++ [table_region t]). split; [done|].
  rewrite H39 in Hfr. change (0 + 2 ^ (39 + 9)) with (2 ^ 48) in Hfr.
  eapply freed_ext; [apply (freed_app _ _ _ _ _ _ Hfr (freed_table t)); [done|by intros u [_ ?]]|..].
  - intros v r. tauto.
  - intros u. split; [intros [[Hf _]| ->]; [done|apply foot_root]|]. intros Hf. destruct (decide (u = t)); auto.
Qed.
End Tear.
