(* ===== verification/ArmSpace.v ===== *)
(** * Address spaces of arm64 processes

    Models src/arch/arm64/memory/address_space.rs: the implementation of the trait
    UserAddressSpace on top of the page tables.  An address space is the address of its
    level 0 table.  The theorems describe every operation by its effect on [page_at], the
    frame and the permissions of an address, which is what the memory map relies on. *)
From stdpp Require Import base list.
From S2P Require Import Prelude Error Address Region Vma PgDesc PgTables PgInv PgMap PgWalk PgThms PgTear.
Local Open Scope Z_scope.

Section ArmSpace.
Context {A : Type} (allocate : A -> result Z * A).
Notation St := (PtState A).
Notation res X := (outcome (result X * St)).

(** [PageTableAllocator::allocate_page_table] gives a zeroed page. *)
Definition arm_new (s : St) : result Z * St :=
  match alloc_table allocate s with
  | (Ok l0_table, s) => (Ok l0_table, mkPt (zero_table (tables s) l0_table) (tlb_log s) (page_alloc s))
  | (Err e, s) => (Err e, s)
  end.

Definition page_attrs (phys : MemoryRegion) (va : Z) (perms : PtePermissions) : MapAttributes ArmMemoryType :=
  mkMapAttrs phys (mkRegion va PAGE_SIZE) Normal perms.

Definition arm_map_page (l0_table page va : Z) (perms : PtePermissions) (s : St) : res unit :=
  arm_map_range allocate l0_table (page_attrs (as_phys_range page) va perms) s.

Definition arm_protect_range (l0_table : Z) (va_range : MemoryRegion) (perms : PtePermissions) (s : St) : res unit :=
  let! (r, (s, _)) := arm_walk_and_modify_region l0_table va_range
    (fun _ desc sx => Return (arm_set_permissions 3 desc perms, sx)) (s, tt) in
  Return (r, s).

Definition arm_unmap_range (l0_table : Z) (va_range : MemoryRegion) (s : St) : res (list Z) :=
  let! (r, (s, claimed_pages)) := arm_walk_and_modify_region l0_table va_range
    (fun _ desc sx => Return (INVALID, (sx.1, match mapped_address L3Descriptor desc with
                                              | Some addr => sx.2 ++ [to_pfn addr]
                                              | None => sx.2
                                              end))) (s, []) in
  match r with Ok _ => Return (Ok claimed_pages, s) | Err e => Return (Err e, s) end.

Definition arm_remap (l0_table va new_page : Z) (perms : PtePermissions) (s : St) : res Z :=
  let! (r, (s, old_pte)) := arm_walk_and_modify_region l0_table (page_region va)
    (fun _ pte sx => let! d := new_map_pa L3Descriptor (pa new_page) Normal perms in Return (d, (sx.1, Some pte))) (s, None) in
  match r with
  | Err e => Return (Err e, s)
  | Ok _ =>
      match old_pte ≫= mapped_address L3Descriptor with
      | Some a => Return (Ok (to_pfn a), s)
      | None => Return (Err (MappingError NotL3Mapped), s)
      end
  end.

Definition arm_translate (l0_table va : Z) (s : St) : outcome (option PageInfo) :=
  let! (r, _) := arm_get_pte l0_table (page_aligned va) s in
  match r with
  | Err _ => Panic
  | Ok None => Return None
  | Ok (Some pte) =>
      match mapped_address L3Descriptor pte, permissions L3Descriptor pte with
      | Some addr, Some p => Return (Some (mkPageInfo (to_pfn addr) p))
      | _, _ => Return None
      end
  end.

(** The frames that get another reference are collected in the state of the closure. *)
Definition arm_protect_and_clone_region (l0_table : Z) (r : MemoryRegion) (other : Z) (new_perms : PtePermissions) (s : St)
    : outcome (result unit * (St * list Z)) :=
  arm_walk_and_modify_region l0_table r
    (fun va pgd sx =>
       match mapped_address L3Descriptor pgd with
       | Some addr =>
           let! (m, s) := arm_map_range allocate other (page_attrs (mkRegion addr PAGE_SIZE) va new_perms) sx.1 in
           match m with
           | Ok _ => Return (arm_set_permissions 3 pgd new_perms, (s, sx.2 ++ [to_pfn addr]))
           | Err _ => Panic
           end
       | None => Return (pgd, sx)
       end) (s, []).

(** Dropping frees every frame and every table. *)
Definition arm_drop (l0_table : Z) (s : St) : outcome (St * list MemoryRegion) :=
  arm_tear_down_address_space (fun _ => Free) l0_table (s, []).

(** ** What an address is mapped to *)

Definition page_at (s : St) (l0_table va : Z) : option (Z * option PtePermissions) :=
  '(l, d) ← view arm_levels (tables s) l0_table va;
  a ← mapped_address l d;
  Some (to_pfn a, permissions l d).

(** Every entry in use is a page of the last level. *)
Definition pages_only (s : St) (l0_table : Z) : Prop :=
  forall va l d, 0 <= va < 2 ^ 48 -> view arm_levels (tables s) l0_table va = Some (l, d) ->
    l = L3Descriptor /\ mapped_address L3Descriptor d <> None.

Context `{L : PageAllocLaws A allocate}.

Definition space_ok (s : St) (l0_table : Z) : Prop :=
  pt_inv allocate arm_levels s l0_table /\ pages_only s l0_table.

Lemma arm_new_spec s l0_table s' : arm_new s = (Ok l0_table, s') ->
  space_ok s' l0_table /\ taken allocate s s' l0_table /\ forall va, page_at s' l0_table va = None.
Proof.
  unfold arm_new. destruct (alloc_table allocate s) as [[t|e] s1] eqn:Ea; [|done]. intros [= -> <-].
  destruct (alloc_table_spec allocate s _ s1 Ea) as (Ht & _ & Htk & _).
  assert (Hz : forall i, zero_table (tables s1) l0_table l0_table i = 0) by (intros; unfold zero_table; by rewrite Z.eqb_refl).
  destruct (flat_tree L0Descriptor [L1Descriptor; L2Descriptor; L3Descriptor] (zero_table (tables s1) l0_table) l0_table) as [Htr Hf].
  { intros i Hi. rewrite Hz. split; [unfold usize_ok; lia|done]. }
  assert (Hv : forall va, view arm_levels (zero_table (tables s1) l0_table) l0_table va = None) by (intros va; cbn [view arm_levels]; by rewrite Hz).
  split; [split; [split; [exact Htr|]|]|split].
  - cbn [tables page_alloc]. intros t Hft. rewrite (Hf t Hft). apply Htk.
  - intros va l d _. cbn [tables]. by rewrite Hv.
  - exact Htk.
  - intros va. unfold page_at. cbn [tables]. by rewrite Hv.
Qed.

Lemma pages_leafy s l0_table va : pages_only s l0_table -> 0 <= va < 2 ^ 48 -> leafy va (view arm_levels (tables s) l0_table va).
Proof. intros Hp Hva. destruct (view _ _ _ va) as [[l d]|] eqn:E; [|done]. by destruct (Hp va l d Hva E) as [-> _]. Qed.

Lemma page_at_view s l0_table va : pages_only s l0_table -> 0 <= va < 2 ^ 48 ->
  page_at s l0_table va = None <-> view arm_levels (tables s) l0_table va = None.
Proof.
  intros Hp Hva. unfold page_at. destruct (view _ _ _ va) as [[l d]|] eqn:E; [|done]. simpl.
  destruct (Hp va l d Hva E) as [-> Hm]. by destruct (mapped_address L3Descriptor d).
Qed.

(** The addresses of a page have the same view. *)
Lemma view_page (ls : list (Level ArmMemoryType Z)) m t a b : (forall l, l ∈ ls -> 12 <= MAP_SHIFT l) -> page_of a = page_of b ->
  view ls m t a = view ls m t b.
Proof.
  intros Hls Hp. revert t. induction ls as [|l ls IH]; intros t; [done|]. cbn [view].
  assert (H12 : 12 <= MAP_SHIFT l) by (apply Hls; by left).
  assert (E : pg_index l a = pg_index l b).
  { rewrite !pg_index_eq by lia. f_equal. apply (div_coarser a b 12); [lia|]. change (2 ^ 12) with PAGE_SIZE. unfold page_of in Hp.
    pose proof (Z.div_mod a PAGE_SIZE ltac:(unfold PAGE_SIZE; lia)). pose proof (Z.div_mod b PAGE_SIZE ltac:(unfold PAGE_SIZE; lia)). unfold PAGE_SIZE in *. lia. }
  rewrite E. destruct (next_table_address l _); [|done]. apply IH. intros k Hk. apply Hls. by right.
Qed.

Lemma arm_view_page m t a b : page_of a = page_of b -> view arm_levels m t a = view arm_levels m t b.
Proof. apply view_page. intros l Hl. by apply (ll_shift l), (hier_level_laws _ _ _ _ _ _ arm_hier). Qed.

(** ** Mapping a page *)

Lemma arm_page_level l : l ∈ arm_levels -> 2 ^ MAP_SHIFT l <= PAGE_SIZE -> l = L3Descriptor.
Proof.
  unfold arm_levels. rewrite !elem_of_cons, elem_of_nil. intros [->|[->|[->|[->|[]]]]]; try done; intros Hs; exfalso; by apply Hs.
Qed.

Lemma mapped_page (s : St) l0_table page va perms va' : va mod PAGE_SIZE = 0 -> page_of va' = va ->
  mapped_as arm_level_pview L0Descriptor [L1Descriptor; L2Descriptor; L3Descriptor]
    (page_attrs (as_phys_range page) va perms) s l0_table va' ->
  exists d, view arm_levels (tables s) l0_table va' = Some (L3Descriptor, d) /\
    mapped_address L3Descriptor d = Some (pa page) /\ permissions L3Descriptor d = arm_pview 3 perms.
Proof.
  intros Hva Hp (l & d & b & Hv & Hm & Hb & Hpm & Hsz). pose proof (view_level _ _ _ _ _ _ Hv) as Hl.
  assert (l = L3Descriptor) as -> by (apply arm_page_level; done). exists d. split; [done|]. split; [|done].
  rewrite Hm. f_equal. unfold page_attrs, as_phys_range in Hb. change (2 ^ MAP_SHIFT L3Descriptor) with PAGE_SIZE in Hb. cbn -[pa Z.modulo PAGE_SIZE] in Hb.
  unfold page_of in Hp. lia.
Qed.

Lemma arm_map_page_spec s l0_table page va perms : space_ok s l0_table -> va mod PAGE_SIZE = 0 -> 0 <= va -> va + PAGE_SIZE <= 2 ^ 48 ->
  0 <= page < 2 ^ 36 ->
  exists r s', arm_map_page l0_table page va perms s = Return (r, s') /\ pt_step allocate arm_levels l0_table s s' /\ space_ok s' l0_table /\
    match r with
    | Ok _ => page_at s l0_table va = None /\ forall va', 0 <= va' < 2 ^ 48 ->
        page_at s' l0_table va' = if decide (page_of va' = va) then Some (page, arm_pview 3 perms) else page_at s l0_table va'
    | Err e => (alloc_error allocate e \/ e = MappingError AlreadyMapped /\ page_at s l0_table va <> None) /\
        forall va', 0 <= va' < 2 ^ 48 -> page_at s' l0_table va' = page_at s l0_table va'
    end.
Proof.
  intros [Hinv Hpo] Hva Hv0 Hv1 Hpg. assert (Hv48 : 0 <= va < 2 ^ 48) by (unfold PAGE_SIZE in *; lia). unfold arm_map_page, arm_map_range. change arm_levels with (L0Descriptor :: [L1Descriptor; L2Descriptor; L3Descriptor]) in *.
  set (at' := page_attrs (as_phys_range page) va perms).
  assert (Hpa : pa page = page * PAGE_SIZE) by (apply pa_eq; unfold PAGE_SIZE; lia).
  assert (Hok : attrs_ok 48 at').
  { unfold attrs_ok, at', page_attrs, as_phys_range. simpl. rewrite Hpa. change (2 ^ 36) with 68719476736 in *. unfold PAGE_SIZE in *.
    rewrite Z.mod_mul by lia. repeat split; lia. }
  assert (Hiv : forall a, in_virt at' a <-> page_of a = va).
  { intros a. unfold in_virt, at', page_attrs. simpl. destruct (page_of_spec a) as [Hp Hr]. split; [apply page_of_eq; done|intros <-; lia]. }
  destruct (map_range_spec allocate 48 arm_attr_ok arm_attr_perms arm_level_pview L0Descriptor [L1Descriptor; L2Descriptor; L3Descriptor] arm_hier
    ltac:(done) ltac:(done) ltac:(lia) at' s l0_table Hok ltac:(simpl; lia) Hinv) as (r & s' & Hr & Hst & Hout & Hpost).
  exists r, s'. split; [done|]. split; [done|].
  assert (Hsame : forall va', 0 <= va' < 2 ^ 48 -> page_of va' <> va \/ (exists e, r = Err e) ->
    view arm_levels (tables s') l0_table va' = view arm_levels (tables s) l0_table va').
  { intros va' Hr' Hor. destruct (decide (page_of va' = va)) as [Hd|Hd]; [|apply Hout; [done|by rewrite Hiv]].
    destruct Hor as [?|[e ->]]; [done|]. destruct Hpost as [_ (m & Hm & Hmp & Hall)].
    apply (Hall va' (proj2 (Hiv va') Hd)). apply Hiv in Hm. rewrite (page_of_eq m m) in Hm by (done || (unfold PAGE_SIZE; lia)).
    subst m. destruct (page_of_spec va'). lia. }
  assert (Hnew : forall va' u, r = Ok u -> page_of va' = va -> exists d, view arm_levels (tables s') l0_table va' = Some (L3Descriptor, d) /\
    mapped_address L3Descriptor d = Some (pa page) /\ permissions L3Descriptor d = arm_pview 3 perms).
  { intros va' u -> Hp. apply (mapped_page s' l0_table page va perms va' Hva Hp). by apply Hpost, Hiv. }
  split; [split; [by eapply pt_step_inv|]|].
  - intros va' l d Hr' Hv. destruct (decide (page_of va' = va)) as [Hd|Hd].
    + destruct r as [u|e]; [|rewrite Hsame in Hv by eauto; by apply (Hpo va')].
      destruct (Hnew va' u eq_refl Hd) as (d' & Hv' & Hm & _). rewrite Hv' in Hv. injection Hv as <- <-. by rewrite Hm.
    + rewrite Hsame in Hv by auto. by apply (Hpo va').
  - assert (Hview : forall va', view arm_levels (tables s') l0_table va' = view arm_levels (tables s) l0_table va' -> page_at s' l0_table va' = page_at s l0_table va').
    { intros va' E. unfold page_at. by rewrite E. }
    assert (Hpva : page_of va = va) by (apply page_of_eq; [done|unfold PAGE_SIZE; lia]).
    destruct r as [u|e].
    + split; [apply page_at_view; [done|lia|]; apply Hpost; by apply Hiv|].
      intros va' Hr'. case_decide as Hd; [|apply Hview, Hsame; auto].
      destruct (Hnew va' u eq_refl Hd) as (d' & Hv' & Hm & Hpm). unfold page_at. rewrite Hv'. cbn [mbind option_bind]. rewrite Hm. cbn [mbind option_bind].
      rewrite Hpm, to_pfn_pa by (unfold PAGE_SIZE; lia). done.
    + split; [|intros; apply Hview, Hsame; eauto]. destruct Hpost as [[He|[-> He]] _]; [by left|right]. split; [done|].
      rewrite page_at_view by (done || lia). destruct He as [(a & Ha & Hne)|(l & Hl & Hs & Hle)].
      * apply Hiv in Ha. by rewrite (arm_view_page _ _ a va) in Hne by congruence.
      * exfalso. assert (l = L3Descriptor) as ->; [|done]. apply arm_page_level; [by right|done].
Qed.

(** ** Walks over pages *)

Lemma view_ok (ls : list (Level ArmMemoryType Z)) m t va l d : tree ls m t -> (forall k, k ∈ ls -> 0 <= MAP_SHIFT k) ->
  view ls m t va = Some (l, d) -> usize_ok d.
Proof.
  revert t. induction ls as [|k ls IH]; intros t Ht Hs; [done|]. cbn [view]. destruct Ht as (Hu & Hc & _).
  assert (Hi : 0 <= pg_index k va < 512) by (apply pg_index_range, Hs; by left).
  destruct (next_table_address k (m t (pg_index k va))) as [c|] eqn:En.
  - apply (IH c); [by apply (Hc _ _ Hi En)|intros; apply Hs; by right].
  - destruct (is_valid k _); [|done]. intros [= _ <-]. by apply Hu.
Qed.

Lemma arm_view_ok (s : St) t va l d : space_ok s t -> view arm_levels (tables s) t va = Some (l, d) -> usize_ok d.
Proof.
  intros [[Ht _] _]. apply view_ok; [done|]. intros k Hk. pose proof (ll_shift k (hier_level_laws _ _ _ _ _ _ arm_hier Hk)). lia.
Qed.

Lemma arm_mapped_land d : usize_ok d ->
  mapped_address L3Descriptor d = if (Z.land d 3 =? 2) || (Z.land d 3 =? 3) then Some (Z.land d (field_mask 12 36)) else None.
Proof.
  intros Hd. simpl. unfold arm_mapped_address. rewrite field_part by (done || lia).
  by destruct (Z.eqb_spec (Z.land d 3) 0) as [->|].
Qed.

(** Swapping a page out keeps its frame, and the state is always defined. *)
Lemma mark_as_swapped_spec d : usize_ok d -> mapped_address L3Descriptor d <> None ->
  l3_state (mark_as_swapped d) = Return StSwapped /\ mapped_address L3Descriptor (mark_as_swapped d) = mapped_address L3Descriptor d /\
  permissions L3Descriptor (mark_as_swapped d) = None /\ l3_state d <> Panic.
Proof.
  intros Hd Hm. assert (H3 : usize_ok 3) by (unfold usize_ok; lia).
  assert (Hbit : forall n, 0 <= n -> Z.testbit (mark_as_swapped d) n = if n <? 2 then n =? 1 else Z.testbit d n).
  { intros n Hn. unfold mark_as_swapped. rewrite Z.lor_spec, Z.land_spec, unot_bit by done.
    destruct (Z.ltb_spec n 2).
    - assert (n = 0 \/ n = 1) as [-> | ->] by lia; [change (Z.testbit 3 0) with true|done]. by rewrite !andb_false_r.
    - rewrite (small_bit 2 n), (small_bit 3 n) by lia. destruct (Z.ltb_spec n 64); simpl; rewrite ?andb_true_r; [done|]. rewrite andb_false_r. symmetry. by apply high_bit. }
  assert (Hl : Z.land (mark_as_swapped d) 3 = 2) by (rewrite low2_bits, !Hbit by lia; done).
  assert (Hu : usize_ok (mark_as_swapped d)).
  { apply bits_usize; [apply Z.lor_nonneg; split; [lia|]; apply Z.land_nonneg; left; apply Hd|].
    intros n Hn. rewrite Hbit by lia. destruct (Z.ltb_spec n 2); [lia|]. by apply high_bit. }
  split; [unfold l3_state; by rewrite Hl|]. rewrite arm_mapped_land in Hm by done. rewrite !arm_mapped_land by done. rewrite Hl. split; [|split].
  - simpl. destruct ((Z.land d 3 =? 2) || (Z.land d 3 =? 3)); [|done]. f_equal. apply Z.bits_inj'. intros n Hn.
    rewrite !Z.land_spec, field_mask_bit, Hbit by lia. unfold in_field. destruct (Z.leb_spec 12 n); simpl; [|by rewrite !andb_false_r].
    destruct (Z.ltb_spec n 2); [lia|done].
  - simpl. unfold arm_permissions. by rewrite Hl.
  - unfold l3_state. by destruct (arm_low_cases d) as [-> | [-> | [-> | ->]]].
Qed.

(** Changing the permissions of a page keeps its frame. *)
Lemma arm_protect_entry d p : usize_ok d -> mapped_address L3Descriptor d <> None ->
  mapped_address L3Descriptor (arm_set_permissions 3 d p) = mapped_address L3Descriptor d /\
  is_valid L3Descriptor (arm_set_permissions 3 d p) = true /\
  permissions L3Descriptor (arm_set_permissions 3 d p) = arm_pview 3 p.
Proof.
  intros Hd Hm. assert (Hd' : usize_ok (arm_set_permissions 3 d p)) by (apply arm_set_permissions_ok; done || lia).
  rewrite arm_mapped_land in Hm by done. rewrite !arm_mapped_land by done.
  assert (Hlow : Z.land (arm_set_permissions 3 d p) 3 = 2 \/ Z.land (arm_set_permissions 3 d p) 3 = 3).
  { rewrite arm_low by (done || lia). unfold arm_map_bits. destruct (_ && _); by auto. }
  split; [|split].
  - destruct ((Z.land d 3 =? 2) || (Z.land d 3 =? 3)); [|done].
    assert (((Z.land (arm_set_permissions 3 d p) 3 =? 2) || (Z.land (arm_set_permissions 3 d p) 3 =? 3)) = true) as -> by (by destruct Hlow as [-> | ->]).
    f_equal. apply Z.bits_inj'. intros n Hn. rewrite !Z.land_spec, field_mask_bit by lia. unfold in_field.
    destruct (Z.leb_spec 12 n), (Z.ltb_spec n (12 + 36)); simpl; rewrite ?andb_false_r; try done. rewrite !andb_true_r.
    rewrite arm_set_permissions_bits by (done || lia).
    destruct (Z.ltb_spec n 2), (Z.eqb_spec n 6), (Z.eqb_spec n 7), (Z.eqb_spec n 53), (Z.eqb_spec n 54), (Z.eqb_spec n 55); try lia. done.
  - simpl. unfold arm_is_valid. by destruct Hlow as [-> | ->].
  - apply arm_set_permissions_view; [done|lia].
Qed.

Section PageWalk.
Context {X : Type} (modifier : Z -> Z -> St * X -> outcome (Z * (St * X))) (g : Z -> Z -> Z) (h : X -> Z -> Z -> X).
Hypothesis modifier_pure : forall va d s x, modifier va d (s, x) = Return (g va d, (s, h x va d)).
Hypothesis g_ok : forall va d, usize_ok d -> usize_ok (g va d).
Hypothesis g_page : forall va d, usize_ok d -> mapped_address L3Descriptor d <> None ->
  is_valid L3Descriptor (g va d) = true -> mapped_address L3Descriptor (g va d) <> None.

(** What a walk does to the pages of a range. *)
Lemma arm_walk_spec (s : St) (t a b : Z) (x : X) : space_ok s t -> 0 <= a <= b -> b <= 2 ^ 48 -> a mod PAGE_SIZE = 0 -> b mod PAGE_SIZE = 0 ->
  exists s' x', arm_walk_and_modify_region t (rg a b) modifier (s, x) = Return (Ok tt, (s', x')) /\
    pt_step allocate arm_levels t s s' /\ space_ok s' t /\
    (forall va, 0 <= va < 2 ^ 48 -> view arm_levels (tables s') t va =
      if decide (a <= va < b) then updv g (page_of va) (view arm_levels (tables s) t va) else view arm_levels (tables s) t va) /\
    x' = fold_left (fun x p => hview h (view arm_levels (tables s) t p) x p) (pgs a b) x.
Proof.
  intros Hok Hab Hb Haa Hba. pose proof Hok as [Hinv Hpo].
  destruct (walk_modify_spec allocate 48 arm_attr_ok arm_attr_perms arm_level_pview modifier g h modifier_pure g_ok
    L0Descriptor [L1Descriptor; L2Descriptor; L3Descriptor] t a b s x arm_hier eq_refl Hinv Hab Hb Haa Hba) as (s' & x' & Hw & Hst & Hv & Hx).
  { intros va Hva. apply pages_leafy; [done|lia]. }
  exists s', x'. split; [done|]. split; [done|]. split; [|done]. split; [by eapply pt_step_inv|].
  intros va l d Hva Hd. rewrite Hv in Hd by done. case_decide; [|by apply (Hpo va)].
  fold arm_levels in Hd. destruct (view arm_levels (tables s) t va) as [[l' d']|] eqn:Ev; [|done]. cbn [updv] in Hd.
  pose proof (arm_view_ok s t va l' d' Hok Ev) as Hu. destruct (Hpo va l' d' Hva Ev) as [-> Hm].
  destruct (is_valid L3Descriptor (g (page_of va) d')) eqn:Ei; [|done]. injection Hd as <- <-.
  split; [done|]. by apply g_page.
Qed.
End PageWalk.

Lemma page_at_views (s s' : St) t va : view arm_levels (tables s') t va = view arm_levels (tables s) t va -> page_at s' t va = page_at s t va.
Proof. intros E. unfold page_at. by rewrite E. Qed.

Lemma arm_protect_range_spec (s : St) t a b perms : space_ok s t -> 0 <= a <= b -> b <= 2 ^ 48 -> a mod PAGE_SIZE = 0 -> b mod PAGE_SIZE = 0 ->
  exists s', arm_protect_range t (rg a b) perms s = Return (Ok tt, s') /\ pt_step allocate arm_levels t s s' /\ space_ok s' t /\
    forall va, 0 <= va < 2 ^ 48 -> page_at s' t va =
      if decide (a <= va < b) then (fun fp => (fp.1, arm_pview 3 perms)) <$> page_at s t va else page_at s t va.
Proof.
  intros Hok Hab Hb Haa Hba. unfold arm_protect_range.
  destruct (arm_walk_spec (X := unit) (fun _ desc sx => Return (arm_set_permissions 3 desc perms, sx))
    (fun _ d => arm_set_permissions 3 d perms) (fun x _ _ => x)) with (s := s) (t := t) (a := a) (b := b) (x := tt)
    as (s' & x' & -> & Hst & Hok' & Hv & _); try done.
  { intros; apply arm_set_permissions_ok; done || lia. }
  { intros va d Hd Hm _. by rewrite (proj1 (arm_protect_entry d perms Hd Hm)). }
  exists s'. split; [done|]. split; [done|]. split; [done|]. intros va Hva. specialize (Hv va Hva).
  case_decide; [|by apply page_at_views]. unfold page_at. rewrite Hv.
  destruct (view arm_levels (tables s) t va) as [[l d]|] eqn:Ev; [|done]. cbn [updv].
  pose proof (arm_view_ok s t va l d Hok Ev) as Hu. destruct (proj2 Hok va l d Hva Ev) as [-> Hm].
  destruct (arm_protect_entry d perms Hu Hm) as (E1 & E2 & E3). rewrite E2. cbn [mbind option_bind]. rewrite E1, E3.
  by destruct (mapped_address L3Descriptor d).
Qed.

(** The frames of the pages of a range, in order. *)
Definition frames_of (s : St) (t : Z) (ps : list Z) : list Z := omap (fun p => fst <$> page_at s t p) ps.

Lemma claimed_fold (s : St) t ps acc : space_ok s t -> (forall p, p ∈ ps -> 0 <= p < 2 ^ 48) ->
  fold_left (fun x p => hview (fun (x : list Z) (_ d : Z) => match mapped_address L3Descriptor d with Some addr => x ++ [to_pfn addr] | None => x end)
    (view arm_levels (tables s) t p) x p) ps acc = acc ++ frames_of s t ps.
Proof.
  intros Hok. revert acc. induction ps as [|p ps IH]; intros acc Hps; [by rewrite app_nil_r|]. cbn [fold_left frames_of omap list_omap].
  rewrite IH by (intros; apply Hps; by right). unfold frames_of, page_at at 2.
  destruct (view arm_levels (tables s) t p) as [[l d]|] eqn:Ev; cbn [hview mbind option_bind]; [|done].
  destruct (proj2 Hok p l d ltac:(apply Hps; by left) Ev) as [-> Hm].
  destruct (mapped_address L3Descriptor d) as [addr|] eqn:Em; [|done]. cbn [mbind option_bind fmap option_fmap option_map fst].
  by rewrite <- app_assoc.
Qed.

Lemma arm_unmap_range_spec (s : St) t a b : space_ok s t -> 0 <= a <= b -> b <= 2 ^ 48 -> a mod PAGE_SIZE = 0 -> b mod PAGE_SIZE = 0 ->
  exists s', arm_unmap_range t (rg a b) s = Return (Ok (frames_of s t (pgs a b)), s') /\ pt_step allocate arm_levels t s s' /\ space_ok s' t /\
    forall va, 0 <= va < 2 ^ 48 -> page_at s' t va = if decide (a <= va < b) then None else page_at s t va.
Proof.
  intros Hok Hab Hb Haa Hba. unfold arm_unmap_range.
  destruct (arm_walk_spec (X := list Z) (fun _ desc sx => Return (INVALID, (sx.1, match mapped_address L3Descriptor desc with Some addr => sx.2 ++ [to_pfn addr] | None => sx.2 end)))
    (fun _ _ => INVALID) (fun x _ d => match mapped_address L3Descriptor d with Some addr => x ++ [to_pfn addr] | None => x end))
    with (s := s) (t := t) (a := a) (b := b) (x := @nil Z) as (s' & x' & -> & Hst & Hok' & Hv & Hx); try done.
  exists s'. cbn [obind]. rewrite Hx, claimed_fold; [|done|intros p [_ Hp]%elem_of_pgs; [lia|done|done]].
  split; [done|]. split; [done|]. split; [done|]. intros va Hva. specialize (Hv va Hva).
  case_decide; [|by apply page_at_views]. unfold page_at. rewrite Hv.
  destruct (view arm_levels (tables s) t va) as [[l d]|] eqn:Ev; [|done]. by destruct (proj2 Hok va l d Hva Ev) as [-> _].
Qed.

Lemma pgs_one a : pgs a (a + PAGE_SIZE) = [a].
Proof. unfold pgs. replace (a + PAGE_SIZE - a) with PAGE_SIZE by lia. simpl. f_equal. lia. Qed.

Lemma page_region_rg va : 0 <= va < 2 ^ 48 -> page_region va = rg (page_of va) (page_of va + PAGE_SIZE).
Proof.
  intros Hva. unfold page_region, rg. rewrite page_aligned_eq by (unfold usize_ok; assert (2 ^ 48 < 2 ^ 64) by (apply Z.pow_lt_mono_r; lia); lia).
  unfold page_of. f_equal. lia.
Qed.

Lemma page_range va : 0 <= va < 2 ^ 48 -> 0 <= page_of va /\ page_of va + PAGE_SIZE <= 2 ^ 48 /\ page_of va mod PAGE_SIZE = 0 /\
  (page_of va + PAGE_SIZE) mod PAGE_SIZE = 0 /\ page_of (page_of va) = page_of va.
Proof.
  intros Hva. destruct (page_of_spec va) as [Hp Hr]. rewrite (page_of_eq (page_of va) (page_of va)) by (done || (unfold PAGE_SIZE; lia)).
  assert (Hn : 0 <= page_of va) by (unfold page_of; pose proof (Z.mod_le va PAGE_SIZE ltac:(lia) ltac:(unfold PAGE_SIZE; lia)); lia).
  assert (H48 : 2 ^ 48 mod PAGE_SIZE = 0) by done.
  pose proof (aligned_room PAGE_SIZE (page_of va) (2 ^ 48) ltac:(unfold PAGE_SIZE; lia) Hp H48 ltac:(lia)).
  rewrite Z.add_mod, Hp by (unfold PAGE_SIZE; lia). done.
Qed.

Lemma arm_remap_spec (s : St) t va page perms : space_ok s t -> 0 <= va < 2 ^ 48 -> 0 <= page < 2 ^ 36 ->
  exists r s', arm_remap t va page perms s = Return (r, s') /\ pt_step allocate arm_levels t s s' /\ space_ok s' t /\
    match page_at s t va with
    | Some (old, _) => r = Ok old /\ forall va', 0 <= va' < 2 ^ 48 ->
        page_at s' t va' = if decide (page_of va' = page_of va) then Some (page, arm_pview 3 perms) else page_at s t va'
    | None => r = Err (MappingError NotL3Mapped) /\ forall va', 0 <= va' < 2 ^ 48 -> page_at s' t va' = page_at s t va'
    end.
Proof.
  intros Hok Hva Hpg. unfold arm_remap. rewrite page_region_rg by done.
  destruct (page_range va Hva) as (H0 & H1 & Haa & Hba & Hpp). assert (Hpa : pa page = page * PAGE_SIZE) by (apply pa_eq; unfold PAGE_SIZE; lia).
  destruct (ml_new_map_pa _ _ _ _ L3Descriptor (hier_map_laws 48 arm_attr_ok arm_attr_perms arm_level_pview L0Descriptor [L1Descriptor; L2Descriptor; L3Descriptor]
    L3Descriptor arm_hier ltac:(do 2 right; left)) (pa page) Normal perms) as (d & Hd & Hu & Hdv & _ & Hdm & Hdp).
  { change (2 ^ 36) with 68719476736 in *. split; rewrite Hpa; [unfold PAGE_SIZE in *; lia|]. apply Z.mod_mul. done. }
  rewrite Hd. cbn [obind].
  destruct (arm_walk_spec (X := option Z) (fun _ pte sx => Return (d, (sx.1, Some pte))) (fun _ _ => d) (fun _ _ pte => Some pte))
    with (s := s) (t := t) (a := page_of va) (b := page_of va + PAGE_SIZE) (x := @None Z) as (s' & x' & -> & Hst & Hok' & Hv & Hx); try done || lia.
  { intros. by rewrite Hdm. } { unfold PAGE_SIZE; lia. }
  cbn [obind]. rewrite pgs_one in Hx. cbn [fold_left] in Hx. rewrite (arm_view_page _ _ (page_of va) va) in Hx by done.
  assert (Hin : forall va', page_of va <= va' < page_of va + PAGE_SIZE <-> page_of va' = page_of va).
  { intros va'. split; [by apply page_of_eq|]. intros <-. apply page_of_spec. }
  assert (Hout : forall va', 0 <= va' < 2 ^ 48 -> page_of va' <> page_of va -> page_at s' t va' = page_at s t va').
  { intros va' Hr' Hn. apply page_at_views. rewrite Hv, decide_False by (done || by rewrite Hin). done. }
  assert (Hvw : forall va', 0 <= va' < 2 ^ 48 -> page_of va' = page_of va ->
    view arm_levels (tables s') t va' = updv (fun _ _ => d) (page_of va) (view arm_levels (tables s) t va)).
  { intros va' Hr' Hn. rewrite Hv, decide_True by (done || by rewrite Hin). by rewrite Hn, (arm_view_page _ _ va' va). }
  unfold page_at at 1. destruct (view arm_levels (tables s) t va) as [[l d0]|] eqn:Ev; cbn [mbind option_bind hview] in *; subst x'.
  - destruct (proj2 Hok va l d0 Hva Ev) as [-> Hm]. destruct (mapped_address L3Descriptor d0) as [a0|] eqn:Em; [|done].
    cbn [mbind option_bind]. rewrite Em.
    eexists (Ok _), s'. split; [done|]. split; [done|]. split; [done|]. split; [done|]. intros va' Hr'.
    case_decide as Hn; [|by apply Hout]. unfold page_at. rewrite Hvw by done. cbn [updv]. rewrite Hdv. cbn [mbind option_bind].
    rewrite Hdm. cbn [mbind option_bind]. rewrite Hdp, to_pfn_pa by (unfold PAGE_SIZE; lia). done.
  - eexists (Err _), s'. split; [done|]. split; [done|]. split; [done|]. split; [done|]. intros va' Hr'.
    destruct (decide (page_of va' = page_of va)) as [Hn|Hn]; [|by apply Hout]. unfold page_at. rewrite Hvw by done.
    by rewrite (arm_view_page _ _ va' va), Ev.
Qed.

Lemma arm_translate_spec (s : St) t va : space_ok s t -> 0 <= va < 2 ^ 48 ->
  arm_translate t va s = Return (match page_at s t va with Some (f, Some p) => Some (mkPageInfo f p) | _ => None end).
Proof.
  intros Hok Hva. unfold arm_translate, arm_get_pte, get_pte.
  destruct (page_range va Hva) as (H0 & H1 & Haa & Hba & Hpp).
  assert (H48 : 2 ^ 48 < 2 ^ 64) by (apply Z.pow_lt_mono_r; lia).
  rewrite (page_aligned_eq va) by (unfold usize_ok; lia). fold (page_of va). fold (page_region (page_of va)).
  rewrite page_region_rg by (destruct (page_of_spec va); lia). rewrite Hpp. change (walk_and_modify_region arm_levels) with (arm_walk_and_modify_region (A := A) (X := option Z)).
  destruct (arm_walk_spec (X := option Z) (fun _ pte '(s, _) => Return (pte, (s, Some pte))) (fun _ d => d) (fun _ _ pte => Some pte))
    with (s := s) (t := t) (a := page_of va) (b := page_of va + PAGE_SIZE) (x := @None Z) as (s' & x' & -> & Hst & Hok' & Hv & Hx); try done || lia.
  { unfold PAGE_SIZE; lia. }
  cbn [obind]. rewrite pgs_one in Hx. cbn [fold_left] in Hx. rewrite (arm_view_page _ _ (page_of va) va) in Hx by done. subst x'.
  unfold page_at. destruct (view arm_levels (tables s) t va) as [[l d]|] eqn:Ev; cbn [hview mbind option_bind]; [|done].
  destruct (proj2 Hok va l d Hva Ev) as [-> Hm]. destruct (mapped_address L3Descriptor d); [|done]. cbn [mbind option_bind].
  by destruct (permissions L3Descriptor d).
Qed.

(** ** The operations as a page map *)

(** What the trait promises: the frame and the permissions of every address. *)
Notation PageMap := (Z -> option (Z * option PtePermissions)).

Inductive SpaceOp : Type :=
| OpMapPage (page va : Z) (perms : PtePermissions)
| OpProtectRange (a b : Z) (perms : PtePermissions)
| OpUnmapRange (a b : Z)
| OpRemap (va page : Z) (perms : PtePermissions).

Definition range_args (a b : Z) : Prop := 0 <= a <= b /\ b <= 2 ^ 48 /\ a mod PAGE_SIZE = 0 /\ b mod PAGE_SIZE = 0.

(** The arguments are user pages and frames of a 48-bit physical address space. *)
Definition op_args (op : SpaceOp) : Prop :=
  match op with
  | OpMapPage page va _ => va mod PAGE_SIZE = 0 /\ 0 <= va /\ va + PAGE_SIZE <= 2 ^ 48 /\ 0 <= page < 2 ^ 36
  | OpProtectRange a b _ | OpUnmapRange a b => range_args a b
  | OpRemap va page _ => 0 <= va < 2 ^ 48 /\ 0 <= page < 2 ^ 36
  end.

(** The operation on the tables; the result is the frames that it returns. *)
Definition run_op (t : Z) (op : SpaceOp) (s : St) : res (list Z) :=
  match op with
  | OpMapPage page va perms => let? (_u, s) := arm_map_page t page va perms s in Return (Ok [], s)
  | OpProtectRange a b perms => let? (_u, s) := arm_protect_range t (rg a b) perms s in Return (Ok [], s)
  | OpUnmapRange a b => arm_unmap_range t (rg a b) s
  | OpRemap va page perms => let? (f, s) := arm_remap t va page perms s in Return (Ok [f], s)
  end.

(** [M'] is [M] with the addresses of [P] changed by [f]. *)
Definition changed (P : Z -> Prop) `{forall va, Decision (P va)} (f : option (Z * option PtePermissions) -> option (Z * option PtePermissions))
    (M M' : PageMap) : Prop :=
  forall va, 0 <= va < 2 ^ 48 -> M' va = if decide (P va) then f (M va) else M va.

Definition unchanged (M M' : PageMap) : Prop := forall va, 0 <= va < 2 ^ 48 -> M' va = M va.

Definition spec_op (op : SpaceOp) (M : PageMap) (r : result (list Z)) (M' : PageMap) : Prop :=
  match op, r with
  | OpMapPage page va perms, Ok fs =>
      fs = [] /\ M va = None /\ changed (fun va' => page_of va' = va) (fun _ => Some (page, arm_pview 3 perms)) M M'
  | OpMapPage page va perms, Err e =>
      (alloc_error allocate e \/ e = MappingError AlreadyMapped /\ M va <> None) /\ unchanged M M'
  | OpProtectRange a b perms, _ =>
      r = Ok [] /\ changed (fun va => a <= va < b) (fmap (fun fp => (fp.1, arm_pview 3 perms))) M M'
  | OpUnmapRange a b, _ =>
      r = Ok (omap (fun p => fst <$> M p) (pgs a b)) /\ changed (fun va => a <= va < b) (fun _ => None) M M'
  | OpRemap va page perms, Ok fs =>
      (exists f p, M va = Some (f, p) /\ fs = [f]) /\
      changed (fun va' => page_of va' = page_of va) (fun _ => Some (page, arm_pview 3 perms)) M M'
  | OpRemap va page perms, Err e => M va = None /\ e = MappingError NotL3Mapped /\ unchanged M M'
  end.

Lemma run_op_spec t op s : space_ok s t -> op_args op ->
  exists r s', run_op t op s = Return (r, s') /\ pt_step allocate arm_levels t s s' /\ space_ok s' t /\ spec_op op (page_at s t) r (page_at s' t).
Proof.
  intros Hok Hargs. destruct op as [page va perms|a b perms|a b|va page perms]; cbn [run_op op_args] in *.
  - destruct Hargs as (H1 & H2 & H3 & H4). destruct (arm_map_page_spec s t page va perms Hok H1 H2 H3 H4) as (r & s' & -> & Hst & Hok' & Hr).
    destruct r as [u|e]; cbn [tbind]; eexists _, s'; (split; [done|]); (split; [done|]); (split; [done|]); [|exact Hr].
    split; [done|]. done.
  - destruct Hargs as (H1 & H2 & H3 & H4). destruct (arm_protect_range_spec s t a b perms Hok H1 H2 H3 H4) as (s' & -> & Hst & Hok' & Hr).
    cbn [tbind]. eexists _, s'. done.
  - destruct Hargs as (H1 & H2 & H3 & H4). destruct (arm_unmap_range_spec s t a b Hok H1 H2 H3 H4) as (s' & -> & Hst & Hok' & Hr).
    eexists _, s'. split; [done|]. split; [done|]. split; [done|]. split; [done|done].
  - destruct Hargs as (H1 & H2). destruct (arm_remap_spec s t va page perms Hok H1 H2) as (r & s' & -> & Hst & Hok' & Hr).
    destruct (page_at s t va) as [[f p]|] eqn:Ep; destruct Hr as [-> Hr]; cbn [tbind]; eexists _, s'; (split; [done|]); (split; [done|]); (split; [done|]).
    + split; [by exists f, p|done].
    + split; [done|]. split; [done|]. done.
Qed.

Fixpoint run_ops (t : Z) (ops : list SpaceOp) (s : St) : outcome (list (result (list Z)) * St) :=
  match ops with
  | [] => Return ([], s)
  | op :: ops =>
      let! (r, s) := run_op t op s in
      let! (rs, s) := run_ops t ops s in
      Return (r :: rs, s)
  end.

Fixpoint spec_ops (ops : list SpaceOp) (rs : list (result (list Z))) (M M' : PageMap) : Prop :=
  match ops, rs with
  | [], [] => unchanged M M'
  | op :: ops, r :: rs => exists M1, spec_op op M r M1 /\ spec_ops ops rs M1 M'
  | _, _ => False
  end.

(** C8: an arm64 address space implements the page map that the trait UserAddressSpace
    describes.  A new address space maps nothing, and for any sequence of [map_page],
    [protect_range], [unmap_range] and [remap] with user arguments the operations return
    and their results are those of the page map: mapping fails only for a mapped page or
    without memory for tables, protecting changes exactly the permissions of the range,
    unmapping returns the frames of the range in order, remapping returns the old frame;
    [translate] reads the map at every point.  Other trees of tables are not touched. *)
Theorem arm_space_refines s0 t s1 ops : arm_new s0 = (Ok t, s1) -> Forall op_args ops ->
  exists rs s', run_ops t ops s1 = Return (rs, s') /\ pt_step allocate arm_levels t s1 s' /\ space_ok s' t /\
    (forall va, page_at s1 t va = None) /\ spec_ops ops rs (page_at s1 t) (page_at s' t) /\
    forall va, 0 <= va < 2 ^ 48 -> arm_translate t va s' =
      Return (match page_at s' t va with Some (f, Some p) => Some (mkPageInfo f p) | _ => None end).
Proof.
  intros Hnew Hops. destruct (arm_new_spec s0 t s1 Hnew) as (Hok & _ & Hempty).
  assert (Hrun : forall s, space_ok s t -> exists rs s', run_ops t ops s = Return (rs, s') /\ pt_step allocate arm_levels t s s' /\ space_ok s' t /\
    spec_ops ops rs (page_at s t) (page_at s' t)).
  { clear Hnew Hok Hempty. induction Hops as [|op ops Hop Hops IH]; intros s Hok.
    - exists [], s. split; [done|]. split; [apply pt_step_refl, Hok|]. done.
    - destruct (run_op_spec t op s Hok Hop) as (r & s2 & Hr & Hst & Hok2 & Hsp). destruct (IH s2 Hok2) as (rs & s' & Hrs & Hst' & Hok' & Hsps).
      exists (r :: rs), s'. cbn [run_ops]. rewrite Hr. cbn [obind]. rewrite Hrs. split; [done|]. split; [by eapply pt_step_trans|]. split; [done|].
      by exists (page_at s2 t). }
  destruct (Hrun s1 Hok) as (rs & s' & Hrs & Hst & Hok' & Hsp). exists rs, s'. split; [done|]. split; [done|]. split; [done|].
  split; [done|]. split; [done|]. intros va Hva. by apply arm_translate_spec.
Qed.

(** C21: dropping an arm64 address space terminates and gives to the page allocator every
    frame that is mapped in the lower half, once per mapping, and every page table of the
    tree, once. *)
Theorem arm_drop_correct s l0_table : tree arm_levels (tables s) l0_table ->
  exists fr, arm_drop l0_table s = Return (s, fr) /\
    freed_exactly (fun v r => 0 <= v < 2 ^ 48 /\ mapping_at arm_levels (tables s) l0_table v r) (foot arm_levels (tables s) l0_table) fr.
Proof. intros Ht. exact (tear_down_all_spec 48 arm_attr_ok arm_attr_perms arm_level_pview _ _ s l0_table arm_hier eq_refl Ht). Qed.
End ArmSpace.

(** ** Runs *)

Definition demo_rw : PtePermissions := mkPte true true false true false.
Definition demo_none : PtePermissions := mkPte false false false true false.
Definition demo_ops : list SpaceOp :=
  [OpMapPage 7 0x400000 demo_rw; OpMapPage 8 0x401000 demo_rw; OpMapPage 9 0x400000 demo_rw; OpRemap 0x401234 10 demo_rw;
   OpProtectRange 0x400000 0x401000 demo_none; OpUnmapRange 0x3ff000 0x402000].

Lemma arm_space_refines_witness : exists t s1 rs s', arm_new bump_alloc bump_state = (Ok t, s1) /\
  run_ops bump_alloc t demo_ops s1 = Return (rs, s') /\ spec_ops bump_alloc demo_ops rs (page_at s1 t) (page_at s' t).
Proof.
  destruct (arm_space_refines bump_alloc bump_state PAGE_SIZE (arm_new bump_alloc bump_state).2 demo_ops) as (rs & s' & Hr & _ & _ & _ & Hsp & _).
  - reflexivity.
  - repeat constructor; simpl; unfold range_args, PAGE_SIZE; repeat split; try lia; reflexivity.
  - exists PAGE_SIZE, (arm_new bump_alloc bump_state).2, rs, s'. split; [reflexivity|]. exact (conj Hr Hsp).
Defined.

Lemma arm_drop_correct_witness : exists fr, arm_drop 0 demo_state = Return (demo_state, fr) /\
  freed_exactly (fun v r => 0 <= v < 2 ^ 48 /\ mapping_at arm_levels (tables demo_state) 0 v r) (foot arm_levels (tables demo_state) 0) fr.
Proof. apply (arm_drop_correct demo_state 0). exact (proj1 (proj1 demo_state_spec)). Defined.

(** A page without permissions is still mapped, but [translate] does not see it: the memory
    map takes it for unmapped. *)
Lemma translate_prot_none : exists t s1 s', arm_new bump_alloc bump_state = (Ok t, s1) /\
  run_ops bump_alloc t [OpMapPage 7 0x400000 demo_rw; OpProtectRange 0x400000 0x401000 demo_none] s1 = Return ([Ok []; Ok []], s') /\
  page_at s' t 0x400000 = Some (7, None) /\ arm_translate t 0x400000 s' = Return None.
Proof. eexists _, _, _. split; [reflexivity|]. split; [vm_compute; reflexivity|]. split; vm_compute; reflexivity. Qed.

(** Fork panics when there is no memory for a page table of the child. *)
Lemma clone_region_panics : exists t s1 r s2,
  arm_new bump_alloc (mkPt (fun _ _ => 0) [] (2 ^ 40 - 5 * PAGE_SIZE)) = (Ok t, s1) /\
  arm_map_page bump_alloc t 7 0x400000 demo_rw s1 = Return (Ok r, s2) /\
  arm_protect_and_clone_region bump_alloc t (mkRegion 0x400000 PAGE_SIZE) 0 demo_rw s2 = Panic.
Proof. eexists _, _, _, _. split; [reflexivity|]. split; [vm_compute; reflexivity|]. vm_compute; reflexivity. Qed.
