(* ===== verification/TaskState.v ===== *)
(** * The life of a task: states, wake-ups and the dispatcher

    Models src/sched/sched_task/state.rs (the atomic task state), src/sched/waker.rs, the
    hand-over of a task between its Work and a run queue (src/sched/sched_task/mod.rs and
    src/sched/runqueue/mod.rs), and the dispatcher src/sched/uspc_ret.rs as far as it moves a
    task.  A method of TaskStateMachine is a program of atomic accesses; the steps of one task,
    of the CPU that runs it and of any number of concurrent wakers interleave between any two
    accesses. *)
From stdpp Require Import base list.
From S2P Require Import Prelude.

Inductive TaskState : Type :=
| Running | Runnable | Woken | Stopped | Sleeping | Finished | PendingSleep | PendingStop.
#[export] Instance TaskState_eq_dec : EqDecision TaskState.
Proof. solve_decision. Defined.

Inductive WakerAction : Type := Enqueue | PreventedSleep | NoAction.

(** ** Programs of atomic accesses

    The continuation of a compare-exchange gets the value found there if it failed;
    [Unreachable] is the macro of that name. *)
Inductive prog (A : Type) : Type :=
| Done (a : A)
| Load (k : TaskState -> prog A)
| Store (s : TaskState) (k : prog A)
| CompareExchange (old new : TaskState) (k : option TaskState -> prog A)
| Unreachable.
Arguments Done {A} a.
Arguments Load {A} k.
Arguments Store {A} s k.
Arguments CompareExchange {A} old new k.
Arguments Unreachable {A}.

Definition is_ok (r : option TaskState) : bool := match r with None => true | Some _ => false end.

(** One access on the state [s]. *)
Definition access {A : Type} (s : TaskState) (p : prog A) : option (TaskState * prog A) :=
  match p with
  | Load k => Some (s, k s)
  | Store s' k => Some (s', k)
  | CompareExchange old new k => Some (if decide (s = old) then (new, k None) else (s, k (Some s)))
  | Done _ | Unreachable => None
  end.

(** *** The methods of TaskStateMachine *)

Notation initial_state := (Runnable) (only parsing).
Definition is_finished (s : TaskState) : bool := match s with Finished => true | _ => false end.

Definition activate {A : Type} (k : prog A) : prog A := Store Running k.
Definition mark_runnable {A : Type} (k : prog A) : prog A := Store Runnable k.
Definition finish {A : Type} (k : prog A) : prog A := Store Finished k.

Definition finalize_deactivation : prog bool :=
  Load (fun state =>
    match state with
    | PendingSleep => CompareExchange state Sleeping (fun r => Done (is_ok r))
    | PendingStop => CompareExchange state Stopped (fun r => Done (is_ok r))
    | _ => Done false
    end).

Definition try_pending_sleep : prog bool :=
  Load (fun state =>
    match state with
    | Running | Runnable =>
        CompareExchange state PendingSleep (fun r =>
          match r with
          | None => Done true
          | Some Woken => Store Running (Done false)
          | Some Finished => Done true
          | Some _ => Unreachable
          end)
    | Woken => Store Running (Done false)
    | Finished => Done true
    | _ => Unreachable
    end).

Definition try_pending_stop : prog bool :=
  Load (fun state =>
    match state with
    | Running | Runnable => CompareExchange state PendingStop (fun r => Done (is_ok r))
    | Woken => Store Running (Done false)
    | _ => Done true
    end).

(** One round of the loop of [wake]; [None] is [continue]. *)
Definition wake_round : prog (option WakerAction) :=
  Load (fun state =>
    match state with
    | Sleeping | Stopped =>
        CompareExchange state Runnable (fun r => Done (Some (if is_ok r then Enqueue else NoAction)))
    | Running | Runnable | PendingSleep | PendingStop =>
        CompareExchange state Woken (fun r => Done (if is_ok r then Some PreventedSleep else None))
    | _ => Done (Some NoAction)
    end).

(** What [RunQueue::schedule] does with the running task: its own state, and then whether the
    slice is over ([requeue]), decide. *)
Inductive sched_decision : Type := ToQueue | KeepRunning | Deactivate | DropTask.
Definition schedule_current (requeue : bool) : prog sched_decision :=
  Load (fun state =>
    match state with
    | Running | Woken => if requeue then mark_runnable (Done ToQueue) else activate (Done KeepRunning)
    | PendingSleep | PendingStop => Done Deactivate
    | _ => Done DropTask
    end).

(** [find_next_task] skips a finished task; another one is activated. *)
Definition pick_task : prog bool :=
  Load (fun state => if is_finished state then Done false else activate (Done true)).

(** ** One task among its wakers

    Where the task's RunnableTask is, and what the CPU that works on it is doing. *)
Inductive cpu : Type :=
| Detached                              (* no CPU works on the task *)
| InQueue                               (* in a heap of a run queue *)
| Picking (p : prog bool)               (* popped from the heap *)
| Polling                               (* about to poll its kernel work *)
| InUser                                (* nothing to wait for *)
| TrySleep (p : prog bool)
| TryStop (p : prog bool)
| Scheduling (p : prog sched_decision)
| Dropping                              (* about to give the scheduler data back *)
| Finalizing (p : prog bool)
| Reinserting                           (* about to call add_work after a failed deactivation *)
| Inserting (p : prog unit)             (* in add_work, behind into_runnable *)
| Exiting (p : prog unit)
| Dead.

(** A waker: in [wake], about to call add_work, or in it. *)
Inductive waker : Type :=
| Waking (p : prog (option WakerAction))
| Enqueueing
| Adding (p : prog unit).

(** [sched_data] is [Some] in the Work; [need] says that an event the task waits for has
    happened since it last polled; [panicked] that an [expect] or [unreachable!] was hit. *)
Record sys := mkSys {
  st : TaskState; sched_data : bool; on : cpu; wakers : list waker; need : bool; panicked : bool
}.

Definition with_st (y : sys) (s : TaskState) (o : cpu) : sys := mkSys s (sched_data y) o (wakers y) (need y) (panicked y).
Definition with_on (y : sys) (o : cpu) : sys := mkSys (st y) (sched_data y) o (wakers y) (need y) (panicked y).
Definition polled (y : sys) (o : cpu) : sys := mkSys (st y) (sched_data y) o (wakers y) false (panicked y).
Definition panic (y : sys) : sys := mkSys (st y) (sched_data y) (on y) (wakers y) (need y) true.

(** [Work::into_runnable]: takes the scheduler data, which must be there. *)
Definition into_runnable (y : sys) (k : sys -> sys) : sys :=
  if sched_data y then k (mkSys (st y) false (on y) (wakers y) (need y) (panicked y)) else panic y.
(** Dropping the RunnableTask puts them back. *)
Definition drop_runnable (y : sys) (o : cpu) : sys := mkSys (st y) true o (wakers y) (need y) (panicked y).

(** Where the CPU goes on when a program of it is done. *)
Definition after_pick (p : prog bool) : cpu :=
  match p with Done true => Polling | Done false => Dead | _ => Picking p end.
Definition after_sleep (b : bool) (p : prog bool) : cpu :=
  match p with Done true => Scheduling (schedule_current b) | Done false => Polling | _ => TrySleep p end.
Definition after_stop (b : bool) (p : prog bool) : cpu :=
  match p with Done true => Scheduling (schedule_current b) | Done false => Polling | _ => TryStop p end.
Definition after_schedule (p : prog sched_decision) : cpu :=
  match p with
  | Done ToQueue => InQueue | Done KeepRunning => Polling | Done Deactivate => Dropping | Done DropTask => Dead
  | _ => Scheduling p
  end.
Definition after_finalize (p : prog bool) : cpu :=
  match p with Done true => Detached | Done false => Reinserting | _ => Finalizing p end.
Definition after_insert (p : prog unit) : cpu := match p with Done _ => InQueue | _ => Inserting p end.
Definition after_exit (b : bool) (p : prog unit) : cpu := match p with Done _ => Scheduling (schedule_current b) | _ => Exiting p end.

(** A step of the CPU that works on the task. *)
Inductive cpu_step (y : sys) : sys -> Prop :=
| cpu_pick : on y = InQueue -> cpu_step y (with_on y (Picking pick_task))
| cpu_picking p s p' : on y = Picking p -> access (st y) p = Some (s, p') -> cpu_step y (with_st y s (after_pick p'))
(* the kernel work is pending, or there is none left, or a tracer is told of a trap *)
| cpu_poll_pending : on y = Polling -> cpu_step y (polled y (TrySleep try_pending_sleep))
| cpu_poll_ready : on y = Polling -> cpu_step y (polled y InUser)
| cpu_poll_traced : on y = Polling -> cpu_step y (polled y (TryStop try_pending_stop))
| cpu_poll_exit : on y = Polling -> cpu_step y (polled y (Exiting (finish (Done tt))))
| cpu_sleeping b p s p' : on y = TrySleep p -> access (st y) p = Some (s, p') -> cpu_step y (with_st y s (after_sleep b p'))
| cpu_sleep_panic : on y = TrySleep Unreachable -> cpu_step y (panic y)
| cpu_stopping b p s p' : on y = TryStop p -> access (st y) p = Some (s, p') -> cpu_step y (with_st y s (after_stop b p'))
(* an interrupt, a system call that blocks again, a yield *)
| cpu_interrupt b : on y = InUser -> cpu_step y (with_on y (Scheduling (schedule_current b)))
| cpu_continue : on y = InUser -> cpu_step y (with_on y Polling)
| cpu_scheduling p s p' : on y = Scheduling p -> access (st y) p = Some (s, p') -> cpu_step y (with_st y s (after_schedule p'))
| cpu_drop : on y = Dropping -> cpu_step y (drop_runnable y (Finalizing finalize_deactivation))
| cpu_finalizing p s p' : on y = Finalizing p -> access (st y) p = Some (s, p') -> cpu_step y (with_st y s (after_finalize p'))
| cpu_reinsert : on y = Reinserting ->
    cpu_step y (into_runnable y (fun y => with_on y (Inserting (mark_runnable (Done tt)))))
| cpu_inserting p s p' : on y = Inserting p -> access (st y) p = Some (s, p') -> cpu_step y (with_st y s (after_insert p'))
| cpu_exiting b p s p' : on y = Exiting p -> access (st y) p = Some (s, p') -> cpu_step y (with_st y s (after_exit b p')).

(** What a waker does when its round of [wake] is done. *)
Definition after_wake (p : prog (option WakerAction)) : list waker :=
  match p with
  | Done None => [Waking wake_round]
  | Done (Some Enqueue) => [Enqueueing]
  | Done (Some _) => []
  | _ => [Waking p]
  end.

(** A step of a waker; a new one comes with an event. *)
Inductive waker_step (y : sys) : sys -> Prop :=
| waker_event : waker_step y (mkSys (st y) (sched_data y) (on y) (Waking wake_round :: wakers y) true (panicked y))
| waker_wake l l' p s p' : wakers y = l ++ Waking p :: l' -> access (st y) p = Some (s, p') ->
    waker_step y (mkSys s (sched_data y) (on y) (l ++ after_wake p' ++ l') (need y) (panicked y))
| waker_enqueue l l' : wakers y = l ++ Enqueueing :: l' ->
    waker_step y (into_runnable y (fun y =>
      mkSys (st y) (sched_data y) (on y) (l ++ Adding (mark_runnable (Done tt)) :: l') (need y) (panicked y)))
| waker_add l l' p s u : wakers y = l ++ Adding p :: l' -> access (st y) p = Some (s, Done u) ->
    waker_step y (mkSys s (sched_data y) InQueue (l ++ l') (need y) (panicked y)).

Inductive step (y y' : sys) : Prop :=
| step_cpu : cpu_step y y' -> step y y'
| step_waker : waker_step y y' -> step y y'.

(** A new task: in its Work, about to be inserted. *)
Definition new_task : sys := mkSys initial_state true Reinserting [] false false.

Inductive reachable : sys -> Prop :=
| reachable_new : reachable new_task
| reachable_step y y' : reachable y -> step y y' -> reachable y'.

(** * No wake-up is lost *)

(** The programs a CPU or a waker can be in, and the states they can find. *)
Definition up (s : TaskState) : Prop := s = Running \/ s = Woken.
Definition queued (s : TaskState) : Prop := s = Runnable \/ s = Woken.
Definition pending (s : TaskState) : Prop := s = PendingSleep \/ s = PendingStop \/ s = Woken.

Definition sleep_cas : prog bool :=
  CompareExchange Running PendingSleep (fun r =>
    match r with None => Done true | Some Woken => Store Running (Done false) | Some Finished => Done true | Some _ => Unreachable end).
Definition stop_cas : prog bool := CompareExchange Running PendingStop (fun r => Done (is_ok r)).

Definition cpu_inv (o : cpu) (s : TaskState) : Prop :=
  match o with
  | Detached => s = Sleeping \/ s = Stopped
  | InQueue => queued s
  | Picking p => (p = pick_task \/ p = activate (Done true)) /\ queued s
  | Polling | InUser => up s
  | TrySleep p => (p = try_pending_sleep \/ p = sleep_cas) /\ up s \/ p = Store Running (Done false) /\ s = Woken
  | TryStop p => (p = try_pending_stop \/ p = stop_cas) /\ up s \/ p = Store Running (Done false) /\ s = Woken
  | Scheduling p =>
      (exists b, p = schedule_current b) /\ (up s \/ pending s \/ s = Finished)
      \/ (p = mark_runnable (Done ToQueue) \/ p = activate (Done KeepRunning)) /\ up s
  | Dropping => pending s
  | Finalizing p =>
      p = finalize_deactivation /\ pending s
      \/ p = CompareExchange PendingSleep Sleeping (fun r => Done (is_ok r)) /\ (s = PendingSleep \/ s = Woken)
      \/ p = CompareExchange PendingStop Stopped (fun r => Done (is_ok r)) /\ (s = PendingStop \/ s = Woken)
  | Reinserting => queued s
  | Inserting p => p = mark_runnable (Done tt) /\ queued s
  | Exiting p => p = finish (Done tt) /\ up s
  | Dead => s = Finished
  end.

(** The scheduler data are in the Work exactly while no RunnableTask exists. *)
Definition in_work (o : cpu) : bool := match o with Detached | Finalizing _ | Reinserting => true | _ => false end.

Inductive waker_ok : waker -> Prop :=
| wok_round : waker_ok (Waking wake_round)
| wok_enqueue s : s = Sleeping \/ s = Stopped ->
    waker_ok (Waking (CompareExchange s Runnable (fun r => Done (Some (if is_ok r then Enqueue else NoAction)))))
| wok_prevent s : s = Running \/ s = Runnable \/ s = PendingSleep \/ s = PendingStop ->
    waker_ok (Waking (CompareExchange s Woken (fun r => Done (if is_ok r then Some PreventedSleep else None)))).

(** Either a CPU or exactly one waker has the task. *)
Definition owner_inv (y : sys) : Prop :=
  Forall waker_ok (wakers y) /\ cpu_inv (on y) (st y) /\ sched_data y = in_work (on y)
  \/ on y = Detached /\ queued (st y) /\
     exists l w l', wakers y = l ++ w :: l' /\ Forall waker_ok (l ++ l') /\
       (w = Enqueueing /\ sched_data y = true \/ w = Adding (mark_runnable (Done tt)) /\ sched_data y = false).

(** A waker that will still do something about its event. *)
Definition covers (s : TaskState) (w : waker) : Prop :=
  match w with Waking (CompareExchange old Runnable _) => s = old | _ => True end.

(** The CPU is on its way to poll the task again, or the task has ended. *)
Definition heading (o : cpu) (s : TaskState) : Prop :=
  match o with
  | InQueue | Picking _ | Polling | InUser | Reinserting | Inserting _ | Exiting _ | Dead => True
  | TrySleep (Store _ _) | TryStop (Store _ _) | Scheduling (Store _ _) => True
  | Scheduling (Load _) => s = Running \/ s = Finished
  | _ => False
  end.

Definition need_inv (y : sys) : Prop :=
  need y = true -> Exists (covers (st y)) (wakers y) \/ st y = Woken \/ heading (on y) (st y).

Record inv (y : sys) : Prop := {
  inv_owner : owner_inv y;
  inv_need : need_inv y;
  inv_ok : panicked y = false
}.

Ltac tsolve := unfold up, queued, pending in *; intuition (subst; simpl in *; eauto; try congruence).

Lemma covers_any w s s' : waker_ok w -> covers s w -> s <> Sleeping -> s <> Stopped -> covers s' w.
Proof. intros [|s0 Hs|s0 Hs]; simpl; [done|intros ->; tsolve|done]. Qed.

Lemma covers_any_list l s s' : Forall waker_ok l -> Exists (covers s) l -> s <> Sleeping -> s <> Stopped -> Exists (covers s') l.
Proof.
  intros Hl He H1 H2. apply Exists_exists in He as (w & Hw & Hc). apply Exists_exists. exists w. split; [done|].
  rewrite Forall_forall in Hl. eapply covers_any; eauto.
Qed.

(** While a waker has the task, no CPU step is possible. *)
Lemma owner_inv_cpu y y' : owner_inv y -> cpu_step y y' ->
  Forall waker_ok (wakers y) /\ cpu_inv (on y) (st y) /\ sched_data y = in_work (on y).
Proof. intros [H|(Hd & _)] Hs; [done|]. destruct Hs; congruence. Qed.

(** A step of the CPU to state [s] and position [o] keeps the invariant if its own parts do. *)
Lemma inv_with_st y s o : inv y -> Forall waker_ok (wakers y) -> cpu_inv o s -> sched_data y = in_work o ->
  st y <> Sleeping -> st y <> Stopped -> (st y = Woken -> s = Woken \/ heading o s) ->
  (heading (on y) (st y) -> s = Woken \/ heading o s) -> inv (with_st y s o).
Proof.
  intros [Ho Hn Hp] Hw Hc Hd H1 H2 Hwk Hh. split; simpl; [left; by split_and!| |done].
  intros Hneed. simpl in *. destruct (Hn Hneed) as [He|[Hk|Hk]]; [left; by eapply covers_any_list|tsolve|tsolve].
Qed.

(** The outcomes of an access to a known state. *)
Ltac access_cases Ha :=
  unfold up, queued, pending in *;
  repeat match goal with
  | H : _ \/ _ |- _ => destruct H
  | H : _ /\ _ |- _ => destruct H
  | H : exists _, _ |- _ => destruct H
  | b : bool |- _ => destruct b
  end; subst;
  try match goal with H : st _ = _ |- _ => rewrite H in Ha end;
  cbv -[st] in Ha; simplify_eq; simpl;
  apply inv_with_st;
  repeat match goal with H : st _ = _ |- _ => rewrite H | H : on _ = _ |- _ => rewrite H end;
  simpl; tsolve.

Lemma cpu_step_inv y y' : inv y -> cpu_step y y' -> inv y'.
Proof.
  intros Hinv Hs. destruct (owner_inv_cpu y y' (inv_owner y Hinv) Hs) as (Hw & Hc & Hd).
  assert (Hpoll : forall o, cpu_inv o (st y) -> sched_data y = in_work o -> inv (polled y o)).
  { intros o Hco Hdo. destruct Hinv. split; simpl; [left; by split_and!|by intros [=]|done]. }
  destruct Hs as [Ho|p s p' Ho Ha|Ho|Ho|Ho|Ho|b p s p' Ho Ha|Ho|b p s p' Ho Ha|b Ho|Ho|p s p' Ho Ha|Ho|p s p' Ho Ha|Ho|p s p' Ho Ha|b p s p' Ho Ha];
    rewrite Ho in Hc, Hd; simpl in Hc, Hd.
  - apply (inv_with_st y (st y)); rewrite ?Ho; simpl; tsolve.
  - access_cases Ha.
  - apply Hpoll; [|done]. left. auto.
  - by apply Hpoll.
  - apply Hpoll; [|done]. left. auto.
  - by apply Hpoll.
  - access_cases Ha.
  - destruct Hc as [[[H|H] _]|[H _]]; discriminate H.
  - access_cases Ha.
  - apply (inv_with_st y (st y)); rewrite ?Ho; simpl; tsolve.
  - apply (inv_with_st y (st y)); rewrite ?Ho; simpl; tsolve.
  - access_cases Ha.
  - destruct Hinv as [_ Hn Hp]. split; simpl; [left; split_and!; [done|simpl; by left|done]| |done].
    intros Hneed. simpl. destruct (Hn Hneed) as [?|[?|Hh]]; [by left|by right; left|]. by rewrite Ho in Hh.
  - access_cases Ha.
  - unfold into_runnable. rewrite Hd. destruct Hinv as [_ Hn Hp].
    split; simpl; [left; by split_and!| |done]. intros _. right. by right.
  - access_cases Ha.
  - access_cases Ha.
Qed.

Lemma owner_inv_waking y l p l' : owner_inv y -> wakers y = l ++ Waking p :: l' -> waker_ok (Waking p).
Proof.
  intros [(Hw & _)|(_ & _ & l1 & w & l1' & Heq & Hw & Hx)] Hl.
  - rewrite Hl in Hw. by apply Forall_app in Hw as [_ [? _]%Forall_cons].
  - rewrite Heq in Hl. assert (Waking p ∈ l1 ++ w :: l1') as Hin by (rewrite Hl, elem_of_app, elem_of_cons; auto).
    rewrite elem_of_app, elem_of_cons in Hin. rewrite Forall_forall in Hw.
    destruct Hin as [?|[<-|?]]; [apply Hw; set_solver| |apply Hw; set_solver]. destruct Hx as [[? _]|[? _]]; discriminate.
Qed.

Lemma app_cons_unique {A} (P : A -> Prop) l1 w l1' l w' l' : Forall P (l1 ++ l1') -> ~ P w' ->
  l1 ++ w :: l1' = l ++ w' :: l' -> l1 = l /\ w = w' /\ l1' = l'.
Proof.
  intros Hf Hn. revert l Hf. induction l1 as [|x l1 IH]; intros l Hf Heq; destruct l as [|z l]; simpl in *; injection Heq as -> Heq.
  - by subst.
  - subst l1'. exfalso. apply Hn. rewrite Forall_app in Hf. by destruct Hf as [_ [? _]%Forall_cons].
  - exfalso. apply Hn. by apply Forall_cons in Hf as [? _].
  - apply Forall_cons in Hf as [_ Hf]. by destruct (IH l Hf Heq) as (-> & -> & ->).
Qed.

(** A waker in [wake] can be replaced by others that are in [wake], or go away. *)
Lemma owner_inv_replace y l p l' ws : owner_inv y -> wakers y = l ++ Waking p :: l' -> Forall waker_ok ws ->
  owner_inv (mkSys (st y) (sched_data y) (on y) (l ++ ws ++ l') (need y) (panicked y)).
Proof.
  intros Ho Hl Hws. pose proof (owner_inv_waking _ _ _ _ Ho Hl) as Hp. destruct Ho as [(Hw & Hc & Hd)|(Hd & Hq & l1 & w & l1' & Heq & Hw & Hx)].
  - left. simpl. split; [|done]. rewrite Hl in Hw. apply Forall_app in Hw as [H1 [_ H2]%Forall_cons].
    by rewrite !Forall_app.
  - right. simpl. split; [done|]. split; [done|].
    assert (w ∈ l ++ Waking p :: l') as Hin by (rewrite <- Hl, Heq, elem_of_app, elem_of_cons; auto).
    assert (~ waker_ok w) as Hnw by (intros Hok; destruct Hx as [[-> _]|[-> _]]; inversion Hok).
    rewrite elem_of_app, elem_of_cons in Hin. destruct Hin as [Hin|[->|Hin]]; [|done|].
    + apply list_elem_of_split in Hin as (a & b & ->). rewrite Heq, <- app_assoc in Hl. simpl in Hl.
      destruct (app_cons_unique waker_ok _ _ _ _ _ _ Hw Hnw Hl) as (-> & _ & ->).
      exists a, w, (b ++ ws ++ l'). rewrite <- app_assoc. split; [done|]. split; [|done].
      rewrite !Forall_app in Hw. destruct Hw as (H1 & H2 & [_ H3]%Forall_cons). by rewrite !Forall_app.
    + apply list_elem_of_split in Hin as (a & b & ->). rewrite Heq in Hl.
      change (l ++ Waking p :: a ++ w :: b) with (l ++ [Waking p] ++ a ++ w :: b) in Hl. rewrite !app_assoc in Hl.
      destruct (app_cons_unique waker_ok _ _ _ _ _ _ Hw Hnw Hl) as (-> & _ & ->).
      exists (l ++ ws ++ a), w, b. rewrite <- !app_assoc. split; [done|]. split; [|done].
      rewrite !Forall_app in Hw |- *. destruct Hw as (((H1 & _) & H2) & H3). done.
Qed.

Lemma cpu_inv_woken o s : cpu_inv o s -> s = Running \/ s = Runnable \/ s = PendingSleep \/ s = PendingStop -> cpu_inv o Woken.
Proof. destruct o; simpl; tsolve. Qed.

Lemma cpu_inv_asleep o s : cpu_inv o s -> s = Sleeping \/ s = Stopped -> o = Detached.
Proof. destruct o; simpl; tsolve. Qed.

Lemma cpu_inv_finished o : cpu_inv o Finished -> heading o Finished.
Proof. destruct o; simpl; tsolve. destruct H as [b ->]. simpl. by right. Qed.

Lemma inv_replace y l p l' ws : inv y -> wakers y = l ++ Waking p :: l' -> Forall waker_ok ws ->
  (Exists (covers (st y)) ws \/ st y = Woken \/ heading (on y) (st y) \/ ~ covers (st y) (Waking p)) ->
  inv (mkSys (st y) (sched_data y) (on y) (l ++ ws ++ l') (need y) (panicked y)).
Proof.
  intros [Ho Hn Hp] Hl Hws Hcov. split; simpl; [by apply (owner_inv_replace _ _ p)| |done].
  intros Hneed. simpl. destruct Hcov as [?|[?|[?|Hnc]]]; [left; rewrite !Exists_app; auto|auto|auto|].
  destruct (Hn Hneed) as [He|?]; [|auto]. left. rewrite Hl in He.
  rewrite Exists_app, Exists_cons in He. rewrite !Exists_app. tauto.
Qed.

Lemma waking_step_inv y l p l' s p' : inv y -> wakers y = l ++ Waking p :: l' -> access (st y) p = Some (s, p') ->
  inv (mkSys s (sched_data y) (on y) (l ++ after_wake p' ++ l') (need y) (panicked y)).
Proof.
  intros Hinv Hl Ha. pose proof (owner_inv_waking _ _ _ _ (inv_owner _ Hinv) Hl) as Hok.
  inversion Hok as [|s0 Hs0|s0 Hs0]; subst; simpl in Ha.
  - injection Ha as <- <-. apply (inv_replace y l wake_round); [done|done| |].
    { destruct (st y); simpl; repeat (constructor; auto). }
    destruct (st y) eqn:Est; simpl; try (left; apply Exists_cons; left; exact I || reflexivity); [by right; left|].
    destruct (inv_owner _ Hinv) as [(_ & Hc & _)|(_ & Hq & _)]; [|rewrite Est in Hq; tsolve].
    right. right. left. rewrite Est in Hc. by apply cpu_inv_finished.
  - destruct (decide (st y = s0)) as [<-|Hne]; injection Ha as <- <-; simpl.
    + destruct Hinv as [[(Hw & Hc & Hd)|(_ & Hq & _)] Hn Hp]; [|tsolve].
      pose proof (cpu_inv_asleep _ _ Hc Hs0) as Hdet. rewrite Hdet in Hd. rewrite Hl in Hw.
      apply Forall_app in Hw as [H1 [_ H2]%Forall_cons].
      split; simpl; [|intros _; left; simpl; rewrite Exists_app, Exists_cons; simpl; auto|done].
      right. split; [done|]. split; [by left|]. exists l, Enqueueing, l'. rewrite Forall_app. auto.
    + apply (inv_replace y l _ l' [] Hinv Hl); [done|]. by right; right; right.
  - destruct (decide (st y = s0)) as [<-|Hne]; injection Ha as <- <-; simpl.
    + destruct Hinv as [Ho Hn Hp]. split; simpl; [|intros _; simpl; auto|done].
      destruct (owner_inv_replace y l _ l' [] Ho Hl ltac:(done)) as [(Hw & Hc & Hd)|(Hd & Hq & Hx)]; simpl in *.
      * left. split; [done|]. split; [|done]. by apply (cpu_inv_woken _ (st y)).
      * right. split; [done|]. split; [by right|done].
    + apply (inv_replace y l _ l' [Waking wake_round] Hinv Hl); [repeat constructor|]. left. by constructor.
Qed.

Lemma busy_waker y l w l' : owner_inv y -> wakers y = l ++ w :: l' -> ~ waker_ok w ->
  on y = Detached /\ queued (st y) /\ Forall waker_ok (l ++ l') /\
  (w = Enqueueing /\ sched_data y = true \/ w = Adding (mark_runnable (Done tt)) /\ sched_data y = false).
Proof.
  intros [(Hw & _)|(Hd & Hq & l1 & w1 & l1' & Heq & Hw & Hx)] Hl Hn.
  - rewrite Hl in Hw. by apply Forall_app in Hw as [_ [? _]%Forall_cons].
  - rewrite Heq in Hl. by destruct (app_cons_unique waker_ok _ _ _ _ _ _ Hw Hn Hl) as (-> & -> & ->).
Qed.

Lemma waker_step_inv y y' : inv y -> waker_step y y' -> inv y'.
Proof.
  intros Hinv [|l l' p s p' Hl Ha|l l' Hl|l l' p s u Hl Ha].
  - destruct Hinv as [Ho Hn Hp]. split; simpl; [|intros _; left; simpl; by constructor|done].
    destruct Ho as [(Hw & Hc & Hd)|(Hd & Hq & l & w & l' & Heq & Hw & Hx)].
    + left. split; [|done]. simpl. constructor; [constructor|done].
    + right. split; [done|]. split; [done|]. exists (Waking wake_round :: l), w, l'. simpl. rewrite Heq.
      split; [done|]. split; [|done]. constructor; [constructor|done].
  - by apply (waking_step_inv _ _ p).
  - assert (~ waker_ok Enqueueing) as Hne by (intros H; inversion H).
    destruct (busy_waker _ _ _ _ (inv_owner _ Hinv) Hl Hne) as (Hdet & Hq & Hw & [[_ Hd]|[? _]]); [|done].
    unfold into_runnable. rewrite Hd. destruct Hinv as [_ Hn Hp]. split; simpl; [|intros _; left; simpl; rewrite Exists_app, Exists_cons; simpl; auto|done].
    right. split; [done|]. split; [done|]. eexists l, _, l'. split; [done|]. split; [done|]. by right.
  - assert (~ waker_ok (Adding p)) as Hne by (intros H; inversion H).
    destruct (busy_waker _ _ _ _ (inv_owner _ Hinv) Hl Hne) as (Hdet & Hq & Hw & [[? _]|[Hp Hd]]); [done|].
    injection Hp as ->. simpl in Ha. injection Ha as <- _. destruct Hinv as [_ Hn Hpn].
    split; simpl; [left; simpl; split_and!; [done|by left|done]|intros _; simpl; auto|done].
Qed.

Lemma reachable_inv y : reachable y -> inv y.
Proof.
  induction 1 as [|y y' _ IH [Hs|Hs]]; [|by eapply cpu_step_inv|by eapply waker_step_inv].
  split; [left; split_and!; [constructor|by left|done]|by intros [=]|done].
Qed.

(** C5: a task loses no wake-up and is never in two places. Whatever the interleaving of the
    CPU that runs the task with any number of concurrent wakers: no [expect] or
    [unreachable!] of the state machine is reached, the scheduler data are in the Work exactly
    while no run queue has the task, and a task that is asleep (or stopped) with no waker at
    work has polled after every event it was woken for. As long as there is such an event the
    task is queued, on its way to poll, or marked as woken, or a waker is still going to act. *)
Theorem task_wakeups_not_lost y : reachable y ->
  panicked y = false /\
  (on y = Detached -> wakers y = [] -> (st y = Sleeping \/ st y = Stopped) /\ sched_data y = true /\ need y = false) /\
  (sched_data y = true -> on y = Detached \/ on y = Reinserting \/ exists p, on y = Finalizing p) /\
  (need y = true -> Exists (covers (st y)) (wakers y) \/ st y = Woken \/ heading (on y) (st y)).
Proof.
  intros [Ho Hn Hp]%reachable_inv. split; [done|]. split_and!; [| |done].
  - intros Hd Hw. destruct Ho as [(_ & Hc & Hs)|(_ & _ & l & w & l' & Heq & _)]; [|rewrite Hw in Heq; by destruct l].
    rewrite Hd in Hc, Hs. split; [done|]. split; [done|]. destruct (need y) eqn:E; [|done].
    unfold need_inv in Hn. rewrite E, Hw, Hd in Hn. destruct (Hn eq_refl) as [He|[He|[]]]; [by inversion He|].
    rewrite He in Hc. destruct Hc; discriminate.
  - intros Hs. destruct Ho as [(_ & _ & Hd)|(Hd & _)]; [|by left]. rewrite Hs in Hd.
    destruct (on y); try discriminate; eauto.
Qed.

(** ** Runs *)

(** A new task is inserted, picked and about to poll. *)
Lemma reach_polling : reachable (mkSys Running false Polling [] false false).
Proof.
  eapply reachable_step; [|apply step_cpu; exact (cpu_picking (mkSys Runnable false (Picking (activate (Done true))) [] false false) _ _ _ eq_refl eq_refl)].
  eapply reachable_step; [|apply step_cpu; exact (cpu_picking (mkSys Runnable false (Picking pick_task) [] false false) _ _ _ eq_refl eq_refl)].
  eapply reachable_step; [|apply step_cpu; exact (cpu_pick (mkSys Runnable false InQueue [] false false) eq_refl)].
  eapply reachable_step; [|apply step_cpu; exact (cpu_inserting (mkSys Runnable false (Inserting (mark_runnable (Done tt))) [] false false) _ _ _ eq_refl eq_refl)].
  eapply reachable_step; [apply reachable_new|apply step_cpu; exact (cpu_reinsert new_task eq_refl)].
Defined.

(** It goes to sleep. *)
Lemma reach_asleep : reachable (mkSys Sleeping true Detached [] false false).
Proof.
  eapply reachable_step; [|apply step_cpu; exact (cpu_finalizing (mkSys PendingSleep true (Finalizing (CompareExchange PendingSleep Sleeping (fun r => Done (is_ok r)))) [] false false) _ _ _ eq_refl eq_refl)].
  eapply reachable_step; [|apply step_cpu; exact (cpu_finalizing (mkSys PendingSleep true (Finalizing finalize_deactivation) [] false false) _ _ _ eq_refl eq_refl)].
  eapply reachable_step; [|apply step_cpu; exact (cpu_drop (mkSys PendingSleep false Dropping [] false false) eq_refl)].
  eapply reachable_step; [|apply step_cpu; exact (cpu_scheduling (mkSys PendingSleep false (Scheduling (schedule_current true)) [] false false) _ _ _ eq_refl eq_refl)].
  eapply reachable_step; [|apply step_cpu; exact (cpu_sleeping (mkSys Running false (TrySleep sleep_cas) [] false false) true _ _ _ eq_refl eq_refl)].
  eapply reachable_step; [|apply step_cpu; exact (cpu_sleeping (mkSys Running false (TrySleep try_pending_sleep) [] false false) true _ _ _ eq_refl eq_refl)].
  eapply reachable_step; [apply reach_polling|apply step_cpu; exact (cpu_poll_pending (mkSys Running false Polling [] false false) eq_refl)].
Defined.

Lemma task_wakeups_not_lost_witness :
  let y := mkSys Sleeping true Detached [] false false in
  panicked y = false /\ need y = false.
Proof.
  destruct (task_wakeups_not_lost _ reach_asleep) as (Hp & Hs & _).
  destruct (Hs eq_refl eq_refl) as (_ & _ & Hn). exact (conj Hp Hn).
Defined.

(** ** Other threads that store to the state of the task

    A group stop calls try_pending_stop on every thread of the process, and exit_group calls
    finish on the others. *)
Inductive interleaved (p0 : prog bool) : sys -> prog bool -> Prop :=
| il_start y : reachable y -> interleaved p0 y p0
| il_own y y' p : interleaved p0 y p -> step y y' -> interleaved p0 y' p
| il_other y p s p' : interleaved p0 y p -> access (st y) p = Some (s, p') -> interleaved p0 (with_st y s (on y)) p'.

(** The task has polled and was woken before it tried to sleep. *)
Lemma reach_woken : reachable (mkSys Woken false (TrySleep try_pending_sleep) [] true false).
Proof.
  eapply reachable_step; [|apply step_waker; exact (waker_wake (mkSys Running false (TrySleep try_pending_sleep)
    [Waking (CompareExchange Running Woken (fun r => Done (if is_ok r then Some PreventedSleep else None)))] true false) [] [] _ _ _ eq_refl eq_refl)].
  eapply reachable_step; [|apply step_waker; exact (waker_wake (mkSys Running false (TrySleep try_pending_sleep) [Waking wake_round] true false) [] [] _ _ _ eq_refl eq_refl)].
  eapply reachable_step; [|apply step_waker; exact (waker_event (mkSys Running false (TrySleep try_pending_sleep) [] false false))].
  eapply reachable_step; [apply reach_polling|apply step_cpu; exact (cpu_poll_pending (mkSys Running false Polling [] false false) eq_refl)].
Qed.

(** A group stop clears the mark of a thread that was just woken, and the thread sleeps although
    the event it waits for has happened. *)
Lemma group_stop_loses_wakeup : interleaved try_pending_stop (mkSys Sleeping true Detached [] true false) (Done false).
Proof.
  eapply il_own; [|apply step_cpu; exact (cpu_finalizing (mkSys PendingSleep true (Finalizing (CompareExchange PendingSleep Sleeping (fun r => Done (is_ok r)))) [] true false) _ _ _ eq_refl eq_refl)].
  eapply il_own; [|apply step_cpu; exact (cpu_finalizing (mkSys PendingSleep true (Finalizing finalize_deactivation) [] true false) _ _ _ eq_refl eq_refl)].
  eapply il_own; [|apply step_cpu; exact (cpu_drop (mkSys PendingSleep false Dropping [] true false) eq_refl)].
  eapply il_own; [|apply step_cpu; exact (cpu_scheduling (mkSys PendingSleep false (Scheduling (schedule_current true)) [] true false) _ _ _ eq_refl eq_refl)].
  eapply il_own; [|apply step_cpu; exact (cpu_sleeping (mkSys Running false (TrySleep sleep_cas) [] true false) true _ _ _ eq_refl eq_refl)].
  eapply il_own; [|apply step_cpu; exact (cpu_sleeping (mkSys Running false (TrySleep try_pending_sleep) [] true false) true _ _ _ eq_refl eq_refl)].
  apply (il_other _ (mkSys Woken false (TrySleep try_pending_sleep) [] true false) (Store Running (Done false))); [|reflexivity].
  apply (il_other _ (mkSys Woken false (TrySleep try_pending_sleep) [] true false) try_pending_stop); [|reflexivity].
  apply il_start, reach_woken.
Qed.

(** A group stop between the two accesses of a thread that goes to sleep makes it reach
    [unreachable!]. *)
Lemma group_stop_panics : interleaved try_pending_stop (mkSys PendingStop false (TrySleep Unreachable) [] false true) (Done true).
Proof.
  eapply il_own; [|apply step_cpu; exact (cpu_sleep_panic (mkSys PendingStop false (TrySleep Unreachable) [] false false) eq_refl)].
  eapply il_own; [|apply step_cpu; exact (cpu_sleeping (mkSys PendingStop false (TrySleep sleep_cas) [] false false) true _ _ _ eq_refl eq_refl)].
  apply (il_other _ (mkSys Running false (TrySleep sleep_cas) [] false false) stop_cas); [|reflexivity].
  apply (il_other _ (mkSys Running false (TrySleep sleep_cas) [] false false) try_pending_stop); [|reflexivity].
  apply il_start.
  eapply reachable_step; [|apply step_cpu; exact (cpu_sleeping (mkSys Running false (TrySleep try_pending_sleep) [] false false) true _ _ _ eq_refl eq_refl)].
  eapply reachable_step; [apply reach_polling|apply step_cpu; exact (cpu_poll_pending (mkSys Running false Polling [] false false) eq_refl)].
Qed.

(** A thread that waits in a run queue is not stopped: picking it overwrites the mark. *)
Lemma group_stop_misses_queued : interleaved try_pending_stop (mkSys Running false Polling [] false false) (Done true).
Proof.
  eapply il_own; [|apply step_cpu; exact (cpu_picking (mkSys PendingStop false (Picking (activate (Done true))) [] false false) _ _ _ eq_refl eq_refl)].
  eapply il_own; [|apply step_cpu; exact (cpu_picking (mkSys PendingStop false (Picking pick_task) [] false false) _ _ _ eq_refl eq_refl)].
  eapply il_own; [|apply step_cpu; exact (cpu_pick (mkSys PendingStop false InQueue [] false false) eq_refl)].
  apply (il_other _ (mkSys Runnable false InQueue [] false false) (CompareExchange Runnable PendingStop (fun r => Done (is_ok r)))); [|reflexivity].
  apply (il_other _ (mkSys Runnable false InQueue [] false false) try_pending_stop); [|reflexivity].
  apply il_start.
  eapply reachable_step; [|apply step_cpu; exact (cpu_inserting (mkSys Runnable false (Inserting (mark_runnable (Done tt))) [] false false) _ _ _ eq_refl eq_refl)].
  eapply reachable_step; [apply reachable_new|apply step_cpu; exact (cpu_reinsert new_task eq_refl)].
Qed.

(** A thread that exit_group has marked as finished runs on if its CPU was between reading its
    state and activating it. *)
Lemma finish_overwritten : interleaved (finish (Done true)) (mkSys Running false Polling [] false false) (Done true).
Proof.
  eapply il_own; [|apply step_cpu; exact (cpu_scheduling (mkSys Finished false (Scheduling (activate (Done KeepRunning))) [] false false) _ _ _ eq_refl eq_refl)].
  apply (il_other _ (mkSys Running false (Scheduling (activate (Done KeepRunning))) [] false false) (finish (Done true))); [|reflexivity].
  apply il_start.
  eapply reachable_step; [|apply step_cpu; exact (cpu_scheduling (mkSys Running false (Scheduling (schedule_current false)) [] false false) _ _ _ eq_refl eq_refl)].
  eapply reachable_step; [|apply step_cpu; exact (cpu_interrupt (mkSys Running false InUser [] false false) false eq_refl)].
  eapply reachable_step; [apply reach_polling|apply step_cpu; exact (cpu_poll_ready (mkSys Running false Polling [] false false) eq_refl)].
Qed.
