(* ===== verification/Sched.v ===== *)
(** * The run queue: earliest eligible virtual deadline first

    Models src/sched/runqueue/mod.rs (RunQueue), src/sched/runqueue/vclock.rs (the virtual
    clock), the accounting of src/sched/sched_task/mod.rs (RunnableTask, Work), the choice of a
    CPU in src/sched/mod.rs, and the arithmetic of Instant in src/drivers/timer/mod.rs.  Virtual
    times are 128-bit fixed-point numbers.  A task is named by its id; what tasks share with
    the rest of the kernel (their state, their priority and the scheduler data kept in the
    Work) is the [world].  BinaryHeap is used through [heap_pop]: it removes a greatest
    element, and which one of equal elements is left open. *)
From stdpp Require Import base list relations.
From S2P Require Import Prelude TaskState.
Local Open Scope Z_scope.

(** ** Heaps *)

Class BinaryHeap (A : Type) := heap_pop : (A -> A -> comparison) -> list A -> option (A * list A).

(** A total preorder as a comparison function. *)
Record total_preorder {A : Type} (cmp : A -> A -> comparison) : Prop := {
  cmp_flip : forall a b, cmp b a = CompOpp (cmp a b);
  cmp_trans : forall a b c, cmp a b <> Gt -> cmp b c <> Gt -> cmp a c <> Gt
}.

Class BinaryHeapLaws (A : Type) `{BinaryHeap A} := {
  heap_pop_nil : forall cmp, heap_pop cmp [] = None;
  heap_pop_cons : forall cmp l, total_preorder cmp -> l <> [] ->
    exists x r, heap_pop cmp l = Some (x, r) /\ x :: r ≡ₚ l /\ forall y, y ∈ r -> cmp y x <> Gt
}.

(** ** Time *)

Notation NANOS := (10 ^ 9).
Notation DEFAULT_TIME_SLICE := (4 * 10 ^ 6).
Notation VT_FIXED_SHIFT := (63).
Notation VCLOCK_EPSILON := (2 ^ 63).
Notation SCHED_WEIGHT_BASE := (1024).

Definition wrap128 (x : Z) : Z := x mod 2 ^ 128.
Definition sat_add128 (a b : Z) : Z := Z.min (2 ^ 128 - 1) (a + b).
Definition sat_add64 (a b : Z) : Z := Z.min (2 ^ 64 - 1) (a + b).

Section Timer.
Context (freq : Z).

(** [Instant - Instant] as nanoseconds, and [Instant + Duration]; an instant is its ticks. *)
Definition instant_sub (a b : Z) : Z :=
  let diff_ticks := saturating_sub a b in
  let secs := diff_ticks / freq in
  let remaining_ticks := diff_ticks mod freq in
  secs * NANOS + (remaining_ticks * NANOS) / freq.

Definition instant_add (a d : Z) : Z :=
  uadd (uadd a (umul (d / NANOS) freq)) ((freq * (d mod NANOS)) / NANOS).

(** ** Tasks *)

Record SchedulerData := mkSD {
  v_runtime : Z; v_eligible : Z; v_deadline : Z;
  exec_start : option Z; sd_deadline : option Z; last_run : option Z; last_cpu : Z; cpu_mask : list Z; priority : Z
}.

Definition sched_data_new (prio : Z) : SchedulerData :=
  mkSD 0 0 0 None None None usize_max (replicate 32 255) prio.

Record RunnableTask := mkRT { rt_id : Z; rt_sd : SchedulerData }.

Record world := mkWorld { w_state : Z -> TaskState; w_prio : Z -> Z; w_data : Z -> option SchedulerData }.

Definition upd {A : Type} (f : Z -> A) (k : Z) (a : A) : Z -> A := fun i => if i =? k then a else f i.
Definition set_task_state (w : world) (id : Z) (s : TaskState) : world := mkWorld (upd (w_state w) id s) (w_prio w) (w_data w).

Definition with_priority (sd : SchedulerData) (p : Z) : SchedulerData :=
  mkSD (v_runtime sd) (v_eligible sd) (v_deadline sd) (exec_start sd) (sd_deadline sd) (last_run sd) (last_cpu sd) (cpu_mask sd) p.

Definition work_into_runnable (w : world) (id : Z) : outcome (RunnableTask * world) :=
  let! sd := unwrap (w_data w id) in
  Return (mkRT id (with_priority sd (w_prio w id)), mkWorld (w_state w) (w_prio w) (upd (w_data w) id None)).

(** Dropping a RunnableTask. *)
Definition rt_drop (w : world) (t : RunnableTask) : world :=
  mkWorld (w_state w) (w_prio w) (upd (w_data w) (rt_id t) (Some (rt_sd t))).

Definition weight (sd : SchedulerData) : Z :=
  let w := priority sd + SCHED_WEIGHT_BASE in
  if w <=? 0 then 1 else w.

Definition vt_of (ns w : Z) : Z := wrap128 (Z.shiftl ns VT_FIXED_SHIFT) / w.

Definition yield_slice (sd : SchedulerData) : SchedulerData :=
  mkSD (v_runtime sd) (Z.max (v_eligible sd) (v_deadline sd)) (v_deadline sd)
    (exec_start sd) (sd_deadline sd) (last_run sd) (last_cpu sd) (cpu_mask sd) (priority sd).

Definition replenish_deadline (sd : SchedulerData) : SchedulerData :=
  let v_delta := vt_of DEFAULT_TIME_SLICE (weight sd) in
  mkSD (v_runtime sd) (v_eligible sd) (wrap128 (v_eligible sd + v_delta))
    (exec_start sd) (sd_deadline sd) (last_run sd) (last_cpu sd) (cpu_mask sd) (priority sd).

Definition tick (sd : SchedulerData) (now : Z) : bool * SchedulerData :=
  let dv_increment :=
    match exec_start sd with
    | Some start => vt_of (instant_sub now start) (weight sd)
    | None => 0
    end in
  let sd := mkSD (sat_add128 (v_runtime sd) dv_increment) (sat_add128 (v_eligible sd) dv_increment) (v_deadline sd)
              (Some now) (sd_deadline sd) (last_run sd) (last_cpu sd) (cpu_mask sd) (priority sd) in
  if v_eligible sd >=? v_deadline sd then (true, replenish_deadline sd) else (false, sd).

Definition then_with (c d : comparison) : comparison := match c with Eq => d | _ => c end.
Definition compare_last_run (a b : option Z) : comparison :=
  match a, b with
  | Some a, Some b => Z.compare a b
  | Some _, None => Lt
  | None, Some _ => Gt
  | None, None => Eq
  end.
Definition compare_with (a b : SchedulerData) : comparison :=
  then_with (Z.compare (v_deadline a) (v_deadline b))
    (then_with (Z.compare (v_runtime a) (v_runtime b)) (compare_last_run (last_run a) (last_run b))).

Definition inserting_into_runqueue (sd : SchedulerData) (vclock : Z) : SchedulerData :=
  let v_delta := vt_of DEFAULT_TIME_SLICE (weight sd) in
  mkSD (v_runtime sd) vclock (wrap128 (vclock + v_delta)) None (sd_deadline sd) (last_run sd) (last_cpu sd) (cpu_mask sd) (priority sd).

(** Also gives the instant the preemption timer is set to. *)
Definition about_to_execute (w : world) (t : RunnableTask) (now : Z) : RunnableTask * world * Z :=
  let sd := rt_sd t in
  let w := set_task_state w (rt_id t) Running in
  let d' := instant_add now DEFAULT_TIME_SLICE in
  let deadline := match sd_deadline sd with Some d => if d <=? d' then d' else d | None => d' end in
  (mkRT (rt_id t) (mkSD (v_runtime sd) (v_eligible sd) (v_deadline sd) (Some now) (Some deadline) (last_run sd)
     (last_cpu sd) (cpu_mask sd) (priority sd)), w, deadline).

(** ** The virtual clock *)

Record VClock := mkVClock { last_update : option Z; clk : Z }.
Definition vclock_new : VClock := mkVClock None 0.
Definition is_task_eligible (c : VClock) (sd : SchedulerData) : bool := saturating_sub (v_eligible sd) (clk c) <=? VCLOCK_EPSILON.
Definition fast_forward (c : VClock) (new_clk : Z) : VClock := mkVClock (last_update c) new_clk.
Definition vclock_advance (c : VClock) (now_inst total : Z) : VClock :=
  match last_update c with
  | Some prev =>
      let delta_real := instant_sub now_inst prev in
      if total >? 0 then mkVClock (Some now_inst) (sat_add128 (clk c) (vt_of delta_real total))
      else mkVClock (Some now_inst) (clk c)
  | None => mkVClock (Some now_inst) (clk c)
  end.

(** ** The run queue *)

Record RunQueue := mkRQ {
  total_weight : Z; yield_requested : bool; ineligible : list RunnableTask; eligible : list RunnableTask;
  running_task : option RunnableTask; v_clock : VClock
}.

Definition runqueue_new : RunQueue := mkRQ 0 false [] [] None vclock_new.

Definition with_weight (q : RunQueue) (n : Z) : RunQueue :=
  mkRQ n (yield_requested q) (ineligible q) (eligible q) (running_task q) (v_clock q).
Definition with_queues (q : RunQueue) (i e : list RunnableTask) : RunQueue :=
  mkRQ (total_weight q) (yield_requested q) i e (running_task q) (v_clock q).
Definition with_clock (q : RunQueue) (c : VClock) : RunQueue :=
  mkRQ (total_weight q) (yield_requested q) (ineligible q) (eligible q) (running_task q) c.
Definition with_running (q : RunQueue) (r : option RunnableTask) : RunQueue :=
  mkRQ (total_weight q) (yield_requested q) (ineligible q) (eligible q) r (v_clock q).

Definition request_yield (q : RunQueue) : RunQueue :=
  mkRQ (total_weight q) true (ineligible q) (eligible q) (running_task q) (v_clock q).

(** The orders of ByEligible and ByDeadline, both reversed. *)
Definition by_eligible (a b : RunnableTask) : comparison := Z.compare (v_eligible (rt_sd b)) (v_eligible (rt_sd a)).
Definition by_deadline (a b : RunnableTask) : comparison := compare_with (rt_sd b) (rt_sd a).

Context `{BinaryHeap RunnableTask}.

(** [peek] gives the element that [pop] would remove. *)
Definition heap_peek (cmp : RunnableTask -> RunnableTask -> comparison) (l : list RunnableTask) : option RunnableTask :=
  option_map fst (heap_pop cmp l).

Definition enqueue (q : RunQueue) (w : world) (t : RunnableTask) : RunQueue * world :=
  let t := mkRT (rt_id t) (with_priority (rt_sd t) (w_prio w (rt_id t))) in
  let w := set_task_state w (rt_id t) Runnable in
  if is_task_eligible (v_clock q) (rt_sd t) then (with_queues q (ineligible q) (t :: eligible q), w)
  else (with_queues q (t :: ineligible q) (eligible q), w).

Definition add_work (q : RunQueue) (w : world) (id : Z) : outcome (RunQueue * world) :=
  let! (t, w) := work_into_runnable w id in
  let t := mkRT (rt_id t) (inserting_into_runqueue (rt_sd t) (clk (v_clock q))) in
  let q := with_weight q (sat_add64 (total_weight q) (weight (rt_sd t))) in
  Return (enqueue q w t).

Definition pop_now_eligible_task (q : RunQueue) : option (RunnableTask * RunQueue) :=
  match heap_pop by_eligible (ineligible q) with
  | None => None
  | Some (tsk, rest) =>
      if is_task_eligible (v_clock q) (rt_sd tsk) then Some (tsk, with_queues q rest (eligible q)) else None
  end.

(** [while let Some(tsk) = self.pop_now_eligible_task()] *)
Fixpoint promote (fuel : nat) (q : RunQueue) : RunQueue :=
  match fuel with
  | O => q
  | S fuel =>
      match pop_now_eligible_task q with
      | None => q
      | Some (tsk, q) => promote fuel (with_queues q (ineligible q) (tsk :: eligible q))
      end
  end.

(** [while let Some(ByDeadline(best)) = self.eligible.pop()] *)
Fixpoint take_best (fuel : nat) (q : RunQueue) (w : world) (deferred_drops : list RunnableTask)
    : option RunnableTask * RunQueue * list RunnableTask :=
  match fuel with
  | O => (None, q, deferred_drops)
  | S fuel =>
      match heap_pop by_deadline (eligible q) with
      | None => (None, q, deferred_drops)
      | Some (best, rest) =>
          let q := with_queues q (ineligible q) rest in
          if is_finished (w_state w (rt_id best)) then
            take_best fuel (with_weight q (saturating_sub (total_weight q) (weight (rt_sd best)))) w (deferred_drops ++ [best])
          else (Some best, q, deferred_drops)
      end
  end.

Fixpoint find_next_task (fuel : nat) (q : RunQueue) (w : world) (deferred_drops : list RunnableTask)
    : outcome (option RunnableTask * RunQueue * list RunnableTask) :=
  match fuel with
  | O => OutOfFuel
  | S fuel =>
      let q := promote (length (ineligible q)) q in
      let '(best, q, deferred_drops) := take_best (length (eligible q)) q w deferred_drops in
      match best with
      | Some best => Return (Some best, q, deferred_drops)
      | None =>
          match heap_peek by_eligible (ineligible q) with
          | Some tsk => find_next_task fuel (with_clock q (fast_forward (v_clock q) (v_eligible (rt_sd tsk)))) w deferred_drops
          | None => Return (None, q, deferred_drops)
          end
      end
  end.

(** Who the CPU switches to, if to another task. *)
Inductive switch : Type := NoSwitch | SwitchTo (id : Z) | SwitchIdle.

(** The first half of [schedule]: what becomes of the running task. [woken] says that a waker
    was faster than [finalize_deactivation]. *)
Definition settle_current (q : RunQueue) (w : world) (now : Z) (yielding woken : bool) (this_cpu : Z) (cur_task : RunnableTask)
    : outcome (option RunnableTask * RunQueue * world * list RunnableTask) :=
  match w_state w (rt_id cur_task) with
  | Running | Woken =>
      let sd := if yielding then yield_slice (rt_sd cur_task) else rt_sd cur_task in
      let (expired, sd) := tick sd now in
      let cur_task := mkRT (rt_id cur_task) sd in
      if expired then let (q, w) := enqueue q w cur_task in Return (None, q, w, [])
      else Return (Some cur_task, q, w, [])
  | PendingSleep | PendingStop =>
      let sd := rt_sd cur_task in
      let cur_task := mkRT (rt_id cur_task) (mkSD (v_runtime sd) (v_eligible sd) (v_deadline sd) (exec_start sd)
        (sd_deadline sd) (last_run sd) this_cpu (cpu_mask sd) (priority sd)) in
      let q := with_weight q (saturating_sub (total_weight q) (weight (rt_sd cur_task))) in
      let st := w_state w (rt_id cur_task) in
      let w := rt_drop w cur_task in
      if woken then
        let! (q, w) := add_work q (set_task_state w (rt_id cur_task) Woken) (rt_id cur_task) in Return (None, q, w, [])
      else
        Return (None, q, set_task_state w (rt_id cur_task) (match st with PendingSleep => Sleeping | _ => Stopped end), [])
  | _ => Return (None, with_weight q (saturating_sub (total_weight q) (weight (rt_sd cur_task))), w, [cur_task])
  end.

Definition rq_schedule (q : RunQueue) (w : world) (now : Z) (woken : bool) (this_cpu : Z)
    : outcome (switch * RunQueue * world * list RunnableTask) :=
  let yielding := yield_requested q in
  let q := mkRQ (total_weight q) false (ineligible q) (eligible q) (running_task q)
             (vclock_advance (v_clock q) now (total_weight q)) in
  let prev_task := option_map rt_id (running_task q) in
  let! (next_task, q, w, deferred_drops) :=
    match running_task q with
    | Some cur_task => settle_current (with_running q None) w now yielding woken this_cpu cur_task
    | None => Return (None, q, w, [])
    end in
  let! (next_task, q, deferred_drops) :=
    match next_task with
    | Some t => Return (Some t, q, deferred_drops)
    | None => find_next_task (S (length (ineligible q))) q w deferred_drops
    end in
  match next_task with
  | Some t =>
      let '(t, w, _) := about_to_execute w t now in
      let sw := if bool_decide (prev_task = Some (rt_id t)) then NoSwitch else SwitchTo (rt_id t) in
      Return (sw, with_running q (Some t), w, deferred_drops)
  | None => Return (SwitchIdle, q, w, deferred_drops)
  end.
End Timer.

(** ** A heap: take the first greatest element *)

Fixpoint select {A : Type} (cmp : A -> A -> comparison) (x : A) (l : list A) : A * list A :=
  match l with
  | [] => (x, [])
  | y :: l => match cmp y x with
              | Gt => let (m, r) := select cmp y l in (m, x :: r)
              | _ => let (m, r) := select cmp x l in (m, y :: r)
              end
  end.

#[export] Instance list_heap {A : Type} : BinaryHeap A := fun cmp l => match l with [] => None | x :: l => Some (select cmp x l) end.

Lemma select_spec {A} (cmp : A -> A -> comparison) x l : total_preorder cmp ->
  let (m, r) := select cmp x l in m :: r ≡ₚ x :: l /\ cmp x m <> Gt /\ forall y, y ∈ r -> cmp y m <> Gt.
Proof.
  intros Hc. assert (Hrefl : forall a, cmp a a <> Gt) by (intros a Ha; pose proof (cmp_flip cmp Hc a a) as Hf; rewrite Ha in Hf; done).
  revert x. induction l as [|y l IH]; intros x; simpl; [split_and!; [done|done|by intros ? ?%elem_of_nil]|].
  destruct (cmp y x) eqn:E.
  - specialize (IH x). destruct (select cmp x l) as [m r]. destruct IH as (Hp & Hx & Hr). split_and!; [|done|].
    + rewrite Permutation_swap, Hp. apply Permutation_swap.
    + intros z [->|Hz]%elem_of_cons; [|by apply Hr]. apply (cmp_trans cmp Hc _ x); [by rewrite E|done].
  - specialize (IH x). destruct (select cmp x l) as [m r]. destruct IH as (Hp & Hx & Hr). split_and!; [|done|].
    + rewrite Permutation_swap, Hp. apply Permutation_swap.
    + intros z [->|Hz]%elem_of_cons; [|by apply Hr]. apply (cmp_trans cmp Hc _ x); [by rewrite E|done].
  - specialize (IH y). destruct (select cmp y l) as [m r]. destruct IH as (Hp & Hx & Hr).
    assert (cmp x m <> Gt) as Hxm.
    { apply (cmp_trans cmp Hc _ y); [|done]. rewrite (cmp_flip cmp Hc), E. done. }
    split_and!; [|done|].
    + rewrite Permutation_swap, Hp. done.
    + intros z [->|Hz]%elem_of_cons; [done|by apply Hr].
Qed.

#[export] Instance list_heap_laws {A : Type} : BinaryHeapLaws A.
Proof.
  split; [done|]. intros cmp [|x l] Hc Hne; [done|]. unfold heap_pop, list_heap.
  pose proof (select_spec cmp x l Hc) as Hs. destruct (select cmp x l) as [m r]. destruct Hs as (Hp & _ & Hr). eauto.
Qed.

(** * Correctness *)

(** ** The orders *)

Lemma preorder_key {A} (f : A -> Z) : total_preorder (fun a b => Z.compare (f a) (f b)).
Proof.
  split; [intros; apply Z.compare_antisym|]. intros a b c.
  destruct (Z.compare_spec (f a) (f b)), (Z.compare_spec (f b) (f c)), (Z.compare_spec (f a) (f c)); try done; lia.
Qed.

Lemma preorder_flip {A} (cmp : A -> A -> comparison) : total_preorder cmp -> total_preorder (fun a b => cmp b a).
Proof. intros Hc. split; [intros; apply (cmp_flip cmp Hc)|]. intros a b c H1 H2. by apply (cmp_trans cmp Hc _ b). Qed.

Lemma preorder_ext {A} (cmp cmp' : A -> A -> comparison) : (forall a b, cmp a b = cmp' a b) -> total_preorder cmp -> total_preorder cmp'.
Proof. intros He [Hf Ht]. split; intros *; rewrite <- !He; eauto. Qed.

Lemma cmp_lt_trans {A} (cmp : A -> A -> comparison) a b c : total_preorder cmp -> cmp a c = Eq -> cmp a b <> Gt -> cmp b c <> Gt ->
  cmp a b = Eq /\ cmp b c = Eq.
Proof.
  intros Hc Hac Hab Hbc. pose proof (cmp_flip cmp Hc a c) as Hca. rewrite Hac in Hca. simpl in Hca.
  assert (cmp b a <> Gt) as Hba by (apply (cmp_trans cmp Hc _ c); [done|by rewrite Hca]).
  assert (cmp c b <> Gt) as Hcb by (apply (cmp_trans cmp Hc _ a); [by rewrite Hca|done]).
  rewrite (cmp_flip cmp Hc) in Hba, Hcb. destruct (cmp a b), (cmp b c); done.
Qed.

Lemma preorder_then {A} (c1 c2 : A -> A -> comparison) : total_preorder c1 -> total_preorder c2 ->
  total_preorder (fun a b => then_with (c1 a b) (c2 a b)).
Proof.
  intros H1 H2. split; [intros a b; rewrite (cmp_flip c1 H1), (cmp_flip c2 H2); by destruct (c1 a b)|].
  intros a b c Hab Hbc Hac.
  assert (c1 a b <> Gt /\ c1 b c <> Gt) as [Hab1 Hbc1] by (split; intros E; rewrite E in *; done).
  pose proof (cmp_trans c1 H1 a b c Hab1 Hbc1) as Hac1.
  destruct (c1 a c) eqn:E; [|done|done]. destruct (cmp_lt_trans c1 a b c H1 E Hab1 Hbc1) as [E1 E2].
  rewrite E1 in Hab. rewrite E2 in Hbc. simpl in *. by apply (cmp_trans c2 H2 a b c).
Qed.

Lemma compare_with_preorder : total_preorder compare_with.
Proof.
  apply preorder_then; [apply preorder_key|]. apply preorder_then; [apply preorder_key|].
  apply (preorder_ext (fun a b : SchedulerData => then_with
    (Z.compare (match last_run a with None => 1 | _ => 0 end) (match last_run b with None => 1 | _ => 0 end))
    (Z.compare (default 0 (last_run a)) (default 0 (last_run b))))).
  - intros a b. by destruct (last_run a), (last_run b).
  - apply (preorder_then (fun a b : SchedulerData => _)); [apply (preorder_key (fun a => match last_run a with None => 1 | _ => 0 end))|apply (preorder_key (fun a => default 0 (last_run a)))].
Qed.

Lemma by_deadline_preorder : total_preorder by_deadline.
Proof.
  destruct compare_with_preorder as [Hf Ht]. split; unfold by_deadline; intros; [apply Hf|]. by eapply Ht.
Qed.
Lemma by_eligible_preorder : total_preorder by_eligible.
Proof. apply (preorder_flip (fun a b => Z.compare (v_eligible (rt_sd a)) (v_eligible (rt_sd b)))), (preorder_key (fun a => v_eligible (rt_sd a))). Qed.

(** ** Picking a task *)

Section Picking.
Context `{BinaryHeapLaws RunnableTask}.

Definition elig (c : VClock) (t : RunnableTask) : Prop := is_task_eligible c (rt_sd t) = true.
Definition wsum (l : list RunnableTask) : Z := foldr (fun t n => weight (rt_sd t) + n) 0 l.
Definition done_in (w : world) (t : RunnableTask) : Prop := is_finished (w_state w (rt_id t)) = true.

Lemma weight_pos sd : 0 < weight sd.
Proof. unfold weight. bcases; lia. Qed.

Lemma wsum_perm l l' : l ≡ₚ l' -> wsum l = wsum l'.
Proof. induction 1; simpl; lia. Qed.
Lemma wsum_app l l' : wsum (l ++ l') = wsum l + wsum l'.
Proof. induction l; simpl; lia. Qed.
Lemma wsum_nonneg l : 0 <= wsum l.
Proof. induction l as [|t l IH]; simpl; [lia|]. pose proof (weight_pos (rt_sd t)). lia. Qed.

Lemma elig_mono c t t' : v_eligible (rt_sd t) <= v_eligible (rt_sd t') -> elig c t' -> elig c t.
Proof. unfold elig, is_task_eligible, saturating_sub. intros Hle He. breflect. apply Z.leb_le. lia. Qed.

Lemma elig_clock c c' t : clk c <= clk c' -> elig c t -> elig c' t.
Proof. unfold elig, is_task_eligible, saturating_sub. intros Hle He. breflect. apply Z.leb_le. lia. Qed.

(** [promote] moves exactly the tasks that have become eligible. *)
Lemma promote_spec fuel q : (length (ineligible q) <= fuel)%nat ->
  exists moved, ineligible (promote fuel q) ++ moved ≡ₚ ineligible q /\ eligible (promote fuel q) ≡ₚ moved ++ eligible q /\
    Forall (elig (v_clock q)) moved /\ Forall (fun t => ~ elig (v_clock q) t) (ineligible (promote fuel q)) /\
    total_weight (promote fuel q) = total_weight q /\ v_clock (promote fuel q) = v_clock q /\
    running_task (promote fuel q) = running_task q /\ yield_requested (promote fuel q) = yield_requested q.
Proof.
  revert q. induction fuel as [|fuel IH]; intros q Hf; simpl.
  - exists []. destruct (ineligible q) eqn:E; [|simpl in Hf; lia]. split_and!; try done; constructor.
  - unfold pop_now_eligible_task. destruct (decide (ineligible q = [])) as [E|E].
    { rewrite E, heap_pop_nil. exists []. split_and!; try done; rewrite E; constructor. }
    destruct (heap_pop_cons by_eligible (ineligible q) by_eligible_preorder E) as (x & r & -> & Hp & Hmax).
    destruct (is_task_eligible (v_clock q) (rt_sd x)) eqn:Ex.
    + destruct (IH (with_queues (with_queues q r (eligible q)) r (x :: eligible q))) as (moved & H1 & H2 & H3 & H4 & H5 & H6 & H7 & H8).
      { simpl. apply Permutation_length in Hp. simpl in Hp. lia. }
      simpl in *. exists (x :: moved). split_and!; try done.
      * rewrite <- Permutation_middle, H1. done.
      * rewrite H2, <- Permutation_middle. done.
      * by constructor.
    + exists []. rewrite app_nil_r. split_and!; try done. apply Forall_forall. intros t Ht. rewrite <- Hp in Ht.
      apply elem_of_cons in Ht as [->|Ht]; [unfold elig; congruence|]. intros He.
      assert (elig (v_clock q) x) as Hx; [|unfold elig in Hx; congruence].
      apply (elig_mono _ _ t); [|done]. specialize (Hmax t Ht). unfold by_eligible in Hmax.
      destruct (Z.compare_spec (v_eligible (rt_sd x)) (v_eligible (rt_sd t))); [lia|lia|done].
Qed.

Definition queued (q : RunQueue) : list RunnableTask := ineligible q ++ eligible q.

(** [take_best] drops finished tasks and returns the first in deadline order that is not. *)
Lemma take_best_spec w fuel q drops : (length (eligible q) <= fuel)%nat -> wsum (eligible q) <= total_weight q ->
  exists best dropped rest, take_best fuel q w drops = (best, with_weight (with_queues q (ineligible q) rest) (total_weight q - wsum dropped), drops ++ dropped) /\
    option_list best ++ dropped ++ rest ≡ₚ eligible q /\ Forall (done_in w) dropped /\
    match best with Some b => ~ done_in w b /\ (forall y, y ∈ rest -> by_deadline y b <> Gt) | None => rest = [] end.
Proof.
  revert q drops. induction fuel as [|fuel IH]; intros q drops Hf Hw; cbn [take_best].
  - destruct (eligible q) eqn:E; [|simpl in Hf; lia]. exists None, [], []. simpl. rewrite app_nil_r, Z.sub_0_r.
    split_and!; try done. by destruct q; simpl in *; subst.
  - destruct (decide (eligible q = [])) as [E|E].
    { rewrite E, heap_pop_nil. exists None, [], []. simpl. rewrite app_nil_r, Z.sub_0_r. split_and!; try done.
      by destruct q; simpl in *; subst. }
    destruct (heap_pop_cons by_deadline (eligible q) by_deadline_preorder E) as (x & r & -> & Hp & Hmax).
    pose proof (wsum_perm _ _ Hp) as Hs. simpl in Hs. pose proof (weight_pos (rt_sd x)). pose proof (wsum_nonneg r).
    destruct (is_finished (w_state w (rt_id x))) eqn:Ex.
    + assert (saturating_sub (total_weight q) (weight (rt_sd x)) = total_weight q - weight (rt_sd x)) as Hsat by (unfold saturating_sub; lia).
      change (total_weight (with_queues q (ineligible q) r)) with (total_weight q).
      edestruct (IH (with_weight (with_queues q (ineligible q) r) (saturating_sub (total_weight q) (weight (rt_sd x)))) (drops ++ [x]))
        as (best & dropped & rest & -> & T1 & T2 & T3).
      { simpl. apply Permutation_length in Hp. simpl in Hp. lia. }
      { simpl. unfold saturating_sub. lia. }
      exists best, (x :: dropped), rest. simpl in *. rewrite <- app_assoc. split_and!; try done.
      * rewrite Hsat, <- Z.sub_add_distr. done.
      * rewrite <- Hp, <- T1, <- Permutation_middle. done.
      * by constructor.
    + exists (Some x), [], r. simpl. rewrite app_nil_r, Z.sub_0_r. split_and!; try done.
      unfold done_in. congruence.
Qed.

(** What [find_next_task] finds: of the tasks that can run, one that is eligible and whose
    deadline no eligible task undercuts; the clock jumps only past tasks that cannot run. *)
Record found (w : world) (q q' : RunQueue) (best : option RunnableTask) (dropped : list RunnableTask) : Prop := {
  found_tasks : option_list best ++ dropped ++ queued q' ≡ₚ queued q;
  found_dropped : Forall (done_in w) dropped;
  found_weight : total_weight q' = total_weight q - wsum dropped;
  found_clock : clk (v_clock q) <= clk (v_clock q');
  found_jump : clk (v_clock q') = clk (v_clock q) \/ exists t, t ∈ queued q /\ clk (v_clock q') = v_eligible (rt_sd t);
  found_now : (exists t, t ∈ queued q /\ elig (v_clock q) t /\ ~ done_in w t) -> v_clock q' = v_clock q;
  found_eligible : Forall (elig (v_clock q')) (option_list best ++ eligible q');
  found_ineligible : Forall (fun t => ~ elig (v_clock q') t) (ineligible q');
  found_best : match best with
               | Some b => ~ done_in w b /\ forall t, t ∈ eligible q' -> by_deadline t b <> Gt
               | None => queued q' = []
               end;
  found_rest : running_task q' = running_task q /\ yield_requested q' = yield_requested q /\
               last_update (v_clock q') = last_update (v_clock q)
}.

(** One round: promotion, then the search through the eligible tasks. *)
Lemma round_spec w q drops : wsum (queued q) <= total_weight q -> Forall (elig (v_clock q)) (eligible q) ->
  let q1 := promote (length (ineligible q)) q in
  exists best q' dropped, take_best (length (eligible q1)) q1 w drops = (best, q', drops ++ dropped) /\
    v_clock q' = v_clock q /\ ineligible q' = ineligible q1 /\
    (best = None -> eligible q' = []) /\
    option_list best ++ dropped ++ queued q' ≡ₚ queued q /\ Forall (done_in w) dropped /\
    total_weight q' = total_weight q - wsum dropped /\ Forall (elig (v_clock q)) (option_list best ++ dropped ++ eligible q') /\
    Forall (fun t => ~ elig (v_clock q) t) (ineligible q') /\
    (forall b, best = Some b -> ~ done_in w b /\ forall t, t ∈ eligible q' -> by_deadline t b <> Gt) /\
    running_task q' = running_task q /\ yield_requested q' = yield_requested q.
Proof.
  intros Hw He q1. destruct (promote_spec (length (ineligible q)) q ltac:(done)) as (moved & H1 & H2 & H3 & H4 & H5 & H6 & H7 & H8).
  fold q1 in H1, H2, H4, H5, H6, H7, H8. unfold queued in *. rewrite wsum_app in Hw.
  pose proof (wsum_perm _ _ H1) as W1. pose proof (wsum_perm _ _ H2) as W2. rewrite wsum_app in W1, W2.
  pose proof (wsum_nonneg (ineligible q1)).
  destruct (take_best_spec w (length (eligible q1)) q1 drops ltac:(done)) as (best & dropped & rest & Ht & T1 & T2 & T3); [lia|].
  eexists best, _, dropped. split; [exact Ht|]. simpl.
  assert (Forall (elig (v_clock q)) (option_list best ++ dropped ++ rest)) as Hall.
  { rewrite T1, H2. by apply Forall_app. }
  split_and!; try done; try congruence.
  - by intros ->.
  - rewrite <- H1. rewrite <- (app_assoc _ moved), <- H2, <- T1.
    rewrite (app_assoc dropped), (Permutation_app_comm dropped), <- app_assoc.
    rewrite !(app_assoc (option_list best)), (Permutation_app_comm (option_list best)). by rewrite <- !app_assoc.
  - by intros b ->.
Qed.

Lemma find_next_task_spec w fuel q drops :
  wsum (queued q) <= total_weight q -> Forall (elig (v_clock q)) (eligible q) ->
  (length (ineligible (promote (length (ineligible q)) q)) < fuel)%nat ->
  exists best q' dropped, find_next_task fuel q w drops = Return (best, q', drops ++ dropped) /\ found w q q' best dropped.
Proof.
  revert q drops. induction fuel as [|fuel IH]; intros q drops Hw He Hf; [lia|]. cbn [find_next_task].
  destruct (round_spec w q drops Hw He) as (best & q1 & dropped & -> & R1 & R2 & R3 & R4 & R5 & R6 & R7 & R8 & R9 & R10 & R11).
  destruct best as [b|].
  { exists (Some b), q1, dropped. split; [done|]. split; try done.
    - by rewrite R1.
    - left. by rewrite R1.
    - rewrite R1. rewrite !Forall_app in R7. rewrite Forall_app. tauto.
    - by rewrite R1.
    - by apply R9.
    - by rewrite R1. }
  specialize (R3 eq_refl). unfold heap_peek. destruct (decide (ineligible q1 = [])) as [E|E].
  { rewrite E, heap_pop_nil. simpl. exists None, q1, dropped. split; [done|]. split; rewrite ?R1; try done.
    - by left.
    - by rewrite R3.
    - unfold queued. by rewrite E, R3. }
  destruct (heap_pop_cons by_eligible (ineligible q1) by_eligible_preorder E) as (x & r & -> & Hp & Hmax). cbn [option_map fst].
  set (q2 := with_clock q1 (fast_forward (v_clock q1) (v_eligible (rt_sd x)))).
  assert (elig (v_clock q2) x) as Hx.
  { unfold elig, is_task_eligible, saturating_sub, q2. simpl. apply Z.leb_le. lia. }
  assert (x ∈ ineligible q1) as Hin by (rewrite <- Hp; left).
  assert (clk (v_clock q) <= clk (v_clock q2)) as Hclk.
  { rewrite Forall_forall in R8. specialize (R8 x Hin). unfold elig, is_task_eligible, saturating_sub in R8. simpl.
    apply not_true_is_false, Z.leb_gt in R8. lia. }
  destruct (IH q2 (drops ++ dropped)) as (best & q3 & dropped' & -> & F).
  { unfold q2; simpl. pose proof (wsum_perm _ _ R4) as W. simpl in W. rewrite wsum_app in W. unfold queued in *. simpl. lia. }
  { unfold q2. simpl. by rewrite R3. }
  { destruct (promote_spec (length (ineligible q2)) q2 ltac:(done)) as (moved & P1 & P2 & P3 & P4 & _).
    assert (moved <> []) as Hm.
    { intros ->. rewrite app_nil_r in P1. rewrite Forall_forall in P4. apply (P4 x); [|done]. rewrite P1. done. }
    apply Permutation_length in P1. rewrite length_app in P1. change (ineligible q2) with (ineligible q1) in *.
    rewrite R2 in *. destruct moved; [done|]. cbn [length] in P1. lia. }
  exists best, q3, (dropped ++ dropped'). rewrite <- app_assoc. split; [done|].
  destruct F as [F1 F2 F3 F4 FJ F5 F6 F7 F8 F9]. split; try done.
  - rewrite <- R4. simpl. change (queued q1) with (queued q2). rewrite <- F1, <- app_assoc.
    rewrite !(app_assoc (option_list best)), (Permutation_app_comm (option_list best)). by rewrite <- !app_assoc.
  - by apply Forall_app.
  - rewrite F3, wsum_app. change (total_weight q2) with (total_weight q1). lia.
  - lia.
  - right. destruct FJ as [->|(t & Ht & Hjump)].
    + exists x. split; [|done]. rewrite <- R4. apply elem_of_app; right. by apply elem_of_app; right; apply elem_of_app; left.
    + exists t. split; [|done]. rewrite <- R4. by apply elem_of_app; right; apply elem_of_app; right.
  - intros (t & Ht & Het & Hnt). exfalso. rewrite <- R4 in Ht. simpl in Ht. unfold queued in Ht. rewrite R3, app_nil_r in Ht.
    apply elem_of_app in Ht as [Ht|Ht]; [rewrite Forall_forall in R5; by apply Hnt, R5|]. rewrite Forall_forall in R8. by apply (R8 t Ht).
  - destruct F9 as (F9 & F10 & F11). rewrite F9, F10, F11. unfold q2. simpl. by rewrite R1.
Qed.
(** ** The invariant of the run queue *)

Definition in_range (sd : SchedulerData) : Prop := 0 <= v_eligible sd < 2 ^ 128 /\ 0 <= v_deadline sd < 2 ^ 128.

(** [l] are the tasks the queue accounts for besides the queued ones. *)
Record accounts (w : world) (q : RunQueue) (l : list RunnableTask) : Prop := {
  acc_total : total_weight q = wsum (l ++ queued q);
  acc_small : total_weight q < 2 ^ 64;
  acc_nodup : NoDup (rt_id <$> l ++ queued q);
  acc_prio : Forall (fun t => priority (rt_sd t) = w_prio w (rt_id t)) (l ++ queued q);
  acc_range : Forall (fun t => in_range (rt_sd t)) (l ++ queued q);
  acc_elig : Forall (elig (v_clock q)) (eligible q);
  acc_clock : 0 <= clk (v_clock q) < 2 ^ 128;
  acc_data : Forall (fun t => w_data w (rt_id t) = None) (l ++ queued q)
}.

(** The two documented invariants (the weights add up; the running task is not in a queue),
    and what they rest on.  The scheduler data of these tasks is in the queue, not in their Work. *)
Definition rq_inv (w : world) (q : RunQueue) : Prop := accounts w q (option_list (running_task q)).

Definition members (q : RunQueue) : list RunnableTask := option_list (running_task q) ++ queued q.

Lemma vt_of_range ns v : 0 < v -> 0 <= vt_of ns v < 2 ^ 128.
Proof.
  intros Hv. unfold vt_of, wrap128. pose proof (Z.mod_pos_bound (Z.shiftl ns VT_FIXED_SHIFT) (2 ^ 128) ltac:(lia)) as Hm.
  split; [apply Z.div_pos; lia|]. apply Z.div_lt_upper_bound; [lia|]. nia.
Qed.

Lemma sat_add128_range a b : 0 <= a < 2 ^ 128 -> 0 <= b -> a <= sat_add128 a b < 2 ^ 128.
Proof. unfold sat_add128. lia. Qed.

Lemma wrap128_range x : 0 <= wrap128 x < 2 ^ 128.
Proof. apply Z.mod_pos_bound. lia. Qed.

Lemma vclock_advance_spec freq c now total : 0 <= clk c < 2 ^ 128 ->
  clk c <= clk (vclock_advance freq c now total) < 2 ^ 128.
Proof.
  intros Hc. unfold vclock_advance. destruct (last_update c); [|simpl; lia]. destruct (total >? 0) eqn:E; [|simpl; lia].
  cbn [clk]. apply sat_add128_range; [done|]. apply vt_of_range. lia.
Qed.

Lemma accounts_clock w q l c : accounts w q l -> clk (v_clock q) <= clk c < 2 ^ 128 -> accounts w (with_clock q c) l.
Proof.
  intros [H1 H2 H3 H4 H5 H6 H7 HD] Hc. split; try done; [|simpl; lia].
  simpl. eapply Forall_impl; [exact H6|]. intros t. apply elig_clock. lia.
Qed.

Lemma accounts_world w w' q l : w_prio w' = w_prio w -> (forall t, t ∈ l ++ queued q -> w_data w' (rt_id t) = w_data w (rt_id t)) ->
  accounts w q l -> accounts w' q l.
Proof.
  intros Hp Hd [H1 H2 H3 H4 H5 H6 H7 HD]. split; try done; [by rewrite Hp|].
  rewrite Forall_forall in HD |- *. intros t Ht. rewrite Hd by done. by apply HD.
Qed.

Lemma accounts_same w q q' l : total_weight q' = total_weight q -> ineligible q' = ineligible q -> eligible q' = eligible q ->
  v_clock q' = v_clock q -> accounts w q l -> accounts w q' l.
Proof. intros E1 E2 E3 E4 [H1 H2 H3 H4 H5 H6 H7 HD]. unfold queued in *. split; unfold queued; rewrite ?E1, ?E2, ?E3, ?E4; done. Qed.

Lemma accounts_replace w q t sd l : priority sd = priority (rt_sd t) -> in_range sd -> accounts w q (t :: l) ->
  accounts w q (mkRT (rt_id t) sd :: l).
Proof.
  intros Hp Hr [H1 H2 H3 H4 H5 H6 H7 HD]. simpl in H1, H3. apply Forall_cons in H4 as [H4 H4'], H5 as [H5 H5'], HD as [HD HD']. split; try done.
  - rewrite H1. simpl. unfold weight. by rewrite Hp.
  - simpl. constructor; [|done]. simpl. congruence.
  - simpl. by constructor.
  - simpl. by constructor.
Qed.

Lemma accounts_remove w q t l : accounts w q (t :: l) ->
  accounts w (with_weight q (saturating_sub (total_weight q) (weight (rt_sd t)))) l.
Proof.
  intros [H1 H2 H3 H4 H5 H6 H7 HD]. simpl in H1, H3. apply Forall_cons in H4 as [H4 H4'], H5 as [H5 H5'], HD as [_ HD].
  pose proof (weight_pos (rt_sd t)). pose proof (wsum_nonneg (l ++ queued q)).
  apply NoDup_cons in H3 as [H3 H3']. split; try done; simpl; unfold saturating_sub; [|lia].
  change (queued (with_weight q _)) with (queued q). lia.
Qed.

Lemma with_priority_id sd : with_priority sd (priority sd) = sd.
Proof. by destruct sd. Qed.

(** [enqueue] puts the task in the heap its eligibility calls for. *)
Lemma enqueue_spec w q t l : accounts w q (t :: l) ->
  exists q', enqueue q w t = (q', set_task_state w (rt_id t) Runnable) /\ accounts (set_task_state w (rt_id t) Runnable) q' l /\
    queued q' ≡ₚ t :: queued q /\ v_clock q' = v_clock q /\ running_task q' = running_task q /\ yield_requested q' = yield_requested q.
Proof.
  intros [H1 H2 H3 H4 H5 H6 H7 HD]. unfold enqueue. pose proof H4 as H4'. apply Forall_cons in H4' as [Hp _]. rewrite <- Hp, with_priority_id.
  replace (mkRT (rt_id t) (rt_sd t)) with t by (by destruct t).
  assert (forall q', total_weight q' = total_weight q -> v_clock q' = v_clock q -> queued q' ≡ₚ t :: queued q -> Forall (elig (v_clock q)) (eligible q') ->
    accounts (set_task_state w (rt_id t) Runnable) q' l) as Hacc.
  { intros q' E1 E2 E3 E4. assert ((t :: l) ++ queued q ≡ₚ l ++ queued q') as E5.
    { rewrite E3. simpl. apply Permutation_middle. }
    split; rewrite ?E1, ?E2, <- ?E5; try done. by rewrite H1, (wsum_perm _ _ E5). }
  destruct (is_task_eligible (v_clock q) (rt_sd t)) eqn:E; eexists; (split; [reflexivity|]).
  - assert (queued (with_queues q (ineligible q) (t :: eligible q)) ≡ₚ t :: queued q) as Hq by (symmetry; apply Permutation_middle).
    split_and!; try done. apply Hacc; try done. by constructor.
  - split_and!; try done. by apply Hacc.
Qed.

Lemma inserting_range sd c : 0 <= c < 2 ^ 128 -> in_range (inserting_into_runqueue sd c).
Proof. intros Hc. split; [done|apply wrap128_range]. Qed.

(** A new task: it starts at the present virtual time. *)
Lemma add_work_spec w q id l sd : accounts w q l -> w_data w id = Some sd ->
  total_weight q + weight (with_priority sd (w_prio w id)) < 2 ^ 64 ->
  exists q' w', add_work q w id = Return (q', w') /\ accounts w' q' l /\
    queued q' ≡ₚ mkRT id (inserting_into_runqueue (with_priority sd (w_prio w id)) (clk (v_clock q))) :: queued q /\
    w_state w' = upd (w_state w) id Runnable /\ w_prio w' = w_prio w /\ w_data w' = upd (w_data w) id None /\
    v_clock q' = v_clock q /\ running_task q' = running_task q /\ yield_requested q' = yield_requested q.
Proof.
  intros [H1 H2 H3 H4 H5 H6 H7 HD] Hd Hs.
  assert (id ∉ rt_id <$> l ++ queued q) as Hid.
  { intros (t & -> & Ht)%list_elem_of_fmap. rewrite Forall_forall in HD. by rewrite HD in Hd. }
  unfold add_work, work_into_runnable. rewrite Hd. cbn [unwrap obind rt_id rt_sd].
  set (sd' := inserting_into_runqueue _ _). pose proof (weight_pos sd').
  assert (weight sd' = weight (with_priority sd (w_prio w id))) as Hw by done.
  pose proof (wsum_nonneg (l ++ queued q)).
  set (w1 := mkWorld _ _ _). destruct (enqueue_spec w1 (with_weight q (sat_add64 (total_weight q) (weight sd'))) (mkRT id sd') l)
    as (q' & Hq & Ha & Hp & Hc & Hr & Hy).
  - split; try done; simpl; unfold sat_add64; rewrite ?fmap_cons.
    + change (queued (with_weight q _)) with (queued q). lia.
    + lia.
    + by apply NoDup_cons.
    + by constructor.
    + constructor; [|done]. by apply inserting_range.
    + constructor; simpl; unfold upd; [by rewrite Z.eqb_refl|]. eapply Forall_impl; [exact HD|]. intros t Ht. simpl. by case_match.
  - rewrite Hq. eexists _, _. by split_and!.
Qed.
Lemma tick_spec freq sd now : in_range sd ->
  let (expired, sd') := tick freq sd now in
  in_range sd' /\ priority sd' = priority sd /\ (expired = false -> v_eligible sd' < v_deadline sd').
Proof.
  intros [He Hd]. unfold tick.
  set (inc := match exec_start sd with Some start => _ | None => 0 end).
  assert (0 <= inc) as Hi by (unfold inc; destruct (exec_start sd); [apply vt_of_range, weight_pos|lia]).
  pose proof (sat_add128_range (v_eligible sd) inc He Hi) as Hs. clearbody inc. cbn [v_eligible v_deadline].
  destruct (sat_add128 (v_eligible sd) inc >=? v_deadline sd) eqn:E; split_and!; try done.
  - split; [cbn [replenish_deadline v_eligible]; lia|apply wrap128_range].
  - split; cbn [v_eligible v_deadline]; lia.
  - intros _. cbn [v_eligible v_deadline]. lia.
Qed.

Lemma yield_range sd : in_range sd -> in_range (yield_slice sd).
Proof. unfold in_range, yield_slice. simpl. lia. Qed.

(** The task that stops being the queue's business. *)
Definition leaving (w : world) (woken : bool) (cur : RunnableTask) : list Z :=
  match w_state w (rt_id cur) with
  | PendingSleep | PendingStop => if woken then [] else [rt_id cur]
  | _ => []
  end.

Definition keeps_cpu (w : world) (cur t : RunnableTask) : Prop :=
  rt_id t = rt_id cur /\ (w_state w (rt_id cur) = Running \/ w_state w (rt_id cur) = Woken) /\ v_eligible (rt_sd t) < v_deadline (rt_sd t).

(** What the first half of [schedule] leaves: every task is kept, queued, dropped or gone. *)
Record settled (w : world) (q : RunQueue) (woken : bool) (cur : RunnableTask)
    (next : option RunnableTask) (q' : RunQueue) (w' : world) (drops : list RunnableTask) : Prop := {
  set_accounts : accounts w' q' (option_list next);
  set_tasks : (rt_id <$> option_list next ++ queued q') ++ (rt_id <$> drops) ++ leaving w woken cur ≡ₚ rt_id cur :: (rt_id <$> queued q);
  set_keeps : forall t, next = Some t -> keeps_cpu w cur t;
  set_drops : drops = [] \/ drops = [cur] /\ w_state w (rt_id cur) ∉ [Running; Woken; PendingSleep; PendingStop];
  set_finished : forall t, t ∈ queued q' -> is_finished (w_state w' (rt_id t)) = is_finished (w_state w (rt_id t));
  set_rest : v_clock q' = v_clock q /\ running_task q' = running_task q
}.

Lemma finished_upd (w : world) (id i : Z) s : is_finished (w_state w id) = false -> is_finished s = false ->
  is_finished (upd (w_state w) id s i) = is_finished (w_state w i).
Proof. intros H1 H2. unfold upd. destruct (Z.eqb_spec i id) as [->|]; congruence. Qed.

Lemma leaving_running w woken cur : w_state w (rt_id cur) = Running \/ w_state w (rt_id cur) = Woken -> leaving w woken cur = [].
Proof. unfold leaving. by intros [-> | ->]. Qed.

Lemma settle_running freq w q now yielding woken cpu cur : accounts w q [cur] ->
  w_state w (rt_id cur) = Running \/ w_state w (rt_id cur) = Woken ->
  exists next q' w' drops, settle_current freq q w now yielding woken cpu cur = Return (next, q', w', drops) /\
    settled w q woken cur next q' w' drops.
Proof.
  intros Ha Hs.
  assert (in_range (rt_sd cur)) as Hr by (pose proof (acc_range _ _ _ Ha) as Hr; by apply Forall_cons in Hr as [? _]).
  set (sd := if yielding then yield_slice (rt_sd cur) else rt_sd cur).
  assert (in_range sd /\ priority sd = priority (rt_sd cur)) as [Hsd Hpr] by (unfold sd; destruct yielding; split; try done; by apply yield_range).
  pose proof (tick_spec freq sd now Hsd) as Ht. destruct (tick freq sd now) as [expired sd'] eqn:Et. destruct Ht as (Hr' & Hp' & Hx).
  pose proof (accounts_replace w q cur sd' [] ltac:(congruence) Hr' Ha) as Ha'.
  assert (settle_current freq q w now yielding woken cpu cur =
    if expired then let (q, w) := enqueue q w (mkRT (rt_id cur) sd') in Return (None, q, w, []) else Return (Some (mkRT (rt_id cur) sd'), q, w, [])) as ->.
  { unfold settle_current. fold sd. rewrite Et. by destruct Hs as [-> | ->]. }
  destruct expired.
  - destruct (enqueue_spec w q _ [] Ha') as (q' & -> & Hacc & Hq & Hc & Hrun & _). eexists None, _, _, []. split; [done|].
    split; try done; [|by left|].
    + rewrite (leaving_running _ _ _ Hs). simpl. by rewrite app_nil_r, Hq.
    + intros t _. simpl. apply finished_upd; [|done]. by destruct Hs as [-> | ->].
  - eexists (Some _), q, w, []. split; [done|]. split; try done; [| |by left].
    + rewrite (leaving_running _ _ _ Hs). simpl. by rewrite app_nil_r.
    + intros t [= <-]. split_and!; try done. by apply Hx.
Qed.

Lemma settle_pending freq w q now yielding woken cpu cur : accounts w q [cur] ->
  w_state w (rt_id cur) = PendingSleep \/ w_state w (rt_id cur) = PendingStop ->
  exists next q' w' drops, settle_current freq q w now yielding woken cpu cur = Return (next, q', w', drops) /\
    settled w q woken cur next q' w' drops.
Proof.
  intros Ha Hs. pose proof (accounts_remove w q cur [] Ha) as Hrem.
  assert (Hnf : is_finished (w_state w (rt_id cur)) = false) by (by destruct Hs as [-> | ->]).
  set (sd := mkSD (v_runtime (rt_sd cur)) (v_eligible (rt_sd cur)) (v_deadline (rt_sd cur)) (exec_start (rt_sd cur))
        (sd_deadline (rt_sd cur)) (last_run (rt_sd cur)) cpu (cpu_mask (rt_sd cur)) (priority (rt_sd cur))).
  set (q1 := with_weight q (saturating_sub (total_weight q) (weight (rt_sd cur)))) in Hrem.
  set (w1 := rt_drop w (mkRT (rt_id cur) sd)).
  assert (settle_current freq q w now yielding woken cpu cur = if woken
    then let! (q, w) := add_work q1 (set_task_state w1 (rt_id cur) Woken) (rt_id cur) in Return (None, q, w, [])
    else Return (None, q1, set_task_state w1 (rt_id cur) (match w_state w (rt_id cur) with PendingSleep => Sleeping | _ => Stopped end), [])) as ->.
  { unfold settle_current. cbn [rt_id rt_sd]. destruct Hs as [-> | ->]; by destruct woken. }
  assert (forall t, t ∈ queued q -> w_data w1 (rt_id t) = w_data w (rt_id t)) as Hother.
  { intros t Ht. pose proof (acc_nodup _ _ _ Ha) as Hn. apply NoDup_cons in Hn as [Hn _]. simpl. unfold upd.
    destruct (Z.eqb_spec (rt_id t) (rt_id cur)) as [Et|]; [|done]. destruct Hn. rewrite <- Et. by apply list_elem_of_fmap_2. }
  destruct woken.
  - assert (accounts (set_task_state w1 (rt_id cur) Woken) q1 []) as Hrem' by (apply (accounts_world w); try done; exact Hother).
    destruct Ha as [H1 H2 H3 H4 H5 H6 H7 HD]. apply NoDup_cons in H3 as [H3 H3']. apply Forall_cons in H4 as [H4 _].
    destruct (add_work_spec (set_task_state w1 (rt_id cur) Woken) q1 (rt_id cur) [] sd Hrem') as (q' & w' & -> & A1 & A2 & A3 & A4 & A5 & A6 & A7 & A8); try done.
    { simpl. unfold upd. by rewrite Z.eqb_refl. }
    { pose proof (weight_pos (rt_sd cur)). pose proof (wsum_nonneg (queued q)). simpl in H1. simpl.
      assert (weight (with_priority sd (w_prio w (rt_id cur))) = weight (rt_sd cur)) as -> by (unfold weight; simpl; by rewrite H4).
      unfold saturating_sub. lia. }
    eexists None, q', w', []. split; [done|]. split; try done; [|by left|].
    + assert (leaving w true cur = []) as -> by (unfold leaving; by destruct Hs as [-> | ->]). simpl. by rewrite app_nil_r, A2.
    + intros t _. rewrite A3. rewrite finished_upd; simpl; unfold upd; rewrite ?Z.eqb_refl; try done.
      destruct (Z.eqb_spec (rt_id t) (rt_id cur)) as [->|]; done.
  - eexists None, q1, _, []. split; [done|]. split; try done; [apply (accounts_world w); try done; exact Hother| |by left|].
    + assert (leaving w false cur = [rt_id cur]) as -> by (unfold leaving; by destruct Hs as [-> | ->]).
      simpl. by rewrite Permutation_app_comm.
    + intros t _. simpl. apply (finished_upd w1); [done|]. by destruct Hs as [-> | ->].
Qed.

Lemma settle_current_spec freq w q now yielding woken cpu cur : accounts w q [cur] ->
  exists next q' w' drops, settle_current freq q w now yielding woken cpu cur = Return (next, q', w', drops) /\
    settled w q woken cur next q' w' drops.
Proof.
  intros Ha. destruct (decide (w_state w (rt_id cur) ∈ [Running; Woken; PendingSleep; PendingStop])) as [Hs|Hs].
  - rewrite !elem_of_cons, elem_of_nil in Hs. destruct Hs as [E|[E|[E|[E|[]]]]]; eauto using settle_running, settle_pending.
  - pose proof (accounts_remove w q cur [] Ha) as Hrem.
    eexists None, _, w, [cur]. split.
    { unfold settle_current. destruct (w_state w (rt_id cur)) eqn:E; try reflexivity; exfalso; apply Hs; rewrite !elem_of_cons; tauto. }
    split; try done; [|by right].
    assert (leaving w woken cur = []) as ->.
    { unfold leaving. destruct (w_state w (rt_id cur)) eqn:E; try done; exfalso; apply Hs; rewrite !elem_of_cons; tauto. }
    simpl. by rewrite Permutation_app_comm.
Qed.
Lemma found_accounts w q q' best dropped : accounts w q [] -> found w q q' best dropped -> accounts w q' (option_list best).
Proof.
  intros [H1 H2 H3 H4 H5 H6 H7 HD] [F1 F2 F3 F4 FJ F5 F6 F7 F8 F9]. simpl in *.
  assert (dropped ++ (option_list best ++ queued q') ≡ₚ queued q) as P.
  { rewrite <- F1. rewrite !app_assoc. by rewrite (Permutation_app_comm dropped). }
  pose proof (wsum_perm _ _ P) as W. rewrite wsum_app in W. pose proof (wsum_nonneg dropped).
  rewrite <- P in H3, H4, H5, HD. rewrite fmap_app in H3. apply NoDup_app in H3 as (_ & _ & H3).
  apply Forall_app in H4 as [_ H4], H5 as [H5' H5], HD as [_ HD]. split; try done; [lia|lia| |].
  - by apply Forall_app in F6 as [_ ?].
  - split; [lia|]. destruct FJ as [->|(t & Ht & ->)]; [lia|]. rewrite <- P in Ht.
    assert (in_range (rt_sd t)) as [? ?]; [|lia]. apply elem_of_app in Ht as [Ht|Ht]; [rewrite Forall_forall in H5'|rewrite Forall_forall in H5]; eauto.
Qed.

Definition gone (w : world) (q : RunQueue) (woken : bool) : list Z :=
  match running_task q with Some cur => leaving w woken cur | None => [] end.

(** What the next task is chosen for. *)
Definition rightly_chosen (w : world) (q q' : RunQueue) (t : RunnableTask) : Prop :=
  (exists cur, running_task q = Some cur /\ keeps_cpu w cur t) \/
  (is_finished (w_state w (rt_id t)) = false /\ elig (v_clock q') t /\
   forall u, u ∈ queued q' -> elig (v_clock q') u -> v_deadline (rt_sd t) <= v_deadline (rt_sd u)).

(** The two halves of [schedule] up to the switch. *)
Definition choose (freq : Z) (q : RunQueue) (w : world) (now : Z) (woken : bool) (cpu : Z)
    : outcome (option RunnableTask * RunQueue * world * list RunnableTask) :=
  let q1 := mkRQ (total_weight q) false (ineligible q) (eligible q) (running_task q) (vclock_advance freq (v_clock q) now (total_weight q)) in
  let! (next_task, q, w, deferred_drops) :=
    match running_task q1 with
    | Some cur_task => settle_current freq (with_running q1 None) w now (yield_requested q) woken cpu cur_task
    | None => Return (None, q1, w, [])
    end in
  let! (next_task, q, deferred_drops) :=
    match next_task with
    | Some t => Return (Some t, q, deferred_drops)
    | None => find_next_task (S (length (ineligible q))) q w deferred_drops
    end in
  Return (next_task, q, w, deferred_drops).

Lemma rq_schedule_choose freq q w now woken cpu :
  rq_schedule freq q w now woken cpu =
  let! (next_task, q', w', drops) := choose freq q w now woken cpu in
  match next_task with
  | Some t =>
      let '(t, w', _) := about_to_execute freq w' t now in
      Return (if bool_decide (option_map rt_id (running_task q) = Some (rt_id t)) then NoSwitch else SwitchTo (rt_id t),
              with_running q' (Some t), w', drops)
  | None => Return (SwitchIdle, q', w', drops)
  end.
Proof.
  unfold rq_schedule, choose. cbn [running_task].
  set (m := match running_task q with Some cur => _ | None => _ end). destruct m as [[[[n q1] w1] d1]| |]; [|done|done]. cbn [obind].
  destruct n as [t|]; [done|]. by destruct (find_next_task _ q1 w1 d1) as [[[n2 q2] d2]| |].
Qed.

Lemma settled_start freq q w now woken cpu : rq_inv w q ->
  let q1 := mkRQ (total_weight q) false (ineligible q) (eligible q) (running_task q) (vclock_advance freq (v_clock q) now (total_weight q)) in
  exists next q2 w2 drops,
    match running_task q with
    | Some cur_task => settle_current freq (with_running q1 None) w now (yield_requested q) woken cpu cur_task
    | None => Return (None, q1, w, [])
    end = Return (next, q2, w2, drops) /\
    accounts w2 q2 (option_list next) /\
    (rt_id <$> option_list next ++ queued q2) ++ (rt_id <$> drops) ++ gone w q woken ≡ₚ rt_id <$> members q /\
    (forall t, next = Some t -> exists cur, running_task q = Some cur /\ keeps_cpu w cur t) /\
    (drops = [] \/ exists cur, drops = [cur] /\ running_task q = Some cur /\ w_state w (rt_id cur) ∉ [Running; Woken; PendingSleep; PendingStop]) /\
    (forall t, t ∈ queued q2 -> is_finished (w_state w2 (rt_id t)) = is_finished (w_state w (rt_id t))) /\
    clk (v_clock q) <= clk (v_clock q2) /\ running_task q2 = None.
Proof.
  intros Hinv q1. pose proof (vclock_advance_spec freq (v_clock q) now (total_weight q) (acc_clock _ _ _ Hinv)) as Hc.
  pose proof (accounts_clock w q _ _ Hinv Hc) as Ha.
  assert (accounts w q1 (option_list (running_task q))) as Ha1 by (eapply accounts_same; [..|exact Ha]; done).
  unfold gone, members, rq_inv in *. destruct (running_task q) as [cur|] eqn:Er.
  - destruct (settle_current_spec freq w (with_running q1 None) now (yield_requested q) woken cpu cur) as (next & q2 & w2 & drops & -> & [S1 S2 S3 S4 S5 [S6 S7]]).
    { by eapply accounts_same; [..|exact Ha1]. }
    eexists _, _, _, _. split; [done|]. split_and!; try done.
    + intros t Ht. exists cur. split; [done|]. by apply S3.
    + destruct S4 as [->|[-> S4]]; [by left|right; by exists cur].
    + rewrite S6. simpl. lia.
  - eexists None, q1, w, []. split; [done|]. split_and!; try done.
    + simpl. by rewrite app_nil_r.
    + by left.
    + simpl. lia.
Qed.

Lemma by_deadline_le t u : by_deadline u t <> Gt -> v_deadline (rt_sd t) <= v_deadline (rt_sd u).
Proof.
  unfold by_deadline, compare_with. destruct (Z.compare_spec (v_deadline (rt_sd t)) (v_deadline (rt_sd u))); simpl; [lia|lia|done].
Qed.

Lemma choose_spec freq q w now woken cpu : rq_inv w q ->
  exists next q' w' drops, choose freq q w now woken cpu = Return (next, q', w', drops) /\
    accounts w' q' (option_list next) /\
    (rt_id <$> option_list next ++ queued q') ++ (rt_id <$> drops) ++ gone w q woken ≡ₚ rt_id <$> members q /\
    Forall (fun t => is_finished (w_state w (rt_id t)) = true \/
                     running_task q = Some t /\ w_state w (rt_id t) ∉ [Running; Woken; PendingSleep; PendingStop]) drops /\
    clk (v_clock q) <= clk (v_clock q') /\ running_task q' = None /\
    match next with Some t => rightly_chosen w q q' t | None => queued q' = [] end.
Proof.
  intros Hinv. unfold choose. cbn [running_task].
  destruct (settled_start freq q w now woken cpu Hinv) as (next & q2 & w2 & drops & -> & S1 & S2 & S3 & S4 & S5 & S6 & S7).
  cbn [obind]. assert (Forall (fun t => is_finished (w_state w (rt_id t)) = true \/
                     running_task q = Some t /\ w_state w (rt_id t) ∉ [Running; Woken; PendingSleep; PendingStop]) drops) as Hd.
  { destruct S4 as [->|(cur & -> & ? & ?)]; [done|]. apply Forall_singleton. by right. }
  destruct next as [t|].
  { eexists (Some t), q2, w2, drops. split; [done|]. split_and!; try done. left. by apply S3. }
  destruct (find_next_task_spec w2 (S (length (ineligible q2))) q2 drops) as (best & q3 & dropped & -> & F).
  { rewrite (acc_total _ _ _ S1). simpl. lia. }
  { apply (acc_elig _ _ _ S1). }
  { destruct (promote_spec (length (ineligible q2)) q2 ltac:(done)) as (moved & P1 & _). apply Permutation_length in P1. rewrite length_app in P1. lia. }
  pose proof (found_accounts _ _ _ _ _ S1 F) as Hacc. destruct F as [F1 F2 F3 F4 FJ F5 F6 F7 F8 (F9 & _)].
  eexists best, q3, w2, (drops ++ dropped). split; [done|]. split_and!; [done| | |lia|congruence|].
  - rewrite <- S2. simpl. rewrite <- F1. rewrite !fmap_app.
    rewrite (Permutation_app_comm (rt_id <$> drops)). rewrite <- !app_assoc. apply Permutation_app_head.
    rewrite !app_assoc. by rewrite (Permutation_app_comm (rt_id <$> queued q3)).
  - apply Forall_app. split; [done|]. rewrite Forall_forall in F2 |- *. intros t Ht. left. rewrite <- S5; [by apply F2|].
    rewrite <- F1. by apply elem_of_app; right; apply elem_of_app; left.
  - destruct best as [b|]; [|done]. right. destruct F8 as [F8 F8']. apply Forall_cons in F6 as [F6 _].
    split_and!; [|done|].
    + unfold done_in in F8. rewrite S5 in F8; [by apply not_true_is_false|]. rewrite <- F1. by left.
    + intros u Hu Heu. apply by_deadline_le, F8'. unfold queued in Hu. apply elem_of_app in Hu as [Hu|Hu]; [|done].
      rewrite Forall_forall in F7. by destruct (F7 u Hu).
Qed.

(** C6: one pass of the scheduler is correct.  From a run queue whose weights add up, it always
    returns (no panic, and the search for a task ends); the weights add up again and the running
    task is in no queue; no task is lost: each one runs, is queued, was handed back because it
    has finished, or went to sleep or stopped.  The CPU idles only when nothing is queued; a
    task that keeps the CPU has budget left, and one that gets it is eligible, has not finished,
    and no eligible task has an earlier deadline. *)
Theorem schedule_correct (freq : Z) (w : world) (q : RunQueue) (now : Z) (woken : bool) (cpu : Z) (Hinv : rq_inv w q) :
  exists sw q' w' drops, rq_schedule freq q w now woken cpu = Return (sw, q', w', drops) /\ rq_inv w' q' /\
    (rt_id <$> members q') ++ (rt_id <$> drops) ++ gone w q woken ≡ₚ rt_id <$> members q /\
    Forall (fun t => is_finished (w_state w (rt_id t)) = true \/
                     running_task q = Some t /\ w_state w (rt_id t) ∉ [Running; Woken; PendingSleep; PendingStop]) drops /\
    clk (v_clock q) <= clk (v_clock q') /\
    match running_task q' with
    | Some t => w_state w' (rt_id t) = Running /\ rightly_chosen w q q' t /\
        sw = if bool_decide (option_map rt_id (running_task q) = Some (rt_id t)) then NoSwitch else SwitchTo (rt_id t)
    | None => sw = SwitchIdle /\ queued q' = []
    end.
Proof.
  rewrite rq_schedule_choose. destruct (choose_spec freq q w now woken cpu Hinv) as (next & q' & w' & drops & -> & C1 & C2 & C3 & C4 & C5 & C6).
  cbn [obind]. destruct next as [t|].
  - unfold about_to_execute. eexists _, _, _, drops. split; [reflexivity|]. cbn [running_task with_running].
    split_and!; try done.
    + unfold rq_inv. cbn [running_task with_running option_list]. apply (accounts_world w'); [done|done|].
      eapply (accounts_same _ q'), (accounts_replace _ _ t); try done.
      pose proof (acc_range _ _ _ C1) as Hr. by apply Forall_cons in Hr as [Hr _].
    + simpl. unfold upd. by rewrite Z.eqb_refl.
  - exists SwitchIdle, q', w', drops. split; [done|]. unfold rq_inv, members. rewrite C5. by split_and!.
Qed.
End Picking.

(** ** Reachable run queues *)

Section Reachable.
Context `{BinaryHeapLaws RunnableTask} (freq : Z).

(** What happens to a CPU's run queue: work arrives (a task whose scheduler data is in its
    Work), a yield is requested, the scheduler runs; between these the other CPUs
    may change any task's state. *)
Inductive rq_step : RunQueue * world -> RunQueue * world -> Prop :=
| StepAdd q w id sd q' w' :
    w_data w id = Some sd ->
    total_weight q + weight (with_priority sd (w_prio w id)) < 2 ^ 64 ->
    add_work q w id = Return (q', w') -> rq_step (q, w) (q', w')
| StepYield q w : rq_step (q, w) (request_yield q, w)
| StepSchedule q w now woken cpu sw q' w' drops :
    rq_schedule freq q w now woken cpu = Return (sw, q', w', drops) -> rq_step (q, w) (q', foldl rt_drop w' drops)
| StepOthers q w f : rq_step (q, w) (q, mkWorld f (w_prio w) (w_data w)).

Lemma foldl_drop_prio drops w : w_prio (foldl rt_drop w drops) = w_prio w.
Proof. revert w. induction drops as [|t l IH]; intros w; simpl; [done|]. by rewrite IH. Qed.

Lemma foldl_drop_data drops w i : i ∉ rt_id <$> drops -> w_data (foldl rt_drop w drops) i = w_data w i.
Proof.
  revert w. induction drops as [|t l IH]; intros w Hi; simpl; [done|]. apply not_elem_of_cons in Hi as [Hi Hl]. rewrite IH by done.
  simpl. unfold upd. by destruct (Z.eqb_spec i (rt_id t)).
Qed.

Lemma foldl_drop_state drops w id s : w_data (foldl rt_drop (set_task_state w id s) drops) = w_data (foldl rt_drop w drops).
Proof. revert w. induction drops as [|t l IH]; intros w; [done|]. cbn [foldl]. exact (IH (rt_drop w t)). Qed.

(** The tasks handed back are dropped once the queue is released. *)
Lemma accounts_drops w q l drops r ids : accounts w q l -> (rt_id <$> l ++ queued q) ++ (rt_id <$> drops) ++ r ≡ₚ ids -> NoDup ids ->
  accounts (foldl rt_drop w drops) q l.
Proof.
  intros Ha Hp Hn. rewrite <- Hp in Hn. apply NoDup_app in Hn as (_ & Hn & _). apply (accounts_world w); [apply foldl_drop_prio| |done].
  intros t Ht. apply foldl_drop_data. intros Hd. apply (Hn (rt_id t)); [by apply list_elem_of_fmap_2|]. by apply elem_of_app; left.
Qed.

Lemma rq_step_inv s s' : rq_step s s' -> rq_inv (snd s) (fst s) -> rq_inv (snd s') (fst s').
Proof.
  destruct 1 as [q w id sd q' w' Hd Hs Hadd|q w|q w now woken cpu sw q' w' drops Hsch|q w f]; simpl; intros Hinv.
  - destruct (add_work_spec w q id (option_list (running_task q)) sd Hinv Hd Hs) as (q1 & w1 & E & Ha & _ & _ & _ & _ & _ & Hr & _).
    rewrite Hadd in E. injection E as <- <-. unfold rq_inv. by rewrite Hr.
  - by apply (accounts_same _ q).
  - destruct (choose_spec freq q w now woken cpu Hinv) as (next & q1 & w1 & d1 & Hc & C1 & C2 & _ & _ & C5 & _).
    pose proof (accounts_drops _ _ _ _ _ _ C1 C2 (acc_nodup _ _ _ Hinv)) as Ha.
    rewrite rq_schedule_choose, Hc in Hsch. cbn [obind] in Hsch.
    destruct next as [t|]; [|injection Hsch as <- <- <- <-; unfold rq_inv; by rewrite C5].
    injection Hsch as <- <- <- <-. unfold rq_inv. cbn [running_task with_running option_list].
    apply (accounts_world (foldl rt_drop w1 d1)); [by rewrite !foldl_drop_prio|intros u _; by rewrite foldl_drop_state|].
    eapply (accounts_same _ q1), (accounts_replace _ _ t); try done.
    pose proof (acc_range _ _ _ C1) as Hr. by apply Forall_cons in Hr as [Hr _].
  - by apply (accounts_world w).
Qed.

(** C13: the documented invariants of RunQueue hold in every state a CPU's queue can get into
    from the empty one: the total weight is the sum of the weights of the queued tasks and the
    running task, without overflow; no task is twice in the queues and the running task is in
    neither; and what waits in the eligible heap is eligible. *)
Theorem runqueue_invariant (w0 : world) (q : RunQueue) (w : world)
  (Hreach : rtc rq_step (runqueue_new, w0) (q, w)) :
  total_weight q = wsum (members q) /\ total_weight q < 2 ^ 64 /\ NoDup (rt_id <$> members q) /\
  Forall (elig (v_clock q)) (eligible q).
Proof.
  assert (rq_inv w0 runqueue_new) as Hinit.
  { split; simpl; try done; constructor. }
  assert (rq_inv w q) as [I1 I2 I3 I4 I5 I6 I7 I8]; [|done].
  change (rq_inv (snd (q, w)) (fst (q, w))). remember (q, w) as s eqn:Es. clear Es.
  change (rq_inv (snd (runqueue_new, w0)) (fst (runqueue_new, w0))) in Hinit. induction Hreach as [|s1 s2 s3 Hst _ IH]; [done|].
  apply IH. by eapply rq_step_inv.
Qed.
End Reachable.

Definition demo_world : world := mkWorld (fun i => if i =? 2 then Running else if i =? 3 then Finished else Runnable) (fun _ => 0) (fun i => if i <? 2 then Some (sched_data_new 0) else None).
Definition demo_task (id e d : Z) : RunnableTask := mkRT id (mkSD 0 e d (Some 0) None None 0 [] 0).
(** Task 2 runs and its slice is over; 3 has finished; 4 may run, 5 must wait. *)
Definition demo_queue : RunQueue :=
  mkRQ 4096 false [demo_task 5 (2 ^ 100) (2 ^ 101)] [demo_task 4 0 50; demo_task 3 0 10] (Some (demo_task 2 0 20)) (mkVClock (Some 0) 0).

Lemma demo_queue_inv : rq_inv demo_world demo_queue.
Proof.
  split.
  - reflexivity.
  - reflexivity.
  - apply (bool_decide_unpack _). reflexivity.
  - repeat (apply Forall_cons; split; [reflexivity|]). apply Forall_nil. done.
  - repeat (apply Forall_cons; split; [unfold in_range; simpl; lia|]). apply Forall_nil. done.
  - repeat (apply Forall_cons; split; [reflexivity|]). apply Forall_nil. done.
  - simpl. lia.
  - repeat (apply Forall_cons; split; [reflexivity|]). apply Forall_nil. done.
Qed.

Lemma schedule_correct_witness : rq_inv demo_world demo_queue /\
  exists sw q' w' drops, rq_schedule 1000 demo_queue demo_world 4 false 0 = Return (sw, q', w', drops) /\ rq_inv w' q' /\
    sw = SwitchTo 4 /\ (rt_id <$> drops) = [3].
Proof.
  split; [apply demo_queue_inv|].
  destruct (schedule_correct 1000 demo_world demo_queue 4 false 0 demo_queue_inv) as (sw & q' & w' & drops & E & Hi & _).
  exists sw, q', w', drops. split; [exact E|]. split; [exact Hi|].
  assert (option_map (fun r => (fst (fst (fst r)), rt_id <$> snd r)) (match rq_schedule 1000 demo_queue demo_world 4 false 0 with Return r => Some r | _ => None end)
    = Some (SwitchTo 4, [3])) as D by (vm_compute; reflexivity).
  rewrite E in D. simpl in D. by injection D as -> ->.
Defined.

Lemma runqueue_invariant_witness : exists q w, rtc (rq_step 1000) (runqueue_new, demo_world) (q, w) /\
  total_weight q = 2048 /\ NoDup (rt_id <$> members q) /\ option_map rt_id (running_task q) = Some 1.
Proof.
  destruct (add_work runqueue_new demo_world 0) as [[q1 w1]| |] eqn:E1; [|discriminate|discriminate].
  destruct (add_work q1 w1 1) as [[q2 w2]| |] eqn:E2; [|vm_compute in E1; injection E1 as <- <-; discriminate..].
  destruct (rq_schedule 1000 q2 w2 4 false 0) as [[[[sw q3] w3] d3]| |] eqn:E3;
    [|vm_compute in E1; injection E1 as <- <-; vm_compute in E2; injection E2 as <- <-; discriminate..].
  assert (rtc (rq_step 1000) (runqueue_new, demo_world) (q3, foldl rt_drop w3 d3)) as Hr.
  { eapply rtc_l; [eapply (StepAdd 1000 _ _ 0); [reflexivity|vm_compute; reflexivity|exact E1]|].
    vm_compute in E1. injection E1 as <- <-.
    eapply rtc_l; [eapply (StepAdd 1000 _ _ 1); [reflexivity|vm_compute; reflexivity|exact E2]|].
    eapply rtc_l; [eapply StepSchedule; exact E3|]. apply rtc_refl. }
  destruct (runqueue_invariant 1000 _ _ _ Hr) as (_ & _ & Hn & _). exists q3, (foldl rt_drop w3 d3).
  split; [exact Hr|]. vm_compute in E1. injection E1 as <- <-. vm_compute in E2. injection E2 as <- <-. vm_compute in E3.
  injection E3 as <- <- <- <-. split; [reflexivity|]. split; [exact Hn|reflexivity].
Defined.
