(* ===== verification/Affinity.v ===== *)
(** * Choosing a CPU for a task

    Models get_best_cpu and the choice made by insert_work_cross_cpu in src/sched/mod.rs, and the
    affinity calls of src/sched/syscalls/mod.rs.  The load of a CPU is the weight it publishes.
    What the copy from user space gives is an argument; the allocation of the buffer for it is
    taken to succeed. *)
From stdpp Require Import base list.
From S2P Require Import Prelude Error TaskState Sched.
Local Open Scope Z_scope.

Notation CPU_MASK_SIZE := 32.

(** [mask[i / 8] & (1 << (i % 8)) != 0] *)
Definition mask_has (mask : list Z) (i : Z) : outcome bool :=
  let! b := unwrap (mask !! Z.to_nat (i / 8)) in
  Return (negb (Z.land b (Z.shiftl 1 (i mod 8)) =? 0)).

(** The CPUs [i, ..., i + n - 1] filtered by the mask and folded by [min_by]. *)
Fixpoint best_from (load : Z -> Z) (mask : list Z) (n : nat) (i : Z) (best : option Z) : outcome (option Z) :=
  match n with
  | O => Return best
  | S n =>
      let! ok := mask_has mask i in
      let best' := if ok then match best with
                              | None => Some i
                              | Some x => if load x >? load i then Some i else Some x
                              end
                   else best in
      best_from load mask n (i + 1) best'
  end.

Definition get_best_cpu (cpu_count : Z) (load : Z -> Z) (mask : list Z) : outcome Z :=
  let! best := best_from load mask (Z.to_nat cpu_count) 0 None in
  Return (match best with Some c => c | None => 0 end).

(** The CPU [insert_work_cross_cpu] sends a task to. *)
Definition insert_work_cpu (cpu_count : Z) (load : Z -> Z) (sched_data : option SchedulerData) : outcome Z :=
  let last := match sched_data with Some s => last_cpu s | None => usize_max end in
  let mask := match sched_data with Some s => cpu_mask s | None => replicate (Z.to_nat CPU_MASK_SIZE) 255 end in
  if last =? usize_max then get_best_cpu cpu_count load mask
  else let! ok := mask_has mask last in
       if ok then Return last else get_best_cpu cpu_count load mask.

Definition sys_sched_getaffinity (w : world) (current pid size : Z) (copy_to_user : list Z -> result unit) : outcome (result Z) :=
  if negb (pid =? 0) then Return (Err InvalidValue) else
  let mask := match w_data w current with Some s => cpu_mask s | None => replicate (Z.to_nat CPU_MASK_SIZE) 255 end in
  let mask := if CPU_MASK_SIZE >? size then take (Z.to_nat size) mask else mask in
  match copy_to_user mask with
  | Ok _ => Return (Ok (Z.of_nat (length mask)))
  | Err e => Return (Err e)
  end.

Fixpoint any_cpu (cpu_set : list Z) (n : nat) (i : Z) : outcome bool :=
  match n with
  | O => Return false
  | S n => let! ok := mask_has cpu_set i in if ok then Return true else any_cpu cpu_set n (i + 1)
  end.

Definition with_mask (sd : SchedulerData) (m : list Z) : SchedulerData :=
  mkSD (v_runtime sd) (v_eligible sd) (v_deadline sd) (exec_start sd) (sd_deadline sd) (last_run sd) (last_cpu sd) m (priority sd).

Definition sys_sched_setaffinity (cpu_count : Z) (w : world) (current pid size : Z) (copied : result (list Z)) : outcome (result Z * world) :=
  match copied with
  | Err e => Return (Err e, w)
  | Ok cpu_set =>
      if negb (pid =? 0) then Return (Err InvalidValue, w) else
      if CPU_MASK_SIZE >? size then Return (Err InvalidValue, w) else
      let cpu_set := take (Z.to_nat CPU_MASK_SIZE) cpu_set in
      let! any_true := any_cpu cpu_set (Z.to_nat cpu_count) 0 in
      if negb any_true then Return (Err InvalidValue, w) else
      let! sd := unwrap (w_data w current) in
      Return (Ok 0, mkWorld (w_state w) (w_prio w) (upd (w_data w) current (Some (with_mask sd cpu_set))))
  end.

(** ** Theorems *)

Definition allowed (mask : list Z) (i : Z) : Prop := mask_has mask i = Return true.

Lemma mask_has_total mask i : (32 <= length mask)%nat -> 0 <= i < 256 -> exists b, mask_has mask i = Return b.
Proof.
  intros Hl Hi. unfold mask_has. destruct (lookup_lt_is_Some_2 mask (Z.to_nat (i / 8))) as [b Hb].
  - pose proof (Z.div_lt_upper_bound i 8 32). pose proof (Z.div_pos i 8). lia.
  - rewrite Hb. by eexists.
Qed.

(** [best] is a least loaded allowed CPU below [i], if there is one. *)
Definition best_below (load : Z -> Z) (mask : list Z) (i : Z) (best : option Z) : Prop :=
  match best with
  | Some c => 0 <= c < i /\ allowed mask c /\ forall j, 0 <= j < i -> allowed mask j -> load c <= load j
  | None => forall j, 0 <= j < i -> ~ allowed mask j
  end.

Lemma best_from_spec load mask n i best : (32 <= length mask)%nat -> 0 <= i -> i + Z.of_nat n <= 256 -> best_below load mask i best ->
  exists r, best_from load mask n i best = Return r /\ best_below load mask (i + Z.of_nat n) r.
Proof.
  intros Hl. revert i best. induction n as [|n IH]; intros i best Hi Hn Hb; cbn [best_from].
  - exists best. rewrite Z.add_0_r. done.
  - destruct (mask_has_total mask i Hl ltac:(lia)) as [ok Hok]. rewrite Hok. cbn [obind].
    replace (i + Z.of_nat (S n)) with (i + 1 + Z.of_nat n) by lia. apply IH; [lia|lia|].
    assert (Hcase : forall j, 0 <= j < i + 1 -> 0 <= j < i \/ j = i) by lia.
    destruct ok, best as [c|]; simpl in *; [destruct (load c >? load i) eqn:E| | |]; simpl.
    + destruct Hb as (Hc & Ha & Hm). split_and!; [lia|lia|done|]. intros j [Hj| ->]%Hcase Haj; [specialize (Hm j Hj Haj)|]; lia.
    + destruct Hb as (Hc & Ha & Hm). split_and!; [lia|lia|done|]. intros j [Hj| ->]%Hcase Haj; [by apply Hm|lia].
    + split_and!; [lia|lia|done|]. intros j [Hj| ->]%Hcase Haj; [by destruct (Hb j)|lia].
    + destruct Hb as (Hc & Ha & Hm). split_and!; [lia|lia|done|]. intros j [Hj| ->]%Hcase Haj; [by apply Hm|].
      unfold allowed in Haj. congruence.
    + intros j [Hj| ->]%Hcase; [by apply Hb|]. unfold allowed. congruence.
Qed.

Lemma get_best_cpu_spec cpu_count load mask : (32 <= length mask)%nat -> 0 <= cpu_count <= 256 ->
  exists r, get_best_cpu cpu_count load mask = Return (default 0 r) /\ best_below load mask cpu_count r.
Proof.
  intros Hl Hc. unfold get_best_cpu. destruct (best_from_spec load mask (Z.to_nat cpu_count) 0 None Hl) as (r & -> & Hr); [lia|lia| |].
  - intros j Hj. lia.
  - exists r. rewrite Z2Nat.id, Z.add_0_l in Hr by lia. split; [by destruct r|done].
Qed.

(** A task is sent to the CPU it last ran on if its affinity mask still allows that CPU,
    otherwise to an allowed CPU that no allowed CPU is less loaded than, and to CPU 0 only when
    the mask allows none; the mask is never indexed out of range. *)
Theorem insert_work_cpu_correct (cpu_count : Z) (load : Z -> Z) (sd : SchedulerData)
  (Hcpus : 0 <= cpu_count <= 256) (Hmask : length (cpu_mask sd) = 32%nat) (Hlast : last_cpu sd = usize_max \/ 0 <= last_cpu sd < 256) :
  exists c, insert_work_cpu cpu_count load (Some sd) = Return c /\
    (last_cpu sd <> usize_max -> allowed (cpu_mask sd) (last_cpu sd) -> c = last_cpu sd) /\
    (last_cpu sd = usize_max \/ ~ allowed (cpu_mask sd) (last_cpu sd) ->
     (allowed (cpu_mask sd) c /\ 0 <= c < cpu_count /\ forall j, 0 <= j < cpu_count -> allowed (cpu_mask sd) j -> load c <= load j) \/
     (c = 0 /\ forall j, 0 <= j < cpu_count -> ~ allowed (cpu_mask sd) j)).
Proof.
  destruct (get_best_cpu_spec cpu_count load (cpu_mask sd) ltac:(lia) Hcpus) as (r & Hr & Hb). unfold insert_work_cpu.
  assert (forall P : Prop, ~ P -> exists c, get_best_cpu cpu_count load (cpu_mask sd) = Return c /\ (P -> c = last_cpu sd) /\
    ((allowed (cpu_mask sd) c /\ 0 <= c < cpu_count /\ forall j, 0 <= j < cpu_count -> allowed (cpu_mask sd) j -> load c <= load j) \/
     (c = 0 /\ forall j, 0 <= j < cpu_count -> ~ allowed (cpu_mask sd) j))) as Hbest.
  { intros P HP. exists (default 0 r). split_and!; [done|done|]. destruct r as [c|]; simpl in *; [left; tauto|by right]. }
  destruct (Z.eqb_spec (last_cpu sd) usize_max) as [E|E].
  - destruct (Hbest (last_cpu sd <> usize_max) ltac:(tauto)) as (c & Hc & H1 & H2). exists c. split_and!; [done|by intros ? _; apply H1|by intros _].
  - destruct (mask_has_total (cpu_mask sd) (last_cpu sd)) as [ok Hok]; [lia|destruct Hlast; [done|lia]|]. rewrite Hok. cbn [obind].
    destruct ok; [exists (last_cpu sd); split_and!; [done|done|]; intros [?|[]]; done|].
    destruct (Hbest (allowed (cpu_mask sd) (last_cpu sd))) as (c & Hc & H1 & H2); [unfold allowed; congruence|].
    exists c. split_and!; [done|by intros _|by intros _].
Qed.

Definition demo_sched : SchedulerData := mkSD 0 0 0 None None None 5 (13 :: replicate 31 0) 0.
(** CPU 5 is no longer allowed; of 0, 2 and 3 the last has least to do. *)
Lemma insert_work_cpu_correct_witness : exists c, insert_work_cpu 4 (fun c => 100 - c) (Some demo_sched) = Return c /\ c = 3.
Proof.
  destruct (insert_work_cpu_correct 4 (fun c => 100 - c) demo_sched) as (c & Hc & _); [lia|reflexivity|right; vm_compute; split; congruence|].
  exists c. split; [exact Hc|]. vm_compute in Hc. congruence.
Defined.

(** A running task's scheduler data is in the run queue, not in its Work: reading the affinity of
    the current task, the only one allowed, gives all CPUs, and setting it to a valid mask panics. *)
Lemma running_data w q t : rq_inv w q -> running_task q = Some t -> w_data w (rt_id t) = None.
Proof. intros Hinv Ht. pose proof (acc_data _ _ _ Hinv) as Hd. rewrite Ht in Hd. by apply Forall_cons in Hd as [Hd _]. Qed.

Lemma setaffinity_panics cpu_count w q t size c : rq_inv w q -> running_task q = Some t -> 32 <= size ->
  any_cpu (take 32 c) (Z.to_nat cpu_count) 0 = Return true ->
  sys_sched_setaffinity cpu_count w (rt_id t) 0 size (Ok c) = Panic.
Proof.
  intros Hinv Ht Hs Ha. unfold sys_sched_setaffinity. change (Z.to_nat CPU_MASK_SIZE) with 32%nat. rewrite Ha.
  replace (CPU_MASK_SIZE >? size) with false by lia. cbn [negb Z.eqb obind].
  by rewrite (running_data w q t).
Qed.
