(* ===== verification/TmpFile.v ===== *)
(** * Regular files of the in-memory file system

    Models TmpFsReg of libkernel/src/fs/filesystems/tmpfs.rs on top of the frame allocator: a
    file is an indirect block, a page of pointers to the pages that hold its bytes.  A pointer
    is the frame it points to, [None] the null pointer; following a null pointer is a [Panic].
    The pages are ClaimedPages of libkernel/src/memory/claimed_page.rs. *)
From stdpp Require Import base list.
From S2P Require Import Prelude Error Address Region Phys PhysInv PhysInit MmapSys Blk Attr.
Local Open Scope Z_scope.

Notation BLOCK_SZ := PAGE_SIZE.
(** [PAGE_SIZE / size_of::<*mut u8>()] *)
Notation SLOTS := 512.
Notation MAX_SZ := (BLOCK_SZ * SLOTS).

Section TmpFile.
Context {L : Type} `{IntrusiveList L}.
Notation FA := (@FrameAllocatorInner L).

(** The frames and what is in them. *)
Record Pages := mkPages { pg_alloc : FA; pg_bytes : Z -> bytes }.

Definition set_page (m : Pages) (p : Z) (b : bytes) : Pages := mkPages (pg_alloc m) (fun q => if q =? p then b else pg_bytes m q).

Definition page_alloc_zeroed (m : Pages) : outcome (result Z * Pages) :=
  let! (r, al) := alloc_frames (pg_alloc m) 0 in
  match r with
  | Ok reg => let p := to_pfn (start_address reg) in
              Return (Ok p, set_page (mkPages al (pg_bytes m)) p (replicate (Z.to_nat PAGE_SIZE) 0))
  | Err e => Return (Err e, mkPages al (pg_bytes m))
  end.

Definition page_drop (m : Pages) (p : Z) : outcome Pages :=
  let! al := page_alloc_drop (pg_alloc m) (as_phys_range p) in Return (mkPages al (pg_bytes m)).

Record TmpFsRegInner := mkInner { indirect_block : Z; slots : list (option Z); reg_size : Z; allocated_blocks : Z }.

(** [*self.block_slot_ptr(block_idx)] *)
Definition block_slot (f : TmpFsRegInner) (block_idx : Z) : outcome (option Z) := unwrap (slots f !! Z.to_nat block_idx).
Definition set_slot (f : TmpFsRegInner) (block_idx : Z) (p : option Z) (n : Z) : outcome TmpFsRegInner :=
  assert! block_idx <? SLOTS;
  Return (mkInner (indirect_block f) (<[Z.to_nat block_idx := p]> (slots f)) (reg_size f) n).
(** The page that a read or write through [block_ptr_mut] goes to. *)
Definition block_page (f : TmpFsRegInner) (block_idx : Z) : outcome Z :=
  let! slot := block_slot f block_idx in unwrap slot.

(** [for i in self.allocated_blocks..=block_idx], with the [n] values that are left. *)
Fixpoint alloc_blocks (n : nat) (i : Z) (s : Pages * TmpFsRegInner) : outcome (result unit * (Pages * TmpFsRegInner)) :=
  match n with
  | O => Return (Ok tt, s)
  | S n =>
      let! (r, m) := page_alloc_zeroed s.1 in
      match r with
      | Err e => Return (Err e, (m, s.2))
      | Ok new_page =>
          let! f := set_slot s.2 i (Some new_page) (allocated_blocks s.2 + 1) in
          alloc_blocks n (i + 1) (m, f)
      end
  end.

Definition try_alloc_block (block_idx : Z) (s : Pages * TmpFsRegInner) : outcome (result Z * (Pages * TmpFsRegInner)) :=
  let a := allocated_blocks s.2 in
  let? (_u, s) := alloc_blocks (Z.to_nat (block_idx + 1 - a)) a s in
  let! p := block_page s.2 block_idx in
  Return (Ok p, s).

Record TmpFsReg := mkReg { reg_id : InodeId; reg_attr : FileAttr; reg_inner : TmpFsRegInner }.

Definition set_attr_size (a : FileAttr) (n : Z) : FileAttr :=
  mkAttr (attr_id a) n (attr_block_size a) (attr_blocks a) (atime a) (btime a) (mtime a) (ctime a) (file_type a)
    (permissions a) (nlinks a) (attr_uid a) (attr_gid a).

Definition reg_new (m : Pages) (id : InodeId) (perms : Z) : outcome (result TmpFsReg * Pages) :=
  let! (r, m) := page_alloc_zeroed m in
  match r with
  | Err e => Return (Err e, m)
  | Ok p =>
      let attr := mkAttr inode_dummy 0 (attr_block_size attr_default) (attr_blocks attr_default) (atime attr_default)
        (btime attr_default) (mtime attr_default) (ctime attr_default) File perms 1 (attr_uid attr_default) (attr_gid attr_default) in
      Return (Ok (mkReg id attr (mkInner p (replicate (Z.to_nat SLOTS) None) 0 0)), m)
  end.

Notation offset_to_block_locus offset := ((offset / BLOCK_SZ, offset mod BLOCK_SZ)) (only parsing).

(** [while bytes_to_read > 0]; gives the bytes read. *)
Fixpoint read_loop (fuel : nat) (m : Pages) (f : TmpFsRegInner) (offset bytes_to_read : Z) (acc : bytes) : outcome bytes :=
  if bytes_to_read <=? 0 then Return acc
  else match fuel with
  | O => OutOfFuel
  | S fuel =>
      let '(blk_idx, blk_offset) := offset_to_block_locus offset in
      if blk_idx >=? allocated_blocks f then Return acc
      else
        let chunk_len := Z.min bytes_to_read (BLOCK_SZ - blk_offset) in
        let! p := block_page f blk_idx in
        read_loop fuel m f (uadd offset chunk_len) (bytes_to_read - chunk_len) (acc ++ slice (pg_bytes m p) blk_offset chunk_len)
  end.

Definition reg_read_at (m : Pages) (r : TmpFsReg) (offset len : Z) : outcome (result bytes) :=
  let f := reg_inner r in
  if offset >=? reg_size f then Return (Ok [])
  else
    let bytes_to_read := Z.min (reg_size f - offset) len in
    let! b := read_loop (Z.to_nat bytes_to_read) m f offset bytes_to_read [] in
    Return (Ok b).

(** [while bytes_to_write > 0], for the bytes [buf] still to be written. *)
Fixpoint write_loop (fuel : nat) (s : Pages * TmpFsRegInner) (offset : Z) (buf : bytes) : outcome (result Z * (Pages * TmpFsRegInner)) :=
  if zlen buf =? 0 then Return (Ok offset, s)
  else match fuel with
  | O => OutOfFuel
  | S fuel =>
      let '(blk_idx, blk_offset) := offset_to_block_locus offset in
      let? (p, s) := try_alloc_block blk_idx s in
      let chunk_len := Z.min (zlen buf) (BLOCK_SZ - blk_offset) in
      let m := set_page s.1 p (patch (pg_bytes s.1 p) blk_offset (take (Z.to_nat chunk_len) buf)) in
      write_loop fuel (m, s.2) (uadd offset chunk_len) (drop (Z.to_nat chunk_len) buf)
  end.

Definition reg_write_at (s : Pages * TmpFsReg) (offset : Z) (buf : bytes) : outcome (result Z * (Pages * TmpFsReg)) :=
  let (m, r) := s in
  if offset >=? MAX_SZ then Return (Err (Fs OutOfBounds), s)
  else
    let available_space := saturating_sub MAX_SZ offset in
    let buf := take (Z.to_nat available_space) buf in
    if zlen buf =? 0 then Return (Ok 0, s)
    else
      let! (res, (m, f)) := write_loop (length buf) (m, reg_inner r) offset buf in
      match res with
      | Err e => Return (Err e, (m, mkReg (reg_id r) (reg_attr r) f))
      | Ok offset =>
          let f := if offset >? reg_size f then mkInner (indirect_block f) (slots f) offset (allocated_blocks f) else f in
          Return (Ok (zlen buf), (m, mkReg (reg_id r) (set_attr_size (reg_attr r) (reg_size f)) f))
      end.

(** [while inner.allocated_blocks > new_blk_count] *)
Fixpoint release_blocks (fuel : nat) (s : Pages * TmpFsRegInner) (new_blk_count : Z) : outcome (Pages * TmpFsRegInner) :=
  let (m, f) := s in
  if negb (allocated_blocks f >? new_blk_count) then Return s
  else match fuel with
  | O => OutOfFuel
  | S fuel =>
      let release_idx := allocated_blocks f - 1 in
      let! ptr := block_slot f release_idx in
      let! (m, f) :=
        match ptr with
        | Some p => let! m := page_drop m p in let! f := set_slot f release_idx None (allocated_blocks f) in Return (m, f)
        | None => Return (m, f)
        end in
      release_blocks fuel (m, mkInner (indirect_block f) (slots f) (reg_size f) (allocated_blocks f - 1)) new_blk_count
  end.

Definition reg_truncate (s : Pages * TmpFsReg) (new_size : Z) : outcome (result unit * (Pages * TmpFsReg)) :=
  let (m, r) := s in
  let f := reg_inner r in
  if new_size >? MAX_SZ then Return (Err (Fs OutOfBounds), s)
  else if new_size >? reg_size f then
    Return (Ok tt, (m, mkReg (reg_id r) (set_attr_size (reg_attr r) new_size) (mkInner (indirect_block f) (slots f) new_size (allocated_blocks f))))
  else
    let! (m, f) :=
      if new_size <? reg_size f then
        let new_blk_count := div_ceil new_size BLOCK_SZ in
        let! (m, f) := release_blocks (Z.to_nat (allocated_blocks f)) (m, f) new_blk_count in
        let! m :=
          if new_blk_count >? 0 then
            let last_blk_idx := new_blk_count - 1 in
            let offset_in_block := new_size mod BLOCK_SZ in
            if offset_in_block >? 0 then
              let! p := block_page f last_blk_idx in
              Return (set_page m p (patch (pg_bytes m p) offset_in_block (replicate (Z.to_nat (BLOCK_SZ - offset_in_block)) 0)))
            else Return m
          else Return m in
        Return (m, mkInner (indirect_block f) (slots f) new_size (allocated_blocks f))
      else Return (m, f) in
    Return (Ok tt, (m, mkReg (reg_id r) (set_attr_size (reg_attr r) (reg_size f)) f)).

Definition reg_setattr (r : TmpFsReg) (attr : FileAttr) : TmpFsReg :=
  let f := reg_inner r in
  mkReg (reg_id r) attr (mkInner (indirect_block f) (slots f) (attr_size attr) (allocated_blocks f)).

(** The loop of [drop] over the slots [i, ..., i + n - 1]. *)
Fixpoint drop_blocks (n : nat) (i : Z) (m : Pages) (f : TmpFsRegInner) : outcome Pages :=
  match n with
  | O => Return m
  | S n =>
      let! ptr := block_slot f i in
      let! m := match ptr with Some p => page_drop m p | None => Return m end in
      drop_blocks n (i + 1) m f
  end.

(** Dropping the file: its blocks, then the indirect block. *)
Definition reg_drop (m : Pages) (r : TmpFsReg) : outcome Pages :=
  let f := reg_inner r in
  let! m := drop_blocks (Z.to_nat (allocated_blocks f)) 0 m f in
  page_drop m (indirect_block f).
End TmpFile.
Arguments Pages : clear implicits.

(** * Correctness *)

Section TmpFileCorrect.
Context {L : Type} `{IntrusiveListLaws L}.
Implicit Types (m : Pages L) (f : TmpFsRegInner).

(** ** The invariant *)

Definition mine f (q : Z) : Prop := q = indirect_block f \/ exists i, slots f !! i = Some (Some q).

(** The blocks in use are the first ones; each has a page of its own. *)
Record file_inv m f : Prop := {
  fv_wf : wf (pg_alloc m);
  fv_len : length (slots f) = 512%nat;
  fv_alloc : 0 <= allocated_blocks f <= 512;
  fv_used : forall i, Z.of_nat i < allocated_blocks f -> exists p, slots f !! i = Some (Some p);
  fv_unused : forall i p, slots f !! i = Some (Some p) -> Z.of_nat i < allocated_blocks f;
  fv_inj : forall i j p, slots f !! i = Some (Some p) -> slots f !! j = Some (Some p) -> i = j;
  fv_indirect : forall i, slots f !! i <> Some (Some (indirect_block f));
  fv_held : forall q, mine f q -> 0 < held (pg_alloc m) q;
  fv_full : forall i p, slots f !! i = Some (Some p) -> length (pg_bytes m p) = Z.to_nat PAGE_SIZE
}.

(** The byte at a position; where there is no block, 0. *)
Definition cell m f (x : Z) : Z :=
  match slots f !! Z.to_nat (x / BLOCK_SZ) with
  | Some (Some p) => default 0 (pg_bytes m p !! Z.to_nat (x mod BLOCK_SZ))
  | _ => 0
  end.

(** Nothing happens to the pages of others. *)
Definition foreign m f (q : Z) : Prop := 0 < held (pg_alloc m) q /\ ~ mine f q.
(** The file's own reference to a frame. *)
Definition own f (q : Z) : Z := if decide (q ∈ indirect_block f :: omap id (slots f)) then 1 else 0.
(** ... and every reference taken or given up is the file's own. *)
Definition spares m f m' f' : Prop :=
  (forall q, foreign m f q -> foreign m' f' q /\ pg_bytes m' q = pg_bytes m q) /\
  (forall q, held (pg_alloc m') q - own f' q = held (pg_alloc m) q - own f q).

Lemma own_mine f q : q ∈ indirect_block f :: omap id (slots f) <-> mine f q.
Proof.
  rewrite elem_of_cons, list_elem_of_omap. unfold mine. split; intros [->|Hq]; [by left|right|by left|right].
  - destruct Hq as (o & Ho & Eo). apply list_elem_of_lookup in Ho as [i Hi]. exists i. by rewrite Hi, <- Eo.
  - destruct Hq as (i & Hi). exists (Some q). split; [|done]. by eapply list_elem_of_lookup_2.
Qed.
Lemma own_yes f q : mine f q -> own f q = 1.
Proof. intros Hq. unfold own. by rewrite decide_True by (by apply own_mine). Qed.
Lemma own_no f q : ~ mine f q -> own f q = 0.
Proof. intros Hq. unfold own. by rewrite decide_False by (by rewrite own_mine). Qed.
Lemma own_ext f f' q : (mine f' q <-> mine f q) -> own f' q = own f q.
Proof. intros Hq. rewrite <- !own_mine in Hq. unfold own. by apply decide_ext. Qed.

Lemma spares_refl m f : spares m f m f.
Proof. done. Qed.
Lemma spares_trans m f m1 f1 m2 f2 : spares m f m1 f1 -> spares m1 f1 m2 f2 -> spares m f m2 f2.
Proof.
  intros [S1 O1] [S2 O2]. split; [|intros q; by rewrite O2, O1]. intros q (F1 & E1)%S1. destruct (S2 q F1) as (F2 & E2). split; [done|congruence].
Qed.

Lemma page_alloc_zeroed_spec m : wf (pg_alloc m) ->
  exists r m', page_alloc_zeroed m = Return (r, m') /\ wf (pg_alloc m') /\
    match r with
    | Ok p => held (pg_alloc m) p = 0 /\ (forall q, held (pg_alloc m') q = held (pg_alloc m) q + if decide (q = p) then 1 else 0) /\
        pg_bytes m' p = replicate (Z.to_nat PAGE_SIZE) 0 /\ (forall q, q <> p -> pg_bytes m' q = pg_bytes m q)
    | Err e => e = NoMemory /\ m' = m
    end.
Proof.
  intros W. unfold page_alloc_zeroed. destruct (alloc_held (pg_alloc m) W) as (r & al' & -> & W' & P). ostep.
  destruct r as [reg|e]; [|destruct P as [-> ->]; eexists _, _; split; [done|]; by destruct m].
  destruct P as (b & -> & Hb & Hh). eexists _, _. split; [done|]. split; [done|]. split; [done|]. split; [done|]. simpl.
  split; [by rewrite Z.eqb_refl|]. intros q Hq. by rewrite (proj2 (Z.eqb_neq q b)).
Qed.

Lemma page_drop_spec m p : wf (pg_alloc m) -> 0 < held (pg_alloc m) p ->
  exists m', page_drop m p = Return m' /\ wf (pg_alloc m') /\ pg_bytes m' = pg_bytes m /\
    forall q, held (pg_alloc m') q = held (pg_alloc m) q - if decide (q = p) then 1 else 0.
Proof.
  intros W Hp. unfold page_drop. destruct (drop_held (pg_alloc m) p W Hp) as (al' & -> & W' & Hh). ostep.
  eexists. split; [done|]. done.
Qed.

(** ** Allocation *)

(** One more block: the next slot gets a zeroed page. *)
Lemma alloc_one m f p m' : file_inv m f -> allocated_blocks f < 512 -> page_alloc_zeroed m = Return (Ok p, m') ->
  exists f', set_slot f (allocated_blocks f) (Some p) (allocated_blocks f + 1) = Return f' /\ file_inv m' f' /\
    (forall x, 0 <= x -> cell m' f' x = cell m f x) /\ spares m f m' f' /\
    allocated_blocks f' = allocated_blocks f + 1 /\ reg_size f' = reg_size f /\ indirect_block f' = indirect_block f.
Proof.
  intros [Vwf Vlen Valloc Vused Vunused Vinj Vind Vheld Vfull] Hlt E.
  destruct (page_alloc_zeroed_spec m Vwf) as (r & m1 & E1 & W1 & P). rewrite E in E1. injection E1 as <- <-.
  destruct P as (Hp0 & Hh & Hz & Hk). unfold set_slot. rewrite (proj2 (Z.ltb_lt _ SLOTS) Hlt). ostep.
  eexists. split; [done|]. set (a := allocated_blocks f) in *.
  assert (Hnm : ~ mine f p) by (intros Hm; specialize (Vheld p Hm); lia).
  assert (Hlk : forall i, <[Z.to_nat a := Some p]> (slots f) !! i = if decide (i = Z.to_nat a) then Some (Some p) else slots f !! i).
  { intros i. case_decide as Hi; [subst i; apply list_lookup_insert_eq; lia|by apply list_lookup_insert_ne]. }
  assert (Hnone : forall q, slots f !! Z.to_nat a <> Some (Some q)).
  { intros q Hq. specialize (Vunused _ _ Hq). lia. }
  split_and!; try done.
  - split; simpl; try done.
    + by rewrite length_insert.
    + lia.
    + intros i Hi. rewrite Hlk. case_decide; [eauto|]. apply Vused. lia.
    + intros i q. rewrite Hlk. case_decide as Hi; [subst; lia|]. intros Hq%Vunused. lia.
    + intros i j q. rewrite !Hlk. repeat case_decide; subst; try done; [| |by apply Vinj];
        intros ? ?; simplify_eq; exfalso; apply Hnm; right; eauto.
    + intros i. rewrite Hlk. case_decide; [|done]. intros [= ->]. apply Hnm. by left.
    + intros q Hq. rewrite Hh. destruct (decide (q = p)) as [->|Hne]; [lia|]. rewrite Z.add_0_r. apply Vheld.
      destruct Hq as [->|(i & Hi)]; [by left|]. simpl in Hi. rewrite Hlk in Hi. case_decide; [congruence|]. right; eauto.
    + intros i q. rewrite Hlk. case_decide; [intros [= <-]; rewrite Hz; by rewrite length_replicate|].
      intros Hq. rewrite Hk; [by eapply Vfull|]. intros ->. apply Hnm. right; eauto.
  - intros x Hx. unfold cell. simpl. rewrite Hlk. case_decide as Hi.
    + rewrite Hi, Hz. destruct (slots f !! Z.to_nat a) as [[q|]|] eqn:Eq; [by destruct (Hnone q)|..];
        by destruct (replicate _ 0 !! _) eqn:Er; [apply lookup_replicate_1 in Er as [-> _]|].
    + destruct (slots f !! Z.to_nat (x / BLOCK_SZ)) as [[q|]|] eqn:Eq; try done. rewrite Hk; [done|].
      intros ->. apply Hnm. right; eauto.
  - split.
    + intros q [Hq Hn]. assert (q <> p) as Hne by (intros ->; lia). rewrite Hk by done.
      split; [|done]. split; [rewrite Hh, decide_False by done; lia|]. intros [->|(i & Hi)]; [by apply Hn; left|].
      simpl in Hi. rewrite Hlk in Hi. case_decide; [congruence|]. apply Hn. right; eauto.
    + intros q. rewrite Hh. destruct (decide (q = p)) as [->|Hne].
      * rewrite (own_no f p) by done. rewrite own_yes; [lia|]. right. exists (Z.to_nat a). simpl. by rewrite Hlk, decide_True.
      * rewrite (own_ext f); [lia|]. unfold mine. simpl. split; (intros [->|(i & Hi)]; [by left|right; exists i]); revert Hi; rewrite Hlk;
          case_decide; subst; try done; [by intros [= ->]|by intros ?%Hnone].
Qed.

Lemma alloc_blocks_spec n : forall m f, file_inv m f -> allocated_blocks f + Z.of_nat n <= 512 ->
  exists r m' f', alloc_blocks n (allocated_blocks f) (m, f) = Return (r, (m', f')) /\ file_inv m' f' /\
    (forall x, 0 <= x -> cell m' f' x = cell m f x) /\ spares m f m' f' /\
    reg_size f' = reg_size f /\ indirect_block f' = indirect_block f /\ allocated_blocks f <= allocated_blocks f' /\
    match r with Ok _ => allocated_blocks f' = allocated_blocks f + Z.of_nat n | Err e => e = NoMemory end.
Proof.
  induction n as [|n IH]; intros m f V Hn; cbn [alloc_blocks].
  { eexists _, m, f. split; [done|]. split_and!; try done; lia. }
  cbn [fst snd]. destruct (page_alloc_zeroed_spec m (fv_wf m f V)) as (r & m1 & E & _ & P). rewrite E. ostep.
  destruct r as [p|e].
  2: { destruct P as [-> ->]. eexists _, m, f. split; [done|]. split_and!; try done. }
  destruct (alloc_one m f p m1 V ltac:(lia) E) as (f1 & -> & V1 & C1 & S1 & A1 & Z1 & I1). ostep. rewrite <- A1.
  destruct (IH m1 f1 V1 ltac:(lia)) as (r & m2 & f2 & -> & V2 & C2 & S2 & Z2 & I2 & A2 & R2).
  eexists _, m2, f2. split; [done|]. split_and!; try done; try lia; try congruence.
  - intros x Hx. rewrite C2, C1; done.
  - by eapply spares_trans.
  - destruct r; [lia|done].
Qed.

Lemma try_alloc_block_spec m f b : file_inv m f -> 0 <= b < 512 ->
  exists r m' f', try_alloc_block b (m, f) = Return (r, (m', f')) /\ file_inv m' f' /\
    (forall x, 0 <= x -> cell m' f' x = cell m f x) /\ spares m f m' f' /\
    reg_size f' = reg_size f /\ indirect_block f' = indirect_block f /\ allocated_blocks f <= allocated_blocks f' /\
    match r with Ok p => b < allocated_blocks f' /\ slots f' !! Z.to_nat b = Some (Some p) | Err e => e = NoMemory end.
Proof.
  intros V Hb. unfold try_alloc_block. cbn [snd]. pose proof (fv_alloc m f V) as Ha.
  destruct (alloc_blocks_spec (Z.to_nat (b + 1 - allocated_blocks f)) m f V) as (r & m1 & f1 & -> & V1 & C1 & S1 & Z1 & I1 & A1 & R1); [lia|].
  destruct r as [u|e]; cbn [tbind]; [|by eexists _, m1, f1].
  destruct (fv_used m1 f1 V1 (Z.to_nat b)) as [p Hp]; [lia|]. unfold block_page, block_slot. cbn [snd]. rewrite Hp. ostep.
  eexists _, m1, f1. split; [done|]. split_and!; try done; lia.
Qed.
(** ** Writing *)

(** A page of the file gets other bytes: only its block changes. *)
Lemma set_page_inv m f i p b : file_inv m f -> slots f !! i = Some (Some p) -> length b = Z.to_nat PAGE_SIZE ->
  file_inv (set_page m p b) f /\ spares m f (set_page m p b) f /\
  forall x, 0 <= x -> cell (set_page m p b) f x = if decide (Z.to_nat (x / BLOCK_SZ) = i) then default 0 (b !! Z.to_nat (x mod BLOCK_SZ)) else cell m f x.
Proof.
  intros V Hi Hb. pose proof V as [Vwf Vlen Valloc Vused Vunused Vinj Vind Vheld Vfull]. split_and!.
  - split; try done. intros j q Hj. simpl. destruct (Z.eqb_spec q p); [done|]. by eapply Vfull.
  - split; [|done]. intros q [Hq Hn]. split; [done|]. simpl. destruct (Z.eqb_spec q p) as [->|]; [|done]. destruct Hn. right; eauto.
  - intros x Hx. unfold cell. simpl. case_decide as Hd; [by rewrite Hd, Hi, Z.eqb_refl|].
    destruct (slots f !! Z.to_nat (x / BLOCK_SZ)) as [[q|]|] eqn:E; try done.
    destruct (Z.eqb_spec q p) as [->|]; [|done]. by destruct Hd; eapply Vinj.
Qed.

Lemma locus_block x y : 0 <= x -> 0 <= y -> Z.to_nat (x / BLOCK_SZ) = Z.to_nat (y / BLOCK_SZ) <-> x / BLOCK_SZ = y / BLOCK_SZ.
Proof. intros Hx Hy. pose proof (Z.div_pos x BLOCK_SZ Hx ltac:(done)). pose proof (Z.div_pos y BLOCK_SZ Hy ltac:(done)). lia. Qed.

(** A chunk written inside the block of [off]. *)
Lemma write_chunk m f p off c : file_inv m f -> 0 <= off -> slots f !! Z.to_nat (off / BLOCK_SZ) = Some (Some p) ->
  off mod BLOCK_SZ + zlen c <= BLOCK_SZ ->
  let m' := set_page m p (patch (pg_bytes m p) (off mod BLOCK_SZ) c) in
  file_inv m' f /\ spares m f m' f /\
  forall x, 0 <= x -> cell m' f x = if decide (off <= x < off + zlen c) then default 0 (c !! Z.to_nat (x - off)) else cell m f x.
Proof.
  intros V Hoff Hp Hc. pose proof (Z.mod_pos_bound off BLOCK_SZ ltac:(done)) as Hm. pose proof (fv_full m f V _ _ Hp) as Hl.
  assert (Hz : zlen (pg_bytes m p) = BLOCK_SZ) by (unfold zlen; rewrite Hl; unfold PAGE_SIZE; lia).
  assert (length (patch (pg_bytes m p) (off mod BLOCK_SZ) c) = Z.to_nat PAGE_SIZE) as Hlen.
  { unfold patch. rewrite !length_app, length_take, length_drop. unfold zlen in *. lia. }
  destruct (set_page_inv m f _ p _ V Hp Hlen) as (V' & S' & C'). split_and!; [done|done|]. intros x Hx. rewrite C' by done.
  pose proof (Z.mod_pos_bound x BLOCK_SZ ltac:(done)) as Hmx. pose proof (zlen_nonneg c).
  pose proof (Z.div_mod x BLOCK_SZ ltac:(done)) as Dx. pose proof (Z.div_mod off BLOCK_SZ ltac:(done)) as Do.
  case_decide as Hd.
  - apply locus_block in Hd; [|done|done]. rewrite lookup_patch by lia. rewrite Z2Nat.id by lia. rewrite Hd in Dx.
    repeat case_decide; try lia.
    + do 2 f_equal. lia.
    + unfold cell. rewrite Hd, Hp. done.
  - rewrite decide_False; [done|]. intros Hin. apply Hd. apply locus_block; [done|done|]. unfold PAGE_SIZE in *.
    assert (x / 4096 = off / 4096); [|done]. clear C' V' S'. nia.
Qed.

Lemma take_drop_default (buf : bytes) n i : 0 <= n <= zlen buf -> 0 <= i ->
  default 0 (buf !! Z.to_nat i) = if decide (i < n) then default 0 (take (Z.to_nat n) buf !! Z.to_nat i) else default 0 (drop (Z.to_nat n) buf !! Z.to_nat (i - n)).
Proof.
  intros Hn Hi. case_decide.
  - by rewrite lookup_take_lt by lia.
  - rewrite lookup_drop. do 2 f_equal. lia.
Qed.

Lemma write_loop_spec fuel : forall m f off buf, file_inv m f -> 0 <= off -> off + zlen buf <= MAX_SZ -> (length buf <= fuel)%nat ->
  exists r m' f', write_loop fuel (m, f) off buf = Return (r, (m', f')) /\ file_inv m' f' /\ spares m f m' f' /\
    reg_size f' = reg_size f /\ indirect_block f' = indirect_block f /\ allocated_blocks f <= allocated_blocks f' /\
    match r with
    | Ok o => o = off + zlen buf /\ (buf <> [] -> off + zlen buf <= allocated_blocks f' * BLOCK_SZ) /\
        forall x, 0 <= x -> cell m' f' x = if decide (off <= x < off + zlen buf) then default 0 (buf !! Z.to_nat (x - off)) else cell m f x
    | Err e => e = NoMemory /\ forall x, 0 <= x -> ~ off <= x < off + zlen buf -> cell m' f' x = cell m f x
    end.
Proof.
  induction fuel as [|fuel IH]; intros m f off buf V Hoff Hmax Hf; cbn [write_loop]; pose proof (zlen_nonneg buf).
  all: destruct (Z.eqb_spec (zlen buf) 0) as [E0|E0].
  all: try (destruct buf; [clear E0; exists (Ok off), m, f; split; [done|]; change (zlen (@nil Z)) with 0; rewrite Z.add_0_r;
    split_and!; try done; intros x Hx; by rewrite decide_False by lia|discriminate E0]).
  { unfold zlen in E0. lia. }
  pose proof (Z.mod_pos_bound off BLOCK_SZ ltac:(done)) as Hm. pose proof (Z.div_mod off BLOCK_SZ ltac:(done)) as Do.
  destruct (try_alloc_block_spec m f (off / BLOCK_SZ) V) as (r & m1 & f1 & -> & V1 & C1 & S1 & Z1 & I1 & A1 & R1).
  { unfold PAGE_SIZE in *. split; [apply Z.div_pos; lia|]. apply Z.div_lt_upper_bound; lia. }
  destruct r as [p|e]; cbn [tbind].
  2: { subst e. eexists _, m1, f1. split; [done|]. split_and!; try done. intros x Hx _. by apply C1. }
  destruct R1 as [R1 Hp]. cbn [fst snd]. set (cl := Z.min (zlen buf) (BLOCK_SZ - off mod BLOCK_SZ)).
  assert (Hcl : 0 < cl <= zlen buf) by lia.
  assert (Hct : zlen (take (Z.to_nat cl) buf) = cl) by (unfold zlen in *; rewrite length_take; lia).
  assert (Hcd : zlen (drop (Z.to_nat cl) buf) = zlen buf - cl) by (unfold zlen in *; rewrite length_drop; lia).
  destruct (write_chunk m1 f1 p off (take (Z.to_nat cl) buf) V1 Hoff Hp ltac:(lia)) as (V2 & S2 & C2).
  rewrite uadd_small by (unfold PAGE_SIZE in *; lia).
  destruct (IH _ f1 (off + cl) (drop (Z.to_nat cl) buf) V2 ltac:(lia) ltac:(lia)) as (r & m3 & f3 & -> & V3 & S3 & Z3 & I3 & A3 & R3).
  { unfold zlen in *. rewrite length_drop. lia. }
  exists r, m3, f3. split; [done|]. split_and!; try done; try congruence; try lia.
  { eapply spares_trans; [exact S1|]. eapply spares_trans; [exact S2|exact S3]. }
  rewrite Hcd in R3. destruct r as [o|e].
  - destruct R3 as (-> & B3 & C3). split; [lia|]. split.
    + intros _. destruct (decide (drop (Z.to_nat cl) buf = [])) as [Hd|Hd]; [|specialize (B3 Hd); lia].
      rewrite Hd in Hcd. unfold zlen in Hcd at 1. simpl in Hcd. unfold PAGE_SIZE in *. lia.
    + intros x Hx. rewrite C3, C2, C1, Hct by done. repeat case_decide; try lia; try done.
      * rewrite (take_drop_default buf cl) by lia. rewrite decide_False by lia. do 2 f_equal. lia.
      * rewrite (take_drop_default buf cl) by lia. by rewrite decide_True by lia.
  - destruct R3 as (-> & C3). split; [done|]. intros x Hx Hn. rewrite C3, C2, C1, Hct by (done || lia). by rewrite decide_False by lia.
Qed.
(** ** The file as a list of bytes *)

Definition content m f : bytes := map (cell m f) (seqZ 0 (reg_size f)).

Lemma content_lookup m f i : content m f !! i = if decide (Z.of_nat i < reg_size f) then Some (cell m f (Z.of_nat i)) else None.
Proof.
  unfold content. rewrite list_lookup_fmap. case_decide as Hi; [rewrite lookup_seqZ_lt by lia; simpl; do 2 f_equal; lia|].
  by rewrite lookup_seqZ_ge by lia.
Qed.
Lemma content_zlen m f : 0 <= reg_size f -> zlen (content m f) = reg_size f.
Proof. intros Hs. unfold zlen, content. rewrite length_map, length_seqZ. lia. Qed.

(** What holds of a file besides its blocks: the sizes agree, every byte below the size has a
    block, and beyond the size the blocks are zero. *)
Record reg_ok m (r : TmpFsReg) : Prop := {
  ro_inv : file_inv m (reg_inner r);
  ro_size : 0 <= reg_size (reg_inner r) <= MAX_SZ;
  ro_attr : attr_size (reg_attr r) = reg_size (reg_inner r);
  ro_dense : reg_size (reg_inner r) <= allocated_blocks (reg_inner r) * BLOCK_SZ;
  ro_tail : forall x, reg_size (reg_inner r) <= x -> cell m (reg_inner r) x = 0
}.

(** ** Reading *)

Lemma block_page_slot f i p : slots f !! Z.to_nat i = Some (Some p) -> block_page f i = Return p.
Proof. intros Hp. unfold block_page, block_slot. by rewrite Hp. Qed.

Lemma chunk_cells m f p off c : file_inv m f -> 0 <= off -> slots f !! Z.to_nat (off / BLOCK_SZ) = Some (Some p) ->
  0 <= c -> off mod BLOCK_SZ + c <= BLOCK_SZ -> slice (pg_bytes m p) (off mod BLOCK_SZ) c = map (cell m f) (seqZ off c).
Proof.
  intros V Hoff Hp Hc0 Hc. pose proof (Z.mod_pos_bound off BLOCK_SZ ltac:(done)) as Hm. pose proof (fv_full m f V _ _ Hp) as Hl.
  apply list_eq. intros i. rewrite lookup_slice, list_lookup_fmap. case_decide as Hi; [|by rewrite lookup_seqZ_ge by lia].
  rewrite lookup_seqZ_lt by lia. cbn [fmap option_fmap option_map].
  assert ((off + Z.of_nat i) / BLOCK_SZ = off / BLOCK_SZ /\ (off + Z.of_nat i) mod BLOCK_SZ = off mod BLOCK_SZ + Z.of_nat i) as [E1 E2].
  { unfold PAGE_SIZE in *. Z.to_euclidean_division_equations. lia. }
  unfold cell. rewrite E1, E2, Hp. rewrite Z2Nat.inj_add, Nat2Z.id by lia.
  destruct (lookup_lt_is_Some_2 (pg_bytes m p) (Z.to_nat (off mod BLOCK_SZ) + i)) as [b Hb]; [rewrite Hl; unfold PAGE_SIZE in *; lia|].
  by rewrite Hb.
Qed.

Lemma read_loop_spec m f fuel : forall off n acc, file_inv m f -> 0 <= off -> 0 <= n -> off + n <= allocated_blocks f * BLOCK_SZ ->
  (Z.to_nat n <= fuel)%nat -> read_loop fuel m f off n acc = Return (acc ++ map (cell m f) (seqZ off n)).
Proof.
  induction fuel as [|fuel IH]; intros off n acc V Hoff Hn Ha Hf; cbn [read_loop].
  all: destruct (Z.leb_spec n 0) as [E0|E0]; [assert (n = 0) as -> by lia; simpl; by rewrite app_nil_r|try lia].
  pose proof (Z.mod_pos_bound off BLOCK_SZ ltac:(done)) as Hm. pose proof (Z.div_mod off BLOCK_SZ ltac:(done)) as Do.
  pose proof (fv_alloc m f V) as Hal.
  assert (Hb : 0 <= off / BLOCK_SZ < allocated_blocks f).
  { unfold PAGE_SIZE in *. split; [apply Z.div_pos; lia|]. apply Z.div_lt_upper_bound; lia. }
  replace (off / BLOCK_SZ >=? allocated_blocks f) with false by lia.
  destruct (fv_used m f V (Z.to_nat (off / BLOCK_SZ))) as [p Hp]; [lia|]. rewrite (block_page_slot _ _ _ Hp). ostep.
  set (c := Z.min n (BLOCK_SZ - off mod BLOCK_SZ)). rewrite uadd_small by (unfold PAGE_SIZE in *; lia).
  rewrite IH by (done || lia). rewrite (chunk_cells m f p) by (done || lia). rewrite <- app_assoc, <- map_app, <- seqZ_app by lia.
  do 4 f_equal. lia.
Qed.

Lemma reg_read_at_spec m r off n : reg_ok m r -> 0 <= off -> 0 <= n ->
  reg_read_at m r off n = Return (Ok (slice (content m (reg_inner r)) off n)).
Proof.
  intros [V Hs _ Hd _] Hoff Hn. unfold reg_read_at. set (f := reg_inner r) in *.
  assert (Hl : length (content m f) = Z.to_nat (reg_size f)) by (pose proof (content_zlen m f); unfold zlen in *; lia).
  destruct (off >=? reg_size f) eqn:E; breflect.
  - unfold slice. by rewrite drop_ge, take_nil by lia.
  - rewrite read_loop_spec by (done || lia). ostep. simpl. do 2 f_equal. apply list_eq. intros i.
    rewrite lookup_slice, list_lookup_fmap, content_lookup. repeat case_decide; rewrite ?lookup_seqZ_lt, ?lookup_seqZ_ge by lia; try done.
    simpl. do 2 f_equal. lia.
Qed.

(** ** Writing at an offset *)

Definition spec_write (l : bytes) (off : Z) (buf : bytes) : bytes :=
  if zlen buf =? 0 then l
  else take (Z.to_nat off) (l ++ replicate (Z.to_nat (off - zlen l)) 0) ++ buf ++ drop (Z.to_nat off + length buf) l.

Lemma spec_write_lookup l off buf i : 0 <= off -> 0 < zlen buf ->
  spec_write l off buf !! i =
  if decide (Z.of_nat i < Z.max (zlen l) (off + zlen buf)) then
    Some (if decide (off <= Z.of_nat i < off + zlen buf) then default 0 (buf !! (i - Z.to_nat off)%nat) else default 0 (l !! i))
  else None.
Proof.
  intros Hoff Hb. unfold spec_write. replace (zlen buf =? 0) with false by lia. unfold zlen in *.
  set (pre := take _ _). assert (Hpre : length pre = Z.to_nat off).
  { unfold pre. rewrite length_take, length_app, length_replicate. lia. }
  destruct (decide (Z.of_nat i < off)) as [H1|H1].
  - rewrite lookup_app_l by lia. rewrite decide_True, decide_False by lia. unfold pre. rewrite lookup_take_lt by lia.
    destruct (decide (i < length l)%nat).
    + rewrite lookup_app_l by done. destruct (lookup_lt_is_Some_2 l i) as [x ->]; done.
    + rewrite lookup_app_r by lia. rewrite lookup_replicate_2 by lia. by rewrite (lookup_ge_None_2 l i) by lia.
  - rewrite lookup_app_r, Hpre by lia. destruct (decide (Z.of_nat i < off + Z.of_nat (length buf))) as [H2|H2].
    + rewrite lookup_app_l by lia. rewrite !decide_True by lia. destruct (lookup_lt_is_Some_2 buf (i - Z.to_nat off)) as [x ->]; [lia|done].
    + rewrite lookup_app_r, lookup_drop by lia. replace (Z.to_nat off + length buf + (i - Z.to_nat off - length buf))%nat with i by lia.
      rewrite (decide_False (P := off <= Z.of_nat i < _)) by lia. case_decide.
      * destruct (lookup_lt_is_Some_2 l i) as [x ->]; [lia|done].
      * apply lookup_ge_None_2. lia.
Qed.

Definition clipped (off : Z) (buf : bytes) : bytes := take (Z.to_nat (MAX_SZ - off)) buf.

Lemma reg_write_at_spec m r off buf : reg_ok m r -> 0 <= off < MAX_SZ ->
  exists res m' r', reg_write_at (m, r) off buf = Return (res, (m', r')) /\ spares m (reg_inner r) m' (reg_inner r') /\
    match res with
    | Ok n => n = zlen (clipped off buf) /\ reg_ok m' r' /\
        content m' (reg_inner r') = spec_write (content m (reg_inner r)) off (clipped off buf)
    | Err e => e = NoMemory /\ file_inv m' (reg_inner r') /\ reg_size (reg_inner r') = reg_size (reg_inner r) /\
        forall x, 0 <= x -> ~ off <= x < off + zlen buf -> cell m' (reg_inner r') x = cell m (reg_inner r) x
    end.
Proof.
  intros R Hoff. pose proof R as [V Hs Ha Hd Ht]. set (f := reg_inner r) in *. unfold reg_write_at. replace (off >=? MAX_SZ) with false by lia.
  rewrite saturating_sub_ge by lia. fold f (clipped off buf).
  assert (Hcb : zlen (clipped off buf) <= zlen buf /\ off + zlen (clipped off buf) <= MAX_SZ) by (unfold zlen, clipped; rewrite length_take; lia).
  destruct (Z.eqb_spec (zlen (clipped off buf)) 0) as [E0|E0].
  { exists (Ok 0), m, r. split; [done|]. split; [apply spares_refl|]. split; [done|]. split; [done|]. unfold spec_write. by rewrite E0. }
  pose proof (zlen_nonneg (clipped off buf)). set (b := clipped off buf) in *.
  destruct (write_loop_spec (length b) m f off b V ltac:(lia) ltac:(lia) ltac:(done)) as (res & m' & f' & -> & V' & S' & Z' & I' & A' & R').
  ostep. destruct res as [o|e].
  2: { destruct R' as [-> C']. eexists _, m', _. split; [done|]. split; [done|]. split_and!; try done. intros x Hx Hn. apply C'; [done|lia]. }
  destruct R' as (-> & B' & C'). assert (b <> []) as Hb by (intros ->; done). specialize (B' Hb). rewrite Z'.
  set (f2 := if off + zlen b >? reg_size f then _ else _).
  assert (reg_size f2 = Z.max (reg_size f) (off + zlen b)) as E2 by (unfold f2; destruct (off + zlen b >? reg_size f) eqn:E; simpl; lia).
  assert (slots f2 = slots f' /\ allocated_blocks f2 = allocated_blocks f' /\ indirect_block f2 = indirect_block f') as (E3 & E4 & E5)
    by (unfold f2; by destruct (off + zlen b >? reg_size f)).
  assert (Hcell : forall x, cell m' f2 x = cell m' f' x) by (intros x; unfold cell; by rewrite E3).
  eexists _, m', _. split; [done|]. cbn [reg_inner]. split.
  { destruct S' as [S' O']. assert (forall q, mine f2 q <-> mine f' q) as Hmine by (intros q; unfold mine; by rewrite E3, E5).
    split; [|intros q; rewrite (own_ext f') by done; apply O']. intros q Hq. destruct (S' q Hq) as ((F1 & F2) & F3). split; [|done].
    split; [done|]. by rewrite Hmine. }
  split; [done|]. split.
  - split; cbn [reg_inner reg_attr set_attr_size attr_size]; try done; try lia.
    + destruct V'. split; unfold mine in *; rewrite ?E3, ?E4, ?E5; done.
    + rewrite E2, E4. unfold PAGE_SIZE in *. lia.
    + intros x Hx. rewrite Hcell, C', decide_False by lia. apply Ht. lia.
  - apply list_eq. intros i. rewrite content_lookup, spec_write_lookup by lia. rewrite content_zlen, E2 by lia.
    case_decide; [|done]. rewrite Hcell, C' by lia. f_equal. case_decide; [do 2 f_equal; lia|].
    rewrite content_lookup. case_decide; [done|]. apply Ht. lia.
Qed.
(** ** Truncation *)

Lemma release_one m f : file_inv m f -> 0 < allocated_blocks f ->
  exists p m', block_slot f (allocated_blocks f - 1) = Return (Some p) /\ page_drop m p = Return m' /\
    let f' := mkInner (indirect_block f) (<[Z.to_nat (allocated_blocks f - 1) := None]> (slots f)) (reg_size f) (allocated_blocks f - 1) in
    file_inv m' f' /\ spares m f m' f' /\
    forall x, 0 <= x -> cell m' f' x = if decide (x / BLOCK_SZ < allocated_blocks f - 1) then cell m f x else 0.
Proof.
  intros V Hlt. pose proof V as [Vwf Vlen Valloc Vused Vunused Vinj Vind Vheld Vfull]. set (a := allocated_blocks f - 1).
  destruct (Vused (Z.to_nat a)) as [p Hp]; [lia|].
  destruct (page_drop_spec m p Vwf) as (m' & Ed & W' & Eb & Hh). { apply Vheld. right; eauto. }
  exists p, m'. split; [unfold block_slot; by rewrite Hp|]. split; [done|]. cbv zeta.
  assert (Hlk : forall i, <[Z.to_nat a := None]> (slots f) !! i = if decide (i = Z.to_nat a) then Some None else slots f !! i).
  { intros i. case_decide as Hi; [subst i; apply list_lookup_insert_eq; lia|by apply list_lookup_insert_ne]. }
  assert (Hkeep : forall i q, <[Z.to_nat a := None]> (slots f) !! i = Some (Some q) -> slots f !! i = Some (Some q) /\ i <> Z.to_nat a /\ q <> p).
  { intros i q. rewrite Hlk. case_decide; [done|]. intros Hq. split_and!; [done|done|]. intros ->. by eapply Vinj in Hp; [|exact Hq]. }
  split_and!.
  - split; simpl; try done.
    + by rewrite length_insert.
    + lia.
    + intros i Hi. rewrite Hlk, decide_False by lia. apply Vused. lia.
    + intros i q (Hq & Hi & _)%Hkeep. specialize (Vunused _ _ Hq). lia.
    + intros i j q (Hi & _)%Hkeep (Hj & _)%Hkeep. by eapply Vinj.
    + intros i (Hi & _)%Hkeep. by apply (Vind i).
    + intros q Hq. rewrite Hh. assert (q <> p /\ mine f q) as [Hne Hm]; [|rewrite decide_False by done; specialize (Vheld q Hm); lia].
      destruct Hq as [->|(i & Hi)]; simpl in *; [split; [intros E; rewrite <- E in Hp; by apply (Vind (Z.to_nat a))|by left]|].
      apply Hkeep in Hi as (Hi & _ & Hne). split; [done|]. right; eauto.
    + intros i q (Hq & _)%Hkeep. rewrite Eb. by eapply Vfull.
  - split.
    + intros q [Hq Hn]. assert (q <> p) as Hne by (intros ->; apply Hn; right; eauto). rewrite Eb.
      split; [|done]. split; [rewrite Hh, decide_False by done; lia|]. intros [->|(i & Hi)]; [by apply Hn; left|].
      simpl in Hi. apply Hkeep in Hi as (Hi & _). apply Hn. right; eauto.
    + intros q. rewrite Hh. destruct (decide (q = p)) as [->|Hne].
      * rewrite (own_yes f p) by (right; eauto). rewrite own_no; [lia|].
        intros [E|(i & Hi)]; simpl in *; [subst; by apply (Vind (Z.to_nat a))|by apply Hkeep in Hi as (_ & _ & ?)].
      * rewrite (own_ext f); [lia|]. unfold mine. simpl. split; (intros [->|(i & Hi)]; [by left|right; exists i]);
          [by apply Hkeep in Hi as (? & _)|]. rewrite Hlk, decide_False; [done|]. intros ->. congruence.
  - intros x Hx. unfold cell. simpl. rewrite Hlk, Eb. pose proof (Z.div_pos x BLOCK_SZ Hx ltac:(done)).
    repeat case_decide; try done; try lia.
    destruct (slots f !! Z.to_nat (x / BLOCK_SZ)) as [[q|]|] eqn:Eq; try done. specialize (Vunused _ _ Eq). lia.
Qed.

Lemma release_blocks_spec n fuel : forall m f, file_inv m f -> 0 <= n -> (Z.to_nat (allocated_blocks f) <= fuel)%nat ->
  exists m' f', release_blocks fuel (m, f) n = Return (m', f') /\ file_inv m' f' /\ spares m f m' f' /\
    allocated_blocks f' = Z.min (allocated_blocks f) n /\ reg_size f' = reg_size f /\ indirect_block f' = indirect_block f /\
    forall x, 0 <= x -> cell m' f' x = if decide (x / BLOCK_SZ < n) then cell m f x else 0.
Proof.
  induction fuel as [|fuel IH]; intros m f V Hn Hf; pose proof (fv_alloc m f V) as Ha; cbn [release_blocks].
  all: destruct (allocated_blocks f >? n) eqn:E; breflect; cbn [negb].
  all: try (exists m, f; split; [done|]; split_and!; try done; try lia; intros x Hx; case_decide; [done|]; unfold cell;
    destruct (slots f !! Z.to_nat (x / BLOCK_SZ)) as [[q|]|] eqn:Eq; try done; apply (fv_unused m f V) in Eq; lia).
  { lia. }
  destruct (release_one m f V ltac:(lia)) as (p & m1 & -> & E1 & V1 & S1 & C1). ostep. rewrite E1. ostep.
  unfold set_slot. rewrite (proj2 (Z.ltb_lt _ SLOTS)) by lia. ostep. cbn [indirect_block slots reg_size allocated_blocks].
  destruct (IH _ _ V1 Hn) as (m2 & f2 & -> & V2 & S2 & A2 & Z2 & I2 & C2); [simpl; lia|]. simpl in A2, Z2, I2.
  exists m2, f2. split; [done|]. split_and!; try done; [by eapply spares_trans|lia|].
  intros x Hx. rewrite C2, C1 by done. repeat case_decide; try done; lia.
Qed.

Lemma reg_truncate_spec m r n : reg_ok m r -> 0 <= n <= reg_size (reg_inner r) ->
  exists m' r', reg_truncate (m, r) n = Return (Ok tt, (m', r')) /\ reg_ok m' r' /\ spares m (reg_inner r) m' (reg_inner r') /\
    content m' (reg_inner r') = take (Z.to_nat n) (content m (reg_inner r)).
Proof.
  intros R Hn. pose proof R as [V Hs Ha Hd Ht]. unfold reg_truncate. set (f := reg_inner r) in *.
  replace (n >? MAX_SZ) with false by lia. replace (n >? reg_size f) with false by lia.
  destruct (n <? reg_size f) eqn:E; breflect; ostep.
  2: { assert (n = reg_size f) as -> by lia. eexists m, _. split; [done|]. split; [by split|]. split; [done|].
       cbn [reg_inner]. symmetry. apply take_ge. pose proof (content_zlen m f ltac:(lia)). unfold zlen in *. lia. }
  destruct (div_ceil_spec n BLOCK_SZ ltac:(lia) ltac:(done)) as [D1 D2]. set (nb := div_ceil n BLOCK_SZ) in *.
  assert (Hnb : 0 <= nb <= allocated_blocks f) by (unfold PAGE_SIZE in *; lia).
  destruct (release_blocks_spec nb (Z.to_nat (allocated_blocks f)) m f V ltac:(lia) ltac:(done)) as (m1 & f1 & -> & V1 & S1 & A1 & Z1 & I1 & C1).
  ostep. set (f2 := mkInner (indirect_block f1) (slots f1) n (allocated_blocks f1)).
  assert (exists m2, (if nb >? 0 then if n mod BLOCK_SZ >? 0
      then let! p := block_page f1 (nb - 1) in
           Return (set_page m1 p (patch (pg_bytes m1 p) (n mod BLOCK_SZ) (replicate (Z.to_nat (BLOCK_SZ - n mod BLOCK_SZ)) 0)))
      else Return m1 else Return m1) = Return m2 /\ file_inv m2 f1 /\ spares m1 f1 m2 f1 /\
      forall x, 0 <= x -> cell m2 f1 x = if decide (x < n) then cell m f x else 0) as (m2 & -> & V2 & S2 & C2).
  { pose proof (Z.mod_pos_bound n BLOCK_SZ ltac:(done)) as Hm. pose proof (Z.div_mod n BLOCK_SZ ltac:(done)) as Dn.
    assert (Hdone : n mod BLOCK_SZ = 0 -> forall x, 0 <= x -> cell m1 f1 x = if decide (x < n) then cell m f x else 0).
    { intros Hz x Hx. rewrite C1 by done. pose proof (Z.div_mod x BLOCK_SZ ltac:(done)). pose proof (Z.mod_pos_bound x BLOCK_SZ ltac:(done)).
      unfold PAGE_SIZE in *. repeat case_decide; try done; lia. }
    destruct (nb >? 0) eqn:E1; breflect; [|exists m1; split_and!; try done; apply Hdone; unfold PAGE_SIZE in *; lia].
    destruct (n mod BLOCK_SZ >? 0) eqn:E2; breflect; [|exists m1; split_and!; try done; apply Hdone; lia].
    assert (n / BLOCK_SZ = nb - 1) as En by (unfold PAGE_SIZE in *; lia).
    destruct (fv_used m1 f1 V1 (Z.to_nat (nb - 1))) as [p Hp]; [lia|]. rewrite (block_page_slot _ _ _ Hp). ostep.
    destruct (write_chunk m1 f1 p n (replicate (Z.to_nat (BLOCK_SZ - n mod BLOCK_SZ)) 0) V1 ltac:(lia)) as (V2 & S2 & C2).
    { by rewrite En. }
    { unfold zlen. rewrite length_replicate. lia. }
    eexists. split; [done|]. split_and!; [done|done|]. intros x Hx. rewrite C2, C1 by done. unfold zlen. rewrite length_replicate.
    pose proof (Z.div_mod x BLOCK_SZ ltac:(done)). pose proof (Z.mod_pos_bound x BLOCK_SZ ltac:(done)).
    repeat case_decide; try done; try (unfold PAGE_SIZE in *; lia).
    by rewrite lookup_replicate_2 by lia. }
  ostep. eexists m2, _. split; [done|]. cbn [reg_inner]. split_and!.
  - split; cbn [reg_inner reg_attr set_attr_size attr_size]; change (reg_size f2) with n; change (allocated_blocks f2) with (allocated_blocks f1).
    + by destruct V2.
    + lia.
    + done.
    + rewrite A1. unfold PAGE_SIZE in *. lia.
    + intros x Hx. change (cell m2 f2 x) with (cell m2 f1 x). rewrite C2, decide_False by lia. done.
  - eapply spares_trans; [exact S1|]. exact S2.
  - apply list_eq. intros i. destruct (decide (Z.of_nat i < n)) as [Hi|Hi].
    + rewrite lookup_take_lt by lia. rewrite !content_lookup. cbn [reg_size f2]. rewrite !decide_True by lia.
      change (cell m2 f2 (Z.of_nat i)) with (cell m2 f1 (Z.of_nat i)). rewrite C2, decide_True by lia. done.
    + rewrite lookup_take_ge by lia. rewrite content_lookup. cbn [reg_size f2]. by rewrite decide_False by lia.
Qed.

(** Dropping a file gives all its pages back. *)
Lemma drop_blocks_spec f n : forall i m, wf (pg_alloc m) ->
  (forall j k p, slots f !! j = Some (Some p) -> slots f !! k = Some (Some p) -> j = k) ->
  (forall j, (i <= j < i + n)%nat -> exists p, slots f !! j = Some (Some p) /\ 0 < held (pg_alloc m) p) ->
  exists m', drop_blocks n (Z.of_nat i) m f = Return m' /\ wf (pg_alloc m') /\ pg_bytes m' = pg_bytes m /\
    (forall j p, (i <= j < i + n)%nat -> slots f !! j = Some (Some p) -> held (pg_alloc m') p = held (pg_alloc m) p - 1) /\
    (forall q, (forall j, (i <= j < i + n)%nat -> slots f !! j <> Some (Some q)) -> held (pg_alloc m') q = held (pg_alloc m) q).
Proof.
  induction n as [|n IH]; intros i m W Hinj Hall; cbn [drop_blocks].
  { exists m. split_and!; try done. intros j p Hj. lia. }
  destruct (Hall i ltac:(lia)) as (p & Hp & Hh). unfold block_slot. rewrite Nat2Z.id, Hp. ostep.
  destruct (page_drop_spec m p W Hh) as (m1 & -> & W1 & B1 & H1). ostep. replace (Z.of_nat i + 1) with (Z.of_nat (S i)) by lia.
  destruct (IH (S i) m1 W1 Hinj) as (m2 & -> & W2 & B2 & D2 & K2).
  { intros j Hj. destruct (Hall j ltac:(lia)) as (q & Hq & Hhq). exists q. split; [done|]. rewrite H1, decide_False; [lia|].
    intros ->. specialize (Hinj _ _ _ Hq Hp). lia. }
  exists m2. split_and!; [done|done|congruence| |].
  - intros j q Hj Hq. destruct (decide (j = i)) as [->|Hne].
    + rewrite Hp in Hq. injection Hq as <-. rewrite K2, H1, decide_True; [lia|done|]. intros k Hk Hq'. specialize (Hinj _ _ _ Hq' Hp). lia.
    + rewrite (D2 j q), H1 by (done || lia). rewrite decide_False; [lia|]. intros ->. specialize (Hinj _ _ _ Hq Hp). lia.
  - intros q Hq. rewrite K2, H1, decide_False; [lia| |].
    + intros ->. by apply (Hq i); [lia|].
    + intros j Hj. apply Hq. lia.
Qed.

Lemma reg_drop_spec m r : file_inv m (reg_inner r) ->
  exists m', reg_drop m r = Return m' /\ wf (pg_alloc m') /\ pg_bytes m' = pg_bytes m /\
    forall q, held (pg_alloc m') q = held (pg_alloc m) q - own (reg_inner r) q.
Proof.
  intros V. pose proof V as [Vwf Vlen Valloc Vused Vunused Vinj Vind Vheld Vfull]. unfold reg_drop. set (f := reg_inner r) in *.
  destruct (drop_blocks_spec f (Z.to_nat (allocated_blocks f)) 0 m Vwf Vinj) as (m1 & E1 & W1 & B1 & D1 & K1).
  { intros j Hj. destruct (Vused j ltac:(lia)) as [p Hp]. exists p. split; [done|]. apply Vheld. right; eauto. }
  change (Z.of_nat 0) with 0 in E1. fold f. rewrite E1. ostep.
  assert (held (pg_alloc m1) (indirect_block f) = held (pg_alloc m) (indirect_block f)) as Hi by (apply K1; intros j _; apply Vind).
  destruct (page_drop_spec m1 (indirect_block f) W1) as (m2 & -> & W2 & B2 & H2).
  { rewrite Hi. apply Vheld. by left. }
  exists m2. split_and!; [done|done|congruence|]. intros q. rewrite H2.
  destruct (decide (q ∈ indirect_block f :: omap id (slots f))) as [Hq%own_mine|Hq].
  - rewrite own_yes by done. destruct Hq as [->|(j & Hj)]; [rewrite decide_True by done; lia|]. rewrite decide_False by (intros ->; by apply (Vind j)).
    rewrite (D1 j q); [lia| |done]. specialize (Vunused _ _ Hj). lia.
  - rewrite own_mine in Hq. rewrite own_no by done. rewrite decide_False by (intros ->; apply Hq; by left). rewrite K1; [lia|]. intros j _ Hj. apply Hq. right; eauto.
Qed.

Lemma reg_new_spec m id perms : wf (pg_alloc m) ->
  exists res m', reg_new m id perms = Return (res, m') /\
    match res with
    | Ok r => reg_ok m' r /\ content m' (reg_inner r) = [] /\
        (forall q, 0 < held (pg_alloc m) q -> foreign m' (reg_inner r) q /\ pg_bytes m' q = pg_bytes m q) /\
        (forall q, held (pg_alloc m') q - own (reg_inner r) q = held (pg_alloc m) q)
    | Err e => e = NoMemory /\ m' = m
    end.
Proof.
  intros W. unfold reg_new. destruct (page_alloc_zeroed_spec m W) as (res & m' & -> & W' & P). ostep.
  destruct res as [p|e]; [|by eexists _, _]. destruct P as (Hp & Hh & Hz & Hk). eexists _, _. split; [done|].
  assert (Hno : forall i q, replicate (Z.to_nat SLOTS) (@None Z) !! i <> Some (Some q)) by (intros i q [? _]%lookup_replicate_1; done).
  assert (Hlen : length (replicate (Z.to_nat SLOTS) (@None Z)) = 512%nat) by apply length_replicate.
  set (sl := replicate (Z.to_nat SLOTS) (@None Z)) in *. clearbody sl.
  split; [split|]; cbn [reg_inner reg_size allocated_blocks].
  - split; simpl; try done; try lia.
    + intros i q Hq. by destruct (Hno i q).
    + intros i j q Hq. by destruct (Hno i q).
    + intros q [->|(i & Hi)]; [rewrite Hh, decide_True by done; simpl; lia|by destruct (Hno i q)].
    + intros i q Hq. by destruct (Hno i q).
  - unfold PAGE_SIZE. lia.
  - done.
  - lia.
  - intros x Hx. unfold cell. cbn [slots]. destruct (sl !! _) as [[q|]|] eqn:E; try done. by destruct (Hno _ _ E).
  - split_and!; [done|intros q Hq|intros q].
    + assert (q <> p) as Hne by (intros ->; lia). split; [|by apply Hk].
      split; [rewrite Hh; case_decide; lia|]. intros [->|(i & Hi)]; [done|by destruct (Hno i q)].
    + rewrite Hh. case_decide as Hq; [rewrite own_yes by (left; done); lia|].
      rewrite own_no; [lia|]. intros [->|(i & Hi)]; [done|by destruct (Hno i q)].
Qed.

(** ** Histories of a file *)

Inductive file_op : Type := OpRead (off n : Z) | OpWrite (off : Z) (buf : bytes) | OpTruncate (n : Z).
Inductive reply : Type := Bytes (b : bytes) | Count (n : Z) | Truncated.

Definition run_op (s : Pages L * TmpFsReg) (op : file_op) : outcome (result reply * (Pages L * TmpFsReg)) :=
  match op with
  | OpRead off n => let! r := reg_read_at s.1 s.2 off n in Return (match r with Ok b => Ok (Bytes b) | Err e => Err e end, s)
  | OpWrite off buf => let? (n, s) := reg_write_at s off buf in Return (Ok (Count n), s)
  | OpTruncate n => let? (_u, s) := reg_truncate s n in Return (Ok Truncated, s)
  end.

Fixpoint run_ops (s : Pages L * TmpFsReg) (ops : list file_op) : outcome (result (list reply) * (Pages L * TmpFsReg)) :=
  match ops with
  | [] => Return (Ok [], s)
  | op :: ops => let? (o, s) := run_op s op in let? (os, s) := run_ops s ops in Return (Ok (o :: os), s)
  end.

(** A file as its list of bytes; [None] for what is not promised: a negative or too large
    offset, and truncation to a larger size. *)
Definition spec_op (l : bytes) (op : file_op) : option (reply * bytes) :=
  match op with
  | OpRead off n => if (0 <=? off) && (0 <=? n) then Some (Bytes (slice l off n), l) else None
  | OpWrite off buf =>
      if (0 <=? off) && (off <? MAX_SZ) then Some (Count (zlen (clipped off buf)), spec_write l off (clipped off buf)) else None
  | OpTruncate n => if (0 <=? n) && (n <=? zlen l) then Some (Truncated, take (Z.to_nat n) l) else None
  end.

Fixpoint spec_ops (l : bytes) (ops : list file_op) : option (list reply * bytes) :=
  match ops with
  | [] => Some ([], l)
  | op :: ops => match spec_op l op with
                 | Some (o, l) => match spec_ops l ops with Some (os, l) => Some (o :: os, l) | None => None end
                 | None => None
                 end
  end.

Lemma file_op_spec m r op o l' : reg_ok m r -> spec_op (content m (reg_inner r)) op = Some (o, l') ->
  exists res m' r', run_op (m, r) op = Return (res, (m', r')) /\ spares m (reg_inner r) m' (reg_inner r') /\ file_inv m' (reg_inner r') /\
    match res with Ok o' => o' = o /\ reg_ok m' r' /\ content m' (reg_inner r') = l' | Err e => e = NoMemory end.
Proof.
  intros R. pose proof (ro_inv m r R) as V. destruct op as [off n|off buf|n]; cbn [spec_op run_op fst snd]; bcase; try done; intros [= <- <-].
  - rewrite reg_read_at_spec by done. ostep. by exists (Ok (Bytes (slice (content m (reg_inner r)) off n))), m, r.
  - destruct (reg_write_at_spec m r off buf R) as (res & m' & r' & -> & S' & P); [lia|]. destruct res as [k|e]; cbn [tbind].
    + destruct P as (-> & R' & C'). eexists _, m', r'. split; [done|]. split_and!; try done. apply R'.
    + destruct P as (-> & V' & _). by eexists _, m', r'.
  - rewrite content_zlen in * by apply (ro_size m r R). destruct (reg_truncate_spec m r n R) as (m' & r' & -> & R' & S' & C'); [lia|].
    cbn [tbind]. eexists _, m', r'. split; [done|]. split_and!; try done. apply R'.
Qed.

Lemma file_ops_spec ops : forall m r os l', reg_ok m r -> spec_ops (content m (reg_inner r)) ops = Some (os, l') ->
  exists res m' r', run_ops (m, r) ops = Return (res, (m', r')) /\ spares m (reg_inner r) m' (reg_inner r') /\ file_inv m' (reg_inner r') /\
    match res with Ok os' => os' = os /\ reg_ok m' r' /\ content m' (reg_inner r') = l' | Err e => e = NoMemory end.
Proof.
  induction ops as [|op ops IH]; intros m r os l' R; cbn [spec_ops run_ops].
  { intros [= <- <-]. exists (Ok []), m, r. split_and!; try done. apply R. }
  destruct (spec_op _ op) as [[o l1]|] eqn:E1; [|done]. destruct (spec_ops l1 ops) as [[os1 l2]|] eqn:E2; [|done]. intros [= <- <-].
  destruct (file_op_spec m r op o l1 R E1) as (res & m1 & r1 & -> & S1 & V1 & P1).
  destruct res as [o'|e]; cbn [tbind]; [|by eexists _, m1, r1]. destruct P1 as (-> & R1 & C1). rewrite <- C1 in E2.
  destruct (IH m1 r1 os1 l2 R1 E2) as (res & m2 & r2 & -> & S2 & V2 & P2).
  assert (spares m (reg_inner r) m2 (reg_inner r2)) as S by (by eapply spares_trans).
  destruct res as [os'|e]; cbn [tbind]; [|by eexists _, m2, r2]. destruct P2 as (-> & R2 & C2). by eexists _, m2, r2.
Qed.

End TmpFileCorrect.

(** ** An example *)

Definition demo_pages : Pages (list Z) := mkPages demo_fa (fun _ => []).
Definition demo_ops : list file_op := [OpWrite 4090 [1; 2; 3; 4; 5; 6; 7; 8; 9; 10]; OpRead 4088 6; OpTruncate 4093; OpRead 4090 10].


(** * Defects *)

Section Defects.
Context {L : Type} `{IntrusiveList L} (m : Pages L) (id : InodeId) (attr : FileAttr) (p : Z).

Definition empty_file : TmpFsReg := mkReg id attr (mkInner p (replicate 512 None) 0 0).

(** A file extended by truncation reads as empty: there is no block, and [read_at] stops there. *)
Lemma grown_file_reads_nothing n : 0 < n <= MAX_SZ ->
  exists r, reg_truncate (m, empty_file) n = Return (Ok tt, (m, r)) /\ reg_size (reg_inner r) = n /\ reg_read_at m r 0 n = Return (Ok []).
Proof.
  intros Hn. unfold reg_truncate. cbn [reg_inner empty_file reg_size]. replace (n >? MAX_SZ) with false by lia. replace (n >? 0) with true by lia.
  eexists. split; [reflexivity|]. split; [reflexivity|]. unfold reg_read_at. cbn [reg_inner reg_size allocated_blocks].
  replace (0 >=? n) with false by lia. rewrite Z.sub_0_r, Z.min_id. destruct (Z.to_nat n) eqn:E; [lia|]. cbn [read_loop].
  by replace (n <=? 0) with false by lia.
Qed.

(** Cutting such a file off inside a page clears the rest of a page that does not exist. *)
Lemma shrinking_grown_file_faults : exists r, reg_truncate (m, empty_file) 10000 = Return (Ok tt, (m, r)) /\ reg_truncate (m, r) 5000 = Panic.
Proof. eexists. split; reflexivity. Qed.

(** Setting the attributes sets the size without clearing what is cut off. *)
Lemma setattr_size r : reg_size (reg_inner (reg_setattr r attr)) = attr_size attr /\ slots (reg_inner (reg_setattr r attr)) = slots (reg_inner r).
Proof. done. Qed.
End Defects.
