(* ===== verification/TmpDir.v ===== *)
(** * Directories of the in-memory file system

    Models TmpFsDirInode, TmpFsDirReader, TmpFsSymlinkInode and TmpFs of
    libkernel/src/fs/filesystems/tmpfs.rs.  The inodes live in one table, by the inode number;
    an [Arc<dyn Inode>] is the number it leads to, so that links share what they lead to.  The
    file system outlives the calls, so that its weak references can be upgraded.  A name is its
    list of bytes. *)
From stdpp Require Import base list gmap.
From S2P Require Import Prelude Error Address Phys PhysInv Blk Attr Fat32Dir TmpFile.
Local Open Scope Z_scope.

Record TmpFsDirEnt := mkEnt { ent_name : bytes; ent_id : InodeId; ent_kind : FileType; ent_inode : Z }.

Inductive TmpFsInode : Type :=
| RegInode (r : TmpFsReg)
| DirInode (entries : list TmpFsDirEnt) (attrs : FileAttr)
| SymInode (target : bytes) (attr : FileAttr) (xattr : list (bytes * bytes)).

Record TmpFs := mkTmpFs { tfs_id : Z; next_inode_id : Z; inodes : gmap Z TmpFsInode }.

Definition set_inode (fs : TmpFs) (i : Z) (n : TmpFsInode) : TmpFs := mkTmpFs (tfs_id fs) (next_inode_id fs) (<[i := n]> (inodes fs)).

(** The entries of a directory and what becomes of them under the lock. *)
Definition dir_entries (fs : TmpFs) (d : Z) : outcome (list TmpFsDirEnt) :=
  match inodes fs !! d with Some (DirInode es _) => Return es | _ => Panic end.
Definition set_entries (fs : TmpFs) (d : Z) (es : list TmpFsDirEnt) : TmpFs :=
  match inodes fs !! d with Some (DirInode _ a) => set_inode fs d (DirInode es a) | _ => fs end.

Definition dir_inode_new (perms : Z) : TmpFsInode :=
  DirInode [] (mkAttr inode_dummy 0 BLOCK_SZ (attr_blocks attr_default) (atime attr_default) (btime attr_default) (mtime attr_default)
    (ctime attr_default) Directory perms (nlinks attr_default) (attr_uid attr_default) (attr_gid attr_default)).

Definition symlink_new (target : bytes) : TmpFsInode :=
  SymInode target (mkAttr inode_dummy 0 (attr_block_size attr_default) (attr_blocks attr_default) (atime attr_default) (btime attr_default)
    (mtime attr_default) (ctime attr_default) Symlink (permissions attr_default) 1 (attr_uid attr_default) (attr_gid attr_default)) [].

Definition tmpfs_new (id : Z) : TmpFs := mkTmpFs id 2 {[1 := dir_inode_new 502]}.

Definition alloc_inode_id (fs : TmpFs) : Z * TmpFs := (next_inode_id fs, mkTmpFs (tfs_id fs) (uadd (next_inode_id fs) 1) (inodes fs)).

(** [iter().position(|e| e.name == name)] *)
Fixpoint ent_position (es : list TmpFsDirEnt) (name : bytes) : option nat :=
  match es with
  | [] => None
  | e :: es => if decide (ent_name e = name) then Some O else S <$> ent_position es name
  end.
Definition has_name (es : list TmpFsDirEnt) (name : bytes) : bool := bool_decide (is_Some (ent_position es name)).

Definition tmp_lookup (fs : TmpFs) (d : Z) (name : bytes) : outcome (result Z) :=
  let! es := dir_entries fs d in
  Return (match ent_position es name ≫= (es !!.) with Some e => Ok (ent_inode e) | None => Err (Fs NotFound) end).

(** One entry of a reader at [offset]. *)
Definition reader_next (fs : TmpFs) (d offset : Z) : outcome (option Dirent * Z) :=
  let! es := dir_entries fs d in
  Return (match es !! Z.to_nat offset with
          | Some e => (Some (mkDirent (ent_id e) (ent_name e) (ent_kind e) (offset + 1)), offset + 1)
          | None => (None, offset)
          end).

Definition tmp_unlink (fs : TmpFs) (d : Z) (name : bytes) : outcome (result unit * TmpFs) :=
  let! es := dir_entries fs d in
  match ent_position es name with
  | Some idx => Return (Ok tt, set_entries fs d (delete idx es))
  | None => Return (Err (Fs NotFound), fs)
  end.

Definition inode_attr (n : TmpFsInode) : FileAttr :=
  match n with RegInode r => reg_attr r | DirInode _ a => a | SymInode _ a _ => a end.
Definition inode_setattr (n : TmpFsInode) (a : FileAttr) : TmpFsInode :=
  match n with RegInode r => RegInode (reg_setattr r a) | DirInode es _ => DirInode es a | SymInode t _ x => SymInode t a x end.
Definition add_link (a : FileAttr) : FileAttr :=
  mkAttr (attr_id a) (attr_size a) (attr_block_size a) (attr_blocks a) (atime a) (btime a) (mtime a) (ctime a) (file_type a)
    (permissions a) ((nlinks a + 1) mod 2 ^ 32) (attr_uid a) (attr_gid a).

Definition tmp_link (fs : TmpFs) (d : Z) (name : bytes) (inode : Z) : outcome (result unit * TmpFs) :=
  let! n := unwrap (inodes fs !! inode) in
  let attr := inode_attr n in
  let kind := file_type attr in
  let fs := set_inode fs inode (inode_setattr n (add_link attr)) in
  let! es := dir_entries fs d in
  if has_name es name then Return (Err (Fs AlreadyExists), fs)
  else Return (Ok tt, set_entries fs d (es ++ [mkEnt name (mkInodeId (tfs_id fs) inode) kind inode])).

Definition tmp_symlink (fs : TmpFs) (d : Z) (name target : bytes) : outcome (result unit * TmpFs) :=
  let! es := dir_entries fs d in
  if has_name es name then Return (Err (Fs AlreadyExists), fs)
  else
    let (new_id, fs) := alloc_inode_id fs in
    let fs := set_inode fs new_id (symlink_new target) in
    Return (Ok tt, set_entries fs d (es ++ [mkEnt name (mkInodeId (tfs_id fs) new_id) Symlink new_id])).

(** Another directory given as an inode: one of a tmpfs, or an inode of some other kind. *)
Inductive parent_ref : Type := TmpParent (d : Z) | OtherParent (inode_id : Z).
Definition parent_id (p : parent_ref) : Z := match p with TmpParent d => d | OtherParent i => i end.

(** [target.inode.dir_is_empty()] *)
Definition dir_is_empty (fs : TmpFs) (i : Z) : outcome (result bool) :=
  let! n := unwrap (inodes fs !! i) in
  Return (match n with DirInode es _ => Ok (match es with [] => true | _ => false end) | _ => Err (Fs NotADirectory) end).

Definition with_name (e : TmpFsDirEnt) (name : bytes) : TmpFsDirEnt := mkEnt name (ent_id e) (ent_kind e) (ent_inode e).

(** Whether the source of a rename may replace the target, between two directories. *)
Definition may_replace (fs : TmpFs) (source target : TmpFsDirEnt) : outcome (result unit) :=
  if decide (ent_kind target = Directory) then
    let! r := dir_is_empty fs (ent_inode target) in
    Return (match r with
            | Err e => Err e
            | Ok false => Err (Fs DirectoryNotEmpty)
            | Ok true => if decide (ent_kind source = Directory) then Ok tt else Err (Fs IsADirectory)
            end)
  else Return (if decide (ent_kind source = Directory) then Ok tt else Err (Fs NotADirectory)).

Definition rename_within (fs : TmpFs) (d : Z) (old_name new_name : bytes) (no_replace : bool) : outcome (result unit * TmpFs) :=
  let! es := dir_entries fs d in
  if no_replace && has_name es new_name then Return (Err (Fs AlreadyExists), fs)
  else
    let new_entry := ent_position es new_name in
    match ent_position es old_name with
    | None => Return (Err (Fs NotFound), fs)
    | Some i =>
        let es := alter (fun e => with_name e new_name) i es in
        let es := match new_entry with Some j => delete j es | None => es end in
        Return (Ok tt, set_entries fs d es)
    end.

Definition rename_across (fs : TmpFs) (old_d d : Z) (old_name new_name : bytes) (no_replace : bool) : outcome (result unit * TmpFs) :=
  let! old_es := dir_entries fs old_d in
  let! new_es := dir_entries fs d in
  if no_replace && has_name new_es new_name then Return (Err (Fs AlreadyExists), fs)
  else
    let! (r, new_es) :=
      match ent_position new_es new_name, ent_position old_es old_name with
      | Some target_idx, Some source_idx =>
          let! target := unwrap (new_es !! target_idx) in
          let! source := unwrap (old_es !! source_idx) in
          let! r := may_replace fs source target in
          Return (r, match r with Ok _ => delete target_idx new_es | Err _ => new_es end)
      | _, _ => Return (Ok tt, new_es)
      end in
    match r with
    | Err e => Return (Err e, fs)
    | Ok _ =>
        match ent_position old_es old_name with
        | None => Return (Err (Fs NotFound), fs)
        | Some idx =>
            let! entry := unwrap (old_es !! idx) in
            Return (Ok tt, set_entries (set_entries fs old_d (delete idx old_es)) d (new_es ++ [with_name entry new_name]))
        end
    end.

Definition tmp_rename_from (fs : TmpFs) (d : Z) (old_parent : parent_ref) (old_name new_name : bytes) (no_replace : bool)
    : outcome (result unit * TmpFs) :=
  if bool_decide (old_name = new_name) && (parent_id old_parent =? d) then Return (Ok tt, fs)
  else
    match old_parent with
    | OtherParent _ => Return (Err (Fs CrossDevice), fs)
    | TmpParent old_d => if old_d =? d then rename_within fs d old_name new_name no_replace else rename_across fs old_d d old_name new_name no_replace
    end.

Definition tmp_exchange (fs : TmpFs) (d : Z) (first_name : bytes) (second_parent : parent_ref) (second_name : bytes)
    : outcome (result unit * TmpFs) :=
  if bool_decide (first_name = second_name) && (d =? parent_id second_parent) then Return (Ok tt, fs)
  else
    match second_parent with
    | OtherParent _ => Return (Err (Fs CrossDevice), fs)
    | TmpParent second_d =>
        if d =? second_d then
          let! es := dir_entries fs d in
          match ent_position es first_name, ent_position es second_name with
          | Some first, Some second =>
              let es := alter (fun e => with_name e second_name) first es in
              Return (Ok tt, set_entries fs d (alter (fun e => with_name e first_name) second es))
          | _, _ => Return (Err (Fs NotFound), fs)
          end
        else
          let! es1 := dir_entries fs d in
          let! es2 := dir_entries fs second_d in
          match ent_position es1 first_name, ent_position es2 second_name with
          | Some i, Some j =>
              let! first := unwrap (es1 !! i) in
              let! second := unwrap (es2 !! j) in
              Return (Ok tt, set_entries (set_entries fs d (delete i es1 ++ [second])) second_d (delete j es2 ++ [first]))
          | _, _ => Return (Err (Fs NotFound), fs)
          end
    end.

(** Extended attributes of a symbolic link. *)
Definition getxattr (x : list (bytes * bytes)) (name : bytes) : result bytes :=
  match list_find (fun kv => kv.1 = name) x with Some (_, kv) => Ok kv.2 | None => Err (Fs NotFound) end.
Definition setxattr (x : list (bytes * bytes)) (name buf : bytes) (create replace : bool) : result unit * list (bytes * bytes) :=
  match list_find (fun kv => kv.1 = name) x with
  | Some (i, kv) => if create then (Err (Fs AlreadyExists), x) else (Ok tt, <[i := (kv.1, buf)]> x)
  | None => if replace then (Err (Fs NotFound), x) else (Ok tt, x ++ [(name, buf)])
  end.
Definition removexattr (x : list (bytes * bytes)) (name : bytes) : result unit * list (bytes * bytes) :=
  match list_find (fun kv => kv.1 = name) x with Some (i, _) => (Ok tt, delete i x) | None => (Err (Fs NotFound), x) end.

Section Create.
Context {L : Type} `{IntrusiveList L}.

Definition tmp_create (m : Pages L) (fs : TmpFs) (d : Z) (name : bytes) (file_type : FileType) (mode : Z)
    : outcome (result Z * (Pages L * TmpFs)) :=
  let! es := dir_entries fs d in
  if has_name es name then Return (Err (Fs AlreadyExists), (m, fs))
  else
    let (new_id, fs) := alloc_inode_id fs in
    let id := mkInodeId (tfs_id fs) new_id in
    let! (r, m) :=
      match file_type with
      | File => let! (r, m) := reg_new m id mode in Return (match r with Ok f => Ok (RegInode f) | Err e => Err e end, m)
      | Directory => Return (Ok (dir_inode_new mode), m)
      | _ => Return (Err NotSupported, m)
      end in
    match r with
    | Err e => Return (Err e, (m, fs))
    | Ok inode => Return (Ok new_id, (m, set_entries (set_inode fs new_id inode) d (es ++ [mkEnt name id file_type new_id])))
    end.
End Create.

(** * Correctness *)

(** ** Entries by name *)

Definition names (es : list TmpFsDirEnt) : list bytes := ent_name <$> es.
Definition entry (es : list TmpFsDirEnt) (name : bytes) : option TmpFsDirEnt := ent_position es name ≫= (es !!.).

Lemma entry_cons e es n : entry (e :: es) n = if decide (ent_name e = n) then Some e else entry es n.
Proof. unfold entry. cbn [ent_position]. case_decide; [done|]. by destruct (ent_position es n). Qed.

Lemma entry_app es es' n : entry (es ++ es') n = match entry es n with Some e => Some e | None => entry es' n end.
Proof. induction es as [|e es IH]; [done|]. rewrite <- app_comm_cons, !entry_cons. by case_decide. Qed.

Lemma ent_position_entry es n : is_Some (ent_position es n) <-> is_Some (entry es n).
Proof.
  induction es as [|e es IH]; [split; intros [? [=]]|]. rewrite entry_cons. cbn [ent_position]. case_decide; [split; eauto|]. rewrite <- IH.
  destruct (ent_position es n); simpl; split; intros [x Hx]; try done; eauto.
Qed.

Lemma ent_position_Some es n i : ent_position es n = Some i -> exists e, es !! i = Some e /\ ent_name e = n /\ entry es n = Some e.
Proof.
  intros Hi. destruct (proj1 (ent_position_entry es n)) as [e He]; [eauto|]. exists e. unfold entry in He. rewrite Hi in He. simpl in He.
  split_and!; [done| |unfold entry; by rewrite Hi]. revert i Hi He. induction es as [|x es IH]; intros i; cbn [ent_position]; [done|].
  case_decide as Hd; [intros [= <-] [= <-]; done|]. destruct (ent_position es n) as [j|]; [|done]. intros [= <-]. simpl. by apply IH.
Qed.

Lemma ent_position_None es n : ent_position es n = None -> entry es n = None.
Proof. intros Hn. unfold entry. by rewrite Hn. Qed.

Lemma entry_None es n : entry es n = None <-> n ∉ names es.
Proof.
  induction es as [|e es IH]; [split; [intros _; apply not_elem_of_nil|done]|]. rewrite entry_cons. unfold names in *. cbn [fmap list_fmap].
  rewrite not_elem_of_cons. case_decide; [split; [done|]; intros [? _]; congruence|]. rewrite IH. naive_solver.
Qed.

Lemma has_name_entry es n : has_name es n = true <-> is_Some (entry es n).
Proof. unfold has_name. rewrite bool_decide_eq_true. apply ent_position_entry. Qed.

Lemma entry_elem es n e : entry es n = Some e -> e ∈ es /\ ent_name e = n.
Proof.
  unfold entry. destruct (ent_position es n) as [i|] eqn:E; [|done]. simpl. intros He. destruct (ent_position_Some _ _ _ E) as (e' & Hl & Hn & _).
  simplify_eq. split; [by eapply list_elem_of_lookup_2|done].
Qed.

Lemma names_perm es es' : es ≡ₚ es' -> names es ≡ₚ names es'.
Proof. intros Hp. unfold names. by rewrite Hp. Qed.

Lemma entry_nodup es e : NoDup (names es) -> e ∈ es -> entry es (ent_name e) = Some e.
Proof.
  induction es as [|x es IH]; intros Hn He; [by apply not_elem_of_nil in He|]. rewrite entry_cons. unfold names in Hn. cbn [fmap list_fmap] in Hn.
  apply NoDup_cons in Hn as [Hx Hn]. apply elem_of_cons in He as [->|He]; [by rewrite decide_True|].
  rewrite decide_False; [by apply IH|]. intros E. apply Hx. rewrite E. by apply list_elem_of_fmap_2.
Qed.

Lemma entry_perm es es' n : NoDup (names es) -> es ≡ₚ es' -> entry es n = entry es' n.
Proof.
  intros Hn Hp. destruct (entry es' n) as [e|] eqn:E.
  - apply entry_elem in E as [He <-]. apply entry_nodup; [done|]. by rewrite Hp.
  - apply entry_None. rewrite (names_perm es es' Hp). by apply entry_None.
Qed.

(** ** What the list operations do *)

Lemma delete_perm es n i : ent_position es n = Some i -> exists e, entry es n = Some e /\ ent_name e = n /\ es !! i = Some e /\ es ≡ₚ e :: delete i es.
Proof. intros (e & Hl & Hn & He)%ent_position_Some. exists e. split_and!; try done. by apply delete_Permutation. Qed.

Lemma delete_alter_same {A} (f : A -> A) i (l : list A) : delete i (alter f i l) = delete i l.
Proof. revert i. induction l as [|x l IH]; intros [|i]; [done|done|done|]. cbn. f_equal. apply IH. Qed.

Lemma alter_perm es n i new : ent_position es n = Some i -> exists e, entry es n = Some e /\ ent_name e = n /\
  alter (fun e => with_name e new) i es ≡ₚ with_name e new :: delete i es.
Proof.
  intros Hi. destruct (delete_perm es n i Hi) as (e & He & Hn & Hl & _). exists e. split; [done|]. split; [done|].
  rewrite (delete_Permutation _ i (with_name e new)) by (rewrite list_lookup_alter_eq, Hl; done).
  by rewrite delete_alter_same.
Qed.

(** The renaming inside one directory. *)
Lemma rename_perm es old new i : NoDup (names es) -> ent_position es old = Some i -> old <> new ->
  exists e rest, entry es old = Some e /\
    es ≡ₚ e :: option_list (entry es new) ++ rest /\
    (match ent_position es new with Some j => delete j (alter (fun e => with_name e new) i es) | None => alter (fun e => with_name e new) i es end)
      ≡ₚ with_name e new :: rest.
Proof.
  intros Hnd Hi Hne. destruct (alter_perm es old i new Hi) as (e & He & Hn & Hp). destruct (delete_perm es old i Hi) as (e' & He' & _ & Hl & Hd).
  assert (e' = e) as -> by congruence. destruct (ent_position es new) as [j|] eqn:Ej.
  - destruct (ent_position_Some es new j Ej) as (y & Hy & Hny & Hey). rewrite Hey. assert (i <> j) as Hij.
    { intros ->. rewrite Hl in Hy. injection Hy as ->. congruence. }
    assert (y ∈ delete i es) as Hyd.
    { assert (y ∈ e :: delete i es) as Hin by (rewrite <- Hd; by eapply list_elem_of_lookup_2).
      apply elem_of_cons in Hin as [->|Hin]; [congruence|done]. }
    apply elem_of_Permutation in Hyd as [rest Hr]. exists e, rest. split; [done|]. split; [by rewrite Hd, Hr|].
    apply (Permutation_cons_inv (a := y)). rewrite <- (delete_Permutation _ j y) by (rewrite list_lookup_alter_ne; done).
    rewrite Hp, Hr. apply Permutation_swap.
  - exists e, (delete i es). split; [done|]. rewrite (ent_position_None _ _ Ej). done.
Qed.

(** ** The invariant of the file system *)

Definition typed (n : TmpFsInode) : Prop :=
  file_type (inode_attr n) = match n with RegInode _ => File | DirInode _ _ => Directory | SymInode _ _ _ => Symlink end.

(** An entry leads to an inode of the kind it says. *)
Definition ent_ok (fs : TmpFs) (e : TmpFsDirEnt) : Prop :=
  ent_id e = mkInodeId (tfs_id fs) (ent_inode e) /\
  exists n, inodes fs !! ent_inode e = Some n /\ file_type (inode_attr n) = ent_kind e.

Record fs_ok (fs : TmpFs) : Prop := {
  ok_next : 0 <= next_inode_id fs < 2 ^ 64;
  ok_ids : forall i n, inodes fs !! i = Some n -> i < next_inode_id fs;
  ok_typed : forall i n, inodes fs !! i = Some n -> typed n;
  ok_names : forall d es a, inodes fs !! d = Some (DirInode es a) -> NoDup (names es);
  ok_ents : forall d es a e, inodes fs !! d = Some (DirInode es a) -> e ∈ es -> ent_ok fs e
}.

Definition is_dir (fs : TmpFs) (d : Z) : Prop := exists es a, inodes fs !! d = Some (DirInode es a).

(** What a name in a directory leads to. *)
Definition info (e : TmpFsDirEnt) : Z * FileType := (ent_inode e, ent_kind e).
Definition leads (fs : TmpFs) (d : Z) (n : bytes) : option (Z * FileType) :=
  match inodes fs !! d with Some (DirInode es _) => info <$> entry es n | _ => None end.

Lemma leads_dir fs d es a n : inodes fs !! d = Some (DirInode es a) -> leads fs d n = info <$> entry es n.
Proof. intros Hd. unfold leads. by rewrite Hd. Qed.

Lemma dir_entries_dir fs d es a : inodes fs !! d = Some (DirInode es a) -> dir_entries fs d = Return es.
Proof. intros Hd. unfold dir_entries. by rewrite Hd. Qed.

Lemma set_entries_lookup fs d es a es' i : inodes fs !! d = Some (DirInode es a) ->
  inodes (set_entries fs d es') !! i = if decide (i = d) then Some (DirInode es' a) else inodes fs !! i.
Proof.
  intros Hd. unfold set_entries. rewrite Hd. simpl. case_decide as Hi; [subst; apply lookup_insert_eq|]. by apply lookup_insert_ne.
Qed.

Lemma set_entries_fields fs d es : tfs_id (set_entries fs d es) = tfs_id fs /\ next_inode_id (set_entries fs d es) = next_inode_id fs.
Proof. unfold set_entries. by destruct (inodes fs !! d) as [[]|]. Qed.

Lemma set_entries_leads fs d es a es' d' n : inodes fs !! d = Some (DirInode es a) ->
  leads (set_entries fs d es') d' n = if decide (d' = d) then info <$> entry es' n else leads fs d' n.
Proof. intros Hd. unfold leads. rewrite (set_entries_lookup _ _ _ _ _ _ Hd). by case_decide. Qed.

(** An inode keeps its type. *)
Lemma ent_ok_mono fs fs' e : tfs_id fs' = tfs_id fs ->
  (forall i n, inodes fs !! i = Some n -> exists n', inodes fs' !! i = Some n' /\ file_type (inode_attr n') = file_type (inode_attr n)) ->
  ent_ok fs e -> ent_ok fs' e.
Proof. intros Hid Hn (Hi & n & Hl & Ht). split; [by rewrite Hid|]. destruct (Hn _ _ Hl) as (n' & Hl' & Ht'). exists n'. split; [done|congruence]. Qed.

Lemma set_entries_ent fs d es a es' e : inodes fs !! d = Some (DirInode es a) -> ent_ok fs e -> ent_ok (set_entries fs d es') e.
Proof.
  intros Hd. apply ent_ok_mono; [apply set_entries_fields|]. intros i n Hi. rewrite (set_entries_lookup _ _ _ _ _ _ Hd).
  case_decide; [subst; simplify_eq; eauto|eauto].
Qed.

Lemma set_entries_ok fs d es a es' : fs_ok fs -> inodes fs !! d = Some (DirInode es a) -> NoDup (names es') ->
  (forall e, e ∈ es' -> ent_ok fs e) -> fs_ok (set_entries fs d es').
Proof.
  intros [O1 O2 O3 O4 O5] Hd Hn He. destruct (set_entries_fields fs d es') as [E1 E2]. split; rewrite ?E1, ?E2.
  - done.
  - intros i n. rewrite (set_entries_lookup _ _ _ _ _ _ Hd). case_decide; [subst; intros _; by eapply O2|apply O2].
  - intros i n. rewrite (set_entries_lookup _ _ _ _ _ _ Hd). case_decide; [|apply O3]. intros [= <-]. apply (O3 _ _ Hd).
  - intros d' es1 a1. rewrite (set_entries_lookup _ _ _ _ _ _ Hd). case_decide; [by intros [= <- <-]|apply O4].
  - intros d' es1 a1 e. rewrite (set_entries_lookup _ _ _ _ _ _ Hd). intros Hl Hin. eapply set_entries_ent; [done|].
    case_decide; [simplify_eq; by apply He|by eapply O5].
Qed.

Lemma with_name_info e n : info (with_name e n) = info e.
Proof. done. Qed.
Lemma with_name_ok fs e n : ent_ok fs e -> ent_ok fs (with_name e n).
Proof. done. Qed.

Lemma names_cons e es : names (e :: es) = ent_name e :: names es.
Proof. done. Qed.
Lemma names_app es es' : names (es ++ es') = names es ++ names es'.
Proof. apply fmap_app. Qed.

(** ** Renaming *)

Lemma rename_within_spec fs d old new nr : fs_ok fs -> is_dir fs d -> old <> new ->
  exists res fs', rename_within fs d old new nr = Return (res, fs') /\ fs_ok fs' /\
    match res with
    | Ok _ => is_Some (leads fs d old) /\ forall d' n, leads fs' d' n =
        if decide (d' = d /\ n = new) then leads fs d old else if decide (d' = d /\ n = old) then None else leads fs d' n
    | Err e => fs' = fs /\ (nr = true /\ is_Some (leads fs d new) /\ e = Fs AlreadyExists \/ leads fs d old = None /\ e = Fs NotFound)
    end.
Proof.
  intros O (es & a & Hd) Hne. unfold rename_within. rewrite (dir_entries_dir _ _ _ _ Hd). ostep. pose proof (ok_names fs O d es a Hd) as Hnd.
  rewrite !(leads_dir fs d es a) by done. destruct (nr && has_name es new) eqn:E.
  { apply andb_true_iff in E as [-> He%has_name_entry]. eexists _, fs. split; [done|]. split; [done|]. split; [done|]. left. by rewrite fmap_is_Some. }
  destruct (ent_position es old) as [i|] eqn:Ei.
  2: { eexists _, fs. split; [done|]. split; [done|]. split; [done|]. right. by rewrite (ent_position_None _ _ Ei). }
  destruct (rename_perm es old new i Hnd Ei Hne) as (e & rest & He & P1 & P2). set (es' := match ent_position es new with Some j => _ | None => _ end) in *.
  pose proof (entry_elem _ _ _ He) as [Hin Hen]. pose proof Hnd as Hnd1. rewrite (names_perm _ _ P1), names_cons, names_app in Hnd1.
  apply NoDup_cons in Hnd1 as [Hold Hnd1]. rewrite not_elem_of_app in Hold. destruct Hold as [Hold1 Hold2]. apply NoDup_app in Hnd1 as (_ & Hdis & Hrest).
  assert (Hnew : new ∉ names rest).
  { destruct (entry es new) as [y|] eqn:Ey; simpl in *.
    - apply entry_elem in Ey as [_ <-]. apply Hdis. by left.
    - apply entry_None in Ey. rewrite (names_perm _ _ P1), names_cons, not_elem_of_cons in Ey. tauto. }
  assert (Hnd' : NoDup (names es')). { rewrite (names_perm _ _ P2), names_cons. by apply NoDup_cons. }
  eexists _, _. split; [done|]. split; [|split; [by rewrite He|]].
  - eapply set_entries_ok; [done|done|done|]. intros x Hx. rewrite P2 in Hx. apply elem_of_cons in Hx as [->|Hx].
    + apply with_name_ok. by eapply (ok_ents fs O).
    + eapply (ok_ents fs O); [done|]. rewrite P1. right. apply elem_of_app. by right.
  - intros d' n. rewrite (set_entries_leads fs d es a) by done. rewrite (entry_perm _ _ n Hnd' P2), entry_cons. cbn [ent_name with_name].
    destruct (decide (d' = d)) as [->|Hd']; [|rewrite !decide_False by tauto; done]. rewrite (leads_dir fs d es a n Hd).
    destruct (decide (n = new)) as [->|Hn1]; [rewrite !decide_True by done; by rewrite He|].
    rewrite (decide_False (P := new = n)) by congruence. rewrite (decide_False (P := d = d /\ n = new)) by tauto.
    rewrite (entry_perm es _ n Hnd P1), entry_cons, entry_app. destruct (decide (n = old)) as [->|Hn2].
    + rewrite decide_True by done. apply entry_None in Hold2. by rewrite Hen in Hold2; rewrite Hold2.
    + rewrite (decide_False (P := d = d /\ n = old)) by tauto. rewrite decide_False by congruence.
      destruct (entry es new) as [y|] eqn:Ey; [|done]. apply entry_elem in Ey as [_ Hy]. simpl. rewrite entry_cons, decide_False by congruence. done.
Qed.

(** Why a rename between directories may be refused, by what source and target are. *)
Definition refused (fs : TmpFs) (source : FileType) (ti : Z) (target : FileType) (e : KernelError) : Prop :=
  (target = Directory /\ (exists x es a, inodes fs !! ti = Some (DirInode (x :: es) a)) /\ e = Fs DirectoryNotEmpty) \/
  (target = Directory /\ source <> Directory /\ e = Fs IsADirectory) \/
  (target <> Directory /\ source <> Directory /\ e = Fs NotADirectory).

Lemma may_replace_spec fs source target : fs_ok fs -> ent_ok fs target ->
  exists r, may_replace fs source target = Return r /\
    match r with
    | Ok _ => ent_kind source = Directory /\ (ent_kind target = Directory -> exists a, inodes fs !! ent_inode target = Some (DirInode [] a))
    | Err e => refused fs (ent_kind source) (ent_inode target) (ent_kind target) e
    end.
Proof.
  intros O (_ & n & Hn & Hk). pose proof (ok_typed fs O _ _ Hn) as Ht. unfold may_replace, refused.
  destruct (decide (ent_kind target = Directory)) as [Ed|Ed].
  - unfold dir_is_empty. rewrite Hn. ostep. unfold typed in Ht. rewrite Hk, Ed in Ht. destruct n as [r|es a|t at_ x]; try done.
    destruct es as [|e es]; [|eexists; split; [done|]; left; split_and!; eauto].
    case_decide; eexists; (split; [done|]); [split; [done|]; eauto|right; left; done].
  - case_decide; eexists; (split; [done|]); [by split|right; right; done].
Qed.

(** The target, if there is one, makes way. *)
Lemma take_target fs es d a new : fs_ok fs -> inodes fs !! d = Some (DirInode es a) ->
  exists rest, es ≡ₚ option_list (entry es new) ++ rest /\ new ∉ names rest /\
    match ent_position es new with Some j => delete j es = rest | None => es = rest end.
Proof.
  intros O Hd. pose proof (ok_names fs O d es a Hd) as Hnd. destruct (ent_position es new) as [j|] eqn:Ej.
  - destruct (delete_perm es new j Ej) as (y & Hy & Hny & _ & Hp). exists (delete j es). rewrite Hy. split_and!; try done.
    rewrite (names_perm _ _ Hp), names_cons in Hnd. apply NoDup_cons in Hnd as [Hx _]. by rewrite Hny in Hx.
  - exists es. rewrite (ent_position_None _ _ Ej). split_and!; try done. apply entry_None. by apply ent_position_None.
Qed.

Lemma rename_across_ok fs old_d d old new i entry0 old_es old_a es a rest : fs_ok fs -> old_d <> d ->
  inodes fs !! old_d = Some (DirInode old_es old_a) -> inodes fs !! d = Some (DirInode es a) ->
  ent_position old_es old = Some i -> entry old_es old = Some entry0 ->
  es ≡ₚ option_list (entry es new) ++ rest -> new ∉ names rest ->
  let fs' := set_entries (set_entries fs old_d (delete i old_es)) d (rest ++ [with_name entry0 new]) in
  fs_ok fs' /\ forall d' n, leads fs' d' n =
    if decide (d' = d /\ n = new) then leads fs old_d old else if decide (d' = old_d /\ n = old) then None else leads fs d' n.
Proof.
  intros O Hne Ho Hd Hi He Hp Hnr fs'. destruct (delete_perm old_es old i Hi) as (e & He' & Hn & _ & Hdel). assert (e = entry0) as -> by congruence.
  pose proof (ok_names fs O _ _ _ Ho) as Hnd1. pose proof (ok_names fs O _ _ _ Hd) as Hnd2.
  assert (Hd1 : inodes (set_entries fs old_d (delete i old_es)) !! d = Some (DirInode es a)).
  { rewrite (set_entries_lookup _ _ _ _ _ _ Ho). by rewrite decide_False by congruence. }
  assert (Hnd1' : NoDup (names (delete i old_es)) /\ old ∉ names (delete i old_es)).
  { pose proof Hnd1 as N. rewrite (names_perm _ _ Hdel), names_cons in N. apply NoDup_cons in N as [N1 N2]. by rewrite Hn in N1. }
  assert (Hrest : NoDup (names rest)). { pose proof Hnd2 as N. rewrite (names_perm _ _ Hp), names_app in N. by apply NoDup_app in N as (_ & _ & ?). }
  assert (O1 : fs_ok (set_entries fs old_d (delete i old_es))).
  { eapply set_entries_ok; [done|done|apply Hnd1'|]. intros x Hx. eapply (ok_ents fs O); [exact Ho|]. rewrite Hdel. by right. }
  split.
  - eapply set_entries_ok; [done|exact Hd1| |].
    + rewrite names_app. apply NoDup_app. split_and!; [done| |apply NoDup_singleton]. intros x Hx Hx2%list_elem_of_singleton. subst. done.
    + intros x Hx. eapply set_entries_ent; [exact Ho|]. apply elem_of_app in Hx as [Hx|Hx%list_elem_of_singleton].
      * eapply (ok_ents fs O); [exact Hd|]. rewrite Hp. apply elem_of_app. by right.
      * subst x. apply with_name_ok. eapply (ok_ents fs O); [exact Ho|]. rewrite Hdel. by left.
  - intros d' n. unfold fs'. rewrite (set_entries_leads _ d es a) by done. rewrite (set_entries_leads _ old_d old_es old_a) by done.
    rewrite (leads_dir fs old_d old_es old_a old Ho), He. rewrite entry_app, entry_cons. cbn [ent_name with_name].
    destruct (decide (d' = d)) as [->|Hd'].
    + rewrite (decide_False (P := d = old_d /\ n = old)) by naive_solver. rewrite (leads_dir fs d es a n Hd).
      destruct (decide (n = new)) as [->|Hn1].
      * rewrite (proj2 (entry_None rest new)) by done. by rewrite !decide_True by done.
      * rewrite (decide_False (P := new = n)) by congruence. rewrite (decide_False (P := d = d /\ n = new)) by tauto.
        rewrite (entry_perm es _ n Hnd2 Hp), entry_app. destruct (entry es new) as [y|] eqn:Ey; simpl.
        -- apply entry_elem in Ey as [_ Hy]. rewrite entry_cons, decide_False by congruence. simpl. by destruct (entry rest n).
        -- by destruct (entry rest n).
    + rewrite (decide_False (P := d' = d /\ n = new)) by tauto. destruct (decide (d' = old_d)) as [->|Hd2]; [|by rewrite decide_False by tauto].
      rewrite (leads_dir fs old_d old_es old_a n Ho). destruct (decide (n = old)) as [->|Hn1].
      * rewrite decide_True by done. by rewrite (proj2 (entry_None (delete i old_es) old)) by apply Hnd1'.
      * rewrite decide_False by tauto. rewrite (entry_perm old_es _ n Hnd1 Hdel), entry_cons, decide_False by congruence. done.
Qed.

Lemma rename_across_spec fs old_d d old new nr : fs_ok fs -> is_dir fs old_d -> is_dir fs d -> old_d <> d ->
  exists res fs', rename_across fs old_d d old new nr = Return (res, fs') /\ fs_ok fs' /\
    match res with
    | Ok _ => is_Some (leads fs old_d old) /\ forall d' n, leads fs' d' n =
        if decide (d' = d /\ n = new) then leads fs old_d old else if decide (d' = old_d /\ n = old) then None else leads fs d' n
    | Err e => fs' = fs /\
        (nr = true /\ is_Some (leads fs d new) /\ e = Fs AlreadyExists \/ leads fs old_d old = None /\ e = Fs NotFound \/
         exists si s ti t, leads fs old_d old = Some (si, s) /\ leads fs d new = Some (ti, t) /\ refused fs s ti t e)
    end.
Proof.
  intros O (old_es & old_a & Ho) (es & a & Hd) Hne. unfold rename_across. rewrite (dir_entries_dir _ _ _ _ Ho), (dir_entries_dir _ _ _ _ Hd). ostep.
  rewrite (leads_dir fs old_d old_es old_a old Ho), (leads_dir fs d es a new Hd).
  destruct (nr && has_name es new) eqn:E.
  { apply andb_true_iff in E as [-> He%has_name_entry]. eexists _, fs. split; [done|]. split; [done|]. split; [done|]. left. by rewrite fmap_is_Some. }
  destruct (ent_position old_es old) as [i|] eqn:Ei.
  2: { assert (forall x : option nat, exists r, (match x with Some _ | _ => Return (Ok tt, es) end) = Return (Ok (A := unit) tt, r)) as Hx by (intros [?|]; eauto).
       eexists _, fs. split; [by destruct (ent_position es new)|]. split; [done|]. split; [done|]. right; left. by rewrite (ent_position_None _ _ Ei). }
  destruct (ent_position_Some old_es old i Ei) as (source & Hs & Hsn & Hse). destruct (take_target fs es d a new O Hd) as (rest & Hp & Hnr & Hpos).
  pose proof (rename_across_ok fs old_d d old new i source old_es old_a es a rest O Hne Ho Hd Ei Hse Hp Hnr) as [O' L'].
  rewrite (leads_dir fs old_d old_es old_a old Ho) in L'. rewrite Hs, Hse in *. destruct (ent_position es new) as [j|] eqn:Ej.
  - destruct (ent_position_Some es new j Ej) as (target & Ht & Htn & Hte). rewrite Ht. ostep.
    destruct (may_replace_spec fs source target O) as (r & -> & Hr). { eapply (ok_ents fs O); [exact Hd|]. by eapply list_elem_of_lookup_2. }
    ostep. destruct r as [u|e].
    + rewrite Hpos. ostep. eexists _, _. split; [done|]. split; [exact O'|]. split; [done|exact L'].
    + eexists _, fs. split; [done|]. split; [done|]. split; [done|]. right; right. rewrite Hte. eexists _, _, _, _. by split_and!.
  - subst rest. ostep. eexists _, _. split; [done|]. split; [exact O'|]. split; [done|exact L'].
Qed.


(** ** The other operations *)

(** An inode is replaced by one of the same kind, with the same entries. *)
Lemma set_inode_ok fs i n n' : fs_ok fs -> inodes fs !! i = Some n -> typed n' -> file_type (inode_attr n') = file_type (inode_attr n) ->
  (forall es a, n' = DirInode es a -> exists a0, n = DirInode es a0) -> fs_ok (set_inode fs i n').
Proof.
  intros [O1 O2 O3 O4 O5] Hi Ht Hk He.
  assert (Hlk : forall j, inodes (set_inode fs i n') !! j = if decide (j = i) then Some n' else inodes fs !! j).
  { intros j. simpl. case_decide; [subst; apply lookup_insert_eq|by apply lookup_insert_ne]. }
  assert (Hmono : forall e, ent_ok fs e -> ent_ok (set_inode fs i n') e).
  { intros e. apply ent_ok_mono; [done|]. intros j x Hj. rewrite Hlk. case_decide; [|eauto]. subst. simplify_eq. eauto. }
  split; [done| | | |].
  - intros j x. rewrite Hlk. case_decide; [subst; intros _; by eapply O2|apply O2].
  - intros j x. rewrite Hlk. case_decide; [by intros [= <-]|apply O3].
  - intros j es a. rewrite Hlk. case_decide; [|apply O4]. intros [= ->]. destruct (He _ _ eq_refl) as [a0 ->]. subst. by eapply O4.
  - intros j es a e. rewrite Hlk. intros Hj Hin. apply Hmono. case_decide; [|by eapply O5]. injection Hj as ->.
    destruct (He _ _ eq_refl) as [a0 ->]. subst. by eapply O5.
Qed.

(** A new inode, and an entry for it under a name that is free. *)
Lemma add_inode_ok fs d es a name n : fs_ok fs -> inodes fs !! d = Some (DirInode es a) -> has_name es name = false ->
  next_inode_id fs + 1 < 2 ^ 64 -> typed n -> (forall es a, n = DirInode es a -> es = []) ->
  let new_id := next_inode_id fs in
  let fs1 := mkTmpFs (tfs_id fs) (uadd new_id 1) (<[new_id := n]> (inodes fs)) in
  fs_ok (set_entries fs1 d (es ++ [mkEnt name (mkInodeId (tfs_id fs) new_id) (file_type (inode_attr n)) new_id])).
Proof.
  intros O Hd Hn Hnext Ht Hempty new_id fs1. pose proof O as [O1 O2 O3 O4 O5]. fold new_id in O1.
  assert (Hfree : forall j x, inodes fs !! j = Some x -> j <> new_id) by (intros j x Hj ->; specialize (O2 _ _ Hj); unfold new_id in O2; lia).
  assert (Hlk : forall j, inodes fs1 !! j = if decide (j = new_id) then Some n else inodes fs !! j).
  { intros j. simpl. case_decide; [subst; apply lookup_insert_eq|by apply lookup_insert_ne]. }
  assert (Hmono : forall e, ent_ok fs e -> ent_ok fs1 e).
  { intros e. apply ent_ok_mono; [done|]. intros j x Hj. rewrite Hlk, decide_False by eauto. eauto. }
  assert (Hu : uadd new_id 1 = new_id + 1) by (apply uadd_small; unfold new_id in *; lia).
  assert (O' : fs_ok fs1).
  { split; simpl; rewrite ?Hu; unfold new_id in *.
    - lia.
    - intros j x Hj. change (inodes fs1 !! j = Some x) in Hj. rewrite Hlk in Hj. case_decide; [lia|]. specialize (O2 _ _ Hj). lia.
    - intros j x Hj. change (inodes fs1 !! j = Some x) in Hj. rewrite Hlk in Hj. case_decide; [by injection Hj as <-|by eapply O3].
    - intros j es1 a1 Hj. change (inodes fs1 !! j = Some (DirInode es1 a1)) in Hj. rewrite Hlk in Hj. case_decide; [|by eapply O4].
      injection Hj as ->. rewrite (Hempty es1 a1) by done. constructor.
    - intros j es1 a1 e Hj Hin. change (inodes fs1 !! j = Some (DirInode es1 a1)) in Hj. rewrite Hlk in Hj. apply Hmono.
      case_decide; [|by eapply O5]. injection Hj as ->. rewrite (Hempty es1 a1) in Hin by done. by apply not_elem_of_nil in Hin. }
  assert (Hd1 : inodes fs1 !! d = Some (DirInode es a)) by (rewrite Hlk, decide_False by eauto; done).
  eapply set_entries_ok; [exact O'|exact Hd1| |].
  - rewrite names_app. apply NoDup_app. split_and!; [by eapply O4| |apply NoDup_singleton]. intros x Hx Hx2%list_elem_of_singleton. subst x.
    assert (entry es name = None) as HN; [|by apply entry_None in HN].
    destruct (entry es name) eqn:E; [|done]. assert (has_name es name = true); [|congruence]. apply has_name_entry. by rewrite E.
  - intros e He. apply elem_of_app in He as [He|He%list_elem_of_singleton]; [apply Hmono; by eapply O5|]. subst e.
    split; [done|]. exists n. split; [|done]. simpl. by rewrite lookup_insert_eq.
Qed.

Lemma unlink_ok fs d name res fs' : fs_ok fs -> tmp_unlink fs d name = Return (res, fs') -> fs_ok fs'.
Proof.
  intros O. unfold tmp_unlink, dir_entries. destruct (inodes fs !! d) as [[|es a|]|] eqn:Hd; try done. ostep.
  destruct (ent_position es name) as [i|] eqn:Ei; intros [= <- <-]; [|done]. destruct (delete_perm es name i Ei) as (e & _ & _ & _ & Hp).
  pose proof (ok_names fs O d es a Hd) as Hn. rewrite (names_perm _ _ Hp), names_cons in Hn. apply NoDup_cons in Hn as [_ Hn].
  eapply set_entries_ok; [done|done|done|]. intros x Hx. eapply (ok_ents fs O); [done|]. rewrite Hp. by right.
Qed.

Lemma symlink_ok fs d name target res fs' : fs_ok fs -> next_inode_id fs + 1 < 2 ^ 64 -> tmp_symlink fs d name target = Return (res, fs') -> fs_ok fs'.
Proof.
  intros O Hnext. unfold tmp_symlink, dir_entries. destruct (inodes fs !! d) as [[|es a|]|] eqn:Hd; try done. ostep.
  destruct (has_name es name) eqn:E; intros [= <- <-]; [done|]. by apply (add_inode_ok fs d es a name (symlink_new target)).
Qed.

Lemma inode_setattr_typed n a : typed n -> file_type a = file_type (inode_attr n) -> typed (inode_setattr n a) /\ inode_attr (inode_setattr n a) = a.
Proof. unfold typed. destruct n; simpl; intros; split; congruence. Qed.

Lemma link_ok fs d name i res fs' : fs_ok fs -> tmp_link fs d name i = Return (res, fs') -> fs_ok fs'.
Proof.
  intros O. unfold tmp_link. destruct (inodes fs !! i) as [n|] eqn:Hi; [|done]. ostep.
  destruct (inode_setattr_typed n (add_link (inode_attr n))) as [Ht Ha]; [by eapply (ok_typed fs O)|done|].
  assert (O1 : fs_ok (set_inode fs i (inode_setattr n (add_link (inode_attr n))))).
  { eapply set_inode_ok; [done|done|done|by rewrite Ha|]. intros es a E. destruct n; try done. simpl in E. injection E as <- <-. eauto. }
  set (fs1 := set_inode _ _ _) in *. unfold dir_entries. destruct (inodes fs1 !! d) as [[|es a|]|] eqn:Hd; try done. ostep.
  destruct (has_name es name) eqn:E; intros [= <- <-]; [done|]. eapply set_entries_ok; [done|done| |].
  - rewrite names_app. apply NoDup_app. split_and!; [by eapply (ok_names fs1 O1)| |apply NoDup_singleton]. intros x Hx Hx2%list_elem_of_singleton. subst x.
    assert (entry es name = None) as HN; [|by apply entry_None in HN].
    destruct (entry es name) eqn:Ee; [|done]. assert (has_name es name = true); [|congruence]. apply has_name_entry. by rewrite Ee.
  - intros e He. apply elem_of_app in He as [He|He%list_elem_of_singleton]; [by eapply (ok_ents fs1 O1)|]. subst e.
    split; [done|]. eexists. split; [simpl; apply lookup_insert_eq|]. by rewrite Ha.
Qed.

Section Histories.
Context {L : Type} `{IntrusiveListLaws L}.

Lemma create_ok m fs d name ty mode res m' fs' : fs_ok fs -> next_inode_id fs + 1 < 2 ^ 64 ->
  tmp_create m fs d name ty mode = Return (res, (m', fs')) -> fs_ok fs'.
Proof.
  intros O Hnext. unfold tmp_create, dir_entries. destruct (inodes fs !! d) as [[|es a|]|] eqn:Hd; try done. ostep.
  destruct (has_name es name) eqn:E; [by intros [= <- <- <-]|]. unfold alloc_inode_id. cbn [tfs_id].
  assert (O1 : fs_ok (mkTmpFs (tfs_id fs) (uadd (next_inode_id fs) 1) (inodes fs))).
  { destruct O as [O1 O2 O3 O4 O5]. rewrite uadd_small by lia. split; simpl; try done; [lia|]. intros i n Hi. specialize (O2 _ _ Hi). lia. }
  destruct ty; try (intros [= <- <- <-]; exact O1).
  - destruct (reg_new m _ mode) as [[r m1]| |] eqn:Er; try done. ostep. unfold reg_new in Er.
    destruct (page_alloc_zeroed m) as [[[p|e] m2]| |]; try done; injection Er as <- <-; [|by intros [= <- <- <-]].
    intros [= <- <- <-].
    match goal with |- context [RegInode ?f] => refine (add_inode_ok fs d es a name (RegInode f) O Hd E Hnext eq_refl _) end. done.
  - ostep. intros [= <- <- <-]. refine (add_inode_ok fs d es a name (dir_inode_new mode) O Hd E Hnext eq_refl _). by intros es1 a1 [= <- <-].
Qed.

(** Whatever the calls on its inodes do, one after the other.  [TInode] is any change of one
    inode that keeps its kind and its entries: writes, truncation, attributes. *)
Inductive tmpfs_step (fs : TmpFs) : TmpFs -> Prop :=
| TCreate m d name ty mode res m' fs' : next_inode_id fs + 1 < 2 ^ 64 ->
    tmp_create m fs d name ty mode = Return (res, (m', fs')) -> tmpfs_step fs fs'
| TSymlink d name target res fs' : next_inode_id fs + 1 < 2 ^ 64 -> tmp_symlink fs d name target = Return (res, fs') -> tmpfs_step fs fs'
| TUnlink d name res fs' : tmp_unlink fs d name = Return (res, fs') -> tmpfs_step fs fs'
| TLink d name i res fs' : tmp_link fs d name i = Return (res, fs') -> tmpfs_step fs fs'
| TRename d old_d old new nr res fs' : is_dir fs d -> is_dir fs old_d ->
    tmp_rename_from fs d (TmpParent old_d) old new nr = Return (res, fs') -> tmpfs_step fs fs'
| TInode i n n' : inodes fs !! i = Some n -> typed n' -> file_type (inode_attr n') = file_type (inode_attr n) ->
    (forall es a, n' = DirInode es a -> exists a0, n = DirInode es a0) -> tmpfs_step fs (set_inode fs i n').

Lemma tmpfs_step_ok fs fs' : fs_ok fs -> tmpfs_step fs fs' -> fs_ok fs'.
Proof.
  intros O [m d name ty mode res m' fs1 Hn E|d name target res fs1 Hn E|d name res fs1 E|d name i res fs1 E|d old_d old new nr res fs1 Hd Ho E|i n n' Hi Ht Hk He].
  - by eapply create_ok.
  - by eapply symlink_ok.
  - by eapply unlink_ok.
  - by eapply link_ok.
  - unfold tmp_rename_from in E. cbn [parent_id] in E. destruct (bool_decide (old = new) && (old_d =? d)) eqn:Eb; [by injection E as <- <-|].
    destruct (Z.eqb_spec old_d d) as [->|Hne].
    + destruct (rename_within_spec fs d old new nr O Hd) as (r & f & E' & O' & _); [|congruence].
      intros ->. rewrite bool_decide_true in Eb by done. done.
    + destruct (rename_across_spec fs old_d d old new nr O Ho Hd Hne) as (r & f & E' & O' & _). congruence.
  - by eapply set_inode_ok.
Qed.

Lemma tmpfs_new_ok id : fs_ok (tmpfs_new id).
Proof.
  assert (Hlk : forall i n, inodes (tmpfs_new id) !! i = Some n -> i = 1 /\ n = dir_inode_new 502).
  { intros i n Hi. simpl in Hi. apply lookup_singleton_Some in Hi as [<- <-]. done. }
  split.
  - simpl. lia.
  - intros i n [-> ->]%Hlk. simpl. lia.
  - intros i n [-> ->]%Hlk. done.
  - intros d es a [_ E]%Hlk. injection E as -> _. constructor.
  - intros d es a e [_ E]%Hlk. injection E as -> _. by intros ?%not_elem_of_nil.
Qed.

(** C15: the tree of the in-memory file system stays well formed, whatever files, directories,
    links and symbolic links are made, removed and renamed in it: in every directory the names
    are unique, every entry leads to an inode that exists, of the kind and with the number the
    entry says, and inode numbers are never given out twice. *)
Theorem tmpfs_invariant (id : Z) (fs : TmpFs) (Hreach : rtc tmpfs_step (tmpfs_new id) fs) (d : Z) (es : list TmpFsDirEnt) (a : FileAttr)
  (Hd : inodes fs !! d = Some (DirInode es a)) :
  NoDup (names es) /\ d < next_inode_id fs /\
  forall e, e ∈ es -> ent_inode e < next_inode_id fs /\ ent_id e = mkInodeId (tfs_id fs) (ent_inode e) /\
    exists n, inodes fs !! ent_inode e = Some n /\ typed n /\ file_type (inode_attr n) = ent_kind e.
Proof.
  assert (O : fs_ok fs).
  { pose proof (tmpfs_new_ok id) as O0. induction Hreach as [|f1 f2 f3 Hs _ IH]; [done|]. apply IH; [done|]. by eapply tmpfs_step_ok. }
  split; [by eapply (ok_names fs O)|]. split; [by eapply (ok_ids fs O)|]. intros e He.
  destruct (ok_ents fs O d es a e Hd He) as (Hid & n & Hn & Hk). split; [by eapply (ok_ids fs O)|]. split; [done|]. exists n.
  split_and!; [done|by eapply (ok_typed fs O)|done].
Qed.
End Histories.

(** ** An example: [a] and [b] in the root, and [a] moved into [b] *)

Definition after (o : outcome (result Z * (Pages (list Z) * TmpFs))) : TmpFs :=
  match o with Return (_, (_, fs)) => fs | _ => tmpfs_new 0 end.
Definition demo_mkdir (fs : TmpFs) (name : bytes) : outcome (result Z * (Pages (list Z) * TmpFs)) :=
  tmp_create (H := list_IntrusiveList) demo_pages fs 1 name Directory 493.
Definition demo_a : TmpFs := after (demo_mkdir (tmpfs_new 7) [97]).
Definition demo_b : TmpFs := after (demo_mkdir demo_a [98]).

Lemma demo_mkdir_a : exists r m, demo_mkdir (tmpfs_new 7) [97] = Return (r, (m, demo_a)).
Proof. eexists _, _. reflexivity. Qed.
Lemma demo_mkdir_b : exists r m, demo_mkdir demo_a [98] = Return (r, (m, demo_b)).
Proof. eexists _, _. reflexivity. Qed.

Lemma demo_reach : rtc (tmpfs_step (H := list_IntrusiveList)) (tmpfs_new 7) demo_b.
Proof.
  destruct demo_mkdir_a as (r & m & E). destruct demo_mkdir_b as (r' & m' & E'). unfold demo_mkdir in E, E'.
  eapply rtc_l; [eapply TCreate; [|exact E]; vm_compute; reflexivity|].
  eapply rtc_l; [eapply TCreate; [|exact E']; vm_compute; reflexivity|]. apply rtc_refl.
Qed.

Lemma demo_root : exists es a, inodes demo_b !! 1 = Some (DirInode es a) /\ names es = [[97]; [98]].
Proof. eexists _, _. split; vm_compute; reflexivity. Qed.

Lemma tmpfs_invariant_witness : exists es a, inodes demo_b !! 1 = Some (DirInode es a) /\ names es = [[97]; [98]] /\ NoDup (names es).
Proof.
  destruct demo_root as (es & a & Hd & Hn). exists es, a. split; [exact Hd|]. split; [exact Hn|].
  exact (proj1 (tmpfs_invariant 7 demo_b demo_reach 1 es a Hd)).
Defined.

Lemma demo_b_ok : fs_ok demo_b.
Proof.
  pose proof list_IntrusiveListLaws as LL. pose proof (tmpfs_new_ok 7) as O. pose proof demo_reach as R.
  induction R as [|f1 f2 f3 Hs _ IH]; [done|]. apply IH. eapply (tmpfs_step_ok (L := list Z)); done.
Qed.


(** * Defects *)

Definition demo_reg (id : Z) : TmpFsInode := RegInode (mkReg (mkInodeId 7 id) attr_default (mkInner 0 [] 0 0)).
(** The directories 2 with the file [x] and 3 with the files [x] and [y], both in the root. *)
Definition demo_tree : TmpFs := mkTmpFs 7 7 (list_to_map [
  (1, DirInode [mkEnt [97] (mkInodeId 7 2) Directory 2; mkEnt [98] (mkInodeId 7 3) Directory 3] attr_default);
  (2, DirInode [mkEnt [120] (mkInodeId 7 4) File 4] attr_default);
  (3, DirInode [mkEnt [120] (mkInodeId 7 5) File 5; mkEnt [121] (mkInodeId 7 6) File 6] attr_default);
  (4, demo_reg 4); (5, demo_reg 5); (6, demo_reg 6)]).

(** A file cannot replace a file of another directory. *)
Lemma rename_over_file_refused : tmp_rename_from demo_tree 3 (TmpParent 2) [120] [121] false = Return (Err (Fs NotADirectory), demo_tree).
Proof. vm_compute. reflexivity. Qed.

(** An exchange between directories leaves each file under its old name, and can leave two
    entries of one name. *)
Lemma exchange_keeps_names : exists fs', tmp_exchange demo_tree 2 [120] (TmpParent 3) [121] = Return (Ok tt, fs') /\
  leads fs' 2 [120] = None /\ leads fs' 2 [121] = Some (6, File) /\
  exists es a, inodes fs' !! 3 = Some (DirInode es a) /\ names es = [[120]; [120]].
Proof. eexists. split; [reflexivity|]. split; [reflexivity|]. split; [reflexivity|]. eexists _, _. split; reflexivity. Qed.

(** A directory that is not empty can be removed. *)
Lemma unlink_removes_full_directory : exists fs', tmp_unlink demo_tree 1 [97] = Return (Ok tt, fs') /\ leads fs' 1 [97] = None.
Proof. eexists. split; reflexivity. Qed.

(** A link that fails is counted. *)
Lemma failed_link_counts : exists fs' n, tmp_link demo_tree 3 [120] 4 = Return (Err (Fs AlreadyExists), fs') /\
  inodes fs' !! 4 = Some n /\ nlinks (inode_attr n) = 2.
Proof. eexists _, _. split; [reflexivity|]. split; reflexivity. Qed.

(** A directory can be moved into itself. *)
Lemma rename_into_itself : exists fs', tmp_rename_from demo_tree 2 (TmpParent 1) [97] [99] false = Return (Ok tt, fs') /\
  leads fs' 2 [99] = Some (2, Directory) /\ leads fs' 1 [97] = None.
Proof. eexists. split; [reflexivity|]. split; reflexivity. Qed.
