(* ===== verification/FdTable.v ===== *)
(** * File descriptors

    Models the descriptor table of src/process/fd_table.rs, the calls on it of
    fd_table/dup.rs, fd_table/fcntl.rs and src/fs/syscalls/close.rs, pipe2 of
    src/fs/pipe.rs as far as it makes files and descriptors, and what clone and execve do with
    the table (src/process/clone.rs, exec.rs).

    An open file is shared by [Arc]: it is a number here, and [Files] holds for each live
    file its strong count and its flags.  Every clone and drop of an [Arc] that the code makes
    is written out.  A file that loses its last reference is moved to the list [closed],
    with a flag that says whether [release] was called for it; the implementations of [release]
    all return [Ok].  The vector of a table grows up to [vec_max] entries, which is what
    the heap can hold; growing it further is an allocation failure, which panics. *)
From stdpp Require Import base list gmap.
From S2P Require Import Prelude Error Attr.
Local Open Scope Z_scope.

(** ** Open files and their reference counts *)

Record OpenFile := mkFile { of_strong : Z; of_flags : Z }.

Record Files := mkFiles {
  opened : gmap Z OpenFile;
  next_file : Z;
  closed : list (Z * bool)
}.

(** [Arc::new(OpenFile::new(_, flags))] *)
Definition arc_new (flags : Z) (fs : Files) : Z * Files :=
  (next_file fs, mkFiles (<[next_file fs := mkFile 1 flags]> (opened fs)) (next_file fs + 1) (closed fs)).

Definition arc_clone (f : Z) (fs : Files) : Files :=
  mkFiles (alter (fun o => mkFile (of_strong o + 1) (of_flags o)) f (opened fs)) (next_file fs) (closed fs).

(** Give up a reference; [released] says whether the last one is released or only dropped. *)
Definition arc_put (released : bool) (f : Z) (fs : Files) : Files :=
  match opened fs !! f with
  | Some o =>
      if of_strong o =? 1 then mkFiles (delete f (opened fs)) (next_file fs) ((f, released) :: closed fs)
      else mkFiles (<[f := mkFile (of_strong o - 1) (of_flags o)]> (opened fs)) (next_file fs) (closed fs)
  | None => fs
  end.
Notation arc_drop := (arc_put false).
(** [Arc::into_inner], followed by [release] if it gives the file. *)
Notation arc_into_inner_release := (arc_put true).

(** Flags of open files, with the values of aarch64. *)
Notation O_APPEND := (1024).
Notation O_NONBLOCK := (2048).
Notation O_CLOEXEC := (524288).
Notation OPEN_FLAGS_ALL := (724675).

Notation get_flags f fs := (match opened fs !! f with Some o => of_flags o | None => 0 end) (only parsing).

Definition set_status_flags (f flags : Z) (fs : Files) : Files :=
  let mutable := Z.lor O_APPEND O_NONBLOCK in
  mkFiles (alter (fun o => mkFile (of_strong o)
             (Z.lor (Z.ldiff (of_flags o) mutable) (Z.land flags mutable))) f (opened fs))
    (next_file fs) (closed fs).

(** ** Descriptor tables *)

Record FileDescriptorEntry := mkEntry { e_file : Z; e_flags : Z }.

Record FileDescriptorTable := mkTable {
  entries : list (option FileDescriptorEntry);
  next_fd_hint : Z
}.

Notation MAX_FDS := (8192).
Notation CLOEXEC := (1).

Definition as_i32 (x : Z) : Z := let y := x mod 2 ^ 32 in if y <? 2 ^ 31 then y else y - 2 ^ 32.

(** [self.entries.len()] *)
Definition zlen {A : Type} (l : list A) : Z := Z.of_nat (length l).

Notation fd_table_new := (mkTable [] 0) (only parsing).

(** [self.entries.get(fd.0 as usize).and_then(..)]: an index from a negative descriptor is
    beyond every vector. *)
Definition descriptor (t : FileDescriptorTable) (fd : Z) : option FileDescriptorEntry :=
  let fd_idx := wrap fd in
  if fd_idx <? zlen (entries t) then mjoin (entries t !! Z.to_nat fd_idx) else None.

Definition fd_get (t : FileDescriptorTable) (fd : Z) : option Z := e_file <$> descriptor t fd.

(** The first empty slot of the vector at or after [start]. *)
Fixpoint first_none {A : Type} (l : list (option A)) (i : Z) : option Z :=
  match l with
  | [] => None
  | None :: _ => Some i
  | Some _ :: l' => first_none l' (i + 1)
  end.
Definition free_from {A : Type} (l : list (option A)) (start : Z) : option Z :=
  first_none (drop (Z.to_nat (Z.min start (zlen l))) l) start.

Definition find_free_fd (t : FileDescriptorTable) : result Z * FileDescriptorTable :=
  match free_from (entries t) (next_fd_hint t) with
  | Some i => (Ok (as_i32 i), mkTable (entries t) (i + 1))
  | None =>
      let next := zlen (entries t) in
      if next >=? MAX_FDS then (Err (Fs TooManyFiles), t)
      else (Ok (as_i32 next), mkTable (entries t) (next + 1))
  end.

Section tables.
Context (vec_max : Z).

(** [entries[fd_idx].replace(entry)] panics if the index is out of range. *)
Definition insert_at (t : FileDescriptorTable) (fd : Z) (entry : FileDescriptorEntry)
    : outcome (option FileDescriptorEntry * FileDescriptorTable) :=
  let fd_idx := wrap fd in
  let! l :=
    (if fd_idx >=? zlen (entries t) then
       let n := uadd fd_idx 1 in
       if n <=? vec_max then Return (resize (Z.to_nat n) None (entries t)) else Panic
     else Return (entries t)) in
  if fd_idx <? zlen l then
    let! old := unwrap (l !! Z.to_nat fd_idx) in
    Return (old, mkTable (<[Z.to_nat fd_idx := Some entry]> l) (next_fd_hint t))
  else Panic.

Definition insert_with_flags (t : FileDescriptorTable) (file flags : Z)
    : outcome (result Z * FileDescriptorTable) :=
  let! (fd, t1) := Return (find_free_fd t) in
  match fd with
  | Err e => Return (Err e, t1)
  | Ok fd =>
      let! (_, t2) := insert_at t1 fd (mkEntry file flags) in
      Return (Ok fd, t2)
  end.

Notation fd_insert t file := (insert_with_flags t file 0) (only parsing).

Definition insert_above (t : FileDescriptorTable) (min_fd file : Z)
    : outcome (result Z * FileDescriptorTable) :=
  let start_idx := wrap min_fd in
  let entry := mkEntry file 0 in
  match free_from (entries t) start_idx with
  | Some i =>
      let fd := as_i32 i in
      let! (_, t') := insert_at t fd entry in
      Return (Ok fd, t')
  | None =>
      let fd := as_i32 (zlen (entries t)) in
      if zlen (entries t) <? vec_max
      then Return (Ok fd, mkTable (entries t ++ [Some entry]) (next_fd_hint t))
      else Panic
  end.

(** Replace the flags of an entry. *)
Definition set_entry_flags (t : FileDescriptorTable) (fd flags : Z) : FileDescriptorTable :=
  match descriptor t fd with
  | Some e => mkTable (<[Z.to_nat (wrap fd) := Some (mkEntry (e_file e) flags)]> (entries t)) (next_fd_hint t)
  | None => t
  end.

Definition add_flags (t : FileDescriptorTable) (fd flags : Z) : result unit * FileDescriptorTable :=
  match descriptor t fd with
  | Some e => (Ok tt, set_entry_flags t fd (Z.lor (e_flags e) flags))
  | None => (Err BadFd, t)
  end.

Definition fd_remove (t : FileDescriptorTable) (fd : Z) : option Z * FileDescriptorTable :=
  match descriptor t fd with
  | Some e =>
      let fd_idx := wrap fd in
      (Some (e_file e), mkTable (<[Z.to_nat fd_idx := None]> (entries t)) (Z.min (next_fd_hint t) fd_idx))
  | None => (None, t)
  end.

(** ** The system calls

    A call works on the table of its process and on the open files. *)

Definition dup_fd (t : FileDescriptorTable) (fs : Files) (fd : Z) (min_fd : option Z)
    : outcome (result Z * (FileDescriptorTable * Files)) :=
  match fd_get t fd with
  | None => Return (Err BadFd, (t, fs))
  | Some file =>
      let fs1 := arc_clone file (arc_clone file fs) in
      let! (new_fd, t') :=
        match min_fd with
        | Some min_fd => insert_above t min_fd file
        | None => fd_insert t file
        end in
      let fs2 := match new_fd with Ok _ => fs1 | Err _ => arc_drop file fs1 end in
      Return (new_fd, (t', arc_drop file fs2))
  end.

Definition sys_dup (t : FileDescriptorTable) (fs : Files) (fd : Z)
    : outcome (result Z * (FileDescriptorTable * Files)) :=
  let? (new_fd, s) := dup_fd t fs fd None in
  Return (Ok (wrap new_fd), s).

Definition sys_dup3 (t : FileDescriptorTable) (fs : Files) (oldfd newfd flags : Z)
    : outcome (result Z * (FileDescriptorTable * Files)) :=
  if oldfd =? newfd then Return (Err InvalidValue, (t, fs))
  else if negb (Z.ldiff flags O_CLOEXEC =? 0) then Return (Err InvalidValue, (t, fs))
  else
    match fd_get t oldfd with
    | None => Return (Err BadFd, (t, fs))
    | Some old_file =>
        let fs1 := arc_clone old_file (arc_clone old_file fs) in
        let! (replaced, t') :=
          insert_at t newfd (mkEntry old_file (if bits_contain flags O_CLOEXEC then CLOEXEC else 0)) in
        let fs2 := match replaced with Some e => arc_drop (e_file e) fs1 | None => fs1 end in
        Return (Ok (wrap newfd), (t', arc_drop old_file fs2))
    end.

Notation F_DUPFD := (0).
Notation F_GETFD := (1).
Notation F_SETFD := (2).
Notation F_GETFL := (3).
Notation F_SETFL := (4).
Notation F_DUPFD_CLOEXEC := (1030).

Definition sys_fcntl (t : FileDescriptorTable) (fs : Files) (fd op arg : Z)
    : outcome (result Z * (FileDescriptorTable * Files)) :=
  if op =? F_DUPFD then
    let? (new_fd, s) := dup_fd t fs fd (Some (as_i32 arg)) in Return (Ok (wrap new_fd), s)
  else if op =? F_DUPFD_CLOEXEC then
    let? (new_fd, s) := dup_fd t fs fd (Some (as_i32 arg)) in
    let '(t', fs') := s in
    match add_flags t' new_fd CLOEXEC with
    | (Ok _, t'') => Return (Ok (wrap new_fd), (t'', fs'))
    | (Err e, t'') => Return (Err e, (t'', fs'))
    end
  else if op =? F_GETFD then
    match descriptor t fd with
    | None => Return (Err BadFd, (t, fs))
    | Some e => Return (Ok (e_flags e), (t, fs))
    end
  else if op =? F_SETFD then
    match descriptor t fd with
    | None => Return (Err BadFd, (t, fs))
    | Some e =>
        let new_flags := as_u32 arg in
        if negb (Z.ldiff new_flags CLOEXEC =? 0) then Return (Err InvalidValue, (t, fs))
        else Return (Ok 0, (set_entry_flags t fd new_flags, fs))
    end
  else if op =? F_GETFL then
    match fd_get t fd with
    | None => Return (Err BadFd, (t, fs))
    | Some open_fd =>
        let fs1 := arc_clone open_fd fs in
        Return (Ok (get_flags open_fd fs1), (t, arc_drop open_fd fs1))
    end
  else if op =? F_SETFL then
    let fl := as_u32 arg in
    if negb (Z.ldiff fl OPEN_FLAGS_ALL =? 0) then Return (Err InvalidValue, (t, fs))
    else
      match fd_get t fd with
      | None => Return (Err BadFd, (t, fs))
      | Some open_fd =>
          let fs1 := arc_clone open_fd fs in
          Return (Ok 0, (t, arc_drop open_fd (set_status_flags open_fd fl fs1)))
      end
  else Return (Err InvalidValue, (t, fs)).

Definition fd_close (t : FileDescriptorTable) (fs : Files) (fd : Z) : result unit * (FileDescriptorTable * Files) :=
  match fd_remove t fd with
  | (None, t') => (Err BadFd, (t', fs))
  | (Some file, t') => (Ok tt, (t', arc_into_inner_release file fs))
  end.

Definition sys_close (t : FileDescriptorTable) (fs : Files) (fd : Z)
    : outcome (result Z * (FileDescriptorTable * Files)) :=
  let? (_, s) := Return (fd_close t fs fd) in Return (Ok 0, s).

Fixpoint close_each (fds : list Z) (t : FileDescriptorTable) (fs : Files)
    : outcome (result Z * (FileDescriptorTable * Files)) :=
  match fds with
  | [] => Return (Ok 0, (t, fs))
  | fd :: fds' =>
      let? (_, s) := Return (fd_close t fs fd) in
      let '(t', fs') := s in close_each fds' t' fs'
  end.

Notation CLOSE_RANGE_UNSHARE := (2).
Notation CLOSE_RANGE_CLOEXEC := (4).

(** The two flags are not implemented. *)
Definition sys_close_range (t : FileDescriptorTable) (fs : Files) (first last flags : Z)
    : outcome (result Z * (FileDescriptorTable * Files)) :=
  if bits_contain flags CLOSE_RANGE_UNSHARE then Panic
  else if bits_contain flags CLOSE_RANGE_CLOEXEC then Panic
  else close_each (seqZ first (last - first + 1)) t fs.

(** The calls that make a file and insert it (socket, inotify_init1, pidfd_open and the like). *)
Definition open_insert (t : FileDescriptorTable) (fs : Files) (flags fd_flags : Z)
    : outcome (result Z * (FileDescriptorTable * Files)) :=
  let '(file, fs1) := arc_new flags fs in
  let! (fd, t') := insert_with_flags t file fd_flags in
  match fd with
  | Err e => Return (Err e, (t', arc_drop file fs1))
  | Ok fd => Return (Ok (wrap fd), (t', fs1))
  end.

(** [new] is the result of making the buffer, [copy] that of copying the two descriptors to
    user space.  The second [?] leaves with the read end in the table. *)
Definition sys_pipe2 (t : FileDescriptorTable) (fs : Files) (flags : Z) (new copy : result unit)
    : outcome (result Z * (FileDescriptorTable * Files)) :=
  match new with
  | Err e => Return (Err e, (t, fs))
  | Ok _ =>
      let '(read_file, fs1) := arc_new flags fs in
      let '(write_file, fs2) := arc_new flags fs1 in
      let! (r, t1) := fd_insert t read_file in
      match r with
      | Err e => Return (Err e, (t1, arc_drop write_file (arc_drop read_file fs2)))
      | Ok read_fd =>
          let! (r2, t2) := fd_insert t1 write_file in
          match r2 with
          | Err e => Return (Err e, (t2, arc_drop write_file fs2))
          | Ok write_fd =>
              match copy with
              | Ok _ => Return (Ok 0, (t2, fs2))
              | Err e =>
                  let '(f1, t3) := fd_remove t2 read_fd in
                  let fs3 := match f1 with Some f => arc_drop f fs2 | None => fs2 end in
                  let '(f2, t4) := fd_remove t3 write_fd in
                  let fs4 := match f2 with Some f => arc_drop f fs3 | None => fs3 end in
                  Return (Err e, (t4, fs4))
              end
          end
      end
  end.

(** ** Tables as a whole: execve, clone and the end of a process *)

Definition cloexec_fds (t : FileDescriptorTable) : list Z :=
  omap (fun p : Z * option FileDescriptorEntry =>
          match p.2 with
          | Some e => if bits_contain (e_flags e) CLOEXEC then Some p.1 else None
          | None => None
          end) (zip (seqZ 0 (zlen (entries t))) (entries t)).

Fixpoint close_fds (fds : list Z) (t : FileDescriptorTable) (fs : Files) : FileDescriptorTable * Files :=
  match fds with
  | [] => (t, fs)
  | i :: fds' =>
      match fd_remove t (as_i32 i) with
      | (Some file, t') => close_fds fds' t' (arc_into_inner_release file fs)
      | (None, t') => close_fds fds' t' fs
      end
  end.

Definition close_cloexec_entries (t : FileDescriptorTable) (fs : Files) : FileDescriptorTable * Files :=
  close_fds (cloexec_fds t) t fs.

Definition table_files (t : FileDescriptorTable) : list Z := e_file <$> omap id (entries t).

(** The derived [Clone] of the table, and its destructor. *)
Definition table_clone (t : FileDescriptorTable) (fs : Files) : FileDescriptorTable * Files :=
  (t, foldr arc_clone fs (table_files t)).
Definition table_drop (t : FileDescriptorTable) (fs : Files) : Files := foldr arc_drop fs (table_files t).

Definition exec_files (t : FileDescriptorTable) (fs : Files) : FileDescriptorTable * Files :=
  let '(fd_table, fs1) := table_clone t fs in
  let '(fd_table', fs2) := close_cloexec_entries fd_table fs1 in
  (fd_table', table_drop t fs2).

(** ** All processes

    The calls of one process are steps on its table; the tables of all processes share the open
    files.  Between the steps a call in progress may hold a reference to the file it works on
    ([held]), as read, write and poll do while they wait. *)

Inductive fd_call : Type :=
| COpen (flags fd_flags : Z)
| CPipe2 (flags : Z) (new copy : result unit)
| CDup (fd : Z)
| CDup3 (oldfd newfd flags : Z)
| CFcntl (fd op arg : Z)
| CClose (fd : Z)
| CCloseRange (first last flags : Z)
| CExec.

Definition run_call (c : fd_call) (t : FileDescriptorTable) (fs : Files)
    : outcome (result Z * (FileDescriptorTable * Files)) :=
  match c with
  | COpen flags fd_flags => open_insert t fs flags fd_flags
  | CPipe2 flags new copy => sys_pipe2 t fs flags new copy
  | CDup fd => sys_dup t fs fd
  | CDup3 oldfd newfd flags => sys_dup3 t fs oldfd newfd flags
  | CFcntl fd op arg => sys_fcntl t fs fd op arg
  | CClose fd => sys_close t fs fd
  | CCloseRange first last flags => sys_close_range t fs first last flags
  | CExec => Return (Ok 0, exec_files t fs)
  end.

(** Descriptors are 32-bit signed numbers; the flags of dup3 are 32-bit unsigned ones. *)
Definition is_i32 (x : Z) : Prop := -2 ^ 31 <= x < 2 ^ 31.
Definition args_ok (c : fd_call) : Prop :=
  match c with
  | CDup fd | CClose fd | CFcntl fd _ _ => is_i32 fd
  | CDup3 oldfd newfd flags => is_i32 oldfd /\ is_i32 newfd /\ 0 <= flags < 2 ^ 32
  | CCloseRange first last _ => is_i32 first /\ is_i32 last
  | _ => True
  end.

Record World := mkWorld {
  tables : list FileDescriptorTable;
  held : list Z;
  files : Files
}.

Definition boot : World := mkWorld [fd_table_new] [] (mkFiles ∅ 0 []).

Inductive world_step : World -> World -> Prop :=
| step_call w i t c r t' fs' :
    tables w !! i = Some t -> args_ok c -> run_call c t (files w) = Return (r, (t', fs')) ->
    world_step w (mkWorld (<[i := t']> (tables w)) (held w) fs')
| step_clone w i t t' fs' :
    tables w !! i = Some t -> table_clone t (files w) = (t', fs') ->
    world_step w (mkWorld (tables w ++ [t']) (held w) fs')
| step_exit w i t :
    tables w !! i = Some t ->
    world_step w (mkWorld (<[i := fd_table_new]> (tables w)) (held w) (table_drop t (files w)))
| step_begin w i t fd f :
    tables w !! i = Some t -> fd_get t fd = Some f ->
    world_step w (mkWorld (tables w) (f :: held w) (arc_clone f (files w)))
| step_end w h1 f h2 :
    held w = h1 ++ f :: h2 ->
    world_step w (mkWorld (tables w) (h1 ++ h2) (arc_drop f (files w))).

Definition reachable : World -> Prop := rtc world_step boot.

End tables.

(** ** Reference counts *)

Definition strong (fs : Files) (f : Z) : Z :=
  match opened fs !! f with Some o => of_strong o | None => 0 end.

Definition ind (b : bool) : Z := if b then 1 else 0.

(** Files are numbered; each number given out is of a live file or of one closed once. *)
Record files_ok (fs : Files) : Prop := {
  fo_pos : forall f o, opened fs !! f = Some o -> 0 < of_strong o;
  fo_next : 0 <= next_file fs;
  fo_nodup : NoDup (closed fs).*1;
  fo_split : forall f, 0 <= f < next_file fs <-> is_Some (opened fs !! f) \/ f ∈ (closed fs).*1;
  fo_disj : forall f, f ∈ (closed fs).*1 -> opened fs !! f = None
}.

Lemma strong_nonneg fs f : files_ok fs -> 0 <= strong fs f.
Proof. intros Hf. unfold strong. destruct (opened fs !! f) eqn:E; [|done]. apply (fo_pos fs Hf) in E. lia. Qed.

Lemma strong_pos fs f : files_ok fs -> 0 < strong fs f <-> is_Some (opened fs !! f).
Proof.
  intros Hf. unfold strong. destruct (opened fs !! f) eqn:E.
  - apply (fo_pos fs Hf) in E. split; [eauto|lia].
  - split; [lia|]. intros [? [=]].
Qed.

Lemma arc_new_spec flags fs f fs' : files_ok fs -> arc_new flags fs = (f, fs') ->
  files_ok fs' /\ f = next_file fs /\ strong fs f = 0 /\ forall g, strong fs' g = strong fs g + ind (bool_decide (g = f)).
Proof.
  intros Hf [= <- <-]. pose proof (fo_next fs Hf) as Hn.
  assert (Hnone : opened fs !! next_file fs = None).
  { destruct (opened fs !! next_file fs) eqn:E; [|done].
    assert (0 <= next_file fs < next_file fs) by (apply (fo_split fs Hf); left; eauto). lia. }
  assert (Hnc : next_file fs ∉ (closed fs).*1).
  { intros Hc. assert (0 <= next_file fs < next_file fs) by (apply (fo_split fs Hf); by right). lia. }
  split; [|split; [done|]].
  - constructor; simpl.
    + intros g o. rewrite lookup_insert. case_decide; [by intros [= <-]|apply (fo_pos fs Hf)].
    + lia.
    + apply (fo_nodup fs Hf).
    + intros g. rewrite lookup_insert. case_decide as Hg.
      * split; [eauto|]. lia.
      * rewrite <- (fo_split fs Hf g). lia.
    + intros g Hg. rewrite lookup_insert_ne by congruence. by apply (fo_disj fs Hf).
  - unfold strong; simpl. rewrite Hnone. split; [done|]. intros g. rewrite lookup_insert.
    case_decide as Hg; case_bool_decide; simplify_eq; simpl; [by rewrite Hnone|lia].
Qed.

(** A change of one live file that keeps it live. *)
Lemma files_ok_insert fs f o o' : files_ok fs -> opened fs !! f = Some o -> 0 < of_strong o' ->
  files_ok (mkFiles (<[f := o']> (opened fs)) (next_file fs) (closed fs)).
Proof.
  intros Hf Ho Ho'. constructor; simpl.
  - intros g p. rewrite lookup_insert. case_decide; [by intros [= <-]|apply (fo_pos fs Hf)].
  - apply (fo_next fs Hf).
  - apply (fo_nodup fs Hf).
  - intros g. rewrite (fo_split fs Hf g), lookup_insert. case_decide; [|done]. subst. rewrite Ho. split; eauto.
  - intros g Hg. rewrite lookup_insert_ne; [by apply (fo_disj fs Hf)|].
    intros <-. apply (fo_disj fs Hf) in Hg. congruence.
Qed.

Lemma alter_insert_some (f : Z) (h : OpenFile -> OpenFile) (m : gmap Z OpenFile) o :
  m !! f = Some o -> alter h f m = <[f := h o]> m.
Proof.
  intros Ho. apply map_eq. intros g. rewrite lookup_alter, lookup_insert. case_decide; [|done].
  subst. by rewrite Ho.
Qed.

Lemma arc_clone_spec f fs : files_ok fs -> 0 < strong fs f ->
  files_ok (arc_clone f fs) /\ forall g, strong (arc_clone f fs) g = strong fs g + ind (bool_decide (g = f)).
Proof.
  intros Hf [o Ho]%strong_pos; [|done]. pose proof (fo_pos fs Hf f o Ho). unfold arc_clone.
  rewrite (alter_insert_some _ _ _ _ Ho). split; [apply (files_ok_insert fs f o); simpl; [done|done|lia]|].
  intros g. unfold strong; simpl. rewrite lookup_insert. case_decide; case_bool_decide; simplify_eq; simpl; [|lia].
  by rewrite Ho.
Qed.

Lemma arc_put_spec b f fs : files_ok fs -> 0 < strong fs f ->
  files_ok (arc_put b f fs) /\ forall g, strong (arc_put b f fs) g = strong fs g - ind (bool_decide (g = f)).
Proof.
  intros Hf [o Ho]%strong_pos; [|done]. pose proof (fo_pos fs Hf f o Ho). unfold arc_put. rewrite Ho.
  destruct (of_strong o =? 1) eqn:E; breflect.
  - assert (Hnc : f ∉ (closed fs).*1) by (intros Hc%(fo_disj fs Hf); congruence). split.
    + constructor; simpl.
      * intros g p [_ Hp]%lookup_delete_Some. by apply (fo_pos fs Hf) in Hp.
      * apply (fo_next fs Hf).
      * constructor; [done|apply (fo_nodup fs Hf)].
      * intros g. rewrite (fo_split fs Hf g), elem_of_cons, lookup_delete. case_decide; subst.
        -- split; [by right; left|eauto].
        -- split; [intros [?|?]; auto|]. intros [?|[?|?]]; [by left|congruence|by right].
      * intros g [->|Hg]%elem_of_cons; [apply lookup_delete_eq|].
        rewrite lookup_delete. case_decide; [done|by apply (fo_disj fs Hf)].
    + intros g. unfold strong; simpl. rewrite lookup_delete. case_decide; case_bool_decide; simplify_eq; simpl; [|lia].
      rewrite Ho. lia.
  - split; [apply (files_ok_insert fs f o); simpl; [done|done|lia]|].
    intros g. unfold strong; simpl. rewrite lookup_insert. case_decide; case_bool_decide; simplify_eq; simpl; [|lia].
    by rewrite Ho.
Qed.

Lemma set_status_flags_spec f fl fs : files_ok fs ->
  files_ok (set_status_flags f fl fs) /\ forall g, strong (set_status_flags f fl fs) g = strong fs g.
Proof.
  intros Hf. unfold set_status_flags. destruct (opened fs !! f) as [o|] eqn:Ho.
  - pose proof (fo_pos fs Hf f o Ho).
    rewrite (alter_insert_some _ _ _ _ Ho). split; [by apply (files_ok_insert fs f o)|].
    intros g. unfold strong; simpl. rewrite lookup_insert. case_decide; simplify_eq; [by rewrite Ho|done].
  - assert (E : forall h, alter h f (opened fs) = opened fs).
    { intros h. apply map_eq. intros g. rewrite lookup_alter. case_decide; [|done]. subst. by rewrite Ho. }
    rewrite E. by destruct fs.
Qed.

(** ** Slots of a table *)

Definition ref (f : Z) (x : option FileDescriptorEntry) : Z := ind (bool_decide (e_file <$> x = Some f)).

(** How many descriptors refer to a file. *)
Definition focc (f : Z) (l : list (option FileDescriptorEntry)) : Z := foldr (fun x n => ref f x + n) 0 l.

Lemma ref_nonneg f x : 0 <= ref f x.
Proof. unfold ref, ind. destruct (bool_decide _); lia. Qed.

Lemma focc_nonneg f l : 0 <= focc f l.
Proof. induction l as [|x l IH]; simpl; [done|]. pose proof (ref_nonneg f x). lia. Qed.

Lemma focc_app f l k : focc f (l ++ k) = focc f l + focc f k.
Proof. induction l as [|x l IH]; simpl; [done|]. lia. Qed.

Lemma focc_replicate f n : focc f (replicate n None) = 0.
Proof. induction n as [|n IH]; [done|]. cbn [replicate focc foldr]. fold (focc f (replicate n None)). rewrite IH. done. Qed.

Lemma focc_insert f l n y x : l !! n = Some y -> focc f (<[n := x]> l) = focc f l - ref f y + ref f x.
Proof.
  revert n. induction l as [|z l IH]; intros [|n] E; simplify_eq/=; [lia|]. rewrite (IH n E). lia.
Qed.

Lemma focc_lookup f l n x : l !! n = Some x -> ref f x <= focc f l.
Proof.
  intros E. pose proof (focc_insert f l n x None E). pose proof (focc_nonneg f (<[n:=None]> l)).
  change (ref f None) with 0 in *. lia.
Qed.

Definition slot (t : FileDescriptorTable) (n : nat) : option FileDescriptorEntry := mjoin (entries t !! n).

Lemma descriptor_slot t fd : descriptor t fd = slot t (Z.to_nat (wrap fd)).
Proof.
  unfold descriptor, slot, zlen. pose proof (wrap_ok fd) as [? _]. bcase; [done|].
  rewrite lookup_ge_None_2; [done|]. lia.
Qed.

(** The descriptors as a map. *)
Definition abs (t : FileDescriptorTable) : gmap Z FileDescriptorEntry := omap id (map_seqZ 0 (entries t)).

Lemma abs_lookup t i : abs t !! i = if bool_decide (0 <= i) then slot t (Z.to_nat i) else None.
Proof.
  unfold abs, slot. rewrite lookup_omap. case_bool_decide.
  - rewrite lookup_map_seqZ, option_guard_True, Z.sub_0_r by lia. by destruct (entries t !! _) as [[]|].
  - rewrite lookup_map_seqZ, option_guard_False by lia. done.
Qed.

Lemma abs_nat t (n : nat) : abs t !! Z.of_nat n = slot t n.
Proof. rewrite abs_lookup. rewrite bool_decide_true by lia. by rewrite Nat2Z.id. Qed.

(** [t'] differs from [t] in slot [n], which now is [x]. *)
Record updated (t t' : FileDescriptorTable) (n : nat) (x : option FileDescriptorEntry) : Prop := {
  up_slot : forall m, slot t' m = if decide (m = n) then x else slot t m;
  up_occ : forall f, focc f (entries t') = focc f (entries t) - ref f (slot t n) + ref f x
}.

Lemma updated_insert t n x k h : (n < length (entries t) + k)%nat ->
  updated t (mkTable (<[n := x]> (entries t ++ replicate k None)) h) n x.
Proof.
  intros Hn. assert (Hs : forall m, mjoin ((entries t ++ replicate k None) !! m) = slot t m).
  { intros m. unfold slot. destruct (decide (m < length (entries t))%nat) as [Hm|Hm].
    - by rewrite lookup_app_l.
    - rewrite lookup_app_r, (lookup_ge_None_2 (entries t)) by lia.
      destruct (replicate k None !! _) as [y|] eqn:E; [|done]. by apply lookup_replicate in E as [-> _]. }
  assert (exists y, (entries t ++ replicate k None) !! n = Some y) as [y Hy].
  { apply lookup_lt_is_Some. rewrite length_app, length_replicate. lia. }
  split; simpl.
  - intros m. unfold slot at 1; simpl. rewrite list_lookup_insert. case_decide as Hd.
    + destruct Hd as [-> _]. by rewrite decide_True.
    + rewrite Hs. case_decide; [|done]. subst. exfalso. apply Hd. split; [done|].
      rewrite length_app, length_replicate. lia.
  - intros f. rewrite (focc_insert f _ _ y) by done. rewrite focc_app, focc_replicate, Z.add_0_r.
    rewrite <- (Hs n), Hy. done.
Qed.

Lemma updated_abs t t' n x : updated t t' n x -> abs t' = partial_alter (fun _ => x) (Z.of_nat n) (abs t).
Proof.
  intros [Hs _]. apply map_eq. intros i. rewrite abs_lookup. destruct (decide (i = Z.of_nat n)) as [->|Hi].
  - rewrite lookup_partial_alter_eq, bool_decide_true, Hs, decide_True; [done|lia|lia].
  - rewrite lookup_partial_alter_ne, abs_lookup by done. case_bool_decide; [|done].
    rewrite Hs, decide_False; [done|lia].
Qed.

Lemma updated_Some t t' n e : updated t t' n (Some e) -> abs t' = <[Z.of_nat n := e]> (abs t).
Proof. exact (updated_abs t t' n (Some e)). Qed.

Lemma updated_None t t' n : updated t t' n None -> abs t' = delete (Z.of_nat n) (abs t).
Proof. exact (updated_abs t t' n None). Qed.

(** ** The search for a free slot *)

Lemma first_none_spec {A} (l : list (option A)) i :
  match first_none l i with
  | Some j => exists k, j = i + Z.of_nat k /\ l !! k = Some None /\ forall m, (m < k)%nat -> exists a, l !! m = Some (Some a)
  | None => forall m, (m < length l)%nat -> exists a, l !! m = Some (Some a)
  end.
Proof.
  revert i. induction l as [|[a|] l IH]; intros i; simpl.
  - intros m Hm. lia.
  - specialize (IH (i + 1)). destruct (first_none l (i + 1)) as [j|].
    + destruct IH as (k & -> & Hk & Hm). exists (S k). split; [lia|]. split; [done|].
      intros [|m] Hlt; [by exists a|]. apply Hm. lia.
    + intros [|m] Hlt; [by exists a|]. apply IH. lia.
  - exists O. split; [lia|]. split; [done|]. intros m Hm. lia.
Qed.

Lemma free_from_Some {A} (l : list (option A)) s j : 0 <= s -> free_from l s = Some j ->
  s <= j < zlen l /\ l !! Z.to_nat j = Some None /\
  forall m, (Z.to_nat s <= m < Z.to_nat j)%nat -> exists a, l !! m = Some (Some a).
Proof.
  unfold free_from. intros Hs E. pose proof (first_none_spec (drop (Z.to_nat (Z.min s (zlen l))) l) s) as H.
  rewrite E in H. destruct H as (k & -> & Hk & Hm). rewrite lookup_drop in Hk.
  pose proof (lookup_lt_Some _ _ _ Hk). unfold zlen in *.
  assert (Z.min s (Z.of_nat (length l)) = s) as Hmin by lia. rewrite Hmin in *.
  replace (Z.to_nat (s + Z.of_nat k)) with (Z.to_nat s + k)%nat by lia. split; [lia|]. split; [done|].
  intros m Hlt. destruct (Hm (m - Z.to_nat s)%nat) as [a Ha]; [lia|]. exists a. rewrite lookup_drop in Ha.
  by replace (Z.to_nat s + (m - Z.to_nat s))%nat with m in Ha by lia.
Qed.

Lemma free_from_None {A} (l : list (option A)) s : 0 <= s -> free_from l s = None ->
  forall m, (Z.to_nat s <= m < length l)%nat -> exists a, l !! m = Some (Some a).
Proof.
  unfold free_from. intros Hs E m Hm. pose proof (first_none_spec (drop (Z.to_nat (Z.min s (zlen l))) l) s) as H.
  rewrite E in H. unfold zlen in *. assert (Z.min s (Z.of_nat (length l)) = s) as Hmin by lia. rewrite Hmin in *.
  destruct (H (m - Z.to_nat s)%nat) as [a Ha]; [rewrite length_drop; lia|]. exists a. rewrite lookup_drop in Ha.
  by replace (Z.to_nat s + (m - Z.to_nat s))%nat with m in Ha by lia.
Qed.

(** ** Operations of a table *)

Lemma wrap_i32 fd : 0 <= fd < 2 ^ 31 -> wrap fd = fd.
Proof. intros. apply wrap_small. unfold usize_ok. lia. Qed.

Lemma as_i32_small i : 0 <= i < 2 ^ 31 -> as_i32 i = i.
Proof. intros. unfold as_i32. rewrite Z.mod_small by lia. bcase; lia. Qed.

Lemma wrap_negative fd : -2 ^ 31 <= fd < 0 -> wrap fd = fd + 2 ^ 64.
Proof. intros. unfold wrap. symmetry. apply Z.mod_unique_pos with (-1); lia. Qed.

Section specs.
Context (vec_max : Z) (Hmin : MAX_FDS <= vec_max) (Hmax : vec_max <= 2 ^ 31).

(** No slot before the hint is free, and the vector fits the heap. *)
Record table_ok (t : FileDescriptorTable) : Prop := {
  to_hint : 0 <= next_fd_hint t <= zlen (entries t);
  to_full : forall n, (n < Z.to_nat (next_fd_hint t))%nat -> is_Some (slot t n);
  to_len : zlen (entries t) <= vec_max
}.

Lemma slot_lt t n : is_Some (slot t n) -> (n < length (entries t))%nat.
Proof. unfold slot. intros [e He]. destruct (entries t !! n) eqn:E; [|done]. by apply lookup_lt_Some in E. Qed.

Lemma descriptor_lt t fd e : descriptor t fd = Some e -> wrap fd < zlen (entries t) /\ entries t !! Z.to_nat (wrap fd) = Some (Some e).
Proof.
  unfold descriptor. intros H. destruct (wrap fd <? _) eqn:E; breflect; [|done]. split; [done|].
  by destruct (entries t !! _) as [[]|]; simplify_eq/=.
Qed.

Lemma descriptor_nonneg t fd e : table_ok t -> -2 ^ 31 <= fd < 2 ^ 31 -> descriptor t fd = Some e -> 0 <= fd /\ wrap fd = fd.
Proof.
  intros Ht Hfd [Hlt _]%descriptor_lt. destruct (decide (0 <= fd)); [by rewrite wrap_i32 by lia|].
  rewrite wrap_negative in Hlt by lia. pose proof (to_len t Ht). lia.
Qed.

Lemma abs_descriptor t fd : table_ok t -> -2 ^ 31 <= fd < 2 ^ 31 -> abs t !! fd = descriptor t fd.
Proof.
  intros Ht Hfd. rewrite abs_lookup. case_bool_decide.
  - by rewrite descriptor_slot, wrap_i32 by lia.
  - destruct (descriptor t fd) eqn:E; [|done]. apply descriptor_nonneg in E as [? _]; [lia|done|done].
Qed.

Lemma insert_at_spec t fd e : zlen (entries t) <= vec_max -> 0 <= fd < vec_max ->
  exists t', insert_at vec_max t fd e = Return (slot t (Z.to_nat fd), t') /\
    updated t t' (Z.to_nat fd) (Some e) /\ next_fd_hint t' = next_fd_hint t /\
    zlen (entries t') = Z.max (zlen (entries t)) (fd + 1).
Proof.
  intros Hl Hfd. unfold insert_at. cbv zeta. rewrite wrap_i32 by lia. set (n := Z.to_nat fd).
  assert (exists k, (if fd >=? zlen (entries t)
      then if uadd fd 1 <=? vec_max then Return (resize (Z.to_nat (uadd fd 1)) None (entries t)) else Panic
      else Return (entries t)) = Return (entries t ++ replicate k None) /\ (n < length (entries t) + k)%nat /\
      Z.of_nat (length (entries t) + k) = Z.max (zlen (entries t)) (fd + 1)) as (k & -> & Hn & Hk).
  { unfold zlen, n in *. bcase.
    - exists (S (Z.to_nat fd) - length (entries t))%nat. rewrite uadd_small by lia.
      replace (fd + 1 <=? vec_max) with true by lia. rewrite resize_ge by lia.
      replace (Z.to_nat (fd + 1)) with (S (Z.to_nat fd)) by lia. split; [done|lia].
    - exists O. rewrite app_nil_r. split; [done|lia]. }
  ostep. assert (Hlen : length (entries t ++ replicate k None) = (length (entries t) + k)%nat)
    by (by rewrite length_app, length_replicate).
  unfold zlen at 1. rewrite Hlen. rewrite (proj2 (Z.ltb_lt fd (Z.of_nat (length (entries t) + k)))) by lia.
  destruct ((entries t ++ replicate k None) !! n) as [y|] eqn:Ey.
  2: { apply lookup_ge_None in Ey. rewrite Hlen in Ey. lia. }
  ostep. pose proof (updated_insert t n (Some e) k (next_fd_hint t) Hn) as Hu.
  assert (y = slot t n) as ->.
  { unfold slot. destruct (decide (n < length (entries t))%nat).
    - rewrite lookup_app_l in Ey by done. by rewrite Ey.
    - rewrite lookup_app_r in Ey by lia. apply lookup_replicate in Ey as [-> _].
      by rewrite (lookup_ge_None_2 (entries t)) by lia. }
  eexists. split; [reflexivity|]. split; [done|]. split; [done|].
  unfold zlen at 1; simpl. by rewrite length_insert, Hlen.
Qed.

Lemma table_ok_update t t' n e : table_ok t -> updated t t' n (Some e) -> next_fd_hint t' = next_fd_hint t ->
  zlen (entries t) <= zlen (entries t') <= vec_max -> table_ok t'.
Proof.
  intros [H1 H2 H3] [Hs _] Hh Hl. constructor; [rewrite Hh; lia| |lia].
  intros m Hm. rewrite Hs. case_decide; [done|]. apply H2. by rewrite <- Hh.
Qed.

(** Beyond what the vector can hold, which includes negative descriptors, the kernel panics. *)
Lemma insert_at_panics t fd e : zlen (entries t) <= vec_max -> vec_max <= wrap fd -> insert_at vec_max t fd e = Panic.
Proof.
  intros Hl Hfd. unfold insert_at. cbv zeta. replace (wrap fd >=? zlen (entries t)) with true by lia.
  pose proof (wrap_ok fd) as [H0 H1]. destruct (decide (wrap fd = 2 ^ 64 - 1)) as [->|Hne].
  - change (uadd (2 ^ 64 - 1) 1) with 0. replace (0 <=? vec_max) with true by lia. ostep.
    by rewrite resize_0.
  - rewrite uadd_small by lia. by replace (wrap fd + 1 <=? vec_max) with false by lia.
Qed.

Definition lowest_free (m : gmap Z FileDescriptorEntry) (min n : Z) : Prop :=
  min <= n /\ m !! n = None /\ forall j, min <= j < n -> is_Some (m !! j).

Definition full (m : gmap Z FileDescriptorEntry) : Prop := forall j, 0 <= j < MAX_FDS -> is_Some (m !! j).

Lemma abs_is_Some t j : 0 <= j -> is_Some (slot t (Z.to_nat j)) -> is_Some (abs t !! j).
Proof. intros Hj H. by rewrite abs_lookup, bool_decide_true by lia. Qed.

Lemma slot_Some_lookup t m : (exists a, entries t !! m = Some (Some a)) -> is_Some (slot t m).
Proof. intros [a E]. unfold slot. rewrite E. by exists a. Qed.

Lemma find_free_fd_spec t : table_ok t ->
  (exists n t1, find_free_fd t = (Ok n, t1) /\ entries t1 = entries t /\ next_fd_hint t1 = n + 1 /\
     0 <= n < vec_max /\ n <= zlen (entries t) /\ lowest_free (abs t) 0 n /\ slot t (Z.to_nat n) = None) \/
  (find_free_fd t = (Err (Fs TooManyFiles), t) /\ full (abs t)).
Proof.
  intros [H1 H2 H3]. unfold find_free_fd.
  assert (Hrest : forall u, (forall m, (Z.to_nat (next_fd_hint t) <= m < Z.to_nat u)%nat -> exists a, entries t !! m = Some (Some a)) ->
      forall j, 0 <= j < u -> is_Some (abs t !! j)).
  { intros u Hu j Hj. apply abs_is_Some; [lia|]. destruct (decide (j < next_fd_hint t)); [apply H2; lia|].
    apply slot_Some_lookup, Hu. lia. }
  destruct (free_from (entries t) (next_fd_hint t)) as [i|] eqn:E.
  - apply free_from_Some in E as (Hi & Ei & Hm); [|lia]. left. rewrite as_i32_small by lia.
    assert (Hs : slot t (Z.to_nat i) = None) by (unfold slot; by rewrite Ei).
    eexists _, _. split; [reflexivity|]. repeat split; simpl; try lia; [..|done].
    + by rewrite abs_lookup, bool_decide_true by lia.
    + intros j Hj. by apply (Hrest i).
  - pose proof (free_from_None (entries t) (next_fd_hint t) ltac:(lia) E) as Hm. unfold zlen in *.
    assert (Hall : forall j, 0 <= j < Z.of_nat (length (entries t)) -> is_Some (abs t !! j)).
    { apply Hrest. intros m Hlt. apply Hm. lia. }
    bcase.
    + right. split; [done|]. intros j Hj. apply Hall. lia.
    + left. rewrite as_i32_small by lia. eexists _, _. split; [reflexivity|]. repeat split; simpl; try lia.
      * rewrite abs_lookup, bool_decide_true by lia. unfold slot. by rewrite lookup_ge_None_2 by lia.
      * done.
      * unfold slot. by rewrite lookup_ge_None_2 by lia.
Qed.

Lemma updated_ext t t1 t' n x : entries t1 = entries t -> updated t1 t' n x -> updated t t' n x.
Proof. intros E [H1 H2]. unfold slot in *. rewrite E in *. by constructor. Qed.

Lemma lowest_filled t n m : 0 <= n -> lowest_free (abs t) 0 n -> (m < Z.to_nat n)%nat -> is_Some (slot t m).
Proof. intros Hn (_ & _ & H) Hm. specialize (H (Z.of_nat m) ltac:(lia)). by rewrite abs_nat in H. Qed.

Lemma insert_with_flags_spec t file flags : table_ok t ->
  (exists n t', insert_with_flags vec_max t file flags = Return (Ok n, t') /\ 0 <= n < vec_max /\ lowest_free (abs t) 0 n /\
     table_ok t' /\ slot t (Z.to_nat n) = None /\ updated t t' (Z.to_nat n) (Some (mkEntry file flags))) \/
  (insert_with_flags vec_max t file flags = Return (Err (Fs TooManyFiles), t) /\ full (abs t)).
Proof.
  intros Ht. unfold insert_with_flags.
  destruct (find_free_fd_spec t Ht) as [(n & t1 & -> & Et & Hh & Hn & Hle & Hlow & Hs)|[-> Hf]]; [left|by right].
  pose proof (to_len t Ht). pose proof (to_hint t Ht).
  destruct (insert_at_spec t1 n (mkEntry file flags)) as (t' & E & Hu & Hh' & Hl'); [rewrite Et; lia|done|].
  ostep. rewrite E. ostep. eexists n, t'. rewrite Et in Hl'. pose proof (updated_ext t t1 t' _ _ Et Hu) as Hu'.
  repeat split; try done; try lia; try apply Hlow; try apply Hu'.
  intros m Hm. rewrite (up_slot _ _ _ _ Hu'). case_decide; [done|]. apply (lowest_filled t n); [lia|done|lia].
Qed.

(** Above a minimum: the lowest free descriptor from there, or, when the minimum is
    beyond the table, the first one after the table. *)
Definition above (m : gmap Z FileDescriptorEntry) (min n : Z) : Prop :=
  lowest_free m min n \/ n < min /\ forall j, n <= j -> m !! j = None.

Lemma insert_above_spec t min_fd file : table_ok t ->
  (insert_above vec_max t min_fd file = Panic /\ zlen (entries t) = vec_max) \/
  exists n t', insert_above vec_max t min_fd file = Return (Ok n, t') /\ 0 <= n < vec_max /\ above (abs t) (wrap min_fd) n /\
    table_ok t' /\ slot t (Z.to_nat n) = None /\ updated t t' (Z.to_nat n) (Some (mkEntry file 0)).
Proof.
  intros Ht. pose proof (to_hint t Ht). pose proof (to_len t Ht). unfold insert_above.
  pose proof (wrap_ok min_fd) as [Hw _]. destruct (free_from (entries t) (wrap min_fd)) as [i|] eqn:E.
  - apply free_from_Some in E as (Hi & Ei & Hm); [|lia]. rewrite as_i32_small by lia.
    destruct (insert_at_spec t i (mkEntry file 0)) as (t' & -> & Hu & Hh' & Hl'); [lia|lia|].
    ostep. right. exists i, t'. split; [done|]. split; [lia|].
    assert (Hs : slot t (Z.to_nat i) = None) by (unfold slot; by rewrite Ei). split; [left|].
    + split; [lia|]. split; [by rewrite abs_lookup, bool_decide_true by lia|].
      intros j Hj. apply abs_is_Some; [lia|]. apply slot_Some_lookup, Hm. lia.
    + split; [|done]. apply (table_ok_update t t' _ _ Ht Hu Hh'). lia.
  - pose proof (free_from_None _ _ Hw E) as Hm.
    destruct (zlen (entries t) <? vec_max) eqn:Elen; breflect; [right|left; split; [done|lia]].
    rewrite as_i32_small by (unfold zlen in *; lia).
    assert (Hu : updated t (mkTable (entries t ++ [Some (mkEntry file 0)]) (next_fd_hint t)) (length (entries t)) (Some (mkEntry file 0))).
    { replace (entries t ++ [Some (mkEntry file 0)])
        with (<[length (entries t) := Some (mkEntry file 0)]> (entries t ++ replicate 1 None)); [apply updated_insert; lia|].
      rewrite insert_app_r_alt by lia. by rewrite Nat.sub_diag. }
    assert (Hnone : forall j, zlen (entries t) <= j -> abs t !! j = None).
    { unfold zlen. intros j Hj. rewrite abs_lookup, bool_decide_true by lia. unfold slot.
      by rewrite lookup_ge_None_2 by lia. }
    unfold zlen in *. eexists _, _. split; [reflexivity|]. split; [lia|].
    rewrite Nat2Z.id. split; [|split; [|split; [|exact Hu]]].
    + destruct (decide (wrap min_fd <= Z.of_nat (length (entries t)))); [left|right; by split; [lia|]].
      split; [done|]. split; [by apply Hnone|]. intros j Hj. apply abs_is_Some; [lia|].
      apply slot_Some_lookup, Hm. lia.
    + apply (table_ok_update t _ _ _ Ht Hu eq_refl). unfold zlen; simpl. rewrite length_app; simpl. lia.
    + unfold slot. by rewrite lookup_ge_None_2 by lia.
Qed.

(** ** A table and the files it refers to

    [other] counts the references that are not in the table. *)
Record sound (other : Z -> Z) (t : FileDescriptorTable) (fs : Files) : Prop := {
  so_table : table_ok t;
  so_files : files_ok fs;
  so_count : forall f, strong fs f = focc f (entries t) + other f;
  so_other : forall f, 0 <= other f
}.

Lemma ref_Some f e : ref f (Some e) = ind (bool_decide (f = e_file e)).
Proof. unfold ref; simpl. f_equal. apply bool_decide_ext. naive_solver. Qed.

Lemma ind_bounds b : 0 <= ind b <= 1.
Proof. destruct b; simpl; lia. Qed.

Lemma ind_refl (f : Z) : ind (bool_decide (f = f)) = 1.
Proof. by rewrite bool_decide_true. Qed.

Lemma sound_referenced other t fs fd e : sound other t fs -> descriptor t fd = Some e -> 0 < strong fs (e_file e).
Proof.
  intros Hs [_ E]%descriptor_lt. rewrite (so_count _ _ _ Hs). pose proof (so_other _ _ _ Hs (e_file e)).
  pose proof (focc_lookup (e_file e) _ _ _ E) as Hr. rewrite ref_Some, ind_refl in Hr. lia.
Qed.

Lemma sound_update other t t' fs fs' n x : sound other t fs -> updated t t' n x -> table_ok t' -> files_ok fs' ->
  (forall f, strong fs' f = strong fs f - ref f (slot t n) + ref f x) -> sound other t' fs'.
Proof.
  intros [_ _ H3 H4] Hu Ht Hf Hs. constructor; [done|done| |done].
  intros f. rewrite Hs, H3, (up_occ _ _ _ _ Hu). lia.
Qed.

Lemma sound_files other t fs fs' : sound other t fs -> files_ok fs' -> (forall f, strong fs' f = strong fs f) -> sound other t fs'.
Proof. intros [H1 _ H3 H4] Hf Hs. constructor; [done|done| |done]. intros f. by rewrite Hs. Qed.

Lemma dup_fd_spec other t fs fd min : sound other t fs ->
  match descriptor t fd with
  | None => dup_fd vec_max t fs fd min = Return (Err BadFd, (t, fs))
  | Some e =>
      (exists mn, min = Some mn /\ dup_fd vec_max t fs fd min = Panic /\ zlen (entries t) = vec_max) \/
      (exists n t' fs', dup_fd vec_max t fs fd min = Return (Ok n, (t', fs')) /\ 0 <= n < vec_max /\ sound other t' fs' /\
         match min with None => lowest_free (abs t) 0 n | Some mn => above (abs t) (wrap mn) n end /\
         updated t t' (Z.to_nat n) (Some (mkEntry (e_file e) 0))) \/
      (min = None /\ full (abs t) /\ exists fs', dup_fd vec_max t fs fd min = Return (Err (Fs TooManyFiles), (t, fs')) /\ sound other t fs')
  end.
Proof.
  intros Hs. unfold dup_fd, fd_get. destruct (descriptor t fd) as [e|] eqn:Ed; simpl; [|done].
  pose proof (sound_referenced _ _ _ _ _ Hs Ed) as Hpos. set (f := e_file e) in *.
  destruct (arc_clone_spec f fs (so_files _ _ _ Hs) Hpos) as [Hf1 Hs1]. set (fs1 := arc_clone f fs) in *.
  destruct (arc_clone_spec f fs1 Hf1) as [Hf2 Hs2]; [rewrite Hs1, ind_refl; lia|]. set (fs2 := arc_clone f fs1) in *.
  destruct (arc_put_spec false f fs2 Hf2) as [Hf3 Hs3]; [rewrite Hs2, Hs1, ind_refl; lia|]. set (fs3 := arc_put false f fs2) in *.
  assert (Hnet : forall g, strong fs3 g = strong fs g + ind (bool_decide (g = f))) by (intros g; rewrite Hs3, Hs2, Hs1; lia).
  assert (Hok : forall n t', slot t (Z.to_nat n) = None -> table_ok t' ->
    updated t t' (Z.to_nat n) (Some (mkEntry f 0)) -> sound other t' fs3).
  { intros n t' Hsl Ht' Hu. apply (sound_update _ _ _ _ _ _ _ Hs Hu Ht' Hf3). intros g.
    rewrite Hsl, ref_Some, Hnet. simpl. change (ref g None) with 0. lia. }
  destruct min as [mn|].
  - destruct (insert_above_spec t mn f (so_table _ _ _ Hs)) as [[-> ?]|(n & t' & -> & Hn & Ha & Ht' & Hsl & Hu)].
    + left. by exists mn.
    + right; left. ostep. exists n, t', fs3. eauto 10.
  - destruct (insert_with_flags_spec t f 0 (so_table _ _ _ Hs)) as [(n & t' & -> & Hn & Hl & Ht' & Hsl & Hu)|[-> Hfull]].
    + right; left. ostep. exists n, t', fs3. eauto 10.
    + right; right. ostep. split; [done|]. split; [done|]. eexists. split; [reflexivity|].
      destruct (arc_put_spec false f fs3 Hf3) as [Hf4 Hs4]; [rewrite Hnet, ind_refl; lia|].
      apply (sound_files _ _ _ _ Hs Hf4). intros g. rewrite Hs4, Hnet. lia.
Qed.

(** Removing a descriptor and giving up its reference. *)
Lemma fd_remove_spec t fd e : table_ok t -> descriptor t fd = Some e ->
  exists t', fd_remove t fd = (Some (e_file e), t') /\ table_ok t' /\ updated t t' (Z.to_nat (wrap fd)) None /\
    slot t (Z.to_nat (wrap fd)) = Some e.
Proof.
  intros [H1 H2 H3] Ed. unfold fd_remove. rewrite Ed. pose proof (descriptor_lt _ _ _ Ed) as [Hlt Hl].
  pose proof (wrap_ok fd) as [Hw _]. unfold zlen in *.
  pose proof (updated_insert t (Z.to_nat (wrap fd)) None 0 (Z.min (next_fd_hint t) (wrap fd)) ltac:(lia)) as Hu.
  cbn [replicate] in Hu. rewrite app_nil_r in Hu. eexists. split; [reflexivity|]. split; [|split; [done|]].
  - constructor; unfold zlen; simpl; [rewrite length_insert; lia| |rewrite length_insert; lia].
    intros m Hm. rewrite (up_slot _ _ _ _ Hu). rewrite decide_False by lia. apply H2. lia.
  - unfold slot. by rewrite Hl.
Qed.

Lemma remove_put_spec other t fs fd e b : sound other t fs -> descriptor t fd = Some e ->
  exists t', fd_remove t fd = (Some (e_file e), t') /\ sound other t' (arc_put b (e_file e) fs) /\
    updated t t' (Z.to_nat (wrap fd)) None.
Proof.
  intros Hs Ed. destruct (fd_remove_spec t fd e (so_table _ _ _ Hs) Ed) as (t' & E & Ht' & Hu & Hsl).
  destruct (arc_put_spec b (e_file e) fs (so_files _ _ _ Hs) (sound_referenced _ _ _ _ _ Hs Ed)) as [Hf Hc].
  exists t'. split; [done|]. split; [|done]. apply (sound_update _ _ _ _ _ _ _ Hs Hu Ht' Hf). intros f.
  rewrite Hc, Hsl, ref_Some. change (ref f None) with 0. lia.
Qed.

End specs.
