(* ===== verification/FdCalls.v ===== *)
(** * File descriptor calls: specification and theorems

    What the descriptor calls of FdTable do, as calls on a map from descriptors to entries;
    that the tables refine it; and that over all processes the reference counts of
    the open files are exact. *)
From stdpp Require Import base list gmap.
From S2P Require Import Prelude Error Attr FdTable.
Local Open Scope Z_scope.

(** ** The specification on maps *)

Notation fdmap := (gmap Z FileDescriptorEntry).

Definition opens_lowest (m : fdmap) (file flags : Z) (r : result Z) (m' : fdmap) : Prop :=
  (exists n, lowest_free m 0 n /\ r = Ok n /\ m' = <[n := mkEntry file flags]> m) \/
  (full m /\ r = Err (Fs TooManyFiles) /\ m' = m).

(** A file that no descriptor of the table refers to. *)
Definition unused (m : fdmap) (f : Z) : Prop := map_Forall (fun _ e => e_file e <> f) m.

Definition pipe2_spec (m : fdmap) (new copy : result unit) (r : result Z) (m' : fdmap) : Prop :=
  match new with
  | Err e => r = Err e /\ m' = m
  | Ok _ =>
      exists f1 f2, f1 <> f2 /\ unused m f1 /\ unused m f2 /\
      (full m /\ r = Err (Fs TooManyFiles) /\ m' = m \/
       exists n1, lowest_free m 0 n1 /\
         let m1 := <[n1 := mkEntry f1 0]> m in
         (full m1 /\ r = Err (Fs TooManyFiles) /\ m' = m1 \/
          exists n2, lowest_free m1 0 n2 /\
            match copy with
            | Ok _ => r = Ok 0 /\ m' = <[n2 := mkEntry f2 0]> m1
            | Err e => r = Err e /\ m' = m
            end))
  end.

Definition dupfd_spec (m : fdmap) (fd arg flags : Z) (r : result Z) (m' : fdmap) : Prop :=
  match m !! fd with
  | None => r = Err BadFd /\ m' = m
  | Some e => exists n, above m (wrap (as_i32 arg)) n /\ r = Ok n /\ m' = <[n := mkEntry (e_file e) flags]> m
  end.

Definition fcntl_spec (m : fdmap) (fd op arg : Z) (r : result Z) (m' : fdmap) : Prop :=
  if op =? 0 then dupfd_spec m fd arg 0 r m'
  else if op =? 1030 then dupfd_spec m fd arg CLOEXEC r m'
  else if op =? 1 then r = match m !! fd with Some e => Ok (e_flags e) | None => Err BadFd end /\ m' = m
  else if op =? 2 then
    match m !! fd with
    | None => r = Err BadFd /\ m' = m
    | Some e =>
        if (as_u32 arg =? 0) || (as_u32 arg =? CLOEXEC)
        then r = Ok 0 /\ m' = <[fd := mkEntry (e_file e) (as_u32 arg)]> m
        else r = Err InvalidValue /\ m' = m
    end
  else if op =? 3 then
    match m !! fd with None => r = Err BadFd | Some _ => exists flags, r = Ok flags end /\ m' = m
  else if op =? 4 then
    r = (if negb (Z.ldiff (as_u32 arg) OPEN_FLAGS_ALL =? 0) then Err InvalidValue
         else match m !! fd with None => Err BadFd | Some _ => Ok 0 end) /\ m' = m
  else r = Err InvalidValue /\ m' = m.

Definition in_range (a b : Z) (p : Z * FileDescriptorEntry) : Prop := a <= p.1 < b.
#[export] Instance in_range_dec a b p : Decision (in_range a b p).
Proof. unfold in_range. apply _. Defined.

(** The range is closed from its start until a descriptor that is not open. *)
Definition close_range_spec (m : fdmap) (first last : Z) (r : result Z) (m' : fdmap) : Prop :=
  exists k, (forall j, first <= j < k -> is_Some (m !! j)) /\ m' = filter (fun p => ~ in_range first k p) m /\
    (r = Ok 0 /\ k = Z.max first (last + 1) \/ r = Err BadFd /\ first <= k <= last /\ m !! k = None).

Definition kept_by_exec (p : Z * FileDescriptorEntry) : Prop := bits_contain (e_flags p.2) CLOEXEC = false.
#[export] Instance kept_by_exec_dec p : Decision (kept_by_exec p).
Proof. unfold kept_by_exec. apply _. Defined.

Definition call_spec (c : fd_call) (m : fdmap) (r : result Z) (m' : fdmap) : Prop :=
  match c with
  | COpen _ fd_flags => exists f, unused m f /\ opens_lowest m f fd_flags r m'
  | CPipe2 _ new copy => pipe2_spec m new copy r m'
  | CDup fd =>
      match m !! fd with
      | None => r = Err BadFd /\ m' = m
      | Some e => opens_lowest m (e_file e) 0 r m'
      end
  | CDup3 oldfd newfd flags =>
      if (oldfd =? newfd) || negb ((flags =? 0) || (flags =? O_CLOEXEC)) then r = Err InvalidValue /\ m' = m
      else match m !! oldfd with
      | None => r = Err BadFd /\ m' = m
      | Some e => r = Ok newfd /\ m' = <[newfd := mkEntry (e_file e) (if flags =? O_CLOEXEC then CLOEXEC else 0)]> m
      end
  | CFcntl fd op arg => fcntl_spec m fd op arg r m'
  | CClose fd =>
      match m !! fd with
      | None => r = Err BadFd /\ m' = m
      | Some _ => r = Ok 0 /\ m' = delete fd m
      end
  | CCloseRange first last _ => close_range_spec m first last r m'
  | CExec => r = Ok 0 /\ m' = filter kept_by_exec m
  end.

(** When a call panics: dup3 to a descriptor beyond what the heap can hold, F_DUPFD on a
    table that fills the heap, and the unimplemented flags of close_range. *)
Definition may_panic (vec_max : Z) (c : fd_call) (t : FileDescriptorTable) : Prop :=
  match c with
  | CDup3 _ newfd _ => vec_max <= wrap newfd
  | CFcntl _ op _ => (op = 0 \/ op = 1030) /\ zlen (entries t) = vec_max
  | CCloseRange _ _ flags => bits_contain flags 2 = true \/ bits_contain flags 4 = true
  | _ => False
  end.

Section calls.
Context (vec_max : Z) (Hmin : MAX_FDS <= vec_max) (Hmax : vec_max <= 2 ^ 31).
Notation sound := (sound vec_max).

Definition good (other : Z -> Z) (c : fd_call) (t : FileDescriptorTable)
    (o : outcome (result Z * (FileDescriptorTable * Files))) : Prop :=
  exists r t' fs', o = Return (r, (t', fs')) /\ sound other t' fs' /\ call_spec c (abs t) r (abs t').

Lemma sound_unused other t fs f : sound other t fs -> strong fs f = 0 -> unused (abs t) f.
Proof.
  intros Hs Hf i e Hi <-. rewrite abs_lookup in Hi. case_bool_decide; [|done].
  assert (E : entries t !! Z.to_nat i = Some (Some e)).
  { unfold slot in Hi. by destruct (entries t !! _) as [[]|]; simplify_eq/=. }
  pose proof (focc_lookup (e_file e) _ _ _ E) as Hr. rewrite ref_Some, ind_refl in Hr.
  rewrite (so_count _ _ _ _ Hs) in Hf. pose proof (so_other _ _ _ _ Hs (e_file e)). lia.
Qed.

Lemma updated_Z t t' n e : 0 <= n -> updated t t' (Z.to_nat n) (Some e) -> abs t' = <[n := e]> (abs t).
Proof. intros Hn Hu. rewrite (updated_Some _ _ _ _ Hu). by rewrite Z2Nat.id. Qed.

Lemma wrap_fd n : 0 <= n < vec_max -> wrap n = n.
Proof. intros. apply wrap_i32. lia. Qed.

(** Inserting a file whose only reference is ours. *)
Lemma insert_new other t fs f flags : sound other t fs -> 0 < other f ->
  (exists n t', insert_with_flags vec_max t f flags = Return (Ok n, t') /\ 0 <= n < vec_max /\ lowest_free (abs t) 0 n /\
     updated t t' (Z.to_nat n) (Some (mkEntry f flags)) /\ abs t' = <[n := mkEntry f flags]> (abs t) /\
     sound (fun g => other g - ind (bool_decide (g = f))) t' fs) \/
  (insert_with_flags vec_max t f flags = Return (Err (Fs TooManyFiles), t) /\ full (abs t)).
Proof.
  intros Hs Ho. destruct (insert_with_flags_spec vec_max Hmin Hmax t f flags (so_table _ _ _ _ Hs))
    as [(n & t' & -> & Hn & Hlow & Ht' & Hsl & Hu)|[-> Hfull]]; [left|by right].
  exists n, t'. repeat (split; [done|]). split; [apply updated_Z; [lia|done]|].
  constructor; [done|apply Hs| |].
  - intros g. rewrite (up_occ _ _ _ _ Hu), Hsl, ref_Some, (so_count _ _ _ _ Hs). change (ref g None) with 0. simpl. lia.
  - intros g. pose proof (so_other _ _ _ _ Hs g). case_bool_decide; subst; simpl; lia.
Qed.

(** A fresh file, seen as a reference outside the table. *)
Lemma arc_new_sound other t fs flags f fs' : sound other t fs -> arc_new flags fs = (f, fs') ->
  sound (fun g => other g + ind (bool_decide (g = f))) t fs' /\ unused (abs t) f /\ f = next_file fs /\ other f = 0.
Proof.
  intros Hs E. pose proof (arc_new_spec flags fs f fs' (so_files _ _ _ _ Hs) E) as (Hf' & Hf & Hz & Hc).
  split; [|split; [by apply (sound_unused other t fs)|split; [done|]]].
  - constructor; [apply Hs|done| |].
    + intros g. rewrite Hc, (so_count _ _ _ _ Hs). lia.
    + intros g. pose proof (so_other _ _ _ _ Hs g). pose proof (ind_bounds (bool_decide (g = f))). lia.
  - rewrite (so_count _ _ _ _ Hs) in Hz. pose proof (so_other _ _ _ _ Hs f). pose proof (focc_nonneg f (entries t)). lia.
Qed.

(** Dropping a reference outside the table. *)
Lemma put_sound other t fs f b : sound other t fs -> 0 < other f ->
  sound (fun g => other g - ind (bool_decide (g = f))) t (arc_put b f fs).
Proof.
  intros Hs Ho. pose proof (focc_nonneg f (entries t)).
  destruct (arc_put_spec b f fs (so_files _ _ _ _ Hs)) as [Hf Hc]; [rewrite (so_count _ _ _ _ Hs); lia|].
  constructor; [apply Hs|done| |].
  - intros g. rewrite Hc, (so_count _ _ _ _ Hs). lia.
  - intros g. pose proof (so_other _ _ _ _ Hs g). case_bool_decide; subst; simpl; lia.
Qed.

Lemma sound_ext other other' t fs : (forall f, other f = other' f) -> sound other t fs -> sound other' t fs.
Proof.
  intros He [H1 H2 H3 H4]. constructor; [done|done| |].
  - intros f. by rewrite <- He.
  - intros f. by rewrite <- He.
Qed.

Lemma open_good other t fs flags fd_flags : sound other t fs ->
  good other (COpen flags fd_flags) t (open_insert vec_max t fs flags fd_flags).
Proof.
  intros Hs. unfold open_insert. destruct (arc_new flags fs) as [f fs1] eqn:E.
  destruct (arc_new_sound _ _ _ _ _ _ Hs E) as (Hs1 & Hun & -> & Hz).
  destruct (insert_new _ t fs1 (next_file fs) fd_flags Hs1) as [(n & t' & -> & Hn & Hlow & Hu & Ha & Hs2)|[-> Hfull]].
  - cbv beta. rewrite ind_refl. lia.
  - ostep. rewrite (wrap_fd n Hn). eexists _, _, _. split; [reflexivity|]. split.
    + eapply sound_ext; [|exact Hs2]. intros g. simpl. lia.
    + exists (next_file fs). split; [done|]. left. by exists n.
  - ostep. eexists _, _, _. split; [reflexivity|]. split.
    + eapply sound_ext; [|apply put_sound; [exact Hs1|cbv beta; rewrite ind_refl; lia]]. intros g. simpl. lia.
    + exists (next_file fs). split; [done|]. by right.
Qed.

Lemma descriptor_abs t fd : table_ok vec_max t -> is_i32 fd -> descriptor t fd = abs t !! fd.
Proof. intros Ht Hfd. symmetry. by apply (abs_descriptor vec_max). Qed.

Lemma dup_good other t fs fd : sound other t fs -> is_i32 fd -> good other (CDup fd) t (sys_dup vec_max t fs fd).
Proof.
  intros Hs Hfd. unfold sys_dup, good; simpl. pose proof (dup_fd_spec vec_max Hmin Hmax other t fs fd None Hs) as H.
  rewrite (descriptor_abs t fd (so_table _ _ _ _ Hs) Hfd) in H. destruct (abs t !! fd) as [e|].
  - destruct H as [(mn & [=] & _)|[(n & t' & fs' & -> & Hn & Hs' & Hlow & Hu)|(_ & Hfull & fs' & -> & Hs')]]; simpl.
    + rewrite (wrap_fd n Hn). eexists _, _, _. split; [reflexivity|]. split; [done|]. left.
      exists n. split; [done|]. split; [done|]. apply updated_Z; [lia|done].
    + eexists _, _, _. split; [reflexivity|]. split; [done|]. by right.
  - rewrite H. simpl. by eexists _, _, _.
Qed.

Lemma ldiff_bit x k : 0 <= x -> 0 <= k -> Z.ldiff x (2 ^ k) = 0 <-> x = 0 \/ x = 2 ^ k.
Proof.
  intros Hx Hk. split.
  - intros H. assert (Hb : forall i, 0 <= i -> i <> k -> Z.testbit x i = false).
    { intros i Hi Hne. pose proof (Z.ldiff_spec x (2 ^ k) i) as E. rewrite H, Z.bits_0, Z.pow2_bits_eqb in E by lia.
      destruct (Z.eqb_spec k i); [congruence|]. destruct (Z.testbit x i); [done|done]. }
    destruct (Z.testbit x k) eqn:E; [right|left]; apply Z.bits_inj'; intros i Hi;
      rewrite ?Z.pow2_bits_eqb, ?Z.bits_0 by lia; destruct (Z.eqb_spec k i); subst; auto.
  - intros [->| ->]; [apply Z.ldiff_0_l|apply Z.ldiff_diag].
Qed.

Lemma dup3_flags flags : 0 <= flags ->
  (Z.ldiff flags O_CLOEXEC =? 0) = (flags =? 0) || (flags =? O_CLOEXEC).
Proof.
  intros Hf. pose proof (ldiff_bit flags 19 Hf ltac:(lia)) as H. change (2 ^ 19) with O_CLOEXEC in H.
  apply eq_true_iff_eq. rewrite orb_true_iff, !Z.eqb_eq. exact H.
Qed.

Lemma dup3_good other t fs oldfd newfd flags : let c := CDup3 oldfd newfd flags in
  sound other t fs -> args_ok c ->
  (sys_dup3 vec_max t fs oldfd newfd flags = Panic /\ may_panic vec_max c t) \/
  good other c t (sys_dup3 vec_max t fs oldfd newfd flags).
Proof.
  simpl. intros Hs (Ho & Hn & Hfl). unfold sys_dup3, good; simpl. rewrite dup3_flags by lia.
  destruct (oldfd =? newfd); simpl; [right; by eexists _, _, _|].
  destruct ((flags =? 0) || (flags =? O_CLOEXEC)) eqn:Ef; simpl; [|right; by eexists _, _, _].
  assert (Hb : bits_contain flags O_CLOEXEC = (flags =? O_CLOEXEC)) by (breflect; destruct Ef; breflect; by subst).
  rewrite Hb. unfold fd_get. rewrite (descriptor_abs t oldfd (so_table _ _ _ _ Hs) Ho).
  destruct (abs t !! oldfd) as [e|] eqn:Eo; simpl; [|right; by eexists _, _, _].
  rewrite <- (descriptor_abs t oldfd (so_table _ _ _ _ Hs) Ho) in Eo.
  set (en := mkEntry _ _). set (f := e_file e) in *. pose proof (to_len _ _ (so_table _ _ _ _ Hs)) as Hlen.
  destruct (decide (vec_max <= wrap newfd)) as [Hp|Hp].
  { left. rewrite insert_at_panics by done. done. }
  right. assert (Hnew : 0 <= newfd < vec_max).
  { unfold is_i32 in Hn. destruct (decide (0 <= newfd)); [rewrite wrap_i32 in Hp; lia|rewrite wrap_negative in Hp; lia]. }
  destruct (insert_at_spec vec_max Hmax t newfd en Hlen Hnew) as (t' & -> & Hu & Hh & Hl). ostep.
  assert (Ht' : table_ok vec_max t') by (apply (table_ok_update vec_max t t' _ en (so_table _ _ _ _ Hs) Hu Hh); lia).
  rewrite (wrap_fd newfd Hnew). eexists _, _, _. split; [reflexivity|].
  split; [|split; [done|]; apply updated_Z; [lia|done]].
  pose proof (sound_referenced _ _ _ _ _ _ Hs Eo) as Hpos. fold f in Hpos.
  destruct (arc_clone_spec f fs (so_files _ _ _ _ Hs) Hpos) as [Hf1 Hs1]. set (fs1 := arc_clone f fs) in *.
  destruct (arc_clone_spec f fs1 Hf1) as [Hf2 Hs2]; [rewrite Hs1, ind_refl; lia|]. set (fs2 := arc_clone f fs1) in *.
  assert (exists fs3, match slot t (Z.to_nat newfd) with Some e0 => arc_drop (e_file e0) fs2 | None => fs2 end = fs3 /\
      files_ok fs3 /\ forall g, strong fs3 g = strong fs g + 2 * ind (bool_decide (g = f)) - ref g (slot t (Z.to_nat newfd)))
    as (fs3 & -> & Hf3 & Hs3).
  { eexists. split; [reflexivity|]. destruct (slot t (Z.to_nat newfd)) as [e0|] eqn:Esl.
    - assert (Hd0 : descriptor t newfd = Some e0) by (by rewrite descriptor_slot, wrap_i32 by lia).
      pose proof (sound_referenced _ _ _ _ _ _ Hs Hd0) as Hpos0.
      destruct (arc_put_spec false (e_file e0) fs2 Hf2) as [Hf3 Hs3].
      { rewrite Hs2, Hs1. pose proof (ind_bounds (bool_decide (e_file e0 = f))). lia. }
      split; [done|]. intros g. rewrite Hs3, Hs2, Hs1, ref_Some. lia.
    - split; [done|]. intros g. rewrite Hs2, Hs1. change (ref g None) with 0. lia. }
  destruct (arc_put_spec false f fs3 Hf3) as [Hf4 Hs4].
  { rewrite Hs3, ind_refl. unfold ref. pose proof (ind_bounds (bool_decide (e_file <$> slot t (Z.to_nat newfd) = Some f))). lia. }
  apply (sound_update _ _ _ _ _ _ _ _ Hs Hu Ht' Hf4). intros g. rewrite Hs4, Hs3, (ref_Some g en). simpl. lia.
Qed.

Lemma set_entry_flags_spec other t fs fd e fl : sound other t fs -> is_i32 fd -> descriptor t fd = Some e ->
  0 <= fd /\ updated t (set_entry_flags t fd fl) (Z.to_nat fd) (Some (mkEntry (e_file e) fl)) /\
  sound other (set_entry_flags t fd fl) fs.
Proof.
  intros Hs Hfd Ed. pose proof (descriptor_nonneg vec_max Hmax t fd e (so_table _ _ _ _ Hs) Hfd Ed) as [H0 Hw].
  pose proof (descriptor_lt t fd e Ed) as [Hlt Hl]. unfold set_entry_flags. rewrite Ed. rewrite Hw in *.
  unfold zlen in Hlt.
  pose proof (updated_insert t (Z.to_nat fd) (Some (mkEntry (e_file e) fl)) 0 (next_fd_hint t) ltac:(lia)) as Hu.
  cbn [replicate] in Hu. rewrite app_nil_r in Hu. split; [done|]. split; [done|].
  pose proof (so_table _ _ _ _ Hs) as Ht. pose proof (to_len _ _ Ht).
  apply (sound_update _ _ _ _ _ _ _ _ Hs Hu).
  - apply (table_ok_update vec_max t _ _ _ Ht Hu eq_refl). unfold zlen in *; simpl. rewrite length_insert. lia.
  - apply Hs.
  - intros g. unfold slot. rewrite Hl. simpl. rewrite !ref_Some. simpl. lia.
Qed.

(** A reference taken and given back around an operation that keeps the counts. *)
Lemma borrow_sound other t fs fd e h : sound other t fs -> descriptor t fd = Some e ->
  (forall fs1, files_ok fs1 -> files_ok (h fs1) /\ forall g, strong (h fs1) g = strong fs1 g) ->
  sound other t (arc_drop (e_file e) (h (arc_clone (e_file e) fs))).
Proof.
  intros Hs Ed Hh. pose proof (sound_referenced _ _ _ _ _ _ Hs Ed) as Hpos.
  destruct (arc_clone_spec (e_file e) fs (so_files _ _ _ _ Hs) Hpos) as [Hf1 Hs1].
  destruct (Hh _ Hf1) as [Hf2 Hs2]. destruct (arc_put_spec false (e_file e) _ Hf2) as [Hf3 Hs3].
  { rewrite Hs2, Hs1, ind_refl. lia. }
  apply (sound_files _ _ _ _ _ Hs Hf3). intros g. rewrite Hs3, Hs2, Hs1. lia.
Qed.

Lemma dupfd_call other t fs fd arg : sound other t fs -> is_i32 fd ->
  (dup_fd vec_max t fs fd (Some (as_i32 arg)) = Panic /\ zlen (entries t) = vec_max) \/
  (abs t !! fd = None /\ dup_fd vec_max t fs fd (Some (as_i32 arg)) = Return (Err BadFd, (t, fs))) \/
  exists e n t' fs', abs t !! fd = Some e /\ dup_fd vec_max t fs fd (Some (as_i32 arg)) = Return (Ok n, (t', fs')) /\
    0 <= n < vec_max /\ sound other t' fs' /\ above (abs t) (wrap (as_i32 arg)) n /\
    abs t' = <[n := mkEntry (e_file e) 0]> (abs t).
Proof.
  intros Hs Hfd. pose proof (dup_fd_spec vec_max Hmin Hmax other t fs fd (Some (as_i32 arg)) Hs) as H.
  rewrite (descriptor_abs t fd (so_table _ _ _ _ Hs) Hfd) in H. destruct (abs t !! fd) as [e|] eqn:Ea; [|eauto].
  destruct H as [(mn & _ & ? & ?)|[(n & t' & fs' & E & Hn & Hs' & Hab & Hu)|([=] & _)]]; [by left|].
  right; right. exists e, n, t', fs'. repeat (split; [done|]). apply updated_Z; [lia|done].
Qed.

Lemma fcntl_good other t fs fd op arg : let c := CFcntl fd op arg in sound other t fs -> is_i32 fd ->
  (sys_fcntl vec_max t fs fd op arg = Panic /\ may_panic vec_max c t) \/ good other c t (sys_fcntl vec_max t fs fd op arg).
Proof.
  simpl. intros Hs Hfd. unfold sys_fcntl, good. cbn [call_spec]. unfold fcntl_spec, dupfd_spec.
  pose proof (dupfd_call other t fs fd arg Hs Hfd) as Hdup.
  destruct (op =? 0) eqn:E0; breflect.
  { destruct Hdup as [[-> ?]|[[-> ->]|(e & n & t' & fs' & -> & -> & Hn & Hs' & Hab & Ha)]]; simpl.
    - left. auto.
    - right. by eexists _, _, _.
    - right. rewrite (wrap_fd n Hn). eexists _, _, _. split; [reflexivity|]. split; [done|]. by exists n. }
  destruct (op =? 1030) eqn:E1; breflect.
  { destruct Hdup as [[-> ?]|[[-> ->]|(e & n & t' & fs' & -> & -> & Hn & Hs' & Hab & Ha)]]; simpl.
    - left. auto.
    - right. by eexists _, _, _.
    - right. assert (Hi : is_i32 n) by (unfold is_i32; lia).
      assert (Hd : descriptor t' n = Some (mkEntry (e_file e) 0)).
      { rewrite (descriptor_abs t' n (so_table _ _ _ _ Hs') Hi), Ha. apply lookup_insert_eq. }
      destruct (set_entry_flags_spec other t' fs' n _ CLOEXEC Hs' Hi Hd) as (_ & Hu & Hs2).
      unfold add_flags. rewrite Hd. cbn [e_flags]. change (Z.lor 0 CLOEXEC) with CLOEXEC. rewrite (wrap_fd n Hn). eexists _, _, _. split; [reflexivity|].
      split; [done|]. exists n. repeat (split; [done|]).
      rewrite (updated_Z _ _ _ _ (proj1 Hn) Hu), Ha. by rewrite insert_insert_eq. }
  right. unfold fd_get. rewrite (descriptor_abs t fd (so_table _ _ _ _ Hs) Hfd).
  assert (Hab : forall e, abs t !! fd = Some e -> descriptor t fd = Some e)
    by (intros e <-; apply descriptor_abs; [apply Hs|done]).
  destruct (op =? 1); [destruct (abs t !! fd); by eexists _, _, _|].
  destruct (op =? 2).
  { destruct (abs t !! fd) as [e|] eqn:Ea; [|by eexists _, _, _].
    pose proof (ldiff_bit (as_u32 arg) 0 ltac:(apply Z.mod_pos_bound; lia) ltac:(lia)) as Hb. change (2 ^ 0) with CLOEXEC in Hb.
    destruct (Z.ldiff (as_u32 arg) 1 =? 0) eqn:El; breflect; simpl.
    - destruct (set_entry_flags_spec other t fs fd e (as_u32 arg) Hs Hfd (Hab e eq_refl)) as (H0 & Hu & Hs2).
      eexists _, _, _. split; [reflexivity|]. split; [done|].
      replace ((as_u32 arg =? 0) || (as_u32 arg =? CLOEXEC)) with true by lia. split; [done|]. by apply updated_Z.
    - eexists _, _, _. split; [reflexivity|]. split; [done|].
      by replace ((as_u32 arg =? 0) || (as_u32 arg =? CLOEXEC)) with false by lia. }
  destruct (op =? 3).
  { destruct (abs t !! fd) as [e|] eqn:Ea; [|by eexists _, _, _]. eexists _, _, _. split; [reflexivity|].
    split; [|by split; [eexists|]]. apply (borrow_sound _ _ _ fd e (fun fs => fs)); auto. }
  destruct (op =? 4); [|by eexists _, _, _].
  destruct (negb _); [by eexists _, _, _|]. destruct (abs t !! fd) as [e|] eqn:Ea; [|by eexists _, _, _].
  eexists _, _, _. split; [reflexivity|]. split; [|done].
  apply (borrow_sound _ _ _ fd e (set_status_flags (e_file e) (as_u32 arg))); auto using set_status_flags_spec.
Qed.

(** Closing one descriptor. *)
Lemma fd_close_spec other t fs fd : sound other t fs -> is_i32 fd ->
  match abs t !! fd with
  | None => fd_close t fs fd = (Err BadFd, (t, fs))
  | Some e => exists t' fs', fd_close t fs fd = (Ok tt, (t', fs')) /\ sound other t' fs' /\ abs t' = delete fd (abs t)
  end.
Proof.
  intros Hs Hfd. rewrite <- (descriptor_abs t fd (so_table _ _ _ _ Hs) Hfd). unfold fd_close.
  destruct (descriptor t fd) as [e|] eqn:Ed.
  - destruct (remove_put_spec vec_max other t fs fd e true Hs Ed) as (t' & -> & Hs' & Hu).
    eexists _, _. split; [reflexivity|]. split; [done|].
    destruct (descriptor_nonneg vec_max Hmax t fd e (so_table _ _ _ _ Hs) Hfd Ed) as [H0 Hw].
    rewrite (updated_None _ _ _ Hu), Hw. by rewrite Z2Nat.id.
  - unfold fd_remove. by rewrite Ed.
Qed.

Lemma close_good other t fs fd : sound other t fs -> is_i32 fd -> good other (CClose fd) t (sys_close t fs fd).
Proof.
  intros Hs Hfd. unfold sys_close, good; simpl. pose proof (fd_close_spec other t fs fd Hs Hfd) as H.
  destruct (abs t !! fd) as [e|].
  - destruct H as (t' & fs' & -> & Hs' & Ha). simpl. by eexists _, _, _.
  - rewrite H. simpl. by eexists _, _, _.
Qed.

Lemma filter_delete_range (m : fdmap) a k : a < k ->
  filter (fun p => ~ in_range a k p) m = filter (fun p => ~ in_range (a + 1) k p) (delete a m).
Proof.
  intros Hk. apply map_eq. intros i. apply option_eq. intros e.
  rewrite !map_lookup_filter_Some, lookup_delete_Some. unfold in_range; simpl. intuition lia.
Qed.

Lemma close_each_spec other n : forall t fs first, sound other t fs -> -2 ^ 31 <= first -> first + Z.of_nat n <= 2 ^ 31 ->
  exists r t' fs', close_each (seqZ first (Z.of_nat n)) t fs = Return (r, (t', fs')) /\ sound other t' fs' /\
    close_range_spec (abs t) first (first + Z.of_nat n - 1) r (abs t').
Proof.
  induction n as [|n IH]; intros t fs first Hs Hlo Hhi.
  - exists (Ok 0), t, fs. split; [done|]. split; [done|]. exists first. split; [lia|]. split; [|left; split; [done|lia]].
    symmetry. apply map_filter_id. intros i e _. unfold in_range. lia.
  - rewrite seqZ_cons by lia. simpl. replace (Z.pred (Z.of_nat (S n))) with (Z.of_nat n) by lia.
    replace (Z.succ first) with (first + 1) by lia.
    pose proof (fd_close_spec other t fs first Hs) as H. destruct (abs t !! first) as [e|] eqn:Ef.
    + destruct H as (t1 & fs1 & -> & Hs1 & Ha1); [unfold is_i32; lia|]. simpl.
      destruct (IH t1 fs1 (first + 1) Hs1) as (r & t' & fs' & -> & Hs' & k & Hall & Ha & Hr); [lia|lia|].
      exists r, t', fs'. split; [done|]. split; [done|]. exists k. rewrite Ha1 in Hall, Ha, Hr.
      assert (Hk : first < k) by (destruct Hr as [[_ ->]|(_ & ? & _)]; lia).
      split; [|split; [by rewrite filter_delete_range|]].
      * intros j Hj. destruct (decide (j = first)) as [->|Hne]; [by rewrite Ef|].
        specialize (Hall j ltac:(lia)). by rewrite lookup_delete_ne in Hall by lia.
      * destruct Hr as [[-> ->]|(-> & ? & Hk')]; [left; split; [done|lia]|right; split; [done|]].
        split; [lia|]. by rewrite lookup_delete_ne in Hk' by lia.
    + rewrite H by (unfold is_i32; lia). simpl. exists (Err BadFd), t, fs. split; [done|]. split; [done|].
      exists first. split; [lia|]. split; [|right; split; [done|split; [lia|done]]].
      symmetry. apply map_filter_id. intros i e _. unfold in_range. lia.
Qed.

Lemma close_range_good other t fs first last flags : let c := CCloseRange first last flags in
  sound other t fs -> args_ok c ->
  (sys_close_range t fs first last flags = Panic /\ may_panic vec_max c t) \/ good other c t (sys_close_range t fs first last flags).
Proof.
  simpl. intros Hs [Hf Hl]. unfold sys_close_range, is_i32 in *. destruct (bits_contain flags 2) eqn:E2; [auto|].
  destruct (bits_contain flags 4) eqn:E4; [auto|]. right. unfold good; simpl.
  destruct (decide (first <= last)).
  - destruct (close_each_spec other (Z.to_nat (last - first + 1)) t fs first Hs) as (r & t' & fs' & E & H); [lia|lia|].
    rewrite Z2Nat.id in * by lia. exists r, t', fs'. split; [exact E|]. destruct H as [Hs' H]. split; [done|].
    by replace (first + (last - first + 1) - 1) with last in H by lia.
  - rewrite seqZ_nil by lia. eexists _, _, _. split; [reflexivity|]. split; [done|]. exists first. split; [lia|].
    split; [|left; split; [done|lia]]. symmetry. apply map_filter_id. intros i e _. unfold in_range. lia.
Qed.

(** Undoing two insertions. *)
Lemma pipe2_undo other t t2 fs n1 n2 f1 f2 : sound other t2 fs -> 0 <= n1 < vec_max -> 0 <= n2 < vec_max -> n1 <> n2 ->
  abs t !! n1 = None -> abs t !! n2 = None -> abs t2 = <[n2 := mkEntry f2 0]> (<[n1 := mkEntry f1 0]> (abs t)) ->
  exists t3 t4, fd_remove t2 n1 = (Some f1, t3) /\ fd_remove t3 n2 = (Some f2, t4) /\
    sound other t4 (arc_drop f2 (arc_drop f1 fs)) /\ abs t4 = abs t.
Proof.
  intros Hs Hn1 Hn2 Hne H1 H2 Ha.
  assert (Hd1 : descriptor t2 n1 = Some (mkEntry f1 0)).
  { rewrite (descriptor_abs t2 n1 (so_table _ _ _ _ Hs)), Ha by (unfold is_i32; lia).
    rewrite lookup_insert_ne by done. apply lookup_insert_eq. }
  destruct (remove_put_spec vec_max other t2 fs n1 _ false Hs Hd1) as (t3 & E3 & Hs3 & Hu3).
  assert (Ha3 : abs t3 = <[n2 := mkEntry f2 0]> (abs t)).
  { rewrite (updated_None _ _ _ Hu3), wrap_fd, Z2Nat.id by lia. rewrite Ha, delete_insert_ne by done.
    by rewrite delete_insert_id. }
  assert (Hd2 : descriptor t3 n2 = Some (mkEntry f2 0)).
  { rewrite (descriptor_abs t3 n2 (so_table _ _ _ _ Hs3)), Ha3 by (unfold is_i32; lia). apply lookup_insert_eq. }
  destruct (remove_put_spec vec_max other t3 _ n2 _ false Hs3 Hd2) as (t4 & E4 & Hs4 & Hu4).
  exists t3, t4. split; [done|]. split; [done|]. split; [done|].
  rewrite (updated_None _ _ _ Hu4), wrap_fd, Z2Nat.id, Ha3 by lia. by rewrite delete_insert_id.
Qed.

Lemma pipe2_good other t fs flags new copy : sound other t fs ->
  good other (CPipe2 flags new copy) t (sys_pipe2 vec_max t fs flags new copy).
Proof.
  intros Hs. unfold sys_pipe2, good. cbn [call_spec pipe2_spec].
  destruct new as [[]|e]; cbn [pipe2_spec]; [|by eexists _, _, _].
  destruct (arc_new flags fs) as [f1 fs1] eqn:E1. destruct (arc_new_sound _ _ _ _ _ _ Hs E1) as (Hs1 & Hun1 & Hf1 & Hz1).
  destruct (arc_new flags fs1) as [f2 fs2] eqn:E2. destruct (arc_new_sound _ _ _ _ _ _ Hs1 E2) as (Hs2 & Hun2 & Hf2 & Hz2).
  assert (Hne : f1 <> f2) by (intros ->; cbv beta in Hz2; rewrite ind_refl in Hz2; lia).
  cbv beta in Hz2. rewrite bool_decide_false in Hz2 by done. cbn [ind] in Hz2.
  destruct (insert_new _ t fs2 f1 0 Hs2) as [(n1 & t1 & -> & Hn1 & Hlow1 & Hu1 & Ha1 & Hs3)|[-> Hfull]].
  { cbv beta. rewrite ind_refl, bool_decide_false by done. simpl. lia. }
  2: { ostep. eexists _, _, _. split; [reflexivity|]. split; [|exists f1, f2; eauto 10].
    eapply sound_ext; [|apply put_sound; [apply put_sound; [exact Hs2|]|]]; cbv beta; [intros g; lia|..].
    - rewrite ind_refl, bool_decide_false by done. simpl. lia.
    - rewrite ind_refl, !(bool_decide_false (f2 = f1)) by done. simpl. lia. }
  ostep. destruct (insert_new _ t1 fs2 f2 0 Hs3) as [(n2 & t2 & -> & Hn2 & Hlow2 & Hu2 & Ha2 & Hs4)|[-> Hfull]].
  { cbv beta. rewrite ind_refl, !(bool_decide_false (f2 = f1)) by done. simpl. lia. }
  2: { ostep. eexists _, _, _. split; [reflexivity|]. split.
    - eapply sound_ext; [|apply put_sound; [exact Hs3|]]; cbv beta; [intros g; lia|].
      rewrite ind_refl, !(bool_decide_false (f2 = f1)) by done. simpl. lia.
    - rewrite Ha1 in *. exists f1, f2. repeat (split; [done|]). right. exists n1. split; [done|]. left. eauto. }
  ostep. assert (Hs5 : sound other t2 fs2) by (eapply sound_ext; [|exact Hs4]; intros g; cbv beta; lia).
  assert (Hn12 : n1 <> n2).
  { intros ->. destruct Hlow2 as (_ & Hnone & _). by rewrite Ha1, lookup_insert_eq in Hnone. }
  rewrite Ha1 in Ha2, Hlow2.
  destruct copy as [[]|e].
  - eexists _, _, _. split; [reflexivity|]. split; [done|]. exists f1, f2. repeat (split; [done|]).
    right. exists n1. split; [done|]. right. by exists n2.
  - destruct (pipe2_undo other t t2 fs2 n1 n2 f1 f2 Hs5 Hn1 Hn2 Hn12) as (t3 & t4 & -> & -> & Hs6 & Ha4); [apply Hlow1| |done|].
    { destruct Hlow2 as (_ & Hnone & _). by rewrite lookup_insert_ne in Hnone. }
    eexists _, _, _. split; [reflexivity|]. split; [done|]. exists f1, f2. repeat (split; [done|]).
    right. exists n1. split; [done|]. right. by exists n2.
Qed.

(** ** Whole tables *)

Definition cnt (f : Z) (l : list Z) : Z := foldr (fun g n => ind (bool_decide (f = g)) + n) 0 l.

Lemma cnt_nonneg f l : 0 <= cnt f l.
Proof. induction l as [|g l IH]; simpl; [done|]. pose proof (ind_bounds (bool_decide (f = g))). lia. Qed.

Lemma cnt_app f l k : cnt f (l ++ k) = cnt f l + cnt f k.
Proof. induction l as [|g l IH]; simpl; lia. Qed.

Lemma cnt_pos f l : f ∈ l <-> 0 < cnt f l.
Proof.
  induction l as [|g l IH]; simpl; [split; [by intros ?%not_elem_of_nil|done]|].
  rewrite elem_of_cons, IH. pose proof (cnt_nonneg f l).
  case_bool_decide; simpl; [split; [lia|auto]|]. split; [intros [?|?]; [done|lia]|]. right. lia.
Qed.

Lemma focc_cnt f t : focc f (entries t) = cnt f (table_files t).
Proof.
  unfold table_files. induction (entries t) as [|[e|] l IH]; [done| |]; cbn.
  - change (ref f (Some e) + focc f l = ind (bool_decide (f = e_file e)) + cnt f (e_file <$> omap id l)).
    by rewrite ref_Some, IH.
  - exact IH.
Qed.

Lemma clone_all_spec l fs : files_ok fs -> (forall f, f ∈ l -> 0 < strong fs f) ->
  files_ok (foldr arc_clone fs l) /\ forall f, strong (foldr arc_clone fs l) f = strong fs f + cnt f l.
Proof.
  intros Hf. induction l as [|g l IH]; intros Hl; simpl; [split; [done|intros; lia]|].
  destruct IH as [Hf' Hc]; [intros f Hin; apply Hl; by right|].
  destruct (arc_clone_spec g _ Hf') as [Hf2 Hc2].
  { rewrite Hc. pose proof (cnt_nonneg g l). specialize (Hl g (list_elem_of_here g l)). lia. }
  split; [done|]. intros f. rewrite Hc2, Hc. lia.
Qed.

Lemma drop_all_spec l fs : files_ok fs -> (forall f, cnt f l <= strong fs f) ->
  files_ok (foldr arc_drop fs l) /\ forall f, strong (foldr arc_drop fs l) f = strong fs f - cnt f l.
Proof.
  intros Hf. induction l as [|g l IH]; intros Hl; simpl in *; [split; [done|intros; lia]|].
  destruct IH as [Hf' Hc].
  { intros f. specialize (Hl f). pose proof (ind_bounds (bool_decide (f = g))). lia. }
  destruct (arc_put_spec false g _ Hf') as [Hf2 Hc2].
  { rewrite Hc. specialize (Hl g). rewrite ind_refl in Hl. lia. }
  split; [done|]. intros f. rewrite Hc2, Hc. lia.
Qed.

Lemma table_clone_sound other t fs : sound other t fs ->
  sound (fun f => other f + focc f (entries t)) t (table_clone t fs).2.
Proof.
  intros [H1 H2 H3 H4]. destruct (clone_all_spec (table_files t) fs H2) as [Hf Hc].
  { intros f Hf%cnt_pos. rewrite H3, focc_cnt. specialize (H4 f). lia. }
  constructor; [done|done| |].
  - intros f. simpl. rewrite Hc, H3, !focc_cnt. lia.
  - intros f. pose proof (focc_nonneg f (entries t)). specialize (H4 f). lia.
Qed.

Lemma table_drop_sound other t t' fs : sound (fun f => other f + focc f (entries t)) t' fs -> (forall f, 0 <= other f) ->
  sound other t' (table_drop t fs).
Proof.
  intros [H1 H2 H3 _] H4. destruct (drop_all_spec (table_files t) fs H2) as [Hf Hc].
  { intros f. rewrite H3, (focc_cnt f t). pose proof (focc_nonneg f (entries t')). specialize (H4 f). lia. }
  constructor; [done|done| |done]. intros f. unfold table_drop. rewrite Hc, H3, (focc_cnt f t). lia.
Qed.

Lemma close_fds_spec other fds : forall t fs, sound other t fs -> Forall (fun i => 0 <= i < 2 ^ 31) fds ->
  exists t' fs', close_fds fds t fs = (t', fs') /\ sound other t' fs' /\ abs t' = filter (fun p => p.1 ∉ fds) (abs t) /\
    ((forall f, 0 < focc f (entries t) -> 0 < other f) -> closed fs' = closed fs).
Proof.
  induction fds as [|i fds IH]; intros t fs Hs Hfds.
  - exists t, fs. split; [done|]. split; [done|]. split; [|done]. symmetry. apply map_filter_id. intros j e _. apply not_elem_of_nil.
  - inversion Hfds as [|? ? Hi Hfds']; subst. simpl. rewrite as_i32_small by done.
    assert (Hii : is_i32 i) by (unfold is_i32; lia).
    destruct (descriptor t i) as [e|] eqn:Ed.
    + destruct (remove_put_spec vec_max other t fs i e true Hs Ed) as (t1 & -> & Hs1 & Hu).
      destruct (IH t1 _ Hs1 Hfds') as (t' & fs' & -> & Hs' & Ha & Hcl).
      exists t', fs'. split; [done|]. split; [done|]. split.
      * rewrite Ha, (updated_None _ _ _ Hu), wrap_i32, Z2Nat.id by lia. apply map_eq. intros j. apply option_eq. intros e'.
        rewrite !map_lookup_filter_Some, lookup_delete_Some, elem_of_cons. simpl. naive_solver.
      * intros Ho. assert (Hpos : 0 < focc (e_file e) (entries t)).
        { apply descriptor_lt in Ed as [_ El]. pose proof (focc_lookup (e_file e) _ _ _ El) as Hr.
          rewrite ref_Some, ind_refl in Hr. lia. }
        rewrite Hcl.
        -- pose proof (so_count _ _ _ _ Hs (e_file e)) as Hc. specialize (Ho _ Hpos). unfold strong in Hc. unfold arc_put.
           destruct (opened fs !! e_file e) as [o|]; [|done].
           by replace (of_strong o =? 1) with false by lia.
        -- intros f Hf. apply Ho. rewrite (up_occ _ _ _ _ Hu) in Hf. change (ref f None) with 0 in Hf.
           pose proof (ref_nonneg f (slot t (Z.to_nat (wrap i)))). lia.
    + assert (Er : fd_remove t i = (None, t)) by (unfold fd_remove; by rewrite Ed). rewrite Er.
      destruct (IH t fs Hs Hfds') as (t' & fs' & -> & Hs' & Ha & Hcl).
      exists t', fs'. split; [done|]. split; [done|]. split; [|done]. rewrite Ha. apply map_filter_ext. intros j e' Hj. simpl.
      rewrite elem_of_cons. rewrite (descriptor_abs t i (so_table _ _ _ _ Hs) Hii) in Ed. naive_solver.
Qed.

Lemma cloexec_fds_spec t i : table_ok vec_max t ->
  i ∈ cloexec_fds t <-> exists e, abs t !! i = Some e /\ bits_contain (e_flags e) CLOEXEC = true.
Proof.
  intros Ht. unfold cloexec_fds. rewrite list_elem_of_omap. split.
  - intros ([j x] & Hin & Hx). simpl in Hx. destruct x as [e|]; [|done]. destruct (bits_contain _ _) eqn:Eb; simplify_eq.
    apply list_elem_of_lookup in Hin as [n Hn]. rewrite lookup_zip_with_Some in Hn. destruct Hn as (j' & x' & E & H1 & H2). simplify_eq.
    apply lookup_seqZ in H1 as [-> Hlt]. exists e. split; [|done]. rewrite Z.add_0_l, abs_nat. unfold slot. by rewrite H2.
  - intros (e & Ha & Hb). rewrite abs_lookup in Ha. case_bool_decide as H0; [|done]. unfold slot in Ha.
    destruct (entries t !! Z.to_nat i) as [[e'|]|] eqn:El; simplify_eq/=.
    exists (i, Some e). split; [|simpl; by rewrite Hb]. apply list_elem_of_lookup. exists (Z.to_nat i). apply lookup_zip_with_Some.
    exists i, (Some e). split; [done|]. split; [|done]. apply lookup_seqZ. apply lookup_lt_Some in El. unfold zlen. lia.
Qed.

Lemma exec_spec other t fs : sound other t fs ->
  exists t' fs', exec_files t fs = (t', fs') /\ sound other t' fs' /\ abs t' = filter kept_by_exec (abs t) /\
    exists dropped, closed fs' = dropped ++ closed fs /\ Forall (fun p => p.2 = false) dropped.
Proof.
  intros Hs. unfold exec_files, close_cloexec_entries. pose proof (table_clone_sound other t fs Hs) as Hs1.
  destruct (table_clone t fs) as [t0 fs1] eqn:Ec. assert (t0 = t) as -> by (by injection Ec). cbn [snd] in Hs1.
  assert (Hcl1 : closed fs1 = closed fs).
  { injection Ec as <-. clear. by induction (table_files t). }
  destruct (close_fds_spec _ (cloexec_fds t) t fs1 Hs1) as (t' & fs2 & -> & Hs2 & Ha & Hcl).
  { apply list.Forall_forall. intros i (e & He & _)%cloexec_fds_spec; [|apply Hs]. rewrite abs_lookup in He.
    case_bool_decide; [|done]. pose proof (slot_lt t _ (mk_is_Some _ _ He)). pose proof (to_len _ _ (so_table _ _ _ _ Hs)).
    unfold zlen in *. lia. }
  exists t', (table_drop t fs2). split; [done|]. split; [apply table_drop_sound; [done|apply Hs]|]. split.
  - rewrite Ha. apply map_filter_ext. intros i e Hi. unfold kept_by_exec. simpl.
    rewrite cloexec_fds_spec by apply Hs. rewrite Hi.
    destruct (bits_contain (e_flags e) CLOEXEC) eqn:Eb.
    + split; [|done]. intros H. exfalso. apply H. by exists e.
    + split; [done|]. intros _ (e0 & [= <-] & Hb). congruence.
  - rewrite <- Hcl1, <- Hcl.
    2: { intros f Hf. pose proof (so_other _ _ _ _ Hs f). lia. }
    unfold table_drop. induction (table_files t) as [|g l (d & Hd & Hall)]; [by exists []|]. simpl.
    set (fs3 := foldr arc_drop fs2 l) in *. unfold arc_put. destruct (opened fs3 !! g); [|by exists d].
    destruct (_ =? 1); simpl; [exists ((g, false) :: d)|by exists d]. rewrite Hd. split; [done|by constructor].
Qed.

Lemma run_call_spec other c t fs : sound other t fs -> args_ok c ->
  (run_call vec_max c t fs = Panic /\ may_panic vec_max c t) \/ good other c t (run_call vec_max c t fs).
Proof.
  intros Hs Hc. destruct c; simpl in Hc; cbn [run_call].
  - right. by apply open_good.
  - right. by apply pipe2_good.
  - right. by apply dup_good.
  - by apply dup3_good.
  - by apply fcntl_good.
  - right. by apply close_good.
  - by apply close_range_good.
  - right. destruct (exec_spec other t fs Hs) as (t' & fs' & E & Hs' & Ha & _). exists (Ok 0), t', fs'.
    rewrite E. done.
Qed.

(** ** All processes *)

Definition wocc (f : Z) (ts : list FileDescriptorTable) : Z := foldr (fun t n => focc f (entries t) + n) 0 ts.

Lemma wocc_nonneg f ts : 0 <= wocc f ts.
Proof. induction ts as [|t ts IH]; simpl; [done|]. pose proof (focc_nonneg f (entries t)). lia. Qed.

Lemma wocc_app f ts us : wocc f (ts ++ us) = wocc f ts + wocc f us.
Proof. induction ts as [|t ts IH]; simpl; lia. Qed.

Lemma wocc_insert f ts i t t' : ts !! i = Some t ->
  wocc f (<[i := t']> ts) = wocc f ts - focc f (entries t) + focc f (entries t').
Proof. revert i. induction ts as [|u ts IH]; intros [|i] E; simplify_eq/=; [lia|]. rewrite (IH i E). lia. Qed.

Lemma wocc_lookup f ts i t : ts !! i = Some t -> focc f (entries t) <= wocc f ts.
Proof.
  intros E. pose proof (wocc_insert f ts i t fd_table_new E). pose proof (wocc_nonneg f (<[i := fd_table_new]> ts)).
  change (focc f (entries fd_table_new)) with 0 in *. lia.
Qed.

Record world_ok (w : World) : Prop := {
  wo_tables : Forall (table_ok vec_max) (tables w);
  wo_files : files_ok (files w);
  wo_count : forall f, strong (files w) f = wocc f (tables w) + cnt f (held w)
}.

Definition elsewhere (w : World) (t : FileDescriptorTable) (f : Z) : Z :=
  wocc f (tables w) - focc f (entries t) + cnt f (held w).

Lemma world_sound w i t : world_ok w -> tables w !! i = Some t -> sound (elsewhere w t) t (files w).
Proof.
  intros [H1 H2 H3] Hi. unfold elsewhere. constructor; [by eapply Forall_lookup_1|done| |].
  - intros f. rewrite H3. lia.
  - intros f. pose proof (wocc_lookup f _ _ _ Hi). pose proof (cnt_nonneg f (held w)). lia.
Qed.

Lemma world_update w i t t' fs' : world_ok w -> tables w !! i = Some t -> sound (elsewhere w t) t' fs' ->
  world_ok (mkWorld (<[i := t']> (tables w)) (held w) fs').
Proof.
  intros [H1 H2 H3] Hi Hs. constructor; simpl; [apply Forall_insert; [done|apply Hs]|apply Hs|].
  intros f. rewrite (so_count _ _ _ _ Hs), (wocc_insert f _ _ _ _ Hi). unfold elsewhere. lia.
Qed.

Lemma world_step_ok w w' : world_ok w -> world_step vec_max w w' -> world_ok w'.
Proof.
  intros Hw Hst. destruct Hst as [w i t c r t' fs' Hi Hc Hr|w i t t' fs' Hi Hc|w i t Hi|w i t fd f Hi Hg|w h1 f h2 Hh].
  - apply (world_update w i t); [done|done|]. pose proof (world_sound w i t Hw Hi) as Hs.
    destruct (run_call_spec _ c t _ Hs Hc) as [[E _]|(r' & t1 & fs1 & E & Hs' & _)]; rewrite E in Hr; by simplify_eq.
  - pose proof (table_clone_sound _ t _ (world_sound w i t Hw Hi)) as Hs. rewrite Hc in Hs. injection Hc as <- _.
    destruct Hw as [H1 H2 H3]. constructor; simpl; [|apply Hs|].
    + apply Forall_app. split; [done|]. constructor; [apply Hs|constructor].
    + intros f. rewrite (so_count _ _ _ _ Hs), wocc_app. unfold elsewhere. simpl. lia.
  - apply (world_update w i t); [done|done|]. pose proof (world_sound w i t Hw Hi) as Hs. apply table_drop_sound; [|apply Hs].
    constructor.
    + constructor; simpl; [done|intros n Hn; lia|unfold zlen; simpl; lia].
    + apply Hs.
    + intros f. rewrite (so_count _ _ _ _ Hs). simpl. lia.
    + intros f. pose proof (so_other _ _ _ _ Hs f). pose proof (focc_nonneg f (entries t)). lia.
  - pose proof (world_sound w i t Hw Hi) as Hs. unfold fd_get in Hg. apply fmap_Some in Hg as (e & Hd & ->).
    destruct (arc_clone_spec (e_file e) (files w) (so_files _ _ _ _ Hs)) as [Hf Hc]; [by eapply sound_referenced|].
    destruct Hw as [H1 H2 H3]. constructor; simpl; [done|done|]. intros f. rewrite Hc, H3. lia.
  - destruct Hw as [H1 H2 H3]. destruct (arc_put_spec false f (files w) H2) as [Hf Hc].
    { rewrite H3, Hh, cnt_app. simpl. rewrite ind_refl. pose proof (wocc_nonneg f (tables w)).
      pose proof (cnt_nonneg f h1). pose proof (cnt_nonneg f h2). lia. }
    constructor; simpl; [done|done|]. intros g. rewrite Hc, H3, Hh, !cnt_app. simpl. lia.
Qed.

Lemma reachable_ok w : reachable vec_max w -> world_ok w.
Proof.
  apply (rtc_ind_r world_ok boot).
  - constructor; simpl.
    + constructor; [|constructor]. constructor; simpl; [done|intros n Hn; lia|unfold zlen; simpl; lia].
    + constructor; simpl; [done|done|constructor| |by intros f ?%not_elem_of_nil].
      intros f. rewrite lookup_empty. split; [lia|]. intros [[? [=]]|?%not_elem_of_nil]. done.
    + done.
  - intros y z _ Hst Hy. by apply (world_step_ok y z).
Qed.

Lemma focc_descriptor f t : 0 < focc f (entries t) -> exists n e, slot t n = Some e /\ e_file e = f.
Proof.
  unfold slot. induction (entries t) as [|x l IH]; cbn; [done|]. change (foldr _ 0 l) with (focc f l). intros H.
  destruct (decide (0 < focc f l)) as [Hl|Hl].
  - destruct (IH Hl) as (n & e & Hn & He). by exists (S n), e.
  - exists O. unfold ref in H. case_bool_decide as Hb; simpl in H; [|lia].
    apply fmap_Some in Hb as (e & -> & ->). by exists e.
Qed.

Lemma wocc_table f ts : 0 < wocc f ts -> exists i t, ts !! i = Some t /\ 0 < focc f (entries t).
Proof.
  induction ts as [|t ts IH]; simpl; [lia|]. intros H. destruct (decide (0 < focc f (entries t))); [by exists O, t|].
  destruct IH as (i & u & Hi & Hu); [lia|]. by exists (S i), u.
Qed.

(** C16: In every state the processes can reach, a descriptor call with arguments of its types
    either panics for one of the three named reasons, or returns and changes the descriptors
    of its process as specified: open, pipe2 and dup take the lowest free descriptor or fail when the
    table is full, dup3 installs exactly its target, fcntl duplicates at or above its minimum (or
    right after the table, if that ends before) and sets the flags, close and close_range remove what they
    name, execve removes what is marked close-on-exec, and nothing else changes. *)
Theorem fd_calls_correct (w : World) (i : nat) (t : FileDescriptorTable) (c : fd_call) :
  reachable vec_max w -> tables w !! i = Some t -> args_ok c ->
  (run_call vec_max c t (files w) = Panic /\ may_panic vec_max c t) \/
  exists r t' fs', run_call vec_max c t (files w) = Return (r, (t', fs')) /\ call_spec c (abs t) r (abs t').
Proof.
  intros Hw%reachable_ok Hi Hc. destruct (run_call_spec _ c t _ (world_sound w i t Hw Hi) Hc) as [?|(r & t' & fs' & E & _ & H)]; [by left|].
  right. by exists r, t', fs'.
Qed.

(** C17: In every state the processes can reach through descriptor calls, clone, execve, exit and calls
    in progress, the strong count of every open file is the number of descriptors that refer to it plus
    the references held by calls in progress.  So a file a descriptor names is open, an open file
    is named by a descriptor or held, and every file is closed at most once. *)
Theorem file_references_exact (w : World) : reachable vec_max w ->
  (forall f, strong (files w) f = wocc f (tables w) + cnt f (held w)) /\
  (forall i t fd f, tables w !! i = Some t -> fd_get t fd = Some f -> is_Some (opened (files w) !! f) /\ f ∉ (closed (files w)).*1) /\
  (forall f, is_Some (opened (files w) !! f) -> f ∈ held w \/ exists i t n e, tables w !! i = Some t /\ slot t n = Some e /\ e_file e = f) /\
  NoDup (closed (files w)).*1.
Proof.
  intros Hw%reachable_ok. pose proof (wo_files _ Hw) as Hf. split; [apply Hw|]. split; [|split; [|apply Hf]].
  - intros i t fd f Hi (e & Hd & ->)%fmap_Some. pose proof (sound_referenced _ _ _ _ _ _ (world_sound w i t Hw Hi) Hd) as Hp.
    apply strong_pos in Hp; [|done]. split; [done|]. intros Hcl%(fo_disj _ Hf). rewrite Hcl in Hp. by destruct Hp.
  - intros f Hop%strong_pos; [|done]. rewrite (wo_count _ Hw) in Hop. destruct (decide (0 < cnt f (held w))) as [Hh|Hh].
    + left. by apply cnt_pos.
    + right. destruct (wocc_table f (tables w)) as (i & t & Hi & Hp); [lia|].
      destruct (focc_descriptor f t Hp) as (n & e & Hn & He). eauto 10.
Qed.

End calls.

(** ** Witnesses *)

Definition demo_files : Files := mkFiles {[0 := mkFile 1 2]} 1 [].
Definition demo_world : World := mkWorld [mkTable [Some (mkEntry 0 0)] 1] [] demo_files.

Lemma demo_reachable : reachable 8192 demo_world.
Proof.
  apply rtc_once. eapply (step_call 8192 boot 0 fd_table_new (COpen 2 0) (Ok 0)); [done|done|].
  vm_compute. reflexivity.
Qed.

(** dup3 of the open descriptor to descriptor 3, close-on-exec, after a file was opened. *)
Lemma fd_calls_correct_witness :
  (run_call 8192 (CDup3 0 3 O_CLOEXEC) (mkTable [Some (mkEntry 0 0)] 1) demo_files = Panic /\
   may_panic 8192 (CDup3 0 3 O_CLOEXEC) (mkTable [Some (mkEntry 0 0)] 1)) \/
  exists r t' fs', run_call 8192 (CDup3 0 3 O_CLOEXEC) (mkTable [Some (mkEntry 0 0)] 1) demo_files = Return (r, (t', fs')) /\
    call_spec (CDup3 0 3 O_CLOEXEC) (abs (mkTable [Some (mkEntry 0 0)] 1)) r (abs t').
Proof.
  apply (fd_calls_correct 8192 ltac:(lia) ltac:(lia) demo_world 0); [exact demo_reachable|reflexivity|].
  simpl. unfold is_i32. lia.
Defined.

Lemma file_references_exact_witness :
  (forall f, strong demo_files f = wocc f (tables demo_world) + cnt f []) /\
  (forall i t fd f, tables demo_world !! i = Some t -> fd_get t fd = Some f -> is_Some (opened demo_files !! f) /\ f ∉ (closed demo_files).*1) /\
  (forall f, is_Some (opened demo_files !! f) -> f ∈ held demo_world \/
     exists i t n e, tables demo_world !! i = Some t /\ slot t n = Some e /\ e_file e = f) /\
  NoDup (closed demo_files).*1.
Proof. apply (file_references_exact 8192 ltac:(lia) ltac:(lia) demo_world demo_reachable). Defined.

(** ** Behaviour that departs from what callers expect *)

(** F_DUPFD with a minimum beyond the table returns a descriptor below the minimum. *)
Lemma dupfd_below_minimum :
  exists s, sys_fcntl 8192 (mkTable [Some (mkEntry 0 0)] 1) demo_files 0 0 10 = Return (Ok 1, s).
Proof. eexists. vm_compute. reflexivity. Qed.

(** dup3 to a negative descriptor panics the kernel. *)
Lemma dup3_negative_panics vec_max t fs e newfd : MAX_FDS <= vec_max <= 2 ^ 31 -> zlen (entries t) <= vec_max ->
  descriptor t 0 = Some e -> -2 ^ 31 <= newfd < 0 -> sys_dup3 vec_max t fs 0 newfd 0 = Panic.
Proof.
  intros Hm Hl Hd Hn. unfold sys_dup3. replace (0 =? newfd) with false by lia. simpl. unfold fd_get. rewrite Hd. simpl.
  rewrite insert_at_panics; [done|lia|done|]. rewrite wrap_negative; lia.
Qed.

(** The usual call that closes everything from a descriptor on, with the largest unsigned number as
    its end, closes nothing, since the end is taken as -1. *)
Lemma close_range_to_the_end t fs first : 0 <= first -> sys_close_range t fs first (as_i32 (2 ^ 32 - 1)) 0 = Return (Ok 0, (t, fs)).
Proof.
  intros Hf. unfold sys_close_range. simpl. change (as_i32 (2 ^ 32 - 1)) with (-1). rewrite seqZ_nil by lia. done.
Qed.

(** close_range stops with an error at the first descriptor that is not open. *)
Lemma close_range_stops : exists s,
  sys_close_range (mkTable [Some (mkEntry 0 0); None; Some (mkEntry 0 0)] 0) (mkFiles {[0 := mkFile 2 2]} 1 []) 0 2 0
  = Return (Err BadFd, s) /\ descriptor s.1 2 = Some (mkEntry 0 0).
Proof. eexists. split; vm_compute; reflexivity. Qed.

(** pipe2 with O_CLOEXEC makes descriptors that survive execve. *)
Lemma pipe2_ignores_cloexec :
  match sys_pipe2 8192 fd_table_new (mkFiles ∅ 0 []) O_CLOEXEC (Ok tt) (Ok tt) with
  | Return (_, (t, fs)) => entries (exec_files t fs).1
  | _ => []
  end = [Some (mkEntry 0 0); Some (mkEntry 1 0)].
Proof. vm_compute. reflexivity. Qed.

(** When only one descriptor is left pipe2 fails and keeps it for the read end. *)
Lemma pipe2_leaks_read_end :
  match sys_pipe2 8192 (mkTable (replicate 8191 (Some (mkEntry 0 0))) 8191) (mkFiles {[0 := mkFile 8191 2]} 1 []) 0 (Ok tt) (Ok tt) with
  | Return (Err (Fs TooManyFiles), s) => fd_get s.1 8191
  | _ => None
  end = Some 1.
Proof. vm_compute. reflexivity. Qed.

(** execve closes descriptors in a copy of the table while the table itself still refers to the files, so
    it never releases a file it closes. *)
Lemma exec_never_releases vec_max w i t : MAX_FDS <= vec_max -> vec_max <= 2 ^ 31 ->
  reachable vec_max w -> tables w !! i = Some t ->
  exists dropped, closed (exec_files t (files w)).2 = dropped ++ closed (files w) /\ Forall (fun p => p.2 = false) dropped.
Proof.
  intros H1 H2 Hw%reachable_ok Hi; [|done|done].
  destruct (exec_spec vec_max H2 _ t _ (world_sound vec_max w i t Hw Hi)) as (t' & fs' & -> & _ & _ & H). exact H.
Qed.

(** dup3 over the last descriptor of a file drops the file without releasing it; so does closing the
    last descriptor while another thread reads from the file. *)
Lemma dup3_drops_unreleased : exists s,
  sys_dup3 8192 (mkTable [Some (mkEntry 0 0); Some (mkEntry 1 0)] 2) (mkFiles {[0 := mkFile 1 2; 1 := mkFile 1 2]} 2 []) 0 1 0
  = Return (Ok 1, s) /\ closed s.2 = [(1, false)].
Proof. eexists. split; vm_compute; reflexivity. Qed.

Lemma close_during_read_unreleased :
  let fs1 := arc_clone 0 demo_files in
  exists s, sys_close (mkTable [Some (mkEntry 0 0)] 1) fs1 0 = Return (Ok 0, s) /\ closed (arc_drop 0 s.2) = [(0, false)].
Proof. eexists. split; vm_compute; reflexivity. Qed.
