(* ===== verification/Paths.v ===== *)
(** * Path names

    Models libkernel/src/fs/path.rs and pathbuf.rs.  A path is a UTF-8 string, here the list
    of its bytes; a slash is 47 and a dot is 46.  Slicing a string panics off a character
    boundary, as it does in Rust.  The iterator over the components calls itself on components
    that are a single dot; its fuel comes from the length of what remains, and [components_names]
    shows that it is enough. *)
From stdpp Require Import base list.
From S2P Require Import Prelude Error.
Local Open Scope Z_scope.

Notation path := (list Z).
Notation SLASH := (47).
Notation DOT := (46).

(** ** The operations of [str] that the code uses *)

Definition starts_with_slash (p : path) : bool := match p with c :: _ => c =? SLASH | [] => false end.
Definition ends_with_slash (p : path) : bool := starts_with_slash (reverse p).

Fixpoint trim_start (p : path) : path :=
  match p with
  | c :: p' => if c =? SLASH then trim_start p' else p
  | [] => []
  end.

(** An index is a character boundary unless the byte there continues a character. *)
Definition is_char_boundary (p : path) (i : nat) : bool :=
  match p !! i with
  | Some c => (i =? 0)%nat || negb ((128 <=? c) && (c <? 192))
  | None => (i =? length p)%nat
  end.

Definition slice_to (p : path) (e : nat) : outcome path :=
  if is_char_boundary p e then Return (take e p) else Panic.

(** ** Path *)

Notation is_absolute p := (starts_with_slash p) (only parsing).

(** [Components::next]: the component and what remains. *)
Fixpoint next_component (fuel : nat) (remaining : path) : outcome (option path * path) :=
  match fuel with
  | O => OutOfFuel
  | S fuel' =>
      let remaining := trim_start remaining in
      match remaining with
      | [] => Return (None, remaining)
      | _ :: _ =>
          match position (fun c => c =? SLASH) remaining with
          | Some index =>
              let component := take index remaining in
              let remaining := drop index remaining in
              if decide (component = [DOT]) then next_component fuel' remaining
              else Return (Some component, remaining)
          | None =>
              let component := remaining in
              if decide (component = [DOT]) then next_component fuel' []
              else Return (Some component, [])
          end
      end
  end.

(** [self.components().collect()] *)
Fixpoint collect (fuel : nat) (remaining : path) : outcome (list path) :=
  match fuel with
  | O => OutOfFuel
  | S fuel' =>
      let! (c, remaining') := next_component (2 + length remaining) remaining in
      match c with
      | None => Return []
      | Some c => let! cs := collect fuel' remaining' in Return (c :: cs)
      end
  end.
Definition components (p : path) : outcome (list path) := collect (S (length p)) p.

Definition strip_prefix (p base : path) : option path :=
  if decide (base `prefix_of` p) then
    if (length base =? length p)%nat then Some []
    else match p !! length base with
    | Some SLASH =>
        let stripped := drop (length base) p in
        if ends_with_slash base then Some stripped else Some (drop 1 stripped)
    | _ => None
    end
  else None.

Definition parent (p : path) : outcome (option path) :=
  let! cs := components p in
  if (length cs <=? 1)%nat then Return None
  else
    let cs := take (length cs - 1) cs in
    let parent_len := (sum_list (length <$> cs) + length cs - 1)%nat in
    let e := (if is_absolute p then parent_len + 1 else parent_len)%nat in
    let! s := slice_to p e in Return (Some s).

Definition file_name (p : path) : outcome (option path) :=
  let! cs := components p in Return (last cs).

(** ** PathBuf *)

Definition push (self p : path) : path :=
  if is_absolute p then p
  else
    let self := if negb (bool_decide (self = [])) && negb (ends_with_slash self) then self ++ [SLASH] else self in
    self ++ p.

Definition join (self other : path) : path := push (push [] self) other.

Definition pop (self : path) : outcome (bool * path) :=
  let! par := parent self in
  match par with
  | Some par => Return (true, take (length par) self)
  | None => Return (false, self)
  end.

Definition set_file_name (self name : path) : outcome path :=
  let! f := file_name self in
  let! self' := (if bool_decide (is_Some f) then let! (_, s) := pop self in Return s else Return self) in
  Return (push self' name).

(** ** The names of a path *)

(** [split('/')] *)
Fixpoint split (p : path) : list path :=
  match p with
  | [] => [[]]
  | c :: p' =>
      if c =? SLASH then [] :: split p'
      else match split p' with
      | h :: l => (c :: h) :: l
      | [] => [[c]]
      end
  end.

Definition is_name (c : path) : Prop := c <> [] /\ c <> [DOT].
#[export] Instance is_name_dec c : Decision (is_name c).
Proof. unfold is_name. apply _. Defined.

Definition names (p : path) : list path := filter is_name (split p).

(** A component: a name without a slash. *)
Definition name_ok (c : path) : Prop := is_name c /\ SLASH ∉ c.

(** The path without superfluous slashes and dots. *)
Fixpoint intercalate (cs : list path) : path :=
  match cs with
  | [] => []
  | [c] => c
  | c :: cs' => c ++ SLASH :: intercalate cs'
  end.
Definition render (absolute : bool) (cs : list path) : path := (if absolute then [SLASH] else []) ++ intercalate cs.

Lemma split_app p q : SLASH ∉ p -> split (p ++ SLASH :: q) = p :: split q.
Proof.
  induction p as [|c p IH]; intros Hp; [done|]. apply not_elem_of_cons in Hp as [Hc Hp]. simpl.
  replace (c =? SLASH) with false by lia. by rewrite IH.
Qed.

Lemma split_one p : SLASH ∉ p -> split p = [p].
Proof.
  induction p as [|c p IH]; intros Hp; [done|]. apply not_elem_of_cons in Hp as [Hc Hp]. simpl.
  replace (c =? SLASH) with false by lia. by rewrite IH.
Qed.

Lemma names_slash p : names (SLASH :: p) = names p.
Proof. unfold names. simpl. rewrite filter_cons_False; [done|]. by intros [? _]. Qed.

Lemma path_names_app p q : names (p ++ SLASH :: q) = names p ++ names q.
Proof.
  unfold names. assert (E : split (p ++ SLASH :: q) = split p ++ split q).
  { induction p as [|c p IH]; [done|]. cbn [app split]. destruct (c =? SLASH); [by rewrite IH|]. rewrite IH.
    by destruct (split p) eqn:Ep; [destruct p as [|d p]; simpl in Ep; [done|destruct (d =? SLASH), (split p); done]|]. }
  by rewrite E, filter_app.
Qed.

Lemma trim_start_names p : names (trim_start p) = names p.
Proof.
  induction p as [|c p IH]; [done|]. simpl. bcase; [|done]. subst. by rewrite names_slash.
Qed.

Lemma trim_start_length p : (length (trim_start p) <= length p)%nat.
Proof. induction p as [|c p IH]; simpl; [done|]. bcase; simpl; lia. Qed.

Lemma trim_start_head p c q : trim_start p = c :: q -> c <> SLASH.
Proof. induction p as [|d p IH]; simpl; [done|]. bcase; [done|]. intros [= <- <-]. done. Qed.

Lemma Forall_no_slash (l : path) : Forall (fun y => (y =? SLASH) = false) l -> SLASH ∉ l.
Proof. rewrite list.Forall_forall. intros H Hin%H. done. Qed.

(** One step of the iterator gives the next name. *)
Lemma next_component_spec fuel r : (length r < fuel)%nat ->
  match names r with
  | [] => exists r', next_component fuel r = Return (None, r')
  | c :: cs => exists r', next_component fuel r = Return (Some c, r') /\ names r' = cs /\ (length r' < length r)%nat
  end.
Proof.
  revert r. induction fuel as [|fuel IH]; intros r Hf; [lia|]. cbn [next_component]. rewrite <- trim_start_names.
  pose proof (trim_start_length r) as Hl. pose proof (trim_start_head r) as Hh.
  set (s := trim_start r) in *. clearbody s. destruct s as [|d s]; [by eexists|].
  destruct (position _ (d :: s)) as [i|] eqn:Ep.
  - apply position_Some in Ep as (l1 & x & l2 & E & <- & Hx & Hn). breflect. subst x. apply Forall_no_slash in Hn.
    destruct l1 as [|d' l1]; [exfalso; injection E as -> ->; by apply (Hh SLASH l2)|]. rewrite E in *.
    rewrite take_app_length, drop_app_length. rewrite length_app in Hl. simpl in Hl.
    assert (Hsp : names ((d' :: l1) ++ SLASH :: l2) = filter is_name [d' :: l1] ++ names l2).
    { unfold names. rewrite split_app by done. by rewrite filter_cons, filter_cons; destruct (decide _). }
    rewrite Hsp. case_decide as Hd.
    + rewrite Hd, filter_cons_False by (by intros [_ ?]). simpl.
      specialize (IH (SLASH :: l2)). rewrite names_slash in IH. simpl in IH. destruct (names l2) as [|c cs].
      * apply IH. lia.
      * destruct IH as (r' & -> & Hr & Hlen); [lia|]. exists r'. split; [done|]. split; [done|lia].
    + rewrite filter_cons_True by done. simpl. exists (SLASH :: l2). rewrite names_slash. simpl. split; [done|]. split; [done|lia].
  - apply position_None, Forall_no_slash in Ep. unfold names. rewrite split_one by done. case_decide as Hd.
    + rewrite Hd, filter_cons_False by (by intros [_ ?]). simpl. rewrite Hd in Hl. simpl in Hl.
      destruct fuel; [lia|]. by eexists.
    + rewrite filter_cons_True by done. simpl. exists []. split; [done|]. split; [done|]. simpl in *. lia.
Qed.

(** The iterator over the components is splitting at slashes and dropping the empty parts and the dots. *)
Lemma components_names p : components p = Return (names p).
Proof.
  unfold components. assert (H : forall fuel r, (length r < fuel)%nat -> collect fuel r = Return (names r)); [|apply H; lia].
  induction fuel as [|fuel IH]; intros r Hf; [lia|]. cbn [collect].
  pose proof (next_component_spec (2 + length r) r ltac:(lia)) as Hn. destruct (names r) as [|c cs].
  - destruct Hn as [r' ->]. done.
  - destruct Hn as (r' & -> & Hr & Hl). ostep. rewrite IH by lia. ostep. by rewrite Hr.
Qed.

(** ** Normal paths *)

Lemma names_one c : name_ok c -> names c = [c].
Proof. intros [Hn Hs]. unfold names. by rewrite split_one, filter_cons_True. Qed.

Lemma names_intercalate cs : Forall name_ok cs -> names (intercalate cs) = cs.
Proof.
  induction 1 as [|c cs Hc Hcs IH]; [done|]. destruct cs as [|d cs]; [by apply names_one|].
  change (names (c ++ SLASH :: intercalate (d :: cs)) = c :: d :: cs). by rewrite path_names_app, IH, names_one.
Qed.

Lemma names_render b cs : Forall name_ok cs -> names (render b cs) = cs.
Proof. intros H. destruct b; unfold render; cbn [app]; [rewrite names_slash|]; by apply names_intercalate. Qed.

Lemma intercalate_app cs c : cs <> [] -> intercalate (cs ++ [c]) = intercalate cs ++ SLASH :: c.
Proof.
  induction cs as [|d cs IH]; [done|]. intros _. destruct cs as [|d' cs]; [done|].
  change (d ++ SLASH :: intercalate ((d' :: cs) ++ [c]) = (d ++ SLASH :: intercalate (d' :: cs)) ++ SLASH :: c).
  by rewrite IH, <- app_assoc.
Qed.

Lemma intercalate_length cs : cs <> [] -> length (intercalate cs) = (sum_list (length <$> cs) + length cs - 1)%nat.
Proof.
  induction cs as [|d cs IH]; [done|]. intros _. destruct cs as [|d' cs]; [simpl; lia|].
  change (length (d ++ SLASH :: intercalate (d' :: cs)) = (length d + sum_list (length <$> d' :: cs) + S (length (d' :: cs)) - 1)%nat).
  rewrite length_app. cbn [length]. rewrite IH by done. simpl. lia.
Qed.

Lemma render_absolute b cs : Forall name_ok cs -> is_absolute (render b cs) = b.
Proof.
  intros H. destruct b; [done|]. unfold render. simpl. destruct H as [|c cs [[Hne _] Hs] Hcs]; [done|].
  destruct c as [|x c]; [done|]. apply not_elem_of_cons in Hs as [Hx _].
  destruct cs; simpl; apply Z.eqb_neq; congruence.
Qed.

Lemma parent_render b cs c : cs <> [] -> Forall name_ok (cs ++ [c]) ->
  parent (render b (cs ++ [c])) = Return (Some (render b cs)).
Proof.
  intros Hne Hok. unfold parent. rewrite components_names, names_render by done. ostep.
  rewrite length_app. assert (Hl : (length cs <> 0)%nat) by (by destruct cs). cbn [length].
  replace (length cs + 1 <=? 1)%nat with false by (symmetry; apply Nat.leb_gt; lia).
  rewrite take_app_le, firstn_all2 by lia. rewrite render_absolute by done. rewrite <- intercalate_length by done.
  assert (E : render b (cs ++ [c]) = render b cs ++ SLASH :: c).
  { unfold render. rewrite intercalate_app by done. by rewrite app_assoc. }
  assert (Hlen : (if b then length (intercalate cs) + 1 else length (intercalate cs))%nat = length (render b cs)).
  { unfold render. rewrite length_app. destruct b; simpl; lia. }
  rewrite Hlen, E. unfold slice_to, is_char_boundary. rewrite lookup_app_r, Nat.sub_diag by done. cbn [lookup list_lookup].
  rewrite orb_true_r. ostep. by rewrite take_app_length.
Qed.

Lemma ends_with_app p c : ends_with_slash (p ++ [c]) = (c =? SLASH).
Proof. unfold ends_with_slash. by rewrite reverse_snoc. Qed.

Lemma ends_with_name p c : name_ok c -> ends_with_slash (p ++ c) = false.
Proof.
  intros [[Hne _] Hs]. destruct c as [|x c _] using rev_ind; [done|]. rewrite app_assoc, ends_with_app.
  apply Z.eqb_neq. intros ->. apply Hs, elem_of_app. right. by apply list_elem_of_singleton.
Qed.

Lemma intercalate_last cs c : exists p, intercalate (cs ++ [c]) = p ++ c.
Proof.
  destruct (decide (cs = [])) as [->|Hne]; [by exists []|]. rewrite intercalate_app by done.
  exists (intercalate cs ++ [SLASH]). by rewrite <- app_assoc.
Qed.

Lemma push_render b cs c : Forall name_ok (cs ++ [c]) -> push (render b cs) c = render b (cs ++ [c]).
Proof.
  intros [Hcs Hc]%Forall_app. inversion Hc as [|? ? Hname _]; subst. unfold push.
  change c with (render false [c]) at 1. rewrite render_absolute by done.
  destruct cs as [|d cs _] using rev_ind; [by destruct b|].
  destruct (intercalate_last cs d) as [p Hp]. apply Forall_app in Hcs as [_ Hd]. inversion Hd as [|? ? Hdn _]; subst.
  assert (Hends : ends_with_slash (render b (cs ++ [d])) = false).
  { unfold render. rewrite Hp, app_assoc. by apply ends_with_name. }
  assert (Hnil : render b (cs ++ [d]) <> []).
  { unfold render. rewrite Hp. intros [_ [_ Hd0]%app_eq_nil]%app_eq_nil. by destruct Hdn as [[? _] _]. }
  rewrite Hends, bool_decide_false by done. cbn [negb andb]. unfold render.
  rewrite (intercalate_app (cs ++ [d])) by (by destruct cs). by rewrite <- !app_assoc.
Qed.

Lemma names_push p q : names (push p q) = if is_absolute q then names q else names p ++ names q.
Proof.
  unfold push. destruct (is_absolute q); [done|]. destruct p as [|c p _] using rev_ind; [done|].
  rewrite bool_decide_false by (by destruct p). rewrite ends_with_app. simpl. destruct (c =? SLASH) eqn:E; breflect; simpl.
  - subst. rewrite <- app_assoc. simpl. rewrite !path_names_app. by rewrite app_nil_r.
  - rewrite <- app_assoc. simpl. by rewrite path_names_app.
Qed.

Lemma strip_join p q : p <> [] -> ends_with_slash p = false -> is_absolute q = false -> strip_prefix (join p q) p = Some q.
Proof.
  intros Hne He Hq. assert (E : join p q = p ++ SLASH :: q).
  { unfold join. replace (push [] p) with p by (unfold push; by destruct (is_absolute p)).
    unfold push. rewrite Hq, He, bool_decide_false by done. simpl. by rewrite <- app_assoc. }
  rewrite E. unfold strip_prefix. rewrite decide_True by (by exists (SLASH :: q)).
  rewrite length_app. simpl. replace (length p =? length p + S (length q))%nat with false by (symmetry; apply Nat.eqb_neq; lia).
  rewrite lookup_app_r, Nat.sub_diag by done. simpl. by rewrite He, drop_app_length.
Qed.


(** ** Defects *)

(** Of a path that is not in normal form the parent is a wrong prefix: for //a/b it is //. *)
Lemma parent_of_double_slash : parent [SLASH; SLASH; 97; SLASH; 98] = Return (Some [SLASH; SLASH]).
Proof. reflexivity. Qed.

(** And it may end inside a character, which panics: here the first name is a letter of two bytes. *)
Lemma parent_panics : parent [SLASH; SLASH; 195; 169; SLASH; 98] = Panic.
Proof. reflexivity. Qed.

(** The root is not a prefix of the paths below it. *)
Lemma root_not_stripped : strip_prefix [SLASH; 97] [SLASH] = None.
Proof. reflexivity. Qed.

