(* ===== verification/Signals.v ===== *)
(** * Signals

    Models src/process/thread_group/signal.rs (signal sets, dispositions, alternate stacks), the calls of
    signal/sigprocmask.rs, sigaction.rs, sigaltstack.rs and kill.rs, the delivery of a signal to a thread
    group in src/process/thread_group.rs, the pending signals of a task in src/process/mod.rs, what the
    dispatcher of src/sched/uspc_ret.rs does with them, and the frames of src/arch/arm64/proc/signal.rs as
    far as the alternate stack goes.

    A signal set is its 64 bits.  The dispositions of a process are shared by [Arc] between processes
    cloned with CLONE_SIGHAND, so they live in a store.  The threads of a group are listed by their ids
    in ascending order; those that have gone away are not listed.  What copies from user memory give is
    an argument, a null pointer [None].  Waking a thread is part of the result; the readers of
    signalfd that are notified as well are left out, and so is tracing. *)
From stdpp Require Import base list gmap.
From S2P Require Import Prelude Error Address Region Attr TaskState.
Local Open Scope Z_scope.

(** ** Signals and signal sets *)

Inductive SigId : Type :=
| SIGHUP | SIGINT | SIGQUIT | SIGILL | SIGTRAP | SIGABRT | SIGBUS | SIGFPE | SIGKILL | SIGUSR1 | SIGSEGV
| SIGUSR2 | SIGPIPE | SIGALRM | SIGTERM | SIGSTKFLT | SIGCHLD | SIGCONT | SIGSTOP | SIGTSTP | SIGTTIN
| SIGTTOU | SIGURG | SIGXCPU | SIGXFSZ | SIGVTALRM | SIGPROF | SIGWINCH | SIGIO | SIGPWR | SIGUNUSED.

#[export] Instance SigId_eq_dec : EqDecision SigId.
Proof. solve_decision. Defined.

(** The signals in the order of their numbers, which is the order of the flags of SigSet. *)
Notation all_signals :=
  [SIGHUP; SIGINT; SIGQUIT; SIGILL; SIGTRAP; SIGABRT; SIGBUS; SIGFPE; SIGKILL; SIGUSR1; SIGSEGV; SIGUSR2; SIGPIPE;
   SIGALRM; SIGTERM; SIGSTKFLT; SIGCHLD; SIGCONT; SIGSTOP; SIGTSTP; SIGTTIN; SIGTTOU; SIGURG; SIGXCPU; SIGXFSZ;
   SIGVTALRM; SIGPROF; SIGWINCH; SIGIO; SIGPWR; SIGUNUSED].

(** [sig as u32] *)
Definition sig_num (s : SigId) : Z :=
  match s with
  | SIGHUP => 0 | SIGINT => 1 | SIGQUIT => 2 | SIGILL => 3 | SIGTRAP => 4 | SIGABRT => 5 | SIGBUS => 6 | SIGFPE => 7
  | SIGKILL => 8 | SIGUSR1 => 9 | SIGSEGV => 10 | SIGUSR2 => 11 | SIGPIPE => 12 | SIGALRM => 13 | SIGTERM => 14
  | SIGSTKFLT => 15 | SIGCHLD => 16 | SIGCONT => 17 | SIGSTOP => 18 | SIGTSTP => 19 | SIGTTIN => 20 | SIGTTOU => 21
  | SIGURG => 22 | SIGXCPU => 23 | SIGXFSZ => 24 | SIGVTALRM => 25 | SIGPROF => 26 | SIGWINCH => 27 | SIGIO => 28
  | SIGPWR => 29 | SIGUNUSED => 30
  end.

(** [SigSet::from(sig)] *)
Definition sig_bit (s : SigId) : Z := 2 ^ sig_num s.

Notation UNMASKABLE_SIGNALS := (262400).

Definition set_signal (set : Z) (signal : SigId) : Z := Z.lor set (sig_bit signal).

(** The iterator over a set gives its flags in the order of their declaration and then what is left
    of the bits; turning bits that are no signal into a SigId panics. *)
Definition peek_signal (set mask : Z) : outcome (option SigId) :=
  let d := Z.ldiff set mask in
  match list_find (fun s => Z.testbit d (sig_num s) = true) all_signals with
  | Some (_, s) => Return (Some s)
  | None => if d =? 0 then Return None else Panic
  end.

Definition take_signal (set mask : Z) : outcome (option SigId * Z) :=
  let! signal := peek_signal set mask in
  match signal with
  | Some signal => Return (Some signal, Z.ldiff set (sig_bit signal))
  | None => Return (None, set)
  end.

(** [SigId::try_from(UserSigId)] *)
Definition user_sig_id (v : Z) : result SigId :=
  let v := as_u32 v in
  if (v <? 1) || (v >? 31) then Err InvalidValue
  else ok_or (all_signals !! Z.to_nat (v - 1)) InvalidValue.

(** ** Dispositions *)

Record UserspaceSigAction := mkUAction { ua_action : Z; ua_restorer : option Z; ua_flags : Z; ua_mask : Z }.

Inductive SigActionState : Type :=
| Ignore
| Default
| Action (a : UserspaceSigAction).

Inductive KSignalAction : Type :=
| Term | Core | Stop | Continue
| Userspace (s : SigId) (a : UserspaceSigAction).

Definition default_action (signal : SigId) : option KSignalAction :=
  match signal with
  | SIGABRT => Some Core | SIGALRM => Some Term | SIGBUS => Some Core | SIGCHLD => None | SIGCONT => Some Continue
  | SIGFPE => Some Core | SIGHUP => Some Term | SIGILL => Some Core | SIGINT => Some Term | SIGIO => Some Term
  | SIGKILL => Some Term | SIGPIPE => Some Term | SIGPROF => Some Term | SIGPWR => Some Term | SIGQUIT => Some Core
  | SIGSEGV => Some Core | SIGSTKFLT => Some Term | SIGSTOP => Some Stop | SIGTSTP => Some Stop | SIGTERM => Some Term
  | SIGTRAP => Some Core | SIGTTIN => Some Stop | SIGTTOU => Some Stop | SIGUNUSED => Some Core | SIGURG => None
  | SIGUSR1 => Some Term | SIGUSR2 => Some Term | SIGVTALRM => Some Term | SIGXCPU => Some Core | SIGXFSZ => Some Core
  | SIGWINCH => None
  end.

Record AltSigStack := mkAlt { as_range : MemoryRegion; as_ptr : Z }.

(** The array of dispositions is a function of the signal. *)
Record SignalActionState := mkSigState { action : SigId -> SigActionState; alt_stack : option AltSigStack }.

Definition sigstate_new_default : SignalActionState := mkSigState (fun _ => Default) None.

Definition action_signal (st : SignalActionState) (id : SigId) : option KSignalAction :=
  match action st id with
  | Ignore => None
  | Default => default_action id
  | Action a => Some (Userspace id a)
  end.

(** The structure that user space passes to rt_sigaction. *)
Record UserSigAction := mkUserAct { sa_sigaction : Z; sa_flags : Z; sa_restorer : Z; sa_mask : Z }.

Notation SIG_DFL := (0).
Notation SIG_IGN := (1).
Notation SA_RESTORER := (67108864).
Notation SA_ONSTACK := (134217728).

Definition action_of_user (v : UserSigAction) : SigActionState :=
  if sa_sigaction v =? SIG_DFL then Default
  else if sa_sigaction v =? SIG_IGN then Ignore
  else Action (mkUAction (sa_sigaction v)
                 (if bits_contain (sa_flags v) SA_RESTORER then Some (sa_restorer v) else None) (sa_flags v) (sa_mask v)).

Definition user_of_action (st : SigActionState) : UserSigAction :=
  match st with
  | Default => mkUserAct SIG_DFL 0 0 0
  | Ignore => mkUserAct SIG_IGN 0 0 0
  | Action ua => mkUserAct (ua_action ua) (ua_flags ua) (default 0 (ua_restorer ua)) (ua_mask ua)
  end.

(** ** Threads and thread groups *)

Record Thread := mkThread { sig_mask : Z; t_pending : Z; t_state : TaskState }.

Record ThreadGroup := mkGroup {
  tg_pgid : Z;
  tg_pending : Z;
  tg_signals : Z;
  tg_tasks : list (Z * Thread)
}.

Definition with_pending (tg : ThreadGroup) (p : Z) : ThreadGroup := mkGroup (tg_pgid tg) p (tg_signals tg) (tg_tasks tg).

Definition queue_signal (tg : ThreadGroup) (signal : SigId) : ThreadGroup :=
  with_pending tg (set_signal (tg_pending tg) signal).

(** States from which the dispatcher comes to look at the signals. *)
Definition may_action (s : TaskState) : bool :=
  match s with Runnable | Running | Woken | PendingSleep | PendingStop => true | _ => false end.

(** The group afterwards and the threads that are woken. *)
Definition deliver_signal (tg : ThreadGroup) (signal : SigId) : ThreadGroup * list Z :=
  match signal with
  | SIGKILL => (with_pending tg (sig_bit SIGKILL), (tg_tasks tg).*1)
  | _ =>
      let tg := queue_signal tg signal in
      if existsb (fun p => may_action (t_state p.2)) (tg_tasks tg) then (tg, [])
      else match tg_tasks tg with
      | (tid, _) :: _ => (tg, [tid])
      | [] => (tg, [])
      end
  end.

(** [Task::take_signal]: first the signals of the thread, then those of the group. *)
Definition task_take_signal (tg : ThreadGroup) (t : Thread) : outcome (option SigId * (ThreadGroup * Thread)) :=
  let! (s, p) := take_signal (t_pending t) (sig_mask t) in
  match s with
  | Some s => Return (Some s, (tg, mkThread (sig_mask t) p (t_state t)))
  | None =>
      let! (s, p) := take_signal (tg_pending tg) (sig_mask t) in
      Return (s, (with_pending tg p, t))
  end.

(** The loop of the dispatcher: take signals until one has an action. *)
Fixpoint signal_loop (fuel : nat) (st : SignalActionState) (tg : ThreadGroup) (t : Thread)
    : outcome (option (SigId * KSignalAction) * (ThreadGroup * Thread)) :=
  match fuel with
  | O => OutOfFuel
  | S fuel =>
      let! (s, (tg, t)) := task_take_signal tg t in
      match s with
      | None => Return (None, (tg, t))
      | Some signal =>
          match action_signal st signal with
          | None => signal_loop fuel st tg t
          | Some a => Return (Some (signal, a), (tg, t))
          end
      end
  end.

(** Every round takes one of the 31 signals of the thread or of the group. *)
Notation loop_fuel := (63%nat).

(** ** The system calls *)

Notation SIG_BLOCK := (0).
Notation SIG_UNBLOCK := (1).
Notation SIG_SETMASK := (2).
Notation SIGSET_SIZE := (8).

Definition sys_rt_sigprocmask (t : Thread) (how : Z) (set : option (result Z)) (oldset : option (result unit))
    (sigset_size : Z) : result Z * Thread :=
  if negb (sigset_size =? SIGSET_SIZE) then (Err InvalidValue, t)
  else
    let finish t := (match oldset with Some (Err e) => Err e | _ => Ok 0 end, t) in
    match set with
    | Some (Err e) => (Err e, t)
    | None => finish t
    | Some (Ok set) =>
        let old_sigmask := sig_mask t in
        let new_sigmask :=
          if how =? SIG_BLOCK then Ok (Z.lor old_sigmask set)
          else if how =? SIG_UNBLOCK then Ok (Z.ldiff old_sigmask set)
          else if how =? SIG_SETMASK then Ok set
          else Err InvalidValue in
        match new_sigmask with
        | Err e => (Err e, t)
        | Ok m => finish (mkThread (Z.ldiff m UNMASKABLE_SIGNALS) (t_pending t) (t_state t))
        end
    end.

Definition sys_rt_sigaction (st : SignalActionState) (sig : Z) (act : option (result UserSigAction))
    (oact : option (result unit)) (sigsetsize : Z) : result Z * SignalActionState :=
  if negb (sigsetsize =? SIGSET_SIZE) then (Err InvalidValue, st)
  else
    match user_sig_id sig with
    | Err e => (Err e, st)
    | Ok sig =>
        if bool_decide (sig = SIGKILL) || bool_decide (sig = SIGSTOP) then (Err InvalidValue, st)
        else
          match act with
          | Some (Err e) => (Err e, st)
          | _ =>
              let st' :=
                match act with
                | Some (Ok new_action) =>
                    mkSigState (fun s => if decide (s = sig) then action_of_user new_action else action st s) (alt_stack st)
                | _ => st
                end in
              (match oact with Some (Err e) => Err e | _ => Ok 0 end, st')
          end
    end.

(** ** The alternate stack *)

Definition in_use (a : AltSigStack) : bool := negb (as_ptr a =? end_address (as_range a)).

(** [size] and [align] are the layout of the frame. *)
Definition alloc_alt_stack (a : AltSigStack) (size aln : Z) : outcome (option (Z * Z) * AltSigStack) :=
  let old_ptr := as_ptr a in
  let! new_ptr := align (usub (as_ptr a) size) aln in
  if negb (contains_address (as_range a) new_ptr) then Return (None, a)
  else Return (Some (old_ptr, new_ptr), mkAlt (as_range a) new_ptr).

Definition restore_alt_stack (a : AltSigStack) (old_ptr : Z) : AltSigStack := mkAlt (as_range a) old_ptr.

Record UserSigAltStack := mkUserAlt { ss_sp : Z; ss_flags : Z; ss_size : Z }.

Notation SS_ONSTACK := (1).
Notation SS_DISABLE := (2).
Notation MIN_STACK_SZ := (128).

Definition alt_of_user (v : UserSigAltStack) : option AltSigStack :=
  if bits_contain (ss_flags v) SS_DISABLE then None
  else let range := mkRegion (ss_sp v) (ss_size v) in Some (mkAlt range (end_address range)).

Definition user_of_alt (v : option AltSigStack) : UserSigAltStack :=
  match v with
  | Some v => mkUserAlt (start_address (as_range v)) (if in_use v then SS_ONSTACK else 0) (rsize (as_range v))
  | None => mkUserAlt 0 SS_DISABLE 0
  end.

Definition sys_sigaltstack (st : SignalActionState) (ss : option (result UserSigAltStack)) (old_ss : option (result unit))
    : result Z * SignalActionState :=
  let finish st := (match old_ss with Some (Err e) => Err e | _ => Ok 0 end, st) in
  match ss with
  | Some (Err e) => (Err e, st)
  | None => finish st
  | Some (Ok ss) =>
      if negb (bits_contain (ss_flags ss) SS_DISABLE) && (ss_size ss <? MIN_STACK_SZ) then (Err NoMemory, st)
      else
        let new_ss := alt_of_user ss in
        if bool_decide (new_ss = None) && match alt_stack st with Some old_ss => in_use old_ss | None => false end
        then (Err NotPermitted, st)
        else finish (mkSigState (action st) new_ss)
  end.

(** ** Signal frames *)

(** The registers of the interrupted program, without the vector registers. *)
Record ExceptionState := mkRegs { x : list Z; elr_el1 : Z; spsr_el1 : Z; sp_el0 : Z; tpid_el0 : Z }.

Record RtSigFrame := mkFrame { uctx : ExceptionState; alt_stack_prev_addr : Z }.

Section frames.
Context (vdso_base frame_size frame_align : Z).

(** The registers to continue with and the frame that is put at the new stack pointer; [copy] is the
    result of copying it there. *)
Definition do_signal (st : SignalActionState) (user : ExceptionState) (id : SigId) (sa : UserspaceSigAction) (copy : result unit)
    : outcome (result (ExceptionState * RtSigFrame) * SignalActionState) :=
  let restorer := default vdso_base (ua_restorer sa) in
  let on_user_stack :=
    let! addr := align (usub (sp_el0 user) frame_size) PAGE_SIZE in Return (addr, 0, st) in
  let! (addr, prev, st') :=
    match alt_stack st with
    | Some alt =>
        if bits_contain (ua_flags sa) SA_ONSTACK then
          let! (alloc, alt') := alloc_alt_stack alt frame_size frame_align in
          match alloc with
          | Some (old_ptr, data_ptr) => Return (data_ptr, old_ptr, mkSigState (action st) (Some alt'))
          | None => on_user_stack
          end
        else on_user_stack
    | None => on_user_stack
    end in
  match copy with
  | Err e => Return (Err e, st')
  | Ok _ =>
      Return (Ok (mkRegs (<[0%nat := sig_num id + 1]> (<[30%nat := restorer]> (x user))) (ua_action sa) (spsr_el1 user) addr (tpid_el0 user),
                  mkFrame user prev), st')
  end.

(** [frame] is what the copy of the frame from the user stack gives. *)
Definition do_signal_return (st : SignalActionState) (frame : result RtSigFrame)
    : outcome (result ExceptionState * SignalActionState) :=
  match frame with
  | Err e => Return (Err e, st)
  | Ok f =>
      if alt_stack_prev_addr f =? 0 then Return (Ok (uctx f), st)
      else
        let! alt := unwrap (alt_stack st) in
        Return (Ok (uctx f), mkSigState (action st) (Some (restore_alt_stack alt (alt_stack_prev_addr f))))
  end.
End frames.

(** ** The system *)

Record SigWorld := mkSigWorld {
  groups : gmap Z ThreadGroup;
  sigstates : gmap Z SignalActionState
}.

(** Deliver to every group of a process group. *)
Definition signal_group (w : SigWorld) (pgid : Z) (signal : SigId) : SigWorld :=
  mkSigWorld ((fun tg => if tg_pgid tg =? pgid then (deliver_signal tg signal).1 else tg) <$> groups w) (sigstates w).

Definition deliver_to (w : SigWorld) (tgid : Z) (signal : SigId) : result Z * SigWorld :=
  match groups w !! tgid with
  | None => (Err NoProcess, w)
  | Some tg => (Ok 0, mkSigWorld (<[tgid := (deliver_signal tg signal).1]> (groups w)) (sigstates w))
  end.

(** [me] is the group of the caller; a group is listed as long as it has a thread. *)
Definition sys_kill (w : SigWorld) (me pid usig : Z) : result Z * SigWorld :=
  match user_sig_id usig with
  | Err e => (Err e, w)
  | Ok signal =>
      if pid =? me then deliver_to w me signal
      else if pid >? 0 then deliver_to w pid signal
      else if pid =? 0 then
        match groups w !! me with
        | Some tg => (Ok 0, signal_group w (tg_pgid tg) signal)
        | None => (Err NoProcess, w)
        end
      else if pid =? -1 then (Err NotSupported, w)
      else (Ok 0, signal_group w (as_u32 (- pid)) signal)
  end.

(** The signal is queued for the whole group of the caller, and no thread is woken. *)
Definition sys_tkill (tg : ThreadGroup) (my_tid tid usig : Z) : result Z * ThreadGroup :=
  match user_sig_id usig with
  | Err e => (Err e, tg)
  | Ok signal =>
      if (my_tid =? tid) || existsb (fun p => p.1 =? tid) (tg_tasks tg) then (Ok 0, queue_signal tg signal)
      else (Err NoProcess, tg)
  end.

Definition with_thread (tg : ThreadGroup) (k : nat) (tid : Z) (t : Thread) : ThreadGroup :=
  mkGroup (tg_pgid tg) (tg_pending tg) (tg_signals tg) (<[k := (tid, t)]> (tg_tasks tg)).

Definition set_group (w : SigWorld) (g : Z) (tg : ThreadGroup) : SigWorld := mkSigWorld (<[g := tg]> (groups w)) (sigstates w).
Definition set_sigstate (w : SigWorld) (a : Z) (st : SignalActionState) : SigWorld :=
  mkSigWorld (groups w) (<[a := st]> (sigstates w)).

(** [ThreadGroup::new_child] as far as signals go: the dispositions are shared or copied. *)
Definition new_child (w : SigWorld) (parent : ThreadGroup) (share : bool) (tgid fresh : Z) (t : Thread) : SigWorld :=
  let child a := mkGroup (tg_pgid parent) 0 a [(tgid, t)] in
  if share then set_group w tgid (child (tg_signals parent))
  else
    match sigstates w !! tg_signals parent with
    | Some st => set_sigstate (set_group w tgid (child fresh)) fresh st
    | None => w
    end.

Inductive sig_step : SigWorld -> SigWorld -> Prop :=
| ss_mask w g tg k tid t how set oldset size r t' :
    groups w !! g = Some tg -> tg_tasks tg !! k = Some (tid, t) ->
    sys_rt_sigprocmask t how set oldset size = (r, t') ->
    sig_step w (set_group w g (with_thread tg k tid t'))
| ss_poll w g tg k tid t m :
    groups w !! g = Some tg -> tg_tasks tg !! k = Some (tid, t) ->
    sig_step w (set_group w g (with_thread tg k tid (mkThread (Z.ldiff m UNMASKABLE_SIGNALS) (t_pending t) (t_state t))))
| ss_action w a st sig act oact size r st' :
    sigstates w !! a = Some st -> sys_rt_sigaction st sig act oact size = (r, st') -> sig_step w (set_sigstate w a st')
| ss_altstack w a st ss old_ss r st' :
    sigstates w !! a = Some st -> sys_sigaltstack st ss old_ss = (r, st') -> sig_step w (set_sigstate w a st')
| ss_kill w me pid usig r w' : sys_kill w me pid usig = (r, w') -> sig_step w w'
| ss_tkill w g tg my_tid tid usig r tg' :
    groups w !! g = Some tg -> sys_tkill tg my_tid tid usig = (r, tg') -> sig_step w (set_group w g tg')
| ss_raise w g tg k tid t s :
    groups w !! g = Some tg -> tg_tasks tg !! k = Some (tid, t) ->
    sig_step w (set_group w g (with_thread tg k tid (mkThread (sig_mask t) (set_signal (t_pending t) s) (t_state t))))
| ss_dispatch w g tg k tid t st r tg' t' :
    groups w !! g = Some tg -> tg_tasks tg !! k = Some (tid, t) -> sigstates w !! tg_signals tg = Some st ->
    signal_loop loop_fuel st tg t = Return (r, (tg', t')) ->
    sig_step w (set_group w g (with_thread tg' k tid t'))
| ss_frame w a st vdso size aln user id sa copy r st' :
    sigstates w !! a = Some st -> do_signal vdso size aln st user id sa copy = Return (r, st') ->
    sig_step w (set_sigstate w a st')
| ss_return w a st frame r st' :
    sigstates w !! a = Some st -> do_signal_return st frame = Return (r, st') -> sig_step w (set_sigstate w a st')
| ss_fork w g tg k tid t share tgid fresh traced :
    groups w !! g = Some tg -> tg_tasks tg !! k = Some (tid, t) -> groups w !! tgid = None -> sigstates w !! fresh = None ->
    sig_step w (new_child w tg share tgid fresh (mkThread (sig_mask t) (if traced : bool then sig_bit SIGSTOP else 0) Runnable))
| ss_thread w g tg k tid t new traced :
    groups w !! g = Some tg -> tg_tasks tg !! k = Some (tid, t) ->
    sig_step w (set_group w g (mkGroup (tg_pgid tg) (tg_pending tg) (tg_signals tg)
      (tg_tasks tg ++ [(new, mkThread (sig_mask t) (if traced : bool then sig_bit SIGSTOP else 0) Runnable)])))
| ss_exec w a st : sigstates w !! a = Some st -> sig_step w (set_sigstate w a sigstate_new_default)
| ss_state w g tg k tid t s :
    groups w !! g = Some tg -> tg_tasks tg !! k = Some (tid, t) ->
    sig_step w (set_group w g (with_thread tg k tid (mkThread (sig_mask t) (t_pending t) s)))
| ss_setpgid w g tg pgid :
    groups w !! g = Some tg -> sig_step w (set_group w g (mkGroup pgid (tg_pending tg) (tg_signals tg) (tg_tasks tg)))
| ss_thread_exit w g tg k :
    groups w !! g = Some tg ->
    sig_step w (set_group w g (mkGroup (tg_pgid tg) (tg_pending tg) (tg_signals tg) (delete k (tg_tasks tg))))
| ss_group_exit w g : sig_step w (mkSigWorld (delete g (groups w)) (sigstates w)).

(** The first process has one thread, the default dispositions and nothing masked. *)
Definition sig_boot : SigWorld :=
  mkSigWorld {[1 := mkGroup 1 0 0 [(1, mkThread 0 0 Runnable)]]} {[0 := sigstate_new_default]}.

Definition sig_reachable : SigWorld -> Prop := rtc sig_step sig_boot.

(** ** Signal sets *)

(** Sets of signals have no other bits. *)
Definition sigset_ok (p : Z) : Prop := 0 <= p < 2 ^ 31.

Lemma sig_num_bounds s : 0 <= sig_num s < 31.
Proof. destruct s; simpl; lia. Qed.

Lemma sig_lookup s : all_signals !! Z.to_nat (sig_num s) = Some s.
Proof. by destruct s. Qed.

Lemma sig_num_lookup i s : all_signals !! i = Some s -> sig_num s = Z.of_nat i.
Proof.
  intros H. pose proof (lookup_lt_Some _ _ _ H) as Hi. simpl in Hi.
  do 31 (destruct i as [|i]; [by injection H as <-|]). lia.
Qed.

Lemma sig_num_inj s s' : sig_num s = sig_num s' -> s = s'.
Proof. intros H. pose proof (sig_lookup s) as E. rewrite H, sig_lookup in E. congruence. Qed.

Lemma sig_bit_testbit s s' : Z.testbit (sig_bit s) (sig_num s') = bool_decide (s = s').
Proof.
  unfold sig_bit. pose proof (sig_num_bounds s). rewrite Z.pow2_bits_eqb by lia.
  case_bool_decide as H'; [subst; apply Z.eqb_refl|]. apply Z.eqb_neq. intros E. by apply H', sig_num_inj.
Qed.

Lemma set_signal_testbit p s s' : Z.testbit (set_signal p s) (sig_num s') = Z.testbit p (sig_num s') || bool_decide (s = s').
Proof. unfold set_signal. by rewrite Z.lor_spec, sig_bit_testbit. Qed.

Lemma sigset_ok_high p i : sigset_ok p -> 31 <= i -> Z.testbit p i = false.
Proof.
  intros [H0 H1] Hi. destruct (decide (p = 0)) as [->|]; [apply Z.bits_0|]. apply Z.bits_above_log2; [done|].
  assert (Z.log2 p < 31) by (apply Z.log2_lt_pow2; lia). lia.
Qed.

Lemma sigset_ok_bits p : 0 <= p -> (forall i, 31 <= i -> Z.testbit p i = false) -> sigset_ok p.
Proof.
  intros H0 Hb. split; [done|]. destruct (decide (p = 0)) as [->|Hne]; [done|]. apply Z.log2_lt_pow2; [lia|].
  destruct (decide (31 <= Z.log2 p)) as [Hl|]; [|lia]. pose proof (Z.bit_log2 p ltac:(lia)). rewrite Hb in *; done.
Qed.

Lemma sigset_ok_0 : sigset_ok 0.
Proof. done. Qed.

Lemma sig_bit_ok s : sigset_ok (sig_bit s).
Proof.
  pose proof (sig_num_bounds s). unfold sig_bit. split; [apply Z.pow_nonneg; lia|apply Z.pow_lt_mono_r; lia].
Qed.

Lemma set_signal_ok p s : sigset_ok p -> sigset_ok (set_signal p s).
Proof.
  intros Hp. pose proof (sig_bit_ok s) as Hs. apply sigset_ok_bits.
  - apply Z.lor_nonneg. split; [apply Hp|apply Hs].
  - intros i Hi. unfold set_signal. by rewrite Z.lor_spec, !sigset_ok_high.
Qed.

Lemma ldiff_ok p q : sigset_ok p -> sigset_ok (Z.ldiff p q).
Proof.
  intros Hp. apply sigset_ok_bits; [apply Z.ldiff_nonneg; left; apply Hp|]. intros i Hi.
  by rewrite Z.ldiff_spec, sigset_ok_high.
Qed.

(** The signal that is found is the first one that is pending and not masked. *)
Lemma peek_signal_spec p mask : sigset_ok p -> exists o, peek_signal p mask = Return o /\
  match o with
  | Some s => Z.testbit p (sig_num s) = true /\ Z.testbit mask (sig_num s) = false /\
      forall s', sig_num s' < sig_num s -> Z.testbit p (sig_num s') = true -> Z.testbit mask (sig_num s') = true
  | None => forall s, Z.testbit p (sig_num s) = true -> Z.testbit mask (sig_num s) = true
  end.
Proof.
  intros Hp. unfold peek_signal. destruct (list_find _ all_signals) as [[i s]|] eqn:E.
  - apply list_find_Some in E as (Hi & Hb & Hbefore). rewrite Z.ldiff_spec in Hb. apply andb_true_iff in Hb as [Hb1 Hb2].
    exists (Some s). split; [done|]. split; [done|]. split; [by apply negb_true_iff|].
    intros s' Hlt Hs'. pose proof (sig_num_lookup _ _ Hi). pose proof (sig_num_bounds s').
    destruct (Z.testbit mask (sig_num s')) eqn:Em; [done|]. exfalso.
    apply (Hbefore (Z.to_nat (sig_num s')) s' (sig_lookup s')); [lia|]. by rewrite Z.ldiff_spec, Hs', Em.
  - apply list_find_None in E. rewrite list.Forall_forall in E.
    assert (Hz : forall s, Z.testbit (Z.ldiff p mask) (sig_num s) = false).
    { intros s. apply not_true_iff_false, E, list_elem_of_lookup. by exists (Z.to_nat (sig_num s)); apply sig_lookup. }
    assert (Z.ldiff p mask = 0) as ->.
    { apply Z.bits_inj'. intros i Hi. rewrite Z.bits_0. destruct (decide (31 <= i)) as [Hh|Hh].
      - by rewrite (sigset_ok_high (Z.ldiff p mask)); [|apply ldiff_ok|].
      - assert (exists s, all_signals !! Z.to_nat i = Some s) as [s Hs] by (apply lookup_lt_is_Some; simpl; lia).
        pose proof (sig_num_lookup _ _ Hs). replace i with (sig_num s) by lia. apply Hz. }
    exists None. split; [done|]. intros s Hs. specialize (Hz s). rewrite Z.ldiff_spec, Hs in Hz. simpl in Hz.
    by apply negb_false_iff.
Qed.

(** How many signals are pending. *)
Definition cnt_bits (p : Z) : nat := length (filter (fun s => Z.testbit p (sig_num s) = true) all_signals).

Lemma cnt_bits_le p : (cnt_bits p <= 31)%nat.
Proof. unfold cnt_bits. change 31%nat with (length all_signals). apply length_filter. Qed.

Lemma filter_length_remove {A} `{EqDecision A} (P Q : A -> Prop) `{!forall x, Decision (P x)} `{!forall x, Decision (Q x)} l a :
  NoDup l -> a ∈ l -> P a -> (forall x, Q x <-> P x /\ x <> a) -> length (filter P l) = S (length (filter Q l)).
Proof.
  intros Hnd Ha Pa HQ. induction Hnd as [|y l Hy Hnd IH]; [by apply not_elem_of_nil in Ha|].
  rewrite !filter_cons. apply elem_of_cons in Ha as [<-|Ha].
  - rewrite decide_True by done. rewrite decide_False by (rewrite HQ; naive_solver). simpl. do 2 f_equal.
    assert (forall k, a ∉ k -> filter P k = filter Q k) as ->; [|done|done].
    intros k. induction k as [|z k IHk]; [done|]. intros [Hz Hk]%not_elem_of_cons. rewrite !filter_cons, IHk by done.
    destruct (decide (P z)), (decide (Q z)) as [HQz|HQz]; rewrite ?HQ in HQz; naive_solver.
  - specialize (IH Ha). destruct (decide (P y)) as [Py|Py].
    + rewrite decide_True; [simpl; lia|]. apply HQ. split; [done|]. by intros ->.
    + rewrite decide_False; [done|]. rewrite HQ. naive_solver.
Qed.

Lemma all_signals_nodup : NoDup all_signals.
Proof. apply (bool_decide_unpack _). vm_compute. done. Qed.

Lemma cnt_bits_take p s : Z.testbit p (sig_num s) = true -> cnt_bits p = S (cnt_bits (Z.ldiff p (sig_bit s))).
Proof.
  intros Hp. unfold cnt_bits. apply (filter_length_remove _ _ all_signals s all_signals_nodup); [|done|].
  - apply list_elem_of_lookup. exists (Z.to_nat (sig_num s)). apply sig_lookup.
  - intros s'. rewrite Z.ldiff_spec, sig_bit_testbit, andb_true_iff, negb_true_iff, bool_decide_eq_false. naive_solver.
Qed.

Lemma take_signal_spec p mask : sigset_ok p -> exists o p', take_signal p mask = Return (o, p') /\ sigset_ok p' /\
  match o with
  | Some s => Z.testbit p (sig_num s) = true /\ Z.testbit mask (sig_num s) = false /\ cnt_bits p = S (cnt_bits p') /\
      (forall s', sig_num s' < sig_num s -> Z.testbit p (sig_num s') = true -> Z.testbit mask (sig_num s') = true) /\
      forall s', s' <> s -> Z.testbit p' (sig_num s') = Z.testbit p (sig_num s')
  | None => p' = p /\ forall s, Z.testbit p (sig_num s) = true -> Z.testbit mask (sig_num s) = true
  end.
Proof.
  intros Hp. unfold take_signal. destruct (peek_signal_spec p mask Hp) as ([s|] & -> & H); ostep.
  - destruct H as (H1 & H2 & H3). eexists _, _. split; [reflexivity|]. split; [by apply ldiff_ok|]. repeat split; try done.
    + by apply cnt_bits_take.
    + intros s' Hne. rewrite Z.ldiff_spec, sig_bit_testbit, bool_decide_false by congruence. apply andb_true_r.
  - eexists _, _. split; [reflexivity|]. done.
Qed.

(** ** The invariant *)

Definition mask_ok (m : Z) : Prop := Z.testbit m (sig_num SIGKILL) = false /\ Z.testbit m (sig_num SIGSTOP) = false.

Definition thread_ok (t : Thread) : Prop := mask_ok (sig_mask t) /\ sigset_ok (t_pending t).

Definition sigstate_ok (st : SignalActionState) : Prop := action st SIGKILL = Default /\ action st SIGSTOP = Default.

Record group_ok (states : gmap Z SignalActionState) (tg : ThreadGroup) : Prop := {
  go_pending : sigset_ok (tg_pending tg);
  go_tasks : Forall (fun p => thread_ok p.2) (tg_tasks tg);
  go_signals : is_Some (states !! tg_signals tg)
}.

Record sig_inv (w : SigWorld) : Prop := {
  si_groups : map_Forall (fun _ tg => group_ok (sigstates w) tg) (groups w);
  si_states : map_Forall (fun _ st => sigstate_ok st) (sigstates w)
}.

Lemma mask_ok_ldiff m : mask_ok (Z.ldiff m UNMASKABLE_SIGNALS).
Proof.
  split; rewrite Z.ldiff_spec.
  - change (Z.testbit UNMASKABLE_SIGNALS (sig_num SIGKILL)) with true. apply andb_false_r.
  - change (Z.testbit UNMASKABLE_SIGNALS (sig_num SIGSTOP)) with true. apply andb_false_r.
Qed.

Lemma sigprocmask_ok t how set oldset size r t' : thread_ok t -> sys_rt_sigprocmask t how set oldset size = (r, t') -> thread_ok t'.
Proof.
  intros [Hm Hp]. unfold sys_rt_sigprocmask. destruct (negb _); [by intros [= <- <-]|].
  destruct set as [[set|e]|]; [|by intros [= <- <-]|by intros [= <- <-]].
  assert (Hok : forall m, thread_ok (mkThread (Z.ldiff m UNMASKABLE_SIGNALS) (t_pending t) (t_state t))).
  { intros m. split; [apply mask_ok_ldiff|done]. }
  destruct (how =? 0); [by intros [= <- <-]|]. destruct (how =? 1); [by intros [= <- <-]|].
  destruct (how =? 2); by intros [= <- <-].
Qed.

Lemma sigaction_ok st sig act oact size r st' : sigstate_ok st -> sys_rt_sigaction st sig act oact size = (r, st') -> sigstate_ok st'.
Proof.
  intros [H1 H2]. unfold sys_rt_sigaction. destruct (negb _); [by intros [= <- <-]|].
  destruct (user_sig_id sig) as [s|]; [|by intros [= <- <-]].
  destruct (_ || _) eqn:Es; [by intros [= <- <-]|]. apply orb_false_iff in Es as [E1%bool_decide_eq_false E2%bool_decide_eq_false].
  destruct act as [[a|e]|]; [|by intros [= <- <-]|by intros [= <- <-]]. intros [= <- <-].
  split; simpl; by rewrite decide_False by congruence.
Qed.

Lemma sigaltstack_ok st ss old_ss r st' : sigstate_ok st -> sys_sigaltstack st ss old_ss = (r, st') -> sigstate_ok st'.
Proof.
  intros Hst. unfold sys_sigaltstack. destruct ss as [[ss|e]|]; [|by intros [= <- <-]|by intros [= <- <-]].
  destruct (_ && _); [by intros [= <- <-]|]. destruct (_ && _); by intros [= <- <-].
Qed.

Lemma deliver_ok states tg s : group_ok states tg -> group_ok states (deliver_signal tg s).1.
Proof.
  intros [H1 H2 H3]. assert (Hq : group_ok states (queue_signal tg s)) by (constructor; [by apply set_signal_ok|done|done]).
  assert (Hsplit : (deliver_signal tg s).1 = with_pending tg (sig_bit SIGKILL) \/ (deliver_signal tg s).1 = queue_signal tg s).
  { unfold deliver_signal. cbv zeta.
    destruct s; auto; right; (destruct (existsb _ _); [done|]; by destruct (tg_tasks _) as [|[]]). }
  destruct Hsplit as [-> | ->]; [|done]. constructor; [apply sig_bit_ok|done|done].
Qed.

Lemma with_thread_ok states tg k tid t : group_ok states tg -> thread_ok t -> group_ok states (with_thread tg k tid t).
Proof. intros [H1 H2 H3] Ht. constructor; [done| |done]. by apply Forall_insert. Qed.

Lemma group_thread states tg k tid t : group_ok states tg -> tg_tasks tg !! k = Some (tid, t) -> thread_ok t.
Proof. intros [_ H _] Hk. exact (proj1 (Forall_lookup _ _) H k _ Hk). Qed.

(** ** The dispatcher *)

Definition pending (tg : ThreadGroup) (t : Thread) : nat := (cnt_bits (t_pending t) + cnt_bits (tg_pending tg))%nat.

Lemma task_take_spec states tg t : group_ok states tg -> thread_ok t -> exists o tg' t',
  task_take_signal tg t = Return (o, (tg', t')) /\ group_ok states tg' /\ thread_ok t' /\
  tg_tasks tg' = tg_tasks tg /\ sig_mask t' = sig_mask t /\
  match o with
  | Some s => Z.testbit (sig_mask t) (sig_num s) = false /\ pending tg t = S (pending tg' t') /\
      (s <> SIGKILL -> Z.testbit (tg_pending tg') (sig_num SIGKILL) = Z.testbit (tg_pending tg) (sig_num SIGKILL))
  | None => tg' = tg /\ t' = t /\ forall s, Z.testbit (t_pending t) (sig_num s) || Z.testbit (tg_pending tg) (sig_num s) = true ->
      Z.testbit (sig_mask t) (sig_num s) = true
  end.
Proof.
  intros [G1 G2 G3] [T1 T2]. unfold task_take_signal, pending.
  destruct (take_signal_spec (t_pending t) (sig_mask t) T2) as ([s|] & p & -> & Hp & H); ostep.
  - destruct H as (H1 & H2 & H3 & H4 & H5). eexists (Some s), _, _. split; [reflexivity|].
    split; [by constructor|]. split; [by split|]. split; [done|]. split; [done|]. split; [done|]. split; [|done].
    cbn [t_pending]. lia.
  - destruct H as [-> Hn].
    destruct (take_signal_spec (tg_pending tg) (sig_mask t) G1) as ([s|] & q & -> & Hq & H); ostep.
    + destruct H as (H1 & H2 & H3 & H4 & H5). eexists (Some s), _, _. split; [reflexivity|].
      split; [by constructor|]. split; [by split|]. split; [done|]. split; [done|]. split; [done|].
      cbn [tg_pending with_pending]. split; [lia|]. intros Hne. apply H5. congruence.
    + destruct H as [-> Hn2]. eexists None, _, _. split; [reflexivity|].
      split; [by constructor|]. split; [by split|]. split; [done|]. split; [done|]. split; [by destruct tg|].
      split; [done|]. intros s [Hs|Hs]%orb_true_iff; auto.
Qed.

Lemma signal_loop_spec states st fuel : forall tg t, (pending tg t < fuel)%nat -> group_ok states tg -> thread_ok t -> sigstate_ok st ->
  exists o tg' t', signal_loop fuel st tg t = Return (o, (tg', t')) /\ group_ok states tg' /\ thread_ok t' /\
    tg_tasks tg' = tg_tasks tg /\
    match o with
    | Some (s, a) => action_signal st s = Some a /\ Z.testbit (sig_mask t) (sig_num s) = false /\
        (pending tg' t' < pending tg t)%nat /\
        (Z.testbit (tg_pending tg) (sig_num SIGKILL) = true -> s = SIGKILL \/ Z.testbit (tg_pending tg') (sig_num SIGKILL) = true)
    | None => Z.testbit (tg_pending tg) (sig_num SIGKILL) = false
    end.
Proof.
  induction fuel as [|fuel IH]; intros tg t Hf Hg Ht Hst; [lia|]. cbn [signal_loop].
  destruct (task_take_spec states tg t Hg Ht) as ([s|] & tg1 & t1 & -> & Hg1 & Ht1 & Htk & Hm & H); ostep.
  - destruct H as (H1 & H2 & H3). destruct (action_signal st s) as [a|] eqn:Ea.
    + eexists (Some (s, a)), tg1, t1. repeat (split; [done|]). split; [lia|]. intros Hk.
      destruct (decide (s = SIGKILL)); [by left|right]. by rewrite H3.
    + assert (Hne : s <> SIGKILL).
      { intros ->. destruct Hst as [Hd _]. unfold action_signal in Ea. by rewrite Hd in Ea. }
      destruct (IH tg1 t1) as (o & tg' & t' & -> & Hg' & Ht' & Htk' & Ho); [lia|done|done|done|].
      exists o, tg', t'. split; [done|]. split; [done|]. split; [done|]. split; [congruence|].
      rewrite <- (H3 Hne). destruct o as [[s' a']|]; [|done]. destruct Ho as (O1 & O2 & O3 & O4).
      split; [done|]. split; [by rewrite <- Hm|]. split; [lia|done].
  - destruct H as (-> & -> & H). eexists None, tg, t. repeat (split; [done|]).
    destruct (Z.testbit (tg_pending tg) (sig_num SIGKILL)) eqn:E; [|done]. specialize (H SIGKILL).
    rewrite E, orb_true_r in H. destruct Ht as [[Hk _] _]. specialize (H eq_refl). congruence.
Qed.

Lemma pending_fuel tg t : (pending tg t < loop_fuel)%nat.
Proof. unfold pending. pose proof (cnt_bits_le (t_pending t)). pose proof (cnt_bits_le (tg_pending tg)). lia. Qed.

(** ** All steps keep the invariant *)

Lemma set_group_inv w g tg : sig_inv w -> group_ok (sigstates w) tg -> sig_inv (set_group w g tg).
Proof. intros [H1 H2] Hg. constructor; simpl; [by apply map_Forall_insert_2|done]. Qed.

Lemma group_ok_states states a st tg : group_ok states tg -> group_ok (<[a := st]> states) tg.
Proof. intros [H1 H2 H3]. constructor; [done|done|]. rewrite lookup_insert. case_decide; [by eexists|done]. Qed.

Lemma set_sigstate_inv w a st : sig_inv w -> sigstate_ok st -> sig_inv (set_sigstate w a st).
Proof.
  intros [H1 H2] Hst. constructor; simpl; [|by apply map_Forall_insert_2].
  intros g tg Hg. apply group_ok_states, (H1 g tg Hg).
Qed.

Lemma deliver_to_inv w g s : sig_inv w -> sig_inv (deliver_to w g s).2.
Proof.
  intros Hw. unfold deliver_to. destruct (groups w !! g) as [tg|] eqn:Eg; [|done].
  apply (set_group_inv w g); [done|]. apply deliver_ok, (si_groups _ Hw g tg Eg).
Qed.

Lemma signal_group_inv w pgid s : sig_inv w -> sig_inv (signal_group w pgid s).
Proof.
  intros [H1 H2]. constructor; simpl; [|done]. intros g tg (tg0 & <- & Hg)%lookup_fmap_Some.
  destruct (tg_pgid tg0 =? pgid); [apply deliver_ok|]; exact (H1 g tg0 Hg).
Qed.

Lemma kill_inv w me pid usig r w' : sig_inv w -> sys_kill w me pid usig = (r, w') -> sig_inv w'.
Proof.
  intros Hw E. unfold sys_kill in E. destruct (user_sig_id usig) as [s|]; [|by injection E as _ <-].
  destruct (pid =? me); [pose proof (deliver_to_inv w me s Hw) as H; by rewrite E in H|].
  destruct (pid >? 0); [pose proof (deliver_to_inv w pid s Hw) as H; by rewrite E in H|].
  destruct (pid =? 0).
  - destruct (groups w !! me); injection E as _ <-; [by apply signal_group_inv|done].
  - destruct (pid =? -1); injection E as _ <-; [done|by apply signal_group_inv].
Qed.

Lemma do_signal_action vdso size aln st user id sa copy r st' :
  do_signal vdso size aln st user id sa copy = Return (r, st') -> action st' = action st.
Proof.
  unfold do_signal. intros ([[addr prev] st1] & Hf & Hc)%obind_Return.
  assert (action st1 = action st) as Ha.
  { assert (Hu : forall z, (let! addr := align (usub (sp_el0 user) size) PAGE_SIZE in Return (addr, 0, st)) = Return z -> z.2 = st).
    { intros z (a & _ & Hz)%obind_Return. by injection Hz as <-. }
    destruct (alt_stack st) as [alt|]; [|apply Hu in Hf; simpl in Hf; by subst].
    destruct (bits_contain _ _); [|apply Hu in Hf; simpl in Hf; by subst].
    apply obind_Return in Hf as ([[[old data]|] alt'] & _ & Hf); [by injection Hf as _ _ <-|apply Hu in Hf; simpl in Hf; by subst]. }
  destruct copy; injection Hc as _ <-; done.
Qed.

Lemma do_signal_return_action st frame r st' : do_signal_return st frame = Return (r, st') -> action st' = action st.
Proof.
  unfold do_signal_return. destruct frame as [f|e]; [|intros H; obind_inv; by simplify_eq].
  destruct (_ =? 0); intros H; obind_inv; by simplify_eq.
Qed.

Lemma new_child_inv w parent share tgid fresh t : sig_inv w -> group_ok (sigstates w) parent -> thread_ok t ->
  sig_inv (new_child w parent share tgid fresh t).
Proof.
  intros Hw [H1 H2 [st Hst]] Ht. unfold new_child. destruct share.
  - apply set_group_inv; [done|]. constructor; [done|by apply Forall_singleton|by exists st].
  - rewrite Hst. pose proof (si_states _ Hw _ _ Hst) as Hok. destruct Hw as [W1 W2]. constructor; simpl.
    + apply map_Forall_insert_2.
      * constructor; [done|by apply Forall_singleton|]. cbn [tg_signals]. rewrite lookup_insert_eq. by eexists.
      * intros g tg Hg. apply group_ok_states, (W1 g tg Hg).
    + by apply map_Forall_insert_2.
Qed.

Lemma sig_step_inv w w' : sig_inv w -> sig_step w w' -> sig_inv w'.
Proof.
  intros Hw Hs. pose proof (si_groups _ Hw) as HG. pose proof (si_states _ Hw) as HS.
  destruct Hs as [w g tg k tid t how set oldset size r t' Hg Hk E|w g tg k tid t m Hg Hk|w a st sig act oact size r st' Ha E
    |w a st ss old_ss r st' Ha E|w me pid usig r w' E|w g tg my_tid tid usig r tg' Hg E|w g tg k tid t s Hg Hk
    |w g tg k tid t st r tg' t' Hg Hk Hst E|w a st vdso size aln user id sa copy r st' Ha E|w a st frame r st' Ha E
    |w g tg k tid t share tgid fresh traced Hg Hk Hn Hf|w g tg k tid t new traced Hg Hk|w a st Ha|w g tg k tid t s Hg Hk
    |w g tg pgid Hg|w g tg k Hg|w g].
  - apply set_group_inv; [done|]. apply with_thread_ok; [by apply (HG g)|].
    eapply sigprocmask_ok; [|exact E]. exact (group_thread _ _ _ _ _ (HG g tg Hg) Hk).
  - apply set_group_inv; [done|]. apply with_thread_ok; [by apply (HG g)|].
    split; [apply mask_ok_ldiff|]. apply (group_thread (sigstates w) tg k tid t (HG g tg Hg) Hk).
  - apply set_sigstate_inv; [done|]. eapply sigaction_ok; [|exact E]. by apply (HS a).
  - apply set_sigstate_inv; [done|]. eapply sigaltstack_ok; [|exact E]. by apply (HS a).
  - by eapply kill_inv.
  - apply set_group_inv; [done|]. pose proof (HG g tg Hg) as [G1 G2 G3]. unfold sys_tkill in E.
    destruct (user_sig_id usig) as [s|]; [|by injection E as _ <-].
    destruct (_ || _); injection E as _ <-; [constructor; [by apply set_signal_ok|done|done]|by constructor].
  - pose proof (HG g tg Hg) as Hgo. pose proof (group_thread _ _ _ _ _ Hgo Hk) as [T1 T2].
    apply set_group_inv; [done|]. apply with_thread_ok; [done|]. split; [done|by apply set_signal_ok].
  - pose proof (HG g tg Hg) as Hgo. pose proof (group_thread _ _ _ _ _ Hgo Hk) as Ht.
    destruct (signal_loop_spec (sigstates w) st loop_fuel tg t (pending_fuel tg t) Hgo Ht (HS _ _ Hst))
      as (o & tg1 & t1 & E1 & Hg1 & Ht1 & _). rewrite E in E1. simplify_eq.
    apply set_group_inv; [done|]. by apply with_thread_ok.
  - apply set_sigstate_inv; [done|]. apply do_signal_action in E. unfold sigstate_ok. rewrite E. by apply (HS a).
  - apply set_sigstate_inv; [done|]. apply do_signal_return_action in E. unfold sigstate_ok. rewrite E. by apply (HS a).
  - pose proof (HG g tg Hg) as Hgo. pose proof (group_thread _ _ _ _ _ Hgo Hk) as [T1 T2].
    apply new_child_inv; [done|done|]. split; [done|]. destruct traced; [apply sig_bit_ok|done].
  - pose proof (HG g tg Hg) as Hgo. pose proof (group_thread _ _ _ _ _ Hgo Hk) as [T1 T2]. destruct Hgo as [G1 G2 G3].
    apply set_group_inv; [done|]. constructor; [done| |done]. apply Forall_app. split; [done|]. constructor; [|constructor].
    split; [done|]. simpl. destruct traced; [apply sig_bit_ok|done].
  - by apply set_sigstate_inv.
  - pose proof (HG g tg Hg) as Hgo. pose proof (group_thread _ _ _ _ _ Hgo Hk) as Ht.
    apply set_group_inv; [done|]. by apply with_thread_ok.
  - pose proof (HG g tg Hg) as [G1 G2 G3]. apply set_group_inv; [done|]. by constructor.
  - pose proof (HG g tg Hg) as [G1 G2 G3]. apply set_group_inv; [done|]. constructor; [done| |done].
    by apply Forall_delete.
  - constructor; simpl; [|done]. by apply map_Forall_delete.
Qed.

Lemma sig_reachable_inv w : sig_reachable w -> sig_inv w.
Proof.
  apply (rtc_ind_r sig_inv sig_boot).
  - constructor; simpl.
    + apply map_Forall_singleton. constructor; simpl; [done| |by eexists]. constructor; [|constructor]. done.
    + apply map_Forall_singleton. done.
  - intros y z _ Hst Hy. by apply (sig_step_inv y).
Qed.

(** ** The pending signals of a thread

    A thread's own pending signals are an atomic word.  Anyone may insert a signal; the takers load the
    word, choose a signal and exchange the word, and start over if it has changed in between. *)

Inductive taker : Type :=
| TIdle
| TLoaded (cur : Z) (sig : SigId).

(** The log has the signals as they are raised ([true]) and taken, the latest first. *)
Record AtomicSigSet := mkAtomic { word : Z; takers : list taker; alog : list (bool * SigId) }.

Inductive atomic_step : AtomicSigSet -> AtomicSigSet -> Prop :=
| as_insert a s : atomic_step a (mkAtomic (Z.lor (word a) (sig_bit s)) (takers a) ((true, s) :: alog a))
| as_load a i mask s :
    takers a !! i = Some TIdle -> peek_signal (word a) mask = Return (Some s) ->
    atomic_step a (mkAtomic (word a) (<[i := TLoaded (word a) s]> (takers a)) (alog a))
| as_exchange a i cur s :
    takers a !! i = Some (TLoaded cur s) -> word a = cur ->
    atomic_step a (mkAtomic (Z.ldiff cur (sig_bit s)) (<[i := TIdle]> (takers a)) ((false, s) :: alog a))
| as_retry a i cur s :
    takers a !! i = Some (TLoaded cur s) -> word a <> cur ->
    atomic_step a (mkAtomic (word a) (<[i := TIdle]> (takers a)) (alog a)).

(** The last that happened to a signal is that it was raised. *)
Fixpoint raised (log : list (bool * SigId)) (s : SigId) : bool :=
  match log with
  | [] => false
  | (b, s') :: log' => if decide (s' = s) then b else raised log' s
  end.

(** Every signal that is taken was raised since it was last taken. *)
Fixpoint taken_once (log : list (bool * SigId)) : Prop :=
  match log with
  | [] => True
  | (true, _) :: log' => taken_once log'
  | (false, s) :: log' => raised log' s = true /\ taken_once log'
  end.

Record atomic_inv (a : AtomicSigSet) : Prop := {
  ai_word : sigset_ok (word a);
  ai_takers : Forall (fun t => match t with TIdle => True | TLoaded cur s => Z.testbit cur (sig_num s) = true end) (takers a);
  ai_raised : forall s, Z.testbit (word a) (sig_num s) = raised (alog a) s;
  ai_taken : taken_once (alog a)
}.

Lemma atomic_step_inv a a' : atomic_inv a -> atomic_step a a' -> atomic_inv a'.
Proof.
  intros [H1 H2 H3 H4] Hst. destruct Hst as [a s|a i mask s Hi Hp|a i cur s Hi Hc|a i cur s Hi Hc].
  - constructor; simpl; [by apply set_signal_ok|done| |done]. intros s'. fold (set_signal (word a) s).
    rewrite set_signal_testbit, H3. case_decide; case_bool_decide; try done; [apply orb_true_r|apply orb_false_r].
  - constructor; simpl; [done| |done|done]. apply Forall_insert; [done|].
    destruct (peek_signal_spec (word a) mask H1) as (o & Eo & Ho). rewrite Hp in Eo. injection Eo as <-. apply Ho.
  - subst cur. pose proof (proj1 (Forall_lookup _ _) H2 i _ Hi) as Hs. simpl in Hs.
    constructor; simpl; [by apply ldiff_ok|by apply Forall_insert| |by rewrite <- H3].
    intros s'. rewrite Z.ldiff_spec, sig_bit_testbit, H3. case_decide; case_bool_decide; try done; [apply andb_false_r|apply andb_true_r].
  - constructor; simpl; [done|by apply Forall_insert|done|done].
Qed.

Lemma atomic_reachable_inv n a : rtc atomic_step (mkAtomic 0 (replicate n TIdle) []) a -> atomic_inv a.
Proof.
  apply (rtc_ind_r atomic_inv).
  - constructor; simpl; [done| | |done].
    + by apply Forall_replicate.
    + intros s. apply Z.bits_0.
  - intros y z _ Hst Hy. by apply (atomic_step_inv y).
Qed.

(** ** Theorems *)

(** C18: SIGKILL cannot be held off.  Whatever signal calls, polls, clones, execs, signal frames and
    returns the processes make, no thread has SIGKILL or SIGSTOP in its mask and both have their default action;
    kill with SIGKILL succeeds on every process there is, makes the signal pending and wakes all
    its threads; and while it is pending, every thread of the process that comes to the dispatcher gets an
    action: it is terminated, or it handles another signal, of which there are fewer each time. *)
Theorem sigkill_unstoppable (w : SigWorld) : sig_reachable w ->
  (forall g tg k tid t, groups w !! g = Some tg -> tg_tasks tg !! k = Some (tid, t) -> mask_ok (sig_mask t)) /\
  (forall a st, sigstates w !! a = Some st -> action st SIGKILL = Default /\ action st SIGSTOP = Default) /\
  (forall me pid tg, 0 < pid -> groups w !! pid = Some tg ->
     exists w' tg', sys_kill w me pid 9 = (Ok 0, w') /\ groups w' !! pid = Some tg' /\
       Z.testbit (tg_pending tg') (sig_num SIGKILL) = true /\ deliver_signal tg SIGKILL = (tg', (tg_tasks tg).*1)) /\
  (forall g tg k tid t st, groups w !! g = Some tg -> tg_tasks tg !! k = Some (tid, t) -> sigstates w !! tg_signals tg = Some st ->
     Z.testbit (tg_pending tg) (sig_num SIGKILL) = true ->
     exists s a tg' t', signal_loop loop_fuel st tg t = Return (Some (s, a), (tg', t')) /\
       (s = SIGKILL /\ a = Term \/ Z.testbit (tg_pending tg') (sig_num SIGKILL) = true /\ (pending tg' t' < pending tg t)%nat)).
Proof.
  intros Hw%sig_reachable_inv. pose proof (si_groups _ Hw) as HG. pose proof (si_states _ Hw) as HS. split; [|split; [exact HS|split]].
  - intros g tg k tid t Hg Hk. exact (proj1 (group_thread _ _ _ _ _ (HG g tg Hg) Hk)).
  - intros me pid tg Hpid Hg. unfold sys_kill. change (user_sig_id 9) with (Ok SIGKILL : result SigId).
    assert (E : deliver_to w pid SIGKILL = (Ok 0, mkSigWorld (<[pid := (deliver_signal tg SIGKILL).1]> (groups w)) (sigstates w))).
    { unfold deliver_to. by rewrite Hg. }
    exists (mkSigWorld (<[pid := (deliver_signal tg SIGKILL).1]> (groups w)) (sigstates w)), (deliver_signal tg SIGKILL).1.
    split; [|split; [apply lookup_insert_eq|done]]. destruct (pid =? me) eqn:Em; breflect; [by subst|].
    by replace (pid >? 0) with true by lia.
  - intros g tg k tid t st Hg Hk Hst Hp. pose proof (HS _ _ Hst) as Hsok.
    destruct (signal_loop_spec (sigstates w) st loop_fuel tg t (pending_fuel tg t) (HG g tg Hg)
      (group_thread _ _ _ _ _ (HG g tg Hg) Hk) Hsok) as (o & tg' & t' & E & _ & _ & _ & Ho).
    destruct o as [[s a]|]; [|congruence]. destruct Ho as (Ha & _ & Hlt & Hor). exists s, a, tg', t'. split; [done|].
    destruct (Hor Hp) as [->|]; [left|right; done]. split; [done|]. destruct Hsok as [Hd _].
    unfold action_signal in Ha. rewrite Hd in Ha. by injection Ha as <-.
Qed.

(** C34: The atomic set of pending signals loses no signal and gives none twice.  However insertions and any
    number of takers interleave, a signal is in the set exactly if it was raised after it was last
    taken, and every signal that is taken was raised since then. *)
Theorem pending_signals_exact (n : nat) (a : AtomicSigSet) : rtc atomic_step (mkAtomic 0 (replicate n TIdle) []) a ->
  (forall s, Z.testbit (word a) (sig_num s) = raised (alog a) s) /\ taken_once (alog a).
Proof. intros Ha%atomic_reachable_inv. split; [apply Ha|apply Ha]. Qed.

(** Frames on the alternate stack are aligned, inside the stack and below what is in use, and
    giving one back restores the stack. *)
Lemma alt_frames_correct a size k : 0 <= start_address (as_range a) -> start_address (as_range a) + rsize (as_range a) < 2 ^ 64 ->
  start_address (as_range a) <= as_ptr a <= end_address (as_range a) -> 0 <= k < 64 -> 0 < size <= as_ptr a ->
  exists o a', alloc_alt_stack a size (2 ^ k) = Return (o, a') /\
    match o with
    | Some (old, new) => old = as_ptr a /\ start_address (as_range a) <= new /\ new + size <= old /\ new mod 2 ^ k = 0 /\
        restore_alt_stack a' old = a
    | None => a' = a
    end.
Proof.
  intros H0 H1 Hp Hk Hs. unfold alloc_alt_stack, align. rewrite is_power_of_two_pow2 by lia. ostep.
  pose proof (pow2_pos k ltac:(lia)) as Hk0. assert (Hk64 : 2 ^ k < 2 ^ 64) by (apply Z.pow_lt_mono_r; lia).
  assert (He : end_address (as_range a) < 2 ^ 64) by apply wrap_ok.
  rewrite !usub_small by lia.
  rewrite (land_unot_ones (as_ptr a - size) k) by (unfold usize_ok; lia).
  set (new := _ - _ mod _). assert (Hnew : new <= as_ptr a - size /\ new mod 2 ^ k = 0).
  { unfold new. pose proof (round_down_bounds (as_ptr a - size) (2 ^ k) Hk0). split; [lia|by apply round_down_multiple]. }
  destruct (contains_address (as_range a) new) eqn:E; simpl.
  - unfold contains_address in E. breflect. eexists _, _. split; [reflexivity|]. simpl. split; [done|]. split; [lia|].
    split; [lia|]. split; [apply Hnew|]. by destruct a.
  - by eexists _, _.
Qed.

(** What rt_sigaction sets is what it reports. *)
Lemma sigaction_roundtrip v : sa_sigaction v <> SIG_DFL -> sa_sigaction v <> SIG_IGN ->
  (bits_contain (sa_flags v) SA_RESTORER = false -> sa_restorer v = 0) -> user_of_action (action_of_user v) = v.
Proof.
  intros H1 H2 H3. unfold action_of_user. replace (sa_sigaction v =? SIG_DFL) with false by lia.
  replace (sa_sigaction v =? SIG_IGN) with false by lia. destruct v as [h f r m]. simpl in *.
  destruct (bits_contain f SA_RESTORER); simpl; [done|]. by rewrite H3.
Qed.

(** ** Witnesses *)

Lemma sigkill_unstoppable_witness :
  exists w', sys_kill sig_boot 1 1 9 = (Ok 0, w').
Proof.
  destruct (sigkill_unstoppable sig_boot (rtc_refl _ _)) as (_ & _ & H & _).
  destruct (H 1 1 (mkGroup 1 0 0 [(1, mkThread 0 0 Runnable)])) as (w' & tg' & E & _); [lia|reflexivity|].
  by exists w'.
Defined.

Lemma pending_signals_exact_witness :
  let a := mkAtomic 0 [TIdle] [(false, SIGINT); (true, SIGINT)] in
  (forall s, Z.testbit (word a) (sig_num s) = raised (alog a) s) /\ taken_once (alog a).
Proof.
  apply (pending_signals_exact 1). eapply rtc_l; [apply (as_insert _ SIGINT)|].
  eapply rtc_l; [apply (as_load _ 0 0 SIGINT); reflexivity|].
  eapply rtc_l; [apply (as_exchange _ 0 2 SIGINT); reflexivity|]. apply rtc_refl.
Defined.

(** ** Defects *)

(** tkill is not directed to its thread: another thread of the group may take the signal, and the thread it names
    is not woken. *)
Lemma tkill_reaches_group :
  let tg := mkGroup 1 0 0 [(1, mkThread 0 0 Running); (2, mkThread 0 0 Sleeping)] in
  exists tg' t', sys_tkill tg 1 2 15 = (Ok 0, tg') /\ task_take_signal tg' (mkThread 0 0 Running) = Return (Some SIGTERM, t').
Proof. eexists _, _. split; vm_compute; reflexivity. Qed.

(** Signal 0, which only asks whether the process exists, is refused. *)
Lemma kill_zero_refused w me pid : sys_kill w me pid 0 = (Err InvalidValue, w).
Proof. done. Qed.

(** A running thread that masks a signal keeps a sleeping one that does not from being woken for it. *)
Lemma masked_thread_absorbs_wakeup :
  (deliver_signal (mkGroup 1 0 0 [(1, mkThread (sig_bit SIGINT) 0 Running); (2, mkThread 0 0 Sleeping)]) SIGINT).2 = [].
Proof. done. Qed.

(** A signal frame made up by the program panics the kernel when there is no alternate stack. *)
Lemma forged_frame_panics st f : alt_stack st = None -> alt_stack_prev_addr f <> 0 -> do_signal_return st (Ok f) = Panic.
Proof. intros Hs Hf. unfold do_signal_return. replace (alt_stack_prev_addr f =? 0) with false by lia. by rewrite Hs. Qed.

(** And it sets every register, the saved program status with its exception level among them. *)
Lemma sigreturn_sets_status st u : exists st', do_signal_return st (Ok (mkFrame u 0)) = Return (Ok u, st').
Proof. by eexists. Qed.

(** An alternate stack that is in use can be replaced. *)
Lemma stack_in_use_replaced : exists st',
  sys_sigaltstack (mkSigState (fun _ => Default) (Some (mkAlt (mkRegion 4096 4096) 6000))) (Some (Ok (mkUserAlt 65536 0 4096))) None
  = (Ok 0, st') /\ alt_stack st' = Some (mkAlt (mkRegion 65536 4096) 69632).
Proof. eexists. split; vm_compute; reflexivity. Qed.
